(* ===== verification/_CoqProject ===== *)
-Q . S2P
Prelude.v
Arrays.v
Memory.v
KString.v
Spinlock.v
Mmu.v
Console.v
Heap.v
HeapInv.v
HeapCorrect.v
HeapProps.v
Alloc.v
SpinQueue.v
Machine.v
MachineLogic.v
HeapCores.v
QueueCores.v
Linearize.v
ContextSwitch.v
Threads.v
BlockDev.v
DiskReader.v
DiskReaderProps.v
Fat32.v
RamDisk.v
DiskSim.v
Fat32Mount.v
Fat32Read.v
Fat32Dir.v
Fat32Lookup.v
Fat32Spec.v
Fat32LongName.v
Fat32Stack.v
Sched.v
SchedInv.v
SchedProps.v
Program.v
ThreadSpec.v
ThreadSim.v
ThreadProgress.v
TestUtil.v
ThreadTests.v
SemaphoreTest.v
HeapTest.v
Smp.v
Boot.v
