(* ===== verification/Prelude.v ===== *)
(** * intro-os: a verification of the kernel

    intro-os is a small SMP kernel for aarch64 (src/kernel): it is started by the
    Limine boot loader on QEMU's virt machine, prints on a UART, runs kernel
    threads on all cores with semaphores and mutexes, and reads files from a
    FAT32 volume on a virtio disk.  This library models all of its C++ and
    assembly code and proves that it does what it is meant to do.

    ** How the parts depend on each other

    - string.cpp, spinlock.hpp, heap.cpp and spin_queue.cpp work on memory that
      other code also uses: they are modelled on byte memory with checked
      accesses ([Memory]).  Everything that allocates does so through the
      interface [Allocator], which the heap implements ([heap_allocator]).
    - context_switch.S, tcb.cpp and the constructors of threads.cpp are modelled
      on the same memory, with the registers of one core.
    - percore.cpp, scheduler.cpp, semaphore.cpp, mutex.cpp and the switching
      functions of threads.cpp are about many cores: [Sched] is one state for all
      of them, and a step is one access to shared state by one core.
    - console.cpp and disk_reader.cpp drive devices.  The devices are parameters:
      the classes [Uart] and [VirtioMmio] are their registers, [UartLaws] and
      [VirtioBlkLaws] what their documentation promises.
    - fat32.cpp reads a disk through the interface [BlockDevice]; the driver
      implements it as long as the disk answers in time ([driver_laws]), and so
      does a disk in memory ([RamDisk]).
    - mmu.cpp, smp.cpp and main.cpp bring everything up; [Boot] composes them.
    - main() is a program on top of all that: src/tests has one per test.  A
      program calls threads::go, yield and stop, Semaphore::up and down and
      console::print; [Program] puts the code of its threads on the cores of
      [Sched], and [ThreadSpec] is what a program may expect of the kernel.

    ** The files

    - [Prelude] (this file): fixed-width integers, the monad [ST] of code that has
      a state and may fault, tactics, hint databases, generic lemmas.  [Arrays]:
      arrays on the stack as lists with checked accesses.  [Memory]: byte memory,
      64-bit loads and stores, [same_on].
    - [KString]: kernel/src/string.cpp.
    - [Spinlock]: include/spinlock.hpp in memory; [SpinlockCores], its step
      relation for any number of cores.
    - [Mmu]: src/mmu.cpp, with the part of the architecture's translation that
      gives the registers and the table their meaning.
    - [Console]: src/console.cpp and src/panic.cpp; [ConsoleCores] has any number
      of cores run print, cut into its accesses to the lock and the UART.
    - [Heap]: src/heap.cpp.  [HeapInv]: the abstract heap, a list of blocks, and
      the relation [heap_rep].  [HeapCorrect]: each operation implements its
      abstract counterpart.  [HeapProps]: the theorems.  [Alloc]: the class
      [Allocator], which clients are verified against, and its instance.
    - [SpinQueue]: src/spin_queue.cpp.
    - [Machine]: the code of the heap and the queue cut into single accesses to
      memory, and a machine of any number of cores that interleave between any two
      of them.  [MachineLogic]: a separation logic for it, on Iris, with its
      adequacy theorem.  [HeapCores], [QueueCores]: what malloc, free, push, pop and
      empty promise to cores that call them at the same time, and the theorem about
      the heap.  [Linearize]: the theorem about the queue.
    - [ContextSwitch]: src/context_switch.S, the instructions it uses as a small
      instruction set.  [Threads]: src/tcb.cpp and the part of src/threads.cpp that
      makes and destroys threads.
    - [BlockDev]: the interface to a disk.  [DiskReader]: src/disk_reader.cpp;
      [DiskReaderProps]: its theorems, against the laws of virtio-blk, which do not
      say how long a request takes: [unanswered] counts the requests the driver has
      given up on; [DiskSim]: a simulated device, fast or slow, that satisfies the
      laws.
    - [Fat32]: src/fat32.cpp and include/fat32.hpp.  [Fat32Mount], [Fat32Read],
      [Fat32Dir], [Fat32Lookup], [Fat32LongName]: its constructor, File::read, how
      the driver reads directories, find, and long names.  [Fat32Spec]: directories
      and paths as the FAT32 format defines them, and that find implements them.
      [RamDisk]: a volume in memory on which the statements are evaluated.
      [Fat32Stack]: the driver and the file system together.
    - [Sched]: src/percore.cpp, src/scheduler.cpp, src/semaphore.cpp, src/mutex.cpp
      and stop, yield and go.  [SchedInv]: the invariant.  [SchedProps]: the
      theorems.
    - [Program]: programs, and cores that run their threads' code between the steps
      of [Sched].  [ThreadSpec]: the specification of the thread library, threads
      and semaphores without cores, queues or locks, and what each step of a core
      is in it.  [ThreadSim]: the kernel implements it.  [ThreadProgress]: cores
      are never all stuck, and programs that end, end on the kernel.
    - [TestUtil]: tests/test_util.hpp, and how an invariant of a program's threads
      becomes a theorem about the cores.  [ThreadTests]: tests/hello.cpp,
      tests/multithreading.cpp and tests/yield.cpp, and the kernel's own main().
      [SemaphoreTest]: tests/semaphore.cpp.  [HeapTest]: tests/heap.cpp.
    - [Smp]: src/smp.cpp and the boot messages of src/main.cpp.  [Boot]: kmain up to
      the release of the other cores, percore::init, ap_entry, and threads::go in
      memory.  The rest of kmain is in [Program] ([boot_code]), interleaved with the
      other cores.

    Definitions have the names of the functions they model.  A loop or a part of
    a function that is a definition of its own says in its comment which lines it
    is.  Operations that another core can see in the middle are split into one
    definition per step ([up_step], [down_step], [idle_step]).

    ** What the theorems show

    - Heap: malloc is first fit and free coalesces on the abstract list of blocks;
      under any sequence of calls by a client that writes to its blocks the tags
      stay consistent and the blocks aligned, inside the arena and disjoint, with
      what the client wrote in them; malloc returns null exactly when no block
      fits; a size within 15 bytes of 2^64 wraps, and is granted at most 16 bytes.
    - Queue, lock, strings: the queue is a FIFO and frees its nodes; the spinlock
      excludes; memmove copies whatever the overlap.
    - Heap and queue shared by cores, for every interleaving of single accesses:
      nothing faults, a core finds in its blocks what it wrote, and the operations
      on queues are linearizable; a core that is alone runs the code of [Heap] and
      [SpinQueue].
    - Threads: a context switch back resumes a thread with its registers and
      stack; a new thread starts in its function on its own stack; deleting it
      returns exactly its memory; threads::go appends a new thread to the ready
      queue.
    - Scheduling, for every interleaving of eight cores and whatever the threads
      call: no assertion fails and no TCB is used after it is freed, deleted while
      it is in use, or switched to while another core has its context; every
      thread is in exactly one place; a semaphore's counter is its waiters, and
      fits its type; a mutex excludes; a lock that is taken is given back in at most
      seven steps of its core, whatever the others do in between; what happens to a
      thread that yields, returns or blocks; an idle core runs the thread that has
      waited longest.
    - The thread library: whatever a program does and however the cores interleave,
      its shared variables and its output are those of an execution of its threads
      in the specification; a core faults only where a thread has undefined
      behaviour; when the cores are idle every thread that is left waits for a
      semaphore that is zero; and a program whose threads end in the specification
      ends on the cores.
    - The tests: multithreading and yield pass, semaphore never sees down() return
      too early and gives a verdict, for every interleaving; heap passes on every
      heap with room for its block.
    - Console: print transmits its string however slow the UART, calls from
      different cores do not mix, numbers are formatted correctly.
    - Disk: the driver initialises the device in the order virtio prescribes; a
      read returns, and stores the right sectors if it succeeds, from any state in
      which driver and device agree, and they agree again unless the read failed
      for a request that was not answered in time; on a device that answers in time
      the driver is a block device; after a timeout it may return stale data.
    - File system, on volumes within FAT32's cluster limit: mounting reads the
      fields of the boot sector, accepts exactly the FAT32 volumes that fit and
      checks what the other operations rely on; find, for paths without '?', is
      path resolution on the directories stored on the disk; a file's bytes are
      what read returns, and the whole of it on a disk that works; long names are
      found in any spelling; the driver and the file system together return a
      file's bytes from the disk, as long as the driver has given up on no request.
    - Boot: each core gets its own id, whenever it starts; when kmain releases the
      other cores the console is mapped and the memory holds the initial state of
      [Sched].

    ** Fuel and bounds

    Loops that are not structural take fuel, and the theorems show that the fuel
    given is enough: [malloc_fuel] is more than the number of blocks the arena can
    hold; a FAT chain is followed for as many clusters as the volume has, as in
    the code; [find] has one unit per character of the path; [File::read] one per
    byte; [append_uint] one per digit of 2^64.  Polling loops have the bound the
    code gives them ([kPollLimit]) or, for the UART, the bound its law states.
    The kernel has eight cores ([kMaxCores]); theorems about it are for all of them,
    and a core that never starts is one that takes no step.  A machine with more
    cores is outside the theorems: the code does not check for it.
    Machine integers are [Z] reduced to their width after every operation that
    can leave it.  The counter of a semaphore, an int64_t, is not reduced, since
    its overflow is undefined: [semaphore_counts_waiters] shows that it stays within
    its type as long as the initial count and the up()s do.

    ** What is not modelled

    - Weak memory: cores interleave on one memory.  Barriers and cache and TLB
      maintenance have no effect in the model.  The spinlock's acquire and
      release, and the release store of smp::init, are what the code relies on.
    - In [Sched] an operation on a queue is one step and [new] and [delete] take
      effect at once.  [Linearize] shows that each operation of the queue
      has a moment at which it takes effect; that the steps of [Sched] around them are those of the
      machine of [Machine] is not proved.
    - What kmain prints and allocates after it has released the cores depends on
      what they do: the banner is verified for a core that has the console to
      itself, and that the text of a print is not mixed with others in [Console].
    - What a file-system operation returns after the driver has given up on a
      request: it may be stale ([stale_data_after_timeout]).
    - Stack overflow of a thread, and running out of memory, which halts the core:
      [operator_new] has no result then, and is [Halt] in [Machine].
    - In [Program] a call of console::print is one step; [Console] shows that calls
      do not mix.  The yield test may spin for as long as the scheduler lets it:
      that it ends is not shown, for want of a fair scheduler.
    - include/limine.h is the boot loader's; its responses are arguments.  The
      linker script and the Makefile are not code.  tests/disk_reader.cpp and
      tests/fat32.cpp compare a disk image that the Makefile generates with what
      the driver and the file system return; there is no image to model.

    ** Possible extensions

    Progress of the machine of [Machine] (a core that waits for a lock can get it);
    fairness of the ready queue across cores as a statement about infinite runs,
    and with it the end of the yield test; that the steps of [Sched] are those of
    [Machine]. *)

From stdpp Require Export base tactics numbers list gmap fin_maps.
From Stdlib Require Export ZArith Lia.

#[global] Open Scope Z_scope.

(** ** Fixed-width unsigned arithmetic

    A [uintN_t] of the source is a [Z] in [0 .. 2^N); every operation of the
    source that can leave that range is followed by the matching wrap. *)

Definition u8 (x : Z) : Z := x mod 2 ^ 8.
Definition u16 (x : Z) : Z := x mod 2 ^ 16.
Definition u32 (x : Z) : Z := x mod 2 ^ 32.
Definition u64 (x : Z) : Z := x mod 2 ^ 64.

(** An [int], where the source makes it wrap around. *)
Definition i32 (x : Z) : Z := (x + 2 ^ 31) mod 2 ^ 32 - 2 ^ 31.

Declare Scope machine_scope.
Delimit Scope machine_scope with mach.
Notation "x +₆₄ y" := (u64 (x + y)) (at level 50, left associativity) : machine_scope.
Notation "x -₆₄ y" := (u64 (x - y)) (at level 50, left associativity) : machine_scope.
Notation "x *₆₄ y" := (u64 (x * y)) (at level 40, left associativity) : machine_scope.
Notation "x +₃₂ y" := (u32 (x + y)) (at level 50, left associativity) : machine_scope.
Notation "x -₃₂ y" := (u32 (x - y)) (at level 50, left associativity) : machine_scope.
Notation "x *₃₂ y" := (u32 (x * y)) (at level 40, left associativity) : machine_scope.

Definition is_byte (b : Z) : Prop := 0 ≤ b < 256.
Definition is_u16 (x : Z) : Prop := 0 ≤ x < 2 ^ 16.
Definition is_u32 (x : Z) : Prop := 0 ≤ x < 2 ^ 32.
Definition is_u64 (x : Z) : Prop := 0 ≤ x < 2 ^ 64.

(** C++'s conversion of [bool] to an integer. *)
Definition b2z (b : bool) : Z := if b then 1 else 0.

(** ** Little-endian byte strings *)

Fixpoint le_bytes (n : nat) (v : Z) : list Z :=
  match n with
  | O => []
  | S k => v mod 256 :: le_bytes k (v / 256)
  end.

Fixpoint le_value (l : list Z) : Z :=
  match l with
  | [] => 0
  | b :: r => b + 256 * le_value r
  end.

(** ** Code with state and faults

    A piece of code is a function from the state it runs in to its result and
    the state it leaves; [None] means that it has no result: it makes an access
    the machine does not allow, or never returns. *)

Definition ST (S A : Type) : Type := S → option (A * S).

#[export] Instance ST_ret {S} : MRet (ST S) := λ A x s, Some (x, s).
#[export] Instance ST_bind {S} : MBind (ST S) :=
  λ A B k c s, match c s with Some (x, s1) => k x s1 | None => None end.

Definition fault {S A} : ST S A := λ _, None.

(** A computation that does not touch the state. *)
Definition checked {S A} (o : option A) : ST S A :=
  λ s, match o with Some x => Some (x, s) | None => None end.

(** ** Tactics and hint databases *)

Create HintDb machine discriminated.

(** Case analysis on the boolean comparisons the models branch on. *)
Ltac zbool :=
  repeat match goal with
  | H : (_ <? _) = true |- _ => apply Z.ltb_lt in H
  | H : (_ <? _) = false |- _ => apply Z.ltb_ge in H
  | H : (_ <=? _) = true |- _ => apply Z.leb_le in H
  | H : (_ <=? _) = false |- _ => apply Z.leb_gt in H
  | H : (_ =? _) = true |- _ => apply Z.eqb_eq in H
  | H : (_ =? _) = false |- _ => apply Z.eqb_neq in H
  | H : (_ && _) = true |- _ => apply andb_prop in H as [??]
  | H : (_ || _) = false |- _ => apply orb_false_elim in H as [??]
  | H : negb _ = true |- _ => apply negb_true_iff in H
  | H : negb _ = false |- _ => apply negb_false_iff in H
  end.

Ltac zdestruct x := let E := fresh "E" in destruct x eqn:E; zbool.

(** Linear arithmetic with division and remainder by constants. *)
Ltac dlia := Z.div_mod_to_equations; lia.

(** ** Generic lemmas *)

Lemma u64_small x : 0 ≤ x < 2 ^ 64 → u64 x = x.
Proof. apply Z.mod_small. Qed.

Lemma u32_small x : 0 ≤ x < 2 ^ 32 → u32 x = x.
Proof. apply Z.mod_small. Qed.

Lemma i32_small x : - 2 ^ 31 ≤ x < 2 ^ 31 → i32 x = x.
Proof. intros Hx. unfold i32. rewrite Z.mod_small; lia. Qed.

Lemma u64_range x : 0 ≤ u64 x < 2 ^ 64.
Proof. by apply Z.mod_pos_bound. Qed.

Lemma u32_range x : 0 ≤ u32 x < 2 ^ 32.
Proof. by apply Z.mod_pos_bound. Qed.

Lemma u8_range x : 0 ≤ u8 x < 2 ^ 8.
Proof. by apply Z.mod_pos_bound. Qed.

Lemma b2z_range b : 0 ≤ b2z b < 2.
Proof. destruct b; simpl; lia. Qed.

Lemma length_le_bytes n v : length (le_bytes n v) = n.
Proof. revert v; induction n as [|n IH]; intros v; simpl; [done|]. by rewrite IH. Qed.

Lemma le_bytes_byte n v : Forall is_byte (le_bytes n v).
Proof.
  revert v; induction n as [|n IH]; intros v; simpl; constructor; [|apply IH].
  unfold is_byte. dlia.
Qed.

Lemma pow256_S n : 256 ^ Z.of_nat (S n) = 256 * 256 ^ Z.of_nat n.
Proof. rewrite Nat2Z.inj_succ, Z.pow_succ_r; lia. Qed.

Lemma pow256_pos n : 0 < 256 ^ Z.of_nat n.
Proof. apply Z.pow_pos_nonneg; lia. Qed.

(** Reading back a little-endian encoding gives the value, cut to its width. *)
Lemma le_value_bytes n v : le_value (le_bytes n v) = v mod 256 ^ Z.of_nat n.
Proof.
  revert v; induction n as [|n IH]; intros v; cbn [le_bytes le_value].
  - by rewrite Z.mod_1_r.
  - rewrite IH, pow256_S. pose proof (pow256_pos n).
    rewrite Z.rem_mul_r by lia. lia.
Qed.

Lemma le_value_range l :
  Forall is_byte l → 0 ≤ le_value l < 256 ^ Z.of_nat (length l).
Proof.
  induction 1 as [|b l Hb _ IH]; [simpl; lia|].
  cbn [length le_value]. rewrite pow256_S. unfold is_byte in Hb. lia.
Qed.

Lemma le_bytes_value l :
  Forall is_byte l → le_bytes (length l) (le_value l) = l.
Proof.
  induction 1 as [|b l Hb _ IH]; [done|].
  cbn [length le_value le_bytes]. unfold is_byte in Hb.
  f_equal; [dlia|]. replace ((b + 256 * le_value l) / 256) with (le_value l) by dlia.
  done.
Qed.

(** Bit fields. *)
Lemma lor_shiftl a b k : 0 ≤ k → 0 ≤ a < 2 ^ k → Z.lor a (Z.shiftl b k) = a + 2 ^ k * b.
Proof.
  intros Hk Ha. rewrite Z.mul_comm, <- Z.shiftl_mul_pow2 by done.
  pose proof (Z.add_lor_land a (Z.shiftl b k)) as E.
  replace (Z.land a (Z.shiftl b k)) with 0 in E; [lia|]. symmetry.
  apply Z.bits_inj'. intros i Hi. rewrite Z.land_spec, Z.bits_0, Z.shiftl_spec by done.
  destruct (decide (i < k)).
  - by rewrite (Z.testbit_neg_r b), andb_false_r by lia.
  - destruct (decide (a = 0)) as [->|]; [by rewrite Z.bits_0|].
    rewrite Z.bits_above_log2; [done|lia|]. apply Z.lt_le_trans with k; [|lia].
    apply Z.log2_lt_pow2; lia.
Qed.

Lemma land_bit_ge b k : 0 ≤ k → negb (Z.land b (2 ^ k) =? 0) = Z.testbit b k.
Proof.
  intros Hk. destruct (Z.testbit b k) eqn:E.
  - apply negb_true_iff, Z.eqb_neq. intros H. apply (f_equal (λ x, Z.testbit x k)) in H.
    rewrite Z.land_spec, E, Z.pow2_bits_true, Z.bits_0 in H by done. done.
  - apply negb_false_iff, Z.eqb_eq. apply Z.bits_inj'. intros i Hi.
    rewrite Z.land_spec, Z.bits_0. destruct (decide (i = k)) as [->|].
    + by rewrite E.
    + rewrite Z.pow2_bits_false by lia. apply andb_false_r.
Qed.

(** ** Running code *)

Section Running.
Context {S : Type}.

Lemma bind_run {A B} (c : ST S A) (k : A → ST S B) m x m1 :
  c m = Some (x, m1) → (c ≫= k) m = k x m1.
Proof. intros E. unfold mbind, ST_bind. by rewrite E. Qed.

Lemma bind_ret {A B} (x : A) (k : A → ST S B) m : (mret x ≫= k) m = k x m.
Proof. done. Qed.

Lemma bind_assoc_run {A B C} (c : ST S A) (k : A → ST S B) (h : B → ST S C) m :
  ((c ≫= k) ≫= h) m = (c ≫= λ x, k x ≫= h) m.
Proof. unfold mbind, ST_bind. by destruct (c m) as [[x m1]|]. Qed.

Lemma bind_run_inv {A B} (c : ST S A) (k : A → ST S B) m y m2 :
  (c ≫= k) m = Some (y, m2) →
  ∃ x m1, c m = Some (x, m1) ∧ k x m1 = Some (y, m2).
Proof. unfold mbind, ST_bind. destruct (c m) as [[x m1]|]; naive_solver. Qed.

Lemma bind_checked {A B} (o : option A) (k : A → ST S B) m x :
  o = Some x → (checked o ≫= k) m = k x m.
Proof. by intros ->. Qed.
End Running.

(** [mstep H] runs the first operation of the code in the goal with [H];
    the side conditions of [H] are left after the main goal. *)
Ltac mstep H := erewrite bind_run; [|eapply H].

(** ** Bounded polling

    [while (poll) if (++n > limit) return false;] with a limit too large for a
    unary counter: [spin body p] runs [body] at most [p] times, until it leaves
    the loop with [inr]. *)

Fixpoint spin {A B} (body : A → A + B) (p : positive) (s : A) : A + B :=
  match p with
  | xH => body s
  | xO q => match spin body q s with inl s1 => spin body q s1 | inr r => inr r end
  | xI q =>
      match body s with
      | inl s1 => match spin body q s1 with inl s2 => spin body q s2 | inr r => inr r end
      | inr r => inr r
      end
  end.

Section Spin.
Context {A B : Type} (body : A → A + B).

Fixpoint spin_nat (n : nat) (s : A) : A + B :=
  match n with
  | O => inl s
  | S k => match body s with inl s1 => spin_nat k s1 | inr r => inr r end
  end.

Lemma spin_nat_add a b s :
  spin_nat (a + b) s = match spin_nat a s with inl s1 => spin_nat b s1 | inr r => inr r end.
Proof. revert s; induction a as [|a IH]; intros s; simpl; [done|]. destruct (body s); [apply IH|done]. Qed.

Lemma spin_unary p s : spin body p s = spin_nat (Pos.to_nat p) s.
Proof.
  revert s; induction p as [p IH|p IH|]; intros s; cbn [spin].
  - rewrite Pos2Nat.inj_xI. replace (2 * Pos.to_nat p)%nat with (Pos.to_nat p + Pos.to_nat p)%nat by lia.
    cbn [spin_nat]. destruct (body s) as [s1|]; [|done]. rewrite spin_nat_add, IH.
    by destruct (spin_nat (Pos.to_nat p) s1).
  - rewrite Pos2Nat.inj_xO. replace (2 * Pos.to_nat p)%nat with (Pos.to_nat p + Pos.to_nat p)%nat by lia.
    rewrite spin_nat_add, IH. by destruct (spin_nat (Pos.to_nat p) s).
  - simpl. by destruct (body s).
Qed.

(** A loop whose body makes progress towards leaving it, leaves it. *)
Lemma spin_leaves (I : nat → A → Prop) (R : B → Prop) p n s :
  (∀ k s, I k s → match body s with inl s' => ∃ j, k = S j ∧ I j s' | inr r => R r end) →
  I n s → (n < Pos.to_nat p)%nat → ∃ r, spin body p s = inr r ∧ R r.
Proof.
  intros Hb. rewrite spin_unary. generalize (Pos.to_nat p). intros N HI HN.
  revert n s HI HN. induction N as [|N IH]; intros n s HI HN; [lia|]. cbn [spin_nat].
  specialize (Hb n s HI). destruct (body s) as [s'|r]; [|by exists r].
  destruct Hb as (j & -> & HI'). apply (IH j); [done|lia].
Qed.

(** A loop whose body keeps [I] or leaves with [R] does one of the two. *)
Lemma spin_ends (I : A → Prop) (R : B → Prop) p s :
  (∀ s, I s → match body s with inl s' => I s' | inr r => R r end) →
  I s → match spin body p s with inl s' => I s' | inr r => R r end.
Proof.
  intros Hb. rewrite spin_unary. generalize (Pos.to_nat p). intros N. revert s.
  induction N as [|N IH]; intros s HI; [done|]. cbn [spin_nat].
  specialize (Hb s HI). destruct (body s); [by apply IH|done].
Qed.

(** A loop whose body never leaves it runs into the limit. *)
Lemma spin_stalls (I : A → Prop) p s :
  (∀ s, I s → ∃ s', body s = inl s' ∧ I s') → I s → ∃ s', spin body p s = inl s' ∧ I s'.
Proof.
  intros Hb. rewrite spin_unary. generalize (Pos.to_nat p). intros N. revert s.
  induction N as [|N IH]; intros s HI; [by exists s|]. cbn [spin_nat].
  destruct (Hb s HI) as (s1 & -> & HI1). by apply IH.
Qed.
End Spin.

#[export] Hint Resolve u64_range u32_range u8_range b2z_range le_bytes_byte : machine.
