(* ===== verification/Arrays.v ===== *)
(** * Local arrays

    A local array of the code is the list of its bytes; an access outside it has
    no result, so that totality of a model is memory safety. *)

From S2P Require Import Prelude.

Definition arr_get (l : list Z) (i : Z) : option Z :=
  if 0 <=? i then l !! Z.to_nat i else None.

(** [memcpy] from [l + i], [n] bytes. *)
Definition arr_slice (l : list Z) (i n : Z) : option (list Z) :=
  if (0 <=? i) && (0 <=? n) && (i + n <=? Z.of_nat (length l))
  then Some (take (Z.to_nat n) (drop (Z.to_nat i) l)) else None.

(** Stores [bytes] at [l + i]. *)
Definition arr_write (l : list Z) (i : Z) (bytes : list Z) : option (list Z) :=
  if (0 <=? i) && (i + Z.of_nat (length bytes) <=? Z.of_nat (length l))
  then Some (take (Z.to_nat i) l ++ bytes ++ drop (Z.to_nat i + length bytes) l) else None.

(** The part of [l] before the first [x]; a C string is [before 0]. *)
Fixpoint before (x : Z) (l : list Z) : list Z :=
  match l with
  | [] => []
  | y :: r => if y =? x then [] else y :: before x r
  end.

(** ** Lemmas *)

Lemma arr_get_some l i : 0 ≤ i < Z.of_nat (length l) → ∃ b, arr_get l i = Some b.
Proof.
  intros Hi. unfold arr_get. rewrite (proj2 (Z.leb_le _ _)) by lia.
  apply lookup_lt_is_Some. lia.
Qed.

Lemma arr_get_lookup l i : 0 ≤ i → arr_get l i = l !! Z.to_nat i.
Proof. intros Hi. unfold arr_get. by rewrite (proj2 (Z.leb_le _ _)). Qed.

Lemma arr_write_some l i bytes :
  0 ≤ i → i + Z.of_nat (length bytes) ≤ Z.of_nat (length l) →
  arr_write l i bytes =
    Some (take (Z.to_nat i) l ++ bytes ++ drop (Z.to_nat i + length bytes) l).
Proof.
  intros ??. unfold arr_write. by rewrite !(proj2 (Z.leb_le _ _)) by lia.
Qed.

Lemma arr_write_length l i bytes l' : arr_write l i bytes = Some l' → length l' = length l.
Proof.
  unfold arr_write. case_match eqn:E; [|done]. zbool. intros ?. simplify_eq.
  rewrite !length_app, length_take, length_drop. lia.
Qed.

Lemma arr_write_ok l i bytes :
  0 ≤ i → i + Z.of_nat (length bytes) ≤ Z.of_nat (length l) →
  ∃ l', arr_write l i bytes = Some l' ∧ length l' = length l.
Proof.
  intros ??. rewrite arr_write_some by done. eexists. split; [done|].
  eapply arr_write_length, arr_write_some; done.
Qed.

Lemma arr_write_lookup l i bytes l' (k : nat) :
  arr_write l i bytes = Some l' →
  l' !! k = if decide (i ≤ Z.of_nat k < i + Z.of_nat (length bytes))
            then bytes !! (k - Z.to_nat i)%nat else l !! k.
Proof.
  unfold arr_write. case_match eqn:E; [|done]. zbool. intros ?. simplify_eq.
  case_decide as Hk.
  - rewrite lookup_app_r, lookup_app_l by (rewrite length_take; lia).
    f_equal. rewrite length_take. lia.
  - destruct (decide (Z.of_nat k < i)).
    + rewrite lookup_app_l by (rewrite length_take; lia). by rewrite lookup_take_lt by lia.
    + rewrite lookup_app_r by (rewrite length_take; lia). rewrite length_take.
      rewrite lookup_app_r by lia. rewrite lookup_drop. f_equal. lia.
Qed.

(** Storing byte by byte is storing them at once. *)
Lemma arr_write_app l i b bs l1 :
  arr_write l i [b] = Some l1 → arr_write l1 (i + 1) bs = arr_write l i (b :: bs).
Proof.
  intros E. pose proof (arr_write_length _ _ _ _ E) as Hl.
  assert (0 ≤ i) by (unfold arr_write in E; case_match; [zbool; lia|done]).
  destruct (decide (i + Z.of_nat (S (length bs)) ≤ Z.of_nat (length l))).
  - destruct (arr_write_ok l1 (i + 1) bs) as (l2 & E2 & _); [lia..|].
    destruct (arr_write_ok l i (b :: bs)) as (l3 & E3 & _); [done|done|]. rewrite E2, E3. f_equal.
    apply list_eq. intros k. rewrite (arr_write_lookup _ _ _ _ k E2), (arr_write_lookup _ _ _ _ k E3),
      (arr_write_lookup _ _ _ _ k E). simpl length.
    repeat case_decide; try lia; try done.
    + replace (k - Z.to_nat i)%nat with (S (k - Z.to_nat (i + 1))) by lia. done.
    + replace (k - Z.to_nat i)%nat with O by lia. done.
  - unfold arr_write. rewrite (proj2 (Z.leb_gt (i + 1 + _) _)), (proj2 (Z.leb_gt (i + _) _))
      by (simpl; lia). by rewrite !andb_false_r.
Qed.
