(* ===== verification/Memory.v ===== *)
(** * Byte-addressed kernel memory and the monad of the code that uses it

    The kernel reads and writes one flat 64-bit address space through raw
    pointers.  A memory is a finite map from addresses to bytes; an address
    with no entry holds 0, as [.bss] does at boot, and a cell holds a byte.  [AddressSpace] says which
    addresses are backed by memory: an access elsewhere has no result.  A
    piece of code is a function from a memory to its result and the memory it
    leaves ([None]: it faults, or never returns). *)

From S2P Require Import Prelude.

Abbreviation mem := (gmap Z Z).

Class AddressSpace := mapped : Z → bool.

(** ** Raw reads and writes *)

Definition rd (m : mem) (a : Z) : Z := u8 (default 0 (m !! a)).

Fixpoint rd_bytes (m : mem) (a : Z) (n : nat) : list Z :=
  match n with
  | O => []
  | S k => rd m a :: rd_bytes m (a + 1) k
  end.

Fixpoint wr_bytes (m : mem) (a : Z) (l : list Z) : mem :=
  match l with
  | [] => m
  | b :: r => wr_bytes (<[a := b]> m) (a + 1) r
  end.

Definition rd64 (m : mem) (a : Z) : Z := le_value (rd_bytes m a 8).
Definition wr64 (m : mem) (a v : Z) : mem := wr_bytes m a (le_bytes 8 v).

(** ** Code: state passing over memory ([ST] of [Prelude]) *)

Abbreviation M := (ST mem).

Section Access.
Context `{AddressSpace}.

Fixpoint all_mapped (a : Z) (n : nat) : bool :=
  match n with
  | O => true
  | S k => mapped a && all_mapped (a + 1) k
  end.

Definition load8 (a : Z) : M Z :=
  λ m, if mapped a then Some (rd m a, m) else None.

Definition store8 (a v : Z) : M unit :=
  λ m, if mapped a then Some (tt, <[a := v]> m) else None.

Definition load64 (a : Z) : M Z :=
  λ m, if all_mapped a 8 then Some (rd64 m a, m) else None.

Definition store64 (a v : Z) : M unit :=
  λ m, if all_mapped a 8 then Some (tt, wr64 m a v) else None.

(** [mapped_range a n]: the [n] bytes at [a] are backed by memory. *)
Definition mapped_range (a n : Z) : Prop :=
  ∀ x, a ≤ x < a + n → mapped x = true.

(** [for (i = lo; i < lo + n; i++) body(i)] *)
Fixpoint for_up (lo : Z) (n : nat) (body : Z → M unit) : M unit :=
  match n with
  | O => mret tt
  | S k => body lo ;; for_up (lo + 1) k body
  end.

(** [for (i = n; i > 0; i--) body(i)] *)
Fixpoint for_down (n : nat) (body : Z → M unit) : M unit :=
  match n with
  | O => mret tt
  | S k => body (Z.of_nat n) ;; for_down k body
  end.
End Access.

(** [same_on P m m']: the two memories hold the same bytes on [P]. *)
Definition same_on (P : Z → Prop) (m m' : mem) : Prop :=
  ∀ x, P x → rd m x = rd m' x.

(** ** Lemmas: raw reads and writes *)

#[export] Instance same_on_equivalence P : Equivalence (same_on P).
Proof.
  split.
  - by intros m x _.
  - intros m1 m2 E x Hx. by rewrite E.
  - intros m1 m2 m3 E1 E2 x Hx. rewrite E1 by done. by apply E2.
Qed.

Lemma same_on_weaken (P Q : Z → Prop) m m' :
  same_on P m m' → (∀ x, Q x → P x) → same_on Q m m'.
Proof. intros E HQ x Hx. by apply E, HQ. Qed.

Lemma rd_insert m a v x : rd (<[a := v]> m) x = if decide (a = x) then u8 v else rd m x.
Proof. unfold rd. rewrite lookup_insert. by case_decide. Qed.

Lemma rd_wr_bytes_out m a l x :
  x < a ∨ a + Z.of_nat (length l) ≤ x → rd (wr_bytes m a l) x = rd m x.
Proof.
  revert m a; induction l as [|b l IH]; intros m a Hx; cbn [wr_bytes length] in *; [done|].
  rewrite IH by lia. rewrite rd_insert, decide_False; [done|lia].
Qed.

Lemma rd_wr_bytes_in m a l (i : nat) b :
  l !! i = Some b → rd (wr_bytes m a l) (a + Z.of_nat i) = u8 b.
Proof.
  revert m a i; induction l as [|c l IH]; intros m a i Hi; [done|].
  destruct i as [|i]; simpl in Hi |- *.
  - simplify_eq. rewrite rd_wr_bytes_out by lia.
    rewrite rd_insert, decide_True; [done|lia].
  - replace (a + Z.of_nat (S i)) with (a + 1 + Z.of_nat i) by lia. by apply IH.
Qed.

Lemma length_rd_bytes m a n : length (rd_bytes m a n) = n.
Proof. revert a; induction n as [|n IH]; intros a; simpl; [done|]. by rewrite IH. Qed.

Lemma lookup_rd_bytes m a n (i : nat) :
  (i < n)%nat → rd_bytes m a n !! i = Some (rd m (a + Z.of_nat i)).
Proof.
  revert a i; induction n as [|n IH]; intros a i Hi; [lia|].
  destruct i as [|i]; simpl; [by rewrite Z.add_0_r|].
  rewrite IH by lia. do 2 f_equal. lia.
Qed.

Lemma rd_bytes_ext m m' a n :
  same_on (λ x, a ≤ x < a + Z.of_nat n) m m' → rd_bytes m a n = rd_bytes m' a n.
Proof.
  revert a; induction n as [|n IH]; intros a E; simpl; [done|]. f_equal.
  - apply E. lia.
  - apply IH. eapply same_on_weaken; [exact E|]. simpl. lia.
Qed.

Lemma rd_bytes_app m a n k :
  rd_bytes m a (n + k) = rd_bytes m a n ++ rd_bytes m (a + Z.of_nat n) k.
Proof.
  revert a; induction n as [|n IH]; intros a; simpl; [by rewrite Z.add_0_r|].
  rewrite IH. do 3 f_equal. lia.
Qed.

Lemma rd_byte m a : is_byte (rd m a).
Proof. apply u8_range. Qed.

Lemma u8_byte b : is_byte b → u8 b = b.
Proof. apply Z.mod_small. Qed.

Lemma rd_bytes_byte m a n : Forall is_byte (rd_bytes m a n).
Proof.
  revert a; induction n as [|n IH]; intros a; constructor; [apply rd_byte|apply IH].
Qed.

Lemma rd_bytes_wr_bytes m a l :
  Forall is_byte l → rd_bytes (wr_bytes m a l) a (length l) = l.
Proof.
  intros Hl. apply list_eq_same_length with (length l); [done|by rewrite length_rd_bytes|].
  intros i x y Hi Hx Hy. rewrite lookup_rd_bytes in Hx by done.
  erewrite rd_wr_bytes_in in Hx by exact Hy.
  rewrite u8_byte in Hx by (by eapply Forall_lookup_1 in Hy). by simplify_eq.
Qed.

Lemma rd64_ext m m' a : same_on (λ x, a ≤ x < a + 8) m m' → rd64 m a = rd64 m' a.
Proof. intros E. unfold rd64. f_equal. by apply rd_bytes_ext. Qed.

Lemma rd64_range m a : 0 ≤ rd64 m a < 2 ^ 64.
Proof.
  pose proof (le_value_range _ (rd_bytes_byte m a 8)) as Hr.
  by rewrite length_rd_bytes in Hr.
Qed.

Lemma rd_wr64_out m a v x : x < a ∨ a + 8 ≤ x → rd (wr64 m a v) x = rd m x.
Proof. intros Hx. apply rd_wr_bytes_out. by rewrite length_le_bytes. Qed.

Lemma rd64_wr64_eq m a v : 0 ≤ v < 2 ^ 64 → rd64 (wr64 m a v) a = v.
Proof.
  intros Hv. unfold rd64, wr64.
  rewrite <- (length_le_bytes 8 v) at 2.
  rewrite rd_bytes_wr_bytes, le_value_bytes by apply le_bytes_byte.
  by apply Z.mod_small.
Qed.

Lemma rd64_wr64_ne m a b v : a + 8 ≤ b ∨ b + 8 ≤ a → rd64 (wr64 m a v) b = rd64 m b.
Proof. intros Hab. apply rd64_ext. intros x Hx. apply rd_wr64_out. lia. Qed.

Lemma wr64_same_on m a v (P : Z → Prop) :
  (∀ x, P x → x < a ∨ a + 8 ≤ x) → same_on P (wr64 m a v) m.
Proof. intros HP x Hx. apply rd_wr64_out. by apply HP. Qed.

(** ** Lemmas: running code *)

Section AccessLemmas.
Context `{AddressSpace}.

Lemma all_mapped_spec a n : all_mapped a n = true ↔ mapped_range a (Z.of_nat n).
Proof.
  revert a; induction n as [|n IH]; intros a; simpl.
  - split; [|done]. intros _ x Hx. lia.
  - rewrite andb_true_iff, IH. split.
    + intros [Ha Hr] x Hx. destruct (decide (x = a)) as [->|]; [done|]. apply Hr. lia.
    + intros Hr. split; [apply Hr; lia|]. intros x Hx. apply Hr. lia.
Qed.

Lemma mapped_range_sub a n b k :
  mapped_range a n → a ≤ b → b + k ≤ a + n → mapped_range b k.
Proof. intros Hr ?? x Hx. apply Hr. lia. Qed.

Lemma load8_run m a : mapped a = true → load8 a m = Some (rd m a, m).
Proof. intros E. unfold load8. by rewrite E. Qed.

Lemma store8_run m a v : mapped a = true → store8 a v m = Some (tt, <[a := v]> m).
Proof. intros E. unfold store8. by rewrite E. Qed.

Lemma load64_run m a : mapped_range a 8 → load64 a m = Some (rd64 m a, m).
Proof. intros E. unfold load64. by rewrite (proj2 (all_mapped_spec a 8) E). Qed.

Lemma store64_run m a v : mapped_range a 8 → store64 a v m = Some (tt, wr64 m a v).
Proof. intros E. unfold store64. by rewrite (proj2 (all_mapped_spec a 8) E). Qed.
End AccessLemmas.

#[export] Hint Resolve mapped_range_sub : machine.
