(* ===== verification/KString.v ===== *)
(** * kernel/src/string.cpp: memset, memcpy, memmove, memcmp

    The freestanding memory routines the compiler lowers struct copies and
    zeroing to.  Pointers are 64-bit addresses, so [d[i]] is at [d + i] modulo
    2^64; every access goes through the byte memory of [Memory]. *)

From S2P Require Import Prelude Memory.

Local Open Scope machine_scope.

Section KString.
Context `{AddressSpace}.

Definition memset (dst value n : Z) : M Z :=
  for_up 0 (Z.to_nat n) (λ i, store8 (dst +₆₄ i) (u8 value)) ;;
  mret dst.

(** The loop body of [memcpy] and [memmove]: [d[i] = s[i]]. *)
Definition copy_byte (d s i : Z) : M unit :=
  b ← load8 (s +₆₄ i);
  store8 (d +₆₄ i) b.

Definition memcpy (dst src n : Z) : M Z :=
  for_up 0 (Z.to_nat n) (copy_byte dst src) ;;
  mret dst.

Definition memmove (dst src n : Z) : M Z :=
  (if dst <? src then for_up 0 (Z.to_nat n) (copy_byte dst src)
   else if src <? dst then for_down (Z.to_nat n) (λ i, copy_byte dst src (i - 1))
   else mret tt) ;;
  mret dst.

Fixpoint memcmp_loop (a b i : Z) (k : nat) : M Z :=
  match k with
  | O => mret 0
  | S k' =>
      x ← load8 (a +₆₄ i);
      y ← load8 (b +₆₄ i);
      if x =? y then memcmp_loop a b (i + 1) k' else mret (x - y)
  end.

Definition memcmp (a b n : Z) : M Z := memcmp_loop a b 0 (Z.to_nat n).

(** [buffer a n]: the [n] bytes at [a] are memory the caller may use, and do
    not wrap around the top of the address space. *)
Definition buffer (a n : Z) : Prop :=
  0 ≤ a ∧ 0 ≤ n ∧ a + n ≤ 2 ^ 64 ∧ mapped_range a n.

(** What a byte-by-byte copy should leave: [n] bytes of the original memory
    at [src], now at [dst], and everything else as it was. *)
Definition copied (m m' : mem) (dst src n : Z) : Prop :=
  ∀ x, rd m' x = if decide (dst ≤ x < dst + n) then rd m (src + (x - dst)) else rd m x.

(** Reference comparison of two byte strings: the first difference. *)
Fixpoint first_diff (l1 l2 : list Z) : Z :=
  match l1, l2 with
  | x :: r1, y :: r2 => if x =? y then first_diff r1 r2 else x - y
  | _, _ => 0
  end.

(** ** Lemmas *)

Lemma buffer_at a n i : buffer a n → 0 ≤ i < n → a +₆₄ i = a + i ∧ mapped (a + i) = true.
Proof.
  intros (Ha & Hn & Hw & Hm) Hi. split; [apply u64_small; lia|apply Hm; lia].
Qed.

Lemma copy_byte_run m d s n i :
  buffer d n → buffer s n → 0 ≤ i < n →
  copy_byte d s i m = Some (tt, <[d + i := rd m (s + i)]> m).
Proof.
  intros Hd Hs Hi. destruct (buffer_at _ _ _ Hd Hi) as [Ed Md].
  destruct (buffer_at _ _ _ Hs Hi) as [Es Ms].
  unfold copy_byte. rewrite Ed, Es. mstep load8_run; [|done]. by apply store8_run.
Qed.

Lemma rd_copy m d v x :
  rd (<[d := rd m v]> m) x = if decide (d = x) then rd m v else rd m x.
Proof. rewrite rd_insert, u8_byte by apply rd_byte. done. Qed.

(** [for_up]/[for_down] over [copy_byte], from the middle of the loop. *)
Lemma copy_up_run k m d s n i :
  buffer d n → buffer s n → d ≤ s ∨ s + n ≤ d → 0 ≤ i → i + Z.of_nat k ≤ n →
  ∃ m', for_up i k (copy_byte d s) m = Some (tt, m') ∧
    copied m m' (d + i) (s + i) (Z.of_nat k).
Proof.
  intros Hd Hs Hov. revert m i; induction k as [|k IH]; intros m i Hi Hk.
  { exists m. split; [done|]. intros x. by rewrite decide_False by lia. }
  cbn [for_up]. mstep (copy_byte_run m d s n i); [|done..|lia].
  destruct (IH (<[d + i := rd m (s + i)]> m) (i + 1)) as (m' & E & Hc); [lia..|].
  exists m'. split; [exact E|]. intros x. rewrite Hc, !rd_copy.
  destruct (decide (d + i = x)) as [<-|Hne].
  - rewrite decide_False, decide_True by lia. f_equal. lia.
  - repeat case_decide; try lia; f_equal; lia.
Qed.

Lemma copy_down_run k m d s n :
  buffer d n → buffer s n → s < d → Z.of_nat k ≤ n →
  ∃ m', for_down k (λ i, copy_byte d s (i - 1)) m = Some (tt, m') ∧
    copied m m' d s (Z.of_nat k).
Proof.
  intros Hd Hs Hlt. revert m; induction k as [|k IH]; intros m Hk.
  { exists m. split; [done|]. intros x. by rewrite decide_False by lia. }
  cbn [for_down]. mstep (copy_byte_run m d s n (Z.of_nat (S k) - 1)); [|done..|lia].
  edestruct IH as (m' & E & Hc); [lia|].
  exists m'. split; [exact E|]. intros x. rewrite Hc, !rd_copy.
  destruct (decide (d + (Z.of_nat (S k) - 1) = x)) as [<-|Hne].
  - rewrite decide_False, decide_True by lia. f_equal. lia.
  - repeat case_decide; try lia; f_equal; lia.
Qed.

Lemma fill_up_run k m d v n i :
  buffer d n → 0 ≤ i → i + Z.of_nat k ≤ n →
  ∃ m', for_up i k (λ i, store8 (d +₆₄ i) (u8 v)) m = Some (tt, m') ∧
    ∀ x, rd m' x = if decide (d + i ≤ x < d + i + Z.of_nat k) then u8 v else rd m x.
Proof.
  intros Hd. revert m i; induction k as [|k IH]; intros m i Hi Hk.
  { exists m. split; [done|]. intros x. by rewrite decide_False by lia. }
  destruct (buffer_at d n i) as [Ed Md]; [done|lia|].
  cbn [for_up]. rewrite Ed. mstep store8_run; [|done].
  destruct (IH (<[d + i := u8 v]> m) (i + 1)) as (m' & E & Hc); [lia..|].
  exists m'. split; [exact E|]. intros x. rewrite Hc, rd_insert.
  rewrite (u8_byte (u8 v)) by apply u8_range.
  repeat case_decide; try done; lia.
Qed.

Lemma memcmp_loop_run k m a b n i :
  buffer a n → buffer b n → 0 ≤ i → i + Z.of_nat k ≤ n →
  memcmp_loop a b i k m =
    Some (first_diff (rd_bytes m (a + i) k) (rd_bytes m (b + i) k), m).
Proof.
  intros Ha Hb. revert i; induction k as [|k IH]; intros i Hi Hk; [done|].
  destruct (buffer_at a n i) as [Ea Ma]; [done|lia|].
  destruct (buffer_at b n i) as [Eb Mb]; [done|lia|].
  cbn [memcmp_loop rd_bytes first_diff]. rewrite Ea, Eb.
  mstep load8_run; [|done]. mstep load8_run; [|done].
  case_match; [|done]. rewrite IH by lia. by rewrite !Z.add_assoc.
Qed.

Lemma first_diff_zero l1 l2 : length l1 = length l2 → first_diff l1 l2 = 0 ↔ l1 = l2.
Proof.
  revert l2; induction l1 as [|x l1 IH]; intros [|y l2] Hl; try done; simpl in *.
  zdestruct (x =? y); [subst; rewrite IH by lia; split; congruence|].
  split; [lia|congruence].
Qed.

Lemma first_diff_sign l1 l2 p x y r1 r2 :
  l1 = p ++ x :: r1 → l2 = p ++ y :: r2 → x ≠ y → first_diff l1 l2 = x - y.
Proof.
  intros -> -> Hne. induction p as [|z p IH]; simpl.
  - by rewrite (proj2 (Z.eqb_neq x y)).
  - by rewrite Z.eqb_refl.
Qed.

Lemma rd_bytes_eq_iff m a b k :
  rd_bytes m a k = rd_bytes m b k ↔
  ∀ i, 0 ≤ i < Z.of_nat k → rd m (a + i) = rd m (b + i).
Proof.
  split.
  - intros E i Hi. rewrite <- (Z2Nat.id i) by lia. apply (inj Some).
    rewrite <- !(lookup_rd_bytes m _ k) by lia. by rewrite E.
  - intros E. apply list_eq_same_length with k; [by rewrite length_rd_bytes..|].
    intros i x y Hi. rewrite !lookup_rd_bytes by done. intros ??. simplify_eq.
    apply E. lia.
Qed.

Lemma copied_id m n d : copied m m d d n.
Proof. intros x. case_decide; [f_equal; lia|done]. Qed.

Lemma memcpy_run m dst src n :
  buffer dst n → buffer src n → dst ≤ src ∨ src + n ≤ dst →
  ∃ m', memcpy dst src n m = Some (dst, m') ∧ copied m m' dst src n.
Proof.
  intros Hd Hs Hov.
  assert (0 ≤ n) by apply Hd.
  destruct (copy_up_run (Z.to_nat n) m dst src n 0) as (m' & E & Hc); [done..|lia|lia|].
  exists m'. split; [unfold memcpy; by rewrite (bind_run _ _ _ _ _ E)|].
  by rewrite !Z.add_0_r, Z2Nat.id in Hc by lia.
Qed.

Lemma memset_run m dst value n :
  buffer dst n →
  ∃ m', memset dst value n m = Some (dst, m') ∧
    ∀ x, rd m' x = if decide (dst ≤ x < dst + n) then u8 value else rd m x.
Proof.
  intros Hd. assert (0 ≤ n) by apply Hd.
  destruct (fill_up_run (Z.to_nat n) m dst value n 0) as (m' & E & Hc); [done|lia|lia|].
  exists m'. split; [unfold memset; by rewrite (bind_run _ _ _ _ _ E)|].
  by rewrite !Z.add_0_r, Z2Nat.id in Hc by lia.
Qed.

Lemma memcmp_run m a b n :
  buffer a n → buffer b n →
  memcmp a b n m =
    Some (first_diff (rd_bytes m a (Z.to_nat n)) (rd_bytes m b (Z.to_nat n)), m).
Proof.
  intros Ha Hb. assert (0 ≤ n) by apply Ha.
  unfold memcmp. rewrite (memcmp_loop_run _ _ _ _ n) by (done || lia).
  by rewrite !Z.add_0_r.
Qed.

(** ** Properties *)

(** C31: [memmove] copies [n] bytes correctly for any overlap of the two
    buffers: afterwards [dst] holds the bytes [src] had before the call, no
    other byte changed, and the result is [dst]. *)
Theorem memmove_copies m dst src n :
  buffer dst n → buffer src n →
  ∃ m', memmove dst src n m = Some (dst, m') ∧ copied m m' dst src n.
Proof.
  intros Hd Hs. assert (0 ≤ n) by apply Hd. unfold memmove.
  zdestruct (dst <? src); [|zdestruct (src <? dst)].
  - apply memcpy_run; [done..|lia].
  - destruct (copy_down_run (Z.to_nat n) m dst src n) as (m' & E' & Hc); [done..|lia|].
    exists m'. split; [by rewrite (bind_run _ _ _ _ _ E')|].
    by rewrite Z2Nat.id in Hc by lia.
  - assert (dst = src) as -> by lia. exists m. split; [done|apply copied_id].
Qed.

(** [memcmp] returns 0 exactly when the two buffers hold the same
    bytes, and otherwise the difference of the first bytes that differ. *)
Theorem memcmp_first_difference m a b n :
  buffer a n → buffer b n →
  ∃ r, memcmp a b n m = Some (r, m) ∧
    (r = 0 ↔ ∀ i, 0 ≤ i < n → rd m (a + i) = rd m (b + i)) ∧
    (∀ i, 0 ≤ i < n → (∀ j, 0 ≤ j < i → rd m (a + j) = rd m (b + j)) →
      rd m (a + i) ≠ rd m (b + i) → r = rd m (a + i) - rd m (b + i)).
Proof.
  intros Ha Hb. assert (0 ≤ n) by apply Ha.
  eexists. split; [by apply memcmp_run|]. split.
  - rewrite first_diff_zero, rd_bytes_eq_iff by (by rewrite !length_rd_bytes).
    split; intros E i Hi; [|apply E; lia].
    rewrite <- (Z2Nat.id i) by lia. apply E. lia.
  - intros i Hi Heq Hne.
    replace (Z.to_nat n) with (Z.to_nat i + S (Z.to_nat (n - i - 1)))%nat by lia.
    rewrite !rd_bytes_app, Z2Nat.id by lia. cbn [rd_bytes].
    eapply first_diff_sign; [done| |done]. f_equal.
    apply rd_bytes_eq_iff. intros j Hj. symmetry. apply Heq. lia.
Qed.
End KString.

(** ** Concrete instances: overlapping copies inside one small page. *)

#[local] Instance page_space : AddressSpace := λ a, (0 <=? a) && (a <? 4096).

Lemma page_buffer a n : 0 ≤ a → 0 ≤ n → a + n ≤ 4096 → buffer a n.
Proof.
  intros ???. split_and!; [lia..|]. intros x Hx. unfold mapped, page_space.
  rewrite (proj2 (Z.leb_le _ _)), (proj2 (Z.ltb_lt _ _)) by lia. done.
Qed.

Definition page_mem : mem := wr_bytes ∅ 100 [1; 2; 3; 4; 5; 6; 7; 8].

Example memmove_overlap :
  (λ r, rd_bytes (snd r) 100 10) <$> memmove 102 100 8 page_mem =
    Some [1; 2; 1; 2; 3; 4; 5; 6; 7; 8].
Proof. vm_compute. reflexivity. Qed.

Lemma memmove_copies_witness :
  ∃ m', memmove 102 100 8 page_mem = Some (102, m') ∧ copied page_mem m' 102 100 8.
Proof. apply memmove_copies; apply page_buffer; lia. Defined.

Lemma memcmp_first_difference_witness :
  ∃ r, memcmp 100 104 4 page_mem = Some (r, page_mem) ∧
    (r = 0 ↔ ∀ i, 0 ≤ i < 4 → rd page_mem (100 + i) = rd page_mem (104 + i)).
Proof.
  destruct (memcmp_first_difference page_mem 100 104 4) as (r & E & Hz & _);
    [apply page_buffer; lia..|].
  exists r. by split.
Defined.
