(* ===== verification/Spinlock.v ===== *)
(** * kernel/include/spinlock.hpp: the test-and-set lock

    [SpinlockOps] is the code: [lock] spins on [__atomic_test_and_set] of the
    lock byte, [unlock] clears it.  [SpinlockCores] runs it on any number of
    cores, one atomic operation of one core at a time, and shows that the
    critical sections of one lock never overlap. *)

From stdpp Require Import functions relations.
From S2P Require Import Prelude Memory.

Section SpinlockOps.
Context `{AddressSpace}.

(** [__atomic_test_and_set]: sets the byte, returns whether it was set. *)
Definition test_and_set (a : Z) : M bool :=
  old ← load8 a;
  store8 a 1 ;;
  mret (negb (old =? 0)).

(** [while (test_and_set(&g_lock)) yield;] for at most [fuel] attempts. *)
Fixpoint lock_loop (fuel : nat) (a : Z) : M unit :=
  match fuel with
  | O => fault
  | S k => held ← test_and_set a; if (held : bool) then lock_loop k a else mret tt
  end.

(** [lock()] as the code of one core sees it.  While that core spins no other
    step of the same core runs, so either the first attempt succeeds or, for
    the caller, [lock()] does not return ([lock_loop_held]); waiting for
    another core is the subject of [SpinlockCores] below. *)
Definition spin_lock (a : Z) : M unit := lock_loop 1 a.

(** [__atomic_clear] *)
Definition spin_unlock (a : Z) : M unit := store8 a 0.

Lemma test_and_set_run m a :
  mapped a = true → test_and_set a m = Some (negb (rd m a =? 0), <[a := 1]> m).
Proof.
  intros Ha. unfold test_and_set. mstep load8_run; [|done]. by mstep store8_run.
Qed.

Lemma spin_lock_run m a :
  mapped a = true → rd m a = 0 → spin_lock a m = Some (tt, <[a := 1]> m).
Proof.
  intros Ha E. unfold spin_lock. cbn [lock_loop].
  mstep test_and_set_run; [|done]. by rewrite E.
Qed.

(** A held lock is never acquired, however long this core alone spins. *)
Lemma lock_loop_held fuel m a :
  mapped a = true → rd m a ≠ 0 → lock_loop fuel a m = None.
Proof.
  intros Ha. revert m; induction fuel as [|k IH]; intros m E; [done|].
  cbn [lock_loop]. mstep test_and_set_run; [|done].
  rewrite (proj2 (Z.eqb_neq _ _) E). cbn [negb]. apply IH.
  rewrite rd_insert, decide_True; done.
Qed.

Lemma spin_unlock_run m a : mapped a = true → spin_unlock a m = Some (tt, <[a := 0]> m).
Proof. apply store8_run. Qed.
End SpinlockOps.

Module SpinlockCores.
(** Where a core is with respect to one lock: not using it, in the loop of
    [lock()], or between [lock()] and [unlock()]. *)
Inductive phase := Outside | Spinning | Inside.

#[export] Instance phase_eq_dec : EqDecision phase.
Proof. solve_decision. Defined.

Record state := State { memory : mem; phases : nat → phase }.

Section Cores.
Context `{AddressSpace} (a : Z).

(** One step of core [c].  Inside its critical section a core may change
    any memory but the lock byte. *)
Inductive step : state → state → Prop :=
| step_enter c m ph :
    ph c = Outside → step (State m ph) (State m (<[c := Spinning]> ph))
| step_attempt c m ph held m' :
    ph c = Spinning → test_and_set a m = Some (held, m') →
    step (State m ph) (State m' (<[c := if held then Spinning else Inside]> ph))
| step_critical c m ph m' :
    ph c = Inside → rd m' a = rd m a → step (State m ph) (State m' ph)
| step_unlock c m ph m' :
    ph c = Inside → spin_unlock a m = Some (tt, m') →
    step (State m ph) (State m' (<[c := Outside]> ph)).

(** The lock byte is set exactly while some core is inside, and then one
    core is. *)
Definition lock_inv (s : state) : Prop :=
  (rd (memory s) a = 0 ∧ ∀ c, phases s c ≠ Inside) ∨
  (rd (memory s) a = 1 ∧ ∃ c, ∀ d, phases s d = Inside ↔ d = c).

Lemma rd_set_lock m v : rd (<[a := v]> m) a = u8 v.
Proof. rewrite rd_insert. by rewrite decide_True. Qed.

Lemma lock_inv_step s s' : mapped a = true → lock_inv s → step s s' → lock_inv s'.
Proof.
  intros Ha Hinv Hstep. unfold lock_inv in *. destruct Hstep as
    [c m ph Hc|c m ph held m' Hc E|c m ph m' Hc E|c m ph m' Hc E]; simpl in *.
  - destruct Hinv as [[E Hno]|[E [d Hd]]]; [left|right]; (split; [done|]).
    + intros x. unfold insert, fn_insert. case_decide; [done|apply Hno].
    + exists d. intros x. unfold insert, fn_insert. rewrite <- Hd.
      case_decide; [|done]. subst. rewrite Hc. done.
  - rewrite test_and_set_run in E by done. simplify_eq. rewrite rd_set_lock.
    destruct Hinv as [[E Hno]|[E [d Hd]]]; rewrite E; simpl; right; (split; [done|]).
    + exists c. intros x. unfold insert, fn_insert. case_decide; [by subst|].
      split; [intros Hx; by destruct (Hno x)|by intros ->].
    + exists d. intros x. unfold insert, fn_insert. rewrite <- Hd.
      case_decide; [|done]. subst. by rewrite Hc.
  - by rewrite E.
  - rewrite spin_unlock_run in E by done. simplify_eq. rewrite rd_set_lock.
    destruct Hinv as [[E Hno]|[E [d Hd]]]; [by destruct (Hno c)|].
    left. split; [done|]. intros x. unfold insert, fn_insert. case_decide; [done|].
    rewrite Hd. apply Hd in Hc. by subst.
Qed.

(** C24: mutual exclusion.  However the cores' steps interleave, starting
    from a clear lock byte and no core inside, two cores are never between
    [lock()] and [unlock()] at once. *)
Theorem spinlock_mutual_exclusion m0 s c d :
  mapped a = true → rd m0 a = 0 →
  rtc step (State m0 (λ _, Outside)) s →
  phases s c = Inside → phases s d = Inside → c = d.
Proof.
  intros Ha E0 Hr. assert (lock_inv s) as Hinv.
  { assert (lock_inv (State m0 (λ _, Outside))) as Hi by (left; by split).
    revert Hi. induction Hr as [|s1 s2 s3 Hs _ IH]; [done|].
    intros Hi. eauto using lock_inv_step. }
  destruct Hinv as [[_ Hno]|[_ [e He]]]; intros Hc Hd; [by destruct (Hno c)|].
  apply He in Hc, Hd. by subst.
Qed.
End Cores.
End SpinlockCores.

(** A core that took the lock while another still spins. *)
Lemma spinlock_mutual_exclusion_witness :
  let one : AddressSpace := λ a, a =? 64 in
  ∃ s : SpinlockCores.state,
    rtc (@SpinlockCores.step one 64)
      (SpinlockCores.State ∅ (λ _, SpinlockCores.Outside)) s ∧
    SpinlockCores.phases s 1%nat = SpinlockCores.Inside ∧
    ∀ d, SpinlockCores.phases s d = SpinlockCores.Inside → 1%nat = d.
Proof.
  intros one.
  set (s := SpinlockCores.State (<[64 := 1]> ∅)
    (<[1%nat := SpinlockCores.Inside]> (<[1%nat := SpinlockCores.Spinning]>
      (λ _, SpinlockCores.Outside)))).
  assert (rtc (@SpinlockCores.step one 64)
    (SpinlockCores.State ∅ (λ _, SpinlockCores.Outside)) s) as Hr.
  { eapply rtc_l; [by apply (SpinlockCores.step_enter _ 1)|]. eapply rtc_l; [|apply rtc_refl].
    by apply (SpinlockCores.step_attempt _ 1 _ _ false). }
  exists s. split; [exact Hr|]. split; [done|]. intros d Hd.
  by apply (SpinlockCores.spinlock_mutual_exclusion 64 ∅ s 1 d).
Defined.
