(* ===== verification/Mmu.v ===== *)
(** * kernel/src/mmu.cpp: the identity map of the low gigabyte

    [init] builds the one level-1 table, [activate_this_core] programs a core's
    MAIR_EL1, TCR_EL1 and TTBR0_EL1, [virt_to_phys] translates addresses of the
    kernel image for DMA.  [translate] is the architecture's stage-1 walk for
    the configuration the code selects (4 KiB granule, walk from level 1),
    against which the table is verified. *)

From S2P Require Import Prelude.

Local Open Scope machine_scope.

(** ** The code *)

Record mmu_state := MmuState {
  g_l1_table : list Z;
  g_l1_table_phys : Z;
  g_image_phys_offset : Z;
}.

(** The per-core registers the code reads and writes. *)
Record cpu_regs := CpuRegs { mair_el1 : Z; tcr_el1 : Z; ttbr0_el1 : Z }.

Definition kDeviceAttrIndex : Z := 2.
Definition kMairDeviceNGnRnE : Z := 0x00.
Definition kDescValidBlock : Z := 1.
Definition kAttrIndx : Z := Z.shiftl kDeviceAttrIndex 2.
Definition kApEl1Rw : Z := Z.shiftl 0 6.
Definition kShOuter : Z := Z.shiftl 2 8.
Definition kAf : Z := Z.shiftl 1 10.
Definition kPxn : Z := Z.shiftl 1 53.
Definition kUxn : Z := Z.shiftl 1 54.

(** [alignas(4096) uint64_t g_l1_table[512]] and the other globals start zero. *)
Definition mmu_boot : mmu_state := MmuState (replicate 512 0) 0 0.

Definition low_gib_descriptor : Z :=
  Z.lor (Z.lor (Z.lor (Z.lor (Z.lor (Z.lor kDescValidBlock kAttrIndx) kApEl1Rw) kShOuter) kAf) kPxn)
    kUxn.

(** [table_vaddr] is the address of [g_l1_table]. *)
Definition mmu_init (table_vaddr kernel_physical_base kernel_virtual_base : Z) (st : mmu_state)
    : mmu_state :=
  MmuState (<[0%nat := low_gib_descriptor]> (g_l1_table st))
    (table_vaddr -₆₄ kernel_virtual_base +₆₄ kernel_physical_base)
    (kernel_physical_base -₆₄ kernel_virtual_base).

Definition activate_this_core (st : mmu_state) (r : cpu_regs) : cpu_regs :=
  let mair := Z.land (mair_el1 r) (u64 (Z.lnot (Z.shiftl 0xFF (kDeviceAttrIndex * 8)))) in
  let mair := Z.lor mair (Z.shiftl kMairDeviceNGnRnE (kDeviceAttrIndex * 8)) in
  let tcr := Z.land (tcr_el1 r) (u64 (Z.lnot 0xFFFF)) in
  let tcr := Z.lor tcr 25 in
  CpuRegs mair tcr (g_l1_table_phys st).

Definition virt_to_phys (st : mmu_state) (vaddr : Z) : Z := vaddr +₆₄ g_image_phys_offset st.

(** ** The architecture *)

(** Bits [hi : lo] of [x]. *)
Definition bits (x hi lo : Z) : Z := Z.shiftr x lo mod 2 ^ (hi - lo + 1).

Record mapping := Mapping {
  pa : Z;
  mem_attr : Z;    (* the MAIR byte: 0 is Device-nGnRnE *)
  ap : Z;          (* 0: EL1 read/write, no EL0 access *)
  pxn : Z;
  uxn : Z;
}.

(** The walk of a TTBR0 address for T0SZ = 25 and a 4 KiB granule: 39-bit input
    addresses, one 512-entry table at level 1 whose block entries map 1 GiB.
    [None] is a translation fault (or a configuration other than this one). *)
Definition translate (phys_read : Z → Z) (r : cpu_regs) (va : Z) : option mapping :=
  if (bits (tcr_el1 r) 5 0 =? 25) && (bits (tcr_el1 r) 15 14 =? 0) && (bits (tcr_el1 r) 7 7 =? 0)
     && (0 <=? va) && (va <? 2 ^ 39)
  then
    let desc := phys_read (ttbr0_el1 r + 8 * bits va 38 30) in
    if (bits desc 1 0 =? 1) && (bits desc 10 10 =? 1)
    then Some (Mapping (bits desc 47 30 * 2 ^ 30 + bits va 29 0)
                 (bits (mair_el1 r) (8 * bits desc 4 2 + 7) (8 * bits desc 4 2))
                 (bits desc 7 6) (bits desc 53 53) (bits desc 54 54))
    else None
  else None.

(** ** Lemmas *)

(** Clearing a field: the mask [u64 (~ (ones n << k))]. *)
Lemma clear_field_testbit x k n i :
  0 ≤ k → 0 ≤ n → 0 ≤ i < 64 →
  Z.testbit (Z.land x (u64 (Z.lnot (Z.shiftl (Z.ones n) k)))) i =
    Z.testbit x i && negb ((k <=? i) && (i <? k + n)).
Proof.
  intros Hk Hn Hi. unfold u64. rewrite Z.land_spec, Z.mod_pow2_bits_low by lia. f_equal.
  rewrite Z.lnot_spec, Z.shiftl_spec by lia. f_equal.
  destruct (Z.leb_spec k i); simpl; [|by rewrite Z.testbit_neg_r by lia].
  rewrite Z.testbit_ones by lia.
  destruct (Z.leb_spec 0 (i - k)), (Z.ltb_spec (i - k) n), (Z.ltb_spec i (k + n)); lia || done.
Qed.

Lemma activate_mair_testbit st r i :
  0 ≤ i < 64 →
  Z.testbit (mair_el1 (activate_this_core st r)) i =
    Z.testbit (mair_el1 r) i && negb ((16 <=? i) && (i <? 24)).
Proof.
  intros Hi. unfold activate_this_core. cbn [mair_el1].
  change (Z.shiftl kMairDeviceNGnRnE _) with 0. rewrite Z.lor_0_r.
  change 0xFF with (Z.ones 8). by rewrite clear_field_testbit.
Qed.

Lemma activate_tcr_testbit st r i :
  0 ≤ i < 64 →
  Z.testbit (tcr_el1 (activate_this_core st r)) i =
    if i <? 16 then Z.testbit 25 i else Z.testbit (tcr_el1 r) i.
Proof.
  intros Hi. unfold activate_this_core. cbn [tcr_el1].
  rewrite Z.lor_spec. change (u64 (Z.lnot 0xFFFF)) with (u64 (Z.lnot (Z.shiftl (Z.ones 16) 0))).
  rewrite clear_field_testbit by lia. rewrite (proj2 (Z.leb_le 0 i)) by lia.
  destruct (Z.ltb_spec i 16); simpl.
  - rewrite (proj2 (Z.ltb_lt i (0 + 16))) by lia. by rewrite andb_false_r.
  - rewrite (proj2 (Z.ltb_ge i (0 + 16))) by lia. cbn [negb]. rewrite andb_true_r.
    rewrite (Z.bits_above_log2 25 i); [by rewrite orb_false_r|lia|].
    change (Z.log2 25) with 4. lia.
Qed.

(** Fields are determined by their bits. *)
Lemma bits_ext x y hi lo :
  0 ≤ lo ≤ hi → (∀ i, lo ≤ i ≤ hi → Z.testbit x i = Z.testbit y i) → bits x hi lo = bits y hi lo.
Proof.
  intros Hlo Hb. apply Z.bits_inj'. intros i Hi. unfold bits.
  destruct (decide (i < hi - lo + 1)).
  - rewrite !Z.mod_pow2_bits_low, !Z.shiftr_spec by lia. apply Hb. lia.
  - by rewrite !Z.mod_pow2_bits_high by lia.
Qed.

Lemma activate_fields st r :
  let r' := activate_this_core st r in
  bits (tcr_el1 r') 5 0 = 25 ∧ bits (tcr_el1 r') 15 14 = 0 ∧ bits (tcr_el1 r') 7 7 = 0 ∧
  bits (mair_el1 r') 23 16 = 0.
Proof.
  intros r'.
  assert (∀ hi lo, 0 ≤ lo ≤ hi → hi < 16 → bits (tcr_el1 r') hi lo = bits 25 hi lo) as Ht.
  { intros hi lo ??. apply bits_ext; [done|]. intros i Hi. unfold r'.
    rewrite activate_tcr_testbit by lia. by rewrite (proj2 (Z.ltb_lt i 16)) by lia. }
  rewrite !Ht by lia. split_and!; try reflexivity.
  rewrite (bits_ext _ 0); [reflexivity|lia|]. intros i Hi. unfold r'.
  rewrite activate_mair_testbit by lia.
  rewrite (proj2 (Z.leb_le 16 i)), (proj2 (Z.ltb_lt i 24)), Z.bits_0 by lia. apply andb_false_r.
Qed.

Lemma low_gib_mapped table_vaddr pbase vbase phys_read r va :
  let st := mmu_init table_vaddr pbase vbase mmu_boot in
  (∀ i : nat, (i < 512)%nat →
     Some (phys_read (g_l1_table_phys st + 8 * Z.of_nat i)) = g_l1_table st !! i) →
  translate phys_read (activate_this_core st r) va =
    if (0 <=? va) && (va <? 2 ^ 30) then Some (Mapping va 0 0 1 1) else None.
Proof.
  intros st Htab. destruct (activate_fields st r) as (E1 & E2 & E3 & E4).
  unfold translate. rewrite E1, E2, E3. cbn [Z.eqb Pos.eqb andb ttbr0_el1 activate_this_core].
  destruct (Z.leb_spec 0 va) as [Hv|]; [|done]. cbn [andb].
  destruct (Z.ltb_spec va (2 ^ 39)) as [Hv'|Hv'].
  2:{ by rewrite (proj2 (Z.ltb_ge va (2 ^ 30))) by lia. }
  assert (bits va 38 30 = va / 2 ^ 30) as Eidx.
  { unfold bits. rewrite Z.shiftr_div_pow2 by lia. apply Z.mod_small.
    split; [apply Z.div_pos; lia|apply Z.div_lt_upper_bound; lia]. }
  set (i := Z.to_nat (va / 2 ^ 30)).
  assert (0 ≤ va / 2 ^ 30 < 512) as Hi by dlia.
  specialize (Htab i ltac:(lia)). rewrite Eidx.
  replace (Z.of_nat i) with (va / 2 ^ 30) in Htab by lia.
  destruct (Z.ltb_spec va (2 ^ 30)) as [Hl|Hl].
  - assert (i = O) as Ei by (unfold i; rewrite Z.div_small by lia; done).
    assert (phys_read (g_l1_table_phys st + 8 * (va / 2 ^ 30)) = low_gib_descriptor) as ->.
    { apply (inj Some). rewrite Htab, Ei. done. }
    change (bits low_gib_descriptor 1 0) with 1. change (bits low_gib_descriptor 10 10) with 1.
    change (bits low_gib_descriptor 4 2) with 2. change (8 * 2 + 7) with 23. change (8 * 2) with 16.
    fold (activate_this_core st r). rewrite E4. do 2 f_equal.
    change (bits low_gib_descriptor 47 30) with 0. unfold bits. rewrite Z.shiftr_0_r.
    rewrite Z.mod_small; [done|]. change (29 - 0 + 1) with 30. lia.
  - assert (1 ≤ va / 2 ^ 30) by dlia.
    assert (phys_read (g_l1_table_phys st + 8 * (va / 2 ^ 30)) = 0) as ->.
    { apply (inj Some). rewrite Htab. unfold st, mmu_init. cbn [g_l1_table].
      rewrite list_lookup_insert_ne by lia. apply lookup_replicate_2. lia. }
    done.
Qed.

(** ** Theorems *)

(** C30: the identity map.  After [init] and [activate_this_core], with the table
    in memory at the physical address computed for it, every address of the
    low gigabyte translates to itself as Device-nGnRnE memory that EL1 may
    read and write and nobody may execute; every other TTBR0 address faults. *)
Theorem low_gib_identity_mapped table_vaddr pbase vbase phys_read r va :
  let st := mmu_init table_vaddr pbase vbase mmu_boot in
  (∀ i : nat, (i < 512)%nat →
     Some (phys_read (g_l1_table_phys st + 8 * Z.of_nat i)) = g_l1_table st !! i) →
  translate phys_read (activate_this_core st r) va =
    if (0 <=? va) && (va <? 2 ^ 30) then Some (Mapping va 0 0 1 1) else None.
Proof. apply low_gib_mapped. Qed.

(** Activating the map touches nothing else: every MAIR attribute but the
    device one, and every TCR bit outside the TTBR0 half-word, keep the values
    the boot loader gave them. *)
Theorem activate_preserves_other_fields st r i :
  0 ≤ i < 64 →
  (¬ 16 ≤ i < 24 → Z.testbit (mair_el1 (activate_this_core st r)) i = Z.testbit (mair_el1 r) i) ∧
  (16 ≤ i → Z.testbit (tcr_el1 (activate_this_core st r)) i = Z.testbit (tcr_el1 r) i) ∧
  ttbr0_el1 (activate_this_core st r) = g_l1_table_phys st.
Proof.
  intros Hi. rewrite activate_mair_testbit, activate_tcr_testbit by done. split_and!; [..|done].
  - intros Hn. destruct (Z.leb_spec 16 i), (Z.ltb_spec i 24); try lia; by rewrite andb_true_r.
  - intros Hn. by rewrite (proj2 (Z.ltb_ge i 16)) by lia.
Qed.

(** [virt_to_phys] is the image's load offset: an address [off] bytes into
    the image has physical address [off] bytes after the physical base, although
    the offset is computed modulo 2^64; the table's own physical address
    agrees with it. *)
Theorem virt_to_phys_image table_vaddr pbase vbase st off :
  is_u64 pbase → is_u64 vbase → 0 ≤ off → pbase + off < 2 ^ 64 → vbase + off < 2 ^ 64 →
  let st' := mmu_init table_vaddr pbase vbase st in
  virt_to_phys st' (vbase + off) = pbase + off ∧
  g_l1_table_phys st' = virt_to_phys st' table_vaddr.
Proof.
  intros Hp Hv Ho H1 H2 st'. unfold virt_to_phys, st', mmu_init; simpl. unfold u64, is_u64 in *.
  split.
  - rewrite Z.add_mod_idemp_r by lia. replace (vbase + off + (pbase - vbase)) with (pbase + off) by lia.
    apply Z.mod_small. lia.
  - rewrite Z.add_mod_idemp_l, Z.add_mod_idemp_r by lia. f_equal. lia.
Qed.

(** QEMU's virt machine: the image at physical 0x40080000, linked high. *)
Definition example_vbase : Z := 0xffffffff80000000.
Definition example_mmu : mmu_state := mmu_init (example_vbase + 0x5000) 0x40080000 example_vbase mmu_boot.

Lemma low_gib_identity_mapped_witness :
  translate (λ a, if a =? 0x40085000 then low_gib_descriptor else 0)
    (activate_this_core example_mmu (CpuRegs 0 0 0)) 0x09000018 = Some (Mapping 0x09000018 0 0 1 1).
Proof.
  unfold example_mmu. rewrite low_gib_identity_mapped; [reflexivity|].
  intros i Hi. change (g_l1_table_phys _) with 0x40085000. destruct i as [|i]; [reflexivity|].
  rewrite (proj2 (Z.eqb_neq _ _)) by lia. symmetry.
  change (g_l1_table _ !! S i) with ((replicate 511 0 : list Z) !! i).
  apply lookup_replicate_2. lia.
Defined.

Lemma activate_preserves_other_fields_witness :
  Z.testbit (tcr_el1 (activate_this_core example_mmu (CpuRegs 0xFF 0x3500353519 0))) 31 = false ∧
  Z.testbit (tcr_el1 (activate_this_core example_mmu (CpuRegs 0xFF 0x3500353519 0))) 32 = true.
Proof.
  destruct (activate_preserves_other_fields example_mmu (CpuRegs 0xFF 0x3500353519 0) 31)
    as (_ & E1 & _); [lia|].
  destruct (activate_preserves_other_fields example_mmu (CpuRegs 0xFF 0x3500353519 0) 32)
    as (_ & E2 & _); [lia|].
  rewrite E1, E2 by lia. split; reflexivity.
Defined.

Lemma virt_to_phys_image_witness :
  virt_to_phys example_mmu (example_vbase + 0x7000) = 0x40087000.
Proof.
  destruct (virt_to_phys_image (example_vbase + 0x5000) 0x40080000 example_vbase mmu_boot 0x7000)
    as [E _]; unfold is_u64, example_vbase; try lia. exact E.
Defined.
