(* ===== verification/Console.v ===== *)
(** * kernel/src/console.cpp and panic.cpp: formatting and the UART

    [append] and [append_uint] write into a caller's array; [print] transmits a
    string through the PL011 UART, which is a parameter ([Uart]), under the
    console lock.  [ConsoleCores] runs [print] on any number of cores. *)

From stdpp Require Import relations.
From S2P Require Import Prelude Arrays.

Local Open Scope machine_scope.

(** ** Formatting

    [dst] is an index into the array [buf]; the result is the array and the
    index just past what was written. *)

Fixpoint append (buf : list Z) (dst : Z) (str : list Z) : option (list Z * Z) :=
  match str with
  | [] => Some (buf, dst)
  | c :: rest =>
      if c =? 0 then Some (buf, dst)
      else buf' ← arr_write buf dst [c]; append buf' (dst + 1) rest
  end.

(** [while (value > 0) { digits[n++] = ...; value /= 10; }] *)
Fixpoint digit_loop (fuel : nat) (digits : list Z) (n value : Z) : option (list Z * Z) :=
  if 0 <? value then
    match fuel with
    | O => None
    | S k =>
        digits' ← arr_write digits n [u8 (48 + value mod 10)];
        digit_loop k digits' (n + 1) (value / 10)
    end
  else Some (digits, n).

(** [while (n > 0) *dst++ = digits[--n];] *)
Fixpoint emit_digits (n : nat) (digits buf : list Z) (dst : Z) : option (list Z * Z) :=
  match n with
  | O => Some (buf, dst)
  | S k =>
      d ← arr_get digits (Z.of_nat k);
      buf' ← arr_write buf dst [d];
      emit_digits k digits buf' (dst + 1)
  end.

(** [char digits[20]]; twenty rounds are enough for 64 bits. *)
Definition append_uint (buf : list Z) (dst value : Z) : option (list Z * Z) :=
  '(digits, n) ← (if value =? 0
                  then digits ← arr_write (replicate 20 0) 0 [48]; Some (digits, 1)
                  else digit_loop 20 (replicate 20 0) 0 value);
  emit_digits (Z.to_nat n) digits buf dst.

(** ** Output *)

Definition kFlagTxFifoFull : Z := Z.shiftl 1 5.

(** The UART: a read of UARTFR, and a write of UARTDR. *)
Class Uart (U : Type) := {
  uart_flags : U → Z * U;
  uart_send : Z → U → U;
}.

Record console (U : Type) := Console { c_lock : bool; uart : U }.
Arguments Console {U}. Arguments c_lock {U}. Arguments uart {U}.

Section Output.
Context {U : Type} `{Uart U}.
(** How many polls of a full FIFO the model follows. *)
Context (patience : nat).

(** [while (UARTFR & TXFF) yield;] *)
Fixpoint wait_tx (k : nat) : ST (console U) unit := λ s,
  let '(f, u) := uart_flags (uart s) in
  if Z.land f kFlagTxFifoFull =? 0 then Some (tt, Console (c_lock s) u)
  else match k with
       | O => None
       | S k' => wait_tx k' (Console (c_lock s) u)
       end.

Definition send_byte (c : Z) : ST (console U) unit :=
  λ s, Some (tt, Console (c_lock s) (uart_send (u8 c) (uart s))).

Definition putc_raw (c : Z) : ST (console U) unit := wait_tx patience ;; send_byte c.

Fixpoint print_chars (str : list Z) : ST (console U) unit :=
  match str with
  | [] => mret tt
  | c :: rest =>
      if c =? 0 then mret tt
      else
        (if c =? 10 then putc_raw 13 else mret tt) ;;
        putc_raw c ;;
        print_chars rest
  end.

Definition con_lock : ST (console U) unit :=
  λ s, if c_lock s then None else Some (tt, Console true (uart s)).
Definition con_unlock : ST (console U) unit := λ s, Some (tt, Console false (uart s)).

Definition print (str : list Z) : ST (console U) unit :=
  con_lock ;; print_chars str ;; con_unlock.

(** [char buf[21]] *)
Definition print_uint (value : Z) : ST (console U) unit :=
  '(buf, p) ← checked (append_uint (replicate 21 0) 0 value);
  buf' ← checked (arr_write buf p [0]);
  print buf'.

(** [kpanic_at(msg, file, line)], up to the point where the core halts. *)
Definition kpanic_at (msg file : list Z) (line : Z) : ST (console U) unit :=
  print [75; 80; 65; 78; 73; 67; 58; 32] ;;
  print msg ;;
  print [32; 97; 116; 32] ;;
  print file ;;
  print [58] ;;
  print_uint (u64 line) ;;
  print [10].
End Output.

(** ** The specification *)

(** What a numeral denotes. *)
Definition numeral (ds : list Z) : Z := foldl (λ v d, 10 * v + (d - 48)) 0 ds.

(** Newlines go out as CR LF. *)
Definition crlf (str : list Z) : list Z := str ≫= λ c, if c =? 10 then [13; 10] else [c].

(** [buf] with [bytes] stored at [dst]. *)
Definition stored (buf : list Z) (dst : Z) (bytes : list Z) (r : option (list Z * Z)) : Prop :=
  ∃ buf', r = Some (buf', dst + Z.of_nat (length bytes)) ∧ arr_write buf dst bytes = Some buf'.

Lemma stored_nil buf dst : 0 ≤ dst ≤ Z.of_nat (length buf) → stored buf dst [] (Some (buf, dst)).
Proof.
  intros Hd. exists buf. cbn [length]. rewrite Z.add_0_r. split; [done|].
  rewrite arr_write_some by (cbn [length]; lia). cbn [length app].
  by rewrite Nat.add_0_r, take_drop.
Qed.

Lemma append_run buf dst str :
  0 ≤ dst → dst + Z.of_nat (length (before 0 str)) ≤ Z.of_nat (length buf) →
  stored buf dst (before 0 str) (append buf dst str).
Proof.
  revert buf dst; induction str as [|c str IH]; intros buf dst Hd Hl; cbn [append before] in *.
  - apply stored_nil. cbn [length] in Hl. lia.
  - case_match; cbn [length] in *; [apply stored_nil; lia|].
    destruct (arr_write_ok buf dst [c]) as (buf1 & E & Hl1); [done|simpl; lia|]. rewrite E.
    cbn [mbind option_bind]. destruct (IH buf1 (dst + 1)) as (buf2 & Ea & Ew); [lia..|].
    exists buf2. rewrite Ea. cbn [length]. split; [do 2 f_equal; lia|]. by rewrite <- (arr_write_app _ _ _ _ _ E).
Qed.

(** The digits, least significant first. *)
Fixpoint digits_of (k : nat) (v : Z) : list Z :=
  match k with
  | O => []
  | S k' => if 0 <? v then (48 + v mod 10) :: digits_of k' (v / 10) else []
  end.

Lemma digit_loop_run k digits n v :
  0 ≤ n → v < 10 ^ Z.of_nat k → n + Z.of_nat k ≤ Z.of_nat (length digits) →
  stored digits n (digits_of k v) (digit_loop k digits n v).
Proof.
  revert digits n v; induction k as [|k IH]; intros digits n v Hn Hv Hl.
  - simpl in *. rewrite (proj2 (Z.ltb_ge 0 v)) by lia. apply stored_nil. lia.
  - cbn [digit_loop digits_of]. destruct (Z.ltb_spec 0 v).
    + assert (u8 (48 + v mod 10) = 48 + v mod 10) as -> by (unfold u8; apply Z.mod_small; dlia).
      destruct (arr_write_ok digits n [48 + v mod 10]) as (d1 & E & Hl1); [done|simpl; lia|].
      rewrite E. cbn [mbind option_bind].
      destruct (IH d1 (n + 1) (v / 10)) as (d2 & Ea & Ew); [lia| |lia|].
      { rewrite Nat2Z.inj_succ, Z.pow_succ_r in Hv by lia. apply Z.div_lt_upper_bound; lia. }
      exists d2. rewrite Ea. cbn [length]. split; [do 2 f_equal; lia|].
      by rewrite <- (arr_write_app _ _ _ _ _ E).
    + apply stored_nil. lia.
Qed.

(** Emitting the first [length ds] digits backwards. *)
Lemma emit_digits_run ds tail buf dst :
  0 ≤ dst → dst + Z.of_nat (length ds) ≤ Z.of_nat (length buf) →
  stored buf dst (rev ds) (emit_digits (length ds) (ds ++ tail) buf dst).
Proof.
  revert tail buf dst; induction ds as [|d ds IH] using rev_ind; intros tail buf dst Hd Hl.
  - apply stored_nil. cbn [length] in Hl. lia.
  - rewrite length_app in *. cbn [length] in *. rewrite Nat.add_1_r. cbn [emit_digits].
    rewrite arr_get_lookup, Nat2Z.id by lia. rewrite <- app_assoc. cbn [app].
    rewrite lookup_app_r, Nat.sub_diag by lia. cbn [lookup list_lookup mbind option_bind].
    destruct (arr_write_ok buf dst [d]) as (b1 & E & Hl1); [done|simpl; lia|]. rewrite E.
    cbn [mbind option_bind]. destruct (IH (d :: tail) b1 (dst + 1)) as (b2 & Ea & Ew); [lia..|].
    exists b2. rewrite Ea, rev_app_distr. cbn [rev app length]. rewrite length_rev in *.
    split; [do 2 f_equal; lia|]. by rewrite <- (arr_write_app _ _ _ _ _ E).
Qed.

(** ** Numerals *)

Lemma numeral_app ds d : numeral (ds ++ [d]) = 10 * numeral ds + (d - 48).
Proof. unfold numeral. by rewrite foldl_app. Qed.

Lemma digits_of_numeral k v : 0 ≤ v < 10 ^ Z.of_nat k → numeral (rev (digits_of k v)) = v.
Proof.
  revert v; induction k as [|k IH]; intros v Hv; [unfold numeral; simpl in *; lia|]. cbn [digits_of].
  destruct (Z.ltb_spec 0 v); [|unfold numeral; simpl; lia]. cbn [rev]. rewrite numeral_app, IH; [dlia|].
  rewrite Nat2Z.inj_succ, Z.pow_succ_r in Hv by lia.
  split; [apply Z.div_pos; lia|apply Z.div_lt_upper_bound; lia].
Qed.

Lemma digits_of_digits k v : Forall (λ d, 48 ≤ d ≤ 57) (digits_of k v).
Proof.
  revert v; induction k as [|k IH]; intros v; [constructor|]. cbn [digits_of].
  case_match; [|constructor]. constructor; [dlia|apply IH].
Qed.

Lemma digits_of_length k v : (length (digits_of k v) ≤ k)%nat.
Proof.
  revert v; induction k as [|k IH]; intros v; [done|]. cbn [digits_of]. case_match; [|simpl; lia].
  cbn [length]. specialize (IH (v / 10)). lia.
Qed.

(** The most significant digit is not zero. *)
Lemma digits_of_lead k v ds d :
  v < 10 ^ Z.of_nat k → digits_of k v = ds ++ [d] → d ≠ 48.
Proof.
  revert v ds; induction k as [|k IH]; intros v ds Hv E; cbn [digits_of] in E;
    [by destruct ds|]. destruct (Z.ltb_spec 0 v); [|by destruct ds].
  rewrite Nat2Z.inj_succ, Z.pow_succ_r in Hv by lia. destruct ds as [|d0 ds]; cbn [app] in E.
  - injection E as Ed E. assert (v / 10 = 0) as E0; [|dlia].
    destruct k as [|k]; [simpl in Hv; dlia|]. cbn [digits_of] in E.
    destruct (Z.ltb_spec 0 (v / 10)); [done|]. dlia.
  - injection E as _ E. eapply IH; [|done]. apply Z.div_lt_upper_bound; lia.
Qed.

(** The decimal numeral of a number. *)
Definition decimal (v : Z) : list Z := if v =? 0 then [48] else rev (digits_of 20 v).

Lemma decimal_spec v :
  is_u64 v → numeral (decimal v) = v ∧ Forall (λ d, 48 ≤ d ≤ 57) (decimal v) ∧
  (1 ≤ length (decimal v) ≤ 20)%nat ∧ (head (decimal v) = Some 48 → v = 0).
Proof.
  unfold is_u64, decimal. intros Hv. destruct (Z.eqb_spec v 0) as [->|Hz].
  { simpl. split_and!; try done; try lia. by repeat constructor. }
  assert (v < 10 ^ Z.of_nat 20) as Hb by (simpl; lia).
  split; [apply digits_of_numeral; lia|]. split; [apply Forall_rev, digits_of_digits|].
  rewrite length_rev. pose proof (digits_of_length 20 v). split.
  - split; [|done]. cbn [digits_of]. rewrite (proj2 (Z.ltb_lt 0 v)) by lia. simpl. lia.
  - intros Hh. exfalso. destruct (rev (digits_of 20 v)) as [|d ds] eqn:E; [done|].
    injection Hh as ->. apply (digits_of_lead 20 v (rev ds) 48); [done| |done].
    by rewrite <- (rev_involutive (digits_of 20 v)), E.
Qed.

Lemma append_uint_run buf dst v :
  is_u64 v → 0 ≤ dst → dst + Z.of_nat (length (decimal v)) ≤ Z.of_nat (length buf) →
  stored buf dst (decimal v) (append_uint buf dst v).
Proof.
  unfold append_uint, decimal, is_u64. intros Hv Hd Hl. destruct (Z.eqb_spec v 0) as [->|Hz].
  - rewrite arr_write_some by (simpl; lia). cbn [mbind option_bind].
    change (Z.to_nat 1) with (length [48]). apply (emit_digits_run [48]); done.
  - assert (v < 10 ^ Z.of_nat 20) as Hb by (simpl; lia).
    destruct (digit_loop_run 20 (replicate 20 0) 0 v) as (ds & E & Ew); [done|done|done|].
    rewrite E. cbn [mbind option_bind]. rewrite Z.add_0_l, Nat2Z.id.
    revert Ew Hl. rewrite length_rev. generalize (digits_of 20 v). intros D Ew Hl.
    unfold arr_write in Ew. case_match; [|done]. injection Ew as <-. cbn [take app Z.to_nat].
    apply emit_digits_run; lia.
Qed.

(** ** Transmission *)

(** The UART sends what is written to its data register, in order, and a full
    FIFO has room again after at most [patience] polls. *)
Class UartLaws (U : Type) `{Uart U} (patience : nat) := {
  sent : U → list Z;
  lag : U → nat;
  lag_bound u : (lag u ≤ patience)%nat;
  flags_sent u : sent (uart_flags u).2 = sent u;
  flags_lag u : Z.land (uart_flags u).1 kFlagTxFifoFull ≠ 0 →
    (lag (uart_flags u).2 < lag u)%nat;
  send_sent c u : sent (uart_send c u) = sent u ++ [c];
}.

Section Transmission.
Context {U : Type} `{Uart U} {patience : nat} {LAWS : UartLaws U patience}.

Lemma wait_tx_run k l u :
  (lag u ≤ k)%nat → ∃ u', wait_tx k (Console l u) = Some (tt, Console l u') ∧ sent u' = sent u.
Proof.
  revert u; induction k as [|k IH]; intros u Hk; cbn [wait_tx uart c_lock];
    pose proof (flags_sent u) as Hs; pose proof (flags_lag u) as Hl;
    destruct (uart_flags u) as [f u1]; simpl in Hs, Hl;
    (destruct (Z.eqb_spec (Z.land f kFlagTxFifoFull) 0) as [|Hf]; [by exists u1|]);
    specialize (Hl Hf); [lia|].
  destruct (IH u1) as (u' & E & Hs'); [lia|]. exists u'. split; [done|congruence].
Qed.

Lemma putc_raw_run c l u :
  is_byte c →
  ∃ u', putc_raw patience c (Console l u) = Some (tt, Console l u') ∧ sent u' = sent u ++ [c].
Proof.
  intros Hc. destruct (wait_tx_run patience l u (lag_bound u)) as (u1 & E & Hs).
  eexists. split; [unfold putc_raw; mstep E; done|]. simpl. rewrite send_sent, Hs. do 2 f_equal.
  unfold u8. by apply Z.mod_small.
Qed.

Lemma print_chars_run str l u :
  Forall is_byte str →
  ∃ u', print_chars patience str (Console l u) = Some (tt, Console l u') ∧
    sent u' = sent u ++ crlf (before 0 str).
Proof.
  intros Hb. revert u. induction Hb as [|c str Hc _ IH]; intros u; cbn [print_chars before].
  { exists u. by rewrite app_nil_r. }
  case_match eqn:E0; [exists u; by rewrite app_nil_r|]. unfold crlf. cbn [mbind list_bind].
  destruct (Z.eqb_spec c 10) as [->|Hn].
  - destruct (putc_raw_run 13 l u) as (u1 & E1 & S1); [by split|].
    destruct (putc_raw_run 10 l u1) as (u2 & E2 & S2); [by split|].
    destruct (IH u2) as (u3 & E3 & S3).
    exists u3. mstep E1. mstep E2. rewrite E3. split; [done|]. rewrite S3, S2, S1, <- !app_assoc. done.
  - destruct (putc_raw_run c l u) as (u2 & E2 & S2); [done|]. destruct (IH u2) as (u3 & E3 & S3).
    exists u3. erewrite bind_run by done. mstep E2. rewrite E3. split; [done|].
    rewrite S3, S2, <- app_assoc. done.
Qed.

Lemma print_run str u :
  Forall is_byte str →
  ∃ u', print patience str (Console false u) = Some (tt, Console false u') ∧
    sent u' = sent u ++ crlf (before 0 str).
Proof.
  intros Hb. destruct (print_chars_run str true u Hb) as (u' & E & Hs). exists u'. split; [|done].
  unfold print. erewrite bind_run by done. mstep E. done.
Qed.

Lemma before_numeral v rest :
  is_u64 v → before 0 (decimal v ++ 0 :: rest) = decimal v.
Proof.
  intros Hv. destruct (decimal_spec v Hv) as (_ & Hd & _). induction Hd as [|d ds Hd _ IH]; [done|].
  cbn [app before]. rewrite (proj2 (Z.eqb_neq d 0)) by lia. by rewrite IH.
Qed.

Lemma crlf_numeral v : is_u64 v → crlf (decimal v) = decimal v.
Proof.
  intros Hv. destruct (decimal_spec v Hv) as (_ & Hd & _). unfold crlf.
  induction Hd as [|d ds Hd _ IH]; [done|]. cbn [mbind list_bind].
  rewrite (proj2 (Z.eqb_neq d 10)), IH by lia. done.
Qed.

Lemma print_uint_run v u :
  is_u64 v →
  ∃ u', print_uint patience v (Console false u) = Some (tt, Console false u') ∧
    sent u' = sent u ++ decimal v.
Proof.
  intros Hv. destruct (decimal_spec v Hv) as (_ & Hd & Hl & _).
  destruct (append_uint_run (replicate 21 0) 0 v Hv) as (buf & E & Ew);
    [lia|rewrite length_replicate; lia|].
  pose proof (arr_write_length _ _ _ _ Ew) as Hlen. rewrite length_replicate in Hlen.
  destruct (arr_write_ok buf (0 + Z.of_nat (length (decimal v))) [0]) as (buf' & E' & _);
    [lia|rewrite Hlen; cbn [length]; lia|].
  assert (∃ rest, buf' = decimal v ++ 0 :: rest ∧ Forall is_byte rest) as (rest & Eb & Hr).
  { unfold arr_write in Ew, E'. case_match; [|done]. case_match; [|done].
    injection Ew as Eb. injection E' as Eb'. rewrite Z.add_0_l, Nat2Z.id in Eb'.
    rewrite <- Eb in Eb'. rewrite take_app_length in Eb'. subst buf'.
    eexists. split; [done|]. apply Forall_drop, Forall_app. split.
    - eapply Forall_impl; [done|]. unfold is_byte. simpl. lia.
    - apply Forall_drop. repeat constructor; done. }
  destruct (print_run buf' u) as (u' & Ep & Hs).
  { subst buf'. apply Forall_app. split; [|constructor; [by split|done]].
    eapply Forall_impl; [done|]. unfold is_byte. simpl. lia. }
  exists u'. split.
  - unfold print_uint. erewrite bind_checked by done. cbv beta iota. by erewrite bind_checked.
  - rewrite Hs. subst buf'. by rewrite before_numeral, crlf_numeral.
Qed.

(** C40: [print] transmits exactly the string, up to its NUL, with every newline
    as CR LF, however often the FIFO fills up, and releases the console lock. *)
Theorem print_transmits str u :
  Forall is_byte str →
  ∃ u', print patience str (Console false u) = Some (tt, Console false u') ∧
    sent u' = sent u ++ crlf (before 0 str).
Proof. apply print_run. Qed.

(** A panic reports what it was given: the message, the file and the line
    number in decimal reach the console in one line. *)
Theorem kpanic_reports msg file line u :
  Forall is_byte msg → Forall is_byte file → 0 ≤ line < 2 ^ 31 →
  ∃ u', kpanic_at patience msg file line (Console false u) = Some (tt, Console false u') ∧
    sent u' = sent u ++ [75; 80; 65; 78; 73; 67; 58; 32] ++ crlf (before 0 msg) ++
      [32; 97; 116; 32] ++ crlf (before 0 file) ++ [58] ++ decimal line ++ [13; 10].
Proof.
  intros Hm Hf Hline. unfold kpanic_at.
  destruct (print_run [75; 80; 65; 78; 73; 67; 58; 32] u) as (u1 & E1 & S1);
    [by repeat constructor|]. mstep E1.
  destruct (print_run msg u1 Hm) as (u2 & E2 & S2). mstep E2.
  destruct (print_run [32; 97; 116; 32] u2) as (u3 & E3 & S3); [by repeat constructor|]. mstep E3.
  destruct (print_run file u3 Hf) as (u4 & E4 & S4). mstep E4.
  destruct (print_run [58] u4) as (u5 & E5 & S5); [by repeat constructor|]. mstep E5.
  rewrite u64_small by lia.
  destruct (print_uint_run line u5) as (u6 & E6 & S6); [split; lia|]. mstep E6.
  destruct (print_run [10] u6) as (u7 & E7 & S7); [by repeat constructor|].
  exists u7. split; [done|]. rewrite S7, S6, S5, S4, S3, S2, S1, <- !app_assoc. done.
Qed.
End Transmission.

(** Formatting a number is correct for every 64-bit value: [append_uint]
    never leaves its 20-digit array, and with room for 20 characters at [dst]
    stores a numeral that denotes the value, has no leading zero unless it is
    "0", and leaves the rest of the buffer alone. *)
Theorem append_uint_decimal buf dst v :
  is_u64 v → 0 ≤ dst → dst + 20 ≤ Z.of_nat (length buf) →
  ∃ ds buf', append_uint buf dst v = Some (buf', dst + Z.of_nat (length ds)) ∧
    arr_write buf dst ds = Some buf' ∧ numeral ds = v ∧ Forall (λ d, 48 ≤ d ≤ 57) ds ∧
    (1 ≤ length ds ≤ 20)%nat ∧ (head ds = Some 48 → v = 0).
Proof.
  intros Hv Hd Hl. destruct (decimal_spec v Hv) as (Hn & Hf & Hlen & Hz).
  destruct (append_uint_run buf dst v Hv Hd) as (buf' & E & Ew); [lia|].
  by exists (decimal v), buf'.
Qed.

(** ** Several cores

    The same code cut at its accesses to the lock and to the UART: between any two
    of them other cores may run.  A core that finds the lock taken, or the FIFO
    full, tries again. *)

Module ConsoleCores.

Inductive con_code :=
| Lock (k : con_code)
| Poll (k : con_code)
| Send (c : Z) (k : con_code)
| Unlock (k : con_code)
| Done.

Definition putc_raw_code (c : Z) (k : con_code) : con_code := Poll (Send c k).

Fixpoint print_chars_code (str : list Z) (k : con_code) : con_code :=
  match str with
  | [] => k
  | c :: rest =>
      if c =? 0 then k
      else
        let after := putc_raw_code c (print_chars_code rest k) in
        if c =? 10 then putc_raw_code 13 after else after
  end.

Definition print_code (str : list Z) : con_code := Lock (print_chars_code str (Unlock Done)).

Section Cores.
Context {U : Type} `{Uart U}.

(** One access of one core. *)
Definition access (k : con_code) (s : console U) : con_code * console U :=
  match k with
  | Lock k' => if c_lock s then (k, s) else (k', Console true (uart s))
  | Poll k' =>
      let '(f, u) := uart_flags (uart s) in
      (if Z.land f kFlagTxFifoFull =? 0 then k' else k, Console (c_lock s) u)
  | Send c k' => (k', Console (c_lock s) (uart_send (u8 c) (uart s)))
  | Unlock k' => (k', Console false (uart s))
  | Done => (k, s)
  end.

(** Where each core is in its call of [print], what that call's string is, and the
    strings of the calls that have returned, in order. *)
Record state := State {
  shared : console U;
  code : nat → con_code;
  calling : nat → list Z;
  finished : list (list Z);
}.

Definition set_code (c : nat) (k : con_code) (s : state) : nat → con_code :=
  λ d, if Nat.eqb d c then k else code s d.

Definition call (c : nat) (str : list Z) (s : state) : state :=
  State (shared s) (set_code c (print_code str) s)
    (λ d, if Nat.eqb d c then str else calling s d) (finished s).

Definition core_access (c : nat) (s : state) : state :=
  let '(k, con) := access (code s c) (shared s) in
  State con (set_code c k s) (calling s)
    (match k with Done => finished s ++ [calling s c] | _ => finished s end).

Inductive step : state → state → Prop :=
| Call s c str : code s c = Done → Forall is_byte str → step s (call c str s)
| Access s c : code s c ≠ Done → step s (core_access c s).

Definition initial (u : U) : state := State (Console false u) (λ _, Done) (λ _, []) [].

(** *** A core that is alone runs [print] *)

Definition alone (r r' : con_code * console U) : Prop := r' = access r.1 r.2.

Lemma alone_wait k patience : ∀ s s',
  wait_tx patience s = Some (tt, s') → rtc alone (Poll k, s) (k, s').
Proof.
  induction patience as [|n IH]; intros s s' E; cbn [wait_tx] in E;
    destruct (uart_flags (uart s)) as [f u] eqn:Ef;
    destruct (Z.land f kFlagTxFifoFull =? 0) eqn:Ez; simplify_eq.
  - apply rtc_once. unfold alone. simpl. by rewrite Ef, Ez.
  - apply rtc_once. unfold alone. simpl. by rewrite Ef, Ez.
  - eapply rtc_l; [|by apply IH]. unfold alone. simpl. by rewrite Ef, Ez.
Qed.

Lemma alone_putc c k patience s s' :
  putc_raw patience c s = Some (tt, s') → rtc alone (putc_raw_code c k, s) (k, s').
Proof.
  unfold putc_raw, mbind, ST_bind. destruct (wait_tx patience s) as [[[] s1]|] eqn:E; [|done].
  intros [= <-]. etransitivity; [by apply (alone_wait (Send c k) patience)|].
  by apply rtc_once.
Qed.

Lemma alone_chars str k patience : ∀ s s',
  print_chars patience str s = Some (tt, s') → rtc alone (print_chars_code str k, s) (k, s').
Proof.
  induction str as [|c str IH]; intros s s' E; cbn [print_chars print_chars_code] in *;
    [injection E as ->; apply rtc_refl|].
  destruct (c =? 0); [injection E as ->; apply rtc_refl|].
  unfold mbind, ST_bind in E.
  assert (∀ s1, match putc_raw patience c s1 with
                | Some (_, s2) => print_chars patience str s2 | None => None end = Some (tt, s') →
            rtc alone (putc_raw_code c (print_chars_code str k), s1) (k, s')) as Hc.
  { intros s1 E1. destruct (putc_raw patience c s1) as [[[] s2]|] eqn:E2; [|done].
    etransitivity; [by eapply alone_putc|by apply IH]. }
  destruct (c =? 10); [|by apply Hc].
  destruct (putc_raw patience 13 s) as [[[] s1]|] eqn:E1; [|done].
  etransitivity; [by eapply alone_putc|by apply Hc].
Qed.

Lemma alone_print str patience s s' :
  print patience str s = Some (tt, s') → rtc alone (print_code str, s) (Done, s').
Proof.
  unfold print, con_lock, con_unlock, mbind, ST_bind. destruct (c_lock s) eqn:El; [done|].
  destruct (print_chars patience str _) as [[[] s1]|] eqn:E; [|done]. intros [= <-].
  eapply rtc_l; [|etransitivity; [apply (alone_chars str (Unlock Done) _ _ _ E)|apply rtc_once; reflexivity]].
  unfold alone. simpl. by rewrite El.
Qed.

(** *** The invariant *)

(** Inside [print], past its [lock()]. *)
Fixpoint inside (k : con_code) : bool :=
  match k with
  | Poll k' | Send _ k' => inside k'
  | Unlock Done => true
  | _ => false
  end.

(** What the rest of the call transmits. *)
Fixpoint rest_of (k : con_code) : list Z :=
  match k with
  | Lock k' | Poll k' | Unlock k' => rest_of k'
  | Send c k' => u8 c :: rest_of k'
  | Done => []
  end.

(** What a call is to transmit. *)
Definition text (str : list Z) : list Z := crlf (before 0 str).

Lemma inside_chars str : inside (print_chars_code str (Unlock Done)) = true.
Proof.
  induction str as [|c str IH]; [done|]. cbn [print_chars_code]. by repeat case_match.
Qed.

Lemma rest_chars str :
  Forall is_byte str → rest_of (print_chars_code str (Unlock Done)) = text str.
Proof.
  unfold text. induction 1 as [|c str Hc _ IH]; [done|]. cbn [print_chars_code before].
  destruct (c =? 0); [done|]. unfold crlf in *. cbn [mbind list_bind].
  assert (u8 c = c) as Eu by (by apply Z.mod_small).
  destruct (Z.eqb_spec c 10) as [->|]; cbn [rest_of putc_raw_code app]; by rewrite IH, ?Eu.
Qed.

Lemma set_code_same s c k : set_code c k s c = k.
Proof. unfold set_code. by rewrite Nat.eqb_refl. Qed.

Lemma set_code_other s c d k : d ≠ c → set_code c k s d = code s d.
Proof. intros Hn. unfold set_code. by rewrite (proj2 (Nat.eqb_neq d c)). Qed.

Context {patience : nat} {LAWS : UartLaws U patience} (u0 : U).

Definition printed (s : state) (part : list Z) : Prop :=
  sent (uart (shared s)) = sent u0 ++ concat (text <$> finished s) ++ part.

(** Each core is outside [print], about to take the lock, or the one inside. *)
Definition outside (s : state) (c : nat) : Prop :=
  code s c = Done ∨ code s c = print_code (calling s c) ∧ Forall is_byte (calling s c).

Definition inv (s : state) : Prop :=
  if c_lock (shared s)
  then ∃ c part, inside (code s c) = true ∧ printed s part ∧
    part ++ rest_of (code s c) = text (calling s c) ∧ ∀ d, d ≠ c → outside s d
  else printed s [] ∧ ∀ d, outside s d.

Lemma inside_not_outside s c : inside (code s c) = true → ¬ outside s c.
Proof. intros Hi [E|[E _]]; by rewrite E in Hi. Qed.

Lemma inv_call s c str :
  code s c = Done → Forall is_byte str → inv s → inv (call c str s).
Proof.
  intros Hc Hb Hi. assert (∀ d, outside s d → outside (call c str s) d) as Ho.
  { intros d Hd. unfold outside, call in *; simpl. destruct (decide (d = c)) as [->|Hn].
    - rewrite set_code_same, Nat.eqb_refl. by right.
    - by rewrite set_code_other, (proj2 (Nat.eqb_neq d c)). }
  unfold inv in *. simpl. destruct (c_lock (shared s)).
  - destruct Hi as (c0 & part & Hin & Hp & Hr & Hd). assert (c0 ≠ c) as Hne by (intros ->; by rewrite Hc in Hin).
    exists c0, part. rewrite set_code_other, (proj2 (Nat.eqb_neq c0 c)) by done.
    split_and!; auto.
  - destruct Hi as [Hp Hd]. split; auto.
Qed.

(** Core [c] changes only its own code. *)
Lemma outside_other s c d k con fin :
  d ≠ c → outside s d → outside (State con (set_code c k s) (calling s) fin) d.
Proof. intros Hn Hd. unfold outside in *; simpl. by rewrite set_code_other. Qed.

Lemma inv_lock s c :
  code s c = print_code (calling s c) → Forall is_byte (calling s c) → inv s → inv (core_access c s).
Proof.
  intros Hc Hb Hi. unfold core_access. rewrite Hc. simpl.
  destruct (c_lock (shared s)) eqn:El.
  - unfold inv in *. simpl. rewrite El in *. destruct Hi as (c0 & part & Hin & Hp & Hr & Hd).
    assert (c0 ≠ c) as Hne by (intros ->; by rewrite Hc in Hin).
    exists c0, part. rewrite set_code_other by done. split_and!; try done.
    intros d Hne'. destruct (decide (d = c)) as [->|]; [|by apply outside_other, Hd].
    right. simpl. by rewrite set_code_same.
  - unfold inv in *. rewrite El in Hi. destruct Hi as [Hp Hd]. simpl.
    pose proof (inside_chars (calling s c)) as Hin.
    exists c, []. rewrite set_code_same. split; [done|]. split; [|split].
    + unfold printed in *. simpl. by destruct (print_chars_code _ _).
    + by rewrite rest_chars.
    + intros d Hne. by apply outside_other.
Qed.

Lemma inv_access s c : inside (code s c) = true → inv s → inv (core_access c s).
Proof.
  intros Hc Hi. unfold inv in Hi. destruct (c_lock (shared s)) eqn:El;
    [|by destruct (inside_not_outside s c Hc); apply Hi].
  destruct Hi as (c0 & part & Hin & Hp & Hr & Hd).
  assert (c0 = c) as ->.
  { destruct (decide (c = c0)) as [|Hn]; [done|]. by destruct (inside_not_outside s c Hc); apply Hd. }
  unfold core_access, inv, printed in *. destruct (code s c) as [k|k|b k|k|] eqn:Ek; try done; simpl in *.
  - pose proof (flags_sent (uart (shared s))) as Hf. destruct (uart_flags (uart (shared s))) as [f u]. simpl in *.
    rewrite El. exists c, part. rewrite set_code_same, Hf.
    destruct (Z.land f kFlagTxFifoFull =? 0); split_and!; try done;
      try (intros d Hn; by apply outside_other, Hd).
    by destruct k.
  - rewrite El. exists c, (part ++ [u8 b]). rewrite set_code_same, send_sent, <- app_assoc. split_and!; try done;
      try (intros d Hn; by apply outside_other, Hd).
    rewrite Hp, <- !app_assoc. by destruct k.
  - destruct k; try done. rewrite app_nil_r in Hr. subst part. split.
    + rewrite Hp, fmap_app, concat_app. simpl. by rewrite !app_nil_r.
    + intros d. destruct (decide (d = c)) as [->|]; [|by apply outside_other, Hd].
      left. simpl. by rewrite set_code_same.
Qed.

Lemma inv_step s s' : step s s' → inv s → inv s'.
Proof.
  intros [s0 c str Hc Hb|s0 c Hc] Hi; [by apply inv_call|].
  destruct (inside (code s0 c)) eqn:Hin; [by apply inv_access|].
  assert (outside s0 c) as [?|[? ?]]; [|done|by apply inv_lock].
  unfold inv in Hi. destruct (c_lock (shared s0)); [|apply Hi].
  destruct Hi as (c0 & part & Hin0 & _ & _ & Hd). apply Hd. intros ->. congruence.
Qed.

Lemma inv_reachable s : rtc step (initial u0) s → inv s.
Proof.
  intros Hr. assert (inv (initial u0)) as Hi.
  { unfold inv, printed, initial. simpl. split; [by rewrite app_nil_r|by left]. }
  revert Hi. induction Hr as [|s1 s2 s3 Hs _ IH]; [done|]. intros Hi. by apply IH, (inv_step s1).
Qed.

(** C39: calls of [print] do not interleave.  However the accesses of the cores
    to the lock and the UART interleave, what the UART has sent is the texts of
    the finished calls, one after the other, followed by a part of the text of
    at most one call in progress, whose core transmits the rest.  And a core that
    is alone runs exactly [print]. *)
Theorem print_calls_atomic :
  (∀ s, rtc step (initial u0) s →
   ∃ part, sent (uart (shared s)) = sent u0 ++ concat (text <$> finished s) ++ part ∧
     (c_lock (shared s) = false → part = []) ∧
     (part ≠ [] → ∃ c, inside (code s c) = true ∧ part ++ rest_of (code s c) = text (calling s c) ∧
        ∀ d, inside (code s d) = true → d = c)) ∧
  (∀ str s s', print patience str s = Some (tt, s') → rtc alone (print_code str, s) (Done, s')).
Proof.
  split; [|intros str s s'; apply alone_print].
  intros s Hr. pose proof (inv_reachable s Hr) as Hi. unfold inv, printed in Hi.
  destruct (c_lock (shared s)).
  - destruct Hi as (c & part & Hin & Hp & Ht & Hd). exists part. split_and!; try done.
    intros _. exists c. split_and!; try done. intros d Hd'. destruct (decide (d = c)) as [|Hn]; [done|].
    by destruct (inside_not_outside s d Hd'); apply Hd.
  - destruct Hi as [Hp _]. by exists [].
Qed.
End Cores.
End ConsoleCores.

(** ** A UART whose FIFO is full for one poll after every byte *)

#[export] Instance slow_uart : Uart (list Z * bool) := {|
  uart_flags := λ u : list Z * bool, (if u.2 then 0x20 else 0, (u.1, false));
  uart_send := λ (c : Z) (u : list Z * bool), (u.1 ++ [c], true);
|}.

#[export] Instance slow_uart_laws : UartLaws (list Z * bool) 1.
Proof.
  refine {| sent := fst; lag := λ u : list Z * bool, if u.2 then 1%nat else 0%nat |}.
  - intros [l []]; simpl; lia.
  - done.
  - intros [l []]; simpl; [lia|done].
  - done.
Defined.

(** "ok\n" *)
Lemma print_transmits_witness :
  ∃ u', print 1 [111; 107; 10] (Console false ([], false)) = Some (tt, Console false u') ∧
    sent u' = [111; 107; 13; 10].
Proof.
  destruct (print_transmits (patience := 1) [111; 107; 10] ([], false)) as (u' & E & S).
  - repeat constructor; unfold is_byte; lia.
  - exists u'. split; [exact E|]. rewrite S. reflexivity.
Defined.

Lemma kpanic_reports_witness :
  ∃ u', kpanic_at 1 [120] [102] 42 (Console false ([], false)) = Some (tt, Console false u') ∧
    sent u' = [75; 80; 65; 78; 73; 67; 58; 32; 120; 32; 97; 116; 32; 102; 58; 52; 50; 13; 10].
Proof.
  destruct (kpanic_reports (patience := 1) [120] [102] 42 ([], false)) as (u' & E & S).
  - repeat constructor; unfold is_byte; lia.
  - repeat constructor; unfold is_byte; lia.
  - lia.
  - exists u'. split; [exact E|]. rewrite S. reflexivity.
Defined.

Lemma append_uint_decimal_witness :
  ∃ ds buf', append_uint (replicate 24 0) 3 (2 ^ 64 - 1) = Some (buf', 3 + Z.of_nat (length ds)) ∧
    numeral ds = 18446744073709551615 ∧ buf' !! 3%nat = Some 49.
Proof.
  destruct (append_uint_decimal (replicate 24 0) 3 (2 ^ 64 - 1))
    as (ds & buf' & E & _ & Hn & _); [unfold is_u64; lia|lia|simpl; lia|].
  exists ds, buf'. split; [exact E|]. split; [exact Hn|].
  assert ((λ r : list Z * Z, r.1 !! 3%nat) <$> append_uint (replicate 24 0) 3 (2 ^ 64 - 1) = Some (Some 49)) as H3
    by (vm_compute; reflexivity).
  rewrite E in H3. injection H3 as H3. exact H3.
Defined.

(** Two cores: the second call starts while the first is printing. *)
Lemma print_calls_atomic_witness :
  ∃ s : ConsoleCores.state (U := list Z * bool),
    rtc ConsoleCores.step (ConsoleCores.initial ([], false)) s ∧
    ConsoleCores.finished s = [[72; 105]] ∧ ConsoleCores.code s 1%nat = ConsoleCores.print_code [33] ∧
    sent (uart (ConsoleCores.shared s)) = [72; 105].
Proof.
  set (s1 := ConsoleCores.call 0 [72; 105] (ConsoleCores.initial (([], false) : list Z * bool))).
  set (run := λ c s n, Nat.iter n (ConsoleCores.core_access c) s).
  assert (∀ c n s, (∀ k, (k < n)%nat → ConsoleCores.code (run c s k) c ≠ ConsoleCores.Done) →
    rtc ConsoleCores.step s (run c s n)) as Hrun.
  { intros c n s. induction n as [|n IH]; intros Hk; [apply rtc_refl|].
    eapply rtc_r; [apply IH; intros k Hlt; apply Hk; lia|]. apply ConsoleCores.Access. apply (Hk n). lia. }
  set (s2 := run 0%nat s1 3%nat). set (s3 := ConsoleCores.call 1 [33] s2).
  set (s4 := run 0%nat (run 1%nat s3 2%nat) 4%nat).
  assert (rtc ConsoleCores.step (ConsoleCores.initial ([], false)) s4) as Hr.
  { eapply rtc_l; [apply (ConsoleCores.Call _ 0 [72; 105]); [done|repeat constructor; unfold is_byte; lia]|].
    etransitivity.
    { apply (Hrun 0%nat 3%nat). intros k Hk. do 3 (destruct k as [|k]; [vm_compute; discriminate|]). lia. }
    eapply rtc_l; [apply (ConsoleCores.Call _ 1 [33]); [done|repeat constructor; unfold is_byte; lia]|].
    etransitivity.
    { apply (Hrun 1%nat 2%nat). intros k Hk. do 2 (destruct k as [|k]; [vm_compute; discriminate|]). lia. }
    apply (Hrun 0%nat 4%nat). intros k Hk. do 4 (destruct k as [|k]; [vm_compute; discriminate|]). lia. }
  exists s4. split; [exact Hr|].
  destruct (proj1 (ConsoleCores.print_calls_atomic (patience := 1) (([], false) : list Z * bool)) s4 Hr)
    as (part & E & Hp & _).
  split; [vm_compute; reflexivity|]. split; [vm_compute; reflexivity|].
  rewrite E, Hp by (vm_compute; reflexivity). vm_compute. reflexivity.
Defined.
