(* ===== verification/Heap.v ===== *)
(** * kernel/src/heap.cpp: the first-fit, coalescing allocator

    The code, operation by operation, over the byte memory: boundary tags are
    two 64-bit fields stored little-endian before and after each payload, and
    pointers are 64-bit addresses with 0 as [nullptr].  [ArenaLayout] is what
    the linker decides: where [g_arena] and the allocator's lock are;
    [HeapLayout] adds that the whole arena is memory. *)

From S2P Require Import Prelude Memory Spinlock.

Local Open Scope machine_scope.

Definition kArenaSize : Z := 2 * 1024 * 1024.
Definition kAlignment : Z := 16.
(** [sizeof(Tag)]: [block_size] at offset 0 and [in_use] at offset 8. *)
Definition kTagSize : Z := 16.
Definition kMinBlockSize : Z := 2 * kTagSize.

Class ArenaLayout `{AddressSpace} := {
  g_arena : Z;
  g_lock : Z;
  g_arena_aligned : g_arena mod kAlignment = 0;
  g_arena_fits : 0 < g_arena ∧ g_arena + kArenaSize < 2 ^ 64;
  g_lock_mapped : mapped g_lock = true;
  g_lock_outside : g_lock < g_arena ∨ g_arena + kArenaSize ≤ g_lock;
}.

Class HeapLayout `{AddressSpace} := {
  heap_arena :: ArenaLayout;
  g_arena_mapped : mapped_range g_arena kArenaSize;
}.

(** [(n + alignment - 1) & ~(alignment - 1)] on [size_t] *)
Definition align_up (n alignment : Z) : Z :=
  Z.land (n + alignment -₆₄ 1) (u64 (Z.lnot (u64 (alignment - 1)))).

Section Heap.
Context `{ArenaLayout}.

(** ** Tags *)

Definition get_block_size (t : Z) : M Z := load64 t.
Definition get_in_use (t : Z) : M Z := load64 (t +₆₄ 8).
Definition set_block_size (t v : Z) : M unit := store64 t v.
Definition set_in_use (t v : Z) : M unit := store64 (t +₆₄ 8) v.

Definition footer_of (header : Z) : M Z :=
  s ← get_block_size header;
  mret (header + s -₆₄ kTagSize).

Definition payload_of (header : Z) : Z := header +₆₄ kTagSize.

Definition header_of (payload : Z) : Z := payload -₆₄ kTagSize.

Definition write_tags (header size : Z) (in_use : bool) : M unit :=
  set_block_size header size ;;
  set_in_use header (b2z in_use) ;;
  footer ← footer_of header;
  set_block_size footer size ;;
  set_in_use footer (b2z in_use).

Definition arena_begin : Z := g_arena.
Definition arena_end : Z := g_arena +₆₄ kArenaSize.

Definition next_block (header : Z) : M Z :=
  s ← get_block_size header;
  let next := header +₆₄ s in
  mret (if next <? arena_end then next else 0).

Definition prev_block (header : Z) : M Z :=
  if header =? g_arena then mret 0
  else
    let prev_footer := header -₆₄ kTagSize in
    s ← get_block_size prev_footer;
    mret (header -₆₄ s).

(** ** namespace heap *)

Definition init : M unit := write_tags arena_begin kArenaSize false.

(** The body of the search loop for a block that fits: split it if the
    remainder can stand alone, then unlock and return its payload. *)
Definition take_block (block needed : Z) : M Z :=
  s ← get_block_size block;
  let remainder := s -₆₄ needed in
  (if kMinBlockSize <=? remainder then
     write_tags block needed true ;;
     next ← next_block block;
     write_tags next remainder false
   else
     s' ← get_block_size block;
     write_tags block s' true) ;;
  spin_unlock g_lock ;;
  mret (payload_of block).

(** [block->in_use || block->block_size < needed] *)
Definition skip_block (block needed : Z) : M bool :=
  u ← get_in_use block;
  if negb (u =? 0) then mret true
  else s ← get_block_size block; mret (s <? needed).

Fixpoint malloc_loop (fuel : nat) (block needed : Z) : M Z :=
  match fuel with
  | O => fault
  | S k =>
      if block =? 0 then spin_unlock g_lock ;; mret 0
      else
        skip ← skip_block block needed;
        if (skip : bool)
        then next ← next_block block; malloc_loop k next needed
        else take_block block needed
  end.

(** Every block is at least [kMinBlockSize] bytes, so the walk visits at most
    this many blocks before it runs off the arena's end. *)
Definition malloc_fuel : nat := S (Z.to_nat (kArenaSize / kMinBlockSize)).

Definition malloc (size : Z) : M Z :=
  if size =? 0 then mret 0
  else
    let needed := align_up size kAlignment +₆₄ 2 * kTagSize in
    spin_lock g_lock ;;
    malloc_loop malloc_fuel arena_begin needed.

(** [size += next->block_size] if [next] is a free block *)
Definition merge_next (block size : Z) : M Z :=
  next ← next_block block;
  if next =? 0 then mret size
  else
    u ← get_in_use next;
    if negb (u =? 0) then mret size
    else s ← get_block_size next; mret (size +₆₄ s).

(** [lo = prev; size += prev->block_size] if [prev] is a free block *)
Definition merge_prev (block size : Z) : M (Z * Z) :=
  prev ← prev_block block;
  if prev =? 0 then mret (block, size)
  else
    u ← get_in_use prev;
    if negb (u =? 0) then mret (block, size)
    else s ← get_block_size prev; mret (prev, size +₆₄ s).

Definition free (ptr : Z) : M unit :=
  if ptr =? 0 then mret tt
  else
    spin_lock g_lock ;;
    let block := header_of ptr in
    size ← get_block_size block;
    size1 ← merge_next block size;
    '(lo, size2) ← merge_prev block size1;
    write_tags lo size2 false ;;
    spin_unlock g_lock.

(** ** operator new and operator delete

    When [malloc] fails the core halts in [out_of_memory()] and [new] never
    returns. *)
Definition out_of_memory {A} : M A := fault.

Definition operator_new (size : Z) : M Z :=
  ptr ← malloc size;
  if ptr =? 0 then out_of_memory else mret ptr.

Definition operator_new_array (size : Z) : M Z := operator_new size.
Definition operator_delete (ptr : Z) : M unit := free ptr.
Definition operator_delete_array (ptr : Z) : M unit := free ptr.
Definition operator_delete_sized (ptr size : Z) : M unit := free ptr.
Definition operator_delete_array_sized (ptr size : Z) : M unit := free ptr.
End Heap.

(** ** Example layout: a higher-half kernel image, as the linker script places it. *)

Definition example_space : AddressSpace :=
  λ a, (0xffffffff80200000 - 64 <=? a) && (a <? 0xffffffff80200000 + kArenaSize).

Program Definition example_layout : @HeapLayout example_space :=
  {| heap_arena := {| g_arena := 0xffffffff80200000; g_lock := 0xffffffff80200000 - 64 |} |}.
Next Obligation. done. Qed.
Next Obligation. done. Qed.
Next Obligation. done. Qed.
Next Obligation. left. lia. Qed.
Next Obligation.
  intros x Hx. unfold mapped, example_space. apply andb_true_intro.
  rewrite Z.leb_le, Z.ltb_lt. simpl in Hx. unfold kArenaSize in *. lia.
Qed.

(** The fuel of the search loop covers any number of blocks the arena can hold. *)
Lemma malloc_fuel_enough (n : nat) :
  kMinBlockSize * Z.of_nat n ≤ kArenaSize → (n < malloc_fuel)%nat.
Proof.
  unfold malloc_fuel. replace (kArenaSize / kMinBlockSize) with 65536 by done.
  unfold kMinBlockSize, kTagSize, kArenaSize. lia.
Qed.

#[global] Opaque malloc_fuel.
