(* ===== verification/HeapInv.v ===== *)
(** * The heap's abstract state, invariant and refinement

    The abstract heap is the list of blocks that tile the arena.  [heap_rep m
    bs] says that memory [m] holds the blocks [bs] with matching header and
    footer tags, no two free neighbours, and the lock clear.  [acquire] and
    [release] are first-fit allocation and coalescing deallocation on such
    lists; the code of [Heap] is shown to implement them. *)

From S2P Require Import Prelude Memory Spinlock Heap.

Local Open Scope machine_scope.

Record blk := Blk { bsize : Z; bused : bool }.

#[export] Instance blk_eq_dec : EqDecision blk.
Proof. solve_decision. Defined.

(** ** The abstract heap *)

Definition blk_ok (b : blk) : Prop := kMinBlockSize ≤ bsize b ∧ bsize b mod kAlignment = 0.

Fixpoint total (bs : list blk) : Z :=
  match bs with
  | [] => 0
  | b :: r => bsize b + total r
  end.

Definition head_used (bs : list blk) : bool :=
  match bs with
  | [] => true
  | b :: _ => bused b
  end.

(** No two neighbouring blocks are both free. *)
Fixpoint coalesced (bs : list blk) : Prop :=
  match bs with
  | [] => True
  | b :: r => bused b || head_used r = true ∧ coalesced r
  end.

(** The payloads in use: address and capacity. *)
Fixpoint live (a : Z) (bs : list blk) : gmap Z Z :=
  match bs with
  | [] => ∅
  | b :: r =>
      if bused b then <[a + kTagSize := bsize b - 2 * kTagSize]> (live (a + bsize b) r)
      else live (a + bsize b) r
  end.

(** What taking [needed] bytes out of a free block leaves in its place. *)
Definition carve (b : blk) (needed : Z) : list blk :=
  if kMinBlockSize <=? bsize b - needed
  then [Blk needed true; Blk (bsize b - needed) false]
  else [Blk (bsize b) true].

(** First fit: the payload address and the blocks after allocation. *)
Fixpoint acquire (a needed : Z) (bs : list blk) : option (Z * list blk) :=
  match bs with
  | [] => None
  | b :: r =>
      if bused b || (bsize b <? needed) then
        '(p, r') ← acquire (a + bsize b) needed r; Some (p, b :: r')
      else Some (a + kTagSize, carve b needed ++ r)
  end.

(** A free block of [s] bytes put in front of [bs], merged with a free head. *)
Definition free_cons (s : Z) (bs : list blk) : list blk :=
  match bs with
  | Blk s2 false :: r => Blk (s + s2) false :: r
  | _ => Blk s false :: bs
  end.

(** One block put back in front of the blocks after it. *)
Definition put_back (b : blk) (bs : list blk) : list blk :=
  if bused b then b :: bs else free_cons (bsize b) bs.

(** Deallocation of payload [p]: its block becomes free and is merged with the
    free blocks on either side. *)
Fixpoint release (a p : Z) (bs : list blk) : option (list blk) :=
  match bs with
  | [] => None
  | b :: r =>
      if a + kTagSize =? p then
        if bused b then Some (free_cons (bsize b) r) else None
      else put_back b <$> release (a + bsize b) p r
  end.

(** ** Blocks in memory *)

Definition tag_at (m : mem) (a : Z) (b : blk) : Prop :=
  rd64 m a = bsize b ∧ rd64 m (a + 8) = b2z (bused b).

(** The blocks [bs] tile the bytes from [a] to [e], each between its tags. *)
Fixpoint tiled (m : mem) (a : Z) (bs : list blk) (e : Z) : Prop :=
  match bs with
  | [] => a = e
  | b :: r =>
      blk_ok b ∧ tag_at m a b ∧ tag_at m (a + bsize b - kTagSize) b ∧
      tiled m (a + bsize b) r e
  end.

(** The bytes of the tags of [bs] laid out from [a]. *)
Fixpoint is_tag (a : Z) (bs : list blk) (x : Z) : Prop :=
  match bs with
  | [] => False
  | b :: r =>
      a ≤ x < a + kTagSize ∨ a + bsize b - kTagSize ≤ x < a + bsize b ∨
      is_tag (a + bsize b) r x
  end.

(** The bytes of the free blocks of [bs] laid out from [a]. *)
Fixpoint in_free (a : Z) (bs : list blk) (x : Z) : Prop :=
  match bs with
  | [] => False
  | b :: r => (bused b = false ∧ a ≤ x < a + bsize b) ∨ in_free (a + bsize b) r x
  end.

(** The bytes of the payloads in use. *)
Definition in_live (L : gmap Z Z) (x : Z) : Prop :=
  ∃ p n, L !! p = Some n ∧ p ≤ x < p + n.

Definition heap_rep `{ArenaLayout} (m : mem) (bs : list blk) : Prop :=
  tiled m g_arena bs (g_arena + kArenaSize) ∧ coalesced bs ∧ rd m g_lock = 0.

(** The bytes [malloc]/[free] need for a request of [size] bytes. *)
Definition block_bytes (size : Z) : Z := (size + 15) / 16 * 16 + 2 * kTagSize.

(** The memory [write_tags] leaves. *)
Definition put_tag (m : mem) (a : Z) (b : blk) : mem :=
  wr64 (wr64 m a (bsize b)) (a + 8) (b2z (bused b)).
Definition put_tags (m : mem) (a : Z) (b : blk) : mem :=
  put_tag (put_tag m a b) (a + bsize b - kTagSize) b.

Ltac hunfold := unfold blk_ok, kMinBlockSize, kTagSize, kAlignment in *.

(** ** Lemmas: block lists *)

Lemma total_app l1 l2 : total (l1 ++ l2) = total l1 + total l2.
Proof. induction l1 as [|b l1 IH]; simpl; lia. Qed.

Lemma blk_ok_pos b : blk_ok b → 32 ≤ bsize b.
Proof. hunfold. lia. Qed.

Lemma tiled_ok m a bs e : tiled m a bs e → Forall blk_ok bs.
Proof.
  revert a; induction bs as [|b r IH]; intros a Ht; constructor; [apply Ht|].
  eapply IH, Ht.
Qed.

Lemma tiled_end m a bs e : tiled m a bs e → e = a + total bs.
Proof.
  revert a; induction bs as [|b r IH]; intros a Ht; simpl in *; [lia|].
  destruct Ht as (_ & _ & _ & Ht). apply IH in Ht. lia.
Qed.

Lemma total_nonneg bs : Forall blk_ok bs → 32 * Z.of_nat (length bs) ≤ total bs.
Proof. induction 1 as [|b r Hb _ IH]; simpl; [done|]. hunfold. lia. Qed.

Lemma tiled_le m a bs e : tiled m a bs e → a + 32 * Z.of_nat (length bs) ≤ e.
Proof.
  intros Ht. pose proof (total_nonneg _ (tiled_ok _ _ _ _ Ht)).
  apply tiled_end in Ht. lia.
Qed.

Lemma tiled_app m a l1 l2 e :
  tiled m a (l1 ++ l2) e ↔ tiled m a l1 (a + total l1) ∧ tiled m (a + total l1) l2 e.
Proof.
  revert a; induction l1 as [|b l1 IH]; intros a; simpl.
  - rewrite Z.add_0_r. tauto.
  - rewrite IH, !Z.add_assoc. tauto.
Qed.

Lemma is_tag_bounds a bs x :
  Forall blk_ok bs → is_tag a bs x → a ≤ x < a + total bs.
Proof.
  intros Hok. revert a; induction Hok as [|b r Hb Hr IH]; intros a Hx; simpl in *; [done|].
  pose proof (total_nonneg _ Hr). hunfold. destruct Hx as [?|[?|Hx]]; [lia..|].
  apply IH in Hx. lia.
Qed.

(** The tags are all that [tiled] depends on. *)
Lemma tiled_frame m m' a bs e :
  tiled m a bs e → same_on (is_tag a bs) m m' → tiled m' a bs e.
Proof.
  revert a; induction bs as [|b r IH]; intros a Ht Hs; simpl in *; [done|].
  destruct Ht as (Hb & [H1 H2] & [H3 H4] & Ht).
  assert (∀ t, (∀ x, t ≤ x < t + 8 → is_tag a (b :: r) x) → rd64 m' t = rd64 m t) as Hrd.
  { intros t Hx. apply rd64_ext. intros x Hx'. symmetry. by apply Hs, Hx. }
  unfold tag_at. rewrite !Hrd; [|simpl; hunfold; intros; lia..].
  split_and!; try done. apply IH; [done|]. intros x Hx. apply Hs. by right; right.
Qed.

Lemma tiled_same_on m m' a bs e :
  tiled m a bs e → same_on (λ x, a ≤ x < e) m m' → tiled m' a bs e.
Proof.
  intros Ht Hs. eapply tiled_frame; [done|]. eapply same_on_weaken; [done|].
  intros x Hx. apply is_tag_bounds in Hx; [|by eapply tiled_ok].
  apply tiled_end in Ht. simpl. lia.
Qed.

Lemma is_tag_app a l1 l2 x :
  is_tag a (l1 ++ l2) x ↔ is_tag a l1 x ∨ is_tag (a + total l1) l2 x.
Proof.
  revert a; induction l1 as [|b l1 IH]; intros a; simpl.
  - rewrite Z.add_0_r. tauto.
  - rewrite IH, Z.add_assoc. tauto.
Qed.

Lemma in_free_bounds a bs x :
  Forall blk_ok bs → in_free a bs x → a ≤ x < a + total bs.
Proof.
  intros Hok. revert a; induction Hok as [|b r Hb Hr IH]; intros a Hx; simpl in *; [done|].
  pose proof (total_nonneg _ Hr). hunfold. destruct Hx as [?|Hx]; [lia|].
  apply IH in Hx. lia.
Qed.

(** A payload in use is the inside of a used block. *)
Lemma live_split a bs p n :
  live a bs !! p = Some n →
  ∃ pre b post, bs = pre ++ b :: post ∧ bused b = true ∧
    p = a + total pre + kTagSize ∧ n = bsize b - 2 * kTagSize.
Proof.
  revert a; induction bs as [|b r IH]; intros a Hp; simpl in Hp; [done|].
  assert (live (a + bsize b) r !! p = Some n →
    ∃ pre b' post, b :: r = pre ++ b' :: post ∧ bused b' = true ∧
      p = a + total pre + kTagSize ∧ n = bsize b' - 2 * kTagSize) as Hrec.
  { intros Hr. destruct (IH _ Hr) as (pre & b' & post & -> & Hu & -> & ->).
    exists (b :: pre), b', post. simpl. split_and!; [done..|lia|done]. }
  destruct (bused b) eqn:Eb; [|by apply Hrec].
  rewrite lookup_insert in Hp. case_decide; [|by apply Hrec].
  simplify_eq. exists [], b, r. simpl. split_and!; [done..|lia|done].
Qed.

Lemma live_app a l1 l2 : live a (l1 ++ l2) = live a l1 ∪ live (a + total l1) l2.
Proof.
  revert a; induction l1 as [|b l1 IH]; intros a; simpl.
  - by rewrite Z.add_0_r, (left_id_L ∅ (∪)).
  - rewrite IH, Z.add_assoc. destruct (bused b); [|done]. by rewrite insert_union_l.
Qed.

Lemma live_bounds a bs p n :
  Forall blk_ok bs → live a bs !! p = Some n →
  a + kTagSize ≤ p ∧ 0 ≤ n ∧ p + n + kTagSize ≤ a + total bs.
Proof.
  intros Hok Hp. apply live_split in Hp as (pre & b & post & -> & _ & -> & ->).
  apply Forall_app in Hok as [H1 H2]. inversion H2 as [|?? Hb H3]; subst.
  rewrite total_app. simpl.
  pose proof (total_nonneg _ H1). pose proof (total_nonneg _ H3). hunfold. lia.
Qed.

Lemma live_none a bs p : Forall blk_ok bs → p < a + kTagSize → live a bs !! p = None.
Proof.
  intros Hok Hp. destruct (live a bs !! p) as [n|] eqn:E; [|done].
  apply live_bounds in E; [lia|done].
Qed.

(** Payloads in use hold neither tags nor bytes of free blocks. *)
Lemma live_not_tag a bs x : Forall blk_ok bs → in_live (live a bs) x → ¬ is_tag a bs x.
Proof.
  intros Hok (p & n & Hp & Hx). apply live_split in Hp as (pre & b & post & -> & _ & -> & ->).
  apply Forall_app in Hok as [H1 H2]. inversion H2 as [|?? Hb H3]; subst.
  rewrite is_tag_app. simpl. hunfold. intros [Ht|[?|[?|Ht]]]; [|lia..|].
  - apply is_tag_bounds in Ht; [lia|done].
  - apply is_tag_bounds in Ht; [lia|done].
Qed.

Lemma in_free_app a l1 l2 x :
  in_free a (l1 ++ l2) x ↔ in_free a l1 x ∨ in_free (a + total l1) l2 x.
Proof.
  revert a; induction l1 as [|b l1 IH]; intros a; simpl.
  - rewrite Z.add_0_r. tauto.
  - rewrite IH, Z.add_assoc. tauto.
Qed.

Lemma live_not_free a bs x : Forall blk_ok bs → in_live (live a bs) x → ¬ in_free a bs x.
Proof.
  intros Hok (p & n & Hp & Hx). apply live_split in Hp as (pre & b & post & -> & Hu & -> & ->).
  apply Forall_app in Hok as [H1 H2]. inversion H2 as [|?? Hb H3]; subst.
  rewrite in_free_app. simpl. hunfold. rewrite Hu. intros [Ht|[[? _]|Ht]]; [|done|].
  - apply in_free_bounds in Ht; [lia|done].
  - apply in_free_bounds in Ht; [lia|done].
Qed.

Lemma total_aligned bs : Forall blk_ok bs → total bs mod 16 = 0.
Proof. induction 1 as [|b r Hb _ IH]; simpl; [done|]. hunfold. dlia. Qed.

Lemma live_aligned a bs p n :
  Forall blk_ok bs → a mod 16 = 0 → live a bs !! p = Some n → p mod 16 = 0.
Proof.
  intros Hok Ha Hp. apply live_split in Hp as (pre & b & post & -> & _ & -> & _).
  apply Forall_app in Hok as [Hpre _]. apply total_aligned in Hpre. hunfold. dlia.
Qed.

Lemma live_capacity_aligned a bs p n :
  Forall blk_ok bs → live a bs !! p = Some n → n mod 16 = 0.
Proof.
  intros Hok Hp. apply live_split in Hp as (pre & b & post & -> & _ & _ & ->).
  apply Forall_app in Hok as [_ [Hb _]%Forall_cons]. hunfold. dlia.
Qed.

(** ** Lemmas: first fit and coalescing on block lists *)

Lemma acquire_ge a needed bs p bs' :
  Forall blk_ok bs → acquire a needed bs = Some (p, bs') → a + kTagSize ≤ p.
Proof.
  intros Hok. revert a p bs'; induction Hok as [|b r Hb _ IH]; intros a p bs' E; [done|].
  simpl in E. case_match; simplify_eq; [|done].
  destruct (acquire (a + bsize b) needed r) as [[q r']|] eqn:Er; simplify_eq/=.
  apply IH in Er. hunfold. lia.
Qed.

Lemma free_cons_free b r :
  bused b = false → head_used r = true → free_cons (bsize b) r = b :: r.
Proof.
  destruct b as [s u]; simpl; intros -> Hr. destruct r as [|[s2 u2] r]; [done|].
  simpl in Hr. by subst.
Qed.

Lemma put_back_id b r : bused b || head_used r = true → put_back b r = b :: r.
Proof.
  intros Hc. unfold put_back. destruct (bused b) eqn:Eb; [done|].
  by apply free_cons_free.
Qed.

Lemma coalesced_free_cons s r : coalesced r → coalesced (free_cons s r).
Proof. destruct r as [|[s2 []] r]; simpl; tauto. Qed.

Lemma coalesced_put_back b r : coalesced r → coalesced (put_back b r).
Proof.
  intros Hr. unfold put_back. destruct (bused b) eqn:Eb; [|by apply coalesced_free_cons].
  simpl. by rewrite Eb.
Qed.

Lemma acquire_coalesced a needed bs p bs' :
  coalesced bs → acquire a needed bs = Some (p, bs') →
  coalesced bs' ∧ (head_used bs = true → head_used bs' = true).
Proof.
  revert a p bs'; induction bs as [|b r IH]; intros a p bs' Hc E; [done|].
  simpl in E, Hc |- *. destruct Hc as [Hb Hr]. zdestruct (bused b || (bsize b <? needed)).
  - destruct (acquire (a + bsize b) needed r) as [[q r']|] eqn:Er; simplify_eq/=.
    destruct (IH _ _ _ Hr Er) as [Hc' Hh]. split; [|done]. split; [|done].
    destruct (bused b); [done|]. by apply Hh.
  - simplify_eq. destruct b as [s u]; simpl in *; subst. unfold carve.
    case_match; simpl; rewrite ?Hb; split; try tauto; done.
Qed.

Lemma release_coalesced a p bs bs' :
  coalesced bs → release a p bs = Some bs' → coalesced bs'.
Proof.
  revert a bs'; induction bs as [|b r IH]; intros a bs' Hc E; [done|].
  simpl in E, Hc. destruct Hc as [_ Hr]. repeat case_match; simplify_eq.
  - by apply coalesced_free_cons.
  - apply fmap_Some in E as (r' & E & ->). apply coalesced_put_back. by eapply IH.
Qed.

(** Freeing what first fit just took restores the heap exactly. *)
Lemma release_acquire a needed bs p bs' :
  Forall blk_ok bs → coalesced bs → acquire a needed bs = Some (p, bs') →
  release a p bs' = Some bs.
Proof.
  intros Hok. revert a p bs'; induction Hok as [|b r Hb Hok IH]; intros a p bs' Hc E; [done|].
  simpl in E, Hc. destruct Hc as [Hb' Hr]. zdestruct (bused b || (bsize b <? needed)).
  - destruct (acquire (a + bsize b) needed r) as [[q r']|] eqn:Er; simplify_eq/=.
    pose proof (acquire_ge _ _ _ _ _ Hok Er). rewrite (proj2 (Z.eqb_neq _ _)) by (hunfold; lia).
    rewrite (IH _ _ _ Hr Er). simpl. by rewrite put_back_id.
  - simplify_eq. destruct b as [s u]; simpl in *; subst. unfold carve. simpl.
    case_match; simpl; rewrite Z.eqb_refl; simpl.
    + do 3 f_equal. lia.
    + f_equal. by apply (free_cons_free (Blk s false)).
Qed.

Lemma carve_ok b needed :
  blk_ok b → 32 ≤ needed → needed mod 16 = 0 → Forall blk_ok (carve b needed).
Proof.
  intros Hb Hn Hm. unfold carve. zdestruct (kMinBlockSize <=? bsize b - needed);
    repeat constructor; hunfold; simpl; (lia || dlia).
Qed.

Lemma carve_total b needed : total (carve b needed) = bsize b.
Proof. unfold carve. case_match; simpl; lia. Qed.

Lemma carve_live a b needed :
  needed ≤ bsize b →
  ∃ cap, needed - 2 * kTagSize ≤ cap < needed ∧ cap ≤ bsize b - 2 * kTagSize ∧
    live a (carve b needed) = {[a + kTagSize := cap]}.
Proof.
  intros Hn. unfold carve. hunfold. zdestruct (2 * 16 <=? bsize b - needed).
  - exists (needed - 2 * 16). by split_and!; [lia..|].
  - exists (bsize b - 2 * 16). by split_and!; [lia..|].
Qed.

(** First fit adds one payload, of at least the requested capacity and less than
    a block's overhead more, cut out of a free block. *)
Lemma acquire_live a needed bs p bs' :
  Forall blk_ok bs → acquire a needed bs = Some (p, bs') →
  ∃ cap, needed - 2 * kTagSize ≤ cap < needed ∧ live a bs !! p = None ∧
    live a bs' = <[p := cap]> (live a bs) ∧
    (∀ x, p - kTagSize ≤ x < p + cap + kTagSize → in_free a bs x).
Proof.
  intros Hok. revert a p bs'; induction Hok as [|b r Hb Hok IH]; intros a p bs' E; [done|].
  simpl in E. zdestruct (bused b || (bsize b <? needed)).
  - destruct (acquire (a + bsize b) needed r) as [[q r']|] eqn:Er; simplify_eq/=.
    pose proof (acquire_ge _ _ _ _ _ Hok Er).
    destruct (IH _ _ _ Er) as (cap & Hcap & Hnone & Hl & Hx).
    exists cap. rewrite Hl. split; [done|]. split_and!; [..|by intros; right; apply Hx].
    + destruct (bused b); [|done]. rewrite lookup_insert_ne; [done|hunfold; lia].
    + destruct (bused b); [|done]. rewrite insert_insert_ne; [done|hunfold; lia].
  - simplify_eq. destruct (carve_live a b needed) as (cap & H1 & H2 & Hl); [done|].
    exists cap. rewrite live_app, Hl, carve_total. simpl. case_match; [congruence|].
    split; [done|]. split_and!.
    + apply live_none; [done|]. hunfold. lia.
    + by rewrite <- insert_union_singleton_l.
    + intros x Hx. left. hunfold. split; [done|lia].
Qed.

Lemma acquire_none a needed bs :
  acquire a needed bs = None ↔ Forall (λ b, bused b = true ∨ bsize b < needed) bs.
Proof.
  revert a; induction bs as [|b r IH]; intros a; simpl; [done|]. rewrite Forall_cons.
  zdestruct (bused b || (bsize b <? needed)).
  - rewrite <- (IH (a + bsize b)). apply orb_prop in E.
    destruct (acquire (a + bsize b) needed r) as [[q r']|]; simpl; [split; [done|by intros [_ ?]]|].
    split; [|done]. intros _. split; [|done]. rewrite Z.ltb_lt in E. tauto.
  - split; [done|]. intros [[?|?] _]; [congruence|lia].
Qed.

Lemma acquire_aligned a needed bs p bs' :
  Forall blk_ok bs → a mod 16 = 0 → acquire a needed bs = Some (p, bs') → p mod 16 = 0.
Proof.
  intros Hok. revert a p bs'; induction Hok as [|b r Hb Hok IH]; intros a p bs' Ha E; [done|].
  simpl in E. case_match; simplify_eq; [|hunfold; dlia].
  destruct (acquire (a + bsize b) needed r) as [[q r']|] eqn:Er; simplify_eq/=.
  eapply IH, Er. hunfold. dlia.
Qed.

Lemma release_split a pre b post :
  Forall blk_ok pre → bused b = true →
  release a (a + total pre + kTagSize) (pre ++ b :: post) =
    Some (foldr put_back (free_cons (bsize b) post) pre).
Proof.
  intros Hok Hb. revert a; induction Hok as [|q pre Hq Hok IH]; intros a; simpl.
  - by rewrite Z.add_0_r, Z.eqb_refl, Hb.
  - pose proof (total_nonneg _ Hok). rewrite (proj2 (Z.eqb_neq _ _)) by (hunfold; lia).
    replace (a + (bsize q + total pre) + kTagSize) with (a + bsize q + total pre + kTagSize)
      by lia. by rewrite IH.
Qed.

Lemma live_free_cons a s r : live a (free_cons s r) = live (a + s) r.
Proof. destruct r as [|[s2 []] r]; simpl; [done..|]. by rewrite Z.add_assoc. Qed.

Lemma live_put_back a b r :
  live a (put_back b r) =
    if bused b then <[a + kTagSize := bsize b - 2 * kTagSize]> (live (a + bsize b) r)
    else live (a + bsize b) r.
Proof.
  unfold put_back. destruct (bused b) eqn:Eb; simpl; [by rewrite Eb|apply live_free_cons].
Qed.

Lemma release_live a p bs bs' :
  Forall blk_ok bs → release a p bs = Some bs' → live a bs' = delete p (live a bs).
Proof.
  intros Hok. revert a bs'; induction Hok as [|b r Hb Hok IH]; intros a bs' E; [done|].
  simpl in E |- *. zdestruct (a + kTagSize =? p).
  - subst. destruct (bused b); [|done]. simplify_eq. rewrite live_free_cons.
    rewrite delete_insert_id; [done|]. apply live_none; [done|]. hunfold. lia.
  - apply fmap_Some in E as (r' & E & ->). rewrite live_put_back, (IH _ _ E).
    destruct (bused b); [|done]. by rewrite delete_insert_ne.
Qed.

Lemma release_some a p bs : Forall blk_ok bs →
  is_Some (release a p bs) ↔ is_Some (live a bs !! p).
Proof.
  intros Hok. revert a; induction Hok as [|b r Hb Hok IH]; intros a; simpl.
  { by rewrite lookup_empty. }
  zdestruct (a + kTagSize =? p).
  - subst. destruct (bused b).
    + rewrite lookup_insert_eq. split; intros _; by eexists.
    + rewrite live_none; [done..|]. hunfold. lia.
  - rewrite fmap_is_Some, IH. destruct (bused b); [|done]. by rewrite lookup_insert_ne.
Qed.
