(* ===== verification/HeapCorrect.v ===== *)
(** * The allocator's code implements the abstract heap

    Runs of [init], [malloc], [free] and [operator new]/[delete] on a memory
    that represents a list of blocks, and what they leave: every operation is
    total, memory-safe (no access outside the arena and the lock), leaves the
    lock clear, and refines [acquire]/[release]. *)

From S2P Require Import Prelude Memory Spinlock Heap HeapInv.

Local Open Scope machine_scope.

(** [16 * k] rounding as [align_up] computes it, short of overflow. *)
Lemma align_up_16 n : 0 ≤ n → n + 15 < 2 ^ 64 → align_up n kAlignment = (n + 15) / 16 * 16.
Proof.
  intros Hn Hlt. unfold align_up, kAlignment. replace (n + 16 - 1) with (n + 15) by lia.
  rewrite u64_small by lia.
  change (u64 (Z.lnot (u64 (16 - 1)))) with (Z.shiftl (Z.ones 60) 4).
  rewrite <- (Z.shiftr_div_pow2 _ 4), <- (Z.shiftl_mul_pow2 _ 4) by lia.
  apply Z.bits_inj'. intros i Hi. rewrite Z.land_spec, !Z.shiftl_spec by lia.
  destruct (decide (i < 4)); [by rewrite !(Z.testbit_neg_r _ (i - 4)), andb_false_r by lia|].
  rewrite Z.shiftr_spec by lia. replace (i - 4 + 4) with i by lia.
  destruct (decide (i < 64)); [by rewrite Z.ones_spec_low, andb_true_r by lia|].
  rewrite Z.ones_spec_high, andb_false_r by lia. symmetry.
  destruct (decide (n + 15 = 0)) as [->|]; [apply Z.bits_0|].
  apply Z.bits_above_log2; [lia|]. apply Z.log2_lt_pow2; [lia|].
  apply Z.lt_le_trans with (2 ^ 64); [done|]. apply Z.pow_le_mono_r; lia.
Qed.

Lemma align_up_wraps size :
  2 ^ 64 - 16 < size < 2 ^ 64 → u64 (align_up size kAlignment + 2 * kTagSize) = 32.
Proof.
  intros Hs. unfold align_up, kAlignment.
  replace (u64 (size + 16 - 1)) with (size + 15 - 2 ^ 64).
  2: { unfold u64. symmetry. rewrite Z.mod_eq by lia.
       replace ((size + 16 - 1) / 2 ^ 64) with 1; [lia|].
       apply Z.div_unique with (size + 15 - 2 ^ 64); lia. }
  assert (0 ≤ size + 15 - 2 ^ 64 < 15) as Hr by lia.
  generalize dependent (size + 15 - 2 ^ 64). intros r Hr.
  assert (forallb (λ r, u64 (Z.land r (u64 (Z.lnot (u64 (16 - 1)))) + 2 * kTagSize) =? 32)
    (seqZ 0 15) = true) as Hall by (vm_compute; reflexivity).
  rewrite forallb_forall in Hall. apply Z.eqb_eq, Hall, list_elem_of_In.
  rewrite elem_of_seqZ. lia.
Qed.

Section HeapCorrect.
Context `{ArenaLayout}.

Ltac arena :=
  pose proof g_arena_fits; pose proof g_lock_outside;
  unfold kArenaSize in *; hunfold; lia.

(** [inside a n]: the [n] bytes at [a] are in the arena, and the two tags at
    their ends are memory. *)
Definition inside (a n : Z) : Prop :=
  (g_arena ≤ a ∧ a + n ≤ g_arena + kArenaSize) ∧
  mapped_range a kTagSize ∧ mapped_range (a + n - kTagSize) kTagSize.

Lemma inside_u64 a n i : inside a n → 0 ≤ i ≤ n → a +₆₄ i = a + i.
Proof. intros [[??] _] ?. apply u64_small. arena. Qed.

Lemma inside_footer a n : inside a n → 16 ≤ n → inside (a + n - kTagSize) 16.
Proof.
  intros (? & _ & Hm) ?. unfold inside. hunfold. split_and!; [lia..|done|].
  by replace (a + n - 16 + 16 - 16) with (a + n - 16) by lia.
Qed.

(** All the memory that the allocator needs for itself is that of the tags and
    of the free blocks: it has no access to a payload in use. *)
Definition reachable (a : Z) (bs : list blk) : Prop :=
  ∀ x, is_tag a bs x ∨ in_free a bs x → mapped x = true.

Lemma reachable_app a l1 l2 :
  reachable a (l1 ++ l2) ↔ reachable a l1 ∧ reachable (a + total l1) l2.
Proof.
  unfold reachable. setoid_rewrite is_tag_app. setoid_rewrite in_free_app. naive_solver.
Qed.

Lemma reachable_tail a b r : reachable a (b :: r) → reachable (a + bsize b) r.
Proof. intros Hr x Hx. apply Hr. simpl. tauto. Qed.

Lemma reachable_inside a b r :
  reachable a (b :: r) → g_arena ≤ a → a + bsize b ≤ g_arena + kArenaSize →
  inside a (bsize b).
Proof.
  intros Hr ??. split_and!; [done..| |]; intros x Hx; apply Hr; left; simpl;
    [by left|right; left; lia].
Qed.

(** Every part of a free block can be made a block of its own. *)
Lemma reachable_part a b r c n :
  reachable a (b :: r) → bused b = false → g_arena ≤ a →
  a + bsize b ≤ g_arena + kArenaSize → 32 ≤ n → a ≤ c → c + n ≤ a + bsize b → inside c n.
Proof.
  intros Hr Hb ?? Hn ??. split_and!; [lia..| |]; intros x Hx; hunfold; apply Hr; right; left;
    (split; [done|lia]).
Qed.

Lemma reachable_tiled m a b r :
  reachable a (b :: r) → g_arena ≤ a → tiled m a (b :: r) (g_arena + kArenaSize) →
  inside a (bsize b).
Proof.
  intros Hr Ha (_ & _ & _ & Ht). apply tiled_le in Ht. eapply reachable_inside; [done..|lia].
Qed.

(** ** Tags in memory *)

Lemma rd_put_tag_out m a b x : x < a ∨ a + 16 ≤ x → rd (put_tag m a b) x = rd m x.
Proof. intros Hx. unfold put_tag. by rewrite !rd_wr64_out by lia. Qed.

Lemma tag_at_ext m m' a b :
  same_on (λ x, a ≤ x < a + 16) m m' → tag_at m a b → tag_at m' a b.
Proof.
  intros Hs [H1 H2]. split.
  - rewrite <- H1. symmetry. apply rd64_ext. eapply same_on_weaken; [done|]. simpl. lia.
  - rewrite <- H2. symmetry. apply rd64_ext. eapply same_on_weaken; [done|]. simpl. lia.
Qed.

Lemma tag_at_put_tag m a b : 0 ≤ bsize b < 2 ^ 64 → tag_at (put_tag m a b) a b.
Proof.
  intros Hb. unfold put_tag. pose proof (b2z_range (bused b)). split.
  - rewrite rd64_wr64_ne by lia. by apply rd64_wr64_eq.
  - apply rd64_wr64_eq. lia.
Qed.

Lemma rd_put_tags_out m a b x :
  ¬ (a ≤ x < a + kTagSize) → ¬ (a + bsize b - kTagSize ≤ x < a + bsize b) →
  rd (put_tags m a b) x = rd m x.
Proof. intros ??. unfold put_tags. hunfold. by rewrite !rd_put_tag_out by lia. Qed.

Lemma rd_put_tags_block m a b x :
  blk_ok b → x < a ∨ a + bsize b ≤ x → rd (put_tags m a b) x = rd m x.
Proof. intros ??. apply rd_put_tags_out; hunfold; lia. Qed.

Lemma put_tags_same_on m a b (P : Z → Prop) :
  blk_ok b → (∀ x, P x → x < a ∨ a + bsize b ≤ x) → same_on P m (put_tags m a b).
Proof. intros Hb HP x Hx. symmetry. apply rd_put_tags_block; [done|by apply HP]. Qed.

Lemma tags_put_tags m a b :
  blk_ok b → bsize b < 2 ^ 64 →
  tag_at (put_tags m a b) a b ∧ tag_at (put_tags m a b) (a + bsize b - kTagSize) b.
Proof.
  intros Hb Hs. unfold put_tags. split; [|apply tag_at_put_tag; hunfold; lia].
  eapply tag_at_ext; [|apply (tag_at_put_tag m a b); hunfold; lia].
  intros x Hx. symmetry. apply rd_put_tag_out. hunfold. lia.
Qed.

Lemma get_block_size_run m a b n :
  inside a n → 16 ≤ n → tag_at m a b → get_block_size a m = Some (bsize b, m).
Proof.
  intros (_ & Hm & _) Hn [E _]. unfold get_block_size. rewrite load64_run, E; [done|].
  eapply mapped_range_sub; [exact Hm|hunfold; lia..].
Qed.

Lemma get_in_use_run m a b n :
  inside a n → 16 ≤ n → tag_at m a b → get_in_use a m = Some (b2z (bused b), m).
Proof.
  intros Hi Hn [_ E]. unfold get_in_use.
  rewrite (inside_u64 _ n) by (done || lia). rewrite load64_run, E; [done|].
  destruct Hi as (_ & Hm & _). eapply mapped_range_sub; [exact Hm|hunfold; lia..].
Qed.

Lemma set_block_size_run m a n v :
  inside a n → 16 ≤ n → set_block_size a v m = Some (tt, wr64 m a v).
Proof.
  intros (_ & Hm & _) Hn. apply store64_run. eapply mapped_range_sub; [exact Hm|hunfold; lia..].
Qed.

Lemma set_in_use_run m a n v :
  inside a n → 16 ≤ n → set_in_use a v m = Some (tt, wr64 m (a + 8) v).
Proof.
  intros Hi Hn. unfold set_in_use. rewrite (inside_u64 _ n) by (done || lia).
  apply store64_run. destruct Hi as (_ & Hm & _).
  eapply mapped_range_sub; [exact Hm|hunfold; lia..].
Qed.

Lemma footer_of_run m a b :
  inside a (bsize b) → blk_ok b → tag_at m a b →
  footer_of a m = Some (a + bsize b - kTagSize, m).
Proof.
  intros Hi Hb Ht. unfold footer_of.
  mstep get_block_size_run; [|done|hunfold; lia|done].
  rewrite u64_small by (destruct Hi as [[] _]; arena). done.
Qed.

Lemma write_tags_run m a b :
  inside a (bsize b) → blk_ok b → write_tags a (bsize b) (bused b) m = Some (tt, put_tags m a b).
Proof.
  intros Hi Hb. assert (bsize b < 2 ^ 64) by (destruct Hi as [[] _]; arena).
  assert (16 ≤ bsize b) by (hunfold; lia).
  pose proof (inside_footer _ _ Hi ltac:(done)).
  unfold write_tags. mstep set_block_size_run; [|done..]. mstep set_in_use_run; [|done..].
  change (wr64 (wr64 m a (bsize b)) (a + 8) (b2z (bused b))) with (put_tag m a b).
  mstep footer_of_run; [|done..|apply tag_at_put_tag; lia].
  mstep set_block_size_run; [|done..]. by erewrite set_in_use_run.
Qed.

(** The code's [next_block]/[prev_block] on a tiled arena. *)
Definition block_ptr (a : Z) (bs : list blk) : Z :=
  match bs with [] => 0 | _ => a end.

Lemma next_block_at m a b :
  inside a (bsize b) → blk_ok b → tag_at m a b →
  next_block a m =
    Some (if a + bsize b <? g_arena + kArenaSize then a + bsize b else 0, m).
Proof.
  intros Hi Hb Ht. unfold next_block.
  mstep get_block_size_run; [|done|hunfold; lia|done].
  unfold arena_end. by rewrite !u64_small by (destruct Hi as [[] _]; arena).
Qed.

Lemma next_block_run m a b r :
  reachable a (b :: r) → g_arena ≤ a → tiled m a (b :: r) (g_arena + kArenaSize) →
  next_block a m = Some (block_ptr (a + bsize b) r, m).
Proof.
  intros Hr Ha Ht. pose proof (reachable_tiled _ _ _ _ Hr Ha Ht).
  destruct Ht as (Hb & Htag & _ & Ht). pose proof (tiled_le _ _ _ _ Ht).
  rewrite (next_block_at _ _ b) by done. do 2 f_equal.
  destruct r as [|c r]; simpl in *.
  - by rewrite (proj2 (Z.ltb_ge _ _)) by lia.
  - by rewrite (proj2 (Z.ltb_lt _ _)) by lia.
Qed.

Lemma prev_block_first m : prev_block g_arena m = Some (0, m).
Proof. unfold prev_block. by rewrite Z.eqb_refl. Qed.

Lemma prev_block_run m a q :
  inside a (bsize q) → blk_ok q →
  tag_at m (a + bsize q - kTagSize) q → prev_block (a + bsize q) m = Some (a, m).
Proof.
  intros Hi Hq Ht. pose proof Hi as [[??] _]. unfold prev_block. rewrite (proj2 (Z.eqb_neq _ _)) by arena.
  rewrite u64_small by arena.
  mstep (get_block_size_run m (a + bsize q - kTagSize) q 16);
    [|apply inside_footer; [done|hunfold; lia]|done|done].
  unfold mret, ST_ret. rewrite u64_small by arena. do 2 f_equal. lia.
Qed.

Lemma tiled_put_tags m a b r e :
  blk_ok b → bsize b < 2 ^ 64 → tiled m (a + bsize b) r e →
  tiled (put_tags m a b) a (b :: r) e.
Proof.
  intros Hb Hs Ht. destruct (tags_put_tags m a b) as [H1 H2]; [done..|].
  split_and!; [done..|]. eapply tiled_same_on; [done|].
  apply put_tags_same_on; [done|]. simpl. lia.
Qed.

(** ** init *)

Lemma init_run_inside m :
  inside g_arena kArenaSize → init m = Some (tt, put_tags m g_arena (Blk kArenaSize false)).
Proof. intros Hi. by apply (write_tags_run m g_arena (Blk kArenaSize false)). Qed.

Lemma init_rep_inside m m' :
  inside g_arena kArenaSize → rd m g_lock = 0 → init m = Some (tt, m') → heap_rep m' [Blk kArenaSize false].
Proof.
  intros Hi Hl. rewrite init_run_inside by done. intros ?. simplify_eq. split_and!.
  - apply tiled_put_tags; done.
  - done.
  - rewrite rd_put_tags_block; [done|done|simpl; apply g_lock_outside].
Qed.

(** ** malloc *)

Lemma skip_block_run m a b needed :
  inside a (bsize b) → blk_ok b → tag_at m a b →
  skip_block a needed m = Some (bused b || (bsize b <? needed), m).
Proof.
  intros Hi Hb Ht. assert (16 ≤ bsize b) by (hunfold; lia).
  unfold skip_block. mstep get_in_use_run; [|done..].
  destruct (bused b); simpl; [done|]. by mstep get_block_size_run.
Qed.

(** Two neighbours written front to back. *)
Lemma tiled_put_tags_2 m a b c r e :
  blk_ok b → blk_ok c → bsize b < 2 ^ 64 → bsize c < 2 ^ 64 →
  tiled m (a + bsize b + bsize c) r e →
  tiled (put_tags (put_tags m a b) (a + bsize b) c) a (b :: c :: r) e.
Proof.
  intros Hb Hc Hsb Hsc Ht. destruct (tags_put_tags m a b) as [H1 H2]; [done..|].
  assert (∀ t, a ≤ t → t + 16 ≤ a + bsize b → tag_at (put_tags m a b) t b →
    tag_at (put_tags (put_tags m a b) (a + bsize b) c) t b) as Hkeep.
  { intros t ??. apply tag_at_ext, put_tags_same_on; [done|]. lia. }
  split_and!; [done|apply Hkeep; hunfold; (done || lia)|apply Hkeep; hunfold; (done || lia)|].
  apply tiled_put_tags; [done..|]. eapply tiled_same_on; [done|].
  apply put_tags_same_on; [done|]. simpl. hunfold. lia.
Qed.

Lemma set_lock_same_on m v (P : Z → Prop) :
  (∀ x, P x → x ≠ g_lock) → same_on P m (<[g_lock := v]> m).
Proof. intros HP x Hx. rewrite rd_insert, decide_False; [done|]. by apply not_eq_sym, HP. Qed.

Lemma tiled_set_lock m v a bs :
  g_arena ≤ a → tiled m a bs (g_arena + kArenaSize) →
  tiled (<[g_lock := v]> m) a bs (g_arena + kArenaSize).
Proof.
  intros Ha Ht. eapply tiled_same_on; [done|]. apply set_lock_same_on. arena.
Qed.

Lemma rd_lock m v : rd (<[g_lock := v]> m) g_lock = u8 v.
Proof. rewrite rd_insert. by rewrite decide_True. Qed.

Lemma unlock_run m : spin_unlock g_lock m = Some (tt, <[g_lock := 0]> m).
Proof. apply spin_unlock_run, g_lock_mapped. Qed.

(** [take_block] up to its unlock, on a block that fits. *)
Lemma carve_run m a b r needed :
  reachable a (b :: r) → bused b = false → g_arena ≤ a → tiled m a (b :: r) (g_arena + kArenaSize) →
  32 ≤ needed ≤ bsize b → needed mod 16 = 0 →
  ∃ m', tiled m' a (carve b needed ++ r) (g_arena + kArenaSize) ∧
    same_on (λ x, ¬ (a ≤ x < a + bsize b)) m m' ∧
    take_block a needed m = Some (a + kTagSize, <[g_lock := 0]> m').
Proof.
  intros Hr Hfree Ha Ht Hn Hm. pose proof (reachable_tiled _ _ _ _ Hr Ha Ht) as Hi. simpl in *.
  destruct Ht as (Hb & Htag & _ & Ht). pose proof (tiled_le _ _ _ _ Ht).
  pose proof (reachable_part a b r) as Hpart.
  assert (bsize b < 2 ^ 64) by arena.
  assert (payload_of a = a + kTagSize) as Hp
    by (apply (inside_u64 _ (bsize b)); [done|hunfold; lia]).
  unfold take_block. mstep get_block_size_run; [|done|lia|done].
  rewrite u64_small by lia. unfold carve.
  zdestruct (kMinBlockSize <=? bsize b - needed).
  - set (b1 := Blk needed true). set (b2 := Blk (bsize b - needed) false).
    assert (blk_ok b1 ∧ blk_ok b2) as [Hb1 Hb2]
      by (subst b1 b2; hunfold; simpl; split_and!; (lia || dlia)).
    exists (put_tags (put_tags m a b1) (a + needed) b2). split_and!.
    + apply (tiled_put_tags_2 m a b1 b2); [done..|simpl; lia|simpl; lia|].
      simpl. by replace (a + needed + (bsize b - needed)) with (a + bsize b) by lia.
    + intros x Hx. symmetry. rewrite !rd_put_tags_block; [done..|simpl; lia|done|simpl; lia].
    + rewrite bind_assoc_run. mstep (write_tags_run m a b1); [|apply Hpart; simpl; (done || lia)|done].
      rewrite bind_assoc_run.
      mstep (next_block_at (put_tags m a b1) a b1); [|apply Hpart; simpl; (done || lia)|done|].
      2: { apply tags_put_tags; [done|simpl; lia]. }
      simpl. rewrite (proj2 (Z.ltb_lt _ _)) by (hunfold; lia).
      mstep (write_tags_run (put_tags m a b1) (a + needed) b2);
        [|apply Hpart; hunfold; simpl; (done || lia)|done].
      mstep unlock_run. by rewrite Hp.
  - set (b1 := Blk (bsize b) true). exists (put_tags m a b1). split_and!.
    + by apply (tiled_put_tags m a b1).
    + apply put_tags_same_on; [done|]. simpl. lia.
    + rewrite bind_assoc_run. mstep get_block_size_run; [|done|lia|done].
      mstep (write_tags_run m a b1); [|done..]. mstep unlock_run. by rewrite Hp.
Qed.

Lemma take_block_run m a b r needed :
  reachable a (b :: r) → bused b = false → g_arena ≤ a → tiled m a (b :: r) (g_arena + kArenaSize) →
  32 ≤ needed ≤ bsize b → needed mod 16 = 0 →
  ∃ m', take_block a needed m = Some (a + kTagSize, m') ∧
    tiled m' a (carve b needed ++ r) (g_arena + kArenaSize) ∧
    rd m' g_lock = 0 ∧
    same_on (λ x, x ≠ g_lock ∧ ¬ (a ≤ x < a + bsize b)) m m'.
Proof.
  intros Hr Hfree Ha Ht Hn Hm. destruct (carve_run m a b r needed) as (m' & H1 & H2 & H3); [done..|].
  exists (<[g_lock := 0]> m'). split_and!; [done|by apply tiled_set_lock|by rewrite rd_lock|].
  transitivity m'; [|by apply set_lock_same_on; intros ? []].
  eapply same_on_weaken; [done|]. by intros x [_ ?].
Qed.

(** The search loop from the block at [a] on. *)
Lemma malloc_loop_run k m a needed bs :
  reachable a bs → g_arena ≤ a → tiled m a bs (g_arena + kArenaSize) → (length bs < k)%nat →
  32 ≤ needed → needed mod 16 = 0 →
  match acquire a needed bs with
  | Some (p, bs') =>
      ∃ m', malloc_loop k (block_ptr a bs) needed m = Some (p, m') ∧
        tiled m' a bs' (g_arena + kArenaSize) ∧ rd m' g_lock = 0 ∧
        same_on (λ x, x ≠ g_lock ∧ ¬ in_free a bs x) m m'
  | None => malloc_loop k (block_ptr a bs) needed m = Some (0, <[g_lock := 0]> m)
  end.
Proof.
  intros Hr Ha Ht Hk Hn Hm. revert a k Hr Ha Ht Hk.
  induction bs as [|b r IH]; intros a [|k] Hr Ha Ht Hk; simpl in Hk; [lia| |lia|].
  { cbn [acquire block_ptr malloc_loop]. rewrite Z.eqb_refl. by mstep unlock_run. }
  pose proof (reachable_tiled _ _ _ _ Hr Ha Ht) as Hi.
  pose proof Ht as (Hb & Htag & Hfoot & Ht').
  pose proof (tiled_le _ _ _ _ Ht'). pose proof g_arena_fits.
  cbn [acquire block_ptr malloc_loop]. rewrite (proj2 (Z.eqb_neq a 0)) by lia.
  mstep (skip_block_run m a b needed); [|done..].
  zdestruct (bused b || (bsize b <? needed)).
  - mstep next_block_run; [|done..]. apply reachable_tail in Hr.
    specialize (IH (a + bsize b) k). destruct (acquire (a + bsize b) needed r) as [[p r']|].
    + destruct IH as (m' & E' & Ht2 & Hl & Hs); [done|hunfold; lia|done|lia|].
      exists m'. split; [exact E'|]. split; [|split; [done|]].
      2: { eapply same_on_weaken; [done|]. simpl. tauto. }
      assert (∀ t, a ≤ t → t + 16 ≤ a + bsize b → same_on (λ x, t ≤ x < t + 16) m m') as Hk'.
      { intros t ??. eapply same_on_weaken; [exact Hs|]. intros x Hx. split; [arena|].
        intros Hf. apply in_free_bounds in Hf; [lia|by eapply tiled_ok]. }
      split_and!; [done|..|done];
        (eapply tag_at_ext; [apply Hk'|done]; hunfold; lia).
    + apply IH; [done|hunfold; lia|done|lia].
  - destruct (take_block_run m a b r needed) as (m' & E' & Ht2 & Hl & Hs); [done..|].
    exists m'. split; [done|]. split; [done|]. split; [done|].
    eapply same_on_weaken; [exact Hs|]. simpl. intros x [? Hx]. split; [done|]. intros ?. apply Hx. left. by split.
Qed.
Lemma lock_run m : rd m g_lock = 0 → spin_lock g_lock m = Some (tt, <[g_lock := 1]> m).
Proof. apply spin_lock_run, g_lock_mapped. Qed.

Lemma block_bytes_ok size :
  0 < size ≤ 2 ^ 64 - 48 →
  align_up size kAlignment +₆₄ 2 * kTagSize = block_bytes size ∧
  32 ≤ block_bytes size ∧ block_bytes size mod 16 = 0 ∧
  size ≤ block_bytes size - 2 * kTagSize.
Proof.
  intros Hs. rewrite align_up_16 by lia. unfold block_bytes. hunfold.
  rewrite u64_small by dlia. split_and!; dlia.
Qed.

Lemma heap_rep_ok m bs : heap_rep m bs → Forall blk_ok bs.
Proof. intros (Ht & _). by eapply tiled_ok. Qed.

Lemma heap_rep_total m bs : heap_rep m bs → total bs = kArenaSize.
Proof. intros (Ht & _). apply tiled_end in Ht. lia. Qed.

(** [malloc] of a request whose block needs [needed] bytes, as computed. *)
Lemma malloc_run_reachable m bs size needed :
  reachable g_arena bs → heap_rep m bs → size ≠ 0 → align_up size kAlignment +₆₄ 2 * kTagSize = needed →
  32 ≤ needed → needed mod 16 = 0 →
  match acquire g_arena needed bs with
  | Some (p, bs') =>
      ∃ m', malloc size m = Some (p, m') ∧ heap_rep m' bs' ∧
        same_on (λ x, ¬ in_free g_arena bs x) m m'
  | None =>
      ∃ m', malloc size m = Some (0, m') ∧ heap_rep m' bs ∧ same_on (λ _, True) m m'
  end.
Proof.
  intros Hr Hrep Hs En H32 Hm16. pose proof (heap_rep_ok _ _ Hrep) as Hok.
  pose proof (heap_rep_total _ _ Hrep) as Htot. destruct Hrep as (Ht & Hc & Hl).
  assert (block_ptr g_arena bs = arena_begin) as Hbp.
  { destruct bs; [|done]. by compute in Htot. }
  assert (length bs < malloc_fuel)%nat as Hfuel.
  { apply malloc_fuel_enough. pose proof (total_nonneg _ Hok). hunfold. lia. }
  pose proof (malloc_loop_run malloc_fuel (<[g_lock := 1]> m) g_arena
    needed bs) as Hloop.
  unfold malloc. rewrite (proj2 (Z.eqb_neq _ _)) by done. rewrite En.
  rewrite (bind_run _ _ _ _ _ (lock_run m Hl)). rewrite Hbp in Hloop.
  destruct (acquire g_arena needed bs) as [[p bs']|] eqn:Ea.
  - destruct Hloop as (m' & E & Ht' & Hl' & Hs'); [done|lia|by apply tiled_set_lock|done..|].
    exists m'. split; [done|]. split; [split_and!; [done|by eapply acquire_coalesced|done]|].
    intros x Hx. destruct (decide (x = g_lock)) as [->|Hne]; [by rewrite Hl, Hl'|].
    rewrite <- Hs' by done. by apply (set_lock_same_on _ _ (λ x, x ≠ g_lock)).
  - rewrite Hloop by (done || by apply tiled_set_lock). eexists. split; [done|].
    rewrite insert_insert_eq. split; [split_and!|].
    + by apply tiled_set_lock.
    + done.
    + by rewrite rd_lock.
    + intros x _. rewrite rd_insert. case_decide; [by subst|done].
Qed.

(** ** free *)

Lemma merge_next_run m h b post :
  reachable h (b :: post) → g_arena ≤ h → tiled m h (b :: post) (g_arena + kArenaSize) →
  ∃ s1 post1, free_cons (bsize b) post = Blk s1 false :: post1 ∧
    merge_next h (bsize b) m = Some (s1, m) ∧ blk_ok (Blk s1 false) ∧
    tiled m (h + s1) post1 (g_arena + kArenaSize) ∧
    (∀ x, h + s1 - kTagSize ≤ x < h + s1 → is_tag h (b :: post) x).
Proof.
  intros Hr Hh Ht. pose proof Ht as (Hb & _ & _ & Ht').
  unfold merge_next. rewrite (bind_run _ _ _ _ _ (next_block_run m h b post Hr Hh Ht)).
  destruct post as [|[s2 u2] post]; simpl.
  { exists (bsize b), []. split_and!; try done. simpl. hunfold. intros; lia. }
  pose proof (blk_ok_pos b Hb).
  pose proof (reachable_tiled _ _ _ _ (reachable_tail _ _ _ Hr) ltac:(lia) Ht').
  pose proof (tiled_le _ _ _ _ Ht') as Hle. simpl in Ht', Hle.
  pose proof Ht' as (Hb2 & Htag & _ & Ht''). pose proof (tiled_le _ _ _ _ Ht'').
  pose proof g_arena_fits. simpl in *.
  rewrite (proj2 (Z.eqb_neq _ _)) by (hunfold; lia).
  mstep get_in_use_run; [|done|hunfold; simpl in *; lia|done].
  destruct u2; simpl.
  - exists (bsize b), (Blk s2 true :: post). do 3 (split; [done|]). split; [done|].
    simpl. hunfold. intros. right. left. lia.
  - mstep (get_block_size_run m (h + bsize b) (Blk s2 false) s2); [|done|hunfold; simpl in *; lia|done].
    exists (bsize b + s2), post. rewrite u64_small by (hunfold; simpl in *; arena).
    split; [done|]. split; [done|]. split; [hunfold; simpl in *; split; [lia|dlia]|].
    split; [by rewrite Z.add_assoc|].
    hunfold. simpl in *. intros. do 3 right. left. lia.
Qed.

(** Blocks put back before a list that is already coalesced stay as they are. *)
Lemma foldr_put_back_id pre r :
  coalesced (pre ++ r) → foldr put_back r pre = pre ++ r.
Proof.
  induction pre as [|b pre IH]; simpl; [done|]. intros [Hb Hc].
  rewrite IH by done. by apply put_back_id.
Qed.

(** Replacing the tail from a block with the same flag on. *)
Lemma coalesced_swap pre q q' r r' :
  coalesced (pre ++ q :: r) → bused q = bused q' → coalesced (q' :: r') →
  coalesced (pre ++ q' :: r').
Proof.
  intros Hc Hq Hr. induction pre as [|c pre IH]; [done|].
  simpl in Hc |- *. destruct Hc as [Hb Hc]. split; [|by apply IH].
  destruct pre; simpl in *; [by rewrite <- Hq|done].
Qed.

Lemma merge_prev_run m pre b post s1 post1 :
  let h := g_arena + total pre in
  reachable g_arena (pre ++ b :: post) →
  tiled m g_arena (pre ++ b :: post) (g_arena + kArenaSize) →
  coalesced (pre ++ b :: post) → coalesced (Blk s1 false :: post1) →
  blk_ok (Blk s1 false) → h + s1 ≤ g_arena + kArenaSize →
  ∃ pre0 s2, foldr put_back (Blk s1 false :: post1) pre = pre0 ++ Blk s2 false :: post1 ∧
    merge_prev h s1 m = Some ((g_arena + total pre0, s2), m) ∧
    g_arena + total pre0 + s2 = h + s1 ∧
    tiled m g_arena pre0 (g_arena + total pre0) ∧ blk_ok (Blk s2 false) ∧
    (∀ x, g_arena + total pre0 ≤ x < g_arena + total pre0 + kTagSize →
      is_tag g_arena (pre ++ b :: post) x).
Proof.
  intros h Hr Ht Hc Hc1 Hs1 Hend. apply tiled_app in Ht as [Hpre Hb]. subst h.
  apply reachable_app in Hr as [Hr _].
  unfold merge_prev. destruct pre as [|q pre _] using rev_ind.
  { exists [], s1. simpl in *. rewrite Z.add_0_r in *.
    rewrite (bind_run _ _ _ _ _ (prev_block_first m)). split_and!; try done.
    intros x Hx. by left. }
  pose proof (tiled_ok _ _ _ _ Hpre) as Hok. apply Forall_app in Hok as [Hok _].
  pose proof (total_nonneg _ Hok). pose proof g_arena_fits.
  apply tiled_app in Hpre as [Hp1 Hp2]. rewrite total_app in *. simpl in *.
  destruct Hp2 as (Hq & Hqh & Hqf & _). apply reachable_app in Hr as [_ Hr].
  apply reachable_inside in Hr; [|lia|hunfold; simpl in *; lia].
  replace (g_arena + (total pre + (bsize q + 0))) with (g_arena + total pre + bsize q) in * by lia.
  mstep prev_block_run; [|done..|exact Hqf].
  rewrite (proj2 (Z.eqb_neq _ _)) by lia.
  mstep (get_in_use_run m (g_arena + total pre) q (bsize q)); [|done|hunfold; lia|done].
  rewrite foldr_app. simpl. rewrite <- (assoc_L (++)) in Hc |- *. simpl in Hc |- *.
  destruct q as [sq []]; simpl in *.
  - exists (pre ++ [Blk sq true]), s1. rewrite total_app. simpl.
    replace (g_arena + (total pre + (sq + 0))) with (g_arena + total pre + sq) by lia.
    split_and!; try done.
    + rewrite foldr_put_back_id; [by rewrite <- (assoc_L (++))|].
      eapply (coalesced_swap _ (Blk sq true)); [exact Hc|done|]. by split.
    + apply tiled_app. simpl. split; [done|]. split_and!; (done || apply Hq || (try apply Hqf)); lia.
    + intros x Hx. rewrite is_tag_app. right. simpl. right. right. left. done.
  - mstep (get_block_size_run m (g_arena + total pre) (Blk sq false) sq);
      [|done|hunfold; simpl in *; lia|done].
    exists pre, (sq + s1). simpl. rewrite u64_small by (hunfold; simpl in *; arena).
    split_and!; try done; try (hunfold; simpl in *; (lia || dlia)).
    + apply foldr_put_back_id. eapply (coalesced_swap _ (Blk sq false)); [exact Hc|done|].
      split; [|apply Hc1]. apply Hc1.
    + unfold mret, ST_ret. do 3 f_equal. lia.
    + intros x Hx. rewrite is_tag_app. right. simpl. by left.
Qed.

(** [free] accesses the tags alone. *)
Lemma free_run_reachable m bs p n :
  reachable g_arena bs → heap_rep m bs → live g_arena bs !! p = Some n →
  ∃ m' bs', free p m = Some (tt, m') ∧ release g_arena p bs = Some bs' ∧
    heap_rep m' bs' ∧ same_on (λ x, ¬ is_tag g_arena bs x) m m'.
Proof.
  intros Hr Hrep Hp. pose proof (heap_rep_ok _ _ Hrep) as Hok. destruct Hrep as (Ht & Hc & Hl).
  pose proof (live_bounds _ _ _ _ Hok Hp). pose proof (tiled_end _ _ _ _ Ht).
  apply live_split in Hp as (pre & b & post & -> & Hu & -> & ->).
  set (h := g_arena + total pre) in *. pose proof g_arena_fits.
  apply Forall_app in Hok as [Hpre _]. pose proof (total_nonneg _ Hpre).
  set (m1 := <[g_lock := 1]> m).
  assert (tiled m1 g_arena (pre ++ b :: post) (g_arena + kArenaSize)) as Ht1
    by (by apply tiled_set_lock).
  pose proof (proj1 (tiled_app _ _ _ _ _) Ht1) as [_ Htb].
  pose proof (proj1 (reachable_app _ _ _) Hr) as [_ Hrb]. fold h in Hrb.
  destruct (merge_next_run m1 h b post) as (s1 & post1 & Ef & Em & Hs1 & Htp & Htag1);
    [done|lia|done|].
  pose proof (tiled_le _ _ _ _ Htp).
  destruct (merge_prev_run m1 pre b post s1 post1) as
    (pre0 & s2 & Efold & Emp & Elo & Htpre & Hs2 & Htag2); [done..| |done|lia|].
  { rewrite <- Ef. apply coalesced_free_cons. clear -Hc.
    induction pre as [|c pre IH]; simpl in Hc; [apply Hc|apply IH, Hc]. }
  set (lo := g_arena + total pre0) in *.
  pose proof (tiled_le _ _ _ _ Htpre). simpl in Htb. pose proof Htb as (Hb & Hbh & _).
  exists (<[g_lock := 0]> (put_tags m1 lo (Blk s2 false))), (pre0 ++ Blk s2 false :: post1).
  assert (release g_arena (h + kTagSize) (pre ++ b :: post) =
    Some (pre0 ++ Blk s2 false :: post1)) as Erel.
  { unfold h. rewrite release_split by done. by rewrite Ef, Efold. }
  split; [|split; [done|split; [split_and!|]]].
  - unfold free. rewrite (proj2 (Z.eqb_neq _ _)) by (hunfold; lia).
    rewrite (bind_run _ _ _ _ _ (lock_run m Hl)). unfold header_of.
    replace (h + kTagSize - kTagSize) with h by lia. rewrite u64_small by arena.
    mstep (get_block_size_run m1 h b (bsize b)); [|by eapply reachable_tiled; [|lia|]|hunfold; lia|done].
    rewrite (bind_run _ _ _ _ _ Em), (bind_run _ _ _ _ _ Emp). cbn beta iota.
    mstep (write_tags_run m1 lo (Blk s2 false)); [| |done]; [apply unlock_run|].
    split_and!; [simpl; lia..| |]; intros x Hx; apply Hr; left; [by apply Htag2|].
    simpl in Hx. rewrite Elo in Hx. rewrite is_tag_app. right. apply Htag1. hunfold. lia.
  - apply tiled_set_lock; [lia|]. apply tiled_app. split.
    + eapply tiled_same_on; [done|]. apply put_tags_same_on; [done|]. simpl. fold lo. lia.
    + apply tiled_put_tags; [done|simpl; arena|]. simpl. fold lo. by rewrite Elo.
  - by eapply release_coalesced.
  - by rewrite rd_lock.
  - intros x Hx. rewrite rd_insert. case_decide as Hx'; [subst; by rewrite Hl|].
    rewrite rd_put_tags_out; simpl.
    + unfold m1. by rewrite rd_insert, decide_False.
    + intros ?. by apply Hx, Htag2.
    + rewrite Elo. intros ?. apply Hx. rewrite is_tag_app. right. by apply Htag1.
Qed.
End HeapCorrect.

(** ** The same runs when the whole arena is memory *)

Section HeapRuns.
Context `{HeapLayout}.

Lemma reachable_all m bs : tiled m g_arena bs (g_arena + kArenaSize) → reachable g_arena bs.
Proof.
  intros Ht x Hx. pose proof (tiled_end _ _ _ _ Ht). apply tiled_ok in Ht.
  apply g_arena_mapped. destruct Hx as [Hx|Hx];
    [apply is_tag_bounds in Hx|apply in_free_bounds in Hx]; (done || lia).
Qed.

Lemma arena_inside : inside g_arena kArenaSize.
Proof.
  split_and!; [done..| |]; (eapply mapped_range_sub; [apply g_arena_mapped|hunfold; unfold kArenaSize; lia..]).
Qed.

Lemma init_run m : init m = Some (tt, put_tags m g_arena (Blk kArenaSize false)).
Proof. apply init_run_inside, arena_inside. Qed.

Lemma init_rep m m' :
  rd m g_lock = 0 → init m = Some (tt, m') → heap_rep m' [Blk kArenaSize false].
Proof. apply init_rep_inside, arena_inside. Qed.

Lemma malloc_run_needed m bs size needed :
  heap_rep m bs → size ≠ 0 → align_up size kAlignment +₆₄ 2 * kTagSize = needed →
  32 ≤ needed → needed mod 16 = 0 →
  match acquire g_arena needed bs with
  | Some (p, bs') =>
      ∃ m', malloc size m = Some (p, m') ∧ heap_rep m' bs' ∧
        same_on (λ x, ¬ in_free g_arena bs x) m m'
  | None =>
      ∃ m', malloc size m = Some (0, m') ∧ heap_rep m' bs ∧ same_on (λ _, True) m m'
  end.
Proof. intros Hrep. apply malloc_run_reachable; [|done]. eapply reachable_all, Hrep. Qed.

Lemma malloc_run m bs size :
  heap_rep m bs → 0 < size ≤ 2 ^ 64 - 48 →
  match acquire g_arena (block_bytes size) bs with
  | Some (p, bs') =>
      ∃ m', malloc size m = Some (p, m') ∧ heap_rep m' bs' ∧
        same_on (λ x, ¬ in_free g_arena bs x) m m'
  | None =>
      ∃ m', malloc size m = Some (0, m') ∧ heap_rep m' bs ∧ same_on (λ _, True) m m'
  end.
Proof.
  intros Hrep Hs. destruct (block_bytes_ok size Hs) as (En & H32 & Hm16 & _).
  apply malloc_run_needed; (done || lia).
Qed.

Lemma free_run m bs p n :
  heap_rep m bs → live g_arena bs !! p = Some n →
  ∃ m' bs', free p m = Some (tt, m') ∧ release g_arena p bs = Some bs' ∧
    heap_rep m' bs' ∧ same_on (λ x, ¬ is_tag g_arena bs x) m m'.
Proof. intros Hrep. apply free_run_reachable; [|done]. eapply reachable_all, Hrep. Qed.
End HeapRuns.
