(* ===== verification/HeapProps.v ===== *)
(** * Properties of the heap

    What [malloc], [free] and the global [operator new]/[delete] promise their
    callers, derived from the refinement of [HeapCorrect]; the behaviour of any
    sequence of client operations; and the one region of request sizes where
    the code's [size_t] arithmetic wraps around. *)

From stdpp Require Import relations.
From S2P Require Import Prelude Memory Spinlock Heap HeapInv HeapCorrect.

Lemma live_disjoint a bs p n q k :
  Forall blk_ok bs → live a bs !! p = Some n → live a bs !! q = Some k → p ≠ q →
  p + n ≤ q ∨ q + k ≤ p.
Proof.
  intros Hok. revert a; induction Hok as [|b r Hb Hok IH]; intros a Hp Hq Hne; [done|].
  simpl in *. destruct (bused b); [|by eapply IH].
  rewrite lookup_insert in Hp, Hq.
  destruct (decide (a + kTagSize = p)), (decide (a + kTagSize = q)); [congruence|..].
  - apply live_bounds in Hq; [|done]. simplify_eq. hunfold. lia.
  - apply live_bounds in Hp; [|done]. simplify_eq. hunfold. lia.
  - by eapply IH.
Qed.

(** ** Clients

    What well-behaved clients do between [heap::init()] and the end: [held] are
    the pointers the client holds, with the sizes it asked for, and [wrote] is
    what it last stored at the addresses inside them. *)

Record client := Client { memory : mem; held : gmap Z Z; wrote : gmap Z Z }.

Inductive client_step `{HeapLayout} : client → client → Prop :=
| client_malloc m L W size p m' :
    0 < size ≤ 2 ^ 64 - 48 → malloc size m = Some (p, m') → p ≠ 0 →
    client_step (Client m L W) (Client m' (<[p := size]> L) W)
| client_malloc_null m L W size m' :
    0 < size ≤ 2 ^ 64 - 48 → malloc size m = Some (0, m') →
    client_step (Client m L W) (Client m' L W)
| client_free m L W p n m' :
    L !! p = Some n → free p m = Some (tt, m') →
    client_step (Client m L W)
      (Client m' (delete p L) (filter (λ e, ¬ (p ≤ e.1 < p + n)) W))
| client_write m L W p n a v m' :
    L !! p = Some n → p ≤ a < p + n → store8 a v m = Some (tt, m') →
    client_step (Client m L W) (Client m' L (<[a := u8 v]> W)).

Section HeapProps.
Context `{HeapLayout}.

(** The bytes the allocator manages: its arena and its lock. *)
Definition heap_owned (x : Z) : Prop :=
  g_arena ≤ x < g_arena + kArenaSize ∨ x = g_lock.

Lemma in_free_arena m bs x :
  heap_rep m bs → in_free g_arena bs x → g_arena ≤ x < g_arena + kArenaSize.
Proof.
  intros Hrep Hx. rewrite <- (heap_rep_total _ _ Hrep).
  apply in_free_bounds; [by eapply heap_rep_ok|done].
Qed.

Lemma is_tag_arena m bs x :
  heap_rep m bs → is_tag g_arena bs x → g_arena ≤ x < g_arena + kArenaSize.
Proof.
  intros Hrep Hx. rewrite <- (heap_rep_total _ _ Hrep).
  apply is_tag_bounds; [by eapply heap_rep_ok|done].
Qed.

(** Client writes to payloads in use, or outside the heap, keep its state. *)
Lemma heap_rep_frame m m' bs :
  heap_rep m bs →
  same_on (λ x, heap_owned x ∧ ¬ in_live (live g_arena bs) x) m m' → heap_rep m' bs.
Proof.
  intros Hrep Hs. pose proof (heap_rep_ok _ _ Hrep) as Hok.
  pose proof (heap_rep_total _ _ Hrep) as Htot. pose proof Hrep as (Ht & Hc & Hl).
  split_and!; [|done|].
  - eapply tiled_frame; [done|]. eapply same_on_weaken; [exact Hs|]. intros x Hx. split.
    + left. by eapply is_tag_arena.
    + intros Hlive. by eapply live_not_tag.
  - rewrite <- Hl. symmetry. apply Hs. split; [by right|].
    intros (p & n & Hp & Hx). apply live_bounds in Hp; [|done].
    pose proof g_lock_outside. hunfold. lia.
Qed.

Lemma malloc_frame m m' bs :
  heap_rep m bs → same_on (λ x, ¬ in_free g_arena bs x) m m' →
  same_on (λ x, in_live (live g_arena bs) x ∨ ¬ heap_owned x) m m'.
Proof.
  intros Hrep Hs. eapply same_on_weaken; [exact Hs|]. intros x [Hx|Hx] Hf.
  - eapply live_not_free; [by eapply heap_rep_ok|done..].
  - apply Hx. left. by eapply in_free_arena.
Qed.

Lemma free_frame m m' bs :
  heap_rep m bs → same_on (λ x, ¬ is_tag g_arena bs x) m m' →
  same_on (λ x, in_live (live g_arena bs) x ∨ ¬ heap_owned x) m m'.
Proof.
  intros Hrep Hs. eapply same_on_weaken; [exact Hs|]. intros x [Hx|Hx] Hf.
  - eapply live_not_tag; [by eapply heap_rep_ok|done..].
  - apply Hx. left. by eapply is_tag_arena.
Qed.

(** What holds between client steps. *)
Definition client_inv (s : client) : Prop :=
  ∃ bs, heap_rep (memory s) bs ∧
    (∀ p n, held s !! p = Some n → ∃ cap, n ≤ cap ∧ live g_arena bs !! p = Some cap) ∧
    (∀ a v, wrote s !! a = Some v →
       rd (memory s) a = v ∧ ∃ p n, held s !! p = Some n ∧ p ≤ a < p + n).

(** Memory the allocator leaves alone keeps what was written. *)
Lemma wrote_keep m m' bs (L : gmap Z Z) a v :
  same_on (λ x, in_live (live g_arena bs) x ∨ ¬ heap_owned x) m m' →
  (∀ p n, L !! p = Some n → ∃ cap, n ≤ cap ∧ live g_arena bs !! p = Some cap) →
  rd m a = v → (∃ p n, L !! p = Some n ∧ p ≤ a < p + n) → rd m' a = v.
Proof.
  intros Hs HL <- (p & n & Hp & Ha). destruct (HL p n Hp) as (cap & Hn & Hl).
  symmetry. apply Hs. left. exists p, cap. split; [done|lia].
Qed.

Lemma client_malloc_inv m L W size p m' :
  client_inv (Client m L W) → 0 < size ≤ 2 ^ 64 - 48 → malloc size m = Some (p, m') → p ≠ 0 →
  client_inv (Client m' (<[p := size]> L) W).
Proof.
  intros (bs & Hrep & HL & HW) Hs E Hp. simpl in *. pose proof (heap_rep_ok _ _ Hrep) as Hok.
  destruct (block_bytes_ok size Hs) as (_ & _ & _ & Hsz).
  pose proof (malloc_run m bs size Hrep Hs) as Hrun.
  destruct (acquire g_arena (block_bytes size) bs) as [[q bs']|] eqn:Ea;
    destruct Hrun as (m1 & E1 & Hrep' & Hsame); rewrite E in E1;
    [injection E1 as <- <-|by injection E1 as ->].
  destruct (acquire_live _ _ _ _ _ Hok Ea) as (cap & Hcap & Hnone & Hl & _).
  exists bs'. simpl. split; [done|]. split.
  - intros q n. rewrite Hl, !lookup_insert. case_decide; [|apply HL].
    intros ?. simplify_eq. exists cap. split; [lia|done].
  - intros a v Hv. destruct (HW a v Hv) as [Hr Hin].
    split; [apply (wrote_keep m m' bs L); [by apply malloc_frame|done..]|].
    destruct Hin as (q & n & Hq & Ha). exists q, n. split; [|done].
    rewrite lookup_insert_ne; [done|]. intros <-. by destruct (HL p n Hq) as (? & _ & ?); congruence.
Qed.

Lemma client_null_inv m L W size m' :
  client_inv (Client m L W) → 0 < size ≤ 2 ^ 64 - 48 → malloc size m = Some (0, m') →
  client_inv (Client m' L W).
Proof.
  intros (bs & Hrep & HL & HW) Hs E. simpl in *. pose proof (heap_rep_ok _ _ Hrep) as Hok.
  pose proof (malloc_run m bs size Hrep Hs) as Hrun. pose proof g_arena_fits.
  destruct (acquire g_arena (block_bytes size) bs) as [[q bs']|] eqn:Ea;
    destruct Hrun as (m1 & E1 & Hrep' & Hsame); rewrite E in E1;
    [injection E1 as Eq _|injection E1 as <-].
  { pose proof (acquire_ge _ _ _ _ _ Hok Ea). hunfold. lia. }
  exists bs. simpl. split; [done|]. split; [done|]. intros a v Hv. destruct (HW a v Hv) as [Hr Hin].
  split; [|done]. by rewrite <- (Hsame a).
Qed.

Lemma client_free_inv m L W p n m' :
  client_inv (Client m L W) → L !! p = Some n → free p m = Some (tt, m') →
  client_inv (Client m' (delete p L) (filter (λ e, ¬ (p ≤ e.1 < p + n)) W)).
Proof.
  intros (bs & Hrep & HL & HW) Hp E. simpl in *. pose proof (heap_rep_ok _ _ Hrep) as Hok.
  destruct (HL p n Hp) as (cap & _ & Hlive).
  destruct (free_run m bs p cap Hrep Hlive) as (m1 & bs' & E1 & Er & Hrep' & Hsame).
  rewrite E in E1. injection E1 as <-. exists bs'. simpl. split; [done|]. split.
  - intros q k. rewrite (release_live _ _ _ _ Hok Er), !lookup_delete. case_decide; [done|apply HL].
  - intros a v [Hv Ha]%map_lookup_filter_Some. simpl in Ha. destruct (HW a v Hv) as [Hr Hin].
    split; [apply (wrote_keep m m' bs L); [by apply free_frame|done..]|].
    destruct Hin as (q & k & Hq & Hin). exists q, k. split; [|done].
    rewrite lookup_delete_ne; [done|]. intros <-. rewrite Hp in Hq. injection Hq as <-. done.
Qed.

Lemma client_write_inv m L W p n a v m' :
  client_inv (Client m L W) → L !! p = Some n → p ≤ a < p + n → store8 a v m = Some (tt, m') →
  client_inv (Client m' L (<[a := u8 v]> W)).
Proof.
  intros (bs & Hrep & HL & HW) Hp Ha E. simpl in *.
  unfold store8 in E. destruct (mapped a); [|done]. injection E as <-.
  exists bs. simpl. split; [|split; [done|]].
  - destruct (HL p n Hp) as (cap & Hn & Hlive).
    eapply heap_rep_frame; [done|]. intros x [_ Hx]. rewrite rd_insert, decide_False; [done|].
    intros ->. apply Hx. exists p, cap. split; [done|lia].
  - intros x y. rewrite lookup_insert, rd_insert. case_decide as Hx; [|apply HW].
    intros [= <-]. subst x. split; [done|]. by exists p, n.
Qed.

Lemma client_inv_step s s' : client_inv s → client_step s s' → client_inv s'.
Proof.
  intros Hinv Hstep. destruct Hstep;
    eauto using client_malloc_inv, client_null_inv, client_free_inv, client_write_inv.
Qed.

(** What the invariant says of a block the client holds. *)
Lemma client_block s p n :
  client_inv s → held s !! p = Some n →
  p mod 16 = 0 ∧ g_arena ≤ p ∧ p + n ≤ g_arena + kArenaSize ∧ mapped_range p n.
Proof.
  intros (bs & Hrep & HL & _) Hp. pose proof (heap_rep_ok _ _ Hrep) as Hok.
  destruct (HL p n Hp) as (cap & Hn & Hlive).
  pose proof (live_bounds _ _ _ _ Hok Hlive) as Hb. rewrite (heap_rep_total _ _ Hrep) in Hb.
  hunfold. split; [eapply live_aligned; [done|apply g_arena_aligned|done]|].
  split; [lia|]. split; [lia|]. eapply mapped_range_sub; [apply g_arena_mapped|lia|lia].
Qed.

(** C19: [malloc] implements first fit.  On a heap that holds the blocks [bs],
    a request of [size] bytes returns exactly the payload that first-fit
    allocation on [bs] chooses and leaves a heap that holds the blocks it
    leaves, or returns [nullptr] and leaves [bs]; the lock is clear again, and
    no byte of a payload in use, nor any byte outside the heap, changes. *)
Theorem malloc_refines_first_fit m bs size :
  heap_rep m bs → 0 < size ≤ 2 ^ 64 - 48 →
  ∃ p m' bs', malloc size m = Some (p, m') ∧ heap_rep m' bs' ∧
    (acquire g_arena (block_bytes size) bs = Some (p, bs') ∨
     acquire g_arena (block_bytes size) bs = None ∧ p = 0 ∧ bs' = bs) ∧
    same_on (λ x, in_live (live g_arena bs) x ∨ ¬ heap_owned x) m m'.
Proof.
  intros Hrep Hs. pose proof (malloc_run m bs size Hrep Hs) as Hrun.
  destruct (acquire g_arena (block_bytes size) bs) as [[p bs']|].
  - destruct Hrun as (m' & E & Hrep' & Hsame). exists p, m', bs'.
    split_and!; try done; [by left|by apply malloc_frame].
  - destruct Hrun as (m' & E & Hrep' & Hsame). exists 0, m', bs.
    split_and!; try done; [by right|]. by eapply same_on_weaken.
Qed.

(** What [malloc] returns is usable memory: when it is not [nullptr] it is
    16-byte aligned, its [size] bytes are in the arena, mapped and outside
    every payload already in use, and it becomes one more payload in use. *)
Theorem malloc_returns_fresh_block m bs size p m' :
  heap_rep m bs → 0 < size ≤ 2 ^ 64 - 48 → malloc size m = Some (p, m') → p ≠ 0 →
  p mod 16 = 0 ∧ g_arena ≤ p ∧ p + size ≤ g_arena + kArenaSize ∧
  mapped_range p size ∧
  (∀ x, p ≤ x < p + size → ¬ in_live (live g_arena bs) x) ∧
  ∃ bs' cap, heap_rep m' bs' ∧ size ≤ cap ∧
    live g_arena bs' = <[p := cap]> (live g_arena bs).
Proof.
  intros Hrep Hs E Hp. pose proof (malloc_run m bs size Hrep Hs) as Hrun.
  pose proof (heap_rep_ok _ _ Hrep) as Hok.
  destruct (block_bytes_ok size Hs) as (_ & _ & _ & Hsz).
  destruct (acquire g_arena (block_bytes size) bs) as [[q bs']|] eqn:Ea;
    destruct Hrun as (m1 & E1 & Hrep' & _); rewrite E in E1;
    [injection E1 as <- <-|by injection E1 as ->].
  destruct (acquire_live _ _ _ _ _ Hok Ea) as (cap & Hcap & _ & Hl & Hfree).
  assert (∀ x, p ≤ x < p + size → in_free g_arena bs x) as Hin.
  { intros x Hx. apply Hfree. hunfold. lia. }
  pose proof (in_free_arena m bs p Hrep (Hin p ltac:(lia))).
  pose proof (in_free_arena m bs (p + size - 1) Hrep (Hin (p + size - 1) ltac:(lia))).
  split_and!; [|lia..| | |].
  - eapply acquire_aligned; [done|apply g_arena_aligned|exact Ea].
  - eapply mapped_range_sub; [apply g_arena_mapped|lia|lia].
  - intros x Hx Hlive. eapply live_not_free; [done..|by apply Hin].
  - exists bs', cap. split_and!; [done|lia|done].
Qed.

(** C29: [malloc] gives up only when it must: it returns [nullptr] exactly when
    no free block can hold the rounded request and its two tags. *)
Theorem malloc_null_iff_no_fit m bs size :
  heap_rep m bs → 0 < size ≤ 2 ^ 64 - 48 →
  (∃ m', malloc size m = Some (0, m')) ↔
  Forall (λ b, bused b = true ∨ bsize b < block_bytes size) bs.
Proof.
  intros Hrep Hs. rewrite <- (acquire_none g_arena).
  pose proof (malloc_run m bs size Hrep Hs) as Hrun.
  pose proof g_arena_fits. pose proof (heap_rep_ok _ _ Hrep) as Hok.
  destruct (acquire g_arena (block_bytes size) bs) as [[p bs']|] eqn:Ea;
    destruct Hrun as (m1 & E1 & _); rewrite E1.
  - pose proof (acquire_ge _ _ _ _ _ Hok Ea). split; [|done].
    intros [m' ?]. simplify_eq. hunfold. lia.
  - split; [done|]. intros _. by exists m1.
Qed.

(** C20: [free] coalesces.  Freeing a payload in use never faults, leaves the
    heap that [release] describes (the block merged with a free block on
    either side), in which that payload alone is gone, and changes no byte of
    any payload nor any byte outside the heap. *)
Theorem free_refines_coalescing m bs p n :
  heap_rep m bs → live g_arena bs !! p = Some n →
  ∃ m' bs', free p m = Some (tt, m') ∧ release g_arena p bs = Some bs' ∧
    heap_rep m' bs' ∧ live g_arena bs' = delete p (live g_arena bs) ∧
    same_on (λ x, in_live (live g_arena bs) x ∨ ¬ heap_owned x) m m'.
Proof.
  intros Hrep Hp. destruct (free_run m bs p n Hrep Hp) as (m' & bs' & E & Er & Hrep' & Hs).
  exists m', bs'. split_and!; try done; [|by apply free_frame].
  apply release_live; [by eapply heap_rep_ok|done].
Qed.

(** Allocation round trip.  Freeing what [malloc] just returned restores
    the block list exactly, so the next request of the same size returns the
    same pointer (what tests/heap.cpp checks for one size). *)
Theorem malloc_free_roundtrip m bs size p m1 :
  heap_rep m bs → 0 < size ≤ 2 ^ 64 - 48 → malloc size m = Some (p, m1) → p ≠ 0 →
  ∃ m2 m3, free p m1 = Some (tt, m2) ∧ heap_rep m2 bs ∧ malloc size m2 = Some (p, m3).
Proof.
  intros Hrep Hs E Hp. pose proof (malloc_run m bs size Hrep Hs) as Hrun.
  pose proof (heap_rep_ok _ _ Hrep) as Hok. pose proof Hrep as (_ & Hc & _).
  destruct (acquire g_arena (block_bytes size) bs) as [[q bs']|] eqn:Ea;
    destruct Hrun as (m' & E1 & Hrep' & _); rewrite E in E1;
    [injection E1 as <- <-|by injection E1 as ->].
  destruct (acquire_live _ _ _ _ _ Hok Ea) as (cap & _ & _ & Hl & _).
  destruct (free_run m1 bs' p cap Hrep') as (m2 & bs2 & Ef & Er & Hrep2 & _).
  { by rewrite Hl, lookup_insert_eq. }
  rewrite (release_acquire _ _ _ _ _ Hok Hc Ea) in Er. injection Er as <-.
  pose proof (malloc_run m2 bs size Hrep2 Hs) as Hrun2. rewrite Ea in Hrun2.
  destruct Hrun2 as (m3 & E3 & _). by exists m2, m3.
Qed.

(** C1: any sequence of client operations is safe.  Starting from [init],
    after any number of [malloc]s, [free]s of pointers held, and writes inside
    held blocks: the tags in memory describe a list of blocks without two free
    neighbours in which every pointer held is a block in use, at least as long as
    was asked for; the blocks held are 16-byte aligned, in the arena and mapped,
    and do not overlap; every byte in them is what the client last wrote there;
    and [malloc], and [free] of any held pointer, still return (no fault, no
    deadlock on the lock, no endless walk). *)
Theorem heap_client_sequences_safe m0 m1 s :
  rd m0 g_lock = 0 → init m0 = Some (tt, m1) → rtc client_step (Client m1 ∅ ∅) s →
  (∃ bs, heap_rep (memory s) bs ∧
     ∀ p n, held s !! p = Some n → ∃ cap, n ≤ cap ∧ live g_arena bs !! p = Some cap) ∧
  (∀ p n, held s !! p = Some n →
     p mod 16 = 0 ∧ g_arena ≤ p ∧ p + n ≤ g_arena + kArenaSize ∧ mapped_range p n) ∧
  (∀ p n q k, held s !! p = Some n → held s !! q = Some k → p ≠ q → p + n ≤ q ∨ q + k ≤ p) ∧
  (∀ a v, wrote s !! a = Some v → rd (memory s) a = v) ∧
  (∀ p n, held s !! p = Some n → ∃ m', free p (memory s) = Some (tt, m')) ∧
  (∀ size, 0 < size ≤ 2 ^ 64 - 48 → ∃ p m', malloc size (memory s) = Some (p, m')).
Proof.
  intros Hl Einit Hr. assert (client_inv (Client m1 ∅ ∅)) as Hinv.
  { exists [Blk kArenaSize false]. split; [by eapply init_rep|done]. }
  assert (client_inv s) as Hs by (clear -Hr Hinv; induction Hr; eauto using client_inv_step).
  clear Hr Hinv. pose proof Hs as (bs & Hrep & HL & HW). pose proof (heap_rep_ok _ _ Hrep) as Hok.
  split_and!.
  - by exists bs.
  - intros p n. by apply client_block.
  - intros p n q k Hp Hq Hne. destruct (HL p n Hp) as (c1 & ? & Hp').
    destruct (HL q k Hq) as (c2 & ? & Hq').
    destruct (live_disjoint _ _ _ _ _ _ Hok Hp' Hq' Hne); lia.
  - intros a v Hv. apply (HW a v Hv).
  - intros p n Hp. destruct (HL p n Hp) as (cap & _ & Hlive).
    destruct (free_run (memory s) bs p cap Hrep Hlive) as (m' & _ & E & _). by exists m'.
  - intros size Hsz. pose proof (malloc_run (memory s) bs size Hrep Hsz) as Hrun.
    case_match; [case_match|]; destruct Hrun as (m' & E & _); eauto.
Qed.

(** C33: a request within 15 bytes of 2^64 wraps: [align_up] yields 0, so any
    free block satisfies it, and [malloc] returns a non-null pointer to a new
    block whose payload has at most 16 bytes. *)
Theorem malloc_near_2_64_wraps m bs size :
  heap_rep m bs → 2 ^ 64 - 16 < size < 2 ^ 64 → Exists (λ b, bused b = false) bs →
  ∃ p m' bs' cap, malloc size m = Some (p, m') ∧ p ≠ 0 ∧ heap_rep m' bs' ∧
    live g_arena bs !! p = None ∧ live g_arena bs' = <[p := cap]> (live g_arena bs) ∧ 0 ≤ cap ≤ 16.
Proof.
  intros Hrep Hs Hex. pose proof (heap_rep_ok _ _ Hrep) as Hok. pose proof g_arena_fits.
  pose proof (malloc_run_needed m bs size 32 Hrep) as Hrun.
  destruct (acquire g_arena 32 bs) as [[p bs']|] eqn:Ea.
  - destruct Hrun as (m' & E & Hrep' & _); [lia|by apply align_up_wraps|lia|done|].
    pose proof (acquire_ge _ _ _ _ _ Hok Ea).
    destruct (acquire_live _ _ _ _ _ Hok Ea) as (cap & Hcap & Hnone & Hl & _).
    assert (live g_arena bs' !! p = Some cap) as Hc by (by rewrite Hl, lookup_insert_eq).
    apply live_capacity_aligned in Hc; [|by eapply heap_rep_ok].
    exists p, m', bs', cap. hunfold. unfold kArenaSize in *. split_and!; try done; try lia. dlia.
  - exfalso. apply acquire_none in Ea. rewrite Exists_exists in Hex.
    destruct Hex as (b & Hb & Hf). rewrite Forall_forall in Ea, Hok.
    destruct (Ea b Hb); [congruence|]. specialize (Hok b Hb). hunfold. lia.
Qed.
End HeapProps.

(** ** Concrete instances

    The heap right after [init] in the example layout, a request of 64 bytes
    from it, and the state that leaves. *)

#[local] Existing Instance example_space.
#[local] Existing Instance example_layout.

Definition example_heap : mem := put_tags ∅ g_arena (Blk kArenaSize false).
Definition example_ptr : Z := g_arena + kTagSize.
Definition example_heap_64 : mem :=
  match malloc 64 example_heap with Some (_, m) => m | None => ∅ end.
Definition example_blocks_64 : list blk := [Blk 96 true; Blk (kArenaSize - 96) false].

Lemma example_init : init ∅ = Some (tt, example_heap).
Proof. apply init_run. Qed.

Lemma example_heap_rep : heap_rep example_heap [Blk kArenaSize false].
Proof. by apply (init_rep ∅); [|apply example_init]. Qed.

Lemma example_malloc_ptr : (λ r, fst r) <$> malloc 64 example_heap = Some example_ptr.
Proof. vm_compute. reflexivity. Qed.

Lemma example_malloc : malloc 64 example_heap = Some (example_ptr, example_heap_64).
Proof.
  pose proof example_malloc_ptr as E. unfold example_heap_64.
  destruct (malloc 64 example_heap) as [[p m]|]; simpl in E; congruence.
Qed.

#[local] Opaque example_heap_64.

Lemma example_heap_64_rep : heap_rep example_heap_64 example_blocks_64.
Proof.
  pose proof (malloc_run example_heap [Blk kArenaSize false] 64 example_heap_rep) as Hrun.
  change (acquire g_arena (block_bytes 64) [Blk kArenaSize false])
    with (Some (example_ptr, example_blocks_64)) in Hrun.
  destruct Hrun as (m' & E & Hrep & _); [lia|]. rewrite example_malloc in E.
  assert (example_heap_64 = m') as -> by congruence. exact Hrep.
Qed.

Lemma malloc_refines_first_fit_witness :
  ∃ p m' bs', malloc 64 example_heap = Some (p, m') ∧ heap_rep m' bs' ∧
    (acquire g_arena (block_bytes 64) [Blk kArenaSize false] = Some (p, bs') ∨
     acquire g_arena (block_bytes 64) [Blk kArenaSize false] = None ∧ p = 0 ∧
       bs' = [Blk kArenaSize false]) ∧
    same_on (λ x, in_live (live g_arena [Blk kArenaSize false]) x ∨ ¬ heap_owned x)
      example_heap m'.
Proof. apply malloc_refines_first_fit; [apply example_heap_rep|lia]. Defined.

Lemma malloc_returns_fresh_block_witness :
  example_ptr mod 16 = 0 ∧ example_ptr + 64 ≤ g_arena + kArenaSize ∧
  ∃ bs' cap, heap_rep example_heap_64 bs' ∧ 64 ≤ cap ∧
    live g_arena bs' = <[example_ptr := cap]> (live g_arena [Blk kArenaSize false]).
Proof.
  destruct (malloc_returns_fresh_block example_heap [Blk kArenaSize false] 64
    example_ptr example_heap_64 example_heap_rep) as (H1 & _ & H2 & _ & _ & H3);
    [lia|apply example_malloc|done|]. done.
Defined.

Lemma malloc_null_iff_no_fit_witness :
  (∃ m', malloc kArenaSize example_heap = Some (0, m')) ↔
  Forall (λ b, bused b = true ∨ bsize b < block_bytes kArenaSize) [Blk kArenaSize false].
Proof. apply malloc_null_iff_no_fit; [apply example_heap_rep|by unfold kArenaSize]. Defined.

Lemma free_refines_coalescing_witness :
  ∃ m' bs', free example_ptr example_heap_64 = Some (tt, m') ∧
    release g_arena example_ptr example_blocks_64 = Some bs' ∧ heap_rep m' bs' ∧
    live g_arena bs' = delete example_ptr (live g_arena example_blocks_64) ∧
    same_on (λ x, in_live (live g_arena example_blocks_64) x ∨ ¬ heap_owned x)
      example_heap_64 m'.
Proof.
  apply (free_refines_coalescing example_heap_64 example_blocks_64 example_ptr 64);
    [apply example_heap_64_rep|vm_compute; reflexivity].
Defined.

Lemma malloc_free_roundtrip_witness :
  ∃ m2 m3, free example_ptr example_heap_64 = Some (tt, m2) ∧
    heap_rep m2 [Blk kArenaSize false] ∧ malloc 64 m2 = Some (example_ptr, m3).
Proof.
  apply (malloc_free_roundtrip example_heap [Blk kArenaSize false] 64);
    [apply example_heap_rep|lia|apply example_malloc|done].
Defined.

(** A client that holds a block of 64 bytes and has written its first byte. *)
Lemma heap_client_sequences_safe_witness :
  ∃ s, rtc client_step (Client example_heap ∅ ∅) s ∧ held s = {[example_ptr := 64]} ∧
    rd (memory s) example_ptr = 7 ∧ ∃ m', free example_ptr (memory s) = Some (tt, m').
Proof.
  set (s := Client (<[example_ptr := 7]> example_heap_64) {[example_ptr := 64]} {[example_ptr := 7]}).
  assert (rtc client_step (Client example_heap ∅ ∅) s) as Hr.
  { eapply rtc_l; [apply (client_malloc _ _ _ 64 example_ptr); [lia|apply example_malloc|done]|].
    apply rtc_once. change {[example_ptr := 7]} with (<[example_ptr := u8 7]> (∅ : gmap Z Z)).
    apply (client_write _ _ _ example_ptr 64 example_ptr 7); [done|lia|].
    apply store8_run. vm_compute. reflexivity. }
  destruct (heap_client_sequences_safe ∅ example_heap s)
    as (_ & _ & _ & Hw & Hfree & _); [done|apply example_init|exact Hr|].
  exists s. split; [exact Hr|]. split; [done|]. split.
  - apply (Hw example_ptr 7). vm_compute. reflexivity.
  - apply (Hfree example_ptr 64). vm_compute. reflexivity.
Defined.

Lemma malloc_near_2_64_wraps_witness :
  ∃ p m' bs' cap, malloc (2 ^ 64 - 1) example_heap = Some (p, m') ∧ p ≠ 0 ∧ heap_rep m' bs' ∧
    live g_arena [Blk kArenaSize false] !! p = None ∧
    live g_arena bs' = <[p := cap]> (live g_arena [Blk kArenaSize false]) ∧ 0 ≤ cap ≤ 16.
Proof.
  apply (malloc_near_2_64_wraps example_heap [Blk kArenaSize false]);
    [apply example_heap_rep|lia|by constructor].
Defined.

(** Sizes a little smaller overflow the sum instead ([needed] is 0 or 16): the
    tags of the chosen block are overwritten and the next request returns the
    same memory again. *)
Example malloc_overflow_overlaps :
  (λ r, fst r) <$> (a ← malloc (2 ^ 64 - 40); b ← malloc 64; mret (a, b)) example_heap =
    Some (example_ptr, example_ptr).
Proof. vm_compute. reflexivity. Qed.
