(* ===== verification/Alloc.v ===== *)
(** * What the heap promises the rest of the kernel

    Every other component reaches the heap through [new] and [delete].
    [Allocator] states what they rely on: blocks in use do not overlap, keep
    their bytes until they are freed, and may be written by their owner.  The
    queue and the thread code are verified against this interface;
    [heap_allocator] shows that kernel/src/heap.cpp provides it. *)

From S2P Require Import Prelude Memory Spinlock Heap HeapInv HeapCorrect HeapProps.

Class Allocator `{AddressSpace} := {
  alloc : Z → M Z;
  dealloc : Z → M unit;

  (** [alloc_inv m L]: in memory [m] the blocks in use are [L] (address and
      capacity).  [alloc_private]: the bytes the allocator manages. *)
  alloc_inv : mem → gmap Z Z → Prop;
  alloc_private : Z → Prop;

  alloc_spec m L n p m' :
    alloc_inv m L → 0 < n ≤ 2 ^ 64 - 48 → alloc n m = Some (p, m') →
    ∃ cap, n ≤ cap ∧ L !! p = None ∧ alloc_inv m' (<[p := cap]> L) ∧
      (∀ x, p ≤ x < p + cap → alloc_private x ∧ ¬ in_live L x) ∧
      same_on (λ x, in_live L x ∨ ¬ alloc_private x) m m';

  dealloc_spec m L p n :
    alloc_inv m L → L !! p = Some n →
    ∃ m', dealloc p m = Some (tt, m') ∧ alloc_inv m' (delete p L) ∧
      same_on (λ x, in_live L x ∨ ¬ alloc_private x) m m';

  (** Writes to blocks in use, or elsewhere, do not disturb the allocator. *)
  alloc_frame m m' L :
    alloc_inv m L → same_on (λ x, alloc_private x ∧ ¬ in_live L x) m m' → alloc_inv m' L;

  alloc_block m L p n :
    alloc_inv m L → L !! p = Some n →
    0 < p ∧ p + n < 2 ^ 64 ∧ p mod 16 = 0 ∧ mapped_range p n ∧
    (∀ x, p ≤ x < p + n → alloc_private x);

  alloc_disjoint m L p n q k :
    alloc_inv m L → L !! p = Some n → L !! q = Some k → p ≠ q → p + n ≤ q ∨ q + k ≤ p;

  (** The blocks in use are a function of the memory. *)
  alloc_agree m L L' : alloc_inv m L → alloc_inv m L' → L = L';

  (** [alloc_roomy m L r]: besides, requests that come to [r] bytes, counting 80
      bytes of overhead for each, will be granted. *)
  alloc_roomy : mem → gmap Z Z → Z → Prop;
  roomy_inv m L r : alloc_roomy m L r → alloc_inv m L;
  alloc_total m L n r :
    alloc_roomy m L r → 0 < n → n + 80 ≤ r →
    ∃ p m' L', alloc n m = Some (p, m') ∧ alloc_roomy m' L' (r - (n + 80));
  roomy_frame m m' L r :
    alloc_roomy m L r → same_on (λ x, alloc_private x ∧ ¬ in_live L x) m m' → alloc_roomy m' L r;
}.

(** Bytes that allocator calls leave alone while the blocks in use are [L]. *)
Definition stable `{Allocator} (L : gmap Z Z) (x : Z) : Prop :=
  in_live L x ∨ ¬ alloc_private x.

(** The owner of stable bytes may write them. *)
Lemma alloc_inv_others `{Allocator} m m' L (P : Z → Prop) :
  alloc_inv m L → (∀ x, P x → stable L x) → same_on (λ x, ¬ P x) m m' → alloc_inv m' L.
Proof.
  intros Hinv HP Hs. eapply alloc_frame; [exact Hinv|]. eapply same_on_weaken; [exact Hs|].
  intros x [Hpr Hnl] Hx. destruct (HP x Hx); done.
Qed.

Lemma roomy_others `{Allocator} m m' L r (P : Z → Prop) :
  alloc_roomy m L r → (∀ x, P x → stable L x) → same_on (λ x, ¬ P x) m m' → alloc_roomy m' L r.
Proof.
  intros Hinv HP Hs. eapply roomy_frame; [exact Hinv|]. eapply same_on_weaken; [exact Hs|].
  intros x [Hpr Hnl] Hx. destruct (HP x Hx); done.
Qed.

Section HeapAllocator.
Context `{HeapLayout}.

Definition heap_inv (m : mem) (L : gmap Z Z) : Prop :=
  ∃ bs, heap_rep m bs ∧ live g_arena bs = L.

(** [operator new] returns only a block that [malloc] allocated. *)
Lemma operator_new_run m bs n p m' :
  heap_rep m bs → 0 < n ≤ 2 ^ 64 - 48 → operator_new n m = Some (p, m') →
  ∃ bs', acquire g_arena (block_bytes n) bs = Some (p, bs') ∧ heap_rep m' bs' ∧
    same_on (λ x, ¬ in_free g_arena bs x) m m'.
Proof.
  intros Hrep Hn E. apply bind_run_inv in E as (q & m1 & E1 & E2).
  pose proof (malloc_run m bs n Hrep Hn) as Hrun.
  destruct (acquire g_arena (block_bytes n) bs) as [[r bs']|] eqn:Ea;
    destruct Hrun as (m2 & E3 & Hrep' & Hs); rewrite E1 in E3; injection E3 as -> ->.
  - destruct (r =? 0); [done|]. injection E2 as <- <-. by exists bs'.
  - done.
Qed.

Lemma heap_alloc_spec m L n p m' :
  heap_inv m L → 0 < n ≤ 2 ^ 64 - 48 → operator_new n m = Some (p, m') →
  ∃ cap, n ≤ cap ∧ L !! p = None ∧ heap_inv m' (<[p := cap]> L) ∧
    (∀ x, p ≤ x < p + cap → heap_owned x ∧ ¬ in_live L x) ∧
    same_on (λ x, in_live L x ∨ ¬ heap_owned x) m m'.
Proof.
  intros (bs & Hrep & <-) Hn E. pose proof (heap_rep_ok _ _ Hrep) as Hok.
  destruct (operator_new_run m bs n p m' Hrep Hn E) as (bs' & Ea & Hrep' & Hs).
  destruct (acquire_live _ _ _ _ _ Hok Ea) as (cap & Hcap & Hnone & Hl & Hfree).
  destruct (block_bytes_ok n Hn) as (_ & _ & _ & Hsz).
  exists cap. split_and!; [lia|done| | |by apply malloc_frame].
  - exists bs'. by split.
  - intros x Hx. assert (in_free g_arena bs x) as Hf by (apply Hfree; hunfold; lia).
    split; [left; by apply (in_free_arena m bs)|]. intros Hlive. by apply (live_not_free g_arena bs x).
Qed.

Lemma heap_dealloc_spec m L p n :
  heap_inv m L → L !! p = Some n →
  ∃ m', operator_delete p m = Some (tt, m') ∧ heap_inv m' (delete p L) ∧
    same_on (λ x, in_live L x ∨ ¬ heap_owned x) m m'.
Proof.
  intros (bs & Hrep & <-) Hp.
  destruct (free_run m bs p n Hrep Hp) as (m' & bs' & E & Er & Hrep' & Hs).
  exists m'. split_and!; [done| |by apply free_frame].
  exists bs'. split; [done|]. apply release_live; [by eapply heap_rep_ok|done].
Qed.

Lemma heap_frame m m' L :
  heap_inv m L → same_on (λ x, heap_owned x ∧ ¬ in_live L x) m m' → heap_inv m' L.
Proof.
  intros (bs & Hrep & <-) Hs. exists bs. split; [|done]. by eapply heap_rep_frame.
Qed.

Lemma heap_block m L p n :
  heap_inv m L → L !! p = Some n →
  0 < p ∧ p + n < 2 ^ 64 ∧ p mod 16 = 0 ∧ mapped_range p n ∧
  (∀ x, p ≤ x < p + n → heap_owned x).
Proof.
  intros (bs & Hrep & <-) Hp. pose proof (heap_rep_ok _ _ Hrep) as Hok.
  pose proof (heap_rep_total _ _ Hrep) as Htot. pose proof g_arena_fits.
  pose proof (live_bounds _ _ _ _ Hok Hp) as (H1' & H2' & H3'). hunfold. split_and!; [lia..| | |].
  - eapply live_aligned; [done|apply g_arena_aligned|done].
  - eapply mapped_range_sub; [apply g_arena_mapped|lia|lia].
  - intros x Hx. left. lia.
Qed.

Lemma heap_disjoint m L p n q k :
  heap_inv m L → L !! p = Some n → L !! q = Some k → p ≠ q → p + n ≤ q ∨ q + k ≤ p.
Proof.
  intros (bs & Hrep & <-). apply live_disjoint. by eapply heap_rep_ok.
Qed.

(** ** Room *)

Lemma tiled_agree m a bs bs' e : tiled m a bs e → tiled m a bs' e → bs = bs'.
Proof.
  revert a bs'. induction bs as [|[s u] bs IH]; intros a bs' H1 H2.
  - destruct bs' as [|b' bs']; [done|]. simpl in H1. pose proof (tiled_le _ _ _ _ H2). simpl in *. lia.
  - pose proof (tiled_le _ _ _ _ H1). destruct bs' as [|[s' u'] bs']; [simpl in *; lia|].
    destruct H1 as (_ & [Hs Hu] & _ & H1), H2 as (_ & [Hs' Hu'] & _ & H2). simpl in *.
    assert (s = s') as <- by congruence. assert (u = u') as <- by (destruct u, u'; simpl in *; congruence).
    f_equal. by apply (IH (a + s)).
Qed.

Lemma heap_agree m L L' : heap_inv m L → heap_inv m L' → L = L'.
Proof.
  intros (bs & Hrep & <-) (bs' & Hrep' & <-). f_equal.
  eapply tiled_agree; [apply Hrep|apply Hrep'].
Qed.

(** Some free block has [r] bytes. *)
Definition has_free (r : Z) (bs : list blk) : Prop :=
  r ≤ 0 ∨ ∃ b, b ∈ bs ∧ bused b = false ∧ r ≤ bsize b.

Definition heap_roomy (m : mem) (L : gmap Z Z) (r : Z) : Prop :=
  ∃ bs, heap_rep m bs ∧ live g_arena bs = L ∧ has_free r bs.

Lemma acquire_has_free a needed bs r :
  0 < needed ≤ r → has_free r bs →
  ∃ p bs', acquire a needed bs = Some (p, bs') ∧ has_free (r - needed - 32) bs'.
Proof.
  intros Hn [|(b & Hb & Hu & Hr)]; [lia|]. revert a. induction bs as [|c bs IH]; intros a;
    [by apply elem_of_nil in Hb|]. cbn [acquire].
  destruct (bused c || (bsize c <? needed)) eqn:Ec.
  - apply elem_of_cons in Hb as [<-|Hb].
    { rewrite Hu in Ec. simpl in Ec. zbool. lia. }
    destruct (IH Hb (a + bsize c)) as (p & bs' & -> & Hf). exists p, (c :: bs'). split; [done|].
    destruct Hf as [|(b' & Hb' & ?)]; [by left|]. right. exists b'. split; [by right|done].
  - eexists _, _. split; [done|]. apply elem_of_cons in Hb as [<-|Hb].
    + unfold carve. case_match; zbool; [|left; hunfold; lia].
      right. eexists. split; [right; by left|]. simpl. split; [done|lia].
    + right. exists b. split; [apply elem_of_app; by right|]. split; [done|lia].
Qed.

Lemma heap_total m L n r :
  heap_roomy m L r → 0 < n → n + 80 ≤ r →
  ∃ p m' L', operator_new n m = Some (p, m') ∧ heap_roomy m' L' (r - (n + 80)).
Proof.
  intros (bs & Hrep & <- & Hf) Hn Hr. pose proof (heap_rep_total _ _ Hrep) as Htot.
  assert (n ≤ 2 ^ 64 - 48) as Hn'.
  { destruct Hf as [|(b & Hb & _ & Hb')]; [lia|]. pose proof (heap_rep_ok _ _ Hrep) as Hok.
    assert (bsize b ≤ total bs); [|unfold kArenaSize in *; lia].
    clear -Hb Hok. induction Hok as [|c bs Hc Hok IH]; [by apply elem_of_nil in Hb|].
    pose proof (total_nonneg _ Hok). pose proof (blk_ok_pos _ Hc).
    apply elem_of_cons in Hb as [->|Hb]; simpl; [lia|]. specialize (IH Hb). lia. }
  pose proof (malloc_run m bs n Hrep ltac:(lia)) as Hrun.
  destruct (acquire_has_free g_arena (block_bytes n) bs r) as (p & bs' & Ea & Hf').
  { unfold block_bytes, kTagSize. dlia. }
  { done. }
  rewrite Ea in Hrun. destruct Hrun as (m' & E & Hrep' & _).
  assert (p ≠ 0) as Hp.
  { pose proof (acquire_ge _ _ _ _ _ (heap_rep_ok _ _ Hrep) Ea). pose proof g_arena_fits. hunfold. lia. }
  exists p, m', (live g_arena bs'). split.
  - unfold operator_new. rewrite (bind_run _ _ _ _ _ E). by rewrite (proj2 (Z.eqb_neq p 0)).
  - exists bs'. split; [done|]. split; [done|]. destruct Hf' as [|(b & ? & ? & ?)]; [left|right; exists b];
      unfold block_bytes, kTagSize in *; [dlia|]. split_and!; try done. dlia.
Qed.

Lemma heap_roomy_frame m m' L r :
  heap_roomy m L r → same_on (λ x, heap_owned x ∧ ¬ in_live L x) m m' → heap_roomy m' L r.
Proof.
  intros (bs & Hrep & <- & Hf) Hs. exists bs. split; [|done]. by eapply heap_rep_frame.
Qed.

Lemma heap_roomy_inv m L r : heap_roomy m L r → heap_inv m L.
Proof. intros (bs & ? & ? & _). by exists bs. Qed.

#[export] Instance heap_allocator : Allocator := {|
  alloc := operator_new;
  dealloc := operator_delete;
  alloc_inv := heap_inv;
  alloc_private := heap_owned;
  alloc_spec := heap_alloc_spec;
  dealloc_spec := heap_dealloc_spec;
  alloc_frame := heap_frame;
  alloc_block := heap_block;
  alloc_disjoint := heap_disjoint;
  alloc_agree := heap_agree;
  alloc_roomy := heap_roomy;
  roomy_inv := heap_roomy_inv;
  alloc_total := heap_total;
  roomy_frame := heap_roomy_frame;
|}.
End HeapAllocator.
