(* ===== verification/SpinQueue.v ===== *)
(** * kernel/src/spin_queue.cpp: the spinlock-guarded FIFO queue

    A [SpinQueue] object at address [q] holds its lock byte at offset 0,
    [head_] at 8 and [tail_] at 16; a [Node] holds [value] at 0 and [next] at 8
    and comes from the allocator.  [queue_rep] relates the memory to the list of
    queued values; [push], [pop] and [is_empty] are shown to be the list
    operations. *)

From S2P Require Import Prelude Memory Spinlock Heap HeapInv HeapCorrect HeapProps Alloc.

Local Open Scope machine_scope.

Definition kNodeSize : Z := 16.

Section SpinQueue.
Context {AS : AddressSpace} {AL : Allocator}.

(** ** Code *)

(** The part of [push] under the lock: append [node] to the list. *)
Definition link (q node : Z) : M unit :=
  spin_lock q ;;
  tail ← load64 (q +₆₄ 16);
  (if tail =? 0 then
     store64 (q +₆₄ 16) node ;;
     store64 (q +₆₄ 8) node
   else
     store64 (tail +₆₄ 8) node ;;
     store64 (q +₆₄ 16) node) ;;
  spin_unlock q.

Definition push (q value : Z) : M unit :=
  node ← alloc kNodeSize;
  store64 node value ;;
  store64 (node +₆₄ 8) 0 ;;
  link q node.

(** The part of [pop] under the lock: unlink and return the first node. *)
Definition unlink (q : Z) : M Z :=
  spin_lock q ;;
  node ← load64 (q +₆₄ 8);
  (if negb (node =? 0) then
     next ← load64 (node +₆₄ 8);
     store64 (q +₆₄ 8) next ;;
     head ← load64 (q +₆₄ 8);
     if head =? 0 then store64 (q +₆₄ 16) 0 else mret tt
   else mret tt) ;;
  spin_unlock q ;;
  mret node.

Definition pop (q out : Z) : M bool :=
  node ← unlink q;
  if node =? 0 then mret false
  else
    v ← load64 node;
    store64 out v ;;
    dealloc node ;;
    mret true.

Definition is_empty (q : Z) : M bool :=
  spin_lock q ;;
  head ← load64 (q +₆₄ 8);
  spin_unlock q ;;
  mret (head =? 0).

(** [~SpinQueue()]: [while (pop(&value)) {}] with [value] at [out]. *)
Fixpoint drain (fuel : nat) (q out : Z) : M unit :=
  match fuel with
  | O => fault
  | S k => more ← pop q out; if (more : bool) then drain k q out else mret tt
  end.

(** ** Representation *)

(** The chain of nodes [ns] from pointer [p], holding the values [vs]. *)
Fixpoint linked (m : mem) (p : Z) (ns vs : list Z) : Prop :=
  match ns, vs with
  | [], [] => p = 0
  | n :: ns', v :: vs' => p = n ∧ n ≠ 0 ∧ rd64 m n = v ∧ linked m (rd64 m (n + 8)) ns' vs'
  | _, _ => False
  end.

Definition node_byte (ns : list Z) (x : Z) : Prop :=
  ∃ n, n ∈ ns ∧ n ≤ x < n + kNodeSize.

Definition queue_byte (q x : Z) : Prop := q ≤ x < q + 24.

(** The nodes are blocks in use, pairwise distinct. *)
Definition nodes_ok (L : gmap Z Z) (ns : list Z) : Prop :=
  NoDup ns ∧ ∀ n, n ∈ ns → ∃ cap, kNodeSize ≤ cap ∧ L !! n = Some cap.

(** Bytes of other objects: outside the allocator's memory, or in a block in
    use that is not one of the nodes [ns]. *)
Definition others (L : gmap Z Z) (ns : list Z) (x : Z) : Prop :=
  ¬ alloc_private x ∨ ∃ p k, (p ∉ ns) ∧ L !! p = Some k ∧ p ≤ x < p + k.

(** The queue object itself is mapped and not part of its nodes. *)
Definition object_ok (L : gmap Z Z) (q : Z) (ns : list Z) : Prop :=
  0 ≤ q ∧ q + 24 ≤ 2 ^ 64 ∧ mapped_range q 24 ∧
  (∀ x, queue_byte q x → others L ns x ∧ ¬ node_byte ns x).

Definition queue_rep (m : mem) (L : gmap Z Z) (q : Z) (ns vs : list Z) : Prop :=
  linked m (rd64 m (q + 8)) ns vs ∧
  rd64 m (q + 16) = default 0 (last ns) ∧
  rd m q = 0 ∧ nodes_ok L ns ∧ object_ok L q ns.

(** Where the operations on queue [q] may write. *)
Definition queue_footprint (q : Z) (ns : list Z) (x : Z) : Prop :=
  queue_byte q x ∨ node_byte ns x.

(** ** Lemmas: chains in memory *)

Lemma linked_length m p ns vs : linked m p ns vs → length ns = length vs.
Proof.
  revert p vs; induction ns as [|n ns IH]; intros p [|v vs] Hl; simpl in *; try done.
  f_equal. eapply IH, Hl.
Qed.

Lemma linked_frame m m' p ns vs :
  linked m p ns vs → same_on (node_byte ns) m m' → linked m' p ns vs.
Proof.
  revert p vs; induction ns as [|n ns IH]; intros p [|v vs] Hl Hs; simpl in *; try done.
  destruct Hl as (-> & Hn & Hv & Hl).
  assert (∀ a, n ≤ a → a + 8 ≤ n + 16 → rd64 m a = rd64 m' a) as Hrd.
  { intros a ??. apply rd64_ext. eapply same_on_weaken; [exact Hs|]. intros x Hx.
    exists n. split; [by left|]. unfold kNodeSize. lia. }
  split_and!; [done..|by rewrite <- Hrd by lia|]. rewrite <- Hrd by lia. apply IH; [done|].
  eapply same_on_weaken; [exact Hs|]. intros x (k & Hk & Hx). exists k. split; [by right|done].
Qed.

Lemma linked_head m p ns vs : linked m p ns vs → p = default 0 (head ns).
Proof. destruct ns, vs; simpl; try done. by intros [-> _]. Qed.

(** Hooking [node] after the last node of a chain. *)
Lemma linked_snoc m p ns t vs node v :
  linked m p (ns ++ [t]) vs → node ≠ 0 → rd64 m node = v → rd64 m (node + 8) = 0 →
  0 ≤ node < 2 ^ 64 →
  (∀ n, n ∈ ns → n + 16 ≤ t ∨ t + 16 ≤ n) → t + 16 ≤ node ∨ node + 16 ≤ t →
  linked (wr64 m (t + 8) node) p (ns ++ [t; node]) (vs ++ [v]).
Proof.
  intros Hl Hn Hv Hnx Hr. revert p vs Hl.
  induction ns as [|n ns IH]; intros p [|w vs] Hl Hd Ht; simpl in *; try done.
  - destruct Hl as (-> & Ht0 & Hw & Hl). destruct vs as [|? vs]; [|done]. simpl.
    rewrite rd64_wr64_eq by done. rewrite !rd64_wr64_ne by lia. done.
  - destruct Hl as (-> & Hn0 & Hw & Hl).
    assert (n + 16 ≤ t ∨ t + 16 ≤ n) by (apply Hd; by left).
    split_and!; [done..|by rewrite rd64_wr64_ne by lia|].
    rewrite rd64_wr64_ne by lia. apply IH; [done| |done]. intros k Hk. apply Hd. by right.
Qed.

(** ** Lemmas: the queue object *)

Lemma rd64_insert_ne m a b v : a < b ∨ b + 8 ≤ a → rd64 (<[a := v]> m) b = rd64 m b.
Proof.
  intros Hab. apply rd64_ext. intros x Hx. rewrite rd_insert, decide_False; [done|lia].
Qed.

(** Bytes outside every write of the goal keep their value. *)
Ltac rd_out :=
  repeat first
    [ rewrite rd_wr64_out by lia
    | rewrite rd64_wr64_ne by lia
    | rewrite rd64_insert_ne by lia
    | rewrite rd_insert, decide_False by lia ].

Lemma object_field L q ns i :
  object_ok L q ns → 0 ≤ i → i + 8 ≤ 24 → q +₆₄ i = q + i ∧ mapped_range (q + i) 8.
Proof.
  intros (Hq0 & Hq1 & Hm & _) ??. split; [apply u64_small; lia|].
  eapply mapped_range_sub; [exact Hm|lia|lia].
Qed.

Lemma object_lock L q ns : object_ok L q ns → mapped q = true.
Proof. intros (_ & _ & Hm & _). apply Hm. lia. Qed.

(** A node field as the code addresses it. *)
Lemma node_field m L n cap i :
  alloc_inv m L → L !! n = Some cap → kNodeSize ≤ cap → 0 ≤ i → i + 8 ≤ 16 →
  n +₆₄ i = n + i ∧ mapped_range (n + i) 8.
Proof.
  intros Hinv Hn Hc ??. unfold kNodeSize in *.
  destruct (alloc_block m L n cap Hinv Hn) as (Hp & Hw & _ & Hm & _).
  split; [apply u64_small; lia|]. eapply mapped_range_sub; [exact Hm|lia|lia].
Qed.

Lemma node_away L q ns n :
  object_ok L q ns → n ∈ ns → n + 16 ≤ q ∨ q + 24 ≤ n.
Proof.
  intros (_ & _ & _ & Ho) Hn.
  destruct (decide (n + 16 ≤ q)); [by left|]. destruct (decide (q + 24 ≤ n)); [by right|].
  exfalso. destruct (Ho (Z.max q n)) as [_ Hx]; [unfold queue_byte; lia|].
  apply Hx. exists n. split; [done|]. unfold kNodeSize. lia.
Qed.

Lemma nodes_apart m L ns n k :
  alloc_inv m L → nodes_ok L ns → n ∈ ns → k ∈ ns → n ≠ k → n + 16 ≤ k ∨ k + 16 ≤ n.
Proof.
  intros Hinv [_ Hok] Hn Hk Hne. destruct (Hok n Hn) as (c1 & ? & E1).
  destruct (Hok k Hk) as (c2 & ? & E2). unfold kNodeSize in *.
  destruct (alloc_disjoint m L n c1 k c2 Hinv E1 E2 Hne); lia.
Qed.

Lemma elem_snoc {A} (l : list A) x : x ∈ l ++ [x].
Proof. apply elem_of_app. right. by left. Qed.

Lemma NoDup_snoc {A} (l : list A) x : NoDup (l ++ [x]) ↔ (x ∉ l) ∧ NoDup l.
Proof.
  rewrite NoDup_app. split.
  - intros (Hl & Hx & _). split; [|done]. intros Hin. apply (Hx x Hin). by left.
  - intros [Hx Hl]. split_and!; [done| |apply NoDup_singleton].
    intros y Hy ->%list_elem_of_singleton. done.
Qed.

Lemma object_not_node L q ns x : object_ok L q ns → node_byte ns x → ¬ queue_byte q x.
Proof. intros (_ & _ & _ & Ho) Hn Hq. by apply (Ho x Hq). Qed.

(** The code of [link] on a queue in which [node] is prepared but not yet
    reachable: the first node of a queue, and a further one. *)
Section Link.
Context (m : mem) (L : gmap Z Z) (q node v : Z) (Hinv : alloc_inv m L).
Context (Hv : rd64 m node = v) (Hnx : rd64 m (node + 8) = 0).

Definition linked_up (ns vs : list Z) (r : option (unit * mem)) : Prop :=
  ∃ m', r = Some (tt, m') ∧ queue_rep m' L q ns vs ∧ same_on (λ x, ¬ queue_footprint q ns x) m m'.

Lemma link_start ns vs :
  queue_rep m L q ns vs →
  link q node m =
    ((if default 0 (last ns) =? 0 then store64 (q + 16) node ;; store64 (q + 8) node
      else store64 (u64 (default 0 (last ns) + 8)) node ;; store64 (q + 16) node) ;;
     spin_unlock q) (<[q := 1]> m).
Proof.
  intros (Hl & Ht & Hlock & Hns & Ho).
  destruct (object_field L q ns 8 Ho) as [E8 _]; [lia..|].
  destruct (object_field L q ns 16 Ho) as [E16 M16]; [lia..|].
  unfold link. rewrite E8, E16. mstep spin_lock_run; [|by eapply object_lock|done].
  mstep load64_run; [|done].
  replace (rd64 (<[q := 1]> m) (q + 16)) with (default 0 (last ns)) by (rd_out; done). done.
Qed.

Lemma prepared_node ns :
  nodes_ok L (ns ++ [node]) → object_ok L q (ns ++ [node]) →
  0 < node ∧ node + 16 < 2 ^ 64 ∧ (q + 24 ≤ node ∨ node + 16 ≤ q).
Proof.
  intros Hns' Ho'. destruct (proj2 Hns' node (elem_snoc _ _)) as (cap & Hcap & Hnode).
  destruct (alloc_block m L node cap Hinv Hnode) as (Hpos & Hw & _ & _ & _).
  pose proof (node_away L q _ node Ho' (elem_snoc _ _)) as Haway. unfold kNodeSize in *. lia.
Qed.

Lemma link_first :
  queue_rep m L q [] [] → nodes_ok L [node] → object_ok L q [node] →
  linked_up [node] [v] (link q node m).
Proof.
  intros Hq Hns' Ho'. destruct (prepared_node [] Hns' Ho') as (Hpos & Hw & Haway).
  rewrite (link_start [] [] Hq). destruct Hq as (Hl & Ht & Hlock & Hns & Ho).
  destruct (object_field L q [] 8 Ho) as [E8 M8]; [lia..|].
  destruct (object_field L q [] 16 Ho) as [E16 M16]; [lia..|]. simpl. rewrite bind_assoc_run.
  mstep store64_run; [|done]. mstep store64_run; [|done].
  rewrite spin_unlock_run by (by eapply object_lock).
  eexists. split; [done|]. split; [split_and!|]; try done.
  - rd_out. rewrite rd64_wr64_eq by lia. simpl. split_and!; [done|lia|rd_out; done|rd_out; done].
  - rd_out. rewrite rd64_wr64_eq by lia. done.
  - rewrite rd_insert, decide_True; done.
  - intros x Hx. unfold queue_footprint, queue_byte in Hx. rd_out. done.
Qed.

(** The nodes of a queue are apart from its last one. *)
Lemma snoc_apart ns t n :
  nodes_ok L (ns ++ [t]) → n ∈ ns → n + kNodeSize ≤ t ∨ t + kNodeSize ≤ n.
Proof.
  intros [Hnd Hcaps] Hn. apply NoDup_snoc in Hnd as [Hnew Hnd].
  eapply nodes_apart; [done|by split; [apply NoDup_snoc; done|]|..].
  - apply elem_of_app. by left.
  - apply elem_snoc.
  - congruence.
Qed.

Lemma link_further ns t vs :
  queue_rep m L q (ns ++ [t]) vs → nodes_ok L ((ns ++ [t]) ++ [node]) →
  object_ok L q ((ns ++ [t]) ++ [node]) →
  linked_up ((ns ++ [t]) ++ [node]) (vs ++ [v]) (link q node m).
Proof.
  intros Hq Hns' Ho'. destruct (prepared_node _ Hns' Ho') as (Hpos & Hw & Haway).
  rewrite (link_start _ _ Hq). destruct Hq as (Hl & Ht & Hlock & Hns & Ho).
  destruct (object_field L q _ 16 Ho) as [E16 M16]; [lia..|].
  rewrite last_snoc. simpl.
  destruct (proj2 Hns t (elem_snoc _ _)) as (tcap & Htcap & Htl).
  destruct (node_field m L t tcap 8 Hinv Htl) as [Et Mt]; [done|lia..|].
  destruct (alloc_block m L t tcap Hinv Htl) as (Htpos & _).
  pose proof (node_away L q _ t Ho (elem_snoc _ _)) as Htaway.
  pose proof (snoc_apart _ node t Hns' (elem_snoc _ _)) as Htn. unfold kNodeSize in *.
  rewrite (proj2 (Z.eqb_neq t 0)) by lia. rewrite Et, bind_assoc_run.
  mstep store64_run; [|done]. mstep store64_run; [|done].
  rewrite spin_unlock_run by (by eapply object_lock).
  eexists. split; [done|]. split; [split_and!|]; try done.
  - rd_out. rewrite <- (assoc_L (++)). simpl.
    eapply linked_frame; [apply (linked_snoc (<[q := 1]> m)); rd_out; try done; try lia|].
    + eapply linked_frame; [exact Hl|]. intros x Hx.
      pose proof (object_not_node _ _ _ _ Ho Hx) as Hq. unfold queue_byte in Hq. rd_out. done.
    + intros n Hn. exact (snoc_apart ns t n Hns Hn).
    + intros x Hx. rewrite <- (assoc_L (++)) in Ho'.
      pose proof (object_not_node _ _ _ _ Ho' Hx) as Hq. unfold queue_byte in Hq.
      symmetry. rd_out. done.
  - rd_out. rewrite rd64_wr64_eq by lia. by rewrite last_snoc.
  - rewrite rd_insert, decide_True; done.
  - intros x Hx. assert (¬ (t ≤ x < t + 16)).
    { intros ?. apply Hx. right. exists t. split; [apply elem_of_app; left; apply elem_snoc|done]. }
    unfold queue_footprint, queue_byte in Hx. rd_out. done.
Qed.
End Link.

Lemma link_run m L q ns vs node v :
  alloc_inv m L → queue_rep m L q ns vs →
  nodes_ok L (ns ++ [node]) → object_ok L q (ns ++ [node]) →
  rd64 m node = v → rd64 m (node + 8) = 0 →
  ∃ m', link q node m = Some (tt, m') ∧ queue_rep m' L q (ns ++ [node]) (vs ++ [v]) ∧
    same_on (λ x, ¬ queue_footprint q (ns ++ [node]) x) m m'.
Proof.
  intros Hinv Hq Hns' Ho' Hv Hnx. destruct ns as [|t ns _] using rev_ind.
  - destruct vs; [|by destruct Hq]. by apply link_first.
  - by apply link_further.
Qed.

Lemma others_stable L ns x : others L ns x → stable L x.
Proof. intros [Hx|(p & k & _ & Hp & Hx)]; [by right|left]. by exists p, k. Qed.

Lemma others_not_node m L ns x :
  alloc_inv m L → nodes_ok L ns → others L ns x → ¬ node_byte ns x.
Proof.
  intros Hinv [_ Hok] Hx (n & Hn & Hb). destruct (Hok n Hn) as (cap & Hcap & E).
  unfold kNodeSize in *. destruct Hx as [Hx|(p & k & Hp & E' & Hx)].
  - apply Hx. destruct (alloc_block m L n cap Hinv E) as (_ & _ & _ & _ & Hpr). apply Hpr. lia.
  - destruct (alloc_disjoint m L n cap p k Hinv E E') as [?|?]; [by intros ->|lia..].
Qed.

Lemma others_insert L ns p cap x :
  L !! p = None → others L ns x → others (<[p := cap]> L) (ns ++ [p]) x.
Proof.
  intros Hp [Hx|(r & k & Hr & E & Hx)]; [by left|right].
  assert (p ≠ r) by congruence. exists r, k. split_and!; [|by rewrite lookup_insert_ne|lia..].
  rewrite elem_of_app, list_elem_of_singleton. intros [?|?]; congruence.
Qed.

Lemma others_delete L n ns x : others L (n :: ns) x → others (delete n L) ns x.
Proof.
  intros [Hx|(r & k & Hr & E & Hx)]; [by left|right].
  apply not_elem_of_cons in Hr as [Hne Hr].
  exists r, k. split_and!; [done|by rewrite lookup_delete_ne|lia..].
Qed.

Lemma node_byte_live L ns x : nodes_ok L ns → node_byte ns x → in_live L x.
Proof.
  intros [_ Hok] (n & Hn & Hx). destruct (Hok n Hn) as (cap & Hcap & E).
  exists n, cap. unfold kNodeSize in *. split; [done|lia].
Qed.

Lemma in_live_insert L p cap x : L !! p = None → in_live L x → in_live (<[p := cap]> L) x.
Proof.
  intros Hp (r & k & E & Hx). exists r, k. rewrite lookup_insert_ne by congruence. done.
Qed.

(** A queue survives changes to bytes it does not use. *)
Lemma queue_rep_frame m m' L L' q ns vs :
  queue_rep m L q ns vs → same_on (queue_footprint q ns) m m' →
  nodes_ok L' ns → object_ok L' q ns → queue_rep m' L' q ns vs.
Proof.
  intros (Hl & Ht & Hlock & _ & _) Hs Hns Ho.
  assert (∀ i, 0 ≤ i → i + 8 ≤ 24 → rd64 m (q + i) = rd64 m' (q + i)) as Hrd.
  { intros i ??. apply rd64_ext. eapply same_on_weaken; [exact Hs|]. intros x Hx. left.
    unfold queue_byte. lia. }
  split_and!; [|by rewrite <- Hrd by lia| |done|apply Ho..].
  - rewrite <- Hrd by lia. eapply linked_frame; [done|]. eapply same_on_weaken; [exact Hs|].
    intros x Hx. by right.
  - rewrite <- Hlock. symmetry. apply Hs. left. unfold queue_byte. lia.
Qed.

Lemma nodes_ok_init L ns node : nodes_ok L (ns ++ [node]) → nodes_ok L ns.
Proof.
  intros [Hnd Hc]. apply NoDup_snoc in Hnd as [_ Hnd]. split; [done|].
  intros n Hn. apply Hc. apply elem_of_app. by left.
Qed.

Lemma object_ok_init L q ns node : object_ok L q (ns ++ [node]) → object_ok L q ns.
Proof.
  intros (? & ? & ? & Ho). split_and!; [done..|]. intros x Hx.
  destruct (Ho x Hx) as [[Hp|(p & k & Hp & E & Hx')] Hn]; (split; [|]).
  - by left.
  - intros (n & Hin & ?). apply Hn. exists n. split; [|done]. apply elem_of_app. by left.
  - right. exists p, k. split_and!; [|done..|lia|lia]. intros Hin. apply Hp, elem_of_app. by left.
  - intros (n & Hin & ?). apply Hn. exists n. split; [|done]. apply elem_of_app. by left.
Qed.

Lemma not_live_away L n cap x :
  L !! n = Some cap → kNodeSize ≤ cap → ¬ in_live L x → x < n ∨ n + 16 ≤ x.
Proof.
  intros E Hc Hx. unfold kNodeSize in *. destruct (decide (n ≤ x < n + 16)); [|lia].
  destruct Hx. exists n, cap. split; [done|lia].
Qed.

(** The first half of [push]: a fresh node, filled in. *)
Lemma prepare_run m L q ns vs v node m1 :
  alloc_inv m L → queue_rep m L q ns vs → is_u64 v → alloc kNodeSize m = Some (node, m1) →
  ∃ m2 cap, push q v m = link q node m2 ∧ L !! node = None ∧
    alloc_inv m2 (<[node := cap]> L) ∧ queue_rep m2 (<[node := cap]> L) q ns vs ∧
    nodes_ok (<[node := cap]> L) (ns ++ [node]) ∧ object_ok (<[node := cap]> L) q (ns ++ [node]) ∧
    rd64 m2 node = v ∧ rd64 m2 (node + 8) = 0 ∧ same_on (stable L) m m2.
Proof.
  intros Hinv Hq Hv E. pose proof Hq as (_ & _ & _ & Hns & Ho).
  destruct (alloc_spec m L kNodeSize node m1 Hinv) as (cap & Hcap & Hnone & Hinv1 & Hfresh & Hs);
    [unfold kNodeSize; lia|done|].
  set (L1 := <[node := cap]> L) in *.
  assert (L1 !! node = Some cap) as EL1 by apply lookup_insert_eq.
  destruct (alloc_block m1 L1 node cap Hinv1 EL1) as (Hpos & Hw & _ & Hmap & _).
  assert (same_on (stable L) m (wr64 (wr64 m1 node v) (node + 8) 0)) as Hs2.
  { intros x Hx. rewrite Hs by done. assert (x < node ∨ node + 16 ≤ x).
    { unfold kNodeSize in *. destruct (decide (node ≤ x < node + 16)); [|lia].
      destruct (Hfresh x) as [Hp Hnl]; [lia|]. destruct Hx; done. }
    symmetry. rd_out. done. }
  assert (nodes_ok L1 (ns ++ [node])) as Hns1.
  { destruct Hns as [Hnd Hcaps]. split.
    - apply NoDup_snoc. split; [|done]. intros Hin. destruct (Hcaps node Hin) as (? & _ & ?). congruence.
    - intros n [Hn| ->%list_elem_of_singleton]%elem_of_app; [|by exists cap].
      destruct (Hcaps n Hn) as (c & Hc & En). exists c. split; [done|].
      unfold L1. rewrite lookup_insert_ne by congruence. done. }
  assert (object_ok L1 q (ns ++ [node])) as Ho1.
  { destruct Ho as (Hq0 & Hq1 & Hqm & Ho). split_and!; [done..|]. intros x Hx.
    destruct (Ho x Hx) as [Hot _]. assert (others L1 (ns ++ [node]) x) as Hot1 by (by apply others_insert).
    split; [done|]. by eapply others_not_node. }
  exists (wr64 (wr64 m1 node v) (node + 8) 0), cap. split_and!; try done.
  - unfold push. mstep E. mstep store64_run; [|eapply mapped_range_sub; unfold kNodeSize in *; [done|lia..]].
    unfold kNodeSize in *. rewrite u64_small by lia.
    mstep store64_run; [|eapply mapped_range_sub; [done|lia..]]. done.
  - eapply alloc_frame; [exact Hinv1|]. intros x [_ Hx].
    eapply not_live_away in Hx; [|done..]. symmetry. rd_out. done.
  - eapply queue_rep_frame; [exact Hq| |by eapply nodes_ok_init|by eapply object_ok_init].
    eapply same_on_weaken; [exact Hs2|]. intros x [Hx|Hx].
    + eapply others_stable. by apply Ho.
    + left. by eapply node_byte_live.
  - rewrite rd64_wr64_ne by lia. by apply rd64_wr64_eq.
  - apply rd64_wr64_eq. lia.
Qed.

Lemma push_run m L q ns vs v node m1 :
  alloc_inv m L → queue_rep m L q ns vs → is_u64 v → alloc kNodeSize m = Some (node, m1) →
  ∃ m' cap, push q v m = Some (tt, m') ∧ alloc_inv m' (<[node := cap]> L) ∧
    queue_rep m' (<[node := cap]> L) q (ns ++ [node]) (vs ++ [v]) ∧
    same_on (λ x, others L ns x ∧ ¬ queue_byte q x) m m'.
Proof.
  intros Hinv Hq Hv E.
  destruct (prepare_run m L q ns vs v node m1) as
    (m2 & cap & Ep & Hnone & Hinv2 & Hq2 & Hns1 & Ho1 & Ev & En & Hs2); [done..|].
  destruct (link_run m2 _ q ns vs node v Hinv2 Hq2 Hns1 Ho1 Ev En) as (m' & El & Hq' & Hs').
  exists m', cap. split_and!; [by rewrite Ep| |done|].
  - eapply alloc_frame; [exact Hinv2|]. intros x [Hpx Hx]. apply Hs'. intros [Hqx|Hnx].
    + destruct Ho1 as (_ & _ & _ & Ho1). destruct (Ho1 x Hqx) as [Hot _].
      apply others_stable in Hot as [?|?]; done.
    + apply Hx. by eapply node_byte_live.
  - intros x [Hx Hqx]. rewrite (Hs2 x) by (by eapply others_stable). apply Hs'.
    intros [?|Hn]; [done|].
    by eapply others_not_node; [exact Hinv2|exact Hns1|apply others_insert|].
Qed.

(** [unlink] takes the first node off the list, if there is one. *)
Lemma unlink_empty m L q :
  queue_rep m L q [] [] →
  ∃ m', unlink q m = Some (0, m') ∧ same_on (λ _, True) m m'.
Proof.
  intros (Hl & Ht & Hlock & Hns & Ho). destruct (object_field L q [] 8 Ho) as [E8 M8]; [lia..|].
  unfold unlink. rewrite E8. mstep spin_lock_run; [|by eapply object_lock|done].
  mstep load64_run; [|done]. simpl in Hl.
  replace (rd64 (<[q := 1]> m) (q + 8)) with 0 by (rd_out; done). simpl. rewrite bind_ret.
  mstep spin_unlock_run; [|by eapply object_lock]. eexists. split; [done|].
  intros x _. rewrite insert_insert_eq, rd_insert. case_decide; [by subst|done].
Qed.

(** [unlink] of a non-empty list: [head_] moves on, [tail_] is cleared with it
    when the list runs out, nothing outside the queue object changes. *)
Lemma unlink_cons_fields m L q n ns v vs :
  alloc_inv m L → queue_rep m L q (n :: ns) (v :: vs) →
  ∃ m', unlink q m = Some (n, m') ∧
    rd64 m' (q + 8) = rd64 m (n + 8) ∧ rd64 m' (q + 16) = default 0 (last ns) ∧
    rd m' q = 0 ∧ same_on (λ x, ¬ queue_byte q x) m m'.
Proof.
  intros Hinv (Hl & Ht & Hlock & Hns & Ho).
  destruct (object_field L q _ 8 Ho) as [E8 M8]; [lia..|].
  destruct (object_field L q _ 16 Ho) as [E16 M16]; [lia..|].
  destruct (proj2 Hns n) as (cap & Hcap & En); [by left|].
  destruct (node_field m L n cap 8 Hinv En) as [En8 Mn8]; [done|lia..|].
  pose proof (node_away L q _ n Ho ltac:(by left)) as Haway.
  simpl in Hl. destruct Hl as (Eh & Hn0 & Hv & Hl).
  unfold unlink. rewrite E8, E16. mstep spin_lock_run; [|by eapply object_lock|done].
  mstep load64_run; [|done].
  replace (rd64 (<[q := 1]> m) (q + 8)) with n by (rd_out; done).
  rewrite (proj2 (Z.eqb_neq n 0)) by done. simpl. rewrite En8, bind_assoc_run.
  mstep load64_run; [|done]. rewrite bind_assoc_run. mstep store64_run; [|done].
  rewrite bind_assoc_run. mstep load64_run; [|done].
  replace (rd64 (<[q := 1]> m) (n + 8)) with (rd64 m (n + 8)) by (rd_out; done).
  pose proof (rd64_range m (n + 8)) as Hrange. rewrite rd64_wr64_eq by done.
  destruct ns as [|n2 ns].
  - assert (rd64 m (n + 8) = 0) as Enx by (by destruct vs). rewrite Enx. simpl.
    mstep store64_run; [|done]. mstep spin_unlock_run; [|by eapply object_lock].
    eexists. split; [done|]. split_and!.
    + rd_out. by apply rd64_wr64_eq.
    + rd_out. by rewrite rd64_wr64_eq.
    + rewrite rd_insert, decide_True; done.
    + intros x Hx. unfold queue_byte in Hx. symmetry. rd_out. done.
  - rewrite (proj2 (Z.eqb_neq _ 0)), bind_ret by (destruct vs; [done|]; by destruct Hl as (-> & ? & _)).
    mstep spin_unlock_run; [|by eapply object_lock].
    eexists. split; [done|]. split_and!.
    + rd_out. by apply rd64_wr64_eq.
    + rd_out. rewrite Ht. done.
    + rewrite rd_insert, decide_True; done.
    + intros x Hx. unfold queue_byte in Hx. symmetry. rd_out. done.
Qed.

Lemma nodes_ok_tail L n ns : nodes_ok L (n :: ns) → nodes_ok L ns.
Proof.
  intros [Hnd Hc]. apply NoDup_cons in Hnd as [_ Hnd]. split; [done|].
  intros k Hk. apply Hc. by right.
Qed.

Lemma object_ok_tail L q n ns : object_ok L q (n :: ns) → object_ok L q ns.
Proof.
  intros (? & ? & ? & Ho). split_and!; [done..|]. intros x Hx.
  destruct (Ho x Hx) as [Hot Hnb]. split.
  - destruct Hot as [?|(p & k & Hp & ?)]; [by left|right]. exists p, k. split; [|done].
    intros ?. apply Hp. by right.
  - intros (k & Hk & ?). apply Hnb. exists k. split; [by right|done].
Qed.

Lemma unlink_cons m L q n ns v vs :
  alloc_inv m L → queue_rep m L q (n :: ns) (v :: vs) →
  ∃ m', unlink q m = Some (n, m') ∧ rd64 m' n = v ∧
    queue_rep m' L q ns vs ∧ same_on (λ x, ¬ queue_byte q x) m m'.
Proof.
  intros Hinv Hq. pose proof Hq as (Hl & _ & _ & Hns & Ho).
  destruct (unlink_cons_fields m L q n ns v vs Hinv Hq) as (m' & E & Eh & Et & El & Hs).
  pose proof (node_away L q _ n Ho ltac:(by left)) as Haway.
  simpl in Hl. destruct Hl as (_ & Hn0 & Hv & Hl).
  assert (same_on (node_byte (n :: ns)) m m') as Hsn.
  { eapply same_on_weaken; [exact Hs|]. intros x Hx. by eapply object_not_node. }
  assert (∀ x, node_byte ns x → node_byte (n :: ns) x) as Htl.
  { intros x (k & Hk & Hx). exists k. split; [by right|done]. }
  exists m'. split; [done|]. split; [|split; [|done]].
  - rewrite <- Hv. symmetry. apply rd64_ext. eapply same_on_weaken; [exact Hsn|].
    intros x Hx. exists n. split; [by left|]. unfold kNodeSize. lia.
  - split; [|split; [done|split; [done|]]].
    + rewrite Eh. eapply linked_frame; [exact Hl|]. by eapply same_on_weaken.
    + split; [by eapply nodes_ok_tail|by eapply object_ok_tail].
Qed.

(** Where [pop] puts the value: eight bytes of the caller. *)
Definition out_ok (L : gmap Z Z) (q out : Z) (ns : list Z) : Prop :=
  0 ≤ out ∧ mapped_range out 8 ∧
  (∀ x, out ≤ x < out + 8 → others L ns x ∧ ¬ queue_byte q x).

Lemma pop_empty m L q out :
  queue_rep m L q [] [] →
  ∃ m', pop q out m = Some (false, m') ∧ same_on (λ _, True) m m'.
Proof.
  intros Hq. destruct (unlink_empty m L q Hq) as (m' & E & Hs). exists m'.
  split; [|done]. unfold pop. by mstep E.
Qed.

Lemma nodes_ok_delete L n ns : nodes_ok L (n :: ns) → nodes_ok (delete n L) ns.
Proof.
  intros [Hnd Hc]. apply NoDup_cons in Hnd as [Hn Hnd]. split; [done|].
  intros k Hk. destruct (Hc k) as (cap & Hcap & E); [by right|]. exists cap. split; [done|].
  rewrite lookup_delete_ne; [done|]. by intros ->.
Qed.

Lemma object_ok_delete L q n ns : object_ok L q (n :: ns) → object_ok (delete n L) q ns.
Proof.
  intros Ho. pose proof (object_ok_tail _ _ _ _ Ho) as (? & ? & ? & Ho').
  destruct Ho as (_ & _ & _ & Ho). split_and!; [done..|]. intros x Hx. split.
  - by apply others_delete, Ho.
  - by apply Ho'.
Qed.

(** Changes to bytes of other objects, or of queue objects, keep [alloc_inv]. *)
Lemma pop_cons m L q out n ns v vs :
  alloc_inv m L → queue_rep m L q (n :: ns) (v :: vs) → out_ok L q out (n :: ns) →
  ∃ m', pop q out m = Some (true, m') ∧ rd64 m' out = v ∧
    alloc_inv m' (delete n L) ∧ queue_rep m' (delete n L) q ns vs ∧
    same_on (λ x, others L (n :: ns) x ∧ ¬ queue_byte q x ∧ ¬ (out ≤ x < out + 8)) m m'.
Proof.
  intros Hinv Hq (Ho0 & Hom & Hout). pose proof Hq as (Hl & _ & _ & Hns & Ho).
  destruct (unlink_cons m L q n ns v vs Hinv Hq) as (m1 & E1 & Hv & Hq1 & Hs1).
  destruct (proj2 Hns n) as (cap & Hcap & En); [by left|].
  destruct (node_field m L n cap 0 Hinv En) as [_ Mn]; [done|lia..|]. rewrite Z.add_0_r in Mn.
  assert (alloc_inv m1 L) as Hinv1.
  { eapply (alloc_inv_others m m1 L (queue_byte q)); [done| |done].
    intros x Hx. destruct Ho as (_ & _ & _ & Ho). by eapply others_stable, Ho. }
  set (m2 := wr64 m1 out v).
  assert (same_on (λ x, ¬ (out ≤ x < out + 8)) m1 m2) as Hs2.
  { intros x Hx. symmetry. apply rd_wr64_out. lia. }
  assert (alloc_inv m2 L) as Hinv2.
  { eapply (alloc_inv_others m1 m2 L (λ x, out ≤ x < out + 8)); [done| |done].
    intros x Hx. by eapply others_stable, Hout. }
  destruct (dealloc_spec m2 L n cap Hinv2 En) as (m3 & E3 & Hinv3 & Hs3).
  assert (∀ x, queue_footprint q ns x → stable L x) as Hfp.
  { intros x [Hx|Hx].
    - destruct Ho as (_ & _ & _ & Ho). by eapply others_stable, Ho.
    - left. eapply node_byte_live; [by eapply nodes_ok_tail|done]. }
  exists m3. split_and!; [| |done| |].
  - unfold pop. mstep E1. destruct Hl as (_ & Hn0 & _). rewrite (proj2 (Z.eqb_neq n 0)) by done.
    mstep load64_run; [|done]. rewrite Hv. mstep store64_run; [|done]. by mstep E3.
  - transitivity (rd64 m2 out).
    + symmetry. apply rd64_ext. eapply same_on_weaken; [exact Hs3|].
      intros x Hx. by eapply others_stable, Hout.
    + apply rd64_wr64_eq. rewrite <- Hv. apply rd64_range.
  - eapply queue_rep_frame; [exact Hq1| |by apply nodes_ok_delete|by apply object_ok_delete].
    intros x Hx. transitivity (rd m2 x); [|by apply Hs3, Hfp]. apply Hs2. intros Hox.
    destruct (Hout x Hox) as [Hot Hnq]. destruct Hx as [?|Hx]; [done|].
    eapply (others_not_node m L (n :: ns) x); [done..|].
    destruct Hx as (k & Hk & ?). exists k. split; [by right|done].
  - intros x (Hot & Hnq & Hno). rewrite Hs1, (Hs2 x) by done.
    by apply Hs3, (others_stable L (n :: ns)).
Qed.

(** ** Properties *)

(** [push] is enqueue.  On a queue holding [vs], once its node is
    allocated, [push(v)] returns with the lock clear and the queue holding
    [vs ++ [v]]; the node is one more block in use, and no byte of another
    object changes. *)
Theorem push_enqueues m L q ns vs v node m1 :
  alloc_inv m L → queue_rep m L q ns vs → is_u64 v → alloc kNodeSize m = Some (node, m1) →
  ∃ m' cap, push q v m = Some (tt, m') ∧ alloc_inv m' (<[node := cap]> L) ∧
    queue_rep m' (<[node := cap]> L) q (ns ++ [node]) (vs ++ [v]) ∧
    same_on (λ x, others L ns x ∧ ¬ queue_byte q x) m m'.
Proof. apply push_run. Qed.

(** [pop] is dequeue.  On an empty queue it returns [false] and changes no
    byte; otherwise it returns [true], stores the oldest value in [*out], frees
    exactly the node that held it and leaves the rest of the queue in order. *)
Theorem pop_dequeues m L q out ns vs :
  alloc_inv m L → queue_rep m L q ns vs → out_ok L q out ns →
  match vs with
  | [] => ∃ m', pop q out m = Some (false, m') ∧ same_on (λ _, True) m m'
  | v :: vs' =>
      ∃ m' n ns', ns = n :: ns' ∧ pop q out m = Some (true, m') ∧ rd64 m' out = v ∧
        alloc_inv m' (delete n L) ∧ queue_rep m' (delete n L) q ns' vs' ∧
        same_on (λ x, others L ns x ∧ ¬ queue_byte q x ∧ ¬ (out ≤ x < out + 8)) m m'
  end.
Proof.
  intros Hinv Hq Hout. pose proof (linked_length _ _ _ _ (proj1 Hq)) as Hlen.
  destruct vs as [|v vs], ns as [|n ns]; try done.
  - by eapply pop_empty.
  - destruct (pop_cons m L q out n ns v vs) as (m' & Hpop); [done..|]. by exists m', n, ns.
Qed.

(** [~SpinQueue()] leaks nothing.  Popping until [pop] fails terminates
    after one round per queued value and leaves the queue empty, with every one
    of its nodes, and no other block, returned to the allocator. *)
Theorem drain_frees_every_node m L q out ns vs k :
  alloc_inv m L → queue_rep m L q ns vs → out_ok L q out ns → (length vs < k)%nat →
  ∃ m', drain k q out m = Some (tt, m') ∧
    alloc_inv m' (foldr delete L (rev ns)) ∧ queue_rep m' (foldr delete L (rev ns)) q [] [].
Proof.
  revert m L vs k; induction ns as [|n ns IH]; intros m L vs k Hinv Hq Hout Hk;
    pose proof (linked_length _ _ _ _ (proj1 Hq)) as Hlen; destruct vs as [|v vs]; try done;
    destruct k as [|k]; simpl in Hk; try lia; cbn [drain].
  - destruct (pop_empty m L q out Hq) as (m' & E & Hs). exists m'. mstep E. split; [done|].
    simpl. split; [eapply alloc_frame; [exact Hinv|]; by eapply same_on_weaken|].
    eapply queue_rep_frame; [exact Hq|by eapply same_on_weaken|apply Hq..].
  - destruct (pop_cons m L q out n ns v vs) as (m1 & E & _ & Hinv1 & Hq1 & _); [done..|].
    mstep E. cbn [rev]. rewrite foldr_app. apply (IH m1 (delete n L) vs); [done..| |lia].
    destruct Hout as (H1 & H2 & Hx). split_and!; [done..|]. intros x Hx'.
    destruct (Hx x Hx') as [Hot Hnq]. split; [by apply others_delete|done].
Qed.

(** [empty()] reads the head pointer under the lock. *)
Lemma is_empty_run m L q ns vs :
  queue_rep m L q ns vs →
  ∃ m', is_empty q m = Some (bool_decide (vs = []), m') ∧ same_on (λ _, True) m m'.
Proof.
  intros (Hl & Ht & Hlock & Hns & Ho). destruct (object_field L q ns 8 Ho) as [E8 M8]; [lia..|].
  unfold is_empty. rewrite E8. mstep spin_lock_run; [|by eapply object_lock|done].
  mstep load64_run; [|done].
  replace (rd64 (<[q := 1]> m) (q + 8)) with (rd64 m (q + 8)) by (rd_out; done).
  mstep spin_unlock_run; [|by eapply object_lock]. eexists. split.
  - unfold mret, ST_ret. do 2 f_equal. destruct ns as [|n ns], vs as [|v vs]; simpl in Hl; try done.
    + by rewrite Hl.
    + destruct Hl as (-> & Hn & _). by rewrite (proj2 (Z.eqb_neq n 0)).
  - intros x _. rewrite insert_insert_eq, rd_insert. case_decide; [by subst|done].
Qed.
End SpinQueue.

(** ** Concrete instances: a queue object just below the example arena. *)

#[local] Existing Instance example_space.
#[local] Existing Instance example_layout.

Definition example_queue : Z := g_arena - 48.
Definition example_out : Z := g_arena - 16.

Lemma example_others L ns x : g_arena - 48 ≤ x < g_arena → others L ns x.
Proof.
  intros Hx. left. unfold alloc_private. simpl. intros [?|E]; [lia|].
  change g_lock with (g_arena - 64) in E. lia.
Qed.

Lemma example_mapped a n : g_arena - 64 ≤ a → a + n ≤ g_arena → mapped_range a n.
Proof.
  intros ?? x Hx. unfold mapped, example_space. apply andb_true_intro.
  rewrite Z.leb_le, Z.ltb_lt. change g_arena with 0xffffffff80200000 in *.
  unfold kArenaSize. lia.
Qed.

Lemma example_alloc_inv : alloc_inv example_heap ∅.
Proof. exists [Blk kArenaSize false]. split; [apply example_heap_rep|done]. Qed.

Lemma example_queue_rep : queue_rep example_heap ∅ example_queue [] [].
Proof.
  split; [vm_compute; reflexivity|]. split; [vm_compute; reflexivity|].
  split; [vm_compute; reflexivity|]. split; [split; [apply NoDup_nil_2|by intros n Hn%elem_of_nil]|].
  split_and!; [done..|by apply example_mapped|]. intros x Hx. split.
  - apply example_others. unfold queue_byte, example_queue in Hx. lia.
  - by intros (n & Hn%elem_of_nil & _).
Qed.

Lemma example_alloc_ptr :
  (λ r, fst r) <$> alloc kNodeSize example_heap = Some example_ptr.
Proof. vm_compute. reflexivity. Qed.

Lemma example_alloc : ∃ m1, alloc kNodeSize example_heap = Some (example_ptr, m1).
Proof.
  pose proof example_alloc_ptr as E.
  destruct (alloc kNodeSize example_heap) as [[p m]|]; simpl in E; [|done].
  exists m. congruence.
Qed.

Lemma example_out_ok L ns : out_ok L example_queue example_out ns.
Proof.
  split_and!; [done|by apply example_mapped|]. unfold example_out. intros x Hx. split.
  - apply example_others. lia.
  - unfold queue_byte, example_queue. lia.
Qed.

Lemma push_enqueues_witness :
  ∃ m' cap, push example_queue 7 example_heap = Some (tt, m') ∧
    queue_rep m' {[example_ptr := cap]} example_queue [example_ptr] [7].
Proof.
  destruct example_alloc as [m1 E].
  destruct (push_enqueues example_heap ∅ example_queue [] [] 7 example_ptr m1)
    as (m' & cap & Ep & _ & Hq & _);
    [apply example_alloc_inv|apply example_queue_rep|unfold is_u64; lia|exact E|].
  exists m', cap. split; [exact Ep|exact Hq].
Defined.

Lemma pop_dequeues_witness :
  ∃ m' m2, push example_queue 7 example_heap = Some (tt, m') ∧
    pop example_queue example_out m' = Some (true, m2) ∧ rd64 m2 example_out = 7.
Proof.
  destruct example_alloc as [m1 E].
  destruct (push_run example_heap ∅ example_queue [] [] 7 example_ptr m1)
    as (m' & cap & Ep & Hinv & Hq & _);
    [apply example_alloc_inv|apply example_queue_rep|unfold is_u64; lia|exact E|].
  destruct (pop_dequeues m' _ example_queue example_out _ _ Hinv Hq (example_out_ok _ _))
    as (m2 & n & ns & _ & Epop & Ev & _).
  exists m', m2. split; [exact Ep|split; [exact Epop|exact Ev]].
Defined.

Lemma drain_frees_every_node_witness :
  ∃ m' m2, push example_queue 7 example_heap = Some (tt, m') ∧
    drain 2 example_queue example_out m' = Some (tt, m2) ∧
    queue_rep m2 (foldr delete {[example_ptr := 16]} [example_ptr]) example_queue [] [].
Proof.
  destruct example_alloc as [m1 E].
  destruct (push_run example_heap ∅ example_queue [] [] 7 example_ptr m1)
    as (m' & cap & Ep & Hinv & Hq & _);
    [apply example_alloc_inv|apply example_queue_rep|unfold is_u64; lia|exact E|].
  destruct (drain_frees_every_node m' _ example_queue example_out _ _ 2 Hinv Hq (example_out_ok _ _))
    as (m2 & Ed & _ & Hq2); [simpl; lia|].
  exists m', m2. split; [exact Ep|]. split; [exact Ed|]. simpl in *.
  rewrite !insert_empty, !delete_singleton_eq in *. exact Hq2.
Defined.
