(* ===== verification/Machine.v ===== *)
(** * Cores that share memory: the lock-based code one access at a time

    [Heap] and [SpinQueue] run an operation of one core from its first
    instruction to its last.  Here the same code is a tree of single accesses to
    memory ([prog]), so that the operations of several cores can interleave
    between any two of them: a machine is a list of cores and one memory, and a
    step is one 64-bit load or store, one attempt to take a lock, or one release,
    of one core.  Accesses are sequentially consistent.  For statements about when
    a core called an operation of a queue and when that returned, code can also
    report an event, which has no other effect.

    [exec] runs such a tree without interference; [*_agrees] show that this is
    exactly the code of [Heap] and [SpinQueue].  [section] is the discipline of
    the code between lock() and unlock(). *)

From stdpp Require Import relations.
From S2P Require Import Prelude Memory Spinlock Heap Alloc SpinQueue.

Local Open Scope machine_scope.

(** ** Code as accesses *)

(** What a core reports: that it calls an operation of a queue, that the
    operation has returned. *)
Inductive op := OPush (q v : Z) | OPop (q : Z) | OEmpty (q : Z).
Inductive res := RPush | RPop (v : option Z) | REmpty (b : bool).
Inductive event := Call (c : nat) (o : op) | Return (c : nat) (r : res).

#[export] Instance op_eq_dec : EqDecision op.
Proof. solve_decision. Defined.
#[export] Instance res_eq_dec : EqDecision res.
Proof. solve_decision. Defined.

Inductive prog (A : Type) : Type :=
| Done (x : A)
| Load64 (a : Z) (k : Z → prog A)
| Store64 (a v : Z) (k : prog A)
| Lock (a : Z) (k : prog A)
| Unlock (a : Z) (k : prog A)
| Emit (e : event) (k : prog A)
(** [for (;;) asm volatile("wfi")] *)
| Halt
(** Code that must not be reached. *)
| Fault.

Arguments Done {A} x.
Arguments Load64 {A} a k.
Arguments Store64 {A} a v k.
Arguments Lock {A} a k.
Arguments Unlock {A} a k.
Arguments Emit {A} e k.
Arguments Halt {A}.
Arguments Fault {A}.

Fixpoint prog_bind_with {A B} (k : A → prog B) (p : prog A) : prog B :=
  match p with
  | Done x => k x
  | Load64 a h => Load64 a (λ v, prog_bind_with k (h v))
  | Store64 a v h => Store64 a v (prog_bind_with k h)
  | Lock a h => Lock a (prog_bind_with k h)
  | Unlock a h => Unlock a (prog_bind_with k h)
  | Emit e h => Emit e (prog_bind_with k h)
  | Halt => Halt
  | Fault => Fault
  end.

#[export] Instance prog_ret : MRet prog := λ A x, Done x.
#[export] Instance prog_bind : MBind prog := λ A B k p, prog_bind_with k p.

Definition ld (a : Z) : prog Z := Load64 a Done.
Definition st (a v : Z) : prog unit := Store64 a v (Done tt).
Definition do_lock (a : Z) : prog unit := Lock a (Done tt).
Definition do_unlock (a : Z) : prog unit := Unlock a (Done tt).
Definition emit (e : event) : prog unit := Emit e (Done tt).

(** ** One step of a core, and of the machine *)

Section Steps.
Context `{AddressSpace}.

(** One step of a core, with what it reports.  [Lock] is one round of
    [while (__atomic_test_and_set(..)) ..]. *)
Inductive prog_step {A} : prog A → mem → list event → prog A → mem → Prop :=
| step_load a k m v m' : load64 a m = Some (v, m') → prog_step (Load64 a k) m [] (k v) m'
| step_store a v k m m' : store64 a v m = Some (tt, m') → prog_step (Store64 a v k) m [] k m'
| step_lock a k m (held : bool) m' :
    test_and_set a m = Some (held, m') →
    prog_step (Lock a k) m [] (if held then Lock a k else k) m'
| step_unlock a k m m' : spin_unlock a m = Some (tt, m') → prog_step (Unlock a k) m [] k m'
| step_emit e k m : prog_step (Emit e k) m [e] k m
| step_halt m : prog_step Halt m [] Halt m.

Inductive machine_step {A} :
    list (prog A) * mem → list event → list (prog A) * mem → Prop :=
| step_core ts (i : nat) p m es p' m' :
    ts !! i = Some p → prog_step p m es p' m' →
    machine_step (ts, m) es (<[i := p']> ts, m').

(** A run of the machine, with everything the cores report, in that order. *)
Inductive machine_steps {A} :
    list (prog A) * mem → list event → list (prog A) * mem → Prop :=
| steps_refl c : machine_steps c [] c
| steps_l c1 es1 c2 es2 c3 :
    machine_step c1 es1 c2 → machine_steps c2 es2 c3 → machine_steps c1 (es1 ++ es2) c3.

(** The step that a core takes, if it can take one; and the steps of a machine
    whose cores are scheduled as the list says. *)
Definition prog_next {A} (p : prog A) (m : mem) : option (list event * prog A * mem) :=
  match p with
  | Done _ | Fault => None
  | Load64 a k => '(v, m') ← load64 a m; Some ([], k v, m')
  | Store64 a v k => '(_, m') ← store64 a v m; Some ([], k, m')
  | Lock a k =>
      '(held, m') ← test_and_set a m; Some ([], if (held : bool) then Lock a k else k, m')
  | Unlock a k => '(_, m') ← spin_unlock a m; Some ([], k, m')
  | Emit e k => Some ([e], k, m)
  | Halt => Some ([], Halt, m)
  end.

Fixpoint machine_run {A} (cores : list nat) (c : list (prog A) * mem) :
    option (list event * (list (prog A) * mem)) :=
  match cores with
  | [] => Some ([], c)
  | i :: cores' =>
      p ← c.1 !! i;
      '(es, p', m') ← prog_next p c.2;
      '(es', c') ← machine_run cores' (<[i := p']> c.1, m');
      Some (es ++ es', c')
  end.

(** A core that is neither finished nor able to take its next step: an access
    outside memory, or [Fault]. *)
Definition faulted {A} (p : prog A) (m : mem) : Prop :=
  (∀ x, p ≠ Done x) ∧ ∀ es p' m', ¬ prog_step p m es p' m'.

(** ** The same code without interference

    [at_lock a] is the byte that stands for the lock at [a]: the byte itself, or
    one that no other code can reach. *)
Fixpoint exec {A} (at_lock : Z → Z) (p : prog A) : M A :=
  match p with
  | Done x => mret x
  | Load64 a k => v ← load64 a; exec at_lock (k v)
  | Store64 a v k => store64 a v ;; exec at_lock k
  | Lock a k => spin_lock (at_lock a) ;; exec at_lock k
  | Unlock a k => spin_unlock (at_lock a) ;; exec at_lock k
  | Emit _ k => exec at_lock k
  | Halt | Fault => fault
  end.

Definition agrees {A} (at_lock : Z → Z) (p : prog A) (c : M A) : Prop :=
  ∀ m, exec at_lock p m = c m.
End Steps.

(** Steps of a piece of code are steps of the code around it. *)
Lemma prog_step_bind `{AddressSpace} {A B} (p p' : prog A) (k : A → prog B) m es m' :
  prog_step p m es p' m' → prog_step (p ≫= k) m es (p' ≫= k) m'.
Proof.
  destruct 1 as [a h m v m' E|a v h m m' E|a h m held m' E|a h m m' E|e h m|m].
  - by apply (step_load a (λ v, prog_bind_with k (h v))).
  - by apply step_store.
  - destruct held; by apply (step_lock a (prog_bind_with k h) m _ m' E).
  - by apply step_unlock.
  - apply step_emit.
  - apply step_halt.
Qed.

Lemma prog_step_bind_inv `{AddressSpace} {A B} (p : prog A) (k : A → prog B) m es q m' :
  (∀ x, p ≠ Done x) → prog_step (p ≫= k) m es q m' →
  ∃ p', q = p' ≫= k ∧ prog_step p m es p' m'.
Proof.
  intros Hp Hs. destruct p as [x|a h|a v h|a h|a h|e h| |]; [by destruct (Hp x)|..];
    inversion Hs; subst; eexists; (split; [|by econstructor]); try done.
  by destruct held.
Qed.

Lemma prog_next_step `{AddressSpace} {A} (p p' : prog A) m es m' :
  prog_next p m = Some (es, p', m') ↔ prog_step p m es p' m'.
Proof.
  split.
  - destruct p as [x|a k|a v k|a k|a k|e k| |]; simpl; intros E; try done.
    + apply bind_Some in E as ([v m1] & E & ?). simplify_eq. by apply step_load.
    + apply bind_Some in E as ([[] m1] & E & ?). simplify_eq. by apply step_store.
    + apply bind_Some in E as ([h m1] & E & ?). simplify_eq. by apply (step_lock a k m h).
    + apply bind_Some in E as ([[] m1] & E & ?). simplify_eq. by apply step_unlock.
    + simplify_eq. apply step_emit.
    + simplify_eq. apply step_halt.
  - destruct 1 as [a k m v m' E|a v k m m' E|a k m h m' E|a k m m' E|e k m|m]; simpl;
      by rewrite ?E.
Qed.

Lemma machine_run_steps `{AddressSpace} {A} cores (c c' : list (prog A) * mem) es :
  machine_run cores c = Some (es, c') → machine_steps c es c'.
Proof.
  revert c es. induction cores as [|i cores IH]; intros [ts m] es E; simpl in E.
  { simplify_eq. apply steps_refl. }
  apply bind_Some in E as (p & Hp & E). apply bind_Some in E as ([[es1 p'] m'] & Hn & E).
  apply bind_Some in E as ([es2 c2] & Hr & E). simplify_eq.
  eapply steps_l; [|by apply IH]. apply step_core with p; [done|]. by apply prog_next_step.
Qed.

(** ** Critical sections *)

(** Loads and stores only. *)
Fixpoint plain {A} (p : prog A) : Prop :=
  match p with
  | Done _ | Halt | Fault => True
  | Load64 _ k => ∀ v, plain (k v)
  | Store64 _ _ k => plain k
  | Lock _ _ | Unlock _ _ | Emit _ _ => False
  end.

(** Plain accesses, and then the release of lock [a] as the last of all. *)
Fixpoint section {A} (a : Z) (p : prog A) : Prop :=
  match p with
  | Done _ | Lock _ _ | Emit _ _ => False
  | Halt | Fault => True
  | Load64 _ k => ∀ v, section a (k v)
  | Store64 _ _ k => section a k
  | Unlock b k => b = a ∧ ∃ x, k = Done x
  end.

(** ** heap.cpp *)

Section HeapCode.
Context (arena lk : Z).

Definition footer_of_code (header : Z) : prog Z :=
  s ← ld header;
  mret (header + s -₆₄ kTagSize).

Definition write_tags_code (header size : Z) (in_use : bool) : prog unit :=
  st header size ;;
  st (header +₆₄ 8) (b2z in_use) ;;
  footer ← footer_of_code header;
  st footer size ;;
  st (footer +₆₄ 8) (b2z in_use).

Definition next_block_code (header : Z) : prog Z :=
  s ← ld header;
  let next := header +₆₄ s in
  mret (if next <? arena +₆₄ kArenaSize then next else 0).

Definition prev_block_code (header : Z) : prog Z :=
  if header =? arena then mret 0
  else
    let prev_footer := header -₆₄ kTagSize in
    s ← ld prev_footer;
    mret (header -₆₄ s).

Definition take_block_code (block needed : Z) : prog Z :=
  s ← ld block;
  let remainder := s -₆₄ needed in
  (if kMinBlockSize <=? remainder then
     write_tags_code block needed true ;;
     next ← next_block_code block;
     write_tags_code next remainder false
   else
     s' ← ld block;
     write_tags_code block s' true) ;;
  do_unlock lk ;;
  mret (payload_of block).

Definition skip_block_code (block needed : Z) : prog bool :=
  u ← ld (block +₆₄ 8);
  if negb (u =? 0) then mret true
  else s ← ld block; mret (s <? needed).

Fixpoint malloc_loop_code (fuel : nat) (block needed : Z) : prog Z :=
  match fuel with
  | O => Fault
  | S k =>
      if block =? 0 then do_unlock lk ;; mret 0
      else
        skip ← skip_block_code block needed;
        if (skip : bool)
        then next ← next_block_code block; malloc_loop_code k next needed
        else take_block_code block needed
  end.

Definition malloc_code (size : Z) : prog Z :=
  if size =? 0 then mret 0
  else
    let needed := align_up size kAlignment +₆₄ 2 * kTagSize in
    do_lock lk ;;
    malloc_loop_code malloc_fuel arena needed.

Definition merge_next_code (block size : Z) : prog Z :=
  next ← next_block_code block;
  if next =? 0 then mret size
  else
    u ← ld (next +₆₄ 8);
    if negb (u =? 0) then mret size
    else s ← ld next; mret (size +₆₄ s).

Definition merge_prev_code (block size : Z) : prog (Z * Z) :=
  prev ← prev_block_code block;
  if prev =? 0 then mret (block, size)
  else
    u ← ld (prev +₆₄ 8);
    if negb (u =? 0) then mret (block, size)
    else s ← ld prev; mret (prev, size +₆₄ s).

(** [free] between its lock() and unlock(). *)
Definition free_section (ptr : Z) : prog unit :=
  let block := header_of ptr in
  size ← ld block;
  size1 ← merge_next_code block size;
  '(lo, size2) ← merge_prev_code block size1;
  write_tags_code lo size2 false ;;
  do_unlock lk.

Definition free_code (ptr : Z) : prog unit :=
  if ptr =? 0 then mret tt
  else do_lock lk ;; free_section ptr.

Definition operator_new_code (size : Z) : prog Z :=
  ptr ← malloc_code size;
  if ptr =? 0 then Halt else mret ptr.

(** ** spin_queue.cpp *)

(** [push] between its lock() and unlock(). *)
Definition link_section (q node : Z) : prog unit :=
  tail ← ld (q +₆₄ 16);
  (if tail =? 0 then
     st (q +₆₄ 16) node ;;
     st (q +₆₄ 8) node
   else
     st (tail +₆₄ 8) node ;;
     st (q +₆₄ 16) node) ;;
  do_unlock q.

Definition push_code (q value : Z) : prog unit :=
  node ← operator_new_code kNodeSize;
  st node value ;;
  st (node +₆₄ 8) 0 ;;
  do_lock q ;;
  link_section q node.

(** [pop] between its lock() and unlock(). *)
Definition unlink_section (q : Z) : prog Z :=
  node ← ld (q +₆₄ 8);
  (if negb (node =? 0) then
     next ← ld (node +₆₄ 8);
     st (q +₆₄ 8) next ;;
     head ← ld (q +₆₄ 8);
     if head =? 0 then st (q +₆₄ 16) 0 else mret tt
   else mret tt) ;;
  do_unlock q ;;
  mret node.

Definition pop_code (q out : Z) : prog bool :=
  node ← (do_lock q ;; unlink_section q);
  if node =? 0 then mret false
  else
    v ← ld node;
    st out v ;;
    free_code node ;;
    mret true.

Definition empty_code (q : Z) : prog bool :=
  do_lock q ;;
  head ← ld (q +₆₄ 8);
  do_unlock q ;;
  mret (head =? 0).
End HeapCode.

(** ** [exec] of the code *)

Section Agrees.
Context `{AddressSpace} (at_lock : Z → Z).

Lemma exec_bind {A B} (p : prog A) (k : A → prog B) m :
  exec at_lock (p ≫= k) m = (x ← exec at_lock p; exec at_lock (k x)) m.
Proof.
  revert m. induction p as [x|a h IH|a v h IH|a h IH|a h IH|e h IH| |]; intros m; try done;
    cbn [exec mbind prog_bind prog_bind_with]; [..|apply IH].
  all: rewrite bind_assoc_run; unfold mbind, ST_bind;
    lazymatch goal with |- match ?c with _ => _ end = _ => destruct c as [[y m1]|] end;
    [apply IH|done].
Qed.

Lemma agrees_ret {A} (x : A) : agrees at_lock (mret x) (mret x).
Proof. done. Qed.

Lemma agrees_ld a : agrees at_lock (ld a) (load64 a).
Proof. intros m. cbn. unfold mbind, ST_bind. by destruct (load64 a m) as [[]|]. Qed.

Lemma agrees_st a v : agrees at_lock (st a v) (store64 a v).
Proof. intros m. cbn. unfold mbind, ST_bind. by destruct (store64 a v m) as [[[]]|]. Qed.

Lemma agrees_lock a b : at_lock a = b → agrees at_lock (do_lock a) (spin_lock b).
Proof.
  intros <- m. cbn [do_lock exec]. unfold mbind, ST_bind. by destruct (spin_lock _ m) as [[[]]|].
Qed.

Lemma agrees_unlock a b : at_lock a = b → agrees at_lock (do_unlock a) (spin_unlock b).
Proof.
  intros <- m. cbn [do_unlock exec]. unfold mbind, ST_bind.
  by destruct (spin_unlock _ m) as [[[]]|].
Qed.

Lemma agrees_bind {A B} (p : prog A) (k : A → prog B) c f :
  agrees at_lock p c → (∀ x, agrees at_lock (k x) (f x)) →
  agrees at_lock (p ≫= k) (c ≫= f).
Proof.
  intros Hp Hk m. rewrite exec_bind. unfold mbind, ST_bind. rewrite Hp.
  destruct (c m) as [[x m1]|]; [apply Hk|done].
Qed.

Lemma agrees_if {A} (b : bool) (p1 p2 : prog A) c1 c2 :
  agrees at_lock p1 c1 → agrees at_lock p2 c2 →
  agrees at_lock (if b then p1 else p2) (if b then c1 else c2).
Proof. by destruct b. Qed.

(** Running a lock()-prefixed piece of code. *)
Lemma agrees_assoc {A B C} p (c1 : M A) (c2 : A → M B) (c3 : B → M C) :
  agrees at_lock p (x ← c1; y ← c2 x; c3 y) → agrees at_lock p (y ← (x ← c1; c2 x); c3 y).
Proof. intros E m. by rewrite bind_assoc_run. Qed.
End Agrees.

#[export] Hint Resolve agrees_ret agrees_ld agrees_st agrees_lock agrees_unlock
  agrees_if : agrees.
#[export] Hint Resolve agrees_bind : agrees.

Ltac agree :=
  intros;
  repeat first [by auto with agrees | apply agrees_bind; intros | apply agrees_if | case_match].

Section HeapAgrees.
Context {AS : AddressSpace} {LAY : ArenaLayout} (at_lock : Z → Z) (lk : Z).
Context (Hlk : at_lock lk = g_lock).

Lemma footer_of_agrees header : agrees at_lock (footer_of_code header) (footer_of header).
Proof. agree. Qed.

Lemma write_tags_agrees header size u :
  agrees at_lock (write_tags_code header size u) (write_tags header size u).
Proof. pose proof footer_of_agrees. agree. Qed.

Lemma next_block_agrees header :
  agrees at_lock (next_block_code g_arena header) (next_block header).
Proof. agree. Qed.

Lemma prev_block_agrees header :
  agrees at_lock (prev_block_code g_arena header) (prev_block header).
Proof. unfold prev_block_code, prev_block. agree. Qed.

Lemma skip_block_agrees block needed :
  agrees at_lock (skip_block_code block needed) (skip_block block needed).
Proof. unfold skip_block_code, skip_block. agree. Qed.

Lemma take_block_agrees block needed :
  agrees at_lock (take_block_code g_arena lk block needed) (take_block block needed).
Proof.
  pose proof write_tags_agrees. pose proof next_block_agrees.
  unfold take_block_code, take_block. agree.
Qed.

Lemma malloc_loop_agrees fuel block needed :
  agrees at_lock (malloc_loop_code g_arena lk fuel block needed) (malloc_loop fuel block needed).
Proof.
  pose proof skip_block_agrees. pose proof next_block_agrees. pose proof take_block_agrees.
  revert block. induction fuel as [|k IH]; intros block; [done|].
  cbn [malloc_loop_code malloc_loop]. agree.
Qed.

Lemma malloc_agrees size : agrees at_lock (malloc_code g_arena lk size) (malloc size).
Proof.
  unfold malloc_code, malloc. apply agrees_if; [done|].
  apply agrees_bind; [by apply agrees_lock|]. intros _. apply malloc_loop_agrees.
Qed.

Lemma merge_next_agrees block size :
  agrees at_lock (merge_next_code g_arena block size) (merge_next block size).
Proof. pose proof next_block_agrees. unfold merge_next_code, merge_next. agree. Qed.

Lemma merge_prev_agrees block size :
  agrees at_lock (merge_prev_code g_arena block size) (merge_prev block size).
Proof. pose proof prev_block_agrees. unfold merge_prev_code, merge_prev. agree. Qed.

Lemma free_agrees ptr : agrees at_lock (free_code g_arena lk ptr) (free ptr).
Proof.
  pose proof merge_next_agrees. pose proof merge_prev_agrees. pose proof write_tags_agrees.
  unfold free_code, free, free_section. agree.
Qed.

Lemma operator_new_agrees size :
  agrees at_lock (operator_new_code g_arena lk size) (operator_new size).
Proof.
  pose proof malloc_agrees. unfold operator_new_code, operator_new. agree.
Qed.
End HeapAgrees.

Section QueueAgrees.
Context {AS : AddressSpace} {LAY : HeapLayout}.

Lemma push_agrees q value : agrees id (push_code g_arena g_lock q value) (push q value).
Proof.
  unfold push_code, push, link, link_section.
  apply agrees_bind; [by apply operator_new_agrees|]. agree.
Qed.

Lemma pop_agrees q out : agrees id (pop_code g_arena g_lock q out) (pop q out).
Proof.
  unfold pop_code, pop, unlink, unlink_section. apply agrees_bind; [agree|]. intros node.
  apply agrees_if; [done|]. apply agrees_bind; [agree|]. intros v. apply agrees_bind; [agree|].
  intros _. apply agrees_bind; [by apply free_agrees|agree].
Qed.

Lemma empty_agrees q : agrees id (empty_code q) (is_empty q).
Proof. unfold empty_code, is_empty. agree. Qed.
End QueueAgrees.

(** ** The code between lock() and unlock() is a critical section *)

Lemma section_bind {A B} a (p : prog A) (k : A → prog B) :
  plain p → (∀ x, section a (k x)) → section a (p ≫= k).
Proof. intros Hp Hk. induction p; simpl in *; try done; eauto. Qed.

Lemma plain_bind {A B} (p : prog A) (k : A → prog B) :
  plain p → (∀ x, plain (k x)) → plain (p ≫= k).
Proof. intros Hp Hk. induction p; simpl in *; try done; eauto. Qed.

Lemma plain_if {A} (b : bool) (p1 p2 : prog A) :
  plain p1 → plain p2 → plain (if b then p1 else p2).
Proof. by destruct b. Qed.

Lemma section_if {A} a (b : bool) (p1 p2 : prog A) :
  section a p1 → section a p2 → section a (if b then p1 else p2).
Proof. by destruct b. Qed.

Lemma plain_ld a : plain (ld a).
Proof. done. Qed.
Lemma plain_st a v : plain (st a v).
Proof. done. Qed.
Lemma plain_ret {A} (x : A) : plain (mret x).
Proof. done. Qed.

Lemma section_unlock {A} a (x : A) : section a (do_unlock a ;; mret x).
Proof. split; [done|]. by exists x. Qed.
Lemma section_unlock_last a : section a (do_unlock a).
Proof. split; [done|]. by exists tt. Qed.

#[export] Hint Resolve plain_bind plain_if plain_ld plain_st plain_ret section_bind section_if
  section_unlock section_unlock_last : section.

Lemma write_tags_plain header size u : plain (write_tags_code header size u).
Proof. unfold write_tags_code, footer_of_code. auto 10 with section. Qed.
#[export] Hint Resolve write_tags_plain : section.

Lemma next_block_plain arena header : plain (next_block_code arena header).
Proof. unfold next_block_code. auto with section. Qed.
#[export] Hint Resolve next_block_plain : section.

Lemma malloc_loop_section arena lk fuel block needed :
  section lk (malloc_loop_code arena lk fuel block needed).
Proof.
  revert block. induction fuel as [|k IH]; intros block; [done|]. cbn [malloc_loop_code].
  apply section_if; [auto with section|]. apply section_bind; [unfold skip_block_code; auto with section|].
  intros skip. apply section_if; [auto with section|].
  unfold take_block_code. auto 10 with section.
Qed.

Lemma free_section_section arena lk ptr : section lk (free_section arena lk ptr).
Proof.
  unfold free_section, merge_next_code, merge_prev_code, prev_block_code.
  apply section_bind; [auto with section|]. intros s.
  apply section_bind; [auto 10 with section|]. intros s1.
  apply section_bind; [auto 10 with section|]. intros [lo s2]. auto 10 with section.
Qed.

(** ** One core alone *)

Section Alone.
Context `{AddressSpace}.

(** The code of the kernel reports nothing. *)
Fixpoint silent {A} (p : prog A) : Prop :=
  match p with
  | Done _ | Halt | Fault => True
  | Load64 _ k => ∀ v, silent (k v)
  | Store64 _ _ k | Lock _ k | Unlock _ k => silent k
  | Emit _ _ => False
  end.

Lemma machine_step_alone {A} (p : prog A) m es ts m' :
  machine_step ([p], m) es (ts, m') ↔ ∃ p', ts = [p'] ∧ prog_step p m es p' m'.
Proof.
  split.
  - intros Hs. inversion Hs as [? i q ? es' p' ? Hi Hst]; subst.
    destruct i as [|i]; simplify_eq/=. by exists p'.
  - intros (p' & -> & Hst). by apply (step_core [p] 0 p).
Qed.

(** A step and then [exec] is [exec], also when the step is a round of waiting
    for a lock, which then never ends. *)
Lemma exec_step {A} (p p' : prog A) m es m' r :
  prog_step p m es p' m' → exec id p' m' = Some r → exec id p m = Some r.
Proof.
  destruct 1 as [a k m v m' E|a v k m m' E|a k m held m' E|a k m m' E|e k m|m]; simpl;
    intros Er; try (by erewrite bind_run); try done.
  assert (mapped a = true) as Ha.
  { apply bind_run_inv in E as (old & m1 & E1 & _). unfold load8 in E1. by destruct (mapped a). }
  rewrite test_and_set_run in E by done. simplify_eq.
  destruct (rd m a =? 0) eqn:E0; simpl in Er.
  - apply Z.eqb_eq in E0. erewrite bind_run by (by apply spin_lock_run). done.
  - exfalso. destruct r as [y my]. cbn [exec] in Er.
    apply bind_run_inv in Er as (u & m2 & Es & _).
    unfold spin_lock in Es. rewrite lock_loop_held in Es; [done|done|].
    unfold id. rewrite rd_insert, decide_True; done.
Qed.

Lemma alone_l {A} (p p' : prog A) m m1 c :
  prog_step p m [] p' m1 → machine_steps ([p'], m1) [] c → machine_steps ([p], m) [] c.
Proof.
  intros Hs Hr. apply (steps_l _ [] ([p'], m1) []); [|done].
  apply machine_step_alone. by exists p'.
Qed.

(** What one core does alone is what its code does. *)
Lemma exec_alone {A} (p : prog A) m x m' :
  silent p → exec id p m = Some (x, m') ↔ machine_steps ([p], m) [] ([Done x], m').
Proof.
  intros Hsil. split.
  - revert m Hsil. induction p as [y|a k IH|a v k IH|a k IH|a k IH|e k IH| |];
      intros m Hsil E; simpl in Hsil, E; try done.
    + injection E as -> ->. apply steps_refl.
    + apply bind_run_inv in E as (v & m1 & E1 & E). eapply alone_l; [by apply step_load|by apply IH].
    + apply bind_run_inv in E as ([] & m1 & E1 & E). eapply alone_l; [by apply step_store|by apply IH].
    + apply bind_run_inv in E as ([] & m1 & E1 & E). eapply alone_l; [|by apply IH].
      unfold spin_lock in E1. cbn [lock_loop] in E1.
      apply bind_run_inv in E1 as ([] & m2 & E1 & E2); simplify_eq/=.
      apply (step_lock a k m false). unfold mret, ST_ret in E2. by simplify_eq.
    + apply bind_run_inv in E as ([] & m1 & E1 & E). eapply alone_l; [by apply step_unlock|by apply IH].
  - intros Hr. remember ([p], m) as c eqn:Ec. remember ([Done x], m') as c' eqn:Ec'. clear Hsil.
    revert p m Ec. induction Hr as [c|c1 es1 [ts m1] es2 c3 Hs _ IH]; intros p m ->; simplify_eq.
    + done.
    + apply machine_step_alone in Hs as (p' & -> & Hst).
      eapply exec_step; [done|]. by apply IH.
Qed.

Definition alone {A} (p : prog A) (c : M A) : Prop :=
  ∀ m x m', machine_steps ([p], m) [] ([Done x], m') ↔ c m = Some (x, m').

Lemma agrees_alone {A} (p : prog A) c : silent p → agrees id p c → alone p c.
Proof. intros Hs E m x m'. rewrite <- exec_alone by done. by rewrite E. Qed.

Lemma silent_bind {A B} (p : prog A) (k : A → prog B) :
  silent p → (∀ x, silent (k x)) → silent (p ≫= k).
Proof. intros Hp Hk. induction p; simpl in *; try done; eauto. Qed.

Lemma section_silent {A} a (p : prog A) : section a p → silent p.
Proof. induction p; simpl; try done; eauto. intros (_ & x & ->). done. Qed.

Lemma silent_if {A} (b : bool) (p1 p2 : prog A) :
  silent p1 → silent p2 → silent (if b then p1 else p2).
Proof. by destruct b. Qed.
End Alone.

Lemma malloc_silent arena lk size : silent (malloc_code arena lk size).
Proof.
  unfold malloc_code. apply silent_if; [done|].
  apply silent_bind; [done|]. intros _. eapply section_silent, malloc_loop_section.
Qed.

Lemma free_silent arena lk ptr : silent (free_code arena lk ptr).
Proof.
  unfold free_code. apply silent_if; [done|].
  apply silent_bind; [done|]. intros _. eapply section_silent, free_section_section.
Qed.

Lemma operator_new_silent arena lk size : silent (operator_new_code arena lk size).
Proof.
  unfold operator_new_code. apply silent_bind; [apply malloc_silent|]. intros p. by apply silent_if.
Qed.

Lemma push_silent arena lk q value : silent (push_code arena lk q value).
Proof.
  unfold push_code. apply silent_bind; [apply operator_new_silent|]. intros n. cbn.
  intros t. by case_match.
Qed.

Lemma pop_silent arena lk q out : silent (pop_code arena lk q out).
Proof.
  unfold pop_code. apply silent_bind.
  - cbn. intros n. case_match; [|done]. cbn. intros next head. by case_match.
  - intros n. apply silent_if; [done|]. cbn. intros v. apply silent_bind; [apply free_silent|done].
Qed.

(** The machine runs the kernel's code.  A single core that runs the tree of
    accesses of [malloc], [free], [operator new], [push], [pop] or [empty] ends
    with a result and a memory exactly when the code of [Heap] and [SpinQueue] gives
    that result and that memory; when that code does not return, neither does the
    core. *)
Theorem one_core_runs_the_code {AS : AddressSpace} {LAY : HeapLayout} size ptr q value out :
  alone (malloc_code g_arena g_lock size) (malloc size) ∧
  alone (free_code g_arena g_lock ptr) (free ptr) ∧
  alone (operator_new_code g_arena g_lock size) (operator_new size) ∧
  alone (push_code g_arena g_lock q value) (push q value) ∧
  alone (pop_code g_arena g_lock q out) (pop q out) ∧
  alone (empty_code q) (is_empty q).
Proof.
  split_and!; apply agrees_alone;
    auto using malloc_agrees, free_agrees, operator_new_agrees, push_agrees, pop_agrees, empty_agrees,
      malloc_silent, free_silent, operator_new_silent, push_silent, pop_silent.
  done.
Qed.

(** In the example layout: a request that [malloc] refuses at once. *)
Lemma one_core_runs_the_code_witness :
  @machine_steps example_space Z
    ([malloc_code (@g_arena _ (@heap_arena _ example_layout))
        (@g_lock _ (@heap_arena _ example_layout)) 0], ∅) [] ([Done 0], ∅).
Proof.
  by apply (@one_core_runs_the_code example_space example_layout 0 0 0 0 0).
Defined.
