(* ===== verification/MachineLogic.v ===== *)
(** * A separation logic for cores that share memory

    Iris, instantiated with the machine of [Machine].  [bytes D m] is the
    ownership of the memory at the addresses [D], which holds what [m] holds
    there; only the core that owns a byte can access it, so that code verified
    in the logic has no data race.  [is_lock] gives a lock its meaning: the
    memory it protects, owned by whoever holds it.  [wp_section] carries a run
    of the code between lock() and unlock() by one core alone, over to any
    interleaving with other cores. *)

From iris.proofmode Require Import proofmode.
From iris.base_logic.lib Require Export gen_heap ghost_var invariants.
From iris.program_logic Require Export language weakestpre.
From iris.program_logic Require Import lifting adequacy.
From S2P Require Import Prelude Memory Spinlock Machine.

(** ** The machine as a language of Iris *)

Definition prog_val {A} (p : prog A) : option A :=
  match p with Done x => Some x | _ => None end.

Section Language.
Context (AS : AddressSpace).

Definition prog_prim_step {A} (p : prog A) (m : mem) (es : list event)
    (p' : prog A) (m' : mem) (efs : list (prog A)) : Prop :=
  efs = [] ∧ prog_step p m es p' m'.

Lemma prog_lang_mixin A : LanguageMixin (@Done A) prog_val prog_prim_step.
Proof.
  split; [done| |].
  - by intros [] ? [= ->].
  - intros p m κ p' m' efs (_ & Hs). by destruct Hs.
Qed.

Canonical Structure prog_lang (A : Type) : language := Language (prog_lang_mixin A).
End Language.

Class machGS (AS : AddressSpace) (Σ : gFunctors) := MachGS {
  mach_invGS :: invGS Σ;
  mach_heapGS :: gen_heapGS Z Z Σ;
  mach_logG :: ghost_varG Σ (list event);
  (** The events of the whole run, and the name for those so far. *)
  mach_trace : list event;
  mach_log : gname;
}.

(** The bytes that somebody owns are memory, and hold what the owner thinks. *)
Definition owned_in {AS : AddressSpace} (s : gmap Z Z) (m : mem) : Prop :=
  ∀ a b, s !! a = Some b → mapped a = true ∧ rd m a = b.

Definition mem_interp `{!machGS AS Σ} (m : mem) : iProp Σ :=
  ∃ s, gen_heap_interp s ∗ ⌜owned_in s m⌝.

(** The events so far are [log]: known to the machine and, to the extent that
    somebody owns this, to the proof. *)
Definition reported `{!machGS AS Σ} (log : list event) : iProp Σ :=
  ghost_var mach_log (1 / 2) log.

Definition mach_interp `{!machGS AS Σ} (m : mem) (es : list event) : iProp Σ :=
  mem_interp m ∗ ∃ log, ⌜mach_trace = log ++ es⌝ ∗ reported log.

Global Instance mach_irisGS `{!machGS AS Σ} A : irisGS (prog_lang AS A) Σ := {
  iris_invGS := mach_invGS;
  state_interp m _ es _ := mach_interp m es;
  fork_post _ := True%I;
  num_laters_per_step _ := 0%nat;
  state_interp_mono _ _ _ _ := fupd_intro _ _
}.

(** [RUN p {{ x, Q }}]: code [p] never gets stuck, whatever the other cores do,
    and if it finishes with [x], then [Q] holds. *)
Definition run `{!machGS AS Σ} {A} (p : prog A) (Φ : A → iProp Σ) : iProp Σ :=
  wp NotStuck ⊤ p Φ.

Notation "'RUN' p {{ Φ } }" := (run p Φ)
  (at level 20, p, Φ at level 200, only parsing) : bi_scope.
Notation "'RUN' p {{ x , Q } }" := (run p (λ x, Q)) (at level 20, p, Q at level 200) : bi_scope.

(** The addresses from [a] to [a + n - 1]. *)
Definition span_def (a n : Z) : gset Z := list_to_set (seqZ a n).
Definition span_aux : seal span_def.
Proof. by eexists. Qed.
Definition span : Z → Z → gset Z := span_aux.(unseal).

Lemma elem_of_span x a n : x ∈ span a n ↔ a ≤ x < a + n.
Proof. rewrite /span span_aux.(seal_eq) elem_of_list_to_set elem_of_seqZ. lia. Qed.

(** What memory [m] holds on [D], as a map; and [m] with that laid over it. *)
Definition view (D : gset Z) (m : mem) : gmap Z Z := set_to_map (λ x, (x, rd m x)) D.
Definition overlay (m1 : mem) (D : gset Z) (m2 : mem) : mem := view D m2 ∪ m1.

Lemma lookup_view D m x v : view D m !! x = Some v ↔ x ∈ D ∧ v = rd m x.
Proof.
  unfold view. rewrite lookup_set_to_map; [naive_solver|]. simpl. by intros ???? ->.
Qed.

Lemma rd_overlay m1 D m2 x : rd (overlay m1 D m2) x = if decide (x ∈ D) then rd m2 x else rd m1 x.
Proof.
  unfold overlay, rd at 1. case_decide as Hx.
  - erewrite lookup_union_Some_l by (by apply lookup_view). simpl. apply u8_byte, rd_byte.
  - rewrite lookup_union_r; [done|]. apply eq_None_not_Some. intros [v [Hv _]%lookup_view]. done.
Qed.

Section Logic.
Context `{!machGS AS Σ}.

Definition bytes (D : gset Z) (m : mem) : iProp Σ := [∗ set] x ∈ D, pointsto x (DfracOwn 1) (rd m x).

Global Instance bytes_timeless D m : Timeless (bytes D m).
Proof. apply _. Qed.

Lemma bytes_ext D m m' : (∀ x, x ∈ D → rd m x = rd m' x) → bytes D m -∗ bytes D m'.
Proof.
  iIntros (E) "H". iApply (big_sepS_impl with "H"). iIntros "!>" (x Hx) "H". by rewrite E.
Qed.

Lemma bytes_union D1 D2 m : D1 ## D2 → bytes (D1 ∪ D2) m ⊣⊢ bytes D1 m ∗ bytes D2 m.
Proof. apply big_sepS_union. Qed.

Lemma bytes_subset D D' m : D' ⊆ D → bytes D m -∗ bytes D' m.
Proof. iIntros (HD) "H". by iApply (big_sepS_subseteq with "H"). Qed.

(** The bytes of two owners, as those of one. *)
Lemma bytes_join D1 D2 m1 m2 :
  D1 ## D2 → bytes D1 m1 -∗ bytes D2 m2 -∗ bytes (D1 ∪ D2) (overlay m1 D2 m2).
Proof.
  iIntros (Hd) "H1 H2". iApply bytes_union; [done|]. iSplitL "H1".
  - iApply (bytes_ext with "H1"). intros x Hx. rewrite rd_overlay decide_False //. set_solver.
  - iApply (bytes_ext with "H2"). intros x Hx. by rewrite rd_overlay decide_True.
Qed.

Lemma span_split a n k : 0 ≤ k ≤ n → span a n = span a k ∪ span (a + k) (n - k) ∧
  span a k ## span (a + k) (n - k).
Proof.
  intros Hk. split.
  - apply set_eq. intros x. rewrite elem_of_union !elem_of_span. lia.
  - apply elem_of_disjoint. intros x. rewrite !elem_of_span. lia.
Qed.

Lemma bytes_view D m : ([∗ map] x ↦ v ∈ view D m, pointsto x (DfracOwn 1) v) -∗ bytes D m.
Proof.
  iIntros "H". iAssert ([∗ map] x ↦ _ ∈ view D m, pointsto x (DfracOwn 1) (rd m x))%I
    with "[H]" as "H".
  { iApply (big_sepM_impl with "H"). by iIntros "!>" (x v [_ ->]%lookup_view) "H". }
  rewrite big_sepM_dom. replace (dom (view D m)) with D; [done|].
  apply set_eq. intros x. rewrite elem_of_dom. split.
  - intros Hx. exists (rd m x). by apply lookup_view.
  - by intros [v [Hx _]%lookup_view].
Qed.

(** ** Ownership and the memory of the machine *)

Lemma bytes_agree D m σ :
  mem_interp σ -∗ bytes D m -∗ ⌜∀ x, x ∈ D → mapped x = true ∧ rd σ x = rd m x⌝.
Proof.
  iIntros "(%s & Hs & %Ho) HD" (x Hx).
  iDestruct (big_sepS_elem_of _ _ _ Hx with "HD") as "Hx".
  iDestruct (gen_heap_valid with "Hs Hx") as %E. iPureIntro. by apply Ho.
Qed.

Lemma bytes_insert D m σ a v :
  a ∈ D → mem_interp σ -∗ bytes D m ==∗
  mem_interp (<[a := v]> σ) ∗ bytes D (<[a := v]> m).
Proof.
  iIntros (Ha) "(%s & Hs & %Ho) HD".
  rewrite /bytes. rewrite (big_sepS_delete _ D a) // (big_sepS_delete _ D a) //.
  iDestruct "HD" as "[Ha HD]". iDestruct (gen_heap_valid with "Hs Ha") as %E.
  iMod (gen_heap_update _ _ _ (rd (<[a:=v]> m) a) with "Hs Ha") as "[Hs Ha]".
  iModIntro. iFrame "Ha". iSplitL "Hs".
  - iExists _. iFrame "Hs". iPureIntro. intros x b. rewrite lookup_insert !rd_insert.
    rewrite (decide_True (P := a = a)) //. case_decide as Hx; [|apply Ho].
    intros [= <-]. subst. split; [by eapply Ho|done].
  - iApply (big_sepS_impl with "HD"). iIntros "!>" (x Hx) "H".
    rewrite rd_insert decide_False //. set_solver.
Qed.

Lemma bytes_wr_bytes D m σ a l :
  span a (Z.of_nat (length l)) ⊆ D → mem_interp σ -∗ bytes D m ==∗
  mem_interp (wr_bytes σ a l) ∗ bytes D (wr_bytes m a l).
Proof.
  iInduction l as [|b l] "IH" forall (a m σ); iIntros (HD) "Hσ HD"; simpl; [by iFrame|].
  iMod (bytes_insert _ _ _ a b with "Hσ HD") as "[Hσ HD]".
  { apply HD, elem_of_span. simpl. lia. }
  iApply ("IH" with "[%] Hσ HD"). intros x Hx%elem_of_span. apply HD, elem_of_span.
  simpl. lia.
Qed.

Lemma bytes_mapped D m σ a n :
  span a n ⊆ D → mem_interp σ -∗ bytes D m -∗ ⌜mapped_range a n⌝.
Proof.
  iIntros (Hs) "Hσ HD". iDestruct (bytes_agree with "Hσ HD") as %Hag. iPureIntro.
  intros x Hx. apply Hag, Hs, elem_of_span. done.
Qed.

(** ** Rules *)

(** The general rule: a core that can take a step and reports nothing, in every
    step it can take. *)
Lemma run_lift {A} (p : prog A) Φ :
  prog_val p = None →
  (∀ σ, mem_interp σ ={⊤,∅}=∗ ⌜∃ p' σ', prog_step p σ [] p' σ'⌝ ∗
    ▷ ∀ es p' σ', ⌜prog_step p σ es p' σ'⌝ ={∅,⊤}=∗ ⌜es = []⌝ ∗ mem_interp σ' ∗ RUN p' {{ Φ }}) -∗
  RUN p {{ Φ }}.
Proof.
  iIntros (Hp) "H". rewrite /run. iApply wp_lift_step; [done|].
  iIntros (σ ns κ κs nt) "[Hσ Hlog]".
  iMod ("H" $! σ with "Hσ") as "[%Hred H]". iModIntro. iSplit.
  { iPureIntro. destruct Hred as (p' & σ' & Hst). by exists [], p', σ', []. }
  iIntros "!>" (p' σ' efs (-> & Hst)) "_".
  iMod ("H" $! κ p' σ' with "[//]") as "(-> & $ & $)". iModIntro. by iFrame "Hlog".
Qed.

(** Reporting an event. *)
Lemma run_emit e Φ :
  (|={⊤,∅}=> ∃ log, reported log ∗ (reported (log ++ [e]) ={∅,⊤}=∗ Φ tt)) -∗
  RUN emit e {{ Φ }}.
Proof.
  iIntros "H". rewrite /run. iApply wp_lift_step; [done|].
  iIntros (σ ns κ κs nt) "[Hσ (%log & %Htr & Hlog)]".
  iMod "H" as (log') "[Hlog' H]". iDestruct (ghost_var_agree with "Hlog Hlog'") as %<-.
  iModIntro. iSplit.
  { iPureIntro. eexists _, _, _, []. split; [done|]. apply step_emit. }
  iIntros "!>" (p' σ' efs (-> & Hst)) "_". inversion Hst; subst.
  iMod (ghost_var_update_halves (log ++ [e]) with "Hlog Hlog'") as "[Hlog Hlog']".
  iMod ("H" with "Hlog'") as "HΦ". iModIntro. iFrame "Hσ". iSplitL "Hlog".
  { iExists _. iFrame "Hlog". by rewrite -app_assoc. }
  iSplit; [|done]. by iApply wp_value'.
Qed.

Lemma run_ret {A} (x : A) Φ : Φ x -∗ RUN Done x {{ Φ }}.
Proof. iIntros "H". rewrite /run. by iApply wp_value'. Qed.

Lemma fupd_run {A} (p : prog A) Φ : (|={⊤}=> RUN p {{ Φ }}) -∗ RUN p {{ Φ }}.
Proof. iIntros "H". rewrite /run. iApply fupd_wp. iMod "H". done. Qed.

Lemma run_wand {A} (p : prog A) Φ Ψ :
  RUN p {{ Φ }} -∗ (∀ x, Φ x -∗ Ψ x) -∗ RUN p {{ Ψ }}.
Proof. rewrite /run. apply wp_wand. Qed.

Global Instance elim_modal_fupd_run {A} b P (p : prog A) Φ :
  ElimModal True b false (|={⊤}=> P) P (RUN p {{ Φ }}) (RUN p {{ Φ }}).
Proof.
  rewrite /ElimModal bi.intuitionistically_if_elim fupd_frame_r bi.wand_elim_r.
  iIntros (_) "H". by iApply fupd_run.
Qed.

Global Instance is_except_0_run {A} (p : prog A) Φ : IsExcept0 (RUN p {{ Φ }}).
Proof.
  rewrite /IsExcept0. iIntros "H". iApply fupd_run. iMod "H". by iModIntro.
Qed.

(** Sequencing code of different types. *)
Lemma run_bind {A B} (p : prog A) (k : A → prog B) Φ :
  RUN p {{ x, RUN k x {{ Φ }} }} -∗ RUN (p ≫= k) {{ Φ }}.
Proof.
  iIntros "H". iLöb as "IH" forall (p). iEval (rewrite /run wp_unfold /wp_pre) in "H".
  destruct (language.to_val p) as [x|] eqn:Ep.
  { destruct p; simpl in Ep; simplify_eq. simpl. by iMod "H". }
  rewrite /run. iApply wp_lift_step_fupd; [by destruct p|]. iIntros (σ ns κ κs nt) "Hσ".
  iMod ("H" $! σ ns κ κs nt with "Hσ") as "[%Hred H]". iModIntro. iSplit.
  { iPureIntro. destruct Hred as (κ' & p' & m' & efs & (-> & Hst)).
    eexists κ', _, _, []. split; [done|]. by apply prog_step_bind. }
  iIntros (q' m' efs (-> & Hst)) "Hc".
  apply prog_step_bind_inv in Hst as (p' & -> & Hst); [|by destruct p].
  iMod ("H" $! p' m' [] with "[%] Hc") as "H"; [done|]. simpl.
  iIntros "!> !>". iMod "H". iMod "H" as "($ & H & _)". iModIntro. iSplit; [|done].
  by iApply "IH".
Qed.

Lemma run_load {A} D m a (k : Z → prog A) Φ :
  span a 8 ⊆ D → bytes D m -∗ ▷ (bytes D m -∗ RUN k (rd64 m a) {{ Φ }}) -∗
  RUN Load64 a k {{ Φ }}.
Proof.
  iIntros (Hs) "HD Hk". iApply run_lift; [done|]. iIntros (σ) "Hσ".
  iDestruct (bytes_agree with "Hσ HD") as %Hag.
  iDestruct (bytes_mapped _ _ _ _ _ Hs with "Hσ HD") as %Hm.
  iApply fupd_mask_intro; [set_solver|]. iIntros "Hclose". iSplit.
  { iPureIntro. do 2 eexists. by apply step_load, load64_run. }
  iIntros "!>" (es p' m' Hst). inversion Hst as [? ? ? v ? E| | | | |]; subst.
  rewrite load64_run in E; [|done]. injection E as <- <-. iMod "Hclose" as "_". iModIntro.
  iSplit; [done|]. iFrame "Hσ". rewrite (rd64_ext σ m); [by iApply "Hk"|].
  intros x Hx. apply Hag, Hs, elem_of_span. lia.
Qed.

Lemma run_store {A} D m a v (k : prog A) Φ :
  span a 8 ⊆ D → bytes D m -∗ ▷ (bytes D (wr64 m a v) -∗ RUN k {{ Φ }}) -∗
  RUN Store64 a v k {{ Φ }}.
Proof.
  iIntros (Hs) "HD Hk". iApply run_lift; [done|]. iIntros (σ) "Hσ".
  iDestruct (bytes_mapped _ _ _ _ _ Hs with "Hσ HD") as %Hm.
  iApply fupd_mask_intro; [set_solver|]. iIntros "Hclose". iSplit.
  { iPureIntro. do 2 eexists. by apply step_store, store64_run. }
  iIntros "!>" (es p' m' Hst). inversion Hst as [|? ? ? ? ? E| | | |]; subst.
  rewrite store64_run in E; [|done]. injection E as <-.
  iMod (bytes_wr_bytes _ _ _ a (le_bytes 8 v) with "Hσ HD") as "[Hσ HD]".
  { by rewrite length_le_bytes. }
  iMod "Hclose" as "_". iModIntro. iSplit; [done|]. iFrame "Hσ". by iApply "Hk".
Qed.

Lemma run_halt {A} (Φ : A → iProp Σ) : ⊢ RUN Halt {{ Φ }}.
Proof.
  iLöb as "IH". iApply run_lift; [done|]. iIntros (σ) "Hσ".
  iApply fupd_mask_intro; [set_solver|]. iIntros "Hclose". iSplit.
  { iPureIntro. do 2 eexists. apply step_halt. }
  iIntros "!>" (es p' m' Hst). inversion Hst; subst. iMod "Hclose" as "_". iModIntro. iSplit; [done|]. by iFrame "Hσ".
Qed.

(** ** Locks *)

(** The lock byte at [a] and, while the byte is clear, the resource [R] that
    the lock protects. *)
Definition is_lock (a : Z) (R : iProp Σ) : iProp Σ :=
  inv (nroot .@ "lock" .@ a) (∃ m, bytes {[a]} m ∗ (⌜rd m a ≠ 0⌝ ∨ ⌜rd m a = 0⌝ ∗ R)).

Global Instance is_lock_persistent a R : Persistent (is_lock a R).
Proof. apply _. Qed.

Lemma is_lock_alloc a R m E :
  rd m a = 0 → bytes {[a]} m -∗ R ={E}=∗ is_lock a R.
Proof.
  iIntros (E0) "Ha HR". iApply inv_alloc. iNext. iExists m. iFrame "Ha". iRight. by iFrame.
Qed.

Lemma bytes_lock_byte a m σ :
  mem_interp σ -∗ bytes {[a]} m -∗ ⌜mapped a = true ∧ rd σ a = rd m a⌝.
Proof.
  iIntros "Hσ Ha". iDestruct (bytes_agree with "Hσ Ha") as %Hag. iPureIntro.
  apply Hag. set_solver.
Qed.

Lemma run_lock {A} a R (k : prog A) Φ :
  is_lock a R -∗ (R -∗ RUN k {{ Φ }}) -∗ RUN Lock a k {{ Φ }}.
Proof.
  iIntros "#Hl Hk". iLöb as "IH". iApply run_lift; [done|]. iIntros (σ) "Hσ".
  iInv "Hl" as (m) "[>Ha HR]" "Hclose".
  iDestruct (bytes_lock_byte with "Hσ Ha") as %[Hm Hrd].
  iApply fupd_mask_intro; [set_solver|]. iIntros "Hmask". iSplit.
  { iPureIntro. do 2 eexists. by apply step_lock, test_and_set_run. }
  iIntros "!>" (es p' m' Hst). inversion Hst as [| |? ? ? held ? E| | |]; subst.
  rewrite test_and_set_run in E; [|done]. injection E as <- <-. rewrite Hrd.
  iMod (bytes_insert _ _ _ a 1 with "Hσ Ha") as "[$ Ha]"; [set_solver|].
  iMod "Hmask" as "_". iDestruct "HR" as "[%Hne|[%He HR]]".
  - iMod ("Hclose" with "[Ha]") as "_".
    { iNext. iExists _. iFrame "Ha". iLeft. by rewrite rd_insert decide_True. }
    rewrite (proj2 (Z.eqb_neq _ _)) //. iModIntro. iSplit; [done|]. by iApply "IH".
  - iMod ("Hclose" with "[Ha]") as "_".
    { iNext. iExists _. iFrame "Ha". iLeft. by rewrite rd_insert decide_True. }
    rewrite He. iModIntro. iSplit; [done|]. by iApply "Hk".
Qed.

Lemma run_unlock {A} a R (k : prog A) Φ :
  is_lock a R -∗ R -∗ ▷ RUN k {{ Φ }} -∗ RUN Unlock a k {{ Φ }}.
Proof.
  iIntros "#Hl HR Hk". iApply run_lift; [done|]. iIntros (σ) "Hσ".
  iInv "Hl" as (m) "[>Ha _]" "Hclose".
  iDestruct (bytes_lock_byte with "Hσ Ha") as %[Hm Hrd].
  iApply fupd_mask_intro; [set_solver|]. iIntros "Hmask". iSplit.
  { iPureIntro. do 2 eexists. by apply step_unlock, spin_unlock_run. }
  iIntros "!>" (es p' m' Hst). inversion Hst as [| | |? ? ? ? E| |]; subst.
  rewrite spin_unlock_run in E; [|done]. injection E as <-.
  iMod (bytes_insert _ _ _ a 0 with "Hσ Ha") as "[$ Ha]"; [set_solver|].
  iMod "Hmask" as "_". iMod ("Hclose" with "[Ha HR]") as "_".
  { iNext. iExists _. iFrame "Ha". iRight. iFrame "HR". by rewrite rd_insert decide_True. }
  iModIntro. by iSplit.
Qed.

(** ** One access as a piece of code *)

(** The 64-bit word at [a] holds [v]. *)
Definition word (a v : Z) : iProp Σ := ∃ m, ⌜rd64 m a = v⌝ ∗ bytes (span a 8) m.

Global Instance word_timeless a v : Timeless (word a v).
Proof. apply _. Qed.

Lemma word_range a v : word a v -∗ ⌜0 ≤ v < 2 ^ 64⌝.
Proof. iIntros "(%m & <- & _)". iPureIntro. apply rd64_range. Qed.

Lemma word_split a n m :
  8 ≤ n → bytes (span a n) m -∗ word a (rd64 m a) ∗ bytes (span (a + 8) (n - 8)) m.
Proof.
  iIntros (Hn) "H". destruct (span_split a n 8) as [-> Hd]; [lia|].
  iDestruct (bytes_union with "H") as "[H1 $]"; [done|]. iExists m. by iFrame.
Qed.

Lemma word_join a v n m :
  8 ≤ n → word a v -∗ bytes (span (a + 8) (n - 8)) m -∗ ∃ m', bytes (span a n) m'.
Proof.
  iIntros (Hn) "(%m1 & _ & H1) H2". destruct (span_split a n 8) as [-> Hd]; [lia|].
  iExists _. by iApply (bytes_join with "H1 H2").
Qed.

Lemma run_ld a v Φ : word a v -∗ (word a v -∗ Φ v) -∗ RUN ld a {{ Φ }}.
Proof.
  iIntros "(%m & <- & H) HΦ". iApply (run_load with "H"); [done|]. iIntros "!> H".
  iApply run_ret. iApply "HΦ". iExists m. by iFrame.
Qed.

Lemma run_st a w v Φ :
  0 ≤ v < 2 ^ 64 → word a w -∗ (word a v -∗ Φ tt) -∗ RUN st a v {{ Φ }}.
Proof.
  iIntros (Hv) "(%m & _ & H) HΦ". iApply (run_store with "H"); [done|]. iIntros "!> H".
  iApply run_ret. iApply "HΦ". iExists _. iFrame "H". iPureIntro. by apply rd64_wr64_eq.
Qed.

Lemma run_acquire a R Φ : is_lock a R -∗ (R -∗ Φ tt) -∗ RUN do_lock a {{ Φ }}.
Proof.
  iIntros "Hl HΦ". iApply (run_lock with "Hl"). iIntros "HR". iApply run_ret. by iApply "HΦ".
Qed.

Lemma run_release a R Φ : is_lock a R -∗ R -∗ Φ tt -∗ RUN do_unlock a {{ Φ }}.
Proof. iIntros "Hl HR HΦ". iApply (run_unlock with "Hl HR"). by iApply run_ret. Qed.

(** ** Critical sections *)

(** The memory of a core that holds a lock: the bytes [D] that the lock
    protects.  Address -1, which no 64-bit access can reach, stands for the lock
    byte. *)
Definition local_space (D : gset Z) : AddressSpace := λ x, bool_decide (x ∈ D) || (x =? -1).
Definition local_lock : Z → Z := λ _, -1.

Lemma local_span D a n :
  (∀ x, x ∈ D → 8 ≤ x) → 2 ≤ n → @mapped_range (local_space D) a n → span a n ⊆ D.
Proof.
  intros HD Hn Hm. assert (∀ x, a ≤ x < a + n → x ∈ D ∨ x = -1) as Hin.
  { intros x Hx%Hm. unfold mapped, local_space in Hx. apply orb_prop in Hx as [?|?%Z.eqb_eq];
      [left; by eapply bool_decide_eq_true_1|by right]. }
  intros x Hx%elem_of_span. destruct (Hin x Hx) as [| ->]; [done|exfalso].
  destruct (decide (-1 = a)) as [<-|].
  - destruct (Hin 0) as [H0%HD|]; lia.
  - destruct (Hin (-2)) as [H0%HD|]; lia.
Qed.

(** Code that, run alone on the memory a lock protects, ends with result [v]
    and memory [m'], does so on the machine when it runs between lock() and
    unlock(). *)
Lemma run_section {A} (p : prog A) a D m v m' R Q :
  section a p → (∀ x, x ∈ D → 8 ≤ x) → @exec (local_space D) _ local_lock p m = Some (v, m') →
  is_lock a R -∗ bytes D m -∗ (bytes D m' ={⊤}=∗ R ∗ Q) -∗ RUN p {{ x, ⌜x = v⌝ ∗ Q }}.
Proof.
  iIntros (Hsec HD Hex) "#Hl HD Hpost".
  iInduction p as [x|b k|b w k|b k|b k|e k| |] "IH" forall (m Hsec Hex); simpl in Hsec, Hex; try done.
  - apply bind_run_inv in Hex as (w & m1 & E & Hex). unfold load64 in E. case_match eqn:Em; [|done].
    injection E as <- <-. apply (@all_mapped_spec (local_space D)), local_span in Em; [|done..].
    iApply (run_load with "HD"); [done|]. iIntros "!> HD".
    iApply ("IH" with "[%] [%] HD Hpost"); done.
  - apply bind_run_inv in Hex as ([] & m1 & E & Hex). unfold store64 in E. case_match eqn:Em; [|done].
    injection E as <-. apply (@all_mapped_spec (local_space D)), local_span in Em; [|done..].
    iApply (run_store with "HD"); [done|]. iIntros "!> HD".
    iApply ("IH" with "[%] [%] HD Hpost"); done.
  - destruct Hsec as (-> & x & ->). apply bind_run_inv in Hex as ([] & m1 & E & Hex).
    unfold spin_unlock, store8 in E. case_match; [|done]. injection E as <-.
    injection Hex as <- <-. iMod ("Hpost" with "[HD]") as "[HR HQ]".
    { iApply (bytes_ext with "HD"). intros y Hy. rewrite rd_insert decide_False //.
      unfold local_lock. apply HD in Hy. lia. }
    iApply (run_unlock with "Hl HR"). iNext. iApply run_ret. by iFrame.
Qed.
End Logic.

(** ** What a proof in the logic says about the machine *)

Lemma big_sepL2_imap {PROP : bi} {A B C} (f : nat → A → B) (g : nat → A → C) (Ψ : B → C → PROP) l :
  ([∗ list] i ↦ x ∈ l, Ψ (f i x) (g i x)) -∗ [∗ list] y;z ∈ imap f l;imap g l, Ψ y z.
Proof.
  revert f g. induction l as [|x l IH]; intros f g; simpl; [by iIntros "_"|].
  iIntros "[$ H]". by iApply (IH (f ∘ S) (g ∘ S)).
Qed.

Class machGpreS (Σ : gFunctors) := MachGpreS {
  mach_preG_inv :: invGpreS Σ;
  mach_preG_heap :: gen_heapGpreS Z Z Σ;
  mach_preG_log :: ghost_varG Σ (list event);
}.

Definition machΣ : gFunctors := #[invΣ; gen_heapΣ Z Z; ghost_varΣ (list event)].

Global Instance subG_machΣ {Σ} : subG machΣ Σ → machGpreS Σ.
Proof. solve_inG. Qed.

Section Adequacy.
Context {AS : AddressSpace} {A : Type}.

Lemma machine_step_lang (c c' : list (prog A) * mem) es :
  machine_step c es c' → @language.step (prog_lang AS A) c es c'.
Proof.
  destruct 1 as [ts i p m es p' m' Hi Hst].
  rewrite insert_take_drop; [|by eapply lookup_lt_Some].
  rewrite -{1}(take_drop_middle ts i p Hi).
  eapply (step_atomic (Λ := prog_lang AS A) p m p' m' []); [done| |by split].
  by rewrite app_nil_r.
Qed.

Lemma machine_steps_nsteps (c c' : list (prog A) * mem) es :
  machine_steps c es c' → ∃ n, @language.nsteps (prog_lang AS A) n c es c'.
Proof.
  induction 1 as [c|c1 es1 c2 es2 c3 Hs _ [n IH]]; [exists 0%nat; constructor|].
  exists (S n). econstructor; [by apply machine_step_lang|done].
Qed.

Lemma machine_steps_length (c c' : list (prog A) * mem) es :
  machine_steps c es c' → length c'.1 = length c.1.
Proof.
  induction 1 as [|c1 es1 c2 es2 c3 Hs _ IH]; [done|]. rewrite IH.
  destruct Hs. simpl. apply length_insert.
Qed.

Lemma not_stuck_machine (p : prog A) m :
  @not_stuck (prog_lang AS A) p m → ¬ faulted p m.
Proof.
  intros [[x Hx]|(κ & p' & m' & efs & _ & Hst)] [Hd Hs].
  - destruct p; simpl in Hx; simplify_eq. by eapply Hd.
  - by eapply Hs.
Qed.

(** The bytes [D] are handed to a proof that every core runs, which gives that
    no core ever faults, and whatever follows from the postconditions of the cores
    that are done and the events reported. *)
Theorem machine_adequacy Σ `{!machGpreS Σ} (D : gset Z) (ts ts' : list (prog A)) m es m' (φ : Prop) :
  (∀ x, x ∈ D → mapped x = true) →
  (∀ `{!machGS AS Σ}, bytes D m -∗ reported [] ={⊤}=∗ ∃ Φs : list (A → iProp Σ),
    ([∗ list] p;Φ ∈ ts;Φs, RUN p {{ Φ }}) ∗
    (([∗ list] p;Φ ∈ ts';Φs, from_option Φ True (prog_val p)) -∗ reported es ={⊤,∅}=∗ ⌜φ⌝)) →
  machine_steps (ts, m) es (ts', m') →
  (∀ p, p ∈ ts' → ¬ faulted p m') ∧ φ.
Proof.
  intros HD Hruns Hr. pose proof (machine_steps_length _ _ _ Hr) as Hts. simpl in Hts.
  apply machine_steps_nsteps in Hr as (n & Hn).
  eapply (wp_strong_adequacy Σ (prog_lang AS A) NotStuck ts m n es ts' m' _ (λ _, 0%nat));
    [|exact Hn].
  iIntros (Hinv). iMod (gen_heap_init (view D m)) as (Hheap) "(Hs & HD & _)".
  iMod (ghost_var_alloc ([] : list event)) as (γ) "[Hlog Hlog']".
  set (G := MachGS AS Σ Hinv Hheap _ es γ).
  iMod (Hruns G with "[HD] Hlog'") as (Φs) "[Hruns Hpost]"; [by iApply bytes_view|].
  iModIntro. iExists (λ σ _ es _, mach_interp σ es), Φs, (λ _, True%I), _.
  iFrame "Hruns". iSplitL "Hs Hlog".
  { iSplitL "Hs"; [|iExists []; by iFrame "Hlog"].
    iExists _. iFrame "Hs". iPureIntro. intros a b [Ha ->]%lookup_view. split; [by apply HD|done]. }
  iIntros (es' t2' -> Hlen Hns) "[_ (%log & %Hlog & Hlog)] Hend _".
  cbn in es', t2', Hlen, Hts, Hlog. rewrite app_nil_r in Hlog. subst log.
  rewrite length_app in Hts. assert (t2' = []) as -> by (apply nil_length_inv; lia).
  rewrite app_nil_r in Hns |- *. iMod ("Hpost" with "Hend Hlog") as %Hφ. iPureIntro.
  split; [|done]. intros p Hp. by apply not_stuck_machine, Hns.
Qed.
End Adequacy.
