(* ===== verification/HeapCores.v ===== *)
(** * The heap shared by cores

    [malloc] and [free] called by any number of cores at once.  The allocator's
    lock protects the tags and the free blocks; the payload of a block belongs to
    the core that got it from [malloc], together with the right to [free] it.
    The proofs take the runs of [HeapCorrect], which need no other memory than
    that, through [run_section]. *)

From iris.proofmode Require Import proofmode.
From iris.base_logic.lib Require Import ghost_map.
From S2P Require Import Machine MachineLogic Prelude Memory Spinlock Heap HeapInv HeapCorrect HeapProps.

Local Open Scope Z_scope.
Local Open Scope machine_scope.

(** The payload bytes of the blocks [L]. *)
Definition live_dom (L : gmap Z Z) : gset Z :=
  ⋃ ((λ pn, span pn.1 pn.2) <$> map_to_list L).

Lemma elem_of_live_dom x L : x ∈ live_dom L ↔ in_live L x.
Proof.
  unfold live_dom. rewrite elem_of_union_list. split.
  - intros (X & ([p n] & -> & Hin)%list_elem_of_fmap & Hx). simpl in Hx.
    apply elem_of_map_to_list in Hin. apply elem_of_span in Hx. by exists p, n.
  - intros (p & n & Hp & Hx). exists (span p n). split; [|by apply elem_of_span].
    apply list_elem_of_fmap. exists (p, n). split; [done|]. by apply elem_of_map_to_list.
Qed.

Section Layout.
Context {AS : AddressSpace} {LAY : HeapLayout}.

(** The allocator's own bytes while the blocks [L] are in use. *)
Definition own_dom_def (L : gmap Z Z) : gset Z := span g_arena kArenaSize ∖ live_dom L.
Definition own_dom_aux : seal own_dom_def.
Proof. by eexists. Qed.
Definition own_dom : gmap Z Z → gset Z := own_dom_aux.(unseal).

Lemma elem_of_own_dom x L :
  x ∈ own_dom L ↔ g_arena ≤ x < g_arena + kArenaSize ∧ ¬ in_live L x.
Proof.
  rewrite /own_dom own_dom_aux.(seal_eq) /own_dom_def.
  by rewrite elem_of_difference elem_of_span elem_of_live_dom.
Qed.

Lemma arena_ge : 16 ≤ g_arena.
Proof. pose proof g_arena_fits. pose proof g_arena_aligned. unfold kAlignment in *. dlia. Qed.

Lemma own_dom_ge L x : x ∈ own_dom L → 8 ≤ x.
Proof. pose proof arena_ge. intros [? _]%elem_of_own_dom. lia. Qed.

(** The arena as the code under the lock sees it. *)
Program Definition local_layout (D : gset Z) : @ArenaLayout (local_space D) :=
  {| g_arena := g_arena; g_lock := -1 |}.
Next Obligation. intros D. apply g_arena_aligned. Qed.
Next Obligation. intros D. apply g_arena_fits. Qed.
Next Obligation. intros D. unfold mapped, local_space. by rewrite orb_true_r. Qed.
Next Obligation. intros D. pose proof arena_ge. left. lia. Qed.

(** The blocks [bs] in memory, with the lock free. *)
Definition heap_local (m : mem) (bs : list blk) : Prop :=
  tiled m g_arena bs (g_arena + kArenaSize) ∧ coalesced bs ∧ rd m (-1) = 0.

Lemma heap_local_total m bs : heap_local m bs → Forall blk_ok bs ∧ total bs = kArenaSize.
Proof. intros (Ht & _). split; [by eapply tiled_ok|]. apply tiled_end in Ht. lia. Qed.

Lemma private_own_dom m bs x :
  heap_local m bs → is_tag g_arena bs x ∨ in_free g_arena bs x →
  x ∈ own_dom (live g_arena bs).
Proof.
  intros [Hok Htot]%heap_local_total Hx. apply elem_of_own_dom. rewrite -Htot.
  destruct Hx as [Hx|Hx]; (split; [|intros Hl]).
  - by apply is_tag_bounds.
  - by eapply live_not_tag.
  - by apply in_free_bounds.
  - by eapply live_not_free.
Qed.

Lemma local_reachable m bs D :
  heap_local m bs → own_dom (live g_arena bs) ⊆ D →
  @reachable (local_space D) g_arena bs.
Proof.
  intros Hm HD x Hx. unfold mapped, local_space. rewrite bool_decide_eq_true_2 //.
  by eapply HD, private_own_dom.
Qed.

(** The code after its lock() starts with the lock byte set. *)
Lemma exec_lock {A} D a (k : prog A) m r :
  rd m (-1) = 0 → @exec (local_space D) _ local_lock (Lock a k) m = r →
  @exec (local_space D) _ local_lock k (<[-1 := 1]> m) = r.
Proof.
  intros Hm <-. cbn [exec]. erewrite (bind_run (spin_lock _)); [done|].
  apply spin_lock_run; [|done]. unfold mapped, local_space. by rewrite orb_true_r.
Qed.

(** [malloc] after its lock(), on the memory the lock protects. *)
Lemma malloc_local m bs size :
  heap_local m bs → 0 < size ≤ 2 ^ 64 - 48 →
  ∃ p m', @exec (local_space (own_dom (live g_arena bs))) _ local_lock
      (malloc_loop_code g_arena g_lock malloc_fuel g_arena
        (align_up size kAlignment +₆₄ 2 * kTagSize)) (<[-1 := 1]> m) = Some (p, m') ∧
    ((p = 0 ∧ heap_local m' bs) ∨
     ∃ bs', acquire g_arena (block_bytes size) bs = Some (p, bs') ∧ heap_local m' bs').
Proof.
  intros Hm Hsize. destruct (block_bytes_ok size Hsize) as (En & H32 & Hm16 & _).
  set (D := own_dom (live g_arena bs)).
  pose proof (@malloc_run_reachable _ (local_layout D) m bs size _
    (local_reachable m bs D Hm ltac:(done)) Hm ltac:(lia) En H32 Hm16) as Hrun.
  assert (∀ r, @malloc _ (local_layout D) size m = r → @exec (local_space D) _ local_lock
      (malloc_loop_code g_arena g_lock malloc_fuel g_arena
        (align_up size kAlignment +₆₄ 2 * kTagSize)) (<[-1 := 1]> m) = r) as Hex.
  { intros r <-. eapply exec_lock; [apply Hm|].
    rewrite -(@malloc_agrees _ (local_layout D) local_lock g_lock eq_refl size m).
    unfold malloc_code. rewrite (proj2 (Z.eqb_neq size 0)); [done|lia]. }
  change (@g_arena _ (local_layout D)) with g_arena in Hrun.
  destruct (acquire g_arena (block_bytes size) bs) as [[p bs']|]; destruct Hrun as (m' & E & Hm' & _).
  - exists p, m'. split; [by apply Hex|]. right. by exists bs'.
  - exists 0, m'. split; [by apply Hex|]. by left.
Qed.

Lemma acquired_block m bs needed p bs' :
  heap_local m bs → 32 ≤ needed → acquire g_arena needed bs = Some (p, bs') →
  ∃ cap, needed - 2 * kTagSize ≤ cap ∧ p mod 16 = 0 ∧ 0 < p ∧ p + cap < 2 ^ 64 ∧
    live g_arena bs !! p = None ∧ live g_arena bs' = <[p := cap]> (live g_arena bs) ∧
    span p cap ⊆ own_dom (live g_arena bs).
Proof.
  intros Hm Hn Ea. destruct (heap_local_total _ _ Hm) as [Hok Htot].
  destruct (acquire_live _ _ _ _ _ Hok Ea) as (cap & Hcap & Hnone & Hl & Hx).
  pose proof g_arena_aligned. pose proof g_arena_fits.
  pose proof (acquire_ge _ _ _ _ _ Hok Ea). pose proof (acquire_aligned _ _ _ _ _ Hok ltac:(done) Ea).
  exists cap. hunfold. split_and!; [lia|done|lia| |done|done|].
  - pose proof (in_free_bounds _ _ (p + cap + 15) Hok ltac:(apply Hx; lia)). lia.
  - intros x Hin%elem_of_span. eapply private_own_dom; [done|]. right. apply Hx. lia.
Qed.

Lemma own_dom_insert L p n :
  L !! p = None → span p n ⊆ own_dom L →
  own_dom L = own_dom (<[p := n]> L) ∪ span p n ∧ own_dom (<[p := n]> L) ## span p n.
Proof.
  intros Hp Hs. assert (∀ x, in_live (<[p := n]> L) x ↔ p ≤ x < p + n ∨ in_live L x) as Hin.
  { intros x. split.
    - intros (q & k & Hq & Hx). apply lookup_insert_Some in Hq as [[<- <-]|[_ Hq]]; [by left|].
      right. by exists q, k.
    - intros [Hx|(q & k & Hq & Hx)]; [exists p, n; by rewrite lookup_insert_eq|].
      exists q, k. rewrite lookup_insert_ne //. congruence. }
  split.
  - apply set_eq. intros x. rewrite elem_of_union !elem_of_own_dom elem_of_span Hin.
    pose proof (Hs x) as Hx. rewrite elem_of_span elem_of_own_dom in Hx.
    destruct (decide (p ≤ x < p + n)); tauto.
  - apply elem_of_disjoint. intros x [_ Hx]%elem_of_own_dom Hx'%elem_of_span.
    apply Hx, Hin. by left.
Qed.

(** Writes to a payload in use do not disturb the allocator. *)
Lemma heap_local_overlay m bs p n mp :
  heap_local m bs → live g_arena bs !! p = Some n →
  heap_local (overlay m (span p n) mp) bs.
Proof.
  intros Hm Hp. destruct (heap_local_total _ _ Hm) as [Hok _].
  pose proof (live_bounds _ _ _ _ Hok Hp). pose proof arena_ge.
  destruct Hm as (Ht & Hc & Hl). split_and!; [|done|].
  - eapply tiled_frame; [done|]. intros x Hx. rewrite rd_overlay decide_False //.
    intros Hin%elem_of_span. eapply live_not_tag; [done| |done]. by exists p, n.
  - rewrite rd_overlay decide_False //. intros Hin%elem_of_span. hunfold. lia.
Qed.

Lemma own_dom_delete L p n :
  L !! p = Some n → (∀ x, p ≤ x < p + n → g_arena ≤ x < g_arena + kArenaSize ∧ ¬ in_live (delete p L) x) →
  own_dom (delete p L) = own_dom L ∪ span p n ∧ own_dom L ## span p n.
Proof.
  intros Hp Hs. rewrite -{2 3}(insert_delete_id L p n Hp).
  apply own_dom_insert; [by rewrite lookup_delete_eq|].
  intros x Hx%elem_of_span. by apply elem_of_own_dom, Hs.
Qed.

Lemma freed_block m bs p n :
  heap_local m bs → live g_arena bs !! p = Some n →
  own_dom (delete p (live g_arena bs)) = own_dom (live g_arena bs) ∪ span p n ∧
  own_dom (live g_arena bs) ## span p n ∧ 0 < p < 2 ^ 64.
Proof.
  intros Hm Hp. destruct (heap_local_total _ _ Hm) as [Hok Htot].
  pose proof (live_bounds _ _ _ _ Hok Hp). pose proof g_arena_fits. hunfold.
  rewrite and_assoc. split; [|lia]. apply own_dom_delete; [done|]. intros x Hx. split; [lia|].
  intros (q & k & [Hne Hq]%lookup_delete_Some & Hxq).
  destruct (live_disjoint _ _ _ _ _ _ Hok Hp Hq Hne); lia.
Qed.

(** [free] after its lock(), on the memory the lock protects and the payload. *)
Lemma free_local m bs p n :
  heap_local m bs → live g_arena bs !! p = Some n →
  ∃ m' bs', @exec (local_space (own_dom (delete p (live g_arena bs)))) _ local_lock
      (free_section g_arena g_lock p) (<[-1 := 1]> m) = Some (tt, m') ∧
    live g_arena bs' = delete p (live g_arena bs) ∧ heap_local m' bs'.
Proof.
  intros Hm Hp. destruct (heap_local_total _ _ Hm) as [Hok _].
  destruct (freed_block _ _ _ _ Hm Hp) as (HD & _ & Hpos).
  set (D := own_dom (delete p (live g_arena bs))) in *.
  destruct (@free_run_reachable _ (local_layout D) m bs p n) as (m' & bs' & E & Er & Hm' & _).
  { eapply local_reachable; [done|]. rewrite HD. set_solver. }
  { exact Hm. }
  { exact Hp. }
  exists m', bs'. split; [|split; [by eapply release_live|exact Hm']].
  eapply exec_lock; [apply Hm|]. rewrite -E.
  rewrite -(@free_agrees _ (local_layout D) local_lock g_lock eq_refl p m).
  unfold free_code. rewrite (proj2 (Z.eqb_neq p 0)); [done|lia].
Qed.
End Layout.

(** ** The allocator's promise to the cores *)

Class heapGS (AS : AddressSpace) (Σ : gFunctors) := HeapGS {
  heap_machGS :: machGS AS Σ;
  heap_blocksG :: ghost_mapG Σ Z Z;
  heap_blocks : gname;
}.

Section Spec.
Context {AS : AddressSpace} {LAY : HeapLayout} `{!heapGS AS Σ}.

(** The payload at [p], of [n] bytes, is in use by whoever owns this. *)
Definition block (p n : Z) : iProp Σ := p ↪[heap_blocks] n.

Definition heap_res : iProp Σ :=
  ∃ m bs, ⌜heap_local m bs⌝ ∗ bytes (own_dom (live g_arena bs)) m ∗
    ghost_map_auth heap_blocks 1 (live g_arena bs).

Definition is_heap : iProp Σ := is_lock g_lock heap_res.

(** What [malloc] of [size] bytes returns: [nullptr], or a block. *)
Definition malloc_post (size p : Z) : iProp Σ :=
  ⌜p = 0⌝ ∨ ∃ cap m, ⌜size ≤ cap ∧ p mod 16 = 0 ∧ 0 < p ∧ p + cap < 2 ^ 64⌝ ∗
    block p cap ∗ bytes (span p cap) m.

(** [malloc], called by any core, at any time. *)
Lemma run_malloc size Φ :
  0 < size ≤ 2 ^ 64 - 48 →
  is_heap -∗ (∀ p, malloc_post size p -∗ Φ p) -∗ RUN malloc_code g_arena g_lock size {{ Φ }}.
Proof.
  iIntros (Hsize) "#Hheap HΦ". unfold malloc_code. rewrite (proj2 (Z.eqb_neq _ _)); [|lia].
  iApply (run_lock with "Hheap"). iIntros "(%m & %bs & %Hm & HD & Hauth)".
  destruct (malloc_local m bs size Hm Hsize) as (p & m' & Hex & Hres).
  iApply (run_wand with "[HD Hauth]").
  { iApply (run_section _ _ _ _ _ _ _ (malloc_post size p) with "Hheap [HD]").
    - apply malloc_loop_section.
    - apply own_dom_ge.
    - exact Hex.
    - iApply (bytes_ext with "HD"). intros x Hx%own_dom_ge. rewrite rd_insert decide_False //. lia.
    - iIntros "HD". destruct Hres as [[-> Hm']|(bs' & Ea & Hm')].
      + iModIntro. iSplitL; [|by iLeft]. iExists m', bs. by iFrame.
      + destruct (block_bytes_ok size Hsize) as (_ & H32 & _ & Hsz).
        destruct (acquired_block _ _ _ _ _ Hm H32 Ea)
          as (cap & Hcap & Hmod & Hp & Hend & Hnone & Hl & Hspan).
        iMod (ghost_map_insert p cap with "Hauth") as "[Hauth Hb]"; [done|].
        destruct (own_dom_insert _ _ _ Hnone Hspan) as [-> Hdisj].
        iDestruct (bytes_union with "HD") as "[HD Hp]"; [done|]. iModIntro.
        iSplitL "HD Hauth"; [iExists m', bs'; rewrite Hl; by iFrame|].
        iRight. iExists cap, m'. iFrame. iPureIntro. hunfold. lia. }
  iIntros (x) "[-> Hpost]". by iApply "HΦ".
Qed.
(** [free] of a block by the core that owns it. *)
Lemma run_free p n mp Φ :
  0 < p → is_heap -∗ block p n -∗ bytes (span p n) mp -∗ Φ tt -∗
  RUN free_code g_arena g_lock p {{ Φ }}.
Proof.
  iIntros (Hpos) "#Hheap Hb Hp HΦ". unfold free_code. rewrite (proj2 (Z.eqb_neq _ _)); [|lia].
  iApply (run_lock with "Hheap"). iIntros "(%m & %bs & %Hm & HD & Hauth)".
  iDestruct (ghost_map_lookup with "Hauth Hb") as %Hlive.
  destruct (freed_block _ _ _ _ Hm Hlive) as (HD & Hdisj & _).
  pose proof (heap_local_overlay m bs p n mp Hm Hlive) as Hm1.
  destruct (free_local _ bs p n Hm1 Hlive) as (m' & bs' & Hex & Hl & Hm').
  iApply (run_wand with "[HD Hp Hb Hauth]").
  { iApply (run_section _ _ _ _ _ _ _ True with "Hheap [HD Hp]").
    - apply free_section_section.
    - apply own_dom_ge.
    - exact Hex.
    - iApply (bytes_ext _ (overlay m (span p n) mp)).
      { intros x Hx%own_dom_ge. rewrite rd_insert decide_False //. lia. }
      rewrite HD. by iApply (bytes_join with "HD Hp").
    - iIntros "HD". iMod (ghost_map_delete with "Hauth Hb") as "Hauth".
      iModIntro. iSplit; [|done]. iExists m', bs'. rewrite Hl. by iFrame. }
  by iIntros ([]) "_".
Qed.

(** [operator new]: a block, or the core halts. *)
Lemma run_operator_new size Φ :
  0 < size ≤ 2 ^ 64 - 48 →
  is_heap -∗
  (∀ p cap m, ⌜size ≤ cap ∧ p mod 16 = 0 ∧ 0 < p ∧ p + cap < 2 ^ 64⌝ -∗
    block p cap -∗ bytes (span p cap) m -∗ Φ p) -∗
  RUN operator_new_code g_arena g_lock size {{ Φ }}.
Proof.
  iIntros (Hsize) "#Hheap HΦ". unfold operator_new_code. iApply run_bind.
  iApply (run_malloc with "Hheap"); [done|]. iIntros (p) "[->|Hp]"; [iApply run_halt|].
  iDestruct "Hp" as (cap m) "(%Hp & Hb & Hm)". rewrite (proj2 (Z.eqb_neq _ _)); [|lia].
  iApply run_ret. by iApply ("HΦ" with "[//] Hb Hm").
Qed.
End Spec.

(** ** From the memory at the start to the invariant *)

(** Pairwise disjoint regions of memory, each with its address and size. *)
Fixpoint apart (rs : list (Z * Z)) : Prop :=
  match rs with
  | [] => True
  | (a, n) :: rs' => Forall (λ r, a + n ≤ r.1 ∨ r.1 + r.2 ≤ a) rs' ∧ apart rs'
  end.

Definition regions_dom (rs : list (Z * Z)) : gset Z := ⋃ ((λ r, span r.1 r.2) <$> rs).

Lemma elem_of_regions_dom x rs :
  x ∈ regions_dom rs ↔ ∃ r, r ∈ rs ∧ r.1 ≤ x < r.1 + r.2.
Proof.
  unfold regions_dom. rewrite elem_of_union_list. setoid_rewrite list_elem_of_fmap.
  split.
  - intros (X & (r & -> & Hr) & Hx%elem_of_span). by exists r.
  - intros (r & Hr & Hx). exists (span r.1 r.2). split; [by exists r|by apply elem_of_span].
Qed.

Section Start.
Context {AS : AddressSpace} {LAY : HeapLayout}.

Lemma bytes_regions `{!machGS AS Σ} rs m :
  apart rs → bytes (regions_dom rs) m -∗ [∗ list] r ∈ rs, bytes (span r.1 r.2) m.
Proof.
  induction rs as [|[a n] rs IH]; simpl; [by iIntros "_ _"|]. iIntros ([Ha Hrs]) "H".
  iDestruct (bytes_union with "H") as "[$ H]"; [|by iApply IH].
  apply elem_of_disjoint. intros x Hx%elem_of_span (r & Hr & Hx')%elem_of_regions_dom.
  rewrite Forall_forall in Ha. destruct (Ha r Hr); simpl in *; lia.
Qed.

(** The heap's lock guards what the heap owns of the arena. *)
Lemma heap_start `{!machGS AS Σ, !ghost_mapG Σ Z Z} m bs :
  heap_rep m bs → bytes (span g_arena kArenaSize) m -∗ bytes (span g_lock 1) m ={⊤}=∗
  ∃ γ, let _ : heapGS AS Σ := HeapGS AS Σ _ _ γ in is_heap.
Proof.
  iIntros (Hm) "Ha Hl". iMod (ghost_map_alloc (live g_arena bs)) as (γ) "[Hauth _]".
  iExists γ. pose proof Hm as (Ht & Hc & Hl0). iApply (is_lock_alloc with "[Hl]"); [exact Hl0|..].
  { replace (span g_lock 1) with ({[g_lock]} : gset Z); [done|].
    apply set_eq. intros x. rewrite elem_of_span elem_of_singleton. lia. }
  pose proof arena_ge.
  assert (heap_local (<[-1 := 0]> m) bs) as Hloc.
  { split_and!; [|done|by rewrite rd_insert].
    eapply tiled_same_on; [done|]. intros x Hx. rewrite rd_insert decide_False //. lia. }
  iExists _, bs. iFrame "Hauth". iSplit; [done|].
  iAssert (bytes (own_dom (live g_arena bs)) m) with "[Ha]" as "HD".
  { iApply (bytes_subset with "Ha"). intros x [Hx _]%elem_of_own_dom. by apply elem_of_span. }
  iApply (bytes_ext with "HD"). intros x Hx%own_dom_ge. rewrite rd_insert decide_False //. lia.
Qed.
End Start.

(** ** Cores that use the heap

    A core allocates blocks, writes a word to each, checks that the blocks it
    holds still have what it wrote, and frees blocks. *)

Inductive heap_op := HMalloc (size v : Z) | HCheck | HFree (i : nat).

Section Clients.
Context {AS : AddressSpace} {LAY : HeapLayout}.

Fixpoint check_held (held : list (Z * Z)) : prog bool :=
  match held with
  | [] => mret true
  | (p, v) :: held' => w ← ld p; b ← check_held held'; mret ((w =? v) && b)
  end.

(** [held]: the blocks this core has, and what it wrote there. *)
Fixpoint heap_script (held : list (Z * Z)) (ops : list heap_op) : prog (list bool) :=
  match ops with
  | [] => mret []
  | HMalloc size v :: ops' =>
      p ← malloc_code g_arena g_lock size;
      if p =? 0 then heap_script held ops' else st p v ;; heap_script ((p, v) :: held) ops'
  | HCheck :: ops' =>
      b ← check_held held;
      bs ← heap_script held ops';
      mret (b :: bs)
  | HFree i :: ops' =>
      match held !! i with
      | Some (p, _) => free_code g_arena g_lock p ;; heap_script (delete i held) ops'
      | None => heap_script held ops'
      end
  end.

Definition heap_op_ok (o : heap_op) : Prop :=
  match o with HMalloc size v => 8 ≤ size ≤ 2 ^ 64 - 48 ∧ 0 ≤ v < 2 ^ 64 | _ => True end.

Definition held_block `{!heapGS AS Σ} (pv : Z * Z) : iProp Σ :=
  ∃ cap m, ⌜8 ≤ cap ∧ 0 < pv.1⌝ ∗ block pv.1 cap ∗ word pv.1 pv.2 ∗
    bytes (span (pv.1 + 8) (cap - 8)) m.

Lemma run_check_held `{!heapGS AS Σ} held Φ :
  ([∗ list] pv ∈ held, held_block pv) -∗
  (([∗ list] pv ∈ held, held_block pv) -∗ Φ true) -∗ RUN check_held held {{ Φ }}.
Proof.
  iIntros "Hheld HΦ". iInduction held as [|[p v] held] "IH" forall (Φ); cbn [check_held].
  { iApply run_ret. by iApply "HΦ". }
  iDestruct "Hheld" as "[(%cap & %m & %Hp & Hb & Hw & Hm) Hheld]".
  iApply run_bind. iApply (run_ld with "Hw"). iIntros "Hw".
  iApply run_bind. iApply ("IH" with "Hheld"). iIntros "Hheld". iApply run_ret.
  rewrite Z.eqb_refl. iApply "HΦ". iFrame "Hheld". iExists cap, m. by iFrame.
Qed.

Lemma run_heap_script `{!heapGS AS Σ} held ops Φ :
  Forall heap_op_ok ops → is_heap -∗ ([∗ list] pv ∈ held, held_block pv) -∗
  (∀ rs, ⌜Forall (eq true) rs⌝ -∗ Φ rs) -∗ RUN heap_script held ops {{ Φ }}.
Proof.
  iIntros (Hok) "#Hheap Hheld HΦ".
  iInduction ops as [|o ops] "IH" forall (held Φ Hok); cbn [heap_script].
  { iApply run_ret. by iApply "HΦ". }
  apply Forall_cons in Hok as [Ho Hok]. destruct o as [size v| |i].
  - destruct Ho as [Hs Hv]. iApply run_bind. iApply (run_malloc with "Hheap"); [lia|].
    iIntros (p) "[->|Hp]"; [by iApply ("IH" with "[//] Hheld HΦ")|].
    iDestruct "Hp" as (cap m) "(%Hp & Hb & Hm)". rewrite (proj2 (Z.eqb_neq _ _)); [|lia].
    iDestruct (word_split with "Hm") as "[Hw Hm]"; [lia|].
    iApply run_bind. iApply (run_st with "Hw"); [done|]. iIntros "Hw".
    iApply ("IH" with "[//] [Hb Hw Hm Hheld] HΦ"). iFrame "Hheld". iExists cap, m.
    iFrame. iPureIntro. simpl. lia.
  - iApply run_bind. iApply (run_check_held with "Hheld"). iIntros "Hheld".
    iApply run_bind. iApply ("IH" with "[//] Hheld"). iIntros (rs Hrs). iApply run_ret.
    iApply "HΦ". iPureIntro. by constructor.
  - destruct (held !! i) as [[p v]|] eqn:Ei; [|by iApply ("IH" with "[//] Hheld HΦ")].
    rewrite -{1}(take_drop_middle held i _ Ei) big_sepL_app big_sepL_cons.
    iDestruct "Hheld" as "(H1 & (%cap & %m & [%Hc %Hp] & Hb & Hw & Hm) & H2)".
    iDestruct (word_join with "Hw Hm") as (m') "Hm"; [done|].
    iApply run_bind. iApply (run_free with "Hheap Hb Hm"); [done|].
    iApply ("IH" with "[//] [H1 H2] HΦ"). rewrite delete_take_drop big_sepL_app. by iFrame.
Qed.

Definition heapΣ : gFunctors := #[machΣ; ghost_mapΣ Z Z].

(** C6: the heap serves all cores at once.  Cores that allocate, write to what
    they got, check it and free it, in any interleaving of single accesses, never
    access anything outside memory, and always find in their blocks what they
    wrote: no block is given to two owners, and the allocator writes to no block
    that is in use. *)
Theorem cores_keep_their_blocks m bs (scripts : list (list heap_op)) es ts m' :
  heap_rep m bs → Forall (Forall heap_op_ok) scripts →
  machine_steps (heap_script [] <$> scripts, m) es (ts, m') →
  (∀ p, p ∈ ts → ¬ faulted p m') ∧ ∀ rs, Done rs ∈ ts → Forall (eq true) rs.
Proof.
  intros Hm Hok Hrtc. set (rs := [(g_arena, kArenaSize); (g_lock, 1)]).
  eapply (machine_adequacy heapΣ (regions_dom rs)); [..|exact Hrtc].
  { intros x (r & Hr & Hx)%elem_of_regions_dom. subst rs.
    apply list_elem_of_In in Hr as [<-|[<-|[]]]; simpl in Hx; [by apply g_arena_mapped|].
    replace x with g_lock by lia. apply g_lock_mapped. }
  iIntros (GM) "H _". iDestruct (bytes_regions with "H") as "(Ha & Hl & _)".
  { split; [|by repeat constructor]. apply Forall_singleton. simpl. pose proof g_lock_outside. lia. }
  iMod (heap_start with "Ha Hl") as (γ) "#Hheap"; [done|]. iModIntro.
  iExists (imap (λ _ _ rs, ⌜Forall (eq true) rs⌝%I) scripts). iSplitR.
  - rewrite -imap_const. iApply big_sepL2_imap. iApply big_sepL_intro. iIntros "!>" (c ops Hc).
    iApply (run_heap_script (heapGS0 := HeapGS AS heapΣ _ _ γ) with "Hheap"); [|done|].
    + rewrite Forall_lookup in Hok. by eapply Hok.
    + by iIntros (r Hr).
  - iIntros "Hdone _". iApply fupd_mask_intro_discard; [set_solver|]. iIntros (r Hr).
    apply list_elem_of_lookup in Hr as [c Hc].
    iDestruct (big_sepL2_lookup_l with "Hdone") as (Φ HΦ) "H"; [exact Hc|].
    rewrite list_lookup_imap in HΦ. by destruct (scripts !! c); simplify_eq/=.
Qed.
End Clients.

(** ** Two cores that allocate at the same time *)

#[local] Existing Instance example_space.
#[local] Existing Instance example_layout.

Definition by_turns (n : nat) : list nat := concat (replicate n [0; 1]%nat).

Definition example_clients : list (list heap_op) :=
  [[HMalloc 16 5; HCheck; HFree 0]; [HMalloc 40 9; HCheck]].

Definition example_clients_run : option (list event * (list (prog (list bool)) * mem)) :=
  machine_run (by_turns 35 ++ replicate 8 0%nat)
    (heap_script [] <$> example_clients, example_heap).

Lemma example_clients_results :
  (λ r, r.2.1) <$> example_clients_run = Some [Done [true]; Done [true]].
Proof. vm_compute. reflexivity. Qed.

Lemma cores_keep_their_blocks_witness :
  ∃ es ts m', ts = [Done [true]; Done [true]] ∧
    machine_steps (heap_script [] <$> example_clients, example_heap) es (ts, m') ∧
    (∀ p, p ∈ ts → ¬ faulted p m') ∧ ∀ rs, Done rs ∈ ts → Forall (eq true) rs.
Proof.
  destruct example_clients_run as [[es [ts m']]|] eqn:E; pose proof example_clients_results as Er;
    rewrite E in Er; [|discriminate Er].
  injection Er as Er. apply machine_run_steps in E. exists es, ts, m'. split; [done|].
  split; [exact E|].
  apply (cores_keep_their_blocks example_heap [Blk kArenaSize false] example_clients es ts m');
    [apply example_heap_rep| |exact E].
  repeat constructor; simpl; lia.
Defined.
