(* ===== verification/QueueCores.v ===== *)
(** * The queue shared by cores

    [push], [pop] and [empty] of a SpinQueue called by any number of cores at
    once.  The lock of the queue protects its fields and its nodes; a node that
    [pop] has unlinked belongs to the core that did, which frees it after it has
    released the lock.  Each operation takes effect at one moment: the caller
    gives an update of the queue's contents to make at that moment. *)

From iris.proofmode Require Import proofmode.
From iris.base_logic.lib Require Import ghost_map.
From S2P Require Import Machine MachineLogic Prelude Memory Spinlock Heap HeapCores Alloc SpinQueue.

Local Open Scope Z_scope.
Local Open Scope machine_scope.

Class queueGS (AS : AddressSpace) (Σ : gFunctors) := QueueGS {
  queue_heapGS :: heapGS AS Σ;
  queue_contentsG :: ghost_mapG Σ Z (list Z);
  queue_contents : gname;
}.

Section Spec.
Context {AS : AddressSpace} {LAY : HeapLayout} `{!queueGS AS Σ}.

(** Queue [q] contains the values [vs]. *)
Definition contents (q : Z) (vs : list Z) : iProp Σ := q ↪[queue_contents] vs.

(** A [Node], in a block of the heap. *)
Definition node (n v next : Z) : iProp Σ :=
  ∃ cap m, ⌜kNodeSize ≤ cap ∧ 0 < n ∧ n + cap < 2 ^ 64⌝ ∗ block n cap ∗
    word n v ∗ word (n + 8) next ∗ bytes (span (n + 16) (cap - 16)) m.

(** The nodes from [p] up to [e], with the values [vs]. *)
Fixpoint lseg (p : Z) (vs : list Z) (e : Z) : iProp Σ :=
  match vs with
  | [] => ⌜p = e⌝
  | v :: vs' => ∃ next, node p v next ∗ lseg next vs' e
  end.

Definition queue_list (h t : Z) (vs : list Z) : iProp Σ :=
  ⌜vs = [] ∧ h = 0 ∧ t = 0⌝ ∨
  ∃ ws w, ⌜vs = ws ++ [w]⌝ ∗ lseg h ws t ∗ node t w 0.

Definition queue_res (q : Z) : iProp Σ :=
  ∃ h t vs, word (q + 8) h ∗ word (q + 16) t ∗ queue_list h t vs ∗ contents q vs.

Definition is_queue (q : Z) : iProp Σ :=
  ⌜0 ≤ q ∧ q + 24 ≤ 2 ^ 64⌝ ∗ is_lock q (queue_res q).

Lemma lseg_snoc p vs e v next : lseg p vs e -∗ node e v next -∗ lseg p (vs ++ [v]) next.
Proof.
  iIntros "Hl Hn". iInduction vs as [|w vs] "IH" forall (p); simpl.
  - iDestruct "Hl" as %->. iExists next. by iFrame.
  - iDestruct "Hl" as (nx) "[Hw Hl]". iExists nx. iFrame "Hw". by iApply ("IH" with "Hl").
Qed.

Lemma node_pos n v next : node n v next -∗ ⌜0 < n < 2 ^ 64⌝.
Proof.
  iIntros "(%cap & %m & %H & _)". iPureIntro. unfold kNodeSize in *. lia.
Qed.

(** A block from the heap, as a node. *)
Lemma node_make n cap m :
  kNodeSize ≤ cap → 0 < n → n + cap < 2 ^ 64 → block n cap -∗ bytes (span n cap) m -∗
  word n (rd64 m n) ∗ word (n + 8) (rd64 m (n + 8)) ∗
  (∀ v next, word n v -∗ word (n + 8) next -∗ node n v next).
Proof.
  unfold kNodeSize. iIntros (???) "Hb H". iDestruct (word_split with "H") as "[$ H]"; [lia|].
  iDestruct (word_split with "H") as "[$ H]"; [lia|]. iIntros (v next) "H1 H2".
  iExists cap, m. iFrame. rewrite -Z.add_assoc -Z.sub_add_distr. by iFrame.
Qed.

(** A node, as the block to free. *)
Lemma node_block n v next :
  node n v next -∗ ∃ cap m, ⌜0 < n⌝ ∗ block n cap ∗ bytes (span n cap) m.
Proof.
  iIntros "(%cap & %m & (%Hc & %Hn & %He) & Hb & H1 & H2 & H3)". unfold kNodeSize in *.
  replace (n + 16) with (n + 8 + 8) by lia. replace (cap - 16) with (cap - 8 - 8) by lia.
  iDestruct (word_join with "H2 H3") as (m1) "H2"; [lia|].
  iDestruct (word_join with "H1 H2") as (m2) "H"; [lia|]. iExists cap, m2. by iFrame.
Qed.

(** ** The operations *)

Lemma run_link q n v Q Φ :
  is_queue q -∗ node n v 0 -∗
  (∀ vs, contents q vs ={⊤}=∗ contents q (vs ++ [v]) ∗ Q) -∗ (Q -∗ Φ tt) -∗
  RUN (do_lock q ;; link_section q n : prog unit) {{ Φ }}.
Proof.
  iIntros "[%Hq #Hl] Hn Hupd HΦ". iDestruct (node_pos with "Hn") as %Hpos.
  iApply run_bind. iApply (run_acquire with "Hl").
  iIntros "(%h & %t & %vs & Hh & Ht & Hlist & Hc)". iMod ("Hupd" with "Hc") as "[Hc HQ]".
  unfold link_section. rewrite !u64_small; [|lia..].
  iApply run_bind. iApply (run_ld with "Ht"). iIntros "Ht".
  iDestruct "Hlist" as "[(-> & -> & ->)|(%ws & %w & -> & Hseg & Hlast)]".
  - rewrite Z.eqb_refl. iApply run_bind. iApply run_bind. iApply (run_st with "Ht"); [lia|]. iIntros "Ht".
    iApply (run_st with "Hh"); [lia|]. iIntros "Hh".
    iApply (run_release with "Hl [-HQ HΦ]"); [|by iApply "HΦ"].
    iExists n, n, [v]. iFrame "Hh Ht Hc". iRight. iExists [], v. by iFrame.
  - iDestruct (node_pos with "Hlast") as %Ht. rewrite (proj2 (Z.eqb_neq t 0)); [|lia].
    iDestruct "Hlast" as (cap m) "((%Hcap & %Ht0 & %Hte) & Hb & Hv & Hnext & Hrest)".
    unfold kNodeSize in *. rewrite u64_small; [|lia].
    iApply run_bind. iApply run_bind. iApply (run_st with "Hnext"); [lia|]. iIntros "Hnext".
    iApply (run_st with "Ht"); [lia|]. iIntros "Ht".
    iApply (run_release with "Hl [-HQ HΦ]"); [|by iApply "HΦ"].
    iExists h, n, _. iFrame "Hh Ht Hc". iRight. iExists (ws ++ [w]), v. iSplit; [done|].
    iFrame "Hn". iApply (lseg_snoc with "Hseg"). iExists cap, m. by iFrame.
Qed.

(** [push]: at one moment between call and return [v] is appended. *)
Lemma run_push q v Q Φ :
  0 ≤ v < 2 ^ 64 → is_heap -∗ is_queue q -∗
  (∀ vs, contents q vs ={⊤}=∗ contents q (vs ++ [v]) ∗ Q) -∗ (Q -∗ Φ tt) -∗
  RUN push_code g_arena g_lock q v {{ Φ }}.
Proof.
  iIntros (Hv) "#Hheap #Hq Hupd HΦ". unfold push_code. iApply run_bind.
  iApply (run_operator_new with "Hheap"); [by unfold kNodeSize|].
  iIntros (n cap m (Hcap & _ & Hn & He)) "Hb Hm".
  iDestruct (node_make with "Hb Hm") as "(H1 & H2 & Hnode)"; [done..|].
  iApply run_bind. iApply (run_st with "H1"); [done|]. iIntros "H1".
  rewrite u64_small; [|unfold kNodeSize in *; lia].
  iApply run_bind. iApply (run_st with "H2"); [lia|]. iIntros "H2".
  iApply (run_link with "Hq [Hnode H1 H2] Hupd HΦ"). by iApply ("Hnode" with "H1 H2").
Qed.

(** Two queue lists agree on whether there is a first node. *)
Lemma queue_list_head h t vs :
  queue_list h t vs -∗ ⌜h = 0 ↔ vs = []⌝.
Proof.
  iIntros "[(-> & -> & ->)|(%ws & %w & -> & Hseg & Hlast)]"; [done|].
  destruct ws as [|v ws]; simpl.
  - iDestruct "Hseg" as %->. iDestruct (node_pos with "Hlast") as %?. iPureIntro. naive_solver lia.
  - iDestruct "Hseg" as (nx) "[Hn _]". iDestruct (node_pos with "Hn") as %?. iPureIntro.
    naive_solver lia.
Qed.

(** The first node, and the list without it. *)
Lemma queue_list_pop h t v vs :
  queue_list h t (v :: vs) -∗
  ∃ next, node h v next ∗ queue_list next (if decide (vs = []) then 0 else t) vs.
Proof.
  iIntros "[(% & _ & _)|(%ws & %w & %Hvs & Hseg & Hlast)]"; [done|].
  destruct ws as [|v' ws]; simplify_eq/=.
  - iDestruct "Hseg" as %->. iExists 0. iFrame "Hlast". iLeft. done.
  - iDestruct "Hseg" as (nx) "[Hn Hseg]". iExists nx. iFrame "Hn".
    rewrite decide_False; [|by destruct ws]. iRight. iExists ws, w. by iFrame.
Qed.

Lemma run_unlink q Q Φ :
  is_queue q -∗
  (∀ vs, contents q vs ={⊤}=∗ contents q (tail vs) ∗ Q (head vs)) -∗
  (Q None -∗ Φ 0) ∧ (∀ n v next, Q (Some v) -∗ node n v next -∗ Φ n) -∗
  RUN (do_lock q ;; unlink_section q : prog Z) {{ Φ }}.
Proof.
  iIntros "[%Hq #Hl] Hupd Hpost". iApply run_bind. iApply (run_acquire with "Hl").
  iIntros "(%h & %t & %vs & Hh & Ht & Hlist & Hc)". iMod ("Hupd" with "Hc") as "[Hc HQ]".
  iDestruct (queue_list_head with "Hlist") as %Hhead.
  unfold unlink_section. rewrite !u64_small; [|lia..].
  iApply run_bind. iApply (run_ld with "Hh"). iIntros "Hh". iApply run_bind.
  destruct vs as [|v vs].
  - assert (h = 0) as -> by naive_solver. iApply run_ret. iApply run_bind.
    iApply (run_release with "Hl [-HQ Hpost]"); [iExists 0, t, []; iFrame|].
    iApply run_ret. by iApply "Hpost".
  - rewrite (proj2 (Z.eqb_neq h 0)); [|naive_solver]. simpl negb. cbv iota.
    iDestruct (queue_list_pop with "Hlist") as (next) "[Hn Hlist]".
    iDestruct (node_pos with "Hn") as %Hpos.
    iDestruct "Hn" as (cap m) "((%Hcap & %Ht0 & %Hte) & Hb & Hv & Hnext & Hrest)".
    unfold kNodeSize in *. rewrite (u64_small (h + 8)); [|lia].
    iDestruct (word_range with "Hnext") as %Hrange.
    iApply run_bind. iApply (run_ld with "Hnext"). iIntros "Hnext".
    iApply run_bind. iApply (run_st with "Hh"); [done|]. iIntros "Hh".
    iApply run_bind. iApply (run_ld with "Hh"). iIntros "Hh".
    iDestruct (queue_list_head with "Hlist") as %Hhead'.
    iAssert (node h v next) with "[Hb Hv Hnext Hrest]" as "Hn"; [iExists cap, m; by iFrame|].
    iAssert (∀ t', word (q + 16) t' -∗ ⌜t' = if decide (vs = []) then 0 else t⌝ -∗
      RUN (do_unlock q ;; mret h : prog Z) {{ Φ }})%I with "[-Ht]" as "Hend".
    { iIntros (t') "Ht ->". iApply run_bind. iApply (run_release with "Hl [-HQ Hpost Hn]").
      { iExists _, _, vs. iFrame. }
      iApply run_ret. iApply ("Hpost" with "HQ Hn"). }
    destruct (decide (vs = [])) as [->|Hvs].
    + rewrite (proj2 (Z.eqb_eq next 0)); [|naive_solver].
      iApply (run_st with "Ht"); [lia|]. iIntros "Ht". by iApply ("Hend" with "Ht").
    + rewrite (proj2 (Z.eqb_neq next 0)); [|naive_solver]. iApply run_ret.
      by iApply ("Hend" with "Ht").
Qed.

(** [pop]: at one moment between call and return the first value, if there is
    one, is removed; it ends up in [*out]. *)
Lemma run_pop q out w Q Φ :
  is_heap -∗ is_queue q -∗ word out w -∗
  (∀ vs, contents q vs ={⊤}=∗ contents q (tail vs) ∗ Q (head vs)) -∗
  (Q None -∗ word out w -∗ Φ false) ∧ (∀ v, Q (Some v) -∗ word out v -∗ Φ true) -∗
  RUN pop_code g_arena g_lock q out {{ Φ }}.
Proof.
  iIntros "#Hheap #Hq Hout Hupd Hpost". unfold pop_code. iApply run_bind.
  iApply (run_unlink with "Hq Hupd"). iSplit.
  { iIntros "HQ". rewrite Z.eqb_refl. iApply run_ret. iApply ("Hpost" with "HQ Hout"). }
  iIntros (n v next) "HQ Hn". iDestruct (node_pos with "Hn") as %Hpos.
  rewrite (proj2 (Z.eqb_neq n 0)); [|lia].
  iDestruct "Hn" as (cap m) "(%Hcap & Hb & Hv & Hnext & Hrest)".
  iDestruct (word_range with "Hv") as %Hv.
  iApply run_bind. iApply (run_ld with "Hv"). iIntros "Hv".
  iApply run_bind. iApply (run_st with "Hout"); [done|]. iIntros "Hout".
  iDestruct (node_block n v next with "[$Hb $Hv $Hnext $Hrest]") as (cap' m') "(_ & Hb & Hm)"; [done|].
  iApply run_bind. iApply (run_free with "Hheap Hb Hm"); [lia|].
  iApply run_ret. iApply ("Hpost" with "HQ Hout").
Qed.

(** [empty]: the answer was right at one moment between call and return. *)
Lemma run_empty q Q Φ :
  is_queue q -∗
  (∀ vs, contents q vs ={⊤}=∗ contents q vs ∗ Q (bool_decide (vs = []))) -∗
  (∀ b, Q b -∗ Φ b) -∗ RUN empty_code q {{ Φ }}.
Proof.
  iIntros "[%Hq #Hl] Hupd HΦ". unfold empty_code. iApply run_bind.
  iApply (run_acquire with "Hl"). iIntros "(%h & %t & %vs & Hh & Ht & Hlist & Hc)".
  iMod ("Hupd" with "Hc") as "[Hc HQ]". rewrite u64_small; [|lia].
  iDestruct (queue_list_head with "Hlist") as %Hhead.
  iApply run_bind. iApply (run_ld with "Hh"). iIntros "Hh".
  iApply run_bind. iApply (run_release with "Hl [-HQ HΦ]"); [iExists h, t, vs; iFrame|].
  iApply run_ret. replace (h =? 0) with (bool_decide (vs = [])); [by iApply "HΦ"|].
  destruct (decide (vs = [])) as [Hvs|Hvs]; [rewrite bool_decide_true //|rewrite bool_decide_false //];
    symmetry; [apply Z.eqb_eq|apply Z.eqb_neq]; naive_solver.
Qed.
End Spec.
