(* ===== verification/Linearize.v ===== *)
(** * The queue operations of many cores are linearizable

    Any number of cores run scripts of queue operations, access by access, in any
    interleaving ([Machine]), and report when they call an operation and when it
    returns.  [queues_linearizable]: no core ever faults, and between its call and
    its return each operation has one moment at which it takes effect, such that
    the effects, in the order of these moments, are those of the operations on
    lists ([queue_op]), with the results that the cores got.  [Sched] makes an
    operation on a queue one step; this is why it may. *)

From iris.proofmode Require Import proofmode.
From iris.base_logic.lib Require Import ghost_map.
From S2P Require Import MachineLogic Prelude Memory Spinlock Heap HeapInv HeapProps HeapCores Alloc SpinQueue QueueCores Machine.

Local Open Scope Z_scope.

(** ** Operations on queues, as on lists *)

Definition op_queue (o : op) : Z :=
  match o with OPush q _ | OPop q | OEmpty q => q end.

(** The contents after the operation, and its result. *)
Definition queue_op (o : op) (vs : list Z) : list Z * res :=
  match o with
  | OPush _ v => (vs ++ [v], RPush)
  | OPop _ => (tail vs, RPop (head vs))
  | OEmpty _ => (vs, REmpty (bool_decide (vs = [])))
  end.

(** The contents of all queues. *)
Definition lists_of (s : gmap Z (list Z)) (q : Z) : list Z := default [] (s !! q).

(** [replay] executes operations one after the other, and checks their results. *)
Fixpoint replay (s : gmap Z (list Z)) (h : list (op * res)) : option (gmap Z (list Z)) :=
  match h with
  | [] => Some s
  | (o, r) :: h' =>
      let '(vs, r') := queue_op o (lists_of s (op_queue o)) in
      if decide (r = r') then replay (<[op_queue o := vs]> s) h' else None
  end.

(** ** Linearizability *)

(** What is reported, and the moments at which the operations take effect. *)
Inductive mark := Seen (e : event) | Effect (c : nat) (o : op) (r : res).

Definition visible (tr : list mark) : list event :=
  omap (λ k, match k with Seen e => Some e | Effect _ _ _ => None end) tr.
Definition effects (tr : list mark) : list (op * res) :=
  omap (λ k, match k with Seen _ => None | Effect _ o r => Some (o, r) end) tr.

(** Where a core is: between operations, before or after the effect of one. *)
Inductive phase := Idle | Pending (o : op) | Effected (r : res).

Definition mark_core (k : mark) : nat :=
  match k with Seen (Call c _) | Seen (Return c _) | Effect c _ _ => c end.

(** Each core calls, has its effect, returns with the result of the effect, and
    so on. *)
Definition next_phase (p : phase) (k : mark) : option phase :=
  match k, p with
  | Seen (Call _ o), Idle => Some (Pending o)
  | Effect _ o r, Pending o' => if decide (o = o') then Some (Effected r) else None
  | Seen (Return _ r), Effected r' => if decide (r = r') then Some Idle else None
  | _, _ => None
  end.

Fixpoint phase_after (c : nat) (p : phase) (tr : list mark) : option phase :=
  match tr with
  | [] => Some p
  | k :: tr' =>
      if decide (mark_core k = c) then next_phase p k ≫= λ p', phase_after c p' tr'
      else phase_after c p tr'
  end.

Definition linearizable (es : list event) : Prop :=
  ∃ tr, visible tr = es ∧ is_Some (replay ∅ (effects tr)) ∧ ∀ c, is_Some (phase_after c Idle tr).

(** What the operations of a history put into queue [q] and took from it. *)
Definition pushed (q : Z) (h : list (op * res)) : list Z :=
  omap (λ x, match x.1 with OPush q' v => if decide (q' = q) then Some v else None | _ => None end) h.
Definition popped (q : Z) (h : list (op * res)) : list Z :=
  omap (λ x, match x with (OPop q', RPop o) => if decide (q' = q) then o else None | _ => None end) h.

(** ** The code of a core *)

Section Scripts.
Context {AS : AddressSpace} {LAY : HeapLayout}.

(** One operation; [out] is the variable whose address is passed to [pop]. *)
Definition core_op (out : Z) (o : op) : prog res :=
  match o with
  | OPush q v => push_code g_arena g_lock q v ;; mret RPush
  | OPop q =>
      more ← pop_code g_arena g_lock q out;
      if (more : bool) then v ← ld out; mret (RPop (Some v)) else mret (RPop None)
  | OEmpty q => b ← empty_code q; mret (REmpty b)
  end.

Fixpoint core_script (c : nat) (out : Z) (ops : list op) : prog unit :=
  match ops with
  | [] => mret tt
  | o :: ops' =>
      emit (Call c o) ;;
      r ← core_op out o;
      emit (Return c r) ;;
      core_script c out ops'
  end.

(** ** Where the machine starts *)

Definition queue_region (q : Z) : Z * Z := (q, 24).
Definition out_region (s : Z * list op) : Z * Z := (s.1, 8).

Definition regions (qs : list Z) (scripts : list (Z * list op)) : list (Z * Z) :=
  (g_arena, kArenaSize) :: (g_lock, 1) ::
  (queue_region <$> qs) ++ (out_region <$> scripts).

(** A zeroed [SpinQueue] object. *)
Definition fresh_queue (m : mem) (q : Z) : Prop :=
  0 ≤ q ∧ q + 24 ≤ 2 ^ 64 ∧ rd m q = 0 ∧ rd64 m (q + 8) = 0 ∧ rd64 m (q + 16) = 0.

Definition op_ok (qs : list Z) (o : op) : Prop :=
  op_queue o ∈ qs ∧ match o with OPush _ v => 0 ≤ v < 2 ^ 64 | _ => True end.

(** The heap in any state it can be in, its lock free; the queues [qs], empty;
    one variable per core; all of it memory, in different places; scripts that use
    these queues. *)
Definition start_ok (m : mem) (bs : list blk) (qs : list Z) (scripts : list (Z * list op)) : Prop :=
  heap_rep m bs ∧ Forall (fresh_queue m) qs ∧
  apart (regions qs scripts) ∧ Forall (λ r, mapped_range r.1 r.2) (regions qs scripts) ∧
  Forall (λ s, Forall (op_ok qs) s.2) scripts.

Definition start_cores (scripts : list (Z * list op)) : list (prog unit) :=
  imap (λ c s, core_script c s.1 s.2) scripts.
End Scripts.

(** ** Lemmas: traces *)

Lemma lists_of_insert s q vs q' :
  lists_of (<[q := vs]> s) q' = if decide (q = q') then vs else lists_of s q'.
Proof. unfold lists_of. rewrite lookup_insert. by case_decide. Qed.

Lemma replay_app s h1 h2 :
  replay s (h1 ++ h2) = replay s h1 ≫= λ s', replay s' h2.
Proof.
  revert s. induction h1 as [|[o r] h1 IH]; intros s; [done|]. simpl.
  destruct (queue_op o (lists_of s (op_queue o))) as [vs r']. case_decide; [apply IH|done].
Qed.

Lemma replay_snoc s h s' o vs :
  replay s h = Some s' → lists_of s' (op_queue o) = vs →
  replay s (h ++ [(o, (queue_op o vs).2)]) = Some (<[op_queue o := (queue_op o vs).1]> s').
Proof.
  intros E <-. rewrite replay_app E. simpl.
  destruct (queue_op o (lists_of s' (op_queue o))) as [vs r]. simpl. by rewrite decide_True.
Qed.

(** What [replay] accepts is first in, first out: what was taken and what is still
    there is what was put in, in that order. *)
Lemma replay_fifo q h s s' :
  replay s h = Some s' → lists_of s q ++ pushed q h = popped q h ++ lists_of s' q.
Proof.
  revert s. induction h as [|[o r] h IH]; intros s E; simpl in E.
  { injection E as ->. by rewrite app_nil_r. }
  destruct (queue_op o (lists_of s (op_queue o))) as [vs r'] eqn:Eo. case_decide; [|done].
  subst r'. apply IH in E. rewrite lists_of_insert in E.
  destruct o as [q' v|q'|q']; simpl in Eo, E; injection Eo as <- <-; simpl;
    destruct (decide (q' = q)) as [->|]; try done; rewrite -?E.
  - by rewrite -app_assoc.
  - destruct (lists_of s q); simpl in *; by rewrite -E.
Qed.

Lemma phase_after_snoc c p tr k :
  phase_after c p (tr ++ [k]) =
    phase_after c p tr ≫= λ p', if decide (mark_core k = c) then next_phase p' k else Some p'.
Proof.
  revert p. induction tr as [|k' tr IH]; intros p; simpl.
  - case_decide; [|done]. by destruct (next_phase p k).
  - destruct (decide (mark_core k' = c)); [|apply IH].
    destruct (next_phase p k'); [apply IH|done].
Qed.

Lemma visible_seen tr e : visible (tr ++ [Seen e]) = visible tr ++ [e].
Proof. exact (omap_app _ tr _). Qed.

Lemma visible_effect tr c o r : visible (tr ++ [Effect c o r]) = visible tr.
Proof. unfold visible. rewrite omap_app. apply app_nil_r. Qed.

Lemma effects_seen tr e : effects (tr ++ [Seen e]) = effects tr.
Proof. unfold effects. rewrite omap_app. apply app_nil_r. Qed.

Lemma effects_effect tr c o r : effects (tr ++ [Effect c o r]) = effects tr ++ [(o, r)].
Proof. exact (omap_app _ tr _). Qed.

(** A mark of core [c] moves [c], and no other core, to its next phase. *)
Lemma phases_mark tr (P : gmap nat phase) k p p' :
  (∀ c, is_Some (phase_after c Idle tr)) →
  (∀ c p, P !! c = Some p → phase_after c Idle tr = Some p) →
  P !! mark_core k = Some p → next_phase p k = Some p' →
  (∀ c, is_Some (phase_after c Idle (tr ++ [k]))) ∧
  ∀ c q, <[mark_core k := p']> P !! c = Some q → phase_after c Idle (tr ++ [k]) = Some q.
Proof.
  intros Hall HP Hk Hn. split.
  - intros c. rewrite phase_after_snoc. destruct (decide (mark_core k = c)) as [<-|Hne].
    + rewrite (HP _ _ Hk). simpl. by rewrite Hn.
    + destruct (Hall c) as [q ->]. by eexists.
  - intros c q. rewrite phase_after_snoc lookup_insert. case_decide as Hc.
    + intros [= <-]. subst c. rewrite (HP _ _ Hk). simpl. done.
    + intros Hq. by rewrite (HP _ _ Hq).
Qed.

(** ** The trace as an invariant *)

Class linGS (AS : AddressSpace) (Σ : gFunctors) := LinGS {
  lin_queueGS :: queueGS AS Σ;
  lin_phasesG :: ghost_mapG Σ nat phase;
  lin_phases : gname;
}.

Section Proof.
Context {AS : AddressSpace} {LAY : HeapLayout} `{!linGS AS Σ}.

(** Core [c] is in phase [p]. *)
Definition at_phase (c : nat) (p : phase) : iProp Σ := c ↪[lin_phases] p.

Definition trace_ok (tr : list mark) (s S : gmap Z (list Z)) (P : gmap nat phase) : Prop :=
  replay ∅ (effects tr) = Some s ∧
  (∀ q vs, S !! q = Some vs → lists_of s q = vs) ∧
  (∀ c, is_Some (phase_after c Idle tr)) ∧
  ∀ c p, P !! c = Some p → phase_after c Idle tr = Some p.

Definition trace : iProp Σ :=
  ∃ tr s S P, ⌜trace_ok tr s S P⌝ ∗ ghost_map_auth queue_contents 1 S ∗
    ghost_map_auth lin_phases 1 P ∗ reported (visible tr).

Definition is_trace : iProp Σ := inv (nroot .@ "trace") trace.

Lemma run_mark c p e p' Φ :
  mark_core (Seen e) = c → next_phase p (Seen e) = Some p' →
  is_trace -∗ at_phase c p -∗ (at_phase c p' -∗ Φ tt) -∗ RUN emit e {{ Φ }}.
Proof.
  iIntros (<- Hn) "#Hinv Hp HΦ". iApply run_emit.
  iInv "Hinv" as (tr s S P) "(>(%Hr & %HS & %Hall & %HP) & >HS & >HP & >Hlog)" "Hclose".
  iDestruct (ghost_map_lookup with "HP Hp") as %Hp.
  iApply fupd_mask_intro; [set_solver|]. iIntros "Hmask". iExists _. iFrame "Hlog".
  iIntros "Hlog". iMod "Hmask" as "_".
  iMod (ghost_map_update p' with "HP Hp") as "[HP Hp]".
  iMod ("Hclose" with "[HS HP Hlog]") as "_"; [|iModIntro; by iApply "HΦ"].
  destruct (phases_mark tr P (Seen e) p p') as [Hall' HP']; [done..|].
  iNext. iExists (tr ++ [Seen e]), s, S, _. iFrame "HS HP".
  rewrite visible_seen. iFrame "Hlog". iPureIntro. unfold trace_ok. rewrite effects_seen.
  by split_and!.
Qed.

(** The moment at which an operation takes effect. *)
Lemma commit c o vs :
  is_trace -∗ at_phase c (Pending o) -∗ contents (op_queue o) vs ={⊤}=∗
  contents (op_queue o) (queue_op o vs).1 ∗ at_phase c (Effected (queue_op o vs).2).
Proof.
  iIntros "#Hinv Hp Hvs".
  iInv "Hinv" as (tr s S P) "(>(%Hr & %HS & %Hall & %HP) & >HS & >HP & >Hlog)" "Hclose".
  iDestruct (ghost_map_lookup with "HS Hvs") as %Hvs.
  iDestruct (ghost_map_lookup with "HP Hp") as %Hp.
  iMod (ghost_map_update (queue_op o vs).1 with "HS Hvs") as "[HS $]".
  iMod (ghost_map_update (Effected (queue_op o vs).2) with "HP Hp") as "[HP $]".
  destruct (phases_mark tr P (Effect c o (queue_op o vs).2) (Pending o)
    (Effected (queue_op o vs).2)) as [Hall' HP']; [done..| |].
  { simpl. by rewrite decide_True. }
  iApply "Hclose". iNext. iExists (tr ++ [Effect c o (queue_op o vs).2]), _, _, _.
  iFrame "HS HP". rewrite visible_effect. iFrame "Hlog". iPureIntro. unfold trace_ok.
  rewrite effects_effect.
  split_and!; [|..|done|done].
  - apply replay_snoc; [done|]. by apply HS.
  - intros q vs'. rewrite lookup_insert lists_of_insert. case_decide; [by intros [= ->]|apply HS].
Qed.

(** ** A core runs its script *)

Context (qs : list Z).

Definition all_queues : iProp Σ := [∗ list] q ∈ qs, is_queue q.

Lemma all_queues_elem q : q ∈ qs → all_queues -∗ is_queue q.
Proof.
  iIntros (Hq) "#H". apply list_elem_of_lookup in Hq as [i Hi].
  by iApply (big_sepL_lookup with "H").
Qed.

Lemma run_core_op c out o w Φ :
  op_ok qs o → is_heap -∗ all_queues -∗ is_trace -∗ at_phase c (Pending o) -∗ word out w -∗
  (∀ r w', at_phase c (Effected r) -∗ word out w' -∗ Φ r) -∗
  RUN core_op out o {{ Φ }}.
Proof.
  iIntros ([Hq Hv]) "#Hheap #Hqs #Htr Hp Hw HΦ".
  iDestruct (all_queues_elem with "Hqs") as "Hq"; [exact Hq|].
  destruct o as [q v|q|q]; cbn [core_op].
  - iApply run_bind.
    iApply (run_push _ _ (at_phase c (Effected RPush)) with "Hheap Hq [Hp]"); [done|..].
    { iIntros (vs) "Hvs". by iApply (commit c (OPush q v) with "Htr Hp Hvs"). }
    iIntros "Hp". iApply run_ret. iApply ("HΦ" with "Hp Hw").
  - iApply run_bind.
    iApply (run_pop _ _ _ (λ r, at_phase c (Effected (RPop r))) with "Hheap Hq Hw [Hp]").
    { iIntros (vs) "Hvs". by iApply (commit c (OPop q) with "Htr Hp Hvs"). }
    iSplit.
    + iIntros "Hp Hw". iApply run_ret. iApply ("HΦ" with "Hp Hw").
    + iIntros (v) "Hp Hw". iApply run_bind. iApply (run_ld with "Hw"). iIntros "Hw".
      iApply run_ret. iApply ("HΦ" with "Hp Hw").
  - iApply run_bind.
    iApply (run_empty _ (λ b, at_phase c (Effected (REmpty b))) with "Hq [Hp]").
    { iIntros (vs) "Hvs". by iApply (commit c (OEmpty q) with "Htr Hp Hvs"). }
    iIntros (b) "Hp". iApply run_ret. iApply ("HΦ" with "Hp Hw").
Qed.

Lemma run_core_script c out ops w :
  Forall (op_ok qs) ops →
  is_heap -∗ all_queues -∗ is_trace -∗ at_phase c Idle -∗ word out w -∗
  RUN core_script c out ops {{ _, True }}.
Proof.
  iIntros (Hok) "#Hheap #Hqs #Htr Hp Hw".
  iInduction ops as [|o ops] "IH" forall (w Hok); cbn [core_script]; [by iApply run_ret|].
  apply Forall_cons in Hok as [Ho Hok].
  iApply run_bind. iApply (run_mark with "Htr Hp"); [done..|]. iIntros "Hp".
  iApply run_bind. iApply (run_core_op with "Hheap Hqs Htr Hp Hw"); [done|].
  iIntros (r w') "Hp Hw".
  iApply run_bind. iApply (run_mark with "Htr Hp"); [done|simpl; by rewrite decide_True|].
  iIntros "Hp". by iApply ("IH" with "[//] Hp Hw").
Qed.
End Proof.

(** ** From the memory at the start to the invariants *)

Section Start.
Context {AS : AddressSpace} {LAY : HeapLayout}.

(** The lock of a queue guards the queue object. *)
Lemma queue_start `{!queueGS AS Σ} m q :
  fresh_queue m q → bytes (span q 24) m -∗ contents q [] ={⊤}=∗ is_queue q.
Proof.
  iIntros ((Hq & He & Hl & Hh & Ht)) "H Hc".
  destruct (span_split q 24 1) as [-> Hd1]; [lia|].
  iDestruct (bytes_union with "H") as "[Hlock H]"; [done|].
  iMod (is_lock_alloc q (queue_res q) with "[Hlock] [H Hc]") as "$"; [exact Hl|..|done].
  { replace (span q 1) with ({[q]} : gset Z); [done|].
    apply set_eq. intros x. rewrite elem_of_span elem_of_singleton. lia. }
  iDestruct (bytes_subset _ (span (q + 8) 16) with "H") as "H".
  { intros x. rewrite !elem_of_span. lia. }
  iDestruct (word_split with "H") as "[Hw1 H]"; [lia|].
  iDestruct (word_split with "H") as "[Hw2 _]"; [lia|]. rewrite -Z.add_assoc Hh Ht.
  iExists 0, 0, []. iFrame. by iLeft.
Qed.
End Start.

Definition linΣ : gFunctors :=
  #[machΣ; ghost_mapΣ Z Z; ghost_mapΣ Z (list Z); ghost_mapΣ nat phase].

Lemma apart_queues qs rs : apart ((queue_region <$> qs) ++ rs) → NoDup qs.
Proof.
  induction qs as [|q qs IH]; simpl; [constructor|]. intros [Hq Hqs].
  constructor; [|by apply IH]. intros Hin. apply Forall_app in Hq as [Hq _].
  rewrite Forall_fmap Forall_forall in Hq. specialize (Hq q Hin). simpl in Hq. lia.
Qed.

Section Machine.
Context {AS : AddressSpace} {LAY : HeapLayout}.

(** The queues' contents, all empty, and the cores' phases, all idle. *)
Lemma contents_start `{!ghost_mapG Σ Z (list Z)} (qs : list Z) :
  NoDup qs → ⊢ |==> ∃ γ, ghost_map_auth γ 1 (gset_to_gmap [] (list_to_set qs : gset Z)) ∗
    [∗ list] q ∈ qs, q ↪[γ] ([] : list Z).
Proof.
  iIntros (Hnd). iMod (ghost_map_alloc (gset_to_gmap [] (list_to_set qs : gset Z)))
    as (γ) "[$ H]". iModIntro. rewrite big_sepM_gset_to_gmap. by rewrite big_sepS_list_to_set.
Qed.

Lemma phases_start `{!ghost_mapG Σ nat phase} (scripts : list (Z * list op)) :
  ⊢ |==> ∃ γ, ghost_map_auth γ 1 (map_seq 0 ((λ _, Idle) <$> scripts)) ∗
    [∗ list] c ↦ _ ∈ scripts, c ↪[γ] Idle.
Proof.
  iMod (ghost_map_alloc (map_seq 0 ((λ _, Idle) <$> scripts) : gmap nat phase))
    as (γ) "[$ H]". iModIntro. rewrite big_sepM_map_seq big_sepL_fmap. done.
Qed.

(** The invariants, set up from the memory at the start. *)
Lemma machine_start `{!machGS AS Σ, !ghost_mapG Σ Z Z, !ghost_mapG Σ Z (list Z),
    !ghost_mapG Σ nat phase} m bs qs scripts :
  start_ok m bs qs scripts → bytes (regions_dom (regions qs scripts)) m -∗ reported [] ={⊤}=∗
  ∃ G : linGS AS Σ, ⌜heap_machGS = machGS0⌝ ∗ is_heap ∗ all_queues qs ∗ is_trace ∗
    [∗ list] c ↦ s ∈ scripts, at_phase c Idle ∗ ∃ w, word s.1 w.
Proof.
  iIntros ((Hheap & Hqs & Hap & _ & _)) "H Hlog".
  iDestruct (bytes_regions with "H") as "(Harena & Hlock & H)"; [done|].
  rewrite big_sepL_app !big_sepL_fmap. iDestruct "H" as "[Hqueues Houts]".
  iMod (heap_start with "Harena Hlock") as (γh) "#Hheap"; [done|].
  destruct Hap as [_ [_ Hap]]. apply apart_queues in Hap as Hnd.
  iMod (contents_start qs Hnd) as (γq) "[HS Hcs]".
  iMod (phases_start scripts) as (γp) "[HP Hphases]".
  set (GH := HeapGS AS Σ _ _ γh). set (GQ := QueueGS AS Σ GH _ γq).
  set (GL := LinGS AS Σ GQ _ γp).
  iExists GL. iSplitR; [done|]. iFrame "Hheap".
  iMod (inv_alloc (nroot .@ "trace") _ (@trace AS Σ GL) with "[HS HP Hlog]") as "$".
  { iNext. iExists [], ∅, _, _. iFrame "HS HP Hlog". iPureIntro. split_and!; [done|..].
    - by intros q vs (_ & <-)%lookup_gset_to_gmap_Some.
    - intros c. by eexists.
    - intros c p. rewrite lookup_map_seq_0 list_lookup_fmap.
      destruct (scripts !! c); [|done]. by intros [= <-]. }
  iAssert (|={⊤}=> [∗ list] q ∈ qs, is_queue q)%I with "[Hqueues Hcs]" as ">$".
  { iApply big_sepL_fupd. iCombine "Hqueues Hcs" as "H". rewrite -big_sepL_sep.
    iApply (big_sepL_impl with "H"). iIntros "!>" (i q Hi) "[Hq Hc]".
    iApply (@queue_start AS Σ GQ m q with "Hq Hc"). by eapply Forall_lookup_1 in Hqs. }
  iModIntro. iCombine "Hphases Houts" as "H". rewrite -big_sepL_sep.
  iApply (big_sepL_impl with "H"). iIntros "!>" (c s Hs) "[$ H]". iExists _, m. by iFrame.
Qed.

(** C5: the queue is linearizable.  From a heap in any state and zeroed queues,
    whatever the interleaving of the cores' single loads, stores and lock
    operations: no core makes an access outside memory; and every push, pop and
    empty has one moment between its call and its return at which it takes effect,
    in an order in which they are operations on lists with exactly the results that
    the cores got.  So no value is lost, invented or delivered twice, and each
    queue is FIFO. *)
Theorem queues_linearizable m bs qs scripts es ts m' :
  start_ok m bs qs scripts →
  machine_steps (start_cores scripts, m) es (ts, m') →
  (∀ p, p ∈ ts → ¬ faulted p m') ∧ linearizable es.
Proof.
  intros Hok Hrun. pose proof Hok as (_ & _ & _ & Hmapped & Hops).
  eapply (machine_adequacy linΣ (regions_dom (regions qs scripts))); [..|exact Hrun].
  { intros x (r & Hr & Hx)%elem_of_regions_dom. rewrite Forall_forall in Hmapped.
    by apply (Hmapped r Hr). }
  iIntros (GM) "H Hlog".
  iMod (machine_start with "H Hlog") as (G <-) "(#Hheap & #Hqs & #Htr & Hcores)"; [done|].
  iModIntro. iExists (imap (λ _ _ _, True%I) scripts). iSplitL "Hcores".
  - iApply big_sepL2_imap. iApply (big_sepL_impl with "Hcores").
    iIntros "!>" (c [out ops] Hc) "[Hp [%w Hw]]".
    iApply (run_core_script with "Hheap Hqs Htr Hp Hw").
    rewrite Forall_lookup in Hops. by apply (Hops c (out, ops)).
  - iIntros "_ Hes". iInv "Htr" as (tr s S P) "(>(%Hr & %HS & %Hall & %HP) & _ & _ & >Hlog)" "_".
    iDestruct (ghost_var_agree with "Hes Hlog") as %->.
    iApply fupd_mask_intro_discard; [set_solver|]. iPureIntro. exists tr. split_and!; [done| |done].
    by eexists.
Qed.
End Machine.

(** ** Two cores and one queue

    One core pushes, the other asks and pops; they take turns, access by access. *)

#[local] Existing Instance example_space.
#[local] Existing Instance example_layout.

Definition example_scripts : list (Z * list op) :=
  [(g_arena - 16, [OPush example_queue 7; OPush example_queue 8]);
   (g_arena - 8, [OEmpty example_queue; OPop example_queue])].

(** The second core waits for the heap's lock while the first holds it. *)
Definition example_schedule : list nat :=
  by_turns 4 ++ replicate 19 0%nat ++ by_turns 29 ++ replicate 3 1%nat.

Definition example_run : option (list event * (list (prog unit) * mem)) :=
  machine_run example_schedule (start_cores example_scripts, example_heap).

Definition example_events : list event :=
  [Call 0 (OPush example_queue 7); Call 1 (OEmpty example_queue); Return 1 (REmpty true);
   Return 0 RPush; Call 1 (OPop example_queue); Call 0 (OPush example_queue 8);
   Return 0 RPush; Return 1 (RPop (Some 7))].

Lemma example_run_events :
  prod_map id fst <$> example_run = Some (example_events, [Done tt; Done tt]).
Proof. vm_compute. reflexivity. Qed.

Lemma example_space_range a n :
  0xffffffff80200000 - 64 ≤ a → a + n ≤ 0xffffffff80200000 + kArenaSize → mapped_range a n.
Proof.
  intros ?? x Hx. unfold mapped, example_space. apply andb_true_intro.
  rewrite Z.leb_le Z.ltb_lt. lia.
Qed.

Lemma example_start_ok :
  start_ok example_heap [Blk kArenaSize false] [example_queue] example_scripts.
Proof.
  split_and!.
  - apply example_heap_rep.
  - apply Forall_singleton. split_and!; vm_compute; congruence.
  - unfold regions, queue_region, out_region, example_queue. cbn [fmap list_fmap app apart fst snd].
    change g_arena with 0xffffffff80200000. change g_lock with (0xffffffff80200000 - 64).
    repeat apply conj; repeat apply Forall_cons_2; simpl; try done; unfold kArenaSize; lia.
  - repeat apply Forall_cons_2; [apply example_space_range..|done];
      vm_compute; congruence.
  - repeat apply Forall_cons_2; try done; (split; [by apply list_elem_of_singleton|done]).
Qed.

Lemma queues_linearizable_witness :
  ∃ m', machine_steps (start_cores example_scripts, example_heap) example_events
      ([Done tt; Done tt], m') ∧
    (∀ p, p ∈ [Done tt; Done tt] → ¬ faulted p m') ∧ linearizable example_events.
Proof.
  destruct example_run as [[es [ts m']]|] eqn:E; pose proof example_run_events as Er;
    rewrite E in Er; [|discriminate Er].
  injection Er as -> ->. apply machine_run_steps in E. exists m'. split; [exact E|].
  exact (queues_linearizable _ _ _ _ _ _ _ example_start_ok E).
Defined.
