(* ===== verification/ContextSwitch.v ===== *)
(** * kernel/src/context_switch.S: saving and restoring a thread's registers

    The assembly, instruction by instruction, over the registers it uses and
    byte memory.  [context_switch_run] gives its effect; the main theorem says
    that a thread that is switched away from and later switched back to resumes
    exactly where it called. *)

From S2P Require Import Prelude Memory.

Local Open Scope machine_scope.

(** ** The instructions used *)

Definition reg := nat.

Inductive insn :=
| StpPre (a b : reg) (off : Z)    (* stp a, b, [sp, #off]! *)
| Stp (a b : reg) (off : Z)       (* stp a, b, [sp, #off] *)
| Ldp (a b : reg) (off : Z)       (* ldp a, b, [sp, #off] *)
| LdpPost (a b : reg) (off : Z)   (* ldp a, b, [sp], #off *)
| MovFromSp (d : reg)             (* mov d, sp *)
| MovToSp (s : reg)               (* mov sp, s *)
| Mov (d s : reg)                 (* mov d, s *)
| Str (t n : reg)                 (* str t, [n] *)
| Ldr (t n : reg)                 (* ldr t, [n] *)
| Branch (target : Z)             (* b target *)
| Ret.                            (* ret: branch to x30 *)

Arguments StpPre (_ _)%_nat _%_Z. Arguments Stp (_ _)%_nat _%_Z.
Arguments Ldp (_ _)%_nat _%_Z. Arguments LdpPost (_ _)%_nat _%_Z.
Arguments MovFromSp _%_nat. Arguments MovToSp _%_nat. Arguments Mov (_ _)%_nat.
Arguments Str (_ _)%_nat. Arguments Ldr (_ _)%_nat.

Record cpu := Cpu { gpr : reg → Z; sp : Z; pc : Z }.
Arguments gpr _ _%_nat.

Definition upd (r : reg) (v : Z) (g : reg → Z) : reg → Z := λ q, if Nat.eqb q r then v else g q.

Arguments upd _%_nat _%_Z _ _%_nat.

Section Exec.
Context `{AddressSpace}.

Definition exec (i : insn) (c : cpu) : M cpu :=
  match i with
  | StpPre a b off =>
      let s := u64 (sp c + off) in
      store64 s (gpr c a) ;; store64 (s +₆₄ 8) (gpr c b) ;; mret (Cpu (gpr c) s (pc c))
  | Stp a b off =>
      let s := u64 (sp c + off) in
      store64 s (gpr c a) ;; store64 (s +₆₄ 8) (gpr c b) ;; mret c
  | Ldp a b off =>
      let s := u64 (sp c + off) in
      v ← load64 s; w ← load64 (s +₆₄ 8);
      mret (Cpu (upd b w (upd a v (gpr c))) (sp c) (pc c))
  | LdpPost a b off =>
      v ← load64 (sp c); w ← load64 (sp c +₆₄ 8);
      mret (Cpu (upd b w (upd a v (gpr c))) (u64 (sp c + off)) (pc c))
  | MovFromSp d => mret (Cpu (upd d (sp c) (gpr c)) (sp c) (pc c))
  | MovToSp s => mret (Cpu (gpr c) (gpr c s) (pc c))
  | Mov d s => mret (Cpu (upd d (gpr c s) (gpr c)) (sp c) (pc c))
  | Str t n => store64 (gpr c n) (gpr c t) ;; mret c
  | Ldr t n => v ← load64 (gpr c n); mret (Cpu (upd t v (gpr c)) (sp c) (pc c))
  | Branch target => mret (Cpu (gpr c) (sp c) target)
  | Ret => mret (Cpu (gpr c) (sp c) (gpr c 30))
  end.

Fixpoint run_code (code : list insn) (c : cpu) : M cpu :=
  match code with
  | [] => mret c
  | i :: rest => c' ← exec i c; run_code rest c'
  end.

Definition save_registers : list insn :=
  [StpPre 19 20 (-96); Stp 21 22 16; Stp 23 24 32; Stp 25 26 48; Stp 27 28 64; Stp 29 30 80].

Definition swap_stacks : list insn := [MovFromSp 2; Str 2 0; Ldr 2 1; MovToSp 2].

Definition restore_registers : list insn :=
  [Ldp 29 30 80; Ldp 27 28 64; Ldp 25 26 48; Ldp 23 24 32; Ldp 21 22 16; LdpPost 19 20 96].

Definition context_switch_code : list insn :=
  save_registers ++ swap_stacks ++ restore_registers ++ [Ret].

(** [thread_trampoline]: [thread_entry] is the address of threads::thread_entry. *)
Definition thread_trampoline_code (thread_entry : Z) : list insn := [Mov 0 19; Branch thread_entry].

(** [context_switch(prev_sp, next_sp)] *)
Definition context_switch (prev_sp next_sp : Z) (c : cpu) : M cpu :=
  run_code context_switch_code (Cpu (upd 1 next_sp (upd 0 prev_sp (gpr c))) (sp c) (pc c)).
End Exec.

(** ** The frame *)

(** [SavedFrame] at [t]: [x19] at the lowest address, [x30] at the highest. *)
Definition frame_at (m : mem) (t : Z) (g : reg → Z) : Prop :=
  ∀ i : nat, (i < 12)%nat → rd64 m (t + 8 * Z.of_nat i) = g (19 + i)%nat.

Definition disjoint (a n b k : Z) : Prop := a + n ≤ b ∨ b + k ≤ a.

Lemma frame_at_ext m m' t g :
  frame_at m t g → same_on (λ x, t ≤ x < t + 96) m m' → frame_at m' t g.
Proof.
  intros Hf Hs i Hi. rewrite <- (Hf i Hi). symmetry. apply rd64_ext.
  eapply same_on_weaken; [exact Hs|]. simpl. lia.
Qed.

Lemma frame_at_cases m t g :
  rd64 m t = g 19%nat → rd64 m (t + 8) = g 20%nat → rd64 m (t + 16) = g 21%nat →
  rd64 m (t + 24) = g 22%nat → rd64 m (t + 32) = g 23%nat → rd64 m (t + 40) = g 24%nat →
  rd64 m (t + 48) = g 25%nat → rd64 m (t + 56) = g 26%nat → rd64 m (t + 64) = g 27%nat →
  rd64 m (t + 72) = g 28%nat → rd64 m (t + 80) = g 29%nat → rd64 m (t + 88) = g 30%nat →
  frame_at m t g.
Proof.
  intros. intros i Hi. do 12 (destruct i as [|i]; [simpl; by rewrite ?Z.add_0_r|]). lia.
Qed.

Lemma frame_at_words m t g :
  frame_at m t g →
  rd64 m t = g 19%nat ∧ rd64 m (t + 8) = g 20%nat ∧ rd64 m (t + 16) = g 21%nat ∧
  rd64 m (t + 24) = g 22%nat ∧ rd64 m (t + 32) = g 23%nat ∧ rd64 m (t + 40) = g 24%nat ∧
  rd64 m (t + 48) = g 25%nat ∧ rd64 m (t + 56) = g 26%nat ∧ rd64 m (t + 64) = g 27%nat ∧
  rd64 m (t + 72) = g 28%nat ∧ rd64 m (t + 80) = g 29%nat ∧ rd64 m (t + 88) = g 30%nat.
Proof.
  intros Hf. rewrite <- (Z.add_0_r t) at 1.
  split_and!; [apply (Hf 0%nat)|apply (Hf 1%nat)|apply (Hf 2%nat)|apply (Hf 3%nat)|apply (Hf 4%nat)
    |apply (Hf 5%nat)|apply (Hf 6%nat)|apply (Hf 7%nat)|apply (Hf 8%nat)|apply (Hf 9%nat)
    |apply (Hf 10%nat)|apply (Hf 11%nat)]; lia.
Qed.

Section Run.
Context `{AddressSpace}.

Lemma run_code_app c1 c2 c m :
  run_code (c1 ++ c2) c m = (c' ← run_code c1 c; run_code c2 c') m.
Proof.
  revert c m; induction c1 as [|i c1 IH]; intros c m; [done|]. cbn [app run_code].
  rewrite bind_assoc_run. unfold mbind, ST_bind. destruct (exec i c m) as [[c' m']|]; [|done].
  apply IH.
Qed.

(** One instruction at a time. *)
Section Steps.
Context (c : cpu) (rest : list insn) (m : mem) (a b : reg) (off s : Z).
Hypothesis ADDR : s = sp c + off.
Hypothesis RANGE : 0 ≤ s ∧ s + 16 < 2 ^ 64.
Hypothesis MAPPED : mapped_range s 16.

Let mapped_lo : mapped_range s 8.
Proof. eapply mapped_range_sub; [exact MAPPED|lia|lia]. Qed.
Let mapped_hi : mapped_range (s + 8) 8.
Proof. eapply mapped_range_sub; [exact MAPPED|lia|lia]. Qed.

Definition stored_pair : mem := wr64 (wr64 m s (gpr c a)) (s + 8) (gpr c b).

Lemma run_stp : run_code (Stp a b off :: rest) c m = run_code rest c stored_pair.
Proof.
  cbn [run_code exec]. rewrite <- ADDR, (u64_small s), (u64_small (s + 8)) by lia. rewrite bind_assoc_run.
  mstep store64_run; [|exact mapped_lo]. rewrite bind_assoc_run.
  mstep store64_run; [|exact mapped_hi]. done.
Qed.

Lemma run_stp_pre :
  run_code (StpPre a b off :: rest) c m = run_code rest (Cpu (gpr c) s (pc c)) stored_pair.
Proof.
  cbn [run_code exec]. rewrite <- ADDR, (u64_small s), (u64_small (s + 8)) by lia. rewrite bind_assoc_run.
  mstep store64_run; [|exact mapped_lo]. rewrite bind_assoc_run.
  mstep store64_run; [|exact mapped_hi]. done.
Qed.

Definition loaded_pair : reg → Z := upd b (rd64 m (s + 8)) (upd a (rd64 m s) (gpr c)).

Lemma run_ldp :
  run_code (Ldp a b off :: rest) c m = run_code rest (Cpu loaded_pair (sp c) (pc c)) m.
Proof.
  cbn [run_code exec]. rewrite <- ADDR, (u64_small s), (u64_small (s + 8)) by lia.
  rewrite bind_assoc_run. mstep load64_run; [|exact mapped_lo]. rewrite bind_assoc_run.
  mstep load64_run; [|exact mapped_hi]. done.
Qed.
End Steps.

Lemma run_ldp_post c rest m a b off :
  0 ≤ sp c → sp c + off < 2 ^ 64 → 16 ≤ off → mapped_range (sp c) 16 →
  run_code (LdpPost a b off :: rest) c m =
    run_code rest (Cpu (loaded_pair c m a b (sp c)) (sp c + off) (pc c)) m.
Proof.
  intros Hs Hb Ho Hm. cbn [run_code exec].
  rewrite (u64_small (sp c + 8)), (u64_small (sp c + off)) by lia. rewrite bind_assoc_run.
  mstep load64_run; [|eapply mapped_range_sub; [exact Hm|lia|lia]]. rewrite bind_assoc_run.
  mstep load64_run; [|eapply mapped_range_sub; [exact Hm|lia|lia]]. done.
Qed.

(** Saving: the callee-saved registers are in a frame below the old stack
    pointer, and nothing else changed. *)
Lemma save_run c m s :
  s = sp c - 96 → 0 ≤ s → sp c < 2 ^ 64 → mapped_range s 96 → (∀ r, is_u64 (gpr c r)) →
  ∃ m', run_code save_registers c m = Some (Cpu (gpr c) s (pc c), m') ∧
    frame_at m' s (gpr c) ∧ same_on (λ x, x < s ∨ s + 96 ≤ x) m m'.
Proof.
  intros Es Hs Hb Hm Hg.
  assert (∀ o, 0 ≤ o ≤ 80 → mapped_range (s + o) 16) as Hsub.
  { intros o Ho. eapply mapped_range_sub; [exact Hm|lia|lia]. }
  unfold save_registers.
  rewrite (run_stp_pre c _ m _ _ (-96) s); [|lia|lia|rewrite <- (Z.add_0_r s); apply Hsub; lia].
  rewrite (run_stp _ _ _ _ _ 16 (s + 16)); [|done|lia|apply Hsub; lia].
  rewrite (run_stp _ _ _ _ _ 32 (s + 32)); [|done|lia|apply Hsub; lia].
  rewrite (run_stp _ _ _ _ _ 48 (s + 48)); [|done|lia|apply Hsub; lia].
  rewrite (run_stp _ _ _ _ _ 64 (s + 64)); [|done|lia|apply Hsub; lia].
  rewrite (run_stp _ _ _ _ _ 80 (s + 80)); [|done|lia|apply Hsub; lia].
  cbn [run_code]. eexists. split; [done|]. unfold stored_pair. cbn [gpr]. split.
  - pose proof Hg as Hg'. unfold is_u64 in Hg'.
    apply frame_at_cases; repeat (rewrite rd64_wr64_ne by lia); try apply rd64_wr64_eq, Hg';
      rewrite <- !Z.add_assoc; cbn [Z.add]; repeat (rewrite rd64_wr64_ne by lia);
      apply rd64_wr64_eq, Hg'.
  - intros x Hx. by rewrite !rd_wr64_out by lia.
Qed.

(** Restoring: every callee-saved register comes from the frame at [sp]. *)
Lemma restore_run c m g t :
  t = sp c → 0 ≤ t → t + 96 < 2 ^ 64 → mapped_range t 96 → frame_at m t g →
  ∃ c', run_code (restore_registers ++ [Ret]) c m = Some (c', m) ∧
    (∀ i, (19 ≤ i ≤ 30)%nat → gpr c' i = g i) ∧ sp c' = t + 96 ∧ pc c' = g 30%nat.
Proof.
  intros Et Ht Hb Hm Hf.
  assert (∀ o, 0 ≤ o ≤ 80 → mapped_range (t + o) 16) as Hsub.
  { intros o Ho. eapply mapped_range_sub; [exact Hm|lia|lia]. }
  unfold restore_registers. cbn [app].
  rewrite (run_ldp _ _ _ _ _ 80 (t + 80)); [|by rewrite Et|lia|apply Hsub; lia].
  rewrite (run_ldp _ _ _ _ _ 64 (t + 64)); [|by rewrite Et|lia|apply Hsub; lia].
  rewrite (run_ldp _ _ _ _ _ 48 (t + 48)); [|by rewrite Et|lia|apply Hsub; lia].
  rewrite (run_ldp _ _ _ _ _ 32 (t + 32)); [|by rewrite Et|lia|apply Hsub; lia].
  rewrite (run_ldp _ _ _ _ _ 16 (t + 16)); [|by rewrite Et|lia|apply Hsub; lia].
  rewrite run_ldp_post; cbn [sp]; [|lia|lia|lia|rewrite <- Et, <- (Z.add_0_r t); apply Hsub; lia].
  cbn [run_code exec]. eexists. split; [done|]. unfold loaded_pair. cbn [gpr sp pc].
  rewrite <- Et. replace (t + 80 + 8) with (t + 88) by lia. replace (t + 64 + 8) with (t + 72) by lia.
  replace (t + 48 + 8) with (t + 56) by lia. replace (t + 32 + 8) with (t + 40) by lia.
  replace (t + 16 + 8) with (t + 24) by lia.
  destruct (frame_at_words m t g Hf) as (-> & -> & -> & -> & -> & -> & -> & -> & -> & -> & -> & ->).
  split; [|done]. intros i Hi. do 19 (destruct i as [|i]; [lia|]).
  do 12 (destruct i as [|i]; [done|]). lia.
Qed.

(** Where a switch writes: the frame below the stack pointer, and the cell that
    receives it. *)
Definition written (c : cpu) (prev : Z) (x : Z) : Prop :=
  sp c - 96 ≤ x < sp c ∨ prev ≤ x < prev + 8.

(** The outgoing side: room for a frame on the stack, a cell for its address. *)
Definition can_leave (c : cpu) (prev : Z) : Prop :=
  96 ≤ sp c < 2 ^ 64 ∧ mapped_range (sp c - 96) 96 ∧ mapped_range prev 8 ∧
  disjoint prev 8 (sp c - 96) 96 ∧ is_u64 prev ∧ (∀ r, is_u64 (gpr c r)).

(** The incoming side: [next] holds the address [t] of a frame with the
    registers [g], none of it where the switch writes. *)
Definition can_enter (m : mem) (next t : Z) (g : reg → Z) (c : cpu) (prev : Z) : Prop :=
  mapped_range next 8 ∧ is_u64 next ∧ rd64 m next = t ∧ 0 ≤ t ∧ t + 96 < 2 ^ 64 ∧
  mapped_range t 96 ∧ frame_at m t g ∧
  (∀ x, next ≤ x < next + 8 ∨ t ≤ x < t + 96 → ¬ written c prev x).

Lemma context_switch_run c m prev next t g :
  can_leave c prev → can_enter m next t g c prev →
  ∃ c' m', context_switch prev next c m = Some (c', m') ∧
    (∀ i, (19 ≤ i ≤ 30)%nat → gpr c' i = g i) ∧ sp c' = t + 96 ∧ pc c' = g 30%nat ∧
    frame_at m' (sp c - 96) (gpr c) ∧ rd64 m' prev = sp c - 96 ∧
    same_on (λ x, ¬ written c prev x) m m'.
Proof.
  intros (Hs & Hm & Hpm & Hpd & Hp & Hg) (Hnm & Hn & Hnt & Ht & Ht' & Htm & Hf & Hdis).
  unfold context_switch, context_switch_code. rewrite run_code_app.
  set (c1 := Cpu _ _ _).
  destruct (save_run c1 m (sp c - 96)) as (m1 & E1 & Hf1 & Hs1); [done|lia|simpl; lia|done| |].
  { intros r. unfold c1, upd; simpl. repeat case_match; (done || apply Hg). }
  mstep E1. rewrite run_code_app. unfold swap_stacks. cbn [run_code].
  set (m2 := wr64 m1 prev (sp c - 96)).
  assert (same_on (λ x, ¬ written c prev x) m m2) as Hm2.
  { intros x Hx. unfold written in Hx. unfold m2. rewrite rd_wr64_out by lia. apply Hs1. lia. }
  assert (rd64 m2 next = t) as Hnt2.
  { rewrite <- Hnt. symmetry. apply rd64_ext. eapply same_on_weaken; [exact Hm2|].
    intros x Hx. apply Hdis. auto. }
  destruct (restore_run (Cpu (upd 2 t (upd 2 (sp c - 96) (gpr c1))) t (pc c)) m2 g t)
    as (c' & E2 & Hr & Hsp & Hpc); [done|done|lia|done| |].
  { eapply frame_at_ext; [exact Hf|]. eapply same_on_weaken; [exact Hm2|].
    intros x Hx. apply Hdis. auto. }
  exists c', m2. split.
  { erewrite bind_run; [exact E2|]. cbn [exec gpr sp pc]. erewrite bind_run by done.
    erewrite bind_run; [|mstep store64_run; [done|exact Hpm]].
    erewrite bind_run; [|mstep load64_run; [done|exact Hnm]].
    erewrite bind_run by done. unfold c1. cbn [gpr sp pc run_code].
    set (g2 := upd 2 (sp c - 96) _). change (g2 0%nat) with prev. change (g2 1%nat) with next.
    change (g2 2%nat) with (sp c - 96). fold m2. rewrite Hnt2. reflexivity. }
  split_and!; try done.
  - eapply frame_at_ext with (m := m1).
    + intros i Hi. rewrite (Hf1 i Hi). done.
    + intros x Hx. unfold m2, disjoint in *. rewrite rd_wr64_out by lia. done.
  - apply rd64_wr64_eq. lia.
Qed.

(** C17: switching back resumes the thread.  Let one thread call
    [context_switch] and let whatever runs then leave its saved frame and its
    TCB's cell alone (but change everything else).  When some thread switches
    to that cell, the first one continues right after its call: same stack
    pointer, same callee-saved registers, at its return address. *)
Theorem switch_back_resumes cA mA prevA next t g cB mB prevB :
  can_leave cA prevA → can_enter mA next t g cA prevA →
  (∀ c1 m1, context_switch prevA next cA mA = Some (c1, m1) →
     same_on (λ x, written cA prevA x) m1 mB) →
  can_leave cB prevB → (∀ x, written cA prevA x → ¬ written cB prevB x) →
  ∃ c' m', context_switch prevB prevA cB mB = Some (c', m') ∧
    sp c' = sp cA ∧ pc c' = gpr cA 30 ∧ (∀ i, (19 ≤ i ≤ 30)%nat → gpr c' i = gpr cA i).
Proof.
  intros HA HenA HmB HB Hdis.
  destruct (context_switch_run cA mA prevA next t g HA HenA)
    as (c1 & m1 & E1 & _ & _ & _ & Hf1 & Hc1 & _).
  specialize (HmB c1 m1 E1). destruct HA as (Hs & Hm & Hpm & _ & Hp & _).
  destruct (context_switch_run cB mB prevB prevA (sp cA - 96) (gpr cA) HB)
    as (c' & m' & E' & Hr & Hsp & Hpc & _).
  - split_and!; try done; try lia.
    + rewrite <- Hc1. symmetry. apply rd64_ext. eapply same_on_weaken; [exact HmB|].
      intros x Hx. by right.
    + eapply frame_at_ext; [exact Hf1|]. eapply same_on_weaken; [exact HmB|].
      intros x Hx. left. lia.
    + intros x Hx. apply Hdis. unfold written. lia.
  - exists c', m'. split_and!; try done. lia.
Qed.
End Run.

(** ** Two threads *)

#[local] Instance flat_space : AddressSpace := λ _, true.

Definition thread_a : cpu := Cpu (λ r, 7000 + Z.of_nat r mod 32) 1000 0.
Definition thread_b : cpu := Cpu (λ _, 5) 3000 0.

(** Thread B's TCB, at 108, points at its initial frame, at 2000. *)
Definition two_threads : mem := wr64 ∅ 108 2000.

Definition after_switch : mem :=
  from_option snd ∅ (context_switch 100 108 thread_a two_threads).

Lemma switch_back_resumes_witness :
  ∃ c' m', context_switch 108 100 thread_b after_switch = Some (c', m') ∧
    sp c' = 1000 ∧ pc c' = 7030 ∧ gpr c' 19 = 7019.
Proof.
  destruct (switch_back_resumes thread_a two_threads 100 108 2000 (λ _, 0) thread_b after_switch 108)
    as (c' & m' & E & Hs & Hp & Hr).
  - unfold can_leave, disjoint, is_u64; simpl. split_and!; try lia; try (intros ??; reflexivity).
    all: intros r; dlia.
  - unfold can_enter, is_u64; simpl. split_and!; try lia; try (intros ??; reflexivity).
    + apply rd64_wr64_eq. lia.
    + apply frame_at_cases; unfold two_threads; rewrite rd64_wr64_ne by lia; reflexivity.
    + unfold written; simpl. lia.
  - intros c1 m1 E1. unfold after_switch. rewrite E1. intros x _. reflexivity.
  - unfold can_leave, disjoint, is_u64; simpl. split_and!; try lia; try (intros ??; reflexivity).
    all: intros r; lia.
  - unfold written; simpl. lia.
  - exists c', m'. split; [exact E|]. split; [exact Hs|]. split; [exact Hp|].
    rewrite Hr by lia. reflexivity.
Defined.
