(* ===== verification/Threads.v ===== *)
(** * kernel/src/threads.cpp and tcb.cpp: building and destroying threads

    A [TCB] at address [t] holds [sp] at 0, [tid] at 8 and [stack_base] at 16.
    [make_tcb] allocates a stack and writes a fake [SavedFrame] at its top, so
    that the first [context_switch] into the thread starts it; the theorems
    follow a new thread from [make_thread_tcb] to its first instruction, and its
    memory back to the allocator. *)

From S2P Require Import Prelude Memory Spinlock Heap HeapInv HeapCorrect HeapProps Alloc.
From S2P Require Import ContextSwitch SpinQueue.

Local Open Scope machine_scope.

Definition kStackSize : Z := 64 * 1024.
(** [sizeof(SavedFrame)] and [sizeof(TCB)] *)
Definition kFrameSize : Z := 96.
Definition kTcbSize : Z := 24.

Section Threads.
Context {AS : AddressSpace} {AL : Allocator}.
(** The addresses of [g_next_tid], [thread_trampoline] and [thread_entry]. *)
Context (g_next_tid thread_trampoline thread_entry : Z).

(** [*frame = {}] *)
Fixpoint zero_words (a : Z) (n : nat) : M unit :=
  match n with
  | O => mret tt
  | S k => store64 a 0 ;; zero_words (a +₆₄ 8) k
  end.

(** [__atomic_fetch_add(&g_next_tid, 1)] *)
Definition next_tid : M Z :=
  tid ← load64 g_next_tid;
  store64 g_next_tid (tid +₆₄ 1) ;;
  mret tid.

Definition TCB_construct (tcb initial_sp stack_base : Z) : M unit :=
  store64 tcb initial_sp ;;
  tid ← next_tid;
  store64 (tcb +₆₄ 8) tid ;;
  store64 (tcb +₆₄ 16) stack_base.

(** [delete tcb]: [~TCB()], then the object. *)
Definition TCB_delete (tcb : Z) : M unit :=
  base ← load64 (tcb +₆₄ 16);
  dealloc base ;;
  dealloc tcb.

(** [switch_to(prev, next)]; [scratch] is the address of its local variable. *)
Definition switch_to (prev next scratch : Z) (c : cpu) : M cpu :=
  context_switch (if prev =? 0 then scratch else prev) next c.

Definition make_tcb (entry : Z) : M Z :=
  stack ← alloc kStackSize;
  let stack_top := stack +₆₄ kStackSize in
  let frame := stack_top -₆₄ kFrameSize in
  zero_words frame 12 ;;
  store64 (frame +₆₄ 88) entry ;;
  tcb ← alloc kTcbSize;
  TCB_construct tcb frame stack ;;
  mret tcb.

Definition make_thread_tcb (func : Z) : M Z :=
  tcb ← make_tcb thread_trampoline;
  s ← load64 tcb;
  store64 s func ;;
  mret tcb.

(** ** Properties *)

Lemma zero_words_run a n m :
  0 ≤ a → a + 8 * Z.of_nat n < 2 ^ 64 → mapped_range a (8 * Z.of_nat n) →
  ∃ m', zero_words a n m = Some (tt, m') ∧
    (∀ i : nat, (i < n)%nat → rd64 m' (a + 8 * Z.of_nat i) = 0) ∧
    same_on (λ x, x < a ∨ a + 8 * Z.of_nat n ≤ x) m m'.
Proof.
  revert a m; induction n as [|n IH]; intros a m Ha Hb Hm.
  { exists m. split; [done|]. split; [intros i Hi; lia|done]. }
  cbn [zero_words]. mstep store64_run; [|eapply mapped_range_sub; [exact Hm|lia|lia]].
  rewrite u64_small by lia.
  destruct (IH (a + 8) (wr64 m a 0)) as (m' & E & Hz & Hs);
    [lia|lia|eapply mapped_range_sub; [exact Hm|lia|lia]|].
  exists m'. split; [done|]. split.
  - intros [|i] Hi.
    + rewrite Z.add_0_r. rewrite <- (rd64_wr64_eq m a 0) by lia. symmetry. apply rd64_ext.
      eapply same_on_weaken; [exact Hs|]. simpl. lia.
    + rewrite <- (Hz i) by lia. f_equal. lia.
  - intros x Hx. rewrite <- Hs by lia. by rewrite rd_wr64_out by lia.
Qed.

(** The cell of the thread-id counter lies outside the heap. *)
Definition tid_cell (x : Z) : Prop := g_next_tid ≤ x < g_next_tid + 8.

Definition tid_ok : Prop :=
  is_u64 g_next_tid ∧ mapped_range g_next_tid 8 ∧ ∀ x, tid_cell x → ¬ alloc_private x.

(** A thread that has never run: [entry] is where its first switch goes. *)
Definition fresh_thread (m : mem) (L : gmap Z Z) (tcb stack : Z) (g : reg → Z) : Prop :=
  ∃ tcap scap, L !! tcb = Some tcap ∧ L !! stack = Some scap ∧ tcb ≠ stack ∧
    kTcbSize ≤ tcap ∧ kStackSize ≤ scap ∧
    rd64 m tcb = stack + kStackSize - kFrameSize ∧ rd64 m (tcb + 16) = stack ∧
    frame_at m (stack + kStackSize - kFrameSize) g.

Definition entry_frame (entry x19 : Z) : reg → Z := upd 30 entry (upd 19 x19 (λ _, 0)).

(** The zeroed frame with its return address. *)
Lemma entry_frame_run stack entry m :
  0 ≤ stack → stack + kStackSize < 2 ^ 64 → mapped_range stack kStackSize → is_u64 entry →
  let frame := stack + kStackSize - kFrameSize in
  ∃ m', (zero_words frame 12 ;; store64 (frame +₆₄ 88) entry) m = Some (tt, m') ∧
    frame_at m' frame (entry_frame entry 0) ∧
    same_on (λ x, x < stack ∨ stack + kStackSize ≤ x) m m'.
Proof.
  intros Hs Hb Hm He frame. unfold kStackSize, kFrameSize in *.
  destruct (zero_words_run frame 12 m) as (m1 & E & Hz & Hsame);
    [lia|simpl; lia|eapply mapped_range_sub; [exact Hm|lia|simpl; lia]|].
  mstep E. rewrite u64_small by lia.
  rewrite store64_run by (eapply mapped_range_sub; [exact Hm|lia|lia]).
  eexists. split; [done|]. split.
  - intros i Hi. unfold entry_frame, upd. destruct (decide (i = 11)%nat) as [->|].
    + by apply rd64_wr64_eq.
    + rewrite rd64_wr64_ne, Hz by lia. do 11 (destruct i as [|i]; [done|]). lia.
  - intros x Hx. rewrite rd_wr64_out by lia. apply Hsame. simpl. lia.
Qed.

Lemma TCB_construct_run tcb sp0 base m :
  0 ≤ tcb → tcb + 24 < 2 ^ 64 → mapped_range tcb 24 → tid_ok →
  disjoint tcb 24 g_next_tid 8 → is_u64 sp0 → is_u64 base →
  ∃ m', TCB_construct tcb sp0 base m = Some (tt, m') ∧
    rd64 m' tcb = sp0 ∧ rd64 m' (tcb + 8) = rd64 m g_next_tid ∧ rd64 m' (tcb + 16) = base ∧
    rd64 m' g_next_tid = u64 (rd64 m g_next_tid + 1) ∧
    same_on (λ x, ¬ (tcb ≤ x < tcb + 24) ∧ ¬ tid_cell x) m m'.
Proof.
  unfold disjoint. intros Ht Hb Hm (Hg & Hgm & _) Hd Hsp Hba. unfold TCB_construct.
  mstep store64_run; [|eapply mapped_range_sub; [exact Hm|lia|lia]].
  set (m1 := wr64 m tcb sp0). unfold next_tid. rewrite bind_assoc_run.
  mstep load64_run; [|exact Hgm]. rewrite bind_assoc_run. mstep store64_run; [|exact Hgm].
  erewrite bind_run by done. rewrite (u64_small (tcb + 8)), (u64_small (tcb + 16)) by lia.
  mstep store64_run; [|eapply mapped_range_sub; [exact Hm|lia|lia]].
  rewrite store64_run by (eapply mapped_range_sub; [exact Hm|lia|lia]).
  assert (rd64 m1 g_next_tid = rd64 m g_next_tid) as -> by (apply rd64_wr64_ne; lia).
  pose proof (u64_range (rd64 m g_next_tid + 1)). pose proof (rd64_range m g_next_tid).
  eexists. split; [done|]. split_and!.
  - rewrite !rd64_wr64_ne by lia. by apply rd64_wr64_eq.
  - rewrite rd64_wr64_ne by lia. by apply rd64_wr64_eq.
  - by apply rd64_wr64_eq.
  - rewrite !rd64_wr64_ne by lia. by apply rd64_wr64_eq.
  - intros x [Hx Hx']. unfold tid_cell, m1 in *. by rewrite !rd_wr64_out by lia.
Qed.

Lemma in_live_block L p n x : L !! p = Some n → p ≤ x < p + n → in_live L x.
Proof. intros. by exists p, n. Qed.

(** The first half of [make_tcb]: a stack with the frame at its top. *)
Lemma prepare_stack_run entry m L stack m1 :
  alloc_inv m L → is_u64 entry → alloc kStackSize m = Some (stack, m1) →
  let frame := stack + kStackSize - kFrameSize in
  ∃ scap m2, (zero_words frame 12 ;; store64 (frame +₆₄ 88) entry) m1 = Some (tt, m2) ∧
    (stack +₆₄ kStackSize) -₆₄ kFrameSize = frame ∧ kStackSize ≤ scap ∧ L !! stack = None ∧
    0 < stack ∧ stack + scap < 2 ^ 64 ∧
    alloc_inv m1 (<[stack := scap]> L) ∧ alloc_inv m2 (<[stack := scap]> L) ∧
    frame_at m2 frame (entry_frame entry 0) ∧ same_on (stable L) m m2 ∧
    same_on (λ x, x < stack ∨ stack + kStackSize ≤ x) m1 m2.
Proof.
  intros Hinv He E1 frame.
  destruct (alloc_spec m L kStackSize stack m1 Hinv) as (scap & Hsc & Hn & Hinv1 & Hb1 & Hs1);
    [unfold kStackSize; lia|done|].
  assert (<[stack := scap]> L !! stack = Some scap) as Hl by apply lookup_insert_eq.
  destruct (alloc_block m1 _ stack scap Hinv1 Hl) as (Hp & Hp' & _ & Hm & _).
  destruct (entry_frame_run stack entry m1) as (m2 & E2 & Hf & Hs2);
    [lia|lia|eapply mapped_range_sub; [exact Hm|lia|lia]|done|].
  exists scap, m2. split; [done|]. split.
  { unfold kStackSize, kFrameSize in *. rewrite (u64_small (stack + _)), u64_small; lia. }
  split_and!; try done.
  - eapply (alloc_inv_others m1 m2 _ (λ x, stack ≤ x < stack + kStackSize)); [done| |].
    + intros x Hx. left. eapply in_live_block; [done|lia].
    + eapply same_on_weaken; [exact Hs2|]. simpl. lia.
  - intros x Hx. rewrite (Hs1 x Hx). apply Hs2.
    destruct (decide (stack ≤ x < stack + kStackSize)); [|lia]. exfalso.
    destruct (Hb1 x ltac:(lia)) as [Hpr Hnl]. by destruct Hx.
Qed.

(** The second half: the TCB. *)
Lemma finish_tcb_run sp0 base m L tcb m1 :
  alloc_inv m L → tid_ok → is_u64 sp0 → is_u64 base → alloc kTcbSize m = Some (tcb, m1) →
  ∃ tcap m2, TCB_construct tcb sp0 base m1 = Some (tt, m2) ∧ kTcbSize ≤ tcap ∧ L !! tcb = None ∧
    alloc_inv m1 (<[tcb := tcap]> L) ∧ alloc_inv m2 (<[tcb := tcap]> L) ∧
    rd64 m2 tcb = sp0 ∧ rd64 m2 (tcb + 8) = rd64 m g_next_tid ∧ rd64 m2 (tcb + 16) = base ∧
    rd64 m2 g_next_tid = u64 (rd64 m g_next_tid + 1) ∧
    same_on (λ x, stable L x ∧ ¬ tid_cell x) m m2 ∧
    same_on (λ x, ¬ (tcb ≤ x < tcb + 24) ∧ ¬ tid_cell x) m1 m2.
Proof.
  intros Hinv Htid Hsp Hba E. pose proof Htid as (Hg & _ & Hpriv).
  destruct (alloc_spec m L kTcbSize tcb m1 Hinv) as (tcap & Htc & Hn & Hinv1 & Hb1 & Hs1);
    [unfold kTcbSize; lia|done|].
  assert (<[tcb := tcap]> L !! tcb = Some tcap) as Hl by apply lookup_insert_eq.
  destruct (alloc_block m1 _ tcb tcap Hinv1 Hl) as (Hp & Hp' & _ & Hm & Hpr). unfold kTcbSize in *.
  destruct (TCB_construct_run tcb sp0 base m1) as (m2 & E2 & R1 & R2 & R3 & R4 & Hs2);
    try done; try lia.
  { eapply mapped_range_sub; [exact Hm|lia|lia]. }
  { unfold disjoint. destruct (decide (tcb + 24 ≤ g_next_tid)); [by left|].
    destruct (decide (g_next_tid + 8 ≤ tcb)); [by right|]. exfalso.
    apply (Hpriv (Z.max tcb g_next_tid)); [unfold tid_cell; lia|apply Hpr; lia]. }
  assert (rd64 m1 g_next_tid = rd64 m g_next_tid) as Etid.
  { symmetry. apply rd64_ext. intros x Hx. apply Hs1. right. by apply Hpriv. }
  rewrite Etid in *. exists tcap, m2. split_and!; try done.
  - eapply (alloc_inv_others m1 m2 _ (λ x, tcb ≤ x < tcb + 24 ∨ tid_cell x)); [done| |].
    + intros x [Hx|Hx]; [left; apply (in_live_block _ tcb tcap); [done|lia]|right; by apply Hpriv].
    + eapply same_on_weaken; [exact Hs2|]. simpl. tauto.
  - intros x [Hx Hc]. rewrite (Hs1 x Hx). apply Hs2. split; [|done]. intros Hx'.
    destruct (Hb1 x ltac:(lia)) as [Hprx Hnl]. by destruct Hx.
Qed.

Lemma live_not_tid m L x : alloc_inv m L → tid_ok → in_live L x → ¬ tid_cell x.
Proof.
  intros Hinv (_ & _ & Hpriv) (q & k & Hq & Hx) Hc. apply (Hpriv x Hc).
  destruct (alloc_block m L q k Hinv Hq) as (_ & _ & _ & _ & Hpr). by apply Hpr.
Qed.

(** [make_tcb] allocates a stack and a TCB and prepares the first switch. *)
Lemma make_tcb_run entry m L tcb m' :
  alloc_inv m L → tid_ok → is_u64 entry → make_tcb entry m = Some (tcb, m') →
  ∃ stack L', alloc_inv m' L' ∧ fresh_thread m' L' tcb stack (entry_frame entry 0) ∧
    L !! tcb = None ∧ L !! stack = None ∧ delete stack (delete tcb L') = L ∧
    rd64 m' (tcb + 8) = rd64 m g_next_tid ∧
    rd64 m' g_next_tid = u64 (rd64 m g_next_tid + 1) ∧
    same_on (λ x, stable L x ∧ ¬ tid_cell x) m m'.
Proof.
  intros Hinv Htid He E. pose proof Htid as (Hg & _ & Hpriv). unfold make_tcb in E.
  apply bind_run_inv in E as (stack & m1 & E1 & E).
  destruct (prepare_stack_run entry m L stack m1 Hinv He E1)
    as (scap & m2 & E2 & Efr & Hsc & Hn1 & Hp1 & Hb1 & _ & Hinv2 & Hf2 & Hs2 & _).
  rewrite Efr in E. rewrite <- bind_assoc_run in E. rewrite (bind_run _ _ _ _ _ E2) in E.
  set (L1 := <[stack := scap]> L) in *.
  assert (L1 !! stack = Some scap) as Hl1 by apply lookup_insert_eq.
  apply bind_run_inv in E as (tcb' & m3 & E3 & E).
  destruct (finish_tcb_run (stack + kStackSize - kFrameSize) stack m2 L1 tcb' m3)
    as (tcap & m4 & E4 & Htc & Hn3 & _ & Hinv4 & R1 & R2 & R3 & R4 & Hs4 & _);
    try done; try (unfold kStackSize, kFrameSize, is_u64 in *; lia).
  rewrite (bind_run _ _ _ _ _ E4) in E. injection E as <- <-.
  assert (tcb' ≠ stack) as Hne by congruence.
  assert (rd64 m2 g_next_tid = rd64 m g_next_tid) as Etid.
  { symmetry. apply rd64_ext. intros x Hx. apply Hs2. right. by apply Hpriv. }
  rewrite Etid in *. exists stack, (<[tcb' := tcap]> L1). split_and!; try done.
  - exists tcap, scap. split_and!; try done; [apply lookup_insert_eq|by rewrite lookup_insert_ne|].
    eapply frame_at_ext; [exact Hf2|]. intros x Hx. apply Hs4.
    assert (in_live L1 x) as Hx1 by (apply (in_live_block L1 stack scap); [done|unfold kStackSize, kFrameSize in *; lia]).
    split; [by left|by eapply (live_not_tid m2 L1)].
  - unfold L1 in Hn3. by rewrite lookup_insert_ne in Hn3 by done.
  - unfold L1. rewrite delete_insert_id by done. by rewrite delete_insert_id.
  - intros x [Hx Hc]. rewrite (Hs2 x Hx). apply Hs4. split; [|done].
    destruct Hx as [(q & k & Hq & Hx)|Hx]; [left|by right].
    exists q, k. unfold L1. by rewrite lookup_insert_ne by congruence.
Qed.

(** With enough room it returns, and there is room left. *)
Definition kThreadRoom : Z := kStackSize + kTcbSize + 160.

Lemma make_tcb_total entry m L r :
  alloc_roomy m L r → tid_ok → is_u64 entry → kThreadRoom ≤ r →
  ∃ tcb m' L', make_tcb entry m = Some (tcb, m') ∧ alloc_roomy m' L' (r - kThreadRoom).
Proof.
  intros Hroom Htid He Hr. pose proof Htid as (Hg & _ & Hpriv).
  unfold kThreadRoom, kStackSize, kTcbSize in Hr.
  destruct (alloc_total m L kStackSize r Hroom) as (stack & m1 & L1 & E1 & Hroom1);
    [done|unfold kStackSize; lia|].
  destruct (prepare_stack_run entry m L stack m1 (roomy_inv _ _ _ Hroom) He E1)
    as (scap & m2 & E2 & Efr & Hsc & Hn1 & Hp1 & Hb1 & Hinv1 & Hinv2 & Hf2 & _ & Hs2).
  rewrite (alloc_agree _ _ _ (roomy_inv _ _ _ Hroom1) Hinv1) in Hroom1.
  assert (<[stack := scap]> L !! stack = Some scap) as Hl1 by apply lookup_insert_eq.
  assert (alloc_roomy m2 (<[stack := scap]> L) (r - (kStackSize + 80))) as Hroom2.
  { eapply (roomy_others m1 m2 _ _ (λ x, stack ≤ x < stack + kStackSize)); [done| |].
    - intros x Hx. left. eapply in_live_block; [done|lia].
    - eapply same_on_weaken; [exact Hs2|]. simpl. lia. }
  destruct (alloc_total m2 _ kTcbSize _ Hroom2) as (tcb & m3 & L3 & E3 & Hroom3);
    [done|unfold kStackSize, kTcbSize; lia|].
  destruct (finish_tcb_run (stack + kStackSize - kFrameSize) stack m2 _ tcb m3 Hinv2)
    as (tcap & m4 & E4 & Htc & Hn3 & Hinv3 & _ & _ & _ & _ & _ & _ & Hs4);
    try done; try (unfold kStackSize, kFrameSize, is_u64 in *; lia).
  rewrite (alloc_agree _ _ _ (roomy_inv _ _ _ Hroom3) Hinv3) in Hroom3.
  exists tcb, m4, (<[tcb := tcap]> (<[stack := scap]> L)). split.
  - unfold make_tcb. rewrite (bind_run _ _ _ _ _ E1), Efr, <- bind_assoc_run.
    rewrite (bind_run _ _ _ _ _ E2), (bind_run _ _ _ _ _ E3), (bind_run _ _ _ _ _ E4). done.
  - replace (r - kThreadRoom) with (r - (kStackSize + 80) - (kTcbSize + 80))
      by (unfold kThreadRoom; lia).
    eapply (roomy_others m3 m4 _ _ (λ x, tcb ≤ x < tcb + 24 ∨ tid_cell x)); [done| |].
    + intros x [Hx|Hx]; [left|right; by apply Hpriv].
      apply (in_live_block _ tcb tcap); [apply lookup_insert_eq|unfold kTcbSize in *; lia].
    + eapply same_on_weaken; [exact Hs4|]. simpl. tauto.
Qed.

Lemma fresh_thread_block m L tcb stack g :
  alloc_inv m L → fresh_thread m L tcb stack g →
  mapped_range tcb 24 ∧ 0 < tcb ∧ tcb + 24 < 2 ^ 64 ∧
  mapped_range (stack + kStackSize - kFrameSize) 96 ∧ 0 < stack ∧
  stack + kStackSize < 2 ^ 64 ∧ (stack + kStackSize) mod 16 = 0.
Proof.
  intros Hinv (tcap & scap & Ht & Hs & _ & Htc & Hsc & _).
  destruct (alloc_block m L tcb tcap Hinv Ht) as (? & ? & _ & Hm1 & _).
  destruct (alloc_block m L stack scap Hinv Hs) as (? & ? & ? & Hm2 & _).
  unfold kTcbSize, kStackSize, kFrameSize in *. split_and!; try lia; try dlia.
  - eapply mapped_range_sub; [exact Hm1|lia|lia].
  - eapply mapped_range_sub; [exact Hm2|lia|lia].
Qed.

(** Writing [x19] of the prepared frame: the function the thread is to run. *)
Lemma make_thread_tcb_run func m L tcb m' :
  alloc_inv m L → tid_ok → is_u64 thread_trampoline → is_u64 func →
  make_thread_tcb func m = Some (tcb, m') →
  ∃ stack L', alloc_inv m' L' ∧
    fresh_thread m' L' tcb stack (entry_frame thread_trampoline func) ∧
    L !! tcb = None ∧ L !! stack = None ∧ delete stack (delete tcb L') = L ∧
    rd64 m' (tcb + 8) = rd64 m g_next_tid ∧
    rd64 m' g_next_tid = u64 (rd64 m g_next_tid + 1) ∧
    same_on (λ x, stable L x ∧ ¬ tid_cell x) m m'.
Proof.
  intros Hinv Htid Htr Hfu E. apply bind_run_inv in E as (tcb' & m1 & E1 & E).
  destruct (make_tcb_run thread_trampoline m L tcb' m1 Hinv Htid Htr E1)
    as (stack & L' & Hinv1 & Hft & Hn1 & Hn2 & HL & Ht1 & Ht2 & Hsame).
  destruct (fresh_thread_block _ _ _ _ _ Hinv1 Hft) as (Hm1 & Hp1 & Hb1 & Hm2 & Hp2 & Hb2 & _).
  pose proof Hft as (tcap & scap & Hl1 & Hl2 & Hne & Htc & Hsc & Esp & Eb & Hf).
  set (frame := stack + kStackSize - kFrameSize) in *.
  rewrite (bind_run _ _ _ _ _ (load64_run m1 tcb' ltac:(eapply mapped_range_sub; [exact Hm1|lia|lia]))) in E.
  rewrite Esp in E.
  rewrite (bind_run _ _ _ _ _ (store64_run m1 frame func ltac:(eapply mapped_range_sub; [exact Hm2|lia|lia]))) in E.
  injection E as <- <-. unfold kStackSize, kFrameSize, kTcbSize in *.
  assert (∀ x, frame ≤ x < frame + 8 → stack ≤ x < stack + scap) as Hin by lia.
  assert (∀ x, tcb' ≤ x < tcb' + 24 → ¬ (frame ≤ x < frame + 8)) as Hdis.
  { intros x Hx Hx'. destruct (alloc_disjoint m1 L' tcb' tcap stack scap Hinv1 Hl1 Hl2 Hne); lia. }
  assert (∀ a, tcb' ≤ a → a + 8 ≤ tcb' + 24 → rd64 (wr64 m1 frame func) a = rd64 m1 a) as Hrd.
  { intros a Ha Ha'. apply rd64_ext. intros x Hx. apply rd_wr64_out.
    specialize (Hdis x ltac:(lia)). lia. }
  assert (∀ x, stable L x ∨ tid_cell x → ¬ (stack ≤ x < stack + scap)) as Hst.
  { intros x [[(q & k & Hq & Hx)|Hx]|Hx] Hx'.
    - assert (L' !! q = Some k) as Hq'.
      { rewrite <- HL in Hq. apply lookup_delete_Some in Hq as [_ Hq].
        by apply lookup_delete_Some in Hq as [_ Hq]. }
      destruct (alloc_disjoint m1 L' q k stack scap Hinv1 Hq' Hl2); [congruence|lia..].
    - apply Hx. by eapply (alloc_block m1 L' stack scap).
    - apply (proj2 (proj2 Htid) x Hx). by eapply (alloc_block m1 L' stack scap). }
  exists stack, L'. split_and!; try done.
  - eapply (alloc_inv_others m1 _ L' (λ x, frame ≤ x < frame + 8)); [done| |].
    + intros x Hx. left. apply (in_live_block L' stack scap); [done|]. by apply Hin.
    + intros x Hx. symmetry. apply rd_wr64_out. lia.
  - exists tcap, scap. split_and!; try done; [by rewrite Hrd by lia..|].
    intros i Hi. unfold kStackSize, kFrameSize. fold frame.
    destruct (decide (i = 0)%nat) as [->|].
    + rewrite Z.add_0_r. by apply rd64_wr64_eq.
    + rewrite rd64_wr64_ne, (Hf i Hi) by lia. unfold entry_frame, upd.
      by do 12 (destruct i as [|i]; [done|]).
  - by rewrite Hrd by lia.
  - rewrite <- Ht2. apply rd64_ext. intros x Hx. apply rd_wr64_out.
    specialize (Hst x (or_intror Hx)). lia.
  - intros x [Hx Hc]. rewrite (Hsame x) by done. symmetry. apply rd_wr64_out.
    specialize (Hst x (or_introl Hx)). lia.
Qed.

Lemma make_thread_tcb_total func m L r :
  alloc_roomy m L r → tid_ok → is_u64 thread_trampoline → kThreadRoom ≤ r →
  ∃ tcb m' L', make_thread_tcb func m = Some (tcb, m') ∧ alloc_roomy m' L' (r - kThreadRoom).
Proof.
  intros Hroom Htid Htr Hr.
  destruct (make_tcb_total thread_trampoline m L r Hroom Htid Htr Hr) as (tcb & m1 & L1 & E1 & Hroom1).
  destruct (make_tcb_run thread_trampoline m L tcb m1 (roomy_inv _ _ _ Hroom) Htid Htr E1)
    as (stack & L' & Hinv1 & Hft & _).
  rewrite (alloc_agree _ _ _ (roomy_inv _ _ _ Hroom1) Hinv1) in Hroom1.
  destruct (fresh_thread_block _ _ _ _ _ Hinv1 Hft) as (Hm1 & _ & _ & Hm2 & _).
  destruct Hft as (tcap & scap & _ & Hl2 & _ & _ & Hsc & Esp & _).
  set (frame := stack + kStackSize - kFrameSize) in *.
  exists tcb, (wr64 m1 frame func), L'. split.
  - unfold make_thread_tcb. rewrite (bind_run _ _ _ _ _ E1).
    mstep load64_run; [|eapply mapped_range_sub; [exact Hm1|lia|lia]]. rewrite Esp.
    mstep store64_run; [done|eapply mapped_range_sub; [exact Hm2|lia|lia]].
  - eapply (roomy_others m1 _ _ _ (λ x, frame ≤ x < frame + 8)); [done| |].
    + intros x Hx. left. apply (in_live_block L' stack scap); [done|].
      unfold frame, kStackSize, kFrameSize in *. lia.
    + intros x Hx. symmetry. apply rd_wr64_out. lia.
Qed.

(** C16: a new thread runs its function.  [make_thread_tcb(func)] takes a fresh
    stack and TCB from the allocator and the next thread id; and whenever some
    core, without having touched them, first switches to that TCB (from any
    thread, or from none), it arrives at the trampoline with an aligned stack
    pointer at the top of the new stack, and the trampoline calls
    [thread_entry(func)]. *)
Theorem new_thread_runs_function func m L tcb m1 :
  alloc_inv m L → tid_ok → is_u64 thread_trampoline → is_u64 func →
  make_thread_tcb func m = Some (tcb, m1) →
  ∃ stack L', alloc_inv m1 L' ∧ L !! tcb = None ∧ L !! stack = None ∧
    delete stack (delete tcb L') = L ∧ rd64 m1 (tcb + 8) = rd64 m g_next_tid ∧
    ∀ c prev scratch m2,
      let cell := if prev =? 0 then scratch else prev in
      (∀ x, tcb ≤ x < tcb + 24 ∨ stack ≤ x < stack + kStackSize →
         rd m1 x = rd m2 x ∧ ¬ written c cell x) →
      can_leave c cell →
      ∃ c' m3, switch_to prev tcb scratch c m2 = Some (c', m3) ∧
        pc c' = thread_trampoline ∧ sp c' = stack + kStackSize ∧ sp c' mod 16 = 0 ∧
        ∃ c'', run_code (thread_trampoline_code thread_entry) c' m3 = Some (c'', m3) ∧
          pc c'' = thread_entry ∧ gpr c'' 0 = func ∧ sp c'' = sp c'.
Proof.
  intros Hinv Htid Htr Hfu E.
  destruct (make_thread_tcb_run func m L tcb m1 Hinv Htid Htr Hfu E)
    as (stack & L' & Hinv1 & Hft & Hn1 & Hn2 & HL & Ht1 & _).
  destruct (fresh_thread_block _ _ _ _ _ Hinv1 Hft) as (Hm1 & Hp1 & Hb1 & Hm2 & Hp2 & Hb2 & Hal).
  destruct Hft as (tcap & scap & _ & _ & _ & _ & _ & Esp & _ & Hf).
  exists stack, L'. split_and!; try done. intros c prev scratch m2 cell Hsame Hleave.
  unfold kStackSize, kFrameSize in *. set (frame := stack + 64 * 1024 - 96) in *.
  destruct (context_switch_run c m2 cell tcb frame (entry_frame thread_trampoline func) Hleave)
    as (c' & m3 & E3 & Hr & Hsp & Hpc & _).
  { unfold can_enter, is_u64. split_and!; try done; try lia.
    - eapply mapped_range_sub; [exact Hm1|lia|lia].
    - rewrite <- Esp. symmetry. apply rd64_ext. intros x Hx. apply Hsame. lia.
    - eapply frame_at_ext; [exact Hf|]. intros x Hx. apply Hsame. lia.
    - intros x Hx. apply Hsame. lia. }
  exists c', m3. assert (sp c' = stack + 64 * 1024) as Hsp' by lia.
  split; [done|]. split; [done|]. split; [done|]. split; [by rewrite Hsp'|].
  eexists. split; [done|]. split; [done|]. split; [|done]. simpl.
  rewrite (Hr 19%nat) by lia. done.
Qed.

(** C38: deleting a thread returns its memory.  For a thread made by
    [make_thread_tcb], whatever it did with its stack and saved stack pointer,
    [delete tcb] frees its stack and its TCB, and nothing else: the allocator is
    back to the blocks in use before the thread was made. *)
Theorem delete_thread_returns_memory func m L tcb m1 m2 :
  alloc_inv m L → tid_ok → is_u64 thread_trampoline → is_u64 func →
  make_thread_tcb func m = Some (tcb, m1) →
  (let stack := rd64 m1 (tcb + 16) in
   same_on (λ x, ¬ (stack ≤ x < stack + kStackSize) ∧ ¬ (tcb ≤ x < tcb + 8)) m1 m2) →
  ∃ m3, TCB_delete tcb m2 = Some (tt, m3) ∧ alloc_inv m3 L ∧ same_on (stable L) m2 m3.
Proof.
  intros Hinv Htid Htr Hfu E Hsame.
  destruct (make_thread_tcb_run func m L tcb m1 Hinv Htid Htr Hfu E)
    as (stack & L' & Hinv1 & Hft & Hn1 & Hn2 & HL & _).
  destruct (fresh_thread_block _ _ _ _ _ Hinv1 Hft) as (Hm1 & Hp1 & Hb1 & _).
  destruct Hft as (tcap & scap & Hl1 & Hl2 & Hne & Htc & Hsc & _ & Eb & _).
  cbv zeta in Hsame. rewrite Eb in Hsame. unfold kStackSize, kTcbSize in *.
  assert (alloc_inv m2 L') as Hinv2.
  { eapply (alloc_inv_others m1 m2 L' (λ x, stack ≤ x < stack + 64 * 1024 ∨ tcb ≤ x < tcb + 8));
      [done| |eapply same_on_weaken; [exact Hsame|]; simpl; tauto].
    intros x Hx. left. destruct Hx as [Hx|Hx];
      [apply (in_live_block L' stack scap)|apply (in_live_block L' tcb tcap)]; (done || lia). }
  assert (rd64 m2 (tcb + 16) = stack) as Eb2.
  { rewrite <- Eb. symmetry. apply rd64_ext. intros x Hx. apply Hsame. split; [|lia].
    intros Hx'. destruct (alloc_disjoint m1 L' tcb tcap stack scap Hinv1 Hl1 Hl2 Hne); lia. }
  unfold TCB_delete. rewrite (u64_small (tcb + 16)) by lia.
  mstep load64_run; [|eapply mapped_range_sub; [exact Hm1|lia|lia]]. rewrite Eb2.
  destruct (dealloc_spec m2 L' stack scap Hinv2 Hl2) as (m3 & E3 & Hinv3 & Hs3). mstep E3.
  destruct (dealloc_spec m3 (delete stack L') tcb tcap Hinv3) as (m4 & E4 & Hinv4 & Hs4).
  { by rewrite lookup_delete_ne. }
  exists m4. rewrite delete_delete, HL in Hinv4. split; [done|]. split; [done|].
  assert (∀ q k, L !! q = Some k → q ≠ stack ∧ L' !! q = Some k) as HL'.
  { intros q k Hq. split; [congruence|]. rewrite <- HL in Hq.
    by do 2 apply lookup_delete_Some in Hq as [_ Hq]. }
  intros x Hx. rewrite (Hs3 x).
  - apply Hs4. destruct Hx as [(q & k & Hq & Hx)|Hx]; [left|by right].
    destruct (HL' q k Hq). exists q, k. by rewrite lookup_delete_ne by done.
  - destruct Hx as [(q & k & Hq & Hx)|Hx]; [left|by right].
    destruct (HL' q k Hq). by exists q, k.
Qed.
End Threads.

(** ** A thread made on the example heap *)

#[local] Existing Instance example_space.
#[local] Existing Instance example_layout.

(** The thread-id counter sits just below the arena; the trampoline and the
    thread's function are at arbitrary code addresses. *)
Definition example_tid : Z := g_arena - 16.
Definition example_trampoline : Z := 0xffffffff80001000.
Definition example_func : Z := 0xffffffff80002000.
Definition example_make : M Z := make_thread_tcb example_tid example_trampoline example_func.

Lemma example_tid_ok : tid_ok example_tid.
Proof.
  split; [vm_compute; split; congruence|]. split; [by apply example_mapped|].
  unfold tid_cell, example_tid. intros x Hx. simpl. intros [?|E]; [lia|].
  change g_lock with (g_arena - 64) in E. lia.
Qed.

Lemma example_make_tcb : ∃ tcb m1, example_make example_heap = Some (tcb, m1).
Proof.
  assert (is_Some ((λ r, fst r) <$> example_make example_heap)) as [t E]
    by (vm_compute; by eexists).
  destruct (example_make example_heap) as [[p m]|]; simpl in E; [|done]. by exists p, m.
Qed.

Lemma new_thread_runs_function_witness :
  ∃ tcb m1 stack L', example_make example_heap = Some (tcb, m1) ∧
    alloc_inv m1 L' ∧ delete stack (delete tcb L') = ∅ ∧ rd64 m1 (tcb + 8) = 0.
Proof.
  destruct example_make_tcb as (tcb & m1 & E).
  destruct (new_thread_runs_function example_tid example_trampoline 0xffffffff80003000
    example_func example_heap ∅ tcb m1) as (stack & L' & Hinv & _ & _ & HL & Ht & _).
  - apply example_alloc_inv.
  - apply example_tid_ok.
  - vm_compute. split; congruence.
  - vm_compute. split; congruence.
  - exact E.
  - exists tcb, m1, stack, L'. split; [exact E|]. split; [exact Hinv|]. split; [exact HL|].
    rewrite Ht. vm_compute. reflexivity.
Defined.

Lemma delete_thread_returns_memory_witness :
  ∃ tcb m1 m3, example_make example_heap = Some (tcb, m1) ∧
    TCB_delete tcb m1 = Some (tt, m3) ∧ alloc_inv m3 ∅.
Proof.
  destruct example_make_tcb as (tcb & m1 & E).
  destruct (delete_thread_returns_memory example_tid example_trampoline
    example_func example_heap ∅ tcb m1 m1) as (m3 & Ed & Hinv & _).
  - apply example_alloc_inv.
  - apply example_tid_ok.
  - vm_compute. split; congruence.
  - vm_compute. split; congruence.
  - exact E.
  - intros stack x _. reflexivity.
  - exists tcb, m1, m3. split; [exact E|]. split; [exact Ed|exact Hinv].
Defined.
