(* ===== verification/BlockDev.v ===== *)
(** * The block device the file system reads from

    [BlockDevice] is the interface of [DiskReader] (kernel/include/
    disk_reader.hpp) as Fat32 uses it; [BlockDeviceLaws] is what its header
    documents: a successful [read_sectors] stores the sectors' contents, a
    failed one may have stored part of them, and out-of-range reads fail.
    [Fat32] is verified against these laws. *)

From S2P Require Import Prelude.

Definition kSectorSize : Z := 512.

Class BlockDevice (D : Type) := {
  disk_valid : D → bool;
  disk_sector_count : D → Z;
  (** [read_sectors(lba, count, buf)]: whether it succeeded, and the bytes it
      stored from the start of [buf] on. *)
  disk_read_sectors : Z → Z → ST D (bool * list Z);
}.

(** The sectors [lba .. lba + n) of a disk whose sector [i] holds [content i]. *)
Fixpoint sectors (content : Z → list Z) (lba : Z) (n : nat) : list Z :=
  match n with
  | O => []
  | S k => content lba ++ sectors content (lba + 1) k
  end.

Class BlockDeviceLaws (D : Type) `{BlockDevice D} (content : Z → list Z)
    (good : D → Prop) := {
  content_length i : length (content i) = Z.to_nat kSectorSize;
  content_bytes i : Forall is_byte (content i);

  (** Every read returns, and leaves the device usable. *)
  read_total d lba count :
    good d → 0 ≤ lba < 2 ^ 64 → 0 ≤ count < 2 ^ 32 →
    ∃ ok bytes d', disk_read_sectors lba count d = Some ((ok, bytes), d') ∧ good d' ∧
      disk_valid d' = disk_valid d ∧ disk_sector_count d' = disk_sector_count d;

  read_success d lba count bytes d' :
    good d → 0 ≤ lba < 2 ^ 64 → 0 ≤ count < 2 ^ 32 →
    disk_read_sectors lba count d = Some ((true, bytes), d') →
    bytes = sectors content lba (Z.to_nat count) ∧ lba + count ≤ disk_sector_count d;

  read_failure d lba count bytes d' :
    good d → 0 ≤ lba < 2 ^ 64 → 0 ≤ count < 2 ^ 32 →
    disk_read_sectors lba count d = Some ((false, bytes), d') →
    Z.of_nat (length bytes) ≤ count * kSectorSize ∧ Forall is_byte bytes;
}.

(** A device that completes every read within its range. *)
Definition reliable (D : Type) `{BlockDevice D} (good : D → Prop) : Prop :=
  ∀ d lba count, good d → disk_valid d = true → 0 ≤ lba → 0 ≤ count < 2 ^ 32 →
    lba + count ≤ disk_sector_count d →
    ∃ bytes d', disk_read_sectors lba count d = Some ((true, bytes), d').

(** ** Lemmas *)

Section Sectors.
Context (content : Z → list Z).
Hypothesis content_512 : ∀ i, length (content i) = Z.to_nat kSectorSize.

Lemma length_sectors lba n :
  Z.of_nat (length (sectors content lba n)) = kSectorSize * Z.of_nat n.
Proof.
  revert lba; induction n as [|n IH]; intros lba; [done|].
  cbn [sectors]. rewrite length_app, content_512, Nat2Z.inj_add, IH. unfold kSectorSize. lia.
Qed.

(** Byte [k] of a run of sectors. *)
Lemma lookup_sectors lba n (k : nat) :
  Z.of_nat k < kSectorSize * Z.of_nat n →
  sectors content lba n !! k =
    content (lba + Z.of_nat k / kSectorSize) !! Z.to_nat (Z.of_nat k mod kSectorSize).
Proof.
  unfold kSectorSize in *. revert lba k; induction n as [|n IH]; intros lba k Hk; [lia|].
  cbn [sectors]. destruct (decide (Z.of_nat k < 512)).
  - rewrite lookup_app_l by (rewrite content_512; unfold kSectorSize; lia).
    rewrite Z.div_small, Z.mod_small, Z.add_0_r, Nat2Z.id by lia. done.
  - rewrite lookup_app_r by (rewrite content_512; unfold kSectorSize; lia).
    rewrite content_512, IH by (unfold kSectorSize; lia). unfold kSectorSize.
    replace (Z.of_nat (k - Z.to_nat 512)) with (Z.of_nat k - 1 * 512) by lia.
    f_equal; [f_equal; dlia|f_equal; dlia].
Qed.
End Sectors.
