(* ===== verification/DiskReader.v ===== *)
(** * kernel/src/disk_reader.cpp: the polled virtio-blk driver

    The driver over any virtio-mmio hardware.  The hardware is a parameter
    ([VirtioMmio]): what its registers answer, and what the device does to the
    shared DMA object while the driver polls. *)

From S2P Require Import Prelude Arrays BlockDev Mmu.

Local Open Scope machine_scope.

(** ** Constants *)

Definition kMmioBase : Z := 0x0a000000.
Definition kMmioStride : Z := 0x200.
Definition kMmioSlots : nat := 32.

Definition kRegMagic : Z := 0x000.
Definition kRegVersion : Z := 0x004.
Definition kRegDeviceId : Z := 0x008.
Definition kRegDeviceFeatures : Z := 0x010.
Definition kRegDeviceFeaturesSel : Z := 0x014.
Definition kRegDriverFeatures : Z := 0x020.
Definition kRegDriverFeaturesSel : Z := 0x024.
Definition kRegQueueSel : Z := 0x030.
Definition kRegQueueNumMax : Z := 0x034.
Definition kRegQueueNum : Z := 0x038.
Definition kRegQueueReady : Z := 0x044.
Definition kRegQueueNotify : Z := 0x050.
Definition kRegInterruptStatus : Z := 0x060.
Definition kRegInterruptAck : Z := 0x064.
Definition kRegStatus : Z := 0x070.
Definition kRegQueueDescLow : Z := 0x080.
Definition kRegQueueDriverLow : Z := 0x090.
Definition kRegQueueDeviceLow : Z := 0x0a0.
Definition kRegConfig : Z := 0x100.

Definition kMagicValue : Z := 0x74726976.
Definition kDeviceIdBlock : Z := 2.

Definition kStatusAcknowledge : Z := 1.
Definition kStatusDriver : Z := 2.
Definition kStatusDriverOk : Z := 4.
Definition kStatusFeaturesOk : Z := 8.
Definition kFeatureVersion1Word1 : Z := 1.

Definition kDescFNext : Z := 1.
Definition kDescFWrite : Z := 2.
Definition kBlkTIn : Z := 0.
Definition kBlkSOk : Z := 0.
Definition kQueueSize : Z := 8.
Definition kPollLimit : positive := 200000000.

(** ** The DMA object *)

Record Desc := MkDesc { d_addr : Z; d_len : Z; d_flags : Z; d_next : Z }.

Record ReqHeader := MkHeader { h_type : Z; h_reserved : Z; h_sector : Z }.

Record Dma := MkDma {
  desc : list Desc;
  avail_idx : Z;
  avail_ring : list Z;
  used_idx : Z;
  used_ring : list (Z * Z);
  header : ReqHeader;
  status : Z;
  data : list Z;
}.

(** The offsets of the fields in [struct Dma], from their sizes and alignments. *)
Definition off_desc : Z := 0.
Definition off_avail : Z := 128.
Definition off_used : Z := 148.
Definition off_header : Z := 224.
Definition off_status : Z := 240.
Definition off_data : Z := 256.

Definition dma_boot : Dma :=
  MkDma (replicate 8 (MkDesc 0 0 0 0)) 0 (replicate 8 0) 0 (replicate 8 (0, 0))
    (MkHeader 0 0 0) 0 (replicate 512 0).

(** ** The hardware *)

Class VirtioMmio (V : Type) := {
  (** A 32-bit register read or write at a physical address. *)
  vio_read : Z → V → Z * V;
  vio_write : Z → Z → V → V;
  (** What the device does to the DMA object between two polls. *)
  vio_dma : Dma → V → Dma * V;
}.

(** The driver's globals, and the hardware. *)
Record driver (V : Type) := Driver {
  g_dma : Dma;
  g_lock : bool;
  g_probed : bool;
  g_valid : bool;
  g_base : Z;
  g_capacity : Z;
  g_last_used : Z;
  hw : V;
}.
Arguments Driver {V}.
Arguments g_dma {V}. Arguments g_lock {V}. Arguments g_probed {V}. Arguments g_valid {V}.
Arguments g_base {V}. Arguments g_capacity {V}. Arguments g_last_used {V}. Arguments hw {V}.

Definition driver_boot {V} (v : V) : driver V := Driver dma_boot false false false 0 0 0 v.

Section Driver.
Context {V : Type} `{VirtioMmio V}.
(** [mmu::virt_to_phys] and the address of [g_dma]. *)
Context (mmu : mmu_state) (dma_vaddr : Z).

Definition set_hw (v : V) (s : driver V) : driver V :=
  Driver (g_dma s) (g_lock s) (g_probed s) (g_valid s) (g_base s) (g_capacity s) (g_last_used s) v.
Definition set_dma (dm : Dma) (s : driver V) : driver V :=
  Driver dm (g_lock s) (g_probed s) (g_valid s) (g_base s) (g_capacity s) (g_last_used s) (hw s).
Definition set_lock (b : bool) (s : driver V) : driver V :=
  Driver (g_dma s) b (g_probed s) (g_valid s) (g_base s) (g_capacity s) (g_last_used s) (hw s).
Definition set_probed (valid : bool) (s : driver V) : driver V :=
  Driver (g_dma s) (g_lock s) true valid (g_base s) (g_capacity s) (g_last_used s) (hw s).
Definition set_base (b : Z) (s : driver V) : driver V :=
  Driver (g_dma s) (g_lock s) (g_probed s) (g_valid s) b (g_capacity s) (g_last_used s) (hw s).
Definition set_capacity (c : Z) (s : driver V) : driver V :=
  Driver (g_dma s) (g_lock s) (g_probed s) (g_valid s) (g_base s) c (g_last_used s) (hw s).
Definition set_last_used (u : Z) (s : driver V) : driver V :=
  Driver (g_dma s) (g_lock s) (g_probed s) (g_valid s) (g_base s) (g_capacity s) u (hw s).

Definition modify (f : driver V → driver V) : ST (driver V) unit := λ s, Some (tt, f s).

Definition gets {A} (f : driver V → A) : ST (driver V) A := λ s, Some (f s, s).

Definition reg_read (off : Z) : ST (driver V) Z :=
  λ s, let '(x, v) := vio_read (g_base s +₆₄ off) (hw s) in Some (x, set_hw v s).

Definition reg_write (off value : Z) : ST (driver V) unit :=
  modify (λ s, set_hw (vio_write (g_base s +₆₄ off) value (hw s)) s).

(** The address of a field of [g_dma], as the device must be given it. *)
Definition dma_phys (off : Z) : Z := virt_to_phys mmu (dma_vaddr +₆₄ off).

Definition write_addr (low_off off : Z) : ST (driver V) unit :=
  let phys := dma_phys off in
  reg_write low_off (u32 phys) ;;
  reg_write (low_off + 4) (u32 (Z.shiftr phys 32)).

(** The loop of [find_device] from slot [i], for [k] slots. *)
Fixpoint find_slot (i : Z) (k : nat) : ST (driver V) bool :=
  match k with
  | O => mret false
  | S k' =>
      modify (set_base (kMmioBase +₆₄ i *₆₄ kMmioStride)) ;;
      magic ← reg_read kRegMagic;
      if negb (magic =? kMagicValue) then find_slot (i + 1) k'
      else
        version ← reg_read kRegVersion;
        if negb (version =? 2) then find_slot (i + 1) k'
        else
          id ← reg_read kRegDeviceId;
          if negb (id =? kDeviceIdBlock) then find_slot (i + 1) k' else mret true
  end.

Definition find_device : ST (driver V) bool := find_slot 0 kMmioSlots.

Definition init_device : ST (driver V) bool :=
  found ← find_device;
  if negb found then mret false
  else
    reg_write kRegStatus 0 ;;
    reg_write kRegStatus kStatusAcknowledge ;;
    reg_write kRegStatus (Z.lor kStatusAcknowledge kStatusDriver) ;;
    reg_write kRegDeviceFeaturesSel 1 ;;
    feats ← reg_read kRegDeviceFeatures;
    if Z.land feats kFeatureVersion1Word1 =? 0 then mret false
    else
      reg_write kRegDriverFeaturesSel 0 ;;
      reg_write kRegDriverFeatures 0 ;;
      reg_write kRegDriverFeaturesSel 1 ;;
      reg_write kRegDriverFeatures kFeatureVersion1Word1 ;;
      let st := Z.lor (Z.lor kStatusAcknowledge kStatusDriver) kStatusFeaturesOk in
      reg_write kRegStatus st ;;
      accepted ← reg_read kRegStatus;
      if Z.land accepted kStatusFeaturesOk =? 0 then mret false
      else
        reg_write kRegQueueSel 0 ;;
        num_max ← reg_read kRegQueueNumMax;
        if num_max <? kQueueSize then mret false
        else
          reg_write kRegQueueNum kQueueSize ;;
          write_addr kRegQueueDescLow off_desc ;;
          write_addr kRegQueueDriverLow off_avail ;;
          write_addr kRegQueueDeviceLow off_used ;;
          reg_write kRegQueueReady 1 ;;
          reg_write kRegStatus (Z.lor st kStatusDriverOk) ;;
          lo ← reg_read kRegConfig;
          hi ← reg_read (kRegConfig + 4);
          modify (set_capacity (Z.lor lo (u64 (Z.shiftl hi 32)))) ;;
          mret true.

(** The request [read_one] builds: header, descriptors, ring and index. *)
Definition build_request (lba : Z) (dm : Dma) : Dma :=
  let idx := avail_idx dm in
  MkDma
    (<[2%nat := MkDesc (dma_phys off_status) 1 kDescFWrite 0]>
      (<[1%nat := MkDesc (dma_phys off_data) kSectorSize (u16 (Z.lor kDescFNext kDescFWrite)) 2]>
        (<[0%nat := MkDesc (dma_phys off_header) 16 kDescFNext 1]> (desc dm))))
    (u16 (idx + 1))
    (<[Z.to_nat (idx mod kQueueSize) := 0]> (avail_ring dm))
    (used_idx dm) (used_ring dm) (MkHeader kBlkTIn 0 lba) 0xff (data dm).

(** One evaluation of [*used_idx == g_last_used]. *)
Definition poll_body (last : Z) (s : Dma * V) : (Dma * V) + (Dma * V) :=
  let '(dm, v) := vio_dma s.1 s.2 in
  if used_idx dm =? last then inl (dm, v) else inr (dm, v).

(** The polling loop: [false] when the limit was reached.  The condition is
    evaluated at most [kPollLimit + 1] times. *)
Definition poll : ST (driver V) bool := λ s,
  match spin (poll_body (g_last_used s)) (kPollLimit + 1)%positive (g_dma s, hw s) with
  | inr (dm, v) => Some (true, set_dma dm (set_hw v s))
  | inl (dm, v) => Some (false, set_dma dm (set_hw v s))
  end.

Definition read_one (lba : Z) : ST (driver V) bool :=
  modify (λ s, set_dma (build_request lba (g_dma s)) s) ;;
  reg_write kRegQueueNotify 0 ;;
  completed ← poll;
  if negb completed then mret false
  else
    modify (λ s, set_last_used (u16 (g_last_used s + 1)) s) ;;
    irq ← reg_read kRegInterruptStatus;
    reg_write kRegInterruptAck irq ;;
    gets (λ s, status (g_dma s) =? kBlkSOk).

(** [g_lock.lock()]: waiting on a held lock does not return. *)
Definition dr_lock : ST (driver V) unit :=
  λ s, if g_lock s then None else Some (tt, set_lock true s).
Definition dr_unlock : ST (driver V) unit := modify (set_lock false).

Definition probe_locked : ST (driver V) unit := λ s,
  if g_probed s then Some (tt, s)
  else match init_device s with
       | Some (ok, s') => Some (tt, set_probed ok s')
       | None => None
       end.

(** [DiskReader::DiskReader()] *)
Definition DiskReader : ST (driver V) unit := dr_lock ;; probe_locked ;; dr_unlock.

(** [for (i = 0; i < count && ok; i++)], for the [k] sectors from [lba + i] that
    are left; the bytes stored in the caller's buffer, in order. *)
Fixpoint read_each (lba i : Z) (k : nat) : ST (driver V) (bool * list Z) :=
  match k with
  | O => mret (true, [])
  | S k' =>
      ok ← read_one (lba +₆₄ i);
      if negb ok then mret (false, [])
      else
        bytes ← gets (λ s, data (g_dma s));
        '(ok', rest) ← read_each lba (i + 1) k';
        mret (ok', bytes ++ rest)
  end.

Definition read_sectors (lba count : Z) : ST (driver V) (bool * list Z) := λ s,
  if negb (g_valid s) || (g_capacity s <? lba) || (g_capacity s -₆₄ lba <? count)
  then Some ((false, []), s)
  else (dr_lock ;; r ← read_each lba 0 (Z.to_nat count); dr_unlock ;; mret r) s.

Definition sector_count (s : driver V) : Z := if g_valid s then g_capacity s else 0.

#[export] Instance driver_device : BlockDevice (driver V) := {|
  disk_valid := g_valid;
  disk_sector_count := sector_count;
  disk_read_sectors := read_sectors;
|}.
End Driver.
