(* ===== verification/DiskReaderProps.v ===== *)
(** * The driver is a block device

    [VirtioBlkLaws] states what the virtio 1.x specification promises of the
    hardware: identification registers do not change, a device initialised by
    the specified sequence is live, a live device that is notified of a
    well-formed read request touches only the buffers the request lets it write
    and, if and when it completes the request, has done what it asks for.  How
    long that takes is not said; the driver waits for [kPollLimit] polls.

    A request that is answered in time is one whose notification is followed by
    an acknowledgement: [unanswered] counts the others in the trace of register
    accesses.  As long as there are none, [DiskReader] satisfies
    [BlockDeviceLaws], the interface the file system is verified against; on a
    [prompt] device there never are. *)

From S2P Require Import Prelude Arrays BlockDev Mmu DiskReader.

Local Open Scope machine_scope.

(** ** What the hardware promises *)

Inductive event := Wr (a x : Z) | Rd (a x : Z).

(** The two halves of a queue address. *)
Definition addr_events (base reg phys : Z) : list event :=
  [Wr (base + reg) (phys mod 2 ^ 32); Wr (base + reg + 4) (phys / 2 ^ 32)].

(** The specified initialisation: reset, acknowledge, driver; negotiate
    VERSION_1 and nothing else; FEATURES_OK, confirmed by the device; queue 0
    of 8 entries at the three addresses; ready; DRIVER_OK. *)
Inductive transcript (base : Z) (phys : Z → Z) : list event → Prop :=
| Transcript feats st num :
    Z.testbit feats 0 = true → Z.testbit st 3 = true → 8 ≤ num →
    transcript base phys
      ([Wr (base + kRegStatus) 0; Wr (base + kRegStatus) 1; Wr (base + kRegStatus) 3;
        Wr (base + kRegDeviceFeaturesSel) 1; Rd (base + kRegDeviceFeatures) feats;
        Wr (base + kRegDriverFeaturesSel) 0; Wr (base + kRegDriverFeatures) 0;
        Wr (base + kRegDriverFeaturesSel) 1; Wr (base + kRegDriverFeatures) 1;
        Wr (base + kRegStatus) 11; Rd (base + kRegStatus) st;
        Wr (base + kRegQueueSel) 0; Rd (base + kRegQueueNumMax) num;
        Wr (base + kRegQueueNum) 8] ++
       addr_events base kRegQueueDescLow (phys off_desc) ++
       addr_events base kRegQueueDriverLow (phys off_avail) ++
       addr_events base kRegQueueDeviceLow (phys off_used) ++
       [Wr (base + kRegQueueReady) 1; Wr (base + kRegStatus) 15]).

(** A read request for sector [s], published as available entry [u]: a chain of
    header, data and status buffers that starts at descriptor 0. *)
Definition request (phys : Z → Z) (dm : Dma) (u s : Z) : Prop :=
  desc dm !! 0%nat = Some (MkDesc (phys off_header) 16 kDescFNext 1) ∧
  desc dm !! 1%nat = Some (MkDesc (phys off_data) 512 (kDescFNext + kDescFWrite) 2) ∧
  desc dm !! 2%nat = Some (MkDesc (phys off_status) 1 kDescFWrite 0) ∧
  header dm = MkHeader kBlkTIn 0 s ∧
  avail_ring dm !! Z.to_nat (u mod 8) = Some 0 ∧ avail_idx dm = u16 (u + 1).

(** The device writes only the buffers it is given for that. *)
Definition device_frame (dm dm' : Dma) : Prop :=
  desc dm' = desc dm ∧ avail_idx dm' = avail_idx dm ∧ avail_ring dm' = avail_ring dm ∧
  header dm' = header dm.

Definition slot_base (i : Z) : Z := kMmioBase + i * kMmioStride.

Class VirtioBlkLaws (V : Type) `{VirtioMmio V} (base : Z) (phys : Z → Z)
    (content : Z → list Z) (cap : Z) := {
  (** The register accesses so far, latest first. *)
  vio_log : V → list event;
  log_write a x v : vio_log (vio_write a x v) = Wr a x :: vio_log v;
  log_read a v : vio_log (vio_read a v).2 = Rd a (vio_read a v).1 :: vio_log v;
  log_dma dm v : vio_log (vio_dma dm v).2 = vio_log v;

  (** The hardware states that can occur. *)
  vio_ok : V → Prop;
  ok_write a x v : vio_ok v → vio_ok (vio_write a x v);
  ok_read a v : vio_ok v → vio_ok (vio_read a v).2;

  (** Identification: [id_reg i r] is what register [r] of slot [i] reads as, and
      [base] is the first slot that holds a modern block device. *)
  id_reg : Z → Z → Z;
  id_stable i r v : 0 ≤ i < 32 → r = kRegMagic ∨ r = kRegVersion ∨ r = kRegDeviceId →
    (vio_read (slot_base i + r) v).1 = id_reg i r;
  is_blk (i : Z) : Prop :=
    id_reg i kRegMagic = kMagicValue ∧ id_reg i kRegVersion = 2 ∧ id_reg i kRegDeviceId = kDeviceIdBlock;
  base_first i : 0 ≤ i < 32 → is_blk i → (∀ j, 0 ≤ j < i → ¬ is_blk j) → base = slot_base i;

  (** A live device that has completed [u] requests; one that has been notified
      of another and has not completed it yet. *)
  idle : V → Z → Prop;
  busy : V → Z → Prop;
  init_live v evs old :
    vio_ok v → transcript base phys evs → vio_log v = rev evs ++ old → idle v 0;
  idle_read v u r : idle v u → r = kRegInterruptStatus ∨ r = kRegConfig ∨ r = kRegConfig + 4 →
    idle (vio_read (base + r) v).2 u;
  idle_ack v u x : idle v u → idle (vio_write (base + kRegInterruptAck) x v) u;
  config_low v u : idle v u → (vio_read (base + kRegConfig) v).1 = cap mod 2 ^ 32;
  config_high v u : idle v u → (vio_read (base + kRegConfig + 4) v).1 = cap / 2 ^ 32;
  notify_busy v u : idle v u → busy (vio_write (base + kRegQueueNotify) 0 v) u;
  busy_step v u dm s : busy v u → request phys dm u s → used_idx dm = u → 0 ≤ s < cap →
    let '(dm', v') := vio_dma dm v in
    device_frame dm dm' ∧
    ((busy v' u ∧ used_idx dm' = u) ∨
     (idle v' (u16 (u + 1)) ∧ used_idx dm' = u16 (u + 1) ∧
      (status dm' = kBlkSOk → data dm' = content s)));

  disk_content_length i : length (content i) = Z.to_nat kSectorSize;
  disk_content_bytes i : Forall is_byte (content i);
  cap_range : 0 ≤ cap < 2 ^ 64;
  base_range : 0 ≤ base < 2 ^ 32;
}.

(** A device that completes every request in its range without an error. *)
Definition flawless (V : Type) `{LAWS : VirtioBlkLaws V} : Prop :=
  ∀ v u dm s, busy v u → request phys dm u s → used_idx dm = u → 0 ≤ s < cap →
    used_idx (vio_dma dm v).1 ≠ u → status (vio_dma dm v).1 = kBlkSOk.

(** A device that completes every request within [kPollLimit] polls. *)
Definition prompt (V : Type) `{LAWS : VirtioBlkLaws V} : Prop :=
  ∃ polls_left : V → nat,
    (∀ v u, idle v u →
       (polls_left (vio_write (base + kRegQueueNotify) 0 v) ≤ Pos.to_nat kPollLimit)%nat) ∧
    (∀ v u dm s, busy v u → request phys dm u s → used_idx dm = u → 0 ≤ s < cap →
       used_idx (vio_dma dm v).1 = u → (polls_left (vio_dma dm v).2 < polls_left v)%nat).

Section Props.
Context {V : Type} `{VirtioMmio V} (mmu : mmu_state) (dma_vaddr : Z).
Notation phys := (dma_phys mmu dma_vaddr).
Context {base : Z} {content : Z → list Z} {cap : Z}.
Context {LAWS : VirtioBlkLaws V base (dma_phys mmu dma_vaddr) content cap}.

(** ** Reading a sector *)

(** The driver and the device agree: every request made has completed. *)
Definition in_step (s : driver V) : Prop :=
  g_valid s = true ∧ g_base s = base ∧ g_capacity s = cap ∧ is_u16 (g_last_used s) ∧
  idle (hw s) (g_last_used s) ∧
  avail_idx (g_dma s) = g_last_used s ∧ used_idx (g_dma s) = g_last_used s ∧
  length (desc (g_dma s)) = 8%nat ∧ length (avail_ring (g_dma s)) = 8%nat.

Lemma build_request_ok lba dm :
  length (desc dm) = 8%nat → length (avail_ring dm) = 8%nat →
  request phys (build_request mmu dma_vaddr lba dm) (avail_idx dm) lba.
Proof.
  intros Hd Hr. unfold request, build_request; simpl. split_and!; try done.
  - by rewrite list_lookup_insert_ne, list_lookup_insert_ne, list_lookup_insert_eq by lia.
  - by rewrite list_lookup_insert_ne, list_lookup_insert_eq by (rewrite ?length_insert; lia).
  - by rewrite list_lookup_insert_eq by (rewrite !length_insert; lia).
  - rewrite list_lookup_insert_eq; [done|]. rewrite Hr. unfold kQueueSize. dlia.
Qed.

Lemma u16_next_ne u : is_u16 u → u16 (u + 1) ≠ u ∧ is_u16 (u16 (u + 1)).
Proof. unfold is_u16, u16. intros Hu. dlia. Qed.

(** One poll. *)
Lemma poll_body_keeps s u lba :
  is_u16 u → 0 ≤ lba < cap → ∀ x : Dma * V,
  busy x.2 u ∧ request phys x.1 u lba ∧ used_idx x.1 = u ∧ device_frame (g_dma s) x.1 ∧
    vio_log x.2 = vio_log (hw s) →
  match poll_body u x with
  | inl y => busy y.2 u ∧ request phys y.1 u lba ∧ used_idx y.1 = u ∧ device_frame (g_dma s) y.1 ∧
      vio_log y.2 = vio_log (hw s)
  | inr y => device_frame (g_dma s) y.1 ∧ vio_log y.2 = vio_log (hw s) ∧ idle y.2 (u16 (u + 1)) ∧
      used_idx y.1 = u16 (u + 1) ∧ (status y.1 = kBlkSOk → data y.1 = content lba) ∧
      (flawless V → status y.1 = kBlkSOk)
  end.
Proof.
  intros Hu16 Hlba [dm v] (Hb & Hr & Hu & Hf & Hlog). unfold poll_body; simpl in *.
  pose proof (u16_next_ne u Hu16) as [Hne _].
  pose proof (busy_step v u dm lba Hb Hr Hu Hlba) as Hs.
  pose proof (λ HF : flawless V, HF v u dm lba Hb Hr Hu Hlba) as Hfl.
  pose proof (log_dma dm v) as Hld.
  destruct (vio_dma dm v) as [dm' v']. simpl in *. destruct Hs as [Hf' Hs].
  assert (device_frame (g_dma s) dm') as Hfr.
  { destruct Hf as (? & ? & ? & ?), Hf' as (? & ? & ? & ?). unfold device_frame.
    split_and!; congruence. }
  destruct Hs as [[Hk E]|(Hi & E & Hd)]; rewrite E.
  - rewrite Z.eqb_refl. simpl. split; [done|]. split; [|split_and!; (done || congruence)].
    destruct Hf' as (E1 & E2 & E3 & E4). unfold request in *. by rewrite E1, E2, E3, E4.
  - rewrite (proj2 (Z.eqb_neq _ _)) by done. rewrite E in Hfl. simpl.
    split_and!; auto. congruence.
Qed.

(** Polling for a published request ends with the request completed, or with the
    device still busy with it. *)
Lemma poll_run s u lba :
  busy (hw s) u → request phys (g_dma s) u lba → used_idx (g_dma s) = u →
  g_last_used s = u → is_u16 u → 0 ≤ lba < cap →
  ∃ b dm v, poll s = Some (b, set_dma dm (set_hw v s)) ∧ device_frame (g_dma s) dm ∧
    vio_log v = vio_log (hw s) ∧
    (b = true → idle v (u16 (u + 1)) ∧ used_idx dm = u16 (u + 1) ∧
       (status dm = kBlkSOk → data dm = content lba) ∧ (flawless V → status dm = kBlkSOk)).
Proof.
  intros Hb Hreq Hu Hl Hu16 Hlba. unfold poll. rewrite Hl.
  pose proof (u16_next_ne u Hu16) as [Hne _].
  set (I := λ x : Dma * V, busy x.2 u ∧ request phys x.1 u lba ∧ used_idx x.1 = u ∧
                 device_frame (g_dma s) x.1 ∧ vio_log x.2 = vio_log (hw s)).
  set (R := λ x : Dma * V, device_frame (g_dma s) x.1 ∧ vio_log x.2 = vio_log (hw s) ∧
    idle x.2 (u16 (u + 1)) ∧
    used_idx x.1 = u16 (u + 1) ∧ (status x.1 = kBlkSOk → data x.1 = content lba) ∧
    (flawless V → status x.1 = kBlkSOk)).
  pose proof (spin_ends (poll_body u) I R (kPollLimit + 1) (g_dma s, hw s)) as Hs.
  destruct (spin _ _ _) as [[dm v]|[dm v]].
  - destruct Hs as (_ & _ & _ & Hf & Hlog).
    + intros x Hx. by apply poll_body_keeps.
    + unfold I, device_frame. by split_and!.
    + by exists false, dm, v.
  - destruct Hs as (Hf & Hlog & Hrest).
    + intros x Hx. by apply poll_body_keeps.
    + unfold I, device_frame. by split_and!.
    + by exists true, dm, v.
Qed.

(** A prompt device completes it. *)
Lemma poll_prompt s u lba r :
  prompt V → (∃ v0, idle v0 u ∧ hw s = vio_write (base + kRegQueueNotify) 0 v0) →
  request phys (g_dma s) u lba → used_idx (g_dma s) = u →
  g_last_used s = u → is_u16 u → 0 ≤ lba < cap → poll s = Some r → r.1 = true.
Proof.
  intros (left & Hleft & Hless) (v0 & Hi & Ev) Hreq Hu Hl Hu16 Hlba. unfold poll. rewrite Hl.
  set (I := λ n (x : Dma * V), (left x.2 ≤ n)%nat ∧ busy x.2 u ∧ request phys x.1 u lba ∧
    used_idx x.1 = u ∧ device_frame (g_dma s) x.1 ∧ vio_log x.2 = vio_log (hw s)).
  destruct (spin_leaves (poll_body u) I (λ _, True) (kPollLimit + 1) (Pos.to_nat kPollLimit) (g_dma s, hw s))
    as ([dm v] & -> & _).
  - intros n [dm v] [Hn Hx]. pose proof (poll_body_keeps s u lba Hu16 Hlba (dm, v) Hx) as Hk.
    unfold poll_body in *. simpl in *. destruct Hx as (Hb & Hr & Hud & _).
    specialize (Hless v u dm lba Hb Hr Hud Hlba). destruct (vio_dma dm v) as [dm' v']. simpl in *.
    destruct (Z.eqb_spec (used_idx dm') u) as [E|]; [|done].
    specialize (Hless E). destruct n as [|n]; [lia|]. exists n. split; [done|]. split; [simpl; lia|done].
  - unfold I. simpl. rewrite Ev. split; [by eapply Hleft|]. split; [by apply notify_busy|].
    unfold device_frame. by split_and!.
  - rewrite Pos2Nat.inj_add. lia.
  - by intros [= <-].
Qed.

Lemma base_off (s : driver V) off : g_base s = base → 0 ≤ off < 512 → g_base s +₆₄ off = base + off.
Proof. intros -> Ho. pose proof base_range. apply u64_small. lia. Qed.

Lemma reg_read_run (s : driver V) off :
  g_base s = base → 0 ≤ off < 512 →
  reg_read off s = Some ((vio_read (base + off) (hw s)).1, set_hw (vio_read (base + off) (hw s)).2 s).
Proof.
  intros Hb Ho. unfold reg_read. rewrite base_off by done.
  by destruct (vio_read (base + off) (hw s)).
Qed.

Lemma reg_write_run (s : driver V) off x :
  g_base s = base → 0 ≤ off < 512 →
  reg_write off x s = Some (tt, set_hw (vio_write (base + off) x (hw s)) s).
Proof. intros Hb Ho. unfold reg_write, modify. by rewrite base_off. Qed.

(** ** Requests that were not answered in time *)

(** What a register access adds to the number of requests that have been made and
    not acknowledged. *)
Definition weight (b : Z) (e : event) : Z :=
  match e with
  | Wr a _ => if a =? b +₆₄ kRegQueueNotify then 1 else if a =? b +₆₄ kRegInterruptAck then -1 else 0
  | Rd _ _ => 0
  end.

Definition unanswered_in (b : Z) (l : list event) : Z := foldr (λ e n, weight b e + n) 0 l.

Definition unanswered (s : driver V) : Z := unanswered_in (g_base s) (vio_log (hw s)).

Lemma unanswered_notify s s' x :
  g_base s' = g_base s → vio_log (hw s') = Wr (g_base s +₆₄ kRegQueueNotify) x :: vio_log (hw s) →
  unanswered s' = unanswered s + 1.
Proof. unfold unanswered. intros -> ->. simpl. rewrite Z.eqb_refl. lia. Qed.

Lemma unanswered_ack s s' x a y :
  g_base s' = g_base s →
  vio_log (hw s') = Wr (g_base s +₆₄ kRegInterruptAck) x :: Rd a y :: vio_log (hw s) →
  unanswered s' = unanswered s - 1.
Proof.
  unfold unanswered. intros -> ->. simpl. rewrite Z.eqb_refl, (proj2 (Z.eqb_neq _ _)); [lia|].
  unfold kRegQueueNotify, kRegInterruptAck, u64. dlia.
Qed.

(** What a read leaves alone. *)
Definition same_setup (s s' : driver V) : Prop :=
  g_lock s' = g_lock s ∧ g_valid s' = g_valid s ∧ g_base s' = g_base s ∧ g_capacity s' = g_capacity s.

Lemma poll_total s :
  ∃ b dm v, poll s = Some (b, set_dma dm (set_hw v s)) ∧ vio_log v = vio_log (hw s).
Proof.
  unfold poll. set (I := λ x : Dma * V, vio_log x.2 = vio_log (hw s)).
  pose proof (spin_ends (poll_body (g_last_used s)) I I (kPollLimit + 1) (g_dma s, hw s)) as Hs.
  destruct (spin _ _ _) as [[dm v]|[dm v]]; eexists _, dm, v; (split; [done|]);
    (apply Hs; [|done]); intros [dm' v'] Hx; unfold poll_body, I in *; simpl in *;
    pose proof (log_dma dm' v') as Hl; destruct (vio_dma dm' v'); simpl in *; destruct (_ =? _); simpl; congruence.
Qed.

(** The driver when it stops polling: it has given up, or it acknowledges. *)
Section Polled.
Context (s : driver V) (dm dm0 : Dma) (v : V).
Let s1 := set_hw (vio_write (g_base s +₆₄ kRegQueueNotify) 0 (hw s)) (set_dma dm0 s).
Let s2 := set_dma dm (set_hw v s1).
Hypothesis LOG : vio_log v = vio_log (hw s1).

Lemma unanswered_given_up : unanswered s2 = unanswered s + 1.
Proof. apply (unanswered_notify s s2 0); [done|]. simpl. rewrite LOG. simpl. by rewrite log_write. Qed.

Lemma unanswered_acknowledged u :
  let a := g_base s +₆₄ kRegInterruptStatus in
  unanswered (set_hw (vio_write (g_base s +₆₄ kRegInterruptAck) (vio_read a v).1 (vio_read a v).2)
    (set_hw (vio_read a v).2 (set_last_used u s2))) = unanswered s.
Proof.
  intros a. erewrite (unanswered_ack s2); [rewrite unanswered_given_up; lia|done|].
  simpl. by rewrite log_write, log_read.
Qed.
End Polled.

(** In any state, a read of a sector returns, and leaves one request more
    unanswered if it gave up. *)
Lemma read_one_total s lba :
  ∃ ok s', read_one mmu dma_vaddr lba s = Some (ok, s') ∧ same_setup s s' ∧
    (unanswered s' = unanswered s ∨ unanswered s' = unanswered s + 1 ∧ ok = false).
Proof.
  unfold read_one. erewrite bind_run by done. erewrite bind_run by done. set (s1 := set_hw _ _).
  destruct (poll_total s1) as (b & dm & v & E & Hlog). mstep E. destruct b; cbn [negb].
  - erewrite bind_run by done. unfold reg_read. unfold mbind at 1, ST_bind at 1.
    pose proof (unanswered_acknowledged s dm _ v Hlog (u16 (g_last_used s + 1))) as Ha. simpl in *.
    destruct (vio_read _ v) as [x v2]. erewrite bind_run by done.
    eexists _, _. split; [done|]. split; [done|]. left. exact Ha.
  - eexists false, _. split; [done|]. split; [done|]. right. split; [|done].
    exact (unanswered_given_up s dm _ v Hlog).
Qed.

Lemma read_each_total lba k : ∀ s i,
  ∃ ok bytes s', read_each mmu dma_vaddr lba i k s = Some ((ok, bytes), s') ∧ same_setup s s' ∧
    (unanswered s' = unanswered s ∨ unanswered s' = unanswered s + 1 ∧ ok = false).
Proof.
  induction k as [|k IH]; intros s i; [exists true, [], s; split; [done|]; split; [done|by left]|].
  cbn [read_each].
  destruct (read_one_total s (lba +₆₄ i)) as (ok & s1 & E & (H1 & H2 & H3 & H4) & Hu). mstep E.
  destruct ok; cbn [negb]; [|by exists false, [], s1].
  erewrite bind_run by done.
  destruct (IH s1 (i + 1)) as (ok & bytes & s2 & E2 & (F1 & F2 & F3 & F4) & Hu2). mstep E2.
  eexists ok, _, s2. split; [done|]. split; [unfold same_setup; split_and!; congruence|].
  destruct Hu as [Hu|[_ ?]]; [|done]. by rewrite <- Hu.
Qed.

Lemma read_sectors_total s lba count :
  g_lock s = false →
  ∃ ok bytes s', read_sectors mmu dma_vaddr lba count s = Some ((ok, bytes), s') ∧ same_setup s s' ∧
    (unanswered s' = unanswered s ∨ unanswered s' = unanswered s + 1 ∧ ok = false).
Proof.
  intros Hl. unfold read_sectors. case_match; [exists false, [], s; split; [done|]; split; [done|by left]|].
  unfold dr_lock at 1. erewrite bind_run by (by rewrite Hl).
  destruct (read_each_total lba (Z.to_nat count) (set_lock true s) 0)
    as (ok & bytes & s1 & E & (_ & H2 & H3 & H4) & Hu). mstep E. erewrite bind_run by done.
  eexists ok, bytes, _. split; [done|]. split; [by split_and!|]. exact Hu.
Qed.

(** ** Reading a range *)

(** One sector: on success the bounce buffer holds the sector, and [in_step] is
    kept unless the driver gave up waiting. *)
Lemma read_one_run s lba :
  in_step s → 0 ≤ lba < cap →
  ∃ ok s', read_one mmu dma_vaddr lba s = Some (ok, s') ∧
    (in_step s' ∧ unanswered s' = unanswered s ∨ ok = false ∧ unanswered s' = unanswered s + 1) ∧
    (ok = true → data (g_dma s') = content lba) ∧
    (prompt V → in_step s' ∧ unanswered s' = unanswered s ∧ (flawless V → ok = true)).
Proof.
  intros (Hv & Hb & Hc & Hl & Hi & Ha & Hu & Hd & Hr) Hlba. unfold read_one.
  erewrite bind_run by done. mstep reg_write_run; [|done|by split].
  rewrite <- (base_off s kRegQueueNotify) by (done || by split).
  set (s1 := set_hw _ _).
  assert (request phys (g_dma s1) (g_last_used s) lba) as Hreq.
  { simpl. rewrite <- Ha. by apply build_request_ok. }
  destruct (poll_run s1 (g_last_used s) lba) as (b & dm & v & E & Hf & Hlog & Hdone); try done.
  { simpl. rewrite base_off by (done || by split). by apply notify_busy. }
  pose proof (λ HP, poll_prompt s1 (g_last_used s) lba _ HP
    ltac:(exists (hw s); simpl; rewrite base_off by (done || by split); done) Hreq Hu eq_refl Hl Hlba E) as Hp.
  mstep E. destruct b; cbn [negb].
  2:{ pose proof (unanswered_given_up s dm _ v Hlog) as Hgu. eexists _, _. split; [done|].
      split; [by right|]. split; [done|]. intros HP. by specialize (Hp HP). }
  destruct (Hdone eq_refl) as (Hi' & Hu' & Hd' & Hfl). erewrite bind_run by done.
  mstep reg_read_run; [|done|by split]. mstep reg_write_run; [|done|by split].
  pose proof (unanswered_acknowledged s dm _ v Hlog (u16 (g_last_used s + 1))) as Hack.
  simpl in Hack. rewrite !base_off in Hack by (done || by split).
  destruct (u16_next_ne (g_last_used s) Hl) as [_ Hl'].
  destruct Hf as (F1 & F2 & F3 & _). simpl in F1, F2, F3.
  eexists _, _. split; [done|]. simpl.
  match goal with |- (in_step ?x ∧ _ ∨ _) ∧ _ => assert (in_step x) as Hin end.
  { unfold in_step; simpl. split_and!; try done.
    + apply idle_ack, idle_read; auto.
    + by rewrite F2, Ha.
    + by rewrite F1, !length_insert.
    + by rewrite F3, length_insert. }
  split; [left; by split|]. split; [intros Hok; apply Hd'; by apply Z.eqb_eq|].
  intros HP. split; [done|]. split; [done|]. intros HF. apply Z.eqb_eq. auto.
Qed.

Lemma read_each_run s lba i k :
  in_step s → 0 ≤ lba → 0 ≤ i → lba + i + Z.of_nat k ≤ cap →
  ∃ ok bytes s', read_each mmu dma_vaddr lba i k s = Some ((ok, bytes), s') ∧
    (in_step s' ∧ unanswered s' = unanswered s ∨ ok = false ∧ unanswered s' = unanswered s + 1) ∧
    (ok = true → bytes = sectors content (lba + i) k) ∧
    Z.of_nat (length bytes) ≤ Z.of_nat k * kSectorSize ∧ Forall is_byte bytes ∧
    (prompt V → in_step s' ∧ unanswered s' = unanswered s ∧ (flawless V → ok = true)).
Proof.
  revert s i; induction k as [|k IH]; intros s i Hs Hl Hi Hk.
  { eexists true, [], s. split_and!; auto; try (apply Forall_nil; done). done. }
  pose proof (cap_range (content := content)) as Hcap. cbn [read_each sectors].
  rewrite (u64_small (lba + i)) by lia.
  destruct (read_one_run s (lba + i)) as (ok & s1 & E & Hs1 & Hd & Hp); [done|lia|].
  mstep E. destruct ok; cbn [negb].
  2:{ eexists false, [], s1. split_and!; try done; try (apply Forall_nil; done). }
  destruct Hs1 as [[Hs1 Hu1]|[? _]]; [|done].
  erewrite bind_run by done. rewrite (Hd eq_refl).
  destruct (IH s1 (i + 1)) as (ok & bytes & s2 & E2 & Hs2 & Hb & Hlen & Hby & Hp2);
    [done|lia..|]. rewrite Hu1 in *.
  mstep E2. eexists ok, _, s2. split; [done|]. split; [done|].
  split; [intros ->; rewrite (Hb eq_refl); do 2 f_equal; lia|].
  split; [|split; [apply Forall_app; split; [apply disk_content_bytes|done]|done]].
  rewrite length_app, (disk_content_length (content := content)). unfold kSectorSize in *. lia.
Qed.

(** The driver when no call is in progress. *)
Definition driver_good (s : driver V) : Prop :=
  g_lock s = false ∧ (g_valid s = true → in_step s).

Lemma read_sectors_run s lba count :
  driver_good s → 0 ≤ lba < 2 ^ 64 → 0 ≤ count < 2 ^ 32 →
  ∃ ok bytes s', read_sectors mmu dma_vaddr lba count s = Some ((ok, bytes), s') ∧
    same_setup s s' ∧
    (driver_good s' ∧ unanswered s' = unanswered s ∨ ok = false ∧ unanswered s' = unanswered s + 1) ∧
    (ok = true → bytes = sectors content lba (Z.to_nat count) ∧ lba + count ≤ sector_count s) ∧
    Z.of_nat (length bytes) ≤ count * kSectorSize ∧ Forall is_byte bytes ∧
    (prompt V → driver_good s' ∧ unanswered s' = unanswered s ∧
       (flawless V → g_valid s = true → lba + count ≤ sector_count s → ok = true)).
Proof.
  intros [Hlock Hg] Hl Hc.
  destruct (read_sectors_total s lba count Hlock) as (ok0 & bytes0 & s0 & Etot & Hsame & _).
  revert Etot. unfold read_sectors, sector_count.
  destruct (g_valid s) eqn:Hv; cbn [negb orb].
  2:{ intros [= <- <- <-]. eexists false, [], s. split; [done|]. split; [done|].
      split; [left; split; [split; [done|congruence]|done]|]. split; [done|].
      split; [unfold kSectorSize; simpl; lia|]. split; [constructor|].
      intros _. split; [split; [done|congruence]|done]. }
  specialize (Hg eq_refl). pose proof Hg as (_ & _ & Hcap & _). rewrite Hcap.
  pose proof (cap_range (content := content)) as Hcr.
  destruct ((cap <? lba) || (cap -₆₄ lba <? count)) eqn:Ho.
  { intros [= <- <- <-]. eexists false, [], s. split; [done|]. split; [done|].
    split; [left; split; [by split|done]|]. split; [done|].
    split; [unfold kSectorSize; simpl; lia|]. split; [constructor|].
    intros _. split; [by split|]. split; [done|]. intros _ _ Hin. rewrite u64_small in Ho by lia.
    destruct (Z.ltb_spec cap lba), (Z.ltb_spec (cap - lba) count); simpl in Ho; (done || lia). }
  zbool. rewrite u64_small in * by lia.
  destruct (read_each_run (set_lock true s) lba 0 (Z.to_nat count))
    as (ok & bytes & s1 & E & Hs1 & Hb & Hlen & Hby & Hp); [done|lia..|].
  assert ((dr_lock ;; r ← read_each mmu dma_vaddr lba 0 (Z.to_nat count); dr_unlock ;; mret r) s =
    Some ((ok, bytes), set_lock false s1)) as E1.
  { unfold dr_lock. erewrite bind_run by (by rewrite Hlock). by rewrite (bind_run _ _ _ _ _ E). }
  rewrite E1. intros [= <- <- <-]. eexists ok, bytes, _. split; [done|]. split; [done|].
  rewrite Z2Nat.id in Hlen by lia. rewrite Z.add_0_r in Hb.
  assert (in_step s1 → driver_good (set_lock false s1)) as Hgood.
  { intros Hin. split; [done|]. intros _. exact Hin. }
  split; [destruct Hs1 as [[Hin Hu]|[-> Hu]]; [left; by split; [apply Hgood|]|by right]|].
  split; [intros Hok; split; [by apply Hb|lia]|]. split; [done|]. split; [done|].
  intros HP. destruct (Hp HP) as (Hin & Hu & Hok). split; [by apply Hgood|]. split; [done|]. auto.
Qed.

(** A device that answers in time makes the driver a block device; [n] is the
    number of requests that were not answered before. *)
Section Prompt.
Context (PROMPT : prompt V) (n : Z).

Definition driver_in_time (s : driver V) : Prop := driver_good s ∧ unanswered s = n.

Lemma driver_laws :
  @BlockDeviceLaws (driver V) (driver_device mmu dma_vaddr) content driver_in_time.
Proof.
  split.
  - apply disk_content_length.
  - apply disk_content_bytes.
  - intros s lba count [Hg Hn] Hl Hc.
    destruct (read_sectors_run s lba count Hg Hl Hc)
      as (ok & bytes & s' & E & (_ & Hv & Hb & Hcap) & _ & _ & _ & _ & Hp).
    destruct (Hp PROMPT) as (Hg' & Hu & _). exists ok, bytes, s'. split; [done|].
    split; [split; [done|congruence]|]. split; [done|]. simpl. unfold sector_count. by rewrite Hv, Hcap.
  - intros s lba count bytes s' [Hg _] Hl Hc E.
    destruct (read_sectors_run s lba count Hg Hl Hc) as (ok & b & s1 & E1 & _ & _ & Hb & _).
    simpl in E. rewrite E in E1. injection E1 as <- <- <-. by apply Hb.
  - intros s lba count bytes s' [Hg _] Hl Hc E.
    destruct (read_sectors_run s lba count Hg Hl Hc)
      as (ok & b & s1 & E1 & _ & _ & _ & Hlen & Hby & _).
    simpl in E. rewrite E in E1. injection E1 as <- <- <-. by split.
Qed.

Lemma driver_reliable :
  flawless V → @reliable (driver V) (driver_device mmu dma_vaddr) driver_in_time.
Proof.
  intros HF s lba count [Hg _] Hv Hl Hc Hin. simpl in *.
  destruct (read_sectors_run s lba count Hg) as (ok & bytes & s' & E & _ & _ & _ & _ & _ & Hp);
    [|done|].
  - unfold sector_count in Hin. rewrite Hv in Hin. destruct Hg as [_ Hg].
    destruct (Hg Hv) as (_ & _ & Hcap & _). pose proof (cap_range (content := content)). lia.
  - destruct (Hp PROMPT) as (_ & _ & Hok). rewrite (Hok HF Hv Hin) in E. by exists bytes, s'.
Qed.
End Prompt.

(** ** Probing *)

(** What probing leaves alone. *)
Definition same_globals (s s' : driver V) : Prop :=
  g_dma s' = g_dma s ∧ g_lock s' = g_lock s ∧ g_last_used s' = g_last_used s.

Definition probed (s s' : driver V) : Prop := same_globals s s' ∧ (vio_ok (hw s) → vio_ok (hw s')).

Lemma reg_read_slot (s : driver V) i r :
  0 ≤ i < 32 → g_base s = slot_base i → r = kRegMagic ∨ r = kRegVersion ∨ r = kRegDeviceId →
  ∃ v, reg_read r s = Some (id_reg i r, set_hw v s) ∧ (vio_ok (hw s) → vio_ok v).
Proof.
  intros Hi Hb Hr. unfold reg_read. rewrite Hb, u64_small.
  - pose proof (id_stable i r (hw s) Hi Hr) as E. pose proof (ok_read (slot_base i + r) (hw s)) as Hok.
    destruct (vio_read _ _) as [x v]. simpl in *. subst x. by exists v.
  - unfold slot_base, kMmioBase, kMmioStride, kRegMagic, kRegVersion, kRegDeviceId in *. lia.
Qed.

Lemma find_slot_run (s : driver V) i k :
  0 ≤ i → i + Z.of_nat k = 32 → (∀ j, 0 ≤ j < i → ¬ is_blk j) →
  ∃ b s', find_slot i k s = Some (b, s') ∧ probed s s' ∧
    (b = true → g_base s' = base) ∧ (b = false → ∀ j, 0 ≤ j < 32 → ¬ is_blk j).
Proof.
  revert s i; induction k as [|k IH]; intros s i Hi Hk Hno.
  { eexists false, s. split; [done|]. split; [done|]. split; [done|].
    intros _ j Hj. apply Hno. lia. }
  cbn [find_slot]. erewrite bind_run by done.
  assert (∀ s' : driver V, ¬ is_blk i → probed s s' →
    ∃ b s2, find_slot (i + 1) k s' = Some (b, s2) ∧ probed s s2 ∧
      (b = true → g_base s2 = base) ∧ (b = false → ∀ j, 0 ≤ j < 32 → ¬ is_blk j)) as Hnext.
  { intros s' Hni ((G1 & G2 & G3) & G4).
    destruct (IH s' (i + 1)) as (b & s2 & E & ((F1 & F2 & F3) & F4) & H12);
      [lia..| |].
    - intros j Hj. destruct (decide (j = i)) as [->|]; [done|apply Hno; lia].
    - exists b, s2. split; [done|]. split; [|done]. unfold probed, same_globals. split_and!; try congruence. auto. }
  set (s0 := set_base _ s). assert (g_base s0 = slot_base i) as Hb.
  { unfold s0; simpl. unfold slot_base, kMmioBase, kMmioStride.
    rewrite (u64_small (i * 512)), u64_small; lia. }
  destruct (reg_read_slot s0 i kRegMagic) as (v1 & E1 & O1); [lia|done|auto|]. simpl in O1.
  mstep E1. destruct (Z.eqb_spec (id_reg i kRegMagic) kMagicValue) as [Em|Em]; cbn [negb];
    [|apply Hnext; [intros (? & _); done|by split_and!; auto]].
  destruct (reg_read_slot (set_hw v1 s0) i kRegVersion) as (v2 & E2 & O2); [lia|done|auto|]. simpl in O2.
  mstep E2. destruct (Z.eqb_spec (id_reg i kRegVersion) 2) as [Ev|Ev]; cbn [negb];
    [|apply Hnext; [intros (_ & ? & _); done|by split_and!; auto]].
  destruct (reg_read_slot (set_hw v2 (set_hw v1 s0)) i kRegDeviceId) as (v3 & E3 & O3); [lia|done|auto|]. simpl in O3.
  mstep E3. destruct (Z.eqb_spec (id_reg i kRegDeviceId) kDeviceIdBlock) as [Ed|Ed]; cbn [negb];
    [|apply Hnext; [intros (_ & _ & ?); done|by split_and!; auto]].
  eexists true, _. split; [done|]. split; [by split_and!; auto|]. split; [|done]. intros _.
  transitivity (slot_base i); [exact Hb|]. symmetry. apply base_first; [lia| |done]. by split.
Qed.

Lemma write_addr_run (s : driver V) reg off :
  g_base s = base → 0 ≤ reg → reg + 4 < 512 →
  write_addr mmu dma_vaddr reg off s =
    Some (tt, set_hw (vio_write (base + reg + 4) (phys off / 2 ^ 32)
                       (vio_write (base + reg) (phys off mod 2 ^ 32) (hw s))) s).
Proof.
  intros Hb H1 H2. unfold write_addr. mstep reg_write_run; [|done|lia].
  rewrite reg_write_run by (done || lia). rewrite Z.add_assoc, Z.shiftr_div_pow2 by lia.
  rewrite (u32_small (_ / _)); [done|].
  pose proof (u64_range (dma_vaddr +₆₄ off + g_image_phys_offset mmu)).
  unfold dma_phys, virt_to_phys. dlia.
Qed.

Lemma land_bit_set x k : 0 ≤ k → (Z.land x (2 ^ k) =? 0) = false → Z.testbit x k = true.
Proof. intros Hk E. by rewrite <- land_bit_ge, E by done. Qed.

Lemma lor_halves x :
  0 ≤ x < 2 ^ 64 → Z.lor (x mod 2 ^ 32) (u64 (Z.shiftl (x / 2 ^ 32) 32)) = x.
Proof.
  intros Hx. rewrite u64_small by (rewrite Z.shiftl_mul_pow2 by lia; dlia).
  rewrite lor_shiftl by (lia || dlia). dlia.
Qed.

(** The same accesses on a state whose hardware part is explicit. *)
Section At.
Context (s : driver V) (v : V).
Hypothesis BASE : g_base s = base.

Lemma reg_read_at off : 0 ≤ off < 512 →
  reg_read off (set_hw v s) = Some ((vio_read (base + off) v).1, set_hw (vio_read (base + off) v).2 s).
Proof. apply (reg_read_run (set_hw v s)), BASE. Qed.

Lemma reg_write_at off x : 0 ≤ off < 512 →
  reg_write off x (set_hw v s) = Some (tt, set_hw (vio_write (base + off) x v) s).
Proof. apply (reg_write_run (set_hw v s)), BASE. Qed.

Lemma write_addr_at reg off : 0 ≤ reg → reg + 4 < 512 →
  write_addr mmu dma_vaddr reg off (set_hw v s) =
    Some (tt, set_hw (vio_write (base + reg + 4) (phys off / 2 ^ 32)
                       (vio_write (base + reg) (phys off mod 2 ^ 32) v)) s).
Proof. apply (write_addr_run (set_hw v s)), BASE. Qed.
End At.

(** Runs the register access at the head of the code. *)
Ltac reg_step BASE :=
  match goal with
  | |- context [(?c ≫= _) (set_hw ?v ?s)] =>
      lazymatch c with
      | write_addr _ _ ?r ?o =>
          rewrite (bind_run _ _ _ _ _ (write_addr_at s v BASE r o ltac:(done) ltac:(done)))
      | reg_write ?r ?x => rewrite (bind_run _ _ _ _ _ (reg_write_at s v BASE r x ltac:(by split)))
      | reg_read ?r => rewrite (bind_run _ _ _ _ _ (reg_read_at s v BASE r ltac:(by split)))
      end
  end.

Ltac gives_up Hsame :=
  eexists false, _; split; [reflexivity|]; split; [exact Hsame|intros Habs; discriminate Habs].

(** Initialising a device at [base] either gives up or follows the specified
    sequence to the end, and then the device is live and its size known. *)
Lemma init_device_run (s : driver V) :
  vio_ok (hw s) →
  ∃ b s', init_device mmu dma_vaddr s = Some (b, s') ∧ same_globals s s' ∧
    (b = true → g_base s' = base ∧ idle (hw s') 0 ∧ g_capacity s' = cap).
Proof.
  intros Hok. unfold init_device.
  destruct (find_slot_run s 0 kMmioSlots) as (b & s0 & E & (Hsame & Hok0) & Hb & _);
    [lia|done|lia|]. mstep E.
  destruct b; cbn [negb]; [|gives_up Hsame]. specialize (Hb eq_refl).
  replace s0 with (set_hw (hw s0) s0) by (by destruct s0).
  do 5 reg_step Hb. case_match eqn:Ef; [gives_up Hsame|].
  do 6 reg_step Hb. case_match eqn:Es; [gives_up Hsame|].
  do 2 reg_step Hb. case_match eqn:En; [gives_up Hsame|]. do 6 reg_step Hb.
  match goal with |- context [set_hw ?v s0] => set (v1 := v) in * end.
  assert (idle v1 0) as Hidle.
  { eapply init_live with (old := vio_log (hw s0)).
    - unfold v1. repeat first [apply ok_write|apply ok_read]. auto.
    - apply (land_bit_set _ 0 ltac:(lia)) in Ef. apply (land_bit_set _ 3 ltac:(lia)) in Es.
      apply Z.ltb_ge in En. exact (Transcript _ _ _ _ _ Ef Es En).
    - unfold v1. rewrite ?log_write, ?log_read, ?log_write, ?log_read, ?log_write, ?log_read,
        ?log_write. reflexivity. }
  do 2 reg_step Hb. erewrite bind_run by done. eexists true, _. split; [done|].
  split; [done|]. intros _. split; [done|]. pose proof (cap_range (content := content)) as Hcap.
  assert (idle (vio_read (base + kRegConfig) v1).2 0) as Hidle2 by (apply idle_read; auto).
  split; [apply (idle_read _ 0 (kRegConfig + 4)); auto|].
  cbn [g_capacity set_capacity hw set_hw].
  rewrite (config_low _ 0 Hidle). rewrite Z.add_assoc, (config_high _ 0 Hidle2).
  by apply lor_halves.
Qed.

Lemma probe_run v :
  vio_ok v →
  ∃ s, DiskReader mmu dma_vaddr (driver_boot v) = Some (tt, s) ∧ driver_good s ∧
    (g_valid s = true → sector_count s = cap) ∧
    DiskReader mmu dma_vaddr s = Some (tt, s).
Proof.
  intros Hok. unfold DiskReader. erewrite (bind_run dr_lock) by done.
  destruct (init_device_run (set_lock true (driver_boot v)) Hok)
    as (b & s0 & E & (F1 & F2 & F3) & Hb).
  assert (probe_locked mmu dma_vaddr (set_lock true (driver_boot v)) = Some (tt, set_probed b s0))
    as Ep by (unfold probe_locked; simpl; by rewrite E).
  mstep Ep. eexists. split; [done|].
  split; [split; [done|]|]; [|split].
  - intros Hv. simpl in Hv. subst b. destruct (Hb eq_refl) as (Hba & Hi & Hc).
    unfold in_step; simpl. rewrite F1, F3; simpl. by split_and!.
  - unfold sector_count; simpl. intros ->. by destruct (Hb eq_refl) as (_ & _ & ?).
  - done.
Qed.

(** C28: the first [DiskReader] initialises the hardware.  It follows the virtio
    initialisation sequence on the first block device of the bus or reports no
    disk; in both cases the lock is released and, if a disk was found, driver
    and device agree on the queue and the capacity is the disk's.  Constructing
    further [DiskReader]s changes nothing. *)
Theorem disk_reader_probes_once v :
  vio_ok v →
  ∃ s, DiskReader mmu dma_vaddr (driver_boot v) = Some (tt, s) ∧ driver_good s ∧
    (g_valid s = true → sector_count s = cap) ∧
    DiskReader mmu dma_vaddr s = Some (tt, s).
Proof. apply probe_run. Qed.

(** C22: [read_sectors] implements a block device, as far as the disk keeps up.
    From a state in which driver and device agree it returns, whatever the device
    does; on success the buffer has received exactly the requested sectors, which
    lie on the disk; on failure it stores at most the requested length.  Either
    driver and device agree again afterwards, or the call failed and exactly one
    request was not answered within [kPollLimit] polls.  On a device that answers
    every request in time the former is the case, and if it reports no errors, no
    read within the disk fails. *)
Theorem read_sectors_correct s lba count :
  driver_good s → 0 ≤ lba < 2 ^ 64 → 0 ≤ count < 2 ^ 32 →
  ∃ ok bytes s', read_sectors mmu dma_vaddr lba count s = Some ((ok, bytes), s') ∧
    g_lock s' = false ∧
    (driver_good s' ∧ unanswered s' = unanswered s ∨ ok = false ∧ unanswered s' = unanswered s + 1) ∧
    (ok = true → bytes = sectors content lba (Z.to_nat count) ∧ lba + count ≤ sector_count s) ∧
    Z.of_nat (length bytes) ≤ count * kSectorSize ∧
    (prompt V → driver_good s' ∧
       (flawless V → g_valid s = true → lba + count ≤ sector_count s → ok = true)).
Proof.
  intros Hg Hl Hc.
  destruct (read_sectors_run s lba count Hg Hl Hc)
    as (ok & bytes & s' & E & (Hlk & _) & Hs & Hb & Hlen & _ & Hp).
  exists ok, bytes, s'. split; [done|]. split; [destruct Hg; congruence|].
  split_and!; try done. intros HP. destruct (Hp HP) as (? & _ & ?). by split.
Qed.
End Props.
