(* ===== verification/Fat32.v ===== *)
(** * kernel/src/fat32.cpp: mounting a FAT32 volume, lookup, find and read

    The code over any block device.  Local byte arrays are lists with checked
    access; [None] stands for an access outside an array, so that totality of
    these definitions is memory safety.  Integers are kept at the width the
    source gives them. *)

From S2P Require Import Prelude Arrays BlockDev.

Local Open Scope machine_scope.

Definition kSector : Z := kSectorSize.
Definition kAttrVolumeId : Z := 0x08.
Definition kAttrDirectory : Z := 0x10.
Definition kAttrLfn : Z := 0x0F.
Definition kMaxNameLen : Z := 255.

(** ** Field readers *)

Definition le16 (buf : list Z) (p : Z) : option Z :=
  b0 ← arr_get buf p; b1 ← arr_get buf (p + 1);
  Some (u16 (Z.lor b0 (Z.shiftl b1 8))).

Definition le32 (buf : list Z) (p : Z) : option Z :=
  b0 ← arr_get buf p; b1 ← arr_get buf (p + 1);
  b2 ← arr_get buf (p + 2); b3 ← arr_get buf (p + 3);
  Some (Z.lor (Z.lor (Z.lor b0 (u32 (Z.shiftl b1 8))) (u32 (Z.shiftl b2 16)))
              (u32 (Z.shiftl b3 24))).

(** ** Names

    [char] is unsigned on aarch64. *)

Definition upper (c : Z) : Z := if (97 <=? c) && (c <=? 122) then u8 (c - 97 + 65) else c.

Fixpoint equal_chars (a b : list Z) : bool :=
  match a, b with
  | x :: a', y :: b' => if upper x =? upper y then equal_chars a' b' else false
  | _, _ => true
  end.

Definition equal_nocase (a b : list Z) : bool :=
  if negb (Nat.eqb (length a) (length b)) then false else equal_chars a b.

Fixpoint checksum_loop (sum : Z) (buf : list Z) (p : Z) (k : nat) : option Z :=
  match k with
  | O => Some sum
  | S k' =>
      b ← arr_get buf p;
      checksum_loop (u8 ((if Z.land sum 1 =? 0 then 0 else 0x80) + Z.shiftr sum 1 + b))
        buf (p + 1) k'
  end.

(** [name11] is at [buf + p]. *)
Definition short_name_checksum (buf : list Z) (p : Z) : option Z := checksum_loop 0 buf p 11.

(** [for (i = from; i < from + k && name11[i] != ' '; i++)] *)
Fixpoint short_name_part (buf : list Z) (p i : Z) (k : nat) : option (list Z) :=
  match k with
  | O => Some []
  | S k' =>
      b ← arr_get buf (p + i);
      if b =? 32 then Some []
      else
        rest ← short_name_part buf p (i + 1) k';
        Some ((if (i =? 0) && (b =? 0x05) then 0xE5 else b) :: rest)
  end.

Definition format_short_name (buf : list Z) (p : Z) : option (list Z) :=
  base ← short_name_part buf p 0 8;
  x ← arr_get buf (p + 8);
  if x =? 32 then Some base
  else ext ← short_name_part buf p 8 3; Some (base ++ 46 :: ext).

(** ** Fat32 and its metadata *)

Record Fat32Metadata := Meta {
  bytes_per_sector : Z;
  sectors_per_cluster : Z;
  reserved_sectors : Z;
  num_fats : Z;
  sectors_per_fat : Z;
  root_cluster : Z;
  total_sectors : Z;
  data_start_sector : Z;
  cluster_count : Z;
  volume_id : Z;
  label : list Z;
  free_clusters_hint : Z;
}.

Record Fat32 := MkFat32 { valid_ : bool; meta_ : Fat32Metadata }.

(** [Fat32Metadata meta_{}] *)
Definition meta_zero : Fat32Metadata :=
  Meta 0 0 0 0 0 0 0 0 0 0 (replicate 12 0) 0.

Definition valid_cluster (m : Fat32Metadata) (cluster : Z) : bool :=
  (2 <=? cluster) && (cluster <? cluster_count m +₃₂ 2).

Definition cluster_lba (m : Fat32Metadata) (cluster : Z) : Z :=
  data_start_sector m +₆₄ (cluster -₃₂ 2) *₆₄ sectors_per_cluster m.

(** [while (label_len > 0 && sector[71 + label_len - 1] == ' ') label_len--] *)
Fixpoint trim_label (sector : list Z) (label_len : nat) : option nat :=
  match label_len with
  | O => Some O
  | S k =>
      b ← arr_get sector (71 + Z.of_nat label_len - 1);
      if b =? 32 then trim_label sector k else Some label_len
  end.

(** "FAT32   " *)
Definition fat32_type_label : list Z := [70; 65; 84; 51; 50; 32; 32; 32].

(** The first test: signature, sector size and the fields that tell FAT32 from
    FAT12/16. *)
Definition looks_like_fat32 (sector : list Z) : option bool :=
  s510 ← arr_get sector 510; s511 ← arr_get sector 511;
  bps ← le16 sector 11; root_ents ← le16 sector 17; fatsz16 ← le16 sector 22;
  fatsz32 ← le32 sector 36; fstype ← arr_slice sector 82 8;
  Some (negb (negb (s510 =? 0x55) || negb (s511 =? 0xAA) || negb (bps =? kSector) ||
              negb (root_ents =? 0) || negb (fatsz16 =? 0) || (fatsz32 =? 0) ||
              negb (bool_decide (fstype = fat32_type_label)))).

(** The geometry fields, read at their fixed offsets. *)
Definition parse_bpb (sector : list Z) : option Fat32Metadata :=
  spc ← arr_get sector 13; rsvd ← le16 sector 14; nfats ← arr_get sector 16;
  spf ← le32 sector 36; root ← le32 sector 44; total16 ← le16 sector 19;
  total32 ← le32 sector 32; volid ← le32 sector 67;
  label_len ← trim_label sector 11;
  text ← arr_slice sector 71 (Z.of_nat label_len);
  lab ← arr_write (label meta_zero) 0 text;
  lab' ← arr_write lab (Z.of_nat label_len) [0];
  Some (Meta kSector spc rsvd nfats spf root
          (if negb (total16 =? 0) then total16 else total32) 0 0 volid lab' 0).

Definition set_layout (m : Fat32Metadata) (data_start count : Z) : Fat32Metadata :=
  Meta (bytes_per_sector m) (sectors_per_cluster m) (reserved_sectors m) (num_fats m)
    (sectors_per_fat m) (root_cluster m) (total_sectors m) data_start count
    (volume_id m) (label m) (free_clusters_hint m).

Definition set_free_hint (m : Fat32Metadata) (hint : Z) : Fat32Metadata :=
  Meta (bytes_per_sector m) (sectors_per_cluster m) (reserved_sectors m) (num_fats m)
    (sectors_per_fat m) (root_cluster m) (total_sectors m) (data_start_sector m)
    (cluster_count m) (volume_id m) (label m) hint.

(** [meta_.sectors_per_cluster == 0 || not a power of two || ...] *)
Definition bad_geometry (m : Fat32Metadata) : bool :=
  (sectors_per_cluster m =? 0) ||
  negb (Z.land (sectors_per_cluster m) (sectors_per_cluster m -₃₂ 1) =? 0) ||
  (num_fats m =? 0) || (reserved_sectors m =? 0).

(** [reserved_sectors + (uint64_t)num_fats * sectors_per_fat] *)
Definition data_start_of (m : Fat32Metadata) : Z :=
  reserved_sectors m +₆₄ num_fats m *₆₄ sectors_per_fat m.

(** ** Directory entries *)

Record Entry := MkEntry { first_cluster : Z; entry_size : Z; entry_dir : bool }.

(** The local variables of [lookup] that survive from one directory entry to
    the next: [char lfn[kMaxNameLen + 14]] and the state of its assembly. *)
Record lfn_state := Lfn {
  lfn : list Z;
  lfn_len : Z;
  lfn_ok : bool;
  lfn_checksum : Z;
}.

Definition lfn_init : lfn_state := Lfn (replicate (Z.to_nat (kMaxNameLen + 14)) 0) 0 false 0.

Definition drop_lfn (st : lfn_state) : lfn_state :=
  Lfn (lfn st) (lfn_len st) false (lfn_checksum st).

(** What one 32-byte entry does to the search. *)
Inductive scan_result :=
| EndOfDirectory
| Continue (st : lfn_state)
| Match (e : Entry).

Definition kOffsets : list Z := [1; 3; 5; 7; 9; 14; 16; 18; 20; 22; 24; 28; 30].

Definition lfn_char (ch : Z) : Z :=
  if ch =? 0xFFFF then 0 else if ch <? 0x80 then ch else 63.

(** [for (i = 0; i < 13; i++) lfn[(seq - 1) * 13 + i] = ...] *)
Fixpoint store_piece (sector : list Z) (e base : Z) (offsets buf : list Z) : option (list Z) :=
  match offsets with
  | [] => Some buf
  | o :: rest =>
      ch ← le16 sector (e + o);
      buf' ← arr_write buf base [lfn_char ch];
      store_piece sector e (base + 1) rest buf'
  end.

(** An entry with attribute [kAttrLfn]. *)
Definition scan_lfn (sector : list Z) (e : Z) (st : lfn_state) : option lfn_state :=
  ord ← arr_get sector e;
  let seq := Z.land ord 0x3F in
  if (seq =? 0) || (kMaxNameLen + 13 <? seq * 13) then Some (drop_lfn st)
  else
    sum ← arr_get sector (e + 13);
    st' ←
      (if negb (Z.land ord 0x40 =? 0)
       then Some (Some (Lfn (replicate (length (lfn st)) 0) (seq * 13) true sum))
       else if negb (lfn_ok st) || negb (sum =? lfn_checksum st) then Some None
       else Some (Some st));
    match st' with
    | None => Some (drop_lfn st)
    | Some st1 =>
        buf ← store_piece sector e ((seq - 1) * 13) kOffsets (lfn st1);
        Some (Lfn buf (lfn_len st1) (lfn_ok st1) (lfn_checksum st1))
    end.

(** [while (n < lfn_len && lfn[n] != '\0') n++], as the name it delimits. *)
Fixpoint lfn_name (buf : list Z) (n : Z) (k : nat) : option (list Z) :=
  match k with
  | O => Some []
  | S k' =>
      c ← arr_get buf n;
      if c =? 0 then Some [] else rest ← lfn_name buf (n + 1) k'; Some (c :: rest)
  end.

(** Whether the short entry at [e], with the pending long name, is [name]. *)
Definition short_matches (sector : list Z) (e : Z) (st : lfn_state) (have_lfn : bool)
    (name : list Z) : option bool :=
  long ← (if have_lfn
          then l ← lfn_name (lfn st) 0 (Z.to_nat (lfn_len st)); Some (equal_nocase l name)
          else Some false);
  if (long : bool) then Some true
  else short ← format_short_name sector e; Some (equal_nocase short name).

(** The entry's starting cluster, size and kind. *)
Definition read_entry (sector : list Z) (e attr : Z) : option Entry :=
  hi ← le16 sector (e + 20); lo ← le16 sector (e + 26); sz ← le32 sector (e + 28);
  Some (MkEntry (Z.lor (u32 (Z.shiftl hi 16)) lo) sz (negb (Z.land attr kAttrDirectory =? 0))).

(** A short entry: it consumes the pending long name. *)
Definition scan_short (sector : list Z) (e attr : Z) (st : lfn_state) (name : list Z)
    : option scan_result :=
  have_lfn ← (if lfn_ok st
              then sum ← short_name_checksum sector e; Some (sum =? lfn_checksum st)
              else Some false);
  let st1 := drop_lfn st in
  if negb (Z.land attr kAttrVolumeId =? 0) then Some (Continue st1)
  else
    found ← short_matches sector e st1 have_lfn name;
    if (found : bool) then en ← read_entry sector e attr; Some (Match en)
    else Some (Continue st1).

(** The body of the innermost loop, for the entry at [sector + e]. *)
Definition scan_entry (sector : list Z) (e : Z) (st : lfn_state) (name : list Z)
    : option scan_result :=
  b0 ← arr_get sector e;
  if b0 =? 0x00 then Some EndOfDirectory
  else if b0 =? 0xE5 then Some (Continue (drop_lfn st))
  else
    attr ← arr_get sector (e + 11);
    if attr =? kAttrLfn then st' ← scan_lfn sector e st; Some (Continue st')
    else scan_short sector e attr st name.

(** [for (off = 0; off < kSector; off += 32)], from [off], for [k] entries. *)
Fixpoint scan_sector (sector : list Z) (off : Z) (k : nat) (st : lfn_state) (name : list Z)
    : option scan_result :=
  match k with
  | O => Some (Continue st)
  | S k' =>
      r ← scan_entry sector off st name;
      match r with
      | Continue st' => scan_sector sector (off + 32) k' st' name
      | _ => Some r
      end
  end.

(** ** Paths

    A C string is the list of its characters; reading past its end gives the
    terminating NUL. *)

Fixpoint skip_slashes (p : list Z) : list Z :=
  match p with
  | c :: r => if c =? 47 then skip_slashes r else p
  | [] => []
  end.

(** The characters up to the next slash or the end, and the rest. *)
Fixpoint split_component (p : list Z) : list Z * list Z :=
  match p with
  | [] => ([], [])
  | c :: r =>
      if (c =? 0) || (c =? 47) then ([], p)
      else let '(a, b) := split_component r in (c :: a, b)
  end.

Definition at_end (p : list Z) : bool := match p with [] => true | c :: _ => c =? 0 end.

(** ** Files *)

Record File := MkFile {
  fs_ : option Fat32;
  first_cluster_ : Z;
  size_ : Z;
  dir_ : bool;
  cache_index_ : Z;
  cache_cluster_ : Z;
}.

Definition no_file : File := MkFile None 0 0 false 0 0.

Definition set_cache (f : File) (index cluster : Z) : File :=
  MkFile (fs_ f) (first_cluster_ f) (size_ f) (dir_ f) index cluster.

Section Fat32.
Context {D : Type} `{BlockDevice D}.

(** A one-sector read into a local [sector] array; [None] when it fails. *)
Definition read_sector (lba : Z) : ST D (option (list Z)) :=
  '(ok, bytes) ← disk_read_sectors lba 1;
  mret (if (ok : bool) then Some bytes else None).

(** FSInfo's free-cluster count, if that sector is there and well formed. *)
Definition read_free_hint (m : Fat32Metadata) (fsinfo_sector : Z) : ST D Z :=
  if negb (fsinfo_sector =? 0) && (fsinfo_sector <? reserved_sectors m) then
    r ← read_sector fsinfo_sector;
    match r with
    | None => mret 0xFFFFFFFF
    | Some sector =>
        lead ← checked (le32 sector 0);
        if negb (lead =? 0x41615252) then mret 0xFFFFFFFF
        else
          struc ← checked (le32 sector 484);
          if negb (struc =? 0x61417272) then mret 0xFFFFFFFF
          else checked (le32 sector 488)
    end
  else mret 0xFFFFFFFF.

(** [Fat32::Fat32(disk)] from the boot sector on. *)
Definition mount_boot_sector (sector : list Z) : ST D Fat32 :=
  fat32 ← checked (looks_like_fat32 sector);
  if negb fat32 then mret (MkFat32 false meta_zero)
  else
    m ← checked (parse_bpb sector);
    fsinfo_sector ← checked (le16 sector 48);
    if bad_geometry m then mret (MkFat32 false m)
    else
      let data_start := data_start_of m in
      count ← (λ d, Some (disk_sector_count d, d));
      if (total_sectors m <=? data_start) || (count <? total_sectors m)
      then mret (MkFat32 false m)
      else
        let m1 := set_layout m (u32 data_start)
          (u32 ((total_sectors m -₆₄ data_start) / sectors_per_cluster m)) in
        if negb (valid_cluster m1 (root_cluster m1)) then mret (MkFat32 false m1)
        else
          hint ← read_free_hint m1 fsinfo_sector;
          mret (MkFat32 true (set_free_hint m1 hint)).

Definition mount : ST D Fat32 :=
  v ← (λ d, Some (disk_valid d, d));
  if negb v then mret (MkFat32 false meta_zero)
  else
    r ← read_sector 0;
    match r with
    | None => mret (MkFat32 false meta_zero)
    | Some sector => mount_boot_sector sector
    end.

(** [fat_next(cluster, next)]: the entry, or [None] on a disk error. *)
Definition fat_next (m : Fat32Metadata) (cluster : Z) : ST D (option Z) :=
  let byte_off := cluster *₃₂ 4 in
  r ← read_sector (reserved_sectors m +₃₂ byte_off / kSector);
  match r with
  | None => mret None
  | Some sector =>
      v ← checked (le32 sector (byte_off mod kSector));
      mret (Some (Z.land v 0x0FFFFFFF))
  end.

(** *** lookup *)

(** What the search of a cluster, or of the chain, comes to. *)
Inductive lookup_step :=
| LookupDone (r : option Entry)
| LookupMore (st : lfn_state).

(** [for (s = 0; s < sectors_per_cluster; s++)], from [s], for [k] sectors. *)
Fixpoint scan_cluster (m : Fat32Metadata) (cluster s : Z) (k : nat) (st : lfn_state)
    (name : list Z) : ST D lookup_step :=
  match k with
  | O => mret (LookupMore st)
  | S k' =>
      r ← read_sector (cluster_lba m cluster +₆₄ s);
      match r with
      | None => mret (LookupDone None)
      | Some sector =>
          res ← checked (scan_sector sector 0 16 st name);
          match res with
          | EndOfDirectory => mret (LookupDone None)
          | Match en => mret (LookupDone (Some en))
          | Continue st' => scan_cluster m cluster (s + 1) k' st' name
          end
      end
  end.

(** [for (hops = 0; valid_cluster(cluster) && hops <= cluster_count; hops++)],
    for the [k] values of [hops] that are left. *)
Fixpoint scan_chain (m : Fat32Metadata) (cluster : Z) (k : nat) (st : lfn_state)
    (name : list Z) : ST D (option Entry) :=
  match k with
  | O => mret None
  | S k' =>
      if negb (valid_cluster m cluster) then mret None
      else
        res ← scan_cluster m cluster 0 (Z.to_nat (sectors_per_cluster m)) st name;
        match res with
        | LookupDone r => mret r
        | LookupMore st' =>
            next ← fat_next m cluster;
            match next with
            | None => mret None
            | Some c => scan_chain m c k' st' name
            end
        end
  end.

Definition fat_lookup (m : Fat32Metadata) (dir_cluster : Z) (name : list Z)
    : ST D (option Entry) :=
  scan_chain m dir_cluster (Z.to_nat (cluster_count m + 1)) lfn_init name.

(** *** find *)

(** The loop of [find], entered with [cur] and the rest of the path; each round
    takes at least one character, so the path's length is enough fuel. *)
Fixpoint find_loop (fuel : nat) (m : Fat32Metadata) (cur : Entry) (p : list Z)
    : ST D (option Entry) :=
  match fuel with
  | O => fault
  | S k =>
      let p1 := skip_slashes p in
      if at_end p1 then mret (Some cur)
      else
        let '(name, rest) := split_component p1 in
        if negb (entry_dir cur) then mret None
        else if kMaxNameLen <? Z.of_nat (length name) then mret None
        else
          let dir_cluster :=
            if first_cluster cur =? 0 then root_cluster m else first_cluster cur in
          r ← fat_lookup m dir_cluster name;
          match r with
          | None => mret None
          | Some e => find_loop k m e rest
          end
  end.

(** [find(path)]; [None] is [nullptr]. *)
Definition find (fs : Fat32) (path : option (list Z)) : ST D File :=
  match path with
  | None => mret no_file
  | Some p =>
      if negb (valid_ fs) then mret no_file
      else
        let m := meta_ fs in
        r ← find_loop (S (length p)) m (MkEntry (root_cluster m) 0 true) p;
        match r with
        | None => mret no_file
        | Some cur =>
            mret (MkFile (Some fs)
              (if entry_dir cur && (first_cluster cur =? 0) then root_cluster m else first_cluster cur)
              (if entry_dir cur then 0 else entry_size cur) (entry_dir cur) 0 0)
        end
  end.

(** *** File::read *)

(** [while (at < index)], for the [k] hops that are left; [None] is a corrupt
    chain or a disk error. *)
Fixpoint walk (m : Fat32Metadata) (cluster : Z) (k : nat) : ST D (option Z) :=
  match k with
  | O => mret (Some cluster)
  | S k' =>
      if negb (valid_cluster m cluster) then mret None
      else
        next ← fat_next m cluster;
        match next with
        | None => mret None
        | Some c => walk m c k'
        end
  end.

(** The cluster at chain position [index], from the cursor cache if it is not
    past it. *)
Definition locate (m : Fat32Metadata) (f : File) (index : Z) : ST D (option Z) :=
  let cached := valid_cluster m (cache_cluster_ f) && (cache_index_ f <=? index) in
  let start := if cached then cache_cluster_ f else first_cluster_ f in
  let from := if cached then cache_index_ f else 0 in
  r ← walk m start (Z.to_nat (index - from));
  match r with
  | None => mret None
  | Some c => mret (if valid_cluster m c then Some c else None)
  end.

(** One round of the copy loop at [lba], [byte_in_sector] bytes in: the number
    of bytes it reads, or [None] on a disk error, and the caller's buffer. *)
Definition copy_chunk (m : Fat32Metadata) (lba sector_in_cluster byte_in_sector remaining : Z)
    (done : Z) (out : list Z) : ST D (option Z * list Z) :=
  if (byte_in_sector =? 0) && (kSector <=? remaining) then
    let n := Z.min (u32 (remaining / kSector)) (sectors_per_cluster m -₃₂ sector_in_cluster) in
    '(ok, bytes) ← disk_read_sectors lba n;
    out' ← checked (arr_write out done bytes);
    mret (if (ok : bool) then Some (n * kSector) else None, out')
  else
    let chunk := Z.min (kSector - byte_in_sector) remaining in
    r ← read_sector lba;
    match r with
    | None => mret (None, out)
    | Some sector =>
        bytes ← checked (arr_slice sector byte_in_sector chunk);
        out' ← checked (arr_write out done bytes);
        mret (Some chunk, out')
    end.

(** [while (done < len)]; every round reads at least one byte. *)
Fixpoint read_loop (fuel : nat) (m : Fat32Metadata) (f : File) (offset len done : Z)
    (out : list Z) : ST D (Z * File * list Z) :=
  match fuel with
  | O => fault
  | S k =>
      if negb (done <? len) then mret (done, f, out)
      else
        let cluster_bytes := sectors_per_cluster m *₆₄ kSector in
        let pos := offset +₆₄ done in
        let index := pos / cluster_bytes in
        c ← locate m f index;
        match c with
        | None => mret (-1, f, out)
        | Some cluster =>
            let f1 := set_cache f (u32 index) cluster in
            let within := pos mod cluster_bytes in
            let sector_in_cluster := u32 (within / kSector) in
            let byte_in_sector := u32 (within mod kSector) in
            let lba := cluster_lba m cluster +₆₄ sector_in_cluster in
            '(n, out') ← copy_chunk m lba sector_in_cluster byte_in_sector (len - done) done out;
            match n with
            | None => mret (-1, f1, out')
            | Some n => read_loop k m f1 offset len (done +₆₄ n) out'
            end
        end
  end.

(** [f.read(offset, buf, len)]: the result, the handle with its updated cache,
    and the caller's buffer. *)
Definition read (f : File) (offset : Z) (buf : list Z) (len : Z) : ST D (Z * File * list Z) :=
  match fs_ f with
  | None => mret (-1, f, buf)
  | Some fs =>
      if dir_ f then mret (-1, f, buf)
      else if (size_ f <=? offset) || (len =? 0) then mret (0, f, buf)
      else
        let len := if size_ f - offset <? len then size_ f - offset else len in
        read_loop (S (Z.to_nat len)) (meta_ fs) f offset len 0 buf
  end.
End Fat32.
