(* ===== verification/RamDisk.v ===== *)
(** * A concrete disk: a small FAT32 image in memory

    [ram_disk] is a block device whose sectors are given by a finite map; it
    satisfies [BlockDeviceLaws], and serves the concrete instances of the file
    system's theorems.  [image] is a formatted volume of 16 sectors with one
    file whose two clusters are out of order and one with a long name. *)

From S2P Require Import Prelude Arrays BlockDev.

(** Sectors not in the map are zero. *)
Record ram_disk := RamDisk { ram_sectors : gmap Z (list Z); ram_count : Z }.

Definition zero_sector : list Z := replicate (Z.to_nat kSectorSize) 0.

(** A sector as stored, cut or padded to 512 bytes. *)
Definition ram_sector (rdk : ram_disk) (i : Z) : list Z :=
  take (Z.to_nat kSectorSize) ((u8 <$> default [] (ram_sectors rdk !! i)) ++ zero_sector).

Definition ram_read (lba count : Z) : ST ram_disk (bool * list Z) :=
  λ d, if (0 <=? count) && (lba + count <=? ram_count d)
       then Some ((true, sectors (ram_sector d) lba (Z.to_nat count)), d)
       else Some ((false, []), d).

#[export] Instance ram_device : BlockDevice ram_disk := {|
  disk_valid := λ _, true;
  disk_sector_count := ram_count;
  disk_read_sectors := ram_read;
|}.

(** [good] fixes the disk, so that its content stays what it is. *)
#[export] Instance ram_laws (d0 : ram_disk) :
  BlockDeviceLaws ram_disk (ram_sector d0) (λ d, d = d0).
Proof.
  split.
  - intros i. unfold ram_sector, zero_sector. rewrite length_take, length_app, length_replicate. lia.
  - intros i. apply Forall_take, Forall_app. split.
    + rewrite Forall_fmap. apply Forall_true. intros x. apply u8_range.
    + apply Forall_replicate. by split.
  - intros d lba count -> _ _. simpl. unfold ram_read. case_match; by eexists _, _, _.
  - intros d lba count bytes d' -> Hl Hc. simpl. unfold ram_read. case_match eqn:E; [|done].
    zbool. intros ?. by simplify_eq.
  - intros d lba count bytes d' -> Hl Hc. simpl. unfold ram_read. case_match; [done|].
    intros ?. simplify_eq. simpl. unfold kSectorSize. split; [lia|constructor].
Qed.

Lemma ram_reliable (d0 : ram_disk) : reliable ram_disk (λ d, d = d0).
Proof.
  intros d lba count -> _ Hl Hc Hr. simpl in *. unfold ram_read.
  rewrite !(proj2 (Z.leb_le _ _)) by lia. by eexists _, _.
Qed.

(** ** The image *)

(** [bytes] stored at offset [i] of [l]. *)
Definition patch (i : nat) (bytes l : list Z) : list Z :=
  take i l ++ bytes ++ drop (i + length bytes) l.

Definition image_boot : list Z :=
  patch 11 [0; 2] $ patch 13 [1] $ patch 14 [2; 0] $ patch 16 [1] $
  patch 32 [16; 0; 0; 0] $ patch 36 [1; 0; 0; 0] $ patch 44 [2; 0; 0; 0] $
  patch 48 [1; 0] $ patch 67 [0xEF; 0xBE; 0xAD; 0xDE] $
  patch 71 [73; 78; 84; 82; 79; 79; 83; 32; 32; 32; 32] $
  patch 82 [70; 65; 84; 51; 50; 32; 32; 32] $ patch 510 [0x55; 0xAA] zero_sector.

Definition image_fsinfo : list Z :=
  patch 0 [0x52; 0x52; 0x61; 0x41] $ patch 484 [0x72; 0x72; 0x41; 0x61] $
  patch 488 [7; 0; 0; 0] zero_sector.

(** Clusters: 2 the root, 5 then 3 the data file, 6 the named file. *)
Definition image_fat : list Z :=
  patch 0 [0xF8; 0xFF; 0xFF; 0x0F; 0xFF; 0xFF; 0xFF; 0x0F;
           0xFF; 0xFF; 0xFF; 0x0F; 0xFF; 0xFF; 0xFF; 0x0F;
           0; 0; 0; 0; 3; 0; 0; 0; 0xFF; 0xFF; 0xFF; 0x0F] zero_sector.

(** DATA.BIN, 700 bytes from cluster 5; then the long name "Mixed Case.text"
    over the short name MIXED~1.TEX, 4 bytes in cluster 6. *)
Definition image_root : list Z :=
  patch 0 [68; 65; 84; 65; 32; 32; 32; 32; 66; 73; 78; 0x20; 0; 0; 0; 0;
           0; 0; 0; 0; 0; 0; 0; 0; 0; 0; 5; 0; 188; 2; 0; 0] $
  patch 32 [0x42; 120; 0; 116; 0; 0; 0; 255; 255; 255; 255; 0x0F; 0; 117; 255; 255;
            255; 255; 255; 255; 255; 255; 255; 255; 255; 255; 0; 0; 255; 255; 255; 255] $
  patch 64 [0x01; 77; 0; 105; 0; 120; 0; 101; 0; 100; 0; 0x0F; 0; 117; 32; 0;
            67; 0; 97; 0; 115; 0; 101; 0; 46; 0; 0; 0; 116; 0; 101; 0] $
  patch 96 [77; 73; 88; 69; 68; 126; 49; 32; 84; 69; 88; 0x20; 0; 0; 0; 0;
            0; 0; 0; 0; 0; 0; 0; 0; 0; 0; 6; 0; 4; 0; 0; 0] zero_sector.

Definition image : ram_disk :=
  RamDisk (list_to_map
    [(0, image_boot); (1, image_fsinfo); (2, image_fat); (3, image_root);
     (6, replicate 512 0x41); (4, replicate 512 0x42); (7, [110; 101; 120; 116])]) 16.
