(* ===== verification/DiskSim.v ===== *)
(** * A simulated virtio-blk device

    Hardware for the concrete instances: slot 0 of the bus holds a block device
    of 16 sectors, the image of RamDisk.v.  A device is fast or slow, and satisfies
    [VirtioBlkLaws] in both cases ([sim_laws]).  The fast one completes a request at
    the next poll, without an error; the slow one takes longer than the driver's
    patience and shows what a timeout leads to. *)

From S2P Require Import Prelude Arrays BlockDev Mmu DiskReader DiskReaderProps RamDisk.

Local Open Scope machine_scope.

Record sim := Sim {
  sim_slow : bool;
  sim_log : list event;
  sim_notified : nat;        (* notifications the device has not looked at *)
  sim_queue : list Z;        (* sectors of the requests it has taken in *)
  sim_used : Z;
}.

Definition sim_boot (slow : bool) : sim := Sim slow [] 0 [] 0.

(** The registers, as constants: what the driver reads of them. *)
Definition sim_reg (a : Z) : Z :=
  let r := a - kMmioBase in
  if r =? kRegMagic then kMagicValue
  else if r =? kRegVersion then 2
  else if r =? kRegDeviceId then kDeviceIdBlock
  else if r =? kRegDeviceFeatures then 1
  else if r =? kRegStatus then 11
  else if r =? kRegQueueNumMax then 1024
  else if r =? kRegConfig then 16
  else 0.

Definition sim_complete (dm : Dma) (s used : Z) : Dma :=
  MkDma (desc dm) (avail_idx dm) (avail_ring dm) (u16 (used + 1)) (used_ring dm) (header dm)
    kBlkSOk (ram_sector image s).

Definition sim_dma (dm : Dma) (v : sim) : Dma * sim :=
  let q := sim_queue v ++ replicate (sim_notified v) (h_sector (header dm)) in
  match q with
  | s :: rest =>
      if sim_slow v && bool_decide (rest = []) then
        (dm, Sim (sim_slow v) (sim_log v) 0 q (sim_used v))
      else
        (sim_complete dm s (sim_used v),
         Sim (sim_slow v) (sim_log v) 0 rest (u16 (sim_used v + 1)))
  | [] => (dm, v)
  end.

#[export] Instance sim_mmio : VirtioMmio sim := {|
  vio_read := λ a v, (sim_reg a,
    Sim (sim_slow v) (Rd a (sim_reg a) :: sim_log v) (sim_notified v) (sim_queue v) (sim_used v));
  vio_write := λ a x v,
    if (a =? kMmioBase + kRegStatus) && (x =? 15)
    then Sim (sim_slow v) (Wr a x :: sim_log v) 0 [] 0
    else Sim (sim_slow v) (Wr a x :: sim_log v)
           (if a =? kMmioBase + kRegQueueNotify then S (sim_notified v) else sim_notified v)
           (sim_queue v) (sim_used v);
  vio_dma := sim_dma;
|}.

#[export] Instance sim_laws (slow : bool) (phys : Z → Z) : VirtioBlkLaws sim kMmioBase phys (ram_sector image) 16.
Proof.
  refine {|
    vio_log := sim_log;
    vio_ok := λ v, sim_slow v = slow ∧ ∀ old, sim_log v = Wr (kMmioBase + kRegStatus) 15 :: old →
      sim_notified v = O ∧ sim_queue v = [] ∧ sim_used v = 0;
    id_reg := λ i r, sim_reg (slot_base i + r);
    idle := λ v u, sim_slow v = slow ∧ sim_notified v = O ∧ sim_queue v = [] ∧ sim_used v = u;
    busy := λ v u, sim_slow v = slow ∧ sim_used v = u ∧
      (sim_notified v = 1%nat ∧ sim_queue v = [] ∨
       slow = true ∧ sim_notified v = O ∧ length (sim_queue v) = 1%nat);
  |}.
  - intros a x v. simpl. by case_match.
  - done.
  - intros dm v. simpl. unfold sim_dma. by repeat case_match.
  - intros a x v [Hs Hl]. simpl. case_match eqn:E; simpl; [done|]. split; [done|].
    intros old Ho. injection Ho as -> -> _. by vm_compute in E.
  - intros a v [Hs _]. by split.
  - done.
  - intros i Hi _ Hno. destruct (decide (i = 0)) as [->|]; [done|].
    exfalso. apply (Hno 0); [lia|done].
  - intros v evs old [Hs Hok] [feats st num _ _ _] Hlog. rewrite !rev_app_distr in Hlog.
    by destruct (Hok _ Hlog) as (? & ? & ?).
  - done.
  - done.
  - done.
  - done.
  - intros v u (Hs & Hn & ? & ?). simpl. rewrite Hn. auto.
  - intros v u dm s (Hs & Hu & Hb) (_ & _ & _ & Hh & _) Hus Hr. simpl. unfold sim_dma.
    destruct Hb as [[Hn Hq]|(-> & Hn & Hq)].
    + rewrite Hq, Hn, Hh, Hu, Hs. simpl. destruct slow; simpl; (split; [done|]); [left|right; done].
      split; [|done]. split; [done|]. split; [done|]. right. by split_and!.
    + destruct (sim_queue v) as [|x [|y r]]; try done. rewrite Hn, Hs. simpl. split; [done|].
      left. split; [|done]. split; [done|]. split; [done|]. right. by split_and!.
  - intros i. apply (content_length (BlockDeviceLaws := ram_laws image)).
  - intros i. apply (content_bytes (BlockDeviceLaws := ram_laws image)).
  - lia.
  - unfold kMmioBase. lia.
Defined.

Lemma sim_ok slow phys : vio_ok (VirtioBlkLaws := sim_laws slow phys) (sim_boot slow).
Proof. split; [done|]. intros old Ho. discriminate Ho. Qed.

(** The fast device answers at the first poll, and never with an error. *)
Lemma sim_dma_fast dm (v : sim) :
  sim_slow v = false → sim_notified v = 1%nat → sim_queue v = [] →
  (sim_dma dm v).1 = sim_complete dm (h_sector (header dm)) (sim_used v).
Proof. unfold sim_dma. by intros -> -> ->. Qed.

Lemma sim_flawless phys : flawless (LAWS := sim_laws false phys) sim.
Proof.
  intros v u dm s (Hs & Hu & [[Hn Hq]|[? _]]) _ _ _ _; [|done]. simpl. by rewrite sim_dma_fast.
Qed.

Lemma sim_prompt phys : prompt (LAWS := sim_laws false phys) sim.
Proof.
  exists (λ _, O). split; [intros; lia|].
  intros v u dm s (Hs & Hu & [[Hn Hq]|[? _]]) _ Hused _; [|done]. simpl. rewrite sim_dma_fast by done.
  simpl. rewrite Hu. unfold u16. intros E. exfalso. clear -E. dlia.
Qed.

Definition example_dma_vaddr : Z := example_vbase + 0x8000.
Notation sim_phys := (dma_phys example_mmu example_dma_vaddr).

Lemma disk_reader_probes_once_witness :
  ∃ s, DiskReader example_mmu example_dma_vaddr (driver_boot (sim_boot false)) = Some (tt, s) ∧
    g_valid s = true ∧ sector_count s = 16.
Proof.
  destruct (disk_reader_probes_once (LAWS := sim_laws false sim_phys) example_mmu example_dma_vaddr
    (sim_boot false) (sim_ok _ _)) as (s & E & _ & Hc & _).
  assert (g_valid s = true) as Hv.
  { assert ((g_valid ∘ snd <$> DiskReader example_mmu example_dma_vaddr
              (driver_boot (sim_boot false))) = Some true) as Hb by (vm_compute; reflexivity).
    rewrite E in Hb. injection Hb as Hb. exact Hb. }
  exists s. split; [exact E|]. split; [exact Hv|exact (Hc Hv)].
Defined.

(** The driver after probing the simulated device. *)
Definition sim_driver (slow : bool) : driver sim :=
  from_option snd (driver_boot (sim_boot slow))
    (DiskReader example_mmu example_dma_vaddr (driver_boot (sim_boot slow))).

Lemma sim_driver_good :
  driver_good (LAWS := sim_laws false sim_phys) example_mmu example_dma_vaddr (sim_driver false).
Proof.
  destruct (disk_reader_probes_once (LAWS := sim_laws false sim_phys) example_mmu example_dma_vaddr
    (sim_boot false) (sim_ok _ _)) as (s & E & Hg & _).
  unfold sim_driver. rewrite E. exact Hg.
Qed.

Lemma read_sectors_correct_witness :
  ∃ s', read_sectors example_mmu example_dma_vaddr 6 1 (sim_driver false) =
    Some ((true, replicate 512 0x41), s').
Proof.
  destruct (read_sectors_correct (LAWS := sim_laws false sim_phys) example_mmu example_dma_vaddr
    (sim_driver false) 6 1) as (ok & bytes & s' & E & _ & _ & Hb & _ & Hp);
    [exact sim_driver_good|lia|lia|].
  assert (g_valid (sim_driver false) = true) as Hv by (vm_compute; reflexivity).
  assert (sector_count (sim_driver false) = 16) as Hc by (vm_compute; reflexivity).
  destruct (Hp (sim_prompt _)) as [_ Hok].
  specialize (Hok (sim_flawless _) Hv ltac:(rewrite Hc; lia)). subst ok.
  exists s'. rewrite E. destruct (Hb eq_refl) as [-> _]. vm_compute. reflexivity.
Defined.

(** ** After a timeout

    [read_one] gives up after [kPollLimit] polls without advancing
    [g_last_used] or withdrawing the request: when the device does complete it,
    the completion is taken for that of the next request. *)

Lemma spin_fixed {A B} (body : A → A + B) p s s1 :
  body s = inl s1 → body s1 = inl s1 → spin body p s = inl s1.
Proof.
  intros E E1. rewrite spin_unary. destruct (Pos2Nat.is_succ p) as [n ->]. cbn [spin_nat].
  rewrite E. induction n as [|n IH]; [done|]. cbn [spin_nat]. by rewrite E1.
Qed.

(** The slow device has taken in the request for sector 3, and waits. *)
Definition stuck : sim :=
  let v := hw (sim_driver true) in
  Sim true (Wr (kMmioBase + kRegQueueNotify) 0 :: sim_log v) 0 [3] 0.

(** [read_one] when it has given up, and the driver after the failed call. *)
Definition given_up : driver sim :=
  set_hw stuck (set_dma
    (build_request example_mmu example_dma_vaddr 3 (g_dma (sim_driver true)))
    (set_lock true (sim_driver true))).

Definition timed_out : driver sim := set_lock false given_up.

(** The code's path when the first sector of a read is not delivered. *)
Section Fail.
Context {V : Type} `{VirtioMmio V} (mmu : mmu_state) (dma_vaddr : Z).

Lemma read_one_gives_up lba (s : driver V) s1 s2 :
  s1 = set_hw (vio_write (g_base s +₆₄ kRegQueueNotify) 0 (hw s))
         (set_dma (build_request mmu dma_vaddr lba (g_dma s)) s) →
  poll s1 = Some (false, s2) → read_one mmu dma_vaddr lba s = Some (false, s2).
Proof.
  intros -> E. unfold read_one. erewrite bind_run by done. erewrite bind_run by done.
  by rewrite (bind_run _ _ _ _ _ E).
Qed.

Lemma read_sectors_fails lba (s : driver V) s' :
  negb (g_valid s) || (g_capacity s <? lba) || (g_capacity s -₆₄ lba <? 1) = false →
  g_lock s = false → read_one mmu dma_vaddr (lba +₆₄ 0) (set_lock true s) = Some (false, s') →
  read_sectors mmu dma_vaddr lba 1 s = Some ((false, []), set_lock false s').
Proof.
  intros Ec El E. unfold read_sectors. rewrite Ec. unfold dr_lock.
  erewrite bind_run by (by rewrite El).
  assert (read_each mmu dma_vaddr lba 0 (Z.to_nat 1) (set_lock true s) = Some ((false, []), s')) as E1.
  { change (Z.to_nat 1) with 1%nat. cbn [read_each]. by rewrite (bind_run _ _ _ _ _ E). }
  by rewrite (bind_run _ _ _ _ _ E1).
Qed.
End Fail.

(** The state of [read_one] when it starts to poll. *)
Definition polling : driver sim :=
  let s := set_lock true (sim_driver true) in
  set_hw (vio_write (g_base s +₆₄ kRegQueueNotify) 0 (hw s))
    (set_dma (build_request example_mmu example_dma_vaddr 3 (g_dma s)) s).

Lemma slow_poll_gives_up : poll polling = Some (false, given_up).
Proof.
  assert (spin (poll_body (g_last_used polling)) (kPollLimit + 1) (g_dma polling, hw polling) =
    inl (build_request example_mmu example_dma_vaddr 3 (g_dma (sim_driver true)), stuck)) as Es
    by (apply spin_fixed; vm_compute; reflexivity).
  unfold poll. rewrite Es. vm_compute. reflexivity.
Qed.

Lemma slow_read_times_out :
  read_sectors example_mmu example_dma_vaddr 3 1 (sim_driver true) = Some ((false, []), timed_out).
Proof.
  unfold timed_out.
  apply read_sectors_fails; [vm_compute; reflexivity|vm_compute; reflexivity|].
  change (3 +₆₄ 0) with 3.
  exact (read_one_gives_up example_mmu example_dma_vaddr 3 (set_lock true (sim_driver true))
    polling given_up eq_refl slow_poll_gives_up).
Qed.

(** C34: a read after a timeout can return the wrong data.  With a device (it
    satisfies the virtio laws, by [sim_laws]) that
    completes a request only after the driver has given up on it, the failed
    read of sector 3 is followed by a read of sector 6 that succeeds with the
    contents of sector 3. *)
Theorem stale_data_after_timeout :
  ∃ s1 s2,
    read_sectors example_mmu example_dma_vaddr 3 1 (sim_driver true) = Some ((false, []), s1) ∧
    read_sectors example_mmu example_dma_vaddr 6 1 s1 = Some ((true, ram_sector image 3), s2) ∧
    ram_sector image 3 ≠ ram_sector image 6.
Proof.
  eexists timed_out, _. split; [exact slow_read_times_out|]. split.
  - vm_compute. reflexivity.
  - intros E. apply (f_equal (λ l, l !! 0%nat)) in E. vm_compute in E. congruence.
Qed.
