(* ===== verification/Fat32Mount.v ===== *)
(** * Mounting: what a successful mount guarantees

    [geometry] collects the facts the rest of the driver relies on; [mount]
    establishes it or reports an invalid volume, and never reads outside its
    sector buffer, whatever the disk holds. *)

From S2P Require Import Prelude Arrays BlockDev Fat32 RamDisk.

Local Open Scope machine_scope.

(** ** Field readers *)

(** A sector's worth of bytes, as the device delivers it. *)
Definition sector_ok (l : list Z) : Prop :=
  length l = Z.to_nat kSectorSize ∧ Forall is_byte l.

Lemma sector_get l i : sector_ok l → 0 ≤ i < 512 → ∃ b, arr_get l i = Some b ∧ is_byte b.
Proof.
  intros [Hl Hb] Hi. destruct (arr_get_some l i) as [b E]; [rewrite Hl; done|].
  exists b. split; [done|]. rewrite arr_get_lookup in E by lia. by eapply Forall_lookup_1 in E.
Qed.

(** The little-endian value of the [n] bytes at [p]. *)
Definition field (l : list Z) (p : Z) (n : nat) : Z := le_value (take n (drop (Z.to_nat p) l)).

Lemma drop_get l (p : Z) b : 0 ≤ p → arr_get l p = Some b →
  drop (Z.to_nat p) l = b :: drop (Z.to_nat (p + 1)) l.
Proof.
  intros Hp E. rewrite arr_get_lookup in E by done. rewrite (drop_S l b) by done.
  do 2 f_equal. lia.
Qed.

Lemma le16_field l p :
  sector_ok l → 0 ≤ p → p + 2 ≤ 512 → le16 l p = Some (field l p 2) ∧ 0 ≤ field l p 2 < 2 ^ 16.
Proof.
  intros Hl H1 H2. destruct (sector_get l p) as (b0 & E0 & Hb0); [done|lia|].
  destruct (sector_get l (p + 1)) as (b1 & E1 & Hb1); [done|lia|].
  unfold le16, field. rewrite (drop_get l p b0), (drop_get l (p + 1) b1), E0, E1 by (done || lia).
  simpl. unfold is_byte in *. rewrite lor_shiftl by (simpl; lia).
  unfold u16. rewrite Z.mod_small by lia. split; [f_equal; lia|lia].
Qed.

Lemma le32_field l p :
  sector_ok l → 0 ≤ p → p + 4 ≤ 512 → le32 l p = Some (field l p 4) ∧ 0 ≤ field l p 4 < 2 ^ 32.
Proof.
  intros Hl H1 H2. destruct (sector_get l p) as (b0 & E0 & Hb0); [done|lia|].
  destruct (sector_get l (p + 1)) as (b1 & E1 & Hb1); [done|lia|].
  destruct (sector_get l (p + 2)) as (b2 & E2 & Hb2); [done|lia|].
  destruct (sector_get l (p + 3)) as (b3 & E3 & Hb3); [done|lia|].
  unfold le32, field. rewrite (drop_get l p b0), (drop_get l (p + 1) b1) by (done || lia).
  replace (p + 1 + 1) with (p + 2) by lia. rewrite (drop_get l (p + 2) b2) by (done || lia).
  replace (p + 2 + 1) with (p + 3) by lia. rewrite (drop_get l (p + 3) b3), E0, E1, E2, E3
    by (done || lia). simpl. unfold is_byte in *.
  rewrite !u32_small by (rewrite Z.shiftl_mul_pow2; lia).
  rewrite (lor_shiftl b0 b1 8), (lor_shiftl _ b2 16), (lor_shiftl _ b3 24) by lia.
  split; [f_equal; lia|lia].
Qed.

(** ** The boot sector *)

Definition geometry (m : Fat32Metadata) (disk_sectors : Z) : Prop :=
  bytes_per_sector m = 512 ∧
  (∃ k, 0 ≤ k ≤ 7 ∧ sectors_per_cluster m = 2 ^ k) ∧
  1 ≤ reserved_sectors m < 2 ^ 16 ∧ 1 ≤ num_fats m < 2 ^ 8 ∧ 1 ≤ sectors_per_fat m < 2 ^ 32 ∧
  data_start_sector m = reserved_sectors m + num_fats m * sectors_per_fat m ∧
  data_start_sector m < total_sectors m ≤ disk_sectors ∧ total_sectors m < 2 ^ 32 ∧
  cluster_count m = (total_sectors m - data_start_sector m) / sectors_per_cluster m ∧
  2 ≤ root_cluster m < cluster_count m + 2 ∧
  length (label m) = 12%nat.

(** A text field without the spaces it is padded with. *)
Fixpoint drop_spaces (l : list Z) : list Z :=
  match l with
  | c :: r => if c =? 32 then drop_spaces r else l
  | [] => []
  end.

Definition trimmed (l : list Z) : list Z := rev (drop_spaces (rev l)).

(** What the boot sector [l] says of the volume. *)
Record describes (l : list Z) (m : Fat32Metadata) : Prop := {
  says_bytes_per_sector : bytes_per_sector m = 512;
  says_sectors_per_cluster : sectors_per_cluster m = field l 13 1;
  says_reserved_sectors : reserved_sectors m = field l 14 2;
  says_num_fats : num_fats m = field l 16 1;
  says_sectors_per_fat : sectors_per_fat m = field l 36 4;
  says_root_cluster : root_cluster m = field l 44 4;
  says_total_sectors :
    total_sectors m = if decide (field l 19 2 = 0) then field l 32 4 else field l 19 2;
  says_volume_id : volume_id m = field l 67 4;
  says_label : let t := trimmed (take 11 (drop 71 l)) in label m = t ++ replicate (12 - length t) 0;
}.

(** The marks of a FAT32 boot sector with sectors of 512 bytes: the signature, no
    fixed root directory, no 16-bit FAT size, and the name of the type. *)
Definition fat32_marks (l : list Z) : Prop :=
  field l 510 2 = 0xAA55 ∧ field l 11 2 = 512 ∧ field l 17 2 = 0 ∧ field l 22 2 = 0 ∧
  field l 36 4 ≠ 0 ∧ take 8 (drop 82 l) = fat32_type_label.

(** The free-cluster count: that of a well-formed FSInfo sector among the reserved
    ones, or unknown. *)
Definition fsinfo_count (content : Z → list Z) (l : list Z) : option Z :=
  let i := field l 48 2 in
  if decide (i ≠ 0 ∧ i < field l 14 2 ∧ field (content i) 0 4 = 0x41615252 ∧
             field (content i) 484 4 = 0x61417272)
  then Some (field (content i) 488 4) else None.

Lemma trimmed_snoc l b : trimmed (l ++ [b]) = if b =? 32 then trimmed l else l ++ [b].
Proof.
  unfold trimmed. rewrite rev_app_distr. simpl. case_match; [done|]. simpl. by rewrite rev_involutive.
Qed.

Lemma field_one l p b : 0 ≤ p → arr_get l p = Some b → field l p 1 = b.
Proof. intros Hp E. unfold field. rewrite (drop_get l p b) by done. simpl. lia. Qed.

Lemma field_two l p b0 b1 :
  0 ≤ p → arr_get l p = Some b0 → arr_get l (p + 1) = Some b1 → field l p 2 = b0 + 256 * b1.
Proof.
  intros Hp E0 E1. unfold field.
  rewrite (drop_get l p b0), (drop_get l (p + 1) b1) by (done || lia). simpl. lia.
Qed.

(** Trimming the label's length trims the label. *)
Lemma trim_label_run l n :
  sector_ok l → (n ≤ 11)%nat →
  let t := trimmed (take n (drop 71 l)) in
  trim_label l n = Some (length t) ∧ (length t ≤ n)%nat ∧ take (length t) (drop 71 l) = t.
Proof.
  intros Hl. induction n as [|n IH]; intros Hn; [done|].
  destruct (sector_get l (71 + Z.of_nat (S n) - 1)) as (b & E & _); [done|lia|].
  assert (take (S n) (drop 71 l) = take n (drop 71 l) ++ [b]) as Et.
  { apply take_S_r. rewrite lookup_drop. rewrite arr_get_lookup in E by lia. rewrite <- E. f_equal. lia. }
  rewrite Et, trimmed_snoc. cbn [trim_label]. rewrite E. cbn [mbind option_bind].
  destruct (b =? 32); [destruct IH as (? & ? & ?); [lia|]; split_and!; (done || lia)|].
  rewrite length_app, length_take, length_drop, (proj1 Hl). simpl length.
  replace (n `min` (Z.to_nat kSectorSize - 71) + 1)%nat with (S n) by (unfold kSectorSize; lia).
  by rewrite Et.
Qed.

Lemma arr_slice_run l i n :
  0 ≤ i → 0 ≤ n → i + n ≤ Z.of_nat (length l) →
  arr_slice l i n = Some (take (Z.to_nat n) (drop (Z.to_nat i) l)).
Proof. intros ???. unfold arr_slice. by rewrite !(proj2 (Z.leb_le _ _)) by lia. Qed.

Lemma arr_slice_some l i n :
  0 ≤ i → 0 ≤ n → i + n ≤ Z.of_nat (length l) →
  ∃ r, arr_slice l i n = Some r ∧ length r = Z.to_nat n.
Proof.
  intros ???. rewrite arr_slice_run by done. eexists. split; [done|].
  rewrite length_take, length_drop. lia.
Qed.

Lemma looks_like_fat32_run l :
  sector_ok l → ∃ b, looks_like_fat32 l = Some b ∧ (b = true ↔ fat32_marks l).
Proof.
  intros Hl. unfold looks_like_fat32, fat32_marks.
  destruct (sector_get l 510) as (s0 & E0 & H0); [done|lia|].
  destruct (sector_get l 511) as (s1 & E1 & H1); [done|lia|].
  rewrite (field_two l 510 s0 s1), E0, E1 by (done || lia).
  destruct (le16_field l 11) as [-> _]; [done|lia..|].
  destruct (le16_field l 17) as [-> _]; [done|lia..|].
  destruct (le16_field l 22) as [-> _]; [done|lia..|].
  destruct (le32_field l 36) as [-> Hf]; [done|lia..|].
  rewrite arr_slice_run by (rewrite ?(proj1 Hl); unfold kSectorSize; lia).
  cbn [mbind option_bind]. eexists. split; [done|]. change (Z.to_nat 8) with 8%nat. change (Z.to_nat 82) with 82%nat.
  unfold is_byte, kSector, kSectorSize in *.
  rewrite negb_true_iff, !orb_false_iff, !negb_false_iff, !Z.eqb_eq, Z.eqb_neq,
    bool_decide_eq_true.
  intuition lia.
Qed.

(** The label: the text, and zeros to the end of its array. *)
Lemma label_stored t :
  (length t ≤ 11)%nat → ∃ lab, arr_write (label meta_zero) 0 t = Some lab ∧
    arr_write lab (Z.of_nat (length t)) [0] = Some (t ++ replicate (12 - length t) 0).
Proof.
  intros Ht. change (label meta_zero) with (replicate 12 (0 : Z)).
  rewrite arr_write_some by (rewrite ?length_replicate; lia). eexists. split; [done|].
  change (Z.to_nat 0) with O. rewrite take_0, app_nil_l, Nat.add_0_l, drop_replicate.
  rewrite arr_write_some by (rewrite ?length_app, ?length_replicate; simpl length; lia).
  rewrite Nat2Z.id, take_app_length, drop_app_ge by (simpl length; lia). rewrite drop_replicate.
  change [0] with (replicate 1 (0 : Z)) at 1. rewrite <- replicate_add. do 3 f_equal. simpl length. lia.
Qed.

(** [parse_bpb] reads every field at its offset. *)
Lemma parse_bpb_some l :
  sector_ok l → ∃ m, parse_bpb l = Some m ∧ describes l m ∧
    0 ≤ sectors_per_cluster m < 256 ∧ 0 ≤ reserved_sectors m < 2 ^ 16 ∧
    0 ≤ num_fats m < 256 ∧ 0 ≤ sectors_per_fat m < 2 ^ 32 ∧
    0 ≤ root_cluster m < 2 ^ 32 ∧ 0 ≤ total_sectors m < 2 ^ 32 ∧ length (label m) = 12%nat.
Proof.
  intros Hl. unfold parse_bpb.
  destruct (sector_get l 13) as (spc & E13 & Hspc); [done|lia|].
  destruct (sector_get l 16) as (nf & E16 & Hnf); [done|lia|]. rewrite E13, E16.
  destruct (le16_field l 14) as [-> ?]; [done|lia..|].
  destruct (le32_field l 36) as [-> ?]; [done|lia..|].
  destruct (le32_field l 44) as [-> ?]; [done|lia..|].
  destruct (le16_field l 19) as [-> ?]; [done|lia..|].
  destruct (le32_field l 32) as [-> ?]; [done|lia..|].
  destruct (le32_field l 67) as [-> ?]; [done|lia..|].
  destruct (trim_label_run l 11) as (-> & Hk & Ht); [done|lia|].
  set (t := trimmed (take 11 (drop 71 l))) in *. cbn [mbind option_bind].
  rewrite arr_slice_run by (rewrite ?(proj1 Hl); unfold kSectorSize; lia).
  rewrite Nat2Z.id. change (Z.to_nat 71) with 71%nat. rewrite Ht. cbn [mbind option_bind].
  destruct (label_stored t Hk) as (lab & -> & E2). cbn [mbind option_bind]. rewrite E2. cbn [mbind option_bind].
  eexists. split; [done|]. split.
  - split; simpl; try done; [by rewrite (field_one l 13 spc)|by rewrite (field_one l 16 nf)|].
    destruct (Z.eqb_spec (field l 19 2) 0); [by rewrite decide_True|by rewrite decide_False].
  - unfold is_byte in *. simpl. split_and!; try done; try lia; try (case_match; lia).
    rewrite length_app, length_replicate. lia.
Qed.

Lemma power_of_two x :
  1 ≤ x < 256 → Z.land x (x - 1) = 0 → ∃ k, 0 ≤ k ≤ 7 ∧ x = 2 ^ k.
Proof.
  intros Hx Hl.
  assert (forallb (λ x, negb (Z.land x (x - 1) =? 0) ||
    existsb (λ k, x =? 2 ^ k) (seqZ 0 8)) (seqZ 1 255) = true) as Hall by (vm_compute; reflexivity).
  rewrite forallb_forall in Hall.
  assert (In x (seqZ 1 255)) as Hin by (apply list_elem_of_In, elem_of_seqZ; lia).
  specialize (Hall x Hin). rewrite Hl, Z.eqb_refl in Hall. cbn [negb orb] in Hall.
  apply existsb_exists in Hall as (k & Hk & E). apply Z.eqb_eq in E. exists k. split; [|done].
  apply list_elem_of_In, elem_of_seqZ in Hk. lia.
Qed.

(** What passing the geometry checks means. *)
Lemma layout_geometry m disk_sectors :
  bytes_per_sector m = 512 → 0 ≤ sectors_per_cluster m < 256 →
  0 ≤ reserved_sectors m < 2 ^ 16 → 0 ≤ num_fats m < 256 → 1 ≤ sectors_per_fat m < 2 ^ 32 →
  0 ≤ root_cluster m < 2 ^ 32 → 0 ≤ total_sectors m < 2 ^ 32 → length (label m) = 12%nat →
  bad_geometry m = false → data_start_of m < total_sectors m ≤ disk_sectors →
  let m1 := set_layout m (u32 (data_start_of m))
    (u32 ((total_sectors m -₆₄ data_start_of m) / sectors_per_cluster m)) in
  valid_cluster m1 (root_cluster m1) = true → geometry m1 disk_sectors.
Proof.
  intros Hbps Hspc Hrsv Hnf Hspf Hroot Htot Hlab Hbad Hds m1 Hv.
  unfold bad_geometry in Hbad. zbool. rewrite u32_small in * by lia.
  assert (data_start_of m = reserved_sectors m + num_fats m * sectors_per_fat m) as Eds.
  { unfold data_start_of. rewrite (u64_small (num_fats m * _)), u64_small by nia. done. }
  set (ds := data_start_of m) in *. assert (2 ≤ ds) by nia.
  destruct (power_of_two (sectors_per_cluster m)) as (k & Hk & Ek); [lia|lia|].
  assert (0 ≤ (total_sectors m - ds) / sectors_per_cluster m ≤ total_sectors m - ds) as Hcc.
  { split; [apply Z.div_pos; lia|]. apply Z.div_le_upper_bound; nia. }
  subst m1. unfold valid_cluster, geometry, set_layout in *. simpl in *.
  rewrite (u64_small (total_sectors m - ds)) in * by lia. rewrite !u32_small in * by lia.
  zbool. rewrite (u32_small (_ / _)), u32_small in * by lia.
  split_and!; try done; try lia. by exists k.
Qed.

Section Mount.
Context {D : Type} `{BlockDevice D} {content : Z → list Z} {good : D → Prop}.
Context {LAWS : BlockDeviceLaws D content good}.

Lemma content_ok i : sector_ok (content i).
Proof. split; [apply content_length|apply content_bytes]. Qed.

Lemma sectors_one lba : sectors content lba (Z.to_nat 1) = content lba.
Proof. apply app_nil_r. Qed.

(** A one-sector read: it returns, and what it returns is the sector. *)
Lemma read_sector_run d lba :
  good d → 0 ≤ lba < 2 ^ 64 →
  ∃ r d', read_sector lba d = Some (r, d') ∧ good d' ∧
    disk_valid d' = disk_valid d ∧ disk_sector_count d' = disk_sector_count d ∧
    (r = None ∨ r = Some (content lba) ∧ lba + 1 ≤ disk_sector_count d).
Proof.
  intros Hg Hl. destruct (read_total d lba 1) as (ok & bytes & d' & E & Hg' & Hv & Hc);
    [done..|lia|].
  exists (if ok then Some bytes else None), d'. split_and!; try done.
  - unfold read_sector. by mstep E.
  - destruct ok; [|by left]. right.
    destruct (read_success d lba 1 bytes d') as [-> ?]; [done..|lia|done|].
    split; [|done]. by rewrite sectors_one.
Qed.

Lemma read_sector_reliable d lba :
  good d → reliable D good → disk_valid d = true → 0 ≤ lba < 2 ^ 64 →
  lba + 1 ≤ disk_sector_count d →
  ∃ d', read_sector lba d = Some (Some (content lba), d').
Proof.
  intros Hg Hr Hv Hl Hc. destruct (Hr d lba 1) as (bytes & d' & E); [done..|lia|lia|done|].
  destruct (read_success d lba 1 bytes d') as [-> _]; [done..|lia|done|].
  exists d'. unfold read_sector. mstep E. by rewrite sectors_one.
Qed.

(** The FSInfo sector. *)
Lemma read_free_hint_run d m :
  good d → reserved_sectors m = field (content 0) 14 2 →
  ∃ h d', read_free_hint m (field (content 0) 48 2) d = Some (h, d') ∧ good d' ∧
    disk_valid d' = disk_valid d ∧ disk_sector_count d' = disk_sector_count d ∧
    (h = 0xFFFFFFFF ∨ fsinfo_count content (content 0) = Some h) ∧
    (reliable D good → disk_valid d = true → reserved_sectors m ≤ disk_sector_count d →
     h = default 0xFFFFFFFF (fsinfo_count content (content 0))).
Proof.
  intros Hg Hrsv. unfold read_free_hint, fsinfo_count. rewrite Hrsv.
  set (i := field (content 0) 48 2). set (n := field (content 0) 14 2).
  destruct (le16_field (content 0) 48) as [_ Hi]; [apply content_ok|lia..|]. fold i in Hi.
  destruct (Z.eqb_spec i 0) as [E0|E0]; cbn [negb andb].
  { rewrite decide_False by tauto. eexists _, d. split_and!; try done. by left. }
  destruct (Z.ltb_spec i n) as [Hn|Hn].
  2:{ rewrite decide_False by lia. eexists _, d. split_and!; try done. by left. }
  destruct (read_sector_run d i) as (r & d' & E & Hg' & Hv & Hc & Hr); [done|lia|].
  mstep E. destruct Hr as [->|[-> _]].
  { eexists _, d'. split_and!; try done; [by left|]. intros Hrel Hdv Hin.
    destruct (read_sector_reliable d i) as (d2 & E2); [done..|lia|lia|]. congruence. }
  destruct (le32_field (content i) 0) as [-> _]; [apply content_ok|lia..|]. erewrite bind_checked by done.
  destruct (Z.eqb_spec (field (content i) 0 4) 0x41615252); cbn [negb].
  2:{ rewrite decide_False by tauto. eexists _, d'. split_and!; try done. by left. }
  destruct (le32_field (content i) 484) as [-> _]; [apply content_ok|lia..|]. erewrite bind_checked by done.
  destruct (Z.eqb_spec (field (content i) 484 4) 0x61417272); cbn [negb].
  2:{ rewrite decide_False by tauto. eexists _, d'. split_and!; try done. by left. }
  rewrite decide_True by done.
  destruct (le32_field (content i) 488) as [-> _]; [apply content_ok|lia..|].
  eexists _, d'. split_and!; try done. by right.
Qed.

Lemma geometry_set_hint m n h : geometry m n → geometry (set_free_hint m h) n.
Proof. done. Qed.

Lemma describes_layout l m a b h : describes l m → describes l (set_free_hint (set_layout m a b) h).
Proof. by intros []. Qed.

(** The checks of the constructor let through what has a consistent geometry. *)
Lemma geometry_accepted l m m0 n :
  describes l m → describes l m0 → geometry m0 n →
  bad_geometry m = false ∧ ((total_sectors m <=? data_start_of m) || (n <? total_sectors m)) = false ∧
  let m1 := set_layout m (u32 (data_start_of m))
    (u32 ((total_sectors m -₆₄ data_start_of m) / sectors_per_cluster m)) in
  valid_cluster m1 (root_cluster m1) = true.
Proof.
  intros [_ A1 A2 A3 A4 A5 A6 _ _] [_ B1 B2 B3 B4 B5 B6 _ _]
    (_ & (k & Hk & Ek) & Hr & Hn & Hs & Eds & Hds & Ht & Ecc & Hroot & _).
  unfold bad_geometry, data_start_of, valid_cluster, set_layout. cbn [root_cluster cluster_count].
  rewrite A1, A2, A3, A4, A5, A6, <- B1, <- B2, <- B3, <- B4, <- B5, <- B6. rewrite Ek in *.
  assert (1 ≤ 2 ^ k ≤ 128) as H2.
  { pose proof (Z.pow_le_mono_r 2 k 7). pose proof (Z.pow_pos_nonneg 2 k).
    change (2 ^ 7) with 128 in *. lia. }
  rewrite (u64_small (num_fats m0 * _)), (u64_small (reserved_sectors m0 + _)), <- Eds by nia.
  assert (0 ≤ (total_sectors m0 - data_start_sector m0) / 2 ^ k ≤ total_sectors m0 - data_start_sector m0) as Hcc.
  { split; [apply Z.div_pos; lia|]. apply Z.div_le_upper_bound; nia. }
  assert (2 ≤ data_start_sector m0) by nia.
  rewrite (u64_small (total_sectors m0 - _)), <- Ecc, (u32_small (cluster_count m0)), (u32_small (cluster_count m0 + 2)) by lia.
  split; [|split].
  - rewrite (proj2 (Z.eqb_neq (2 ^ k) 0)), (proj2 (Z.eqb_neq (num_fats m0) 0)),
      (proj2 (Z.eqb_neq (reserved_sectors m0) 0)), (u32_small (2 ^ k - 1)) by lia.
    replace (Z.land (2 ^ k) (2 ^ k - 1)) with 0; [done|]. clear -Hk.
    assert (k = 0 ∨ k = 1 ∨ k = 2 ∨ k = 3 ∨ k = 4 ∨ k = 5 ∨ k = 6 ∨ k = 7) as Hc by lia.
    by repeat destruct Hc as [->|Hc]; [..|subst k].
  - rewrite (proj2 (Z.leb_gt _ _)), (proj2 (Z.ltb_ge _ _)) by lia. done.
  - rewrite (proj2 (Z.leb_le _ _)), (proj2 (Z.ltb_lt _ _)) by lia. done.
Qed.

Lemma mount_run d :
  good d →
  ∃ fs d', mount d = Some (fs, d') ∧ good d' ∧
    disk_valid d' = disk_valid d ∧ disk_sector_count d' = disk_sector_count d ∧
    (valid_ fs = true → fat32_marks (content 0) ∧ describes (content 0) (meta_ fs) ∧
       (free_clusters_hint (meta_ fs) = 0xFFFFFFFF ∨
        fsinfo_count content (content 0) = Some (free_clusters_hint (meta_ fs)))) ∧
    (valid_ fs = true → disk_valid d = true ∧ geometry (meta_ fs) (disk_sector_count d)) ∧
    (∀ m, reliable D good → disk_valid d = true → fat32_marks (content 0) → describes (content 0) m →
       geometry m (disk_sector_count d) → valid_ fs = true ∧
       free_clusters_hint (meta_ fs) = default 0xFFFFFFFF (fsinfo_count content (content 0))).
Proof.
  intros Hg. unfold mount. erewrite bind_run by done.
  destruct (disk_valid d) eqn:Hdv; cbn [negb]; [|by eexists _, d].
  destruct (read_sector_run d 0) as (r & d1 & E & Hg1 & Hv1 & Hc1 & Hr); [done|lia|].
  rewrite Hdv in Hv1. mstep E. destruct Hr as [->|[-> _]].
  { eexists _, d1. split_and!; try done. intros m Hrel _ _ _ (_ & _ & ? & ? & ? & ? & ? & _).
    destruct (read_sector_reliable d 0) as (d2 & E2); [done..|lia|nia|]. congruence. }
  pose proof (content_ok 0) as Hs. unfold mount_boot_sector.
  destruct (looks_like_fat32_run _ Hs) as (b & Eb & Hmarks). rewrite Eb.
  erewrite bind_checked by done. destruct b; cbn [negb]; cbv iota.
  2:{ eexists _, d1. split_and!; try done. intros m _ _ Hm. by apply Hmarks in Hm. }
  destruct (parse_bpb_some _ Hs) as (m & Em & Hdes & ? & ? & ? & ? & ? & ? & ?). rewrite Em.
  erewrite bind_checked by done.
  destruct (le16_field (content 0) 48) as [Efs Hfs]; [done|lia..|]. rewrite Efs.
  erewrite bind_checked by done.
  pose proof (λ m0 Hd Hgeo, geometry_accepted (content 0) m m0 (disk_sector_count d) Hdes Hd Hgeo) as Hacc.
  destruct (bad_geometry m) eqn:Hbad.
  { eexists _, d1. split_and!; try done. intros m0 _ _ _ Hd Hgeo. by destruct (Hacc m0 Hd Hgeo) as [? _]. }
  erewrite bind_run by done. rewrite Hc1. destruct ((total_sectors m <=? _) || _) eqn:Hds.
  { eexists _, d1. split_and!; try done. intros m0 _ _ _ Hd Hgeo. by destruct (Hacc m0 Hd Hgeo) as (_ & ? & _). }
  set (m1 := set_layout _ _ _) in *. destruct (valid_cluster m1 (root_cluster m1)) eqn:Hroot; cbn [negb].
  2:{ eexists _, d1. split_and!; try done. intros m0 _ _ _ Hd Hgeo. 
      destruct (Hacc m0 Hd Hgeo) as (_ & _ & Hx). cbv zeta in Hx. congruence. }
  zbool. destruct (proj1 Hmarks eq_refl) as (_ & _ & _ & _ & Hspf & _).
  pose proof (says_sectors_per_fat _ _ Hdes) as Hspf'.
  assert (geometry m1 (disk_sector_count d)) as Hgeo.
  { apply layout_geometry; try done; try lia. apply Hdes. }
  destruct (read_free_hint_run d1 m1) as (h & d2 & E2 & Hg2 & Hv2 & Hc2 & Hh & Hhr); [done|apply Hdes|].
  mstep E2. eexists _, d2. split; [done|]. split_and!; [done|congruence..| | |].
  - intros _. split; [by apply Hmarks|]. split; [by apply describes_layout|done].
  - intros _. split; [done|]. by apply geometry_set_hint.
  - intros m0 Hrel _ _ _ _. split; [done|]. apply Hhr; [done|congruence|].
    destruct Hgeo as (_ & _ & ? & ? & ? & ? & ? & _). rewrite Hc1. nia.
Qed.

(** C25: mounting is safe and sound.  On any disk, whatever its sectors hold,
    the constructor returns without reading outside its sector buffer; and when
    it reports a valid volume the geometry is consistent: power-of-two clusters
    of 1 to 128 sectors, a data region that starts right after the FATs, lies
    inside the disk and holds exactly [cluster_count] whole clusters, and a
    root cluster inside it. *)
Theorem mount_establishes_geometry d :
  good d →
  ∃ fs d', mount d = Some (fs, d') ∧ good d' ∧
    (valid_ fs = true → geometry (meta_ fs) (disk_sector_count d)).
Proof.
  intros Hg. destruct (mount_run d Hg) as (fs & d' & ? & ? & _ & _ & _ & Hv & _).
  exists fs, d'. split_and!; try done. apply Hv.
Qed.

(** C26: mounting reads the boot sector, and accepts exactly the FAT32 volumes that
    fit.  When the constructor reports a valid volume, sector 0 has the marks of
    FAT32 and every field of the metadata is what its place in that sector says,
    the label without its padding, and the free-cluster count that of FSInfo or
    unknown.  Conversely, on a device that completes its reads, a boot sector with
    these marks that describes a volume of consistent geometry within the disk is
    accepted, with FSInfo's count if that sector is well formed. *)
Theorem mount_reads_boot_sector d :
  good d →
  ∃ fs d', mount d = Some (fs, d') ∧
    (valid_ fs = true → fat32_marks (content 0) ∧ describes (content 0) (meta_ fs) ∧
       (free_clusters_hint (meta_ fs) = 0xFFFFFFFF ∨
        fsinfo_count content (content 0) = Some (free_clusters_hint (meta_ fs)))) ∧
    (∀ m, reliable D good → disk_valid d = true → fat32_marks (content 0) → describes (content 0) m →
       geometry m (disk_sector_count d) → valid_ fs = true ∧
       free_clusters_hint (meta_ fs) = default 0xFFFFFFFF (fsinfo_count content (content 0))).
Proof.
  intros Hg. destruct (mount_run d Hg) as (fs & d' & E & _ & _ & _ & Hv & _ & Hacc). by exists fs, d'.
Qed.

Lemma cluster_arithmetic m n cluster s :
  geometry m n → 0 ≤ cluster < 2 ^ 32 → valid_cluster m cluster = true →
  0 ≤ s < sectors_per_cluster m →
  2 ≤ cluster < cluster_count m + 2 ∧ cluster_count m + 2 < 2 ^ 32 ∧
  cluster_lba m cluster = data_start_sector m + (cluster - 2) * sectors_per_cluster m ∧
  data_start_sector m ≤ cluster_lba m cluster + s < total_sectors m ∧
  cluster_lba m cluster +₆₄ s = cluster_lba m cluster + s ∧
  cluster_lba m cluster + s < n.
Proof.
  intros (_ & (k & Hk & Ek) & Hr & Hf & Hs & Hds & Ht & Htot & Hcc & _) Hc Hv Hsec.
  pose proof (Z.pow_le_mono_r 2 k 7) as Hpow. pose proof (Z.pow_pos_nonneg 2 k) as Hpos.
  rewrite <- Ek in *. set (spc := sectors_per_cluster m) in *.
  set (ds := data_start_sector m) in *. change (2 ^ 7) with 128 in Hpow.
  assert (cluster_count m * spc ≤ total_sectors m - ds) as Hmul.
  { rewrite Hcc, Z.mul_comm. apply Z.mul_div_le. lia. }
  assert (0 ≤ cluster_count m) as Hcc0 by (rewrite Hcc; apply Z.div_pos; lia).
  assert (cluster_count m ≤ total_sectors m - ds) by nia.
  assert (2 ≤ ds) by nia.
  unfold valid_cluster in Hv. rewrite u32_small in Hv by lia. zbool.
  assert ((cluster - 2) * spc + spc ≤ total_sectors m - ds) by nia.
  assert (cluster_lba m cluster = ds + (cluster - 2) * spc) as El.
  { unfold cluster_lba. rewrite (u32_small (cluster - 2)) by lia.
    rewrite (u64_small ((cluster - 2) * _)) by nia. apply u64_small. nia. }
  rewrite El, u64_small by nia. split_and!; (done || nia).
Qed.

(** C32: on a mounted volume the 32- and 64-bit cluster arithmetic never wraps:
    [cluster_count + 2] fits in 32 bits, so [valid_cluster] is the range
    2 .. cluster_count + 1, and every sector of every valid cluster lies inside
    the data region and inside the disk. *)
Theorem cluster_arithmetic_in_bounds m n cluster s :
  geometry m n → 0 ≤ cluster < 2 ^ 32 → valid_cluster m cluster = true →
  0 ≤ s < sectors_per_cluster m →
  2 ≤ cluster < cluster_count m + 2 ∧ cluster_count m + 2 < 2 ^ 32 ∧
  cluster_lba m cluster = data_start_sector m + (cluster - 2) * sectors_per_cluster m ∧
  data_start_sector m ≤ cluster_lba m cluster + s < total_sectors m ∧
  cluster_lba m cluster +₆₄ s = cluster_lba m cluster + s ∧
  cluster_lba m cluster + s < n.
Proof. apply cluster_arithmetic. Qed.
End Mount.

(** The image mounts, so the guarantee is not vacuous. *)
Lemma mount_establishes_geometry_witness :
  (∃ fs d', mount image = Some (fs, d') ∧ d' = image ∧
    (valid_ fs = true → geometry (meta_ fs) (disk_sector_count image))) ∧
  (valid_ ∘ fst <$> mount image) = Some true.
Proof. split; [by apply (mount_establishes_geometry image)|vm_compute; reflexivity]. Defined.

(** The image's metadata, as [mount] reads it. *)
Definition image_meta : Fat32Metadata :=
  Meta 512 1 2 1 1 2 16 3 13 0xDEADBEEF
    [73; 78; 84; 82; 79; 79; 83; 0; 0; 0; 0; 0] 7.

Lemma image_mounts : (meta_ ∘ fst <$> mount image) = Some image_meta.
Proof. vm_compute. reflexivity. Qed.

Lemma image_geometry : geometry image_meta 16.
Proof. unfold geometry; simpl. split_and!; try lia; try done. by exists 0. Qed.

(** The image's last cluster is sector 15, the disk's last. *)
Lemma cluster_arithmetic_in_bounds_witness :
  cluster_lba image_meta 14 = 15 ∧ cluster_lba image_meta 14 + 0 < 16.
Proof.
  destruct (cluster_arithmetic_in_bounds image_meta 16 14 0) as (_ & _ & E & _ & _ & L);
    [exact image_geometry|lia|reflexivity|simpl; lia|].
  split; [exact E|exact L].
Defined.

Lemma image_described :
  fat32_marks (ram_sector image 0) ∧ describes (ram_sector image 0) image_meta.
Proof. split; [split_and!; (discriminate || reflexivity)|]. split; vm_compute; reflexivity. Qed.

Lemma mount_reads_boot_sector_witness :
  ∃ fs d', mount image = Some (fs, d') ∧ valid_ fs = true ∧ free_clusters_hint (meta_ fs) = 7 ∧
    describes (ram_sector image 0) (meta_ fs).
Proof.
  destruct (mount_reads_boot_sector (LAWS := ram_laws image) image) as (fs & d' & E & Hv & Hacc); [done|].
  destruct (Hacc image_meta) as [Hval Hh];
    [apply ram_reliable|reflexivity|apply image_described|apply image_described|exact image_geometry|].
  exists fs, d'. split; [exact E|]. split; [exact Hval|]. split; [rewrite Hh; reflexivity|].
  destruct (Hv Hval) as (_ & Hd & _). exact Hd.
Defined.
