(* ===== verification/Fat32Read.v ===== *)
(** * File::read returns the file's bytes

    The specification: the FAT as an array of 28-bit entries ([fat_entry]), a
    file's clusters as the chain it links ([chain_at]), and the file's bytes as
    the bytes of those clusters ([file_byte]).  [read] returns exactly these
    bytes, through the cursor cache, the whole-sector fast path and the bounce
    buffer, on any device that satisfies [BlockDeviceLaws]. *)

From S2P Require Import Prelude Arrays BlockDev Fat32 RamDisk Fat32Mount.

Local Open Scope machine_scope.

(** Moving forward inside one cluster. *)
Lemma div_mod_within pos j cb :
  0 < cb → 0 ≤ j → pos mod cb + j < cb →
  (pos + j) / cb = pos / cb ∧ (pos + j) mod cb = pos mod cb + j.
Proof.
  intros Hcb Hj Hw. pose proof (Z.mod_pos_bound pos cb Hcb). pose proof (Z.div_mod pos cb).
  split; symmetry.
  - apply Z.div_unique with (pos mod cb + j); lia.
  - apply Z.mod_unique with (pos / cb); lia.
Qed.

Section Spec.
Context (content : Z → list Z) (m : Fat32Metadata).

(** The FAT: entry [c] is the 32-bit word at byte [4 * c] of the array that
    starts at sector [reserved_sectors]; its low 28 bits count. *)
Definition fat_entry (c : Z) : Z :=
  Z.land (field (content (reserved_sectors m + c * 4 / 512)) ((c * 4) mod 512) 4) 0x0FFFFFFF.

(** Cluster numbers are 2 .. count + 1; the values from 0x0FFFFFF7 on are no
    cluster numbers: they mark a bad cluster or the end of a chain. *)
Definition is_link (c : Z) : bool :=
  (2 <=? c) && (c <? cluster_count m + 2) && (c <? 0x0FFFFFF7).

(** The cluster reached from [c] in [k] links. *)
Fixpoint hop (c : Z) (k : nat) : option Z :=
  match k with
  | O => Some c
  | S k' => if is_link c then hop (fat_entry c) k' else None
  end.

(** The cluster at position [k] of the chain that starts at [c]. *)
Definition chain_at (c : Z) (k : nat) : option Z :=
  c' ← hop c k; if is_link c' then Some c' else None.

Definition cluster_bytes : Z := sectors_per_cluster m * 512.

(** Byte [w] of cluster [c]. *)
Definition cluster_byte (c w : Z) : option Z :=
  content (data_start_sector m + (c - 2) * sectors_per_cluster m + w / 512)
    !! Z.to_nat (w mod 512).

(** Byte [pos] of the file whose chain starts at [first]. *)
Definition file_byte (first pos : Z) : option Z :=
  c ← chain_at first (Z.to_nat (pos / cluster_bytes)); cluster_byte c (pos mod cluster_bytes).

(** A file handle: its fields at their widths, and a cache that, when it names
    a cluster, names the one at its chain position. *)
Definition file_ok (f : File) : Prop :=
  is_u32 (first_cluster_ f) ∧ is_u32 (size_ f) ∧ is_u32 (cache_index_ f) ∧
  is_u32 (cache_cluster_ f) ∧
  (valid_cluster m (cache_cluster_ f) = true →
   chain_at (first_cluster_ f) (Z.to_nat (cache_index_ f)) = Some (cache_cluster_ f)).

Definition same_file (f g : File) : Prop :=
  fs_ f = fs_ g ∧ first_cluster_ f = first_cluster_ g ∧ size_ f = size_ g ∧ dir_ f = dir_ g.

#[export] Instance same_file_equivalence : Equivalence same_file.
Proof.
  split; unfold same_file.
  - done.
  - intros f g (? & ? & ? & ?). done.
  - intros f g h (? & ? & ? & ?) (? & ? & ? & ?). split_and!; congruence.
Qed.

(** FAT32's limit on the number of clusters: the highest cluster number stays
    below the marks. *)
Definition within_fat32 : Prop := cluster_count m ≤ 0x0FFFFFF5.

(** The FAT region holds an entry for every cluster. *)
Definition fat_covers : Prop := (cluster_count m + 2) * 4 ≤ sectors_per_fat m * 512.

Lemma hop_app c a b : hop c (a + b) = c' ← hop c a; hop c' b.
Proof.
  revert c; induction a as [|a IH]; intros c; [done|]. simpl. case_match; [apply IH|done].
Qed.

Lemma chain_at_resume first i c k :
  chain_at first i = Some c → chain_at first (i + k) = chain_at c k.
Proof.
  unfold chain_at. rewrite hop_app. destruct (hop first i) as [c'|]; [|done]. simpl.
  case_match; [|done]. by intros [= ->].
Qed.

Lemma chain_at_link c k c' : chain_at c k = Some c' → is_link c' = true.
Proof. unfold chain_at. destruct (hop c k); simpl; [|done]. case_match; congruence. Qed.
End Spec.

Section Read.
Context {D : Type} `{BlockDevice D} {content : Z → list Z} {good : D → Prop}.
Context {LAWS : BlockDeviceLaws D content good}.
Context (m : Fat32Metadata) (disk_sectors : Z).
Context (GEO : geometry m disk_sectors).

(** The device as the mounted volume finds it. *)
Definition usable (d : D) : Prop :=
  good d ∧ disk_valid d = true ∧ disk_sector_count d = disk_sectors.

Lemma usable_read d lba :
  usable d → 0 ≤ lba < 2 ^ 64 →
  ∃ r d', read_sector lba d = Some (r, d') ∧ usable d' ∧
    (r = None ∨ r = Some (content lba)) ∧
    (reliable D good → lba < disk_sectors → r = Some (content lba)).
Proof.
  intros (Hg & Hv & Hc) Hl.
  destruct (read_sector_run d lba) as (r & d' & E & Hg' & Hv' & Hc' & Hr); [done..|].
  exists r, d'. split; [done|]. split; [unfold usable; split_and!; congruence|]. split; [tauto|].
  intros Hrel Hin. destruct (read_sector_reliable d lba) as (d'' & E'); [done..|lia|congruence].
Qed.

(** ** The FAT *)

(** The entry as the code computes its place, in 32-bit arithmetic. *)
Definition fat_word (c : Z) : Z :=
  Z.land (field (content (reserved_sectors m +₃₂ c *₃₂ 4 / kSector))
            ((c *₃₂ 4) mod kSector) 4) 0x0FFFFFFF.

Lemma land_28 x : 0 ≤ x → 0 ≤ Z.land x 0x0FFFFFFF < 2 ^ 28.
Proof.
  intros Hx. change 0x0FFFFFFF with (Z.ones 28). rewrite Z.land_ones by lia.
  apply Z.mod_pos_bound. lia.
Qed.

Lemma fat_next_run d c :
  usable d →
  ∃ r d', fat_next m c d = Some (r, d') ∧ usable d' ∧
    (r = None ∨ r = Some (fat_word c)) ∧ 0 ≤ fat_word c < 2 ^ 28 ∧
    (reliable D good → reserved_sectors m +₃₂ c *₃₂ 4 / kSector < disk_sectors →
     r = Some (fat_word c)).
Proof.
  intros Hu. unfold fat_next, kSector. set (b := c *₃₂ 4).
  assert (0 ≤ b < 2 ^ 32) by apply u32_range. set (lba := reserved_sectors m +₃₂ _).
  assert (0 ≤ lba < 2 ^ 32) by apply u32_range.
  destruct (usable_read d lba) as (r & d' & E & Hu' & Hr & Hrel); [done|lia|].
  assert (0 ≤ b mod kSectorSize < 512 - 3) as Hb.
  { subst b. unfold u32, kSectorSize. dlia. }
  destruct (le32_field (content lba) (b mod kSectorSize)) as [El Hf]; [apply content_ok|lia..|].
  exists (match r with None => None | Some _ => Some (fat_word c) end), d'.
  split; [|split; [done|split; [case_match; auto|split; [apply land_28; apply Hf|]]]].
  - mstep E. destruct Hr as [->| ->]; [done|]. by rewrite El.
  - intros Hr' Hin. by rewrite (Hrel Hr' Hin).
Qed.

Lemma fat_word_entry c :
  0 ≤ c → c < 2 ^ 30 → fat_word c = fat_entry content m c ∧
    reserved_sectors m +₃₂ c *₃₂ 4 / kSector = reserved_sectors m + c * 4 / 512.
Proof.
  intros. destruct GEO as (_ & _ & Hr & _). unfold fat_word, fat_entry, kSector, kSectorSize.
  rewrite (u32_small (c * 4)) by lia. rewrite u32_small by dlia. done.
Qed.

Hypothesis SMALL : within_fat32 m.

Lemma valid_range c : valid_cluster m c = true → 2 ≤ c < cluster_count m + 2.
Proof.
  unfold valid_cluster. destruct GEO as (_ & _ & _ & _ & _ & _ & _ & _ & Hcc & Hroot & _).
  unfold within_fat32 in SMALL. intros Hv. zbool. rewrite u32_small in * by lia. lia.
Qed.

(** Within FAT32's limit the code's test needs no case for the marks. *)
Lemma valid_cluster_link c : valid_cluster m c = is_link m c.
Proof.
  unfold valid_cluster, is_link. destruct GEO as (_ & _ & _ & _ & _ & _ & _ & _ & Hcc & Hroot & _).
  unfold within_fat32 in SMALL. rewrite u32_small by lia.
  destruct (Z.leb_spec 2 c), (Z.ltb_spec c (cluster_count m + 2)), (Z.ltb_spec c 0x0FFFFFF7); (done || lia).
Qed.

Lemma fat_sector_in_range c :
  fat_covers m → 2 ≤ c < cluster_count m + 2 →
  reserved_sectors m + c * 4 / 512 < disk_sectors.
Proof.
  destruct GEO as (_ & _ & Hr & Hnf & Hspf & Hds & Ht & _). unfold fat_covers.
  intros. assert (c * 4 / 512 < sectors_per_fat m) by dlia. nia.
Qed.

Lemma walk_run d c k :
  usable d →
  ∃ r d', walk m c k d = Some (r, d') ∧ usable d' ∧
    (r = None ∨ r = hop content m c k) ∧ (is_u32 c → ∀ c', r = Some c' → is_u32 c') ∧
    (reliable D good → fat_covers m → r = hop content m c k).
Proof.
  revert d c; induction k as [|k IH]; intros d c Hu; cbn [walk hop].
  { eexists _, d. split; [done|]. split_and!; try done; [by right|]. by intros ? ? [= <-]. }
  rewrite <- valid_cluster_link. destruct (valid_cluster m c) eqn:Hv; cbn [negb]; [|by eexists _, d; split_and!; auto].
  pose proof (valid_range c Hv) as Hc.
  unfold within_fat32 in SMALL. destruct (fat_word_entry c) as [Ew Es]; [lia..|].
  destruct (fat_next_run d c Hu) as (r & d1 & E & Hu1 & Hr & Hw & Hrel).
  mstep E. rewrite Ew, Es in *. destruct Hr as [->| ->].
  { eexists None, d1. split; [done|]. split_and!; [done|by left|done|].
    intros Hr Hcov. specialize (Hrel Hr (fat_sector_in_range c Hcov Hc)). done. }
  destruct (IH d1 (fat_entry content m c) Hu1) as (r & d' & E' & Hu' & Hr & Hr32 & Hc').
  exists r, d'. split_and!; try done. intros _. apply Hr32. split; lia.
Qed.

Lemma locate_run d f index :
  usable d → file_ok content m f → 0 ≤ index →
  ∃ r d', locate m f index d = Some (r, d') ∧ usable d' ∧
    (r = None ∨ r = chain_at content m (first_cluster_ f) (Z.to_nat index)) ∧
    (∀ c, r = Some c → is_u32 c) ∧
    (reliable D good → fat_covers m →
     r = chain_at content m (first_cluster_ f) (Z.to_nat index)).
Proof.
  intros Hu (Hfc & Hsz & Hci & Hcc & Hcache) Hi. unfold locate.
  set (cached := _ && _). set (start := if cached then _ else _).
  set (from := if cached then _ else _).
  assert (chain_at content m (first_cluster_ f) (Z.to_nat index) =
          chain_at content m start (Z.to_nat (index - from))) as Ech.
  { subst start from. destruct cached eqn:Ec; [|by rewrite Z.sub_0_r].
    subst cached. zbool. unfold is_u32 in Hci.
    rewrite <- (chain_at_resume content m (first_cluster_ f) _ _ _ (Hcache ltac:(done))).
    f_equal. lia. }
  assert (is_u32 start) by (subst start; by case_match). rewrite Ech. unfold chain_at.
  destruct (walk_run d start (Z.to_nat (index - from)) Hu)
    as (r & d' & E & Hu' & Hr & Hr32 & Hrel).
  mstep E. destruct r as [c|].
  - eexists _, d'. split; [done|]. split; [done|]. destruct Hr as [|Hr]; [done|].
    rewrite <- Hr. simpl. rewrite valid_cluster_link. split_and!; [by right| |done]. intros c'. case_match; [|done].
    intros [= <-]. by apply Hr32.
  - eexists None, d'. split_and!; [done|done|by left|done|]. intros Hr' Hcov.
    by rewrite <- (Hrel Hr' Hcov).
Qed.

(** ** Copying *)

(** [out'] is [out] with the file's bytes from [offset] on at
    [done .. done + n). *)
Definition copied (first offset done n : Z) (out out' : list Z) : Prop :=
  length out' = length out ∧
  (∀ k : nat, done ≤ Z.of_nat k < done + n →
     out' !! k = file_byte content m first (offset + Z.of_nat k)) ∧
  (∀ k : nat, Z.of_nat k < done ∨ done + n ≤ Z.of_nat k → out' !! k = out !! k).

(** [out'] differs from [out] at most in [from .. to). *)
Definition touched (from to : Z) (out out' : list Z) : Prop :=
  length out' = length out ∧
  (∀ k : nat, Z.of_nat k < from ∨ to ≤ Z.of_nat k → out' !! k = out !! k).

Lemma arr_write_touched l i bytes n l' :
  arr_write l i bytes = Some l' → Z.of_nat (length bytes) ≤ n → touched i (i + n) l l'.
Proof.
  intros E Hn. split; [by eapply arr_write_length|]. intros k Hk.
  rewrite (arr_write_lookup _ _ _ _ k E). case_decide; [lia|done].
Qed.

Lemma cluster_bytes_pos : 0 < cluster_bytes m ≤ 2 ^ 16.
Proof.
  destruct GEO as (_ & (k & Hk & Ek) & _). unfold cluster_bytes. rewrite Ek.
  pose proof (Z.pow_le_mono_r 2 k 7). pose proof (Z.pow_pos_nonneg 2 k).
  change (2 ^ 7) with 128 in *. lia.
Qed.

(** The byte [j] further on in the same cluster. *)
Lemma file_byte_within first pos c j :
  0 ≤ pos → chain_at content m first (Z.to_nat (pos / cluster_bytes m)) = Some c →
  0 ≤ j → pos mod cluster_bytes m + j < cluster_bytes m →
  file_byte content m first (pos + j) = cluster_byte content m c (pos mod cluster_bytes m + j).
Proof.
  intros Hp Hc Hj Hw. pose proof cluster_bytes_pos.
  destruct (div_mod_within pos j (cluster_bytes m)) as [E1 E2]; [lia..|].
  unfold file_byte. by rewrite E1, E2, Hc.
Qed.

Lemma copied_from_sectors first offset done n out out' bytes c :
  let pos := offset + done in
  let w := pos mod cluster_bytes m in
  0 ≤ offset → 0 ≤ done → 0 ≤ n → w + n ≤ cluster_bytes m →
  chain_at content m first (Z.to_nat (pos / cluster_bytes m)) = Some c →
  arr_write out done bytes = Some out' → Z.of_nat (length bytes) = n →
  (∀ j : nat, Z.of_nat j < n → bytes !! j = cluster_byte content m c (w + Z.of_nat j)) →
  copied first offset done n out out'.
Proof.
  intros pos w Ho Hd Hn Hw Hc E Hlen Hb. split; [by eapply arr_write_length|].
  split; intros k Hk; rewrite (arr_write_lookup _ _ _ _ k E).
  - case_decide; [|lia]. rewrite Hb by lia. symmetry.
    replace (offset + Z.of_nat k) with (pos + (Z.of_nat k - done)) by lia.
    rewrite (file_byte_within first pos c) by (subst pos w; lia || done). f_equal. lia.
  - case_decide; [lia|done].
Qed.

(** The setting of one round: [pos] falls in cluster [c], [w] bytes in. *)
Section Chunk.
Context (d : D) (first offset done remaining : Z) (out : list Z) (c : Z).
Let pos : Z := offset + done.
Let w : Z := pos mod cluster_bytes m.
Let lba : Z := cluster_lba m c + w / 512.

Definition chunk_at : Prop :=
  usable d ∧ 0 ≤ offset ∧ 0 ≤ done ∧ 0 < remaining < 2 ^ 32 ∧
  done + remaining ≤ Z.of_nat (length out) ∧ is_u32 c ∧
  chain_at content m first (Z.to_nat (pos / cluster_bytes m)) = Some c.

(** What a round may do. *)
Definition chunk_result (run : option ((option Z * list Z) * D)) : Prop :=
  ∃ r out' d', run = Some ((r, out'), d') ∧ usable d' ∧
    touched done (done + remaining) out out' ∧
    (∀ n, r = Some n → 1 ≤ n ≤ remaining ∧ copied first offset done n out out') ∧
    (reliable D good → r ≠ None).

Lemma chunk_facts :
  chunk_at → 0 ≤ w < cluster_bytes m ∧ 0 ≤ w / 512 < sectors_per_cluster m ∧ sectors_per_cluster m ≤ 128 ∧
  cluster_lba m c = data_start_sector m + (c - 2) * sectors_per_cluster m ∧
  cluster_lba m c +₆₄ w / 512 = lba ∧ 0 ≤ lba < 2 ^ 32 ∧
  (∀ s, 0 ≤ s < sectors_per_cluster m → cluster_lba m c + s < disk_sectors).
Proof.
  intros (Hu & Ho & Hd & Hrem & Hlen & Hc32 & Hc).
  pose proof cluster_bytes_pos as Hcb. pose proof (Z.mod_pos_bound pos (cluster_bytes m)) as Hw.
  fold w in Hw. pose proof (chain_at_link _ _ _ _ _ Hc) as Hv. rewrite <- valid_cluster_link in Hv.
  assert (0 ≤ w / 512 < sectors_per_cluster m) as Hs by (unfold cluster_bytes in *; dlia).
  pose proof (λ s Hs, cluster_arithmetic m disk_sectors c s GEO Hc32 Hv Hs) as Har.
  destruct (Har _ Hs) as (Hcr & _ & El & Hl & Elba & Hin).
  destruct GEO as (_ & _ & ? & ? & ? & Eds & Ht & ? & _).
  assert (0 ≤ num_fats m * sectors_per_fat m) by (apply Z.mul_nonneg_nonneg; lia).
  split; [lia|]. split; [done|]. split; [unfold cluster_bytes in *; lia|].
  split; [done|]. split; [done|]. split; [subst lba; lia|].
  intros s Hs'. by destruct (Har s Hs') as (_ & _ & _ & _ & _ & ?).
Qed.

(** Whole sectors, straight into the caller's buffer. *)
Lemma copy_sectors_run :
  chunk_at → w mod 512 = 0 → 512 ≤ remaining →
  chunk_result (copy_chunk m lba (w / 512) 0 remaining done out d).
Proof.
  intros Hat Hw0 Hr. destruct (chunk_facts Hat) as (Hw & Hs & Hs' & El & _ & Hlba & Hin).
  destruct Hat as ((Hg & Hdv & Hdc) & Ho & Hd & Hrem & Hlen & Hc32 & Hc).
  unfold copy_chunk, kSector, kSectorSize. rewrite (proj2 (Z.leb_le 512 _)) by done. cbn [andb Z.eqb].
  cbv iota. rewrite (u32_small (remaining / 512)), (u32_small (_ - _)) by dlia.
  set (n := Z.min _ _).
  assert (1 ≤ n ∧ n * 512 ≤ remaining ∧ w / 512 + n ≤ sectors_per_cluster m) as (Hn1 & Hn2 & Hn3)
    by (subst n; split_and!; dlia).
  destruct (read_total d lba n) as (ok & bytes & d' & E & Hg' & Hv' & Hc'); [done|lia..|].
  assert (Z.of_nat (length bytes) ≤ n * 512) as Hbl.
  { destruct ok.
    - destruct (read_success d lba n bytes d') as [-> _]; [done|lia..|done|].
      rewrite length_sectors by apply content_length. unfold kSectorSize. lia.
    - destruct (read_failure d lba n bytes d') as [? _]; [done|lia..|done|].
      unfold kSectorSize in *. lia. }
  destruct (arr_write_ok out done bytes) as (out' & Ew & _); [lia..|].
  eexists _, out', d'. split; [mstep E; cbv beta iota; by erewrite bind_checked|].
  split; [unfold usable; split_and!; congruence|].
  split; [eapply arr_write_touched; [done|lia]|]. split.
  - intros n' Hn'. destruct ok; [|done]. injection Hn' as <-.
    destruct (read_success d lba n bytes d') as [-> _]; [done|lia..|done|].
    split; [lia|]. eapply copied_from_sectors; try done; fold pos w; [lia|unfold cluster_bytes; dlia|..].
    + rewrite length_sectors by apply content_length. unfold kSectorSize. lia.
    + intros j Hj. rewrite lookup_sectors by (apply content_length || (unfold kSectorSize; lia)).
      unfold cluster_byte, kSectorSize. subst lba. rewrite El. f_equal; [f_equal|f_equal]; dlia.
  - intros Hrel. destruct ok; [done|].
    destruct (Hrel d lba n) as (? & ? & E'); [done|done|lia..| |congruence].
    specialize (Hin (w / 512 + n - 1)). subst lba. lia.
Qed.

(** Part of one sector, through the bounce buffer. *)
Lemma copy_partial_run :
  chunk_at → w mod 512 ≠ 0 ∨ remaining < 512 →
  chunk_result (copy_chunk m lba (w / 512) (w mod 512) remaining done out d).
Proof.
  intros Hat Hcase. destruct (chunk_facts Hat) as (Hw & Hs & Hs' & El & _ & Hlba & Hin).
  destruct Hat as (Hu & Ho & Hd & Hrem & Hlen & Hc32 & Hc).
  unfold copy_chunk, kSector, kSectorSize. case_match eqn:Hb; zbool; [lia|]. clear Hb.
  set (chunk := Z.min _ _).
  assert (1 ≤ chunk ≤ remaining ∧ w mod 512 + chunk ≤ 512) as [Hc1 Hc2] by (subst chunk; dlia).
  destruct (usable_read d lba) as (r & d' & E & Hu' & Hr & Hrel); [done|lia|].
  mstep E. destruct Hr as [->| ->].
  { eexists None, out, d'. split_and!; try done. intros Hr.
    by specialize (Hrel Hr (Hin (w / 512) ltac:(lia))). }
  destruct (arr_slice_some (content lba) (w mod 512) chunk) as (bytes & Es & Hbl);
    [dlia|lia|rewrite content_length; unfold kSectorSize; lia|].
  erewrite bind_checked by done.
  destruct (arr_write_ok out done bytes) as (out' & Ew & _); [lia..|].
  erewrite bind_checked by done. eexists _, out', d'. split; [done|]. split; [done|].
  split; [eapply arr_write_touched; [done|lia]|]. split; [|done].
  intros n [= <-]. split; [lia|].
  eapply copied_from_sectors; try done; fold pos w; [lia|unfold cluster_bytes; dlia|lia|].
  intros j Hj. unfold arr_slice in Es. case_match; [|done].
  injection Es as <-. rewrite lookup_take_lt, lookup_drop by lia.
  unfold cluster_byte. subst lba. rewrite El. f_equal; [|f_equal]; dlia.
Qed.

Lemma copy_chunk_run :
  chunk_at →
  chunk_result (copy_chunk m (cluster_lba m c +₆₄ w / 512) (w / 512) (w mod 512)
                  remaining done out d).
Proof.
  intros Hat. destruct (chunk_facts Hat) as (_ & _ & _ & _ & -> & _).
  destruct (decide (w mod 512 = 0)) as [E|]; [|apply copy_partial_run; auto].
  destruct (decide (remaining < 512)); [apply copy_partial_run; auto|].
  rewrite E. apply copy_sectors_run; [done..|lia].
Qed.
End Chunk.

(** ** The loop *)

Lemma copied_app first offset done n1 n2 out out1 out2 :
  0 ≤ n1 → 0 ≤ n2 → copied first offset done n1 out out1 →
  copied first offset (done + n1) n2 out1 out2 → copied first offset done (n1 + n2) out out2.
Proof.
  intros ?? (L1 & C1 & U1) (L2 & C2 & U2). split; [congruence|]. split; intros k Hk.
  - destruct (decide (Z.of_nat k < done + n1)).
    + rewrite U2 by lia. apply C1. lia.
    + apply C2. lia.
  - rewrite U2, U1 by lia. done.
Qed.

Lemma touched_trans a b c out out1 out2 :
  a ≤ b → touched a c out out1 → touched b c out1 out2 → touched a c out out2.
Proof.
  intros ? [L1 U1] [L2 U2]. split; [congruence|]. intros k Hk. rewrite U2, U1 by lia. done.
Qed.

(** The chain reaches every byte of [from .. to). *)
Definition chain_covers (first from to : Z) : Prop :=
  ∀ pos, from ≤ pos < to →
    is_Some (chain_at content m first (Z.to_nat (pos / cluster_bytes m))).

Lemma file_ok_set_cache f index c :
  file_ok content m f → is_u32 index → is_u32 c →
  chain_at content m (first_cluster_ f) (Z.to_nat index) = Some c →
  file_ok content m (set_cache f index c) ∧ same_file f (set_cache f index c).
Proof. intros (? & ? & ? & ? & _) ???. by split. Qed.

Definition read_result (f : File) (offset done len : Z) (out : list Z)
    (run : option ((Z * File * list Z) * D)) : Prop :=
  ∃ r f' out' d', run = Some ((r, f', out'), d') ∧ usable d' ∧
    file_ok content m f' ∧ same_file f f' ∧ touched done len out out' ∧
    (r = -1 ∨ r = len ∧ copied (first_cluster_ f) offset done (len - done) out out') ∧
    (reliable D good → fat_covers m →
     chain_covers (first_cluster_ f) offset (offset + len) → r = len).

Lemma read_loop_run fuel d f offset len done out :
  usable d → file_ok content m f → 0 ≤ offset → 0 ≤ done ≤ len → offset + len < 2 ^ 32 →
  len ≤ Z.of_nat (length out) → (Z.to_nat (len - done) < fuel)%nat →
  read_result f offset done len out (read_loop fuel m f offset len done out d).
Proof.
  revert d f done out; induction fuel as [|fuel IH]; intros d f done out Hu Hf Ho Hd Hl Hlen Hfuel;
    [lia|]. cbn [read_loop]. unfold read_result.
  destruct (Z.ltb_spec done len); cbn [negb]; cbv iota; [|].
  2:{ replace len with done by lia. eexists _, f, out, d. split; [done|]. split; [done|].
      split; [done|]. split; [done|]. split; [done|]. split; [right|done]. split; [done|].
      split; [done|]. split; [intros k ?; lia|done]. }
  pose proof cluster_bytes_pos as Hcb. unfold kSector, kSectorSize.
  rewrite (u64_small (sectors_per_cluster m * 512)), (u64_small (offset + done))
    by (unfold cluster_bytes in *; lia).
  fold (cluster_bytes m). set (pos := offset + done) in *. set (index := pos / cluster_bytes m).
  assert (0 ≤ index ≤ pos) as Hi.
  { split; [apply Z.div_pos; lia|apply Z.div_le_upper_bound; nia]. }
  pose proof (Z.mod_pos_bound pos (cluster_bytes m)) as Hw.
  destruct (locate_run d f index) as (r & d1 & E1 & Hu1 & Hr & Hr32 & Hrel); [done|done|lia|].
  mstep E1. destruct r as [c|].
  2:{ eexists _, f, out, d1. split; [done|]. do 4 (split; [done|]). split; [by left|].
      intros H1 H2 H3. specialize (Hrel H1 H2). destruct (H3 pos) as [? E]; [lia|].
      unfold index in Hrel. congruence. }
  destruct Hr as [|Hr]; [done|]. symmetry in Hr. specialize (Hr32 c eq_refl).
  rewrite (u32_small index), (u32_small (_ / 512)), (u32_small (_ mod 512)) by dlia.
  destruct (file_ok_set_cache f index c) as [Hf1 Hs1]; [done|split; lia|done..|].
  destruct (copy_chunk_run d1 (first_cluster_ f) offset done (len - done) out c)
    as (n & out1 & d2 & E2 & Hu2 & Ht & Hn & Hrel2).
  { unfold chunk_at. split_and!; try done; lia. }
  fold pos in E2. mstep E2. cbv beta iota. replace (done + (len - done)) with len in Ht by lia.
  destruct n as [n|].
  2:{ eexists _, _, _, d2. split; [done|]. do 4 (split; [done|]). split; [by left|].
      intros H1 _ _. by destruct (Hrel2 H1). }
  destruct (Hn n eq_refl) as [Hn1 Hcp]. rewrite (u64_small (done + n)) by lia.
  destruct (IH d2 (set_cache f index c) (done + n) out1)
    as (r & f' & out' & d' & E3 & Hu' & Hf' & Hs' & Ht' & Hr' & Hrel'); try done; try lia.
  { destruct Hcp as [-> _]. lia. }
  eexists r, f', out', d'. split; [done|]. split; [done|]. split; [done|].
  split; [by etrans|]. split; [by eapply touched_trans; [|done..]; lia|]. split; [|done].
  destruct Hr' as [->|[-> Hcp']]; [by left|right; split; [done|]].
  replace (len - done) with (n + (len - (done + n))) by lia.
  eapply copied_app; try done; lia.
Qed.
End Read.

(** ** File::read *)

Section Theorems.
Context {D : Type} `{BlockDevice D} {content : Z → list Z} {good : D → Prop}.
Context {LAWS : BlockDeviceLaws D content good}.
Context (fs : Fat32) (disk_sectors : Z).
Let m := meta_ fs.

(** A handle to a regular file of the mounted volume [fs]. *)
Definition handle_of (f : File) : Prop :=
  fs_ f = Some fs ∧ dir_ f = false ∧ file_ok content m f.

(** The bytes [read] is to deliver: up to the end of the file. *)
Definition clamped (f : File) (offset len : Z) : Z := Z.max 0 (Z.min len (size_ f - offset)).

Lemma read_run d f offset buf len :
  geometry m disk_sectors → within_fat32 m →
  usable (good := good) disk_sectors d → handle_of f → is_u64 offset →
  0 ≤ len ≤ Z.of_nat (length buf) →
  read_result (content := content) (good := good) m disk_sectors f offset 0
    (clamped f offset len) buf (read f offset buf len d).
Proof.
  intros GEO SMALL Hu (Ef & Ed & Hf) Ho Hl. unfold read, clamped, is_u64 in *. rewrite Ef, Ed.
  pose proof Hf as (_ & Hsz & _). unfold is_u32 in Hsz.
  case_match eqn:E0; zbool.
  - replace (Z.max 0 (Z.min len (size_ f - offset))) with 0 by lia.
    eexists _, f, buf, d. split; [done|]. split; [done|]. split; [done|]. split; [done|].
    split; [done|]. split; [right|done]. split; [done|]. split; [done|].
    split; [intros k ?; lia|done].
  - replace (Z.max 0 (Z.min len (size_ f - offset)))
      with (if size_ f - offset <? len then size_ f - offset else len) by (case_match; zbool; lia).
    set (len' := if size_ f - offset <? len then size_ f - offset else len).
    assert (0 ≤ len' ≤ len ∧ offset + len' ≤ size_ f) as [? ?]
      by (subst len'; case_match; zbool; lia).
    apply read_loop_run; try done; lia.
Qed.

(** C2: reading a file is correct on any disk.  [read(offset, buf, len)] always
    returns, never stores outside the first min(len, size - offset) bytes of
    the buffer, and keeps the cursor cache consistent with the FAT; its result
    is either -1 or exactly that count, and then the buffer holds the file's
    bytes from [offset] on, whatever the cache, the alignment of the request
    and the order of the file's clusters on the disk. *)
Theorem read_returns_file_bytes d f offset buf len :
  geometry m disk_sectors → within_fat32 m →
  usable (good := good) disk_sectors d → handle_of f → is_u64 offset →
  0 ≤ len ≤ Z.of_nat (length buf) →
  let n := clamped f offset len in
  ∃ r f' buf' d', read f offset buf len d = Some ((r, f', buf'), d') ∧
    usable (good := good) disk_sectors d' ∧ handle_of f' ∧ same_file f f' ∧
    length buf' = length buf ∧
    (∀ k : nat, n ≤ Z.of_nat k → buf' !! k = buf !! k) ∧
    (r = -1 ∨ r = n ∧ ∀ k : nat, Z.of_nat k < n →
       buf' !! k = file_byte content m (first_cluster_ f) (offset + Z.of_nat k)).
Proof.
  intros GEO SMALL Hu Hf Ho Hl n.
  destruct (read_run d f offset buf len GEO SMALL Hu Hf Ho Hl)
    as (r & f' & buf' & d' & E & Hu' & Hf' & Hs & [Hlen Ht] & Hr & _).
  exists r, f', buf', d'. split; [done|]. split; [done|].
  split; [destruct Hf as (? & ? & _), Hs as (? & ? & ? & ?); unfold handle_of; split_and!; congruence|].
  split; [done|]. split; [done|]. split; [intros k Hk; apply Ht; by right|].
  destruct Hr as [->|[-> (_ & Hc & _)]]; [by left|right]. split; [done|].
  intros k Hk. apply Hc. fold n. lia.
Qed.

(** C27: on a device that completes the reads in its range, and a file whose
    chain is as long as its size says, reading does not fail: it returns
    min(len, size - offset), and so delivers every byte asked for. *)
Theorem read_delivers_whole_file d f offset buf len :
  geometry m disk_sectors → within_fat32 m →
  usable (good := good) disk_sectors d → handle_of f → is_u64 offset →
  0 ≤ len ≤ Z.of_nat (length buf) →
  reliable D good → fat_covers m →
  chain_covers (content := content) m (first_cluster_ f) 0 (size_ f) →
  let n := clamped f offset len in
  ∃ f' buf' d', read f offset buf len d = Some ((n, f', buf'), d') ∧
    ∀ k : nat, Z.of_nat k < n →
       buf' !! k = file_byte content m (first_cluster_ f) (offset + Z.of_nat k).
Proof.
  intros GEO SMALL Hu Hf Ho Hl Hrel Hcov Hch n.
  destruct (read_run d f offset buf len GEO SMALL Hu Hf Ho Hl)
    as (r & f' & buf' & d' & E & _ & _ & _ & _ & Hr & Hok).
  assert (r = n) as ->.
  { apply Hok; [done|done|]. intros pos Hp. apply Hch. unfold n, clamped, is_u64 in *. lia. }
  exists f', buf', d'. split; [done|]. destruct Hr as [Hr|[_ (_ & Hc & _)]].
  - unfold n, clamped in Hr. lia.
  - intros k Hk. apply Hc. fold n. lia.
Qed.
End Theorems.

(** Beyond FAT32's limit, which mounting does not check, the code takes a mark of
    the end of a chain for a cluster number. *)
Example end_mark_is_valid :
  let m := set_layout meta_zero 3 0x0FFFFFF8 in
  valid_cluster m 0x0FFFFFF8 = true ∧ is_link m 0x0FFFFFF8 = false.
Proof. vm_compute. by split. Qed.

(** DATA.BIN of the image: 700 bytes in clusters 5 and 3. *)
Definition image_fs : Fat32 := MkFat32 true image_meta.
Definition image_file : File := MkFile (Some image_fs) 5 700 false 0 0.

Lemma image_usable : usable (good := λ d, d = image) 16 image.
Proof. done. Qed.

Lemma image_handle : handle_of (content := ram_sector image) image_fs image_file.
Proof. unfold handle_of, file_ok. split_and!; try done. Qed.

Lemma image_chain_covers : chain_covers (content := ram_sector image) image_meta 5 0 700.
Proof.
  intros pos Hp. change (cluster_bytes image_meta) with 512.
  destruct (decide (pos < 512)).
  - rewrite Z.div_small by lia. vm_compute. by eexists.
  - replace (pos / 512) with 1 by dlia. vm_compute. by eexists.
Qed.

Lemma read_returns_file_bytes_witness :
  (∃ r f' buf' d', read image_file 500 (replicate 50 0) 50 image = Some ((r, f', buf'), d') ∧
    d' = image ∧ length buf' = 50%nat) ∧
  (fst ∘ fst ∘ fst <$> read image_file 500 (replicate 50 0) 50 image) = Some 50.
Proof.
  split; [|vm_compute; reflexivity].
  destruct (read_returns_file_bytes (LAWS := ram_laws image) image_fs 16 image image_file 500 (replicate 50 0) 50)
    as (r & f' & buf' & d' & E & (Hd & _) & _ & _ & Hl & _);
    [exact image_geometry|unfold within_fat32; simpl; lia|exact image_usable|exact image_handle|
     unfold is_u64; lia|simpl; lia|].
  exists r, f', buf', d'. split; [exact E|]. split; [exact Hd|exact Hl].
Defined.

(** A read across the two clusters: 12 bytes of the first, 38 of the second. *)
Lemma read_delivers_whole_file_witness :
  ∃ f' buf' d', read image_file 500 (replicate 50 0) 50 image = Some ((50, f', buf'), d') ∧
    buf' !! 11%nat = Some 0x41 ∧ buf' !! 12%nat = Some 0x42.
Proof.
  destruct (read_delivers_whole_file (LAWS := ram_laws image) image_fs 16 image image_file 500 (replicate 50 0) 50)
    as (f' & buf' & d' & E & Hb);
    [exact image_geometry|unfold within_fat32; simpl; lia|exact image_usable|exact image_handle|
     unfold is_u64; lia|simpl; lia|apply ram_reliable|unfold fat_covers; simpl; lia|
     exact image_chain_covers|].
  exists f', buf', d'. split; [exact E|].
  rewrite (Hb 11%nat), (Hb 12%nat) by (unfold clamped; simpl; lia). vm_compute. by split.
Defined.
