(* ===== verification/Fat32Dir.v ===== *)
(** * Directories: how the driver reads a 32-byte slot

    A sequence of slots is parsed into [dirent]s, each with its short name, the
    long name its LFN pieces spell in the driver's buffer (if they belong to it)
    and its entry, independently of the name looked up.  The code's [scan_entry] is
    shown to take exactly one step of this parse and to compare the name with both
    names, without ever leaving its arrays.  Fat32Spec.v says what a directory is
    without the driver's buffer. *)

From S2P Require Import Prelude Arrays BlockDev Fat32 Fat32Mount.

Local Open Scope machine_scope.

Definition byte (l : list Z) (i : Z) : Z := default 0 (l !! Z.to_nat i).

Definition bytes_at (l : list Z) (p : Z) (n : nat) : list Z := take n (drop (Z.to_nat p) l).

Record dirent := Dirent {
  de_long : option (list Z);
  de_short : list Z;
  de_entry : Entry;
}.

(** "NAME.EXT" from the padded eleven bytes at [p]; a leading 0x05 stands for
    0xE5. *)
Definition short_name_of (l : list Z) (p : Z) : list Z :=
  let base := match before 32 (bytes_at l p 8) with
              | 5 :: r => 0xE5 :: r
              | b => b
              end in
  match before 32 (bytes_at l (p + 8) 3) with
  | [] => base
  | ext => base ++ 46 :: ext
  end.

(** Rotate right by one bit, add, modulo 256. *)
Definition checksum_of (name11 : list Z) : Z :=
  foldl (λ s b, (s mod 2 * 128 + s / 2 + b) mod 256) 0 name11.

(** The 13 UTF-16 units of an LFN slot. *)
Definition piece_units (l : list Z) (p : Z) : list Z := (λ o, field l (p + o) 2) <$> kOffsets.

Definition entry_of (l : list Z) (p : Z) : Entry :=
  MkEntry (field l (p + 20) 2 * 2 ^ 16 + field l (p + 26) 2) (field l (p + 28) 4)
    (Z.testbit (byte l (p + 11)) 4).

Inductive slot_result :=
| SlotEnd
| SlotNext (st : lfn_state) (de : option dirent).

(** An LFN piece with ordinal [seq]: its characters go to place
    [13 * (seq - 1)] of the name under assembly. *)
Definition add_piece (l : list Z) (p seq : Z) (st : lfn_state) : lfn_state :=
  let base := Z.to_nat ((seq - 1) * 13) in
  Lfn (take base (lfn st) ++ (lfn_char <$> piece_units l p) ++ drop (base + 13) (lfn st))
    (lfn_len st) (lfn_ok st) (lfn_checksum st).

Definition parse_lfn (l : list Z) (p : Z) (st : lfn_state) : lfn_state :=
  let ord := byte l p in
  let seq := ord mod 64 in
  if (seq =? 0) || (20 <? seq) then drop_lfn st
  else if Z.testbit ord 6
  then add_piece l p seq (Lfn (replicate 269 0) (seq * 13) true (byte l (p + 13)))
  else if lfn_ok st && (byte l (p + 13) =? lfn_checksum st) then add_piece l p seq st
  else drop_lfn st.

Definition parse_short (l : list Z) (p : Z) (st : lfn_state) : dirent :=
  Dirent (if lfn_ok st && (checksum_of (bytes_at l p 11) =? lfn_checksum st)
          then Some (before 0 (take (Z.to_nat (lfn_len st)) (lfn st))) else None)
    (short_name_of l p) (entry_of l p).

(** One slot: the end of the directory; a deleted slot, an LFN piece, a volume
    label, none of which is an entry; or an entry. *)
Definition parse_slot (l : list Z) (p : Z) (st : lfn_state) : slot_result :=
  if byte l p =? 0 then SlotEnd
  else if byte l p =? 0xE5 then SlotNext (drop_lfn st) None
  else if byte l (p + 11) =? kAttrLfn then SlotNext (parse_lfn l p st) None
  else if Z.testbit (byte l (p + 11)) 3 then SlotNext (drop_lfn st) None
  else SlotNext (drop_lfn st) (Some (parse_short l p st)).

(** Names are compared without regard to (ASCII) case. *)
Definition same_name (a b : list Z) : bool := bool_decide (upper <$> a = upper <$> b).

Definition names (de : dirent) (name : list Z) : bool :=
  match de_long de with Some long => same_name long name | None => false end ||
  same_name (de_short de) name.

(** The invariant of the name under assembly: its buffer has the size of
    [lfn[]], and its length never passes it. *)
Definition lfn_wf (st : lfn_state) : Prop :=
  length (lfn st) = 269%nat ∧ 0 ≤ lfn_len st ≤ 260.

(** ** Lemmas *)

Lemma get_byte l i : sector_ok l → 0 ≤ i < 512 → arr_get l i = Some (byte l i) ∧ is_byte (byte l i).
Proof.
  intros Hl Hi. destruct (sector_get l i Hl Hi) as (b & E & Hb). unfold byte.
  rewrite arr_get_lookup in * by lia. by rewrite E.
Qed.

Lemma equal_chars_upper a b :
  length a = length b → equal_chars a b = bool_decide (upper <$> a = upper <$> b).
Proof.
  revert b; induction a as [|x a IH]; intros [|y b] Hl; try done.
  cbn [equal_chars]. injection Hl as Hl. rewrite (IH b Hl), !fmap_cons.
  destruct (Z.eqb_spec (upper x) (upper y)) as [E|E].
  - apply bool_decide_ext. rewrite E. split; [by intros ->|]. by intros [= ?].
  - symmetry. apply bool_decide_eq_false_2. by intros [= ?].
Qed.

Lemma equal_nocase_same a b : equal_nocase a b = same_name a b.
Proof.
  unfold equal_nocase, same_name. destruct (Nat.eqb_spec (length a) (length b)) as [E|E]; simpl.
  - by apply equal_chars_upper.
  - symmetry. apply bool_decide_eq_false_2. intros Hu.
    apply (f_equal length) in Hu. rewrite !length_fmap in Hu. done.
Qed.

Lemma bytes_at_cons l p b n :
  0 ≤ p → arr_get l p = Some b → bytes_at l p (S n) = b :: bytes_at l (p + 1) n.
Proof. intros Hp E. unfold bytes_at. by rewrite (drop_get l p b). Qed.

Lemma checksum_loop_spec l s p k :
  sector_ok l → is_byte s → 0 ≤ p → p + Z.of_nat k ≤ 512 →
  checksum_loop s l p k =
    Some (foldl (λ s b, (s mod 2 * 128 + s / 2 + b) mod 256) s (bytes_at l p k)).
Proof.
  intros Hl. revert s p; induction k as [|k IH]; intros s p Hs Hp Hk; [done|].
  destruct (get_byte l p) as [E Hb]; [done|lia|].
  cbn [checksum_loop]. rewrite E. cbn [mbind option_bind]. rewrite IH by (apply u8_range || lia).
  rewrite (bytes_at_cons l p (byte l p) k) by done. cbn [foldl]. do 2 f_equal.
  unfold u8. f_equal. f_equal. change 1 with (Z.ones 1) at 1. rewrite Z.land_ones by lia.
  rewrite Z.shiftr_div_pow2 by lia. change (2 ^ 1) with 2. case_match; zbool; dlia.
Qed.

Lemma short_name_part_spec l p i k :
  sector_ok l → 0 ≤ p → 0 < i → p + i + Z.of_nat k ≤ 512 →
  short_name_part l p i k = Some (before 32 (bytes_at l (p + i) k)).
Proof.
  intros Hl Hp. revert i; induction k as [|k IH]; intros i Hi Hk; [done|].
  destruct (get_byte l (p + i)) as [E _]; [done|lia|].
  cbn [short_name_part]. rewrite E, (bytes_at_cons l (p + i) (byte l (p + i)) k) by (exact E || lia).
  cbn [mbind option_bind before]. case_match; [done|]. rewrite IH by lia.
  cbn [mbind option_bind]. rewrite (proj2 (Z.eqb_neq i 0)) by lia. cbn [andb].
  do 4 f_equal. lia.
Qed.

Lemma short_name_part_S l p i k :
  short_name_part l p i (S k) =
    b ← arr_get l (p + i);
    if b =? 32 then Some []
    else rest ← short_name_part l p (i + 1) k;
         Some ((if (i =? 0) && (b =? 0x05) then 0xE5 else b) :: rest).
Proof. done. Qed.

Lemma short_name_base_spec l p :
  sector_ok l → 0 ≤ p → p + 8 ≤ 512 →
  short_name_part l p 0 8 = Some (match before 32 (bytes_at l p 8) with
                                  | 5 :: r => 0xE5 :: r
                                  | b => b
                                  end).
Proof.
  intros Hl Hp H8. destruct (get_byte l p) as [E _]; [done|lia|].
  rewrite short_name_part_S, Z.add_0_r, E, (bytes_at_cons l p (byte l p) 7) by (exact E || lia).
  cbn [mbind option_bind before]. case_match eqn:Esp; [done|].
  rewrite short_name_part_spec by lia || done.
  cbn [mbind option_bind]. replace (p + (0 + 1)) with (p + 1) by lia.
  rewrite Z.eqb_refl. cbn [andb]. destruct (Z.eqb_spec (byte l p) 5) as [->|Hn]; [done|].
  f_equal. by repeat (case_match; try done).
Qed.

Lemma format_short_name_spec l p :
  sector_ok l → 0 ≤ p → p + 32 ≤ 512 → format_short_name l p = Some (short_name_of l p).
Proof.
  intros Hl Hp H. unfold format_short_name, short_name_of.
  rewrite short_name_base_spec by (done || lia). cbn [mbind option_bind].
  destruct (get_byte l (p + 8)) as [E _]; [done|lia|]. rewrite E. cbn [mbind option_bind].
  rewrite (bytes_at_cons l (p + 8) (byte l (p + 8)) 2) by (exact E || lia). cbn [before]. case_match eqn:Esp; [done|].
  rewrite short_name_part_spec by (done || lia). cbn [mbind option_bind].
  rewrite (bytes_at_cons l (p + 8) (byte l (p + 8)) 2) by (exact E || lia). cbn [before]. by rewrite Esp.
Qed.

Lemma lfn_name_spec buf n k :
  0 ≤ n → n + Z.of_nat k ≤ Z.of_nat (length buf) →
  lfn_name buf n k = Some (before 0 (bytes_at buf n k)).
Proof.
  revert n; induction k as [|k IH]; intros n Hn Hk; [done|].
  destruct (arr_get_some buf n) as [b E]; [lia|].
  cbn [lfn_name]. rewrite E, (bytes_at_cons buf n b k) by done.
  cbn [mbind option_bind before]. case_match; [done|]. by rewrite IH by lia.
Qed.

Lemma store_piece_spec l e base offsets buf :
  sector_ok l → 0 ≤ e → e + 32 ≤ 512 → Forall (λ o, 0 ≤ o ≤ 30) offsets →
  0 ≤ base → base + Z.of_nat (length offsets) ≤ Z.of_nat (length buf) →
  store_piece l e base offsets buf =
    arr_write buf base (lfn_char <$> ((λ o, field l (e + o) 2) <$> offsets)).
Proof.
  intros Hl He He'. revert base buf; induction offsets as [|o rest IH]; intros base buf Ho Hb Hlen.
  { rewrite arr_write_some by done. simpl. by rewrite Nat.add_0_r, take_drop. }
  inversion Ho; subst. cbn [store_piece].
  destruct (le16_field l (e + o)) as [-> _]; [done|lia..|]. cbn [mbind option_bind].
  destruct (arr_write_ok buf base [lfn_char (field l (e + o) 2)]) as (buf' & E & Hl');
    [done|simpl in *; lia|].
  rewrite E. cbn [mbind option_bind]. rewrite IH by (try done; simpl in *; lia).
  rewrite (arr_write_app _ _ _ _ _ E). done.
Qed.

Section Slot.
Context (l : list Z) (p : Z) (st : lfn_state).
Hypothesis SECTOR : sector_ok l.
Hypothesis SLOT : 0 ≤ p ∧ p + 32 ≤ 512.
Hypothesis WF : lfn_wf st.

Lemma slot_byte i : 0 ≤ i < 32 → arr_get l (p + i) = Some (byte l (p + i)) ∧ is_byte (byte l (p + i)).
Proof. intros. apply get_byte; [done|lia]. Qed.

Lemma drop_lfn_wf st' : lfn_wf st' → lfn_wf (drop_lfn st').
Proof. done. Qed.

(** Storing a piece keeps the buffer's size: the largest ordinal accepted, 20,
    puts the last character at place 259 of 269. *)
Lemma add_piece_run seq st' :
  lfn_wf st' → 1 ≤ seq ≤ 20 →
  store_piece l p ((seq - 1) * 13) kOffsets (lfn st') = Some (lfn (add_piece l p seq st')) ∧
  lfn_wf (add_piece l p seq st').
Proof.
  intros [Hlen Hn] Hs.
  assert (store_piece l p ((seq - 1) * 13) kOffsets (lfn st') =
          arr_write (lfn st') ((seq - 1) * 13) (lfn_char <$> piece_units l p)) as E.
  { apply store_piece_spec; try done; [lia|lia| |lia|simpl; lia].
    repeat constructor; lia. }
  rewrite E, arr_write_some by (simpl; lia). split; [done|].
  unfold lfn_wf, add_piece; simpl lfn_len. split; [|done].
  eapply eq_trans; [eapply arr_write_length, arr_write_some|done]; simpl; lia.
Qed.

Lemma scan_lfn_run : scan_lfn l p st = Some (parse_lfn l p st) ∧ lfn_wf (parse_lfn l p st).
Proof.
  destruct (slot_byte 0) as [E0 Hb]; [lia|]. rewrite Z.add_0_r in *.
  destruct (slot_byte 13) as [E13 _]; [lia|].
  unfold scan_lfn, parse_lfn. rewrite E0. cbn [mbind option_bind].
  change 0x3F with (Z.ones 6). rewrite Z.land_ones by lia. change (2 ^ 6) with 64.
  set (seq := byte l p mod 64). assert (0 ≤ seq < 64) by (apply Z.mod_pos_bound; lia).
  replace (kMaxNameLen + 13 <? seq * 13) with (20 <? seq)
    by (unfold kMaxNameLen; destruct (Z.ltb_spec 20 seq), (Z.ltb_spec (255 + 13) (seq * 13)); lia).
  case_match eqn:Hseq; zbool; [by split|].
  rewrite E13. cbn [mbind option_bind]. change 0x40 with (2 ^ 6). rewrite land_bit_ge by lia.
  destruct (Z.testbit (byte l p) 6).
  - rewrite (proj1 WF). cbn [mbind option_bind].
    set (st1 := Lfn (replicate 269 0) (seq * 13) true (byte l (p + 13))).
    destruct (add_piece_run seq st1) as [Ep Hw]; [split; simpl; [done|lia]|lia|].
    rewrite Ep. by split.
  - destruct (lfn_ok st && (byte l (p + 13) =? lfn_checksum st)) eqn:Eb.
    + apply andb_true_iff in Eb as [-> ->]. cbn [negb orb mbind option_bind].
      destruct (add_piece_run seq st) as [Ep Hw]; [done|lia|]. rewrite Ep. by split.
    + rewrite <- negb_andb, Eb. by split.
Qed.

Lemma read_entry_run : read_entry l p (byte l (p + 11)) = Some (entry_of l p).
Proof.
  unfold read_entry. destruct (le16_field l (p + 20)) as [-> H20]; [done|lia..|].
  destruct (le16_field l (p + 26)) as [-> H26]; [done|lia..|].
  destruct (le32_field l (p + 28)) as [-> _]; [done|lia..|]. cbn [mbind option_bind].
  unfold entry_of, kAttrDirectory. change 0x10 with (2 ^ 4). rewrite land_bit_ge by lia.
  rewrite u32_small by (rewrite Z.shiftl_mul_pow2; lia).
  rewrite Z.lor_comm, lor_shiftl by lia. do 2 f_equal. lia.
Qed.

Lemma short_matches_run have_lfn name :
  short_matches l p (drop_lfn st) have_lfn name =
    Some ((if have_lfn then same_name (before 0 (take (Z.to_nat (lfn_len st)) (lfn st))) name
           else false) || same_name (short_name_of l p) name).
Proof.
  unfold short_matches. destruct WF as [Hlen Hn]. simpl lfn. simpl lfn_len.
  rewrite lfn_name_spec, format_short_name_spec by (done || lia). cbn [mbind option_bind].
  rewrite !equal_nocase_same. unfold bytes_at. rewrite drop_0.
  destruct have_lfn; cbn [mbind option_bind]; [|done]. by case_match.
Qed.

(** One slot, with the name to look for. *)
Definition slot_step (name : list Z) : scan_result :=
  match parse_slot l p st with
  | SlotEnd => EndOfDirectory
  | SlotNext st' None => Continue st'
  | SlotNext st' (Some de) => if names de name then Match (de_entry de) else Continue st'
  end.

Lemma scan_entry_run name :
  scan_entry l p st name = Some (slot_step name) ∧
  (∀ st' de, parse_slot l p st = SlotNext st' de → lfn_wf st').
Proof.
  destruct (slot_byte 0) as [E0 _]; [lia|]. rewrite Z.add_0_r in E0.
  destruct (slot_byte 11) as [E11 _]; [lia|].
  unfold scan_entry, slot_step, parse_slot. rewrite E0. cbn [mbind option_bind].
  case_match eqn:H0; [by split|]. case_match eqn:HE5; [split; [done|by intros ?? [= <- <-]]|].
  rewrite E11. cbn [mbind option_bind]. case_match eqn:Hlfn.
  { destruct scan_lfn_run as [-> Hw]. split; [done|by intros ?? [= <- <-]]. }
  unfold scan_short, kAttrVolumeId. change 0x08 with (2 ^ 3). rewrite land_bit_ge by lia.
  unfold short_name_checksum. rewrite checksum_loop_spec by (done || (simpl; lia)).
  fold (checksum_of (bytes_at l p 11)).
  replace (if lfn_ok st then _ else _)
    with (Some (lfn_ok st && (checksum_of (bytes_at l p 11) =? lfn_checksum st)))
    by (by destruct (lfn_ok st)).
  cbn [mbind option_bind]. case_match; [split; [done|by intros ?? [= <- <-]]|].
  split; [|by intros ?? [= <- <-]]. rewrite short_matches_run. cbn [mbind option_bind].
  unfold names, parse_short. cbn [de_long de_short de_entry]. rewrite read_entry_run.
  repeat case_match; simplify_eq; done.
Qed.
End Slot.
