(* ===== verification/Fat32Lookup.v ===== *)
(** * Lookup and path resolution

    A directory is the list of entries its slots spell, in disk order over its
    whole cluster chain ([dir_entries]); a path is the list of its components;
    [resolve] follows it.  [lookup] and [find] do this on any device, and do not
    depend on the spelling of slashes or the case of letters.  What the entries mean
    on disk is in Fat32Spec.v. *)

From S2P Require Import Prelude Arrays BlockDev Fat32 RamDisk Fat32Mount Fat32Read Fat32Dir.

Local Open Scope machine_scope.

(** ** The specification *)

(** A slot: a sector and the offset in it. *)
Definition slot : Type := list Z * Z.

(** The entries a sequence of slots spells. *)
Fixpoint parse (st : lfn_state) (slots : list slot) : list dirent :=
  match slots with
  | [] => []
  | (l, p) :: rest =>
      match parse_slot l p st with
      | SlotEnd => []
      | SlotNext st' None => parse st' rest
      | SlotNext st' (Some de) => de :: parse st' rest
      end
  end.

(** The first entry that carries the name. *)
Fixpoint first_named (des : list dirent) (name : list Z) : option Entry :=
  match des with
  | [] => None
  | de :: rest => if names de name then Some (de_entry de) else first_named rest name
  end.

(** The slots of a sector from [p] on, of a run of sectors, of a chain. *)
Fixpoint slots_from (l : list Z) (p : Z) (k : nat) : list slot :=
  match k with
  | O => []
  | S k' => (l, p) :: slots_from l (p + 32) k'
  end.

Fixpoint sector_slots (content : Z → list Z) (lba : Z) (n : nat) : list slot :=
  match n with
  | O => []
  | S n' => slots_from (content lba) 0 16 ++ sector_slots content (lba + 1) n'
  end.

Section Directory.
Context (content : Z → list Z) (m : Fat32Metadata).

Fixpoint chain_slots (c : Z) (k : nat) : list slot :=
  match k with
  | O => []
  | S k' =>
      if is_link m c
      then sector_slots content (data_start_sector m + (c - 2) * sectors_per_cluster m)
             (Z.to_nat (sectors_per_cluster m)) ++ chain_slots (fat_entry content m c) k'
      else []
  end.

(** The entries of the directory at [c]; a chain has at most [cluster_count]
    clusters unless it is cyclic. *)
Definition dir_entries (c : Z) : list dirent :=
  parse lfn_init (chain_slots c (Z.to_nat (cluster_count m + 1))).

(** What [lookup] finds in the directory at [c]. *)
Definition look_up (c : Z) (name : list Z) : option Entry := first_named (dir_entries c) name.
End Directory.

(** Following a path, one component at a time, from [cur]; [look] looks a name
    up in the directory that starts at a cluster.  An entry that links to
    cluster 0 stands for the root. *)
Section Resolve.
Context (look : Z → list Z → option Entry) (root : Z).

Fixpoint resolve (cur : Entry) (comps : list (list Z)) : option Entry :=
  match comps with
  | [] => Some cur
  | name :: rest =>
      if entry_dir cur && (Z.of_nat (length name) <=? kMaxNameLen) then
        e ← look (if first_cluster cur =? 0 then root else first_cluster cur) name;
        resolve e rest
      else None
  end.
End Resolve.

(** A path's components: the non-empty runs between slashes, up to the NUL. *)
Fixpoint components_from (acc p : list Z) : list (list Z) :=
  match p with
  | [] => match acc with [] => [] | _ => [acc] end
  | c :: r =>
      if c =? 0 then match acc with [] => [] | _ => [acc] end
      else if c =? 47 then match acc with
                           | [] => components_from [] r
                           | _ => acc :: components_from [] r
                           end
      else components_from (acc ++ [c]) r
  end.

Definition components (p : list Z) : list (list Z) := components_from [] p.

(** ** Scanning a sequence of slots *)

Fixpoint scan_slots (name : list Z) (st : lfn_state) (slots : list slot) : scan_result :=
  match slots with
  | [] => Continue st
  | (l, p) :: rest =>
      match slot_step l p st name with
      | Continue st' => scan_slots name st' rest
      | r => r
      end
  end.

Definition found (r : scan_result) : option Entry := match r with Match e => Some e | _ => None end.

Lemma scan_slots_app name st s1 s2 :
  scan_slots name st (s1 ++ s2) =
    match scan_slots name st s1 with Continue st' => scan_slots name st' s2 | r => r end.
Proof.
  revert st; induction s1 as [|[l p] s1 IH]; intros st; [done|]. simpl.
  destruct (slot_step l p st name); [done|apply IH|done].
Qed.

Lemma scan_slots_parse name st slots :
  found (scan_slots name st slots) = first_named (parse st slots) name.
Proof.
  revert st; induction slots as [|[l p] slots IH]; intros st; [done|]. simpl.
  unfold slot_step. destruct (parse_slot l p st) as [|st' [de|]]; [done| |apply IH]. simpl.
  destruct (names de name); [done|apply IH].
Qed.

Lemma scan_sector_run l off k st name :
  sector_ok l → 0 ≤ off → off + 32 * Z.of_nat k ≤ 512 → lfn_wf st →
  scan_sector l off k st name = Some (scan_slots name st (slots_from l off k)) ∧
  (∀ st', scan_slots name st (slots_from l off k) = Continue st' → lfn_wf st').
Proof.
  intros Hl. revert off st; induction k as [|k IH]; intros off st Ho Hk Hw.
  { split; [done|]. by intros st' [= <-]. }
  destruct (scan_entry_run l off st Hl ltac:(lia) Hw name) as [E Hst].
  cbn [scan_sector slots_from scan_slots]. rewrite E. cbn [mbind option_bind].
  unfold slot_step in *. destruct (parse_slot l off st) as [|st' [de|]] eqn:Ep; [by split|..].
  - destruct (names de name); [by split|]. apply IH; [lia..|by eapply Hst].
  - apply IH; [lia..|by eapply Hst].
Qed.

Section Lookup.
Context {D : Type} `{BlockDevice D} {content : Z → list Z} {good : D → Prop}.
Context {LAWS : BlockDeviceLaws D content good}.
Context (m : Fat32Metadata) (disk_sectors : Z).
Context (GEO : geometry m disk_sectors) (SMALL : within_fat32 m).
Notation usable := (usable (good := good) disk_sectors).

Definition step_of (r : scan_result) : lookup_step :=
  match r with
  | EndOfDirectory => LookupDone None
  | Match e => LookupDone (Some e)
  | Continue st => LookupMore st
  end.

Lemma scan_cluster_run d c s k st name :
  usable d → valid_cluster m c = true → 0 ≤ s → s + Z.of_nat k ≤ sectors_per_cluster m →
  lfn_wf st →
  let sc := scan_slots name st (sector_slots content
    (data_start_sector m + (c - 2) * sectors_per_cluster m + s) k) in
  ∃ r d', scan_cluster m c s k st name d = Some (r, d') ∧ usable d' ∧
    (r = LookupDone None ∨ r = step_of sc) ∧ (reliable D good → r = step_of sc) ∧
    (∀ st', sc = Continue st' → lfn_wf st').
Proof.
  intros Hu Hv. pose proof (valid_range m disk_sectors GEO SMALL c Hv) as Hc.
  assert (cluster_count m ≤ 0x0FFFFFF5) as Hlim by exact SMALL.
  revert d s st Hu; induction k as [|k IH]; intros d s st Hu Hs Hk Hw.
  { eexists _, d. split; [done|]. split; [done|]. split; [by right|]. split; [done|].
    by intros st' [= <-]. }
  cbn [scan_cluster sector_slots]. rewrite scan_slots_app.
  destruct (cluster_arithmetic m disk_sectors c s) as (_ & _ & El & Hl & -> & Hin);
    [done|lia|done|lia|].
  rewrite <- El. set (lba := cluster_lba m c + s) in *.
  assert (0 ≤ lba < 2 ^ 32) as Hlba.
  { destruct GEO as (_ & _ & ? & ? & ? & Eds & Ht & ? & _).
    assert (0 ≤ num_fats m * sectors_per_fat m) by (apply Z.mul_nonneg_nonneg; lia). lia. }
  destruct (usable_read (LAWS := LAWS) disk_sectors d lba)
    as (r & d1 & E & Hu1 & Hr & Hrel); [done|lia|].
  destruct (scan_sector_run (content lba) 0 16 st name) as [Es Hst];
    [apply content_ok|lia|simpl; lia|done|].
  set (slots := slots_from (content lba) 0 16) in *.
  mstep E. destruct Hr as [->| ->].
  - eexists _, d1. split; [done|]. split; [done|]. split; [by left|].
    split; [intros Hr; by specialize (Hrel Hr Hin)|]. intros st'.
    destruct (scan_slots name st slots) as [|st1|] eqn:Esc; try done.
    destruct (IH d1 (s + 1) st1) as (_ & _ & _ & _ & _ & _ & Hw');
      [done|lia..|by apply Hst|]. rewrite Z.add_assoc, <- El in Hw'. apply Hw'.
  - rewrite Es. erewrite bind_checked by done.
    destruct (scan_slots name st slots) as [|st1|e] eqn:Esc;
      [by eexists _, d1; split_and!; auto| |by eexists _, d1; split_and!; auto].
    destruct (IH d1 (s + 1) st1) as (r2 & d2 & E2 & Hrest); [done|lia..|by apply Hst|].
    rewrite Z.add_assoc, <- El in Hrest. by exists r2, d2.
Qed.

Lemma scan_chain_run d c k st name :
  usable d → lfn_wf st →
  let res := found (scan_slots name st (chain_slots content m c k)) in
  ∃ r d', scan_chain m c k st name d = Some (r, d') ∧ usable d' ∧
    (r = None ∨ r = res) ∧ (reliable D good → fat_covers m → r = res).
Proof.
  revert d c st; induction k as [|k IH]; intros d c st Hu Hw; cbn [scan_chain chain_slots].
  { eexists None, d. by split_and!; auto. }
  rewrite <- (valid_cluster_link m disk_sectors GEO SMALL c).
  destruct (valid_cluster m c) eqn:Hv; cbn [negb]; [|by eexists None, d; split_and!; auto].
  pose proof (valid_range m disk_sectors GEO SMALL c Hv) as Hc.
  destruct (scan_cluster_run d c 0 (Z.to_nat (sectors_per_cluster m)) st name)
    as (r & d1 & E & Hu1 & Hr & Hrel & Hst);
    [done..|pose proof (cluster_bytes_pos m _ GEO); unfold cluster_bytes in *; lia|done|].
  rewrite Z.add_0_r in *. rewrite scan_slots_app. set (sc := scan_slots _ _ _) in *.
  mstep E. destruct Hr as [->| ->].
  { eexists None, d1. split_and!; auto. intros Hr _. specialize (Hrel Hr).
    by destruct sc. }
  destruct sc as [|st1|e]; cbn [step_of];
    [by eexists None, d1; split_and!; auto| |by eexists _, d1; split_and!; auto].
  unfold within_fat32 in SMALL.
  destruct (fat_word_entry (content := content) m disk_sectors GEO c) as [Ew Es]; [lia..|].
  destruct (fat_next_run (LAWS := LAWS) m disk_sectors d1 c Hu1)
    as (r & d2 & E2 & Hu2 & Hr & _ & Hrel2).
  mstep E2. rewrite Ew, Es in *. destruct Hr as [->| ->]; [|by apply IH; [|apply Hst]].
  eexists None, d2. split_and!; auto. intros Hr Hcov.
  by specialize (Hrel2 Hr (fat_sector_in_range m disk_sectors GEO c Hcov Hc)).
Qed.

Lemma lfn_init_wf : lfn_wf lfn_init.
Proof. done. Qed.

Lemma fat_lookup_run d c name :
  usable d →
  let res := look_up content m c name in
  ∃ r d', fat_lookup m c name d = Some (r, d') ∧ usable d' ∧
    (r = None ∨ r = res) ∧ (reliable D good → fat_covers m → r = res).
Proof.
  intros Hu res. unfold res, look_up, dir_entries. rewrite <- scan_slots_parse.
  by apply scan_chain_run.
Qed.
End Lookup.

(** ** Paths *)

Lemma components_skip p : components (skip_slashes p) = components p.
Proof.
  induction p as [|c p IH]; [done|]. simpl. case_match eqn:E; [|done].
  zbool. subst c. rewrite IH. done.
Qed.

Lemma components_end p : at_end p = true → components p = [].
Proof. destruct p as [|c p]; [done|]. simpl. unfold components. simpl. by intros ->. Qed.

Lemma components_from_split acc p name rest :
  split_component p = (name, rest) → acc ++ name ≠ [] →
  components_from acc p = (acc ++ name) :: components rest.
Proof.
  revert acc name; induction p as [|c p IH]; intros acc name Es Hn; simpl in Es.
  { simplify_eq. rewrite app_nil_r in *. by destruct acc. }
  destruct (Z.eqb_spec c 0) as [->|H0]; simpl in Es.
  { simplify_eq. rewrite app_nil_r in *. by destruct acc. }
  destruct (Z.eqb_spec c 47) as [->|H47]; simpl in Es.
  { simplify_eq. rewrite app_nil_r in *. by destruct acc. }
  destruct (split_component p) as [a b]. simplify_eq. cbn [components_from].
  rewrite (proj2 (Z.eqb_neq c 0)), (proj2 (Z.eqb_neq c 47)) by done.
  rewrite (IH (acc ++ [c]) a); [|done|by destruct acc]. by rewrite <- app_assoc.
Qed.

Lemma split_component_nonempty p name rest :
  split_component p = (name, rest) → at_end p = false → skip_slashes p = p →
  name ≠ [] ∧ (length rest < length p)%nat.
Proof.
  destruct p as [|c p]; [done|]. simpl. intros Es He Hs. rewrite He in Es.
  destruct (Z.eqb_spec c 47) as [->|].
  - exfalso. apply (f_equal length) in Hs. simpl in Hs.
    assert (length (skip_slashes p) ≤ length p)%nat; [|lia]. clear.
    induction p as [|c p IH]; [done|]. simpl. case_match; simpl; lia.
  - cbn [orb] in Es. destruct (split_component p) as [a b] eqn:Ep. simplify_eq. split; [done|].
    assert (length rest ≤ length p)%nat; [|lia]. clear -Ep. revert a Ep.
    induction p as [|c p IH]; intros a Ep; simpl in Ep; [by simplify_eq|].
    destruct ((c =? 0) || (c =? 47)); [by simplify_eq|].
    destruct (split_component p) as [a' b']. simplify_eq. specialize (IH a' eq_refl). simpl. lia.
Qed.

Lemma skip_slashes_idem p : skip_slashes (skip_slashes p) = skip_slashes p.
Proof. induction p as [|c p IH]; [done|]. simpl. case_match eqn:E; [done|]. simpl. by rewrite E. Qed.

Lemma skip_slashes_length p : (length (skip_slashes p) ≤ length p)%nat.
Proof. induction p as [|c p IH]; [done|]. simpl. case_match; simpl; lia. Qed.

Section Find.
Context {D : Type} `{BlockDevice D}.

(** The loop of [find], over the components. *)
Fixpoint find_comps (m : Fat32Metadata) (cur : Entry) (comps : list (list Z))
    : ST D (option Entry) :=
  match comps with
  | [] => mret (Some cur)
  | name :: rest =>
      if negb (entry_dir cur) then mret None
      else if kMaxNameLen <? Z.of_nat (length name) then mret None
      else
        r ← fat_lookup m
              (if first_cluster cur =? 0 then root_cluster m else first_cluster cur) name;
        match r with
        | None => mret None
        | Some e => find_comps m e rest
        end
  end.

Lemma ST_bind_ext {A B} (c : ST D A) (f g : A → ST D B) d :
  (∀ x d, f x d = g x d) → (c ≫= f) d = (c ≫= g) d.
Proof.
  intros Hfg. unfold mbind, ST_bind. destruct (c d) as [[x d']|]; [|done]. apply Hfg.
Qed.

Lemma find_loop_comps fuel m cur p d :
  (length p < fuel)%nat → find_loop fuel m cur p d = find_comps m cur (components p) d.
Proof.
  revert cur p d; induction fuel as [|fuel IH]; intros cur p d Hf; [lia|].
  cbn [find_loop]. rewrite <- components_skip. pose proof (skip_slashes_length p).
  destruct (at_end (skip_slashes p)) eqn:He; [by rewrite components_end|].
  destruct (split_component (skip_slashes p)) as [name rest] eqn:Es.
  destruct (split_component_nonempty _ _ _ Es He (skip_slashes_idem p)) as [Hn Hr].
  unfold components at 1. rewrite (components_from_split [] _ _ _ Es Hn). cbn [find_comps app].
  destruct (negb _); [done|]. destruct (_ <? _); [done|]. apply ST_bind_ext. intros [e|] d'; [|done].
  apply IH. lia.
Qed.

(** How a path is spelled does not matter: [find] depends only on the
    path's components, so leading, repeated and trailing slashes (and anything
    after the terminating NUL) are ignored, and the loop always terminates. *)
Theorem find_depends_on_components fs p q d :
  components p = components q → find fs (Some p) d = find fs (Some q) d.
Proof.
  intros E. unfold find. destruct (negb (valid_ fs)); [done|].
  unfold mbind, ST_bind. by rewrite !find_loop_comps, E by lia.
Qed.
End Find.

(** ** Entries are well formed *)

Definition entry_ok (e : Entry) : Prop := is_u32 (first_cluster e) ∧ is_u32 (entry_size e).

Definition slot_ok (s : slot) : Prop := sector_ok s.1 ∧ 0 ≤ s.2 ∧ s.2 + 32 ≤ 512.

Lemma entry_of_ok l p : sector_ok l → 0 ≤ p → p + 32 ≤ 512 → entry_ok (entry_of l p).
Proof.
  intros Hl H1 H2. unfold entry_ok, entry_of, is_u32; simpl.
  destruct (le16_field l (p + 20)) as [_ ?]; [done|lia..|].
  destruct (le16_field l (p + 26)) as [_ ?]; [done|lia..|].
  destruct (le32_field l (p + 28)) as [_ ?]; [done|lia..|]. lia.
Qed.

Lemma parse_ok st slots :
  Forall slot_ok slots → Forall (λ de, entry_ok (de_entry de)) (parse st slots).
Proof.
  intros Hs. revert st. induction Hs as [|[l p] slots (Hl & H1 & H2) _ IH]; intros st; [constructor|].
  cbn [parse]. unfold parse_slot. simpl in *.
  repeat case_match; simplify_eq; auto; constructor; auto; by apply entry_of_ok.
Qed.

Lemma first_named_ok des name e :
  Forall (λ de, entry_ok (de_entry de)) des → first_named des name = Some e → entry_ok e.
Proof.
  induction 1 as [|de des Hde _ IH]; [done|]. simpl. case_match; [|done]. by intros [= <-].
Qed.

Lemma slots_from_ok l p k :
  sector_ok l → 0 ≤ p → p + 32 * Z.of_nat k ≤ 512 → Forall slot_ok (slots_from l p k).
Proof.
  intros Hl. revert p; induction k as [|k IH]; intros p H1 H2; [constructor|]. simpl.
  constructor; [unfold slot_ok; simpl; split_and!; (done || lia)|apply IH; lia].
Qed.

Lemma chain_slots_ok content m c k :
  (∀ i, sector_ok (content i)) → Forall slot_ok (chain_slots content m c k).
Proof.
  intros Hc. revert c; induction k as [|k IH]; intros c; [constructor|]. simpl.
  case_match; [|constructor]. apply Forall_app. split; [|apply IH]. clear -Hc.
  generalize (data_start_sector m + (c - 2) * sectors_per_cluster m).
  induction (Z.to_nat (sectors_per_cluster m)) as [|n IH]; intros lba; [constructor|].
  cbn [sector_slots]. apply Forall_app. split; [|apply IH]. apply slots_from_ok; [done|lia..].
Qed.

Lemma lookup_entry_ok content m c name e :
  (∀ i, sector_ok (content i)) → look_up content m c name = Some e → entry_ok e.
Proof. intros Hc. apply first_named_ok, parse_ok, chain_slots_ok, Hc. Qed.

(** ** find *)

(** The handle for an entry of the volume. *)
Definition handle_for (fs : Fat32) (e : Entry) : File :=
  MkFile (Some fs)
    (if entry_dir e && (first_cluster e =? 0) then root_cluster (meta_ fs) else first_cluster e)
    (if entry_dir e then 0 else entry_size e) (entry_dir e) 0 0.

Definition root_entry (m : Fat32Metadata) : Entry := MkEntry (root_cluster m) 0 true.

Section FindTheorem.
Context {D : Type} `{BlockDevice D} {content : Z → list Z} {good : D → Prop}.
Context {LAWS : BlockDeviceLaws D content good}.
Context (fs : Fat32) (disk_sectors : Z).
Let m := meta_ fs.

Lemma find_comps_run d cur comps :
  geometry m disk_sectors → within_fat32 m →
  usable (good := good) disk_sectors d → entry_ok cur →
  let res := resolve (look_up content m) (root_cluster m) cur comps in
  ∃ r d', find_comps m cur comps d = Some (r, d') ∧ usable (good := good) disk_sectors d' ∧
    (r = None ∨ r = res) ∧ (∀ e, r = Some e → entry_ok e) ∧
    (reliable D good → fat_covers m → r = res).
Proof.
  intros GEO SMALL. revert d cur; induction comps as [|name comps IH]; intros d cur Hu Hok;
    cbn [find_comps resolve].
  { eexists _, d. split_and!; auto. by intros e [= <-]. }
  destruct (entry_dir cur); cbn [negb andb]; [|by eexists None, d; split_and!; auto].
  destruct (Z.ltb_spec kMaxNameLen (Z.of_nat (length name))) as [Hn|Hn].
  { rewrite (proj2 (Z.leb_gt _ _)) by done. by eexists None, d; split_and!; auto. }
  rewrite (proj2 (Z.leb_le _ _)) by done. set (dc := if first_cluster cur =? 0 then _ else _).
  destruct (fat_lookup_run (LAWS := LAWS) m disk_sectors GEO SMALL d dc name Hu)
    as (r & d1 & E & Hu1 & Hr & Hrel). mstep E.
  destruct r as [e|].
  - destruct Hr as [|Hr]; [done|]. rewrite <- Hr. apply IH; [done|].
    eapply lookup_entry_ok; [|done]. intros i. apply (content_ok (LAWS := LAWS)).
  - eexists None, d1. split_and!; [done|done|by left|done|]. intros H1 H2. by rewrite <- (Hrel H1 H2).
Qed.

Lemma handle_for_ok e :
  geometry m disk_sectors → within_fat32 m → entry_ok e →
  file_ok content m (handle_for fs e).
Proof.
  intros (_ & _ & _ & _ & _ & _ & _ & _ & _ & Hroot & _) Hs [H1 H2].
  unfold within_fat32 in Hs. unfold file_ok, is_u32 in *; simpl. fold m. split_and!; try done; repeat case_match; lia.
Qed.

Lemma find_run d p :
  geometry m disk_sectors → within_fat32 m → valid_ fs = true →
  usable (good := good) disk_sectors d →
  let res := resolve (look_up content m) (root_cluster m) (root_entry m) (components p) in
  ∃ f d', find fs (Some p) d = Some (f, d') ∧ usable (good := good) disk_sectors d' ∧
    (f = no_file ∨ f = from_option (handle_for fs) no_file res) ∧
    (fs_ f = Some fs → file_ok content m f) ∧
    (reliable D good → fat_covers m → f = from_option (handle_for fs) no_file res).
Proof.
  intros GEO SMALL Hv Hu res. unfold find. rewrite Hv. cbn [negb]. fold m.
  assert (entry_ok (root_entry m)) as Hroot.
  { destruct GEO as (_ & _ & _ & _ & _ & _ & _ & _ & _ & Hroot & _).
    unfold within_fat32 in SMALL. unfold entry_ok, is_u32; simpl. lia. }
  destruct (find_comps_run d (root_entry m) (components p)) as (r & d' & E & Hu' & Hr & Hok & Hrel);
    [done..|]. rewrite <- find_loop_comps with (fuel := S (length p)) in E by lia.
  mstep E. exists (from_option (handle_for fs) no_file r), d'. fold res in Hr, Hrel.
  split; [by destruct r|]. split; [done|]. split; [destruct Hr as [->| ->]; auto|].
  split; [|intros H1 H2; by rewrite (Hrel H1 H2)].
  intros _. destruct r as [e|]; simpl; [by apply handle_for_ok, Hok|].
  unfold file_ok, no_file; simpl. unfold is_u32. split_and!; (lia || done).
Qed.
End FindTheorem.

(** ** Case *)

(** Equal up to case. *)
Definition caseless (a b : list Z) : Prop := upper <$> a = upper <$> b.

#[export] Instance caseless_equivalence : Equivalence caseless.
Proof. split; unfold caseless; intros ?; [done|by intros ?|intros ??; congruence]. Qed.

#[export] Instance equal_nocase_proper : Proper (caseless ==> caseless ==> eq) equal_nocase.
Proof.
  intros a a' Ha b b' Hb. rewrite !equal_nocase_same. unfold same_name.
  apply bool_decide_ext. unfold caseless in *. by rewrite Ha, Hb.
Qed.

(** Two runs that differ in the name only take the same branches. *)
Ltac same_branches H :=
  repeat first
    [ reflexivity
    | rewrite (equal_nocase_proper _ _ (reflexivity _) _ _ H)
    | apply option_bind_ext; [intros ?|]
    | match goal with |- context [if ?b then _ else _] => destruct b end ].

#[export] Instance scan_entry_proper l p st : Proper (caseless ==> eq) (scan_entry l p st).
Proof. intros a b Hab. unfold scan_entry, scan_short, short_matches. same_branches Hab. Qed.

#[export] Instance scan_sector_proper l p k st : Proper (caseless ==> eq) (scan_sector l p k st).
Proof.
  intros a b Hab. revert p st; induction k as [|k IH]; intros p st; [done|]. cbn [scan_sector].
  rewrite (scan_entry_proper l p st a b Hab). apply option_bind_ext_fun. intros []; auto.
Qed.

Section Case.
Context {D : Type} `{BlockDevice D}.

Lemma scan_cluster_caseless m c s k st (d : D) a b :
  caseless a b → scan_cluster m c s k st a d = scan_cluster m c s k st b d.
Proof.
  intros Hab. revert s st d; induction k as [|k IH]; intros s st d; [done|]. cbn [scan_cluster].
  apply ST_bind_ext. intros [l|] d'; [|done]. rewrite (scan_sector_proper l 0 16 st a b Hab).
  apply ST_bind_ext. intros [] ?; auto.
Qed.

Lemma fat_lookup_caseless m c (d : D) a b :
  caseless a b → fat_lookup m c a d = fat_lookup m c b d.
Proof.
  intros Hab. unfold fat_lookup. generalize (Z.to_nat (cluster_count m + 1)) lfn_init.
  intros k. revert c d. induction k as [|k IH]; intros c d st; [done|]. cbn [scan_chain].
  destruct (negb (valid_cluster m c)); [done|]. unfold mbind, ST_bind at 1 3.
  rewrite (scan_cluster_caseless m c 0 _ st d a b Hab).
  destruct (scan_cluster _ _ _ _ _ _ _) as [[[|st'] d']|]; [done| |done].
  apply (ST_bind_ext (fat_next m c)). intros [c'|] d''; [apply IH|done].
Qed.

Lemma upper_special c x : ¬ (97 ≤ x ≤ 122) → ¬ (65 ≤ x ≤ 90) → upper c = x ↔ c = x.
Proof.
  intros H1 H2. unfold upper, u8. destruct (_ && _) eqn:E; [|done]. zbool.
  rewrite Z.mod_small by lia. lia.
Qed.

Lemma caseless_app a a' b b' : caseless a b → caseless a' b' → caseless (a ++ a') (b ++ b').
Proof. unfold caseless. rewrite !fmap_app. by intros -> ->. Qed.

Lemma flush_caseless acc acc' :
  caseless acc acc' →
  Forall2 caseless (match acc with [] => [] | _ => [acc] end)
    (match acc' with [] => [] | _ => [acc'] end).
Proof. destruct acc, acc'; try done. intros Ha. by constructor. Qed.

Lemma components_caseless acc acc' p q :
  caseless acc acc' → caseless p q →
  Forall2 caseless (components_from acc p) (components_from acc' q).
Proof.
  revert acc acc' q; induction p as [|c p IH]; intros acc acc' [|c' q] Ha Hpq; try done.
  { by apply flush_caseless. }
  injection Hpq as Hc Hpq. cbn [components_from].
  assert (∀ x, x = 0 ∨ x = 47 → (c' =? x) = (c =? x)) as Hx.
  { intros x Hx. pose proof (upper_special c x) as E. pose proof (upper_special c' x) as E'.
    rewrite Hc in E. destruct (Z.eqb_spec c x), (Z.eqb_spec c' x); intuition lia. }
  rewrite !Hx by auto. destruct (c =? 0); [by apply flush_caseless|]. destruct (c =? 47).
  - destruct acc, acc'; try done; [by apply IH|]. constructor; [done|by apply IH].
  - apply IH; [|done]. apply caseless_app; [done|]. unfold caseless. by rewrite !fmap_cons, Hc.
Qed.

Lemma find_comps_caseless m cur (d : D) cs cs' :
  Forall2 caseless cs cs' → find_comps m cur cs d = find_comps m cur cs' d.
Proof.
  intros HF. revert cur d; induction HF as [|a b cs cs' Hab _ IH]; intros cur d; [done|].
  cbn [find_comps]. destruct (negb (entry_dir cur)); [done|].
  assert (length a = length b) as ->.
  { apply (f_equal length) in Hab. by rewrite !length_fmap in Hab. }
  destruct (_ <? _); [done|]. unfold mbind, ST_bind.
  rewrite (fat_lookup_caseless m _ d a b Hab). destruct (fat_lookup _ _ _ _) as [[[]]|]; auto.
Qed.

(** Lookups are case-insensitive: two paths that differ only in the case
    of ASCII letters give the same handle (and make the same disk accesses). *)
Theorem find_case_insensitive fs p q (d : D) :
  caseless p q → find fs (Some p) d = find fs (Some q) d.
Proof.
  intros Hpq. unfold find. destruct (negb (valid_ fs)); [done|]. unfold mbind, ST_bind.
  rewrite !find_loop_comps by lia. unfold components.
  by rewrite (find_comps_caseless _ _ _ _ _ (components_caseless [] [] p q (reflexivity _) Hpq)).
Qed.
End Case.

(** ** On the image *)

(** "/data.bin" and "//DATA.BIN/". *)
Definition path_data : list Z := [47; 100; 97; 116; 97; 46; 98; 105; 110].
Definition path_DATA : list Z := [47; 68; 65; 84; 65; 46; 66; 73; 78].
Definition path_slashes : list Z := [47; 47; 100; 97; 116; 97; 46; 98; 105; 110; 47].

Lemma find_depends_on_components_witness :
  components path_slashes = components path_data ∧
  find image_fs (Some path_slashes) image = find image_fs (Some path_data) image.
Proof. split; [reflexivity|]. apply find_depends_on_components. reflexivity. Defined.

Lemma find_case_insensitive_witness :
  caseless path_DATA path_data ∧
  find image_fs (Some path_DATA) image = find image_fs (Some path_data) image.
Proof. split; [reflexivity|]. apply find_case_insensitive. reflexivity. Defined.

(** A long name with a character outside ASCII is kept as '?', which a caller
    can spell: the entry whose long name is one such character is found under
    the name "?". *)
Definition accented_sector : list Z :=
  patch 0 [0x41; 0xE9; 0; 0; 0; 255; 255; 255; 255; 255; 255; 0x0F; 0; 65; 255; 255;
           255; 255; 255; 255; 255; 255; 255; 255; 255; 255; 0; 0; 255; 255; 255; 255] $
  patch 32 [69; 126; 49; 32; 32; 32; 32; 32; 32; 32; 32; 0x20; 0; 0; 0; 0;
            0; 0; 0; 0; 0; 0; 0; 0; 0; 0; 9; 0; 1; 0; 0; 0] zero_sector.

Example question_mark_matches :
  scan_sector accented_sector 0 16 lfn_init [63] = Some (Match (MkEntry 9 1 false)).
Proof. vm_compute. reflexivity. Qed.
