(* ===== verification/Fat32Spec.v ===== *)
(** * Directories as the FAT32 format defines them

    The abstract file system, over what is on the disk and without the driver's
    buffers: a directory is a list of [item]s, each with its short name, the
    UTF-16 units of its long name if it has one, and its entry; a name is borne
    by an item if it spells the item's long name, in ASCII, or its short name,
    up to the case of letters; a path is followed one component at a time.

    [find] implements this for every path without a '?', the character the
    driver puts for a unit it cannot represent (see [question_mark_matches] in
    Fat32Lookup.v for what happens with it). *)

From S2P Require Import Prelude Arrays BlockDev Fat32 RamDisk Fat32Mount Fat32Read Fat32Dir Fat32Lookup.

Local Open Scope machine_scope.

(** ** Long names *)

(** [n] UTF-16 units from byte [p] on. *)
Definition units_at (l : list Z) (p : Z) (n : nat) : list Z :=
  (λ i, field l (p + 2 * Z.of_nat i) 2) <$> seq 0 n.

(** The units of a long-name slot lie in three fields. *)
Definition slot_units (l : list Z) (p : Z) : list Z :=
  units_at l (p + 1) 5 ++ units_at l (p + 14) 6 ++ units_at l (p + 28) 2.

(** The long name of an entry to come: its pieces, in the order of the name, and
    the checksum of the short name it goes with.  A piece that is missing is
    empty, that is, full of terminators. *)
Record pending := Pending { run_pieces : list (list Z); run_sum : Z }.

Definition no_piece : list Z := replicate 13 0.

Definition put_piece (l : list Z) (p : Z) (run : pending) : pending :=
  Pending (<[Z.to_nat (byte l p mod 64 - 1) := slot_units l p]> (run_pieces run)) (run_sum run).

(** A long-name slot: the mark 0x40 begins a name of as many pieces as its
    ordinal says, any other piece must go with the name begun before it. *)
Definition piece_slot (l : list Z) (p : Z) (run : option pending) : option pending :=
  let seq := byte l p mod 64 in
  if decide (1 ≤ seq ≤ 20) then
    if Z.testbit (byte l p) 6
    then Some (put_piece l p (Pending (replicate (Z.to_nat seq) no_piece) (byte l (p + 13))))
    else r ← run; if decide (run_sum r = byte l (p + 13)) then Some (put_piece l p r) else None
  else None.

(** A name ends at the first 0x0000 or 0xFFFF. *)
Fixpoint until_end (us : list Z) : list Z :=
  match us with
  | [] => []
  | u :: r => if decide (u = 0 ∨ u = 0xFFFF) then [] else u :: until_end r
  end.

(** The long name of the entry at [p]: the one that was begun, if it carries the
    checksum of this entry's short name. *)
Definition long_name (l : list Z) (p : Z) (run : option pending) : option (list Z) :=
  r ← run;
  if decide (checksum_of (bytes_at l p 11) = run_sum r)
  then Some (until_end (concat (run_pieces r))) else None.

(** ** Directories *)

Record item := Item {
  item_long : option (list Z);
  item_short : list Z;
  item_entry : Entry;
}.

(** First byte 0 ends the directory and 0xE5 is a deleted slot; attribute 0x0F is
    a long-name slot and bit 3 a volume label; the rest are entries. *)
Fixpoint items (run : option pending) (slots : list slot) : list item :=
  match slots with
  | [] => []
  | (l, p) :: rest =>
      if decide (byte l p = 0) then []
      else if decide (byte l p = 0xE5) then items None rest
      else if decide (byte l (p + 11) = 0x0F) then items (piece_slot l p run) rest
      else if Z.testbit (byte l (p + 11)) 3 then items None rest
      else Item (long_name l p run) (short_name_of l p) (entry_of l p) :: items None rest
  end.

(** Letters without their case. *)
Definition fold_case (c : Z) : Z := if decide (97 ≤ c ≤ 122) then c - 32 else c.

Definition same_letters (a b : list Z) : Prop := fold_case <$> a = fold_case <$> b.

(** A name spells a long name that is all ASCII. *)
Definition spells (name us : list Z) : Prop := Forall (λ u, u < 0x80) us ∧ same_letters us name.

Definition bears (it : item) (name : list Z) : Prop :=
  match item_long it with Some us => spells name us | None => False end ∨
  same_letters (item_short it) name.

#[export] Instance same_letters_dec a b : Decision (same_letters a b).
Proof. unfold same_letters. apply _. Defined.

#[export] Instance bears_dec it name : Decision (bears it name).
Proof. unfold bears, spells. destruct (item_long it); apply _. Defined.

(** The first item that bears the name, in the directory that starts at cluster
    [c] of the volume. *)
Fixpoint bearer (its : list item) (name : list Z) : option Entry :=
  match its with
  | [] => None
  | it :: rest => if decide (bears it name) then Some (item_entry it) else bearer rest name
  end.

Definition directory (content : Z → list Z) (m : Fat32Metadata) (c : Z) (name : list Z) : option Entry :=
  bearer (items None (chain_slots content m c (Z.to_nat (cluster_count m + 1)))) name.

(** Where a path leads from the root. *)
Definition path_entry (content : Z → list Z) (m : Fat32Metadata) (p : list Z) : option Entry :=
  resolve (directory content m) (root_cluster m) (root_entry m) (components p).

(** ** The driver's buffer holds the name *)

Lemma slot_units_offsets l p : slot_units l p = piece_units l p.
Proof.
  unfold slot_units, units_at, piece_units, kOffsets. cbn [fmap list_fmap seq app].
  repeat (apply (f_equal2 cons); [f_equal; lia|]). done.
Qed.

Lemma slot_units_length l p : length (slot_units l p) = 13%nat.
Proof. done. Qed.

Definition pieces_wf (ps : list (list Z)) : Prop := Forall (λ q, length q = 13%nat) ps.

Lemma concat_length ps : pieces_wf ps → length (concat ps) = (13 * length ps)%nat.
Proof.
  induction 1 as [|q ps Hq _ IH]; [done|]. simpl. rewrite length_app, IH, Hq. lia.
Qed.

(** Replacing a piece replaces its 13 units. *)
Lemma concat_put ps k us :
  pieces_wf ps → (k < length ps)%nat →
  concat (<[k := us]> ps) = take (13 * k) (concat ps) ++ us ++ drop (13 * k + 13) (concat ps).
Proof.
  intros Hps. revert k. induction Hps as [|q ps Hq Hps IH]; intros k Hk; [simpl in Hk; lia|].
  destruct k as [|k]; cbn [insert list_insert concat].
  - rewrite Nat.mul_0_r, take_0, drop_app_ge, Hq by lia. by rewrite Nat.sub_diag, drop_0.
  - change (list_insert k us ps) with (<[k := us]> ps).
    simpl in Hk. rewrite IH by lia. rewrite take_app_ge, drop_app_ge, Hq by lia.
    rewrite <- app_assoc. repeat f_equal; lia.
Qed.

(** What the driver's state says of the name begun. *)
Definition tracks_run (st : lfn_state) (run : option pending) : Prop :=
  match run with
  | None => lfn_ok st = false
  | Some r =>
      lfn_ok st = true ∧ lfn_checksum st = run_sum r ∧ pieces_wf (run_pieces r) ∧
      lfn_len st = 13 * Z.of_nat (length (run_pieces r)) ∧
      take (Z.to_nat (lfn_len st)) (lfn st) = lfn_char <$> concat (run_pieces r)
  end.

Lemma add_piece_tracks l p st r :
  lfn_wf st → tracks_run st (Some r) → 1 ≤ byte l p mod 64 ≤ 20 →
  tracks_run (add_piece l p (byte l p mod 64) st) (Some (put_piece l p r)).
Proof.
  intros [Hlen _] (Hok & Hsum & Hps & Hn & Hb) Hseq. set (seq := byte l p mod 64) in *.
  unfold tracks_run, put_piece, add_piece. cbn [lfn lfn_ok lfn_len lfn_checksum run_pieces run_sum].
  fold seq. rewrite <- slot_units_offsets. set (k := Z.to_nat (seq - 1)).
  split; [done|]. split; [done|].
  split; [apply Forall_insert; [done|apply slot_units_length]|]. rewrite length_insert. split; [done|].
  replace (Z.to_nat ((seq - 1) * 13)) with (13 * k)%nat by lia.
  rewrite Hn in *. replace (Z.to_nat (13 * Z.of_nat (length (run_pieces r))))
    with (13 * length (run_pieces r))%nat in * by lia.
  set (n := length (run_pieces r)) in *. set (us := slot_units l p).
  assert (length us = 13%nat) as Hus by apply slot_units_length.
  destruct (decide (k < n)%nat) as [Hk|Hk].
  - rewrite concat_put by done. rewrite !fmap_app, fmap_take, fmap_drop, <- Hb.
    rewrite take_app_ge by (rewrite length_take; lia). rewrite take_take, length_take.
    f_equal; [f_equal; lia|]. rewrite take_app_ge by (rewrite length_fmap; lia). f_equal.
    rewrite length_fmap, Hus, skipn_firstn_comm. f_equal. lia.
  - rewrite list_insert_ge by lia. rewrite take_app_le by (rewrite length_take; lia).
    rewrite take_take, <- Hb. f_equal. lia.
Qed.

Lemma parse_lfn_tracks l p st run :
  lfn_wf st → tracks_run st run → tracks_run (parse_lfn l p st) (piece_slot l p run).
Proof.
  intros Hw Ht. unfold parse_lfn, piece_slot. set (seq := byte l p mod 64).
  case_decide as Hs.
  2:{ replace (_ || _) with true; [done|]. symmetry. apply orb_true_iff.
      rewrite Z.eqb_eq, Z.ltb_lt. assert (0 ≤ seq) by (apply Z.mod_pos_bound; lia). lia. }
  rewrite (proj2 (Z.eqb_neq seq 0)), (proj2 (Z.ltb_ge 20 seq)) by lia. cbn [orb].
  destruct (Z.testbit (byte l p) 6).
  - apply add_piece_tracks; [split; simpl; [done|lia]| |done]. unfold tracks_run.
    cbn [lfn lfn_ok lfn_len lfn_checksum run_pieces run_sum].
    assert (pieces_wf (replicate (Z.to_nat seq) no_piece)) as Hps by by apply Forall_replicate.
    split; [done|]. split; [done|]. split; [done|]. rewrite length_replicate. split; [lia|].
    replace (Z.to_nat (seq * 13)) with (13 * Z.to_nat seq)%nat by lia.
    rewrite take_replicate. replace (_ `min` _)%nat with (13 * Z.to_nat seq)%nat by lia.
    generalize (Z.to_nat seq). clear. induction n as [|n IH]; [done|].
    cbn [replicate concat]. rewrite fmap_app, <- IH. unfold no_piece.
    rewrite fmap_replicate. change (lfn_char 0) with 0. rewrite <- replicate_add. f_equal. lia.
  - destruct run as [r|]; cbn [mbind option_bind].
    + pose proof Ht as (Hok & Hsum & _). rewrite Hok, Hsum. cbn [andb].
      destruct (Z.eqb_spec (byte l (p + 13)) (run_sum r)) as [E|E].
      * rewrite decide_True by done. by apply add_piece_tracks.
      * by rewrite decide_False by done.
    + simpl in Ht. by rewrite Ht.
Qed.

(** ** Names *)

Lemma fold_case_upper c : upper c = fold_case c.
Proof.
  unfold upper, fold_case, u8. destruct (Z.leb_spec 97 c), (Z.leb_spec c 122); simpl;
    [rewrite decide_True by lia; dlia|rewrite decide_False by lia; done..].
Qed.

Lemma same_name_letters a b : same_name a b = bool_decide (same_letters a b).
Proof.
  unfold same_name, same_letters. apply bool_decide_ext.
  by rewrite !(list_fmap_ext upper fold_case) by (intros; apply fold_case_upper).
Qed.

Lemma before_units us : before 0 (lfn_char <$> us) = lfn_char <$> until_end us.
Proof.
  induction us as [|u us IH]; [done|]. cbn [fmap list_fmap before until_end].
  destruct (decide (u = 0)) as [->|H0]; [done|]. destruct (decide (u = 0xFFFF)) as [->|Hf]; [done|].
  rewrite decide_False by lia. cbn [fmap list_fmap]. rewrite IH.
  rewrite (proj2 (Z.eqb_neq (lfn_char u) 0)); [done|]. unfold lfn_char.
  rewrite (proj2 (Z.eqb_neq u _)) by done. by case_match.
Qed.

Lemma until_end_units us : Forall (λ u, u ≠ 0xFFFF) (until_end us).
Proof. induction us as [|u us IH]; [constructor|]. simpl. case_decide; constructor; auto. Qed.

(** Without a '?' in it, a name matches the driver's rendering of a long name
    exactly if it spells the long name. *)
Lemma rendered_spells us name :
  Forall (λ u, u ≠ 0xFFFF) us → 63 ∉ name →
  same_letters (lfn_char <$> us) name ↔ spells name us.
Proof.
  unfold spells, same_letters. intros Hus. revert name.
  induction Hus as [|u us Hu _ IH]; intros [|c name] Hq; try (by split; [|intros []]).
  apply not_elem_of_cons in Hq as [Hc Hq]. specialize (IH name Hq). cbn [fmap list_fmap].
  assert (fold_case (lfn_char u) = fold_case c ↔ u < 0x80 ∧ fold_case u = fold_case c) as Hhd.
  { unfold lfn_char. rewrite (proj2 (Z.eqb_neq u _)) by done. destruct (Z.ltb_spec u 0x80); [tauto|].
    split; [|lia]. unfold fold_case. case_decide; case_decide; lia. }
  rewrite Forall_cons. split.
  - intros [= E1 E2]. apply Hhd in E1 as [? ->]. apply IH in E2 as [? ->]. done.
  - intros [[H1 H2] [= E1 E2]]. f_equal; [by apply Hhd|by apply IH].
Qed.

(** The driver's reading of a run of slots finds what the format says. *)
Lemma parse_items name st run slots :
  63 ∉ name → lfn_wf st → tracks_run st run → Forall slot_ok slots →
  first_named (parse st slots) name = bearer (items run slots) name.
Proof.
  intros Hq Hw Ht Hs. revert st run Hw Ht.
  induction Hs as [|[l p] slots (Hl & Hp) _ IH]; intros st run Hw Ht; [done|]. simpl in Hl, Hp.
  pose proof (proj2 (scan_entry_run l p st Hl Hp Hw name)) as Hst. revert Hst.
  cbn [parse items]. unfold parse_slot.
  destruct (Z.eqb_spec (byte l p) 0); [by rewrite decide_True|rewrite decide_False by done].
  destruct (Z.eqb_spec (byte l p) 0xE5);
    [rewrite decide_True by done|rewrite decide_False by done].
  { intros Hst. apply IH; [by eapply Hst|done]. }
  unfold kAttrLfn.
  destruct (Z.eqb_spec (byte l (p + 11)) 0x0F);
    [rewrite decide_True by done|rewrite decide_False by done].
  { intros Hst. apply IH; [by eapply Hst|by apply parse_lfn_tracks]. }
  destruct (Z.testbit (byte l (p + 11)) 3); intros Hst.
  { apply IH; [by eapply Hst|done]. }
  cbn [first_named bearer item_entry de_entry parse_short].
  assert (names (parse_short l p st) name ↔
          bears (Item (long_name l p run) (short_name_of l p) (entry_of l p)) name) as Hn.
  { unfold names, bears, parse_short. cbn [de_long de_short item_long item_short].
    rewrite orb_True, same_name_letters, bool_decide_spec. apply or_iff_compat_r. unfold long_name.
    destruct run as [r|]; cbn [mbind option_bind]; [|by rewrite Ht].
    destruct Ht as (-> & -> & _ & _ & Hb). cbn [andb].
    destruct (Z.eqb_spec (checksum_of (bytes_at l p 11)) (run_sum r)) as [E|E];
      [rewrite decide_True by done|by rewrite decide_False by done].
    rewrite Hb, before_units, same_name_letters, bool_decide_spec.
    apply rendered_spells; [apply until_end_units|done]. }
  destruct (names _ _); case_decide as Hd; [done|by destruct Hd; apply Hn|by apply Hn in Hd|].
  apply IH; [by eapply Hst|done].
Qed.

Lemma resolve_ext look look' root cur comps :
  (∀ c name, name ∈ comps → look c name = look' c name) →
  resolve look root cur comps = resolve look' root cur comps.
Proof.
  revert cur. induction comps as [|name comps IH]; intros cur Hl; [done|]. cbn [resolve].
  case_match; [|done]. rewrite Hl by left. destruct (look' _ _) as [e|]; [|done]. simpl.
  apply IH. intros c n Hn. apply Hl. by right.
Qed.

Lemma components_chars acc p name x :
  name ∈ components_from acc p → x ∈ name → x ∈ acc ∨ x ∈ p.
Proof.
  revert acc. induction p as [|c p IH]; intros acc; cbn [components_from].
  { destruct acc; [by intros ?%elem_of_nil|]. intros ->%list_elem_of_singleton. auto. }
  assert (name ∈ (match acc with [] => [] | _ => [acc] end : list (list Z)) → x ∈ name → x ∈ acc ∨ x ∈ c :: p)
    as Hflush.
  { destruct acc; [by intros ?%elem_of_nil|]. intros ->%list_elem_of_singleton. auto. }
  destruct (c =? 0); [exact Hflush|]. destruct (c =? 47).
  - destruct acc as [|a acc].
    + intros Hn Hx. destruct (IH _ Hn Hx) as [?%elem_of_nil|]; [done|]. right. by right.
    + intros [->|Hn]%elem_of_cons Hx; [by left|]. destruct (IH _ Hn Hx) as [?%elem_of_nil|]; [done|].
      right. by right.
  - intros Hn Hx. destruct (IH _ Hn Hx) as [[?|?%list_elem_of_singleton]%elem_of_app|]; [by left| |].
    + right. subst. left.
    + right. by right.
Qed.

(** What [find] follows is the path of the format. *)
Lemma resolve_path content m p :
  (∀ i, sector_ok (content i)) → 63 ∉ p →
  resolve (look_up content m) (root_cluster m) (root_entry m) (components p) = path_entry content m p.
Proof.
  intros Hc Hq. apply resolve_ext. intros c name Hn. unfold look_up, directory, dir_entries.
  apply parse_items; [|done|done|by apply chain_slots_ok]. intros Hx.
  by destruct (components_chars [] p name 63 Hn Hx) as [?%elem_of_nil|].
Qed.

Section FindSpec.
Context {D : Type} `{BlockDevice D} {content : Z → list Z} {good : D → Prop}.
Context {LAWS : BlockDeviceLaws D content good}.
Context (fs : Fat32) (disk_sectors : Z).
Let m := meta_ fs.

(** C3: [find] implements path resolution over the directories on the disk, as
    the FAT32 format defines them.  On a mounted volume within FAT32's cluster
    limit, whatever the disk holds, [find] of a path without '?' returns without
    leaving its arrays; the handle it returns is invalid, or the handle of
    exactly the entry the path leads to, with a consistent cache, so that [read]
    may be applied to it.  On a device that completes its reads (and a FAT that
    covers the volume) it finds the entry whenever there is one. *)
Theorem find_refines_resolve d p :
  geometry m disk_sectors → within_fat32 m → valid_ fs = true →
  usable (good := good) disk_sectors d → 63 ∉ p →
  let res := path_entry content m p in
  ∃ f d', find fs (Some p) d = Some (f, d') ∧ usable (good := good) disk_sectors d' ∧
    (f = no_file ∨ f = from_option (handle_for fs) no_file res) ∧
    (fs_ f = Some fs → file_ok content m f) ∧
    (reliable D good → fat_covers m → f = from_option (handle_for fs) no_file res).
Proof.
  intros GEO LIM Hv Hu Hq res. unfold res.
  rewrite <- (resolve_path content m p (content_ok (LAWS := LAWS)) Hq).
  by apply find_run.
Qed.
End FindSpec.

Lemma find_refines_resolve_witness :
  ∃ d', find image_fs (Some path_data) image = Some (image_file, d') ∧ d' = image.
Proof.
  destruct (find_refines_resolve (LAWS := ram_laws image) image_fs 16 image path_data)
    as (f & d' & E & (Hd & _) & _ & _ & Hf);
    [exact image_geometry|unfold within_fat32; simpl; lia|reflexivity|exact image_usable|
     apply (bool_decide_unpack _); reflexivity|].
  exists d'. split; [|exact Hd]. rewrite E, Hf;
    [vm_compute; reflexivity|apply ram_reliable|unfold fat_covers; simpl; lia].
Defined.

(** Only the mark's '?' is special: a long name in ASCII is borne by its
    spellings, one with other characters by no name. *)
Example accented_item :
  items None (slots_from accented_sector 0 16) = [Item (Some [0xE9]) [69; 126; 49] (MkEntry 9 1 false)] ∧
  bearer (items None (slots_from accented_sector 0 16)) [63] = None.
Proof. vm_compute. by split. Qed.
