(* ===== verification/Fat32LongName.v ===== *)
(** * Long file names: what an encoder writes, lookup finds

    [encode] is the on-disk form of a long name (the FAT specification's, as
    the comments of Fat32::lookup describe it): pieces of 13 UTF-16 units, last
    piece first, the first one marked, each with the checksum of the short name
    that follows.  A name written this way before its short entry is found
    under any spelling of its case, wherever it lies in the directory: across
    sectors and clusters, after deleted slots and stale pieces. *)

From S2P Require Import Prelude Arrays BlockDev Fat32 RamDisk Fat32Mount Fat32Read Fat32Dir Fat32Lookup.

(** ** The encoder *)

(** The name's units, terminated and padded. *)
Definition padded (name : list Z) : list Z := name ++ 0 :: replicate 13 0xFFFF.

(** Piece [s + 1] of the name. *)
Definition piece (name : list Z) (s : nat) : list Z := take 13 (drop (13 * s) (padded name)).

Definition utf16 (us : list Z) : list Z := us ≫= le_bytes 2.

Definition lfn_bytes (ord sum : Z) (us : list Z) : list Z :=
  [ord] ++ utf16 (take 5 us) ++ [kAttrLfn; 0; sum] ++ utf16 (take 6 (drop 5 us)) ++ [0; 0] ++
  utf16 (take 2 (drop 11 us)).

(** The pieces [n .. 1]; the first of them carries the mark when [last]. *)
Fixpoint encode_from (name : list Z) (sum : Z) (n : nat) (last : bool) : list (list Z) :=
  match n with
  | O => []
  | S s => lfn_bytes (Z.of_nat n + (if last then 64 else 0)) sum (piece name s)
             :: encode_from name sum s false
  end.

Definition pieces (name : list Z) : nat := ((length name + 12) / 13)%nat.

Definition encode (name : list Z) (sum : Z) : list (list Z) :=
  encode_from name sum (pieces name) true.

(** The slots hold these bytes. *)
Definition holds (s : slot) (bytes : list Z) : Prop := bytes_at s.1 s.2 32 = bytes.

(** A name the driver can spell: 1 to 255 ASCII characters, none of them NUL. *)
Definition spellable (name : list Z) : Prop :=
  (1 ≤ length name ≤ 255)%nat ∧ Forall (λ c, 1 ≤ c < 128) name.

(** A slot that is an entry: in use, neither an LFN piece nor a label. *)
Definition entry_slot (s : slot) : Prop :=
  byte s.1 s.2 ≠ 0 ∧ byte s.1 s.2 ≠ 0xE5 ∧ byte s.1 (s.2 + 11) ≠ kAttrLfn ∧
  Z.testbit (byte s.1 (s.2 + 11)) 3 = false.

(** ** Decoding a piece *)

Lemma bytes_at_byte l p n i :
  0 ≤ p → 0 ≤ i < Z.of_nat n → byte l (p + i) = default 0 (bytes_at l p n !! Z.to_nat i).
Proof.
  intros Hp Hi. unfold byte, bytes_at. rewrite lookup_take_lt, lookup_drop by lia.
  do 2 f_equal. lia.
Qed.

Lemma bytes_at_field l p n o k :
  0 ≤ p → 0 ≤ o → o + Z.of_nat k ≤ Z.of_nat n →
  field l (p + o) k = le_value (take k (drop (Z.to_nat o) (bytes_at l p n))).
Proof.
  intros Hp Ho Hk. unfold field, bytes_at. rewrite skipn_firstn_comm, take_take, drop_drop.
  f_equal. f_equal; [lia|]. f_equal. lia.
Qed.

Lemma le_value_pair u : is_u16 u → le_value [u mod 256; u / 256 mod 256] = u.
Proof. unfold is_u16. intros Hu. simpl. dlia. Qed.

Lemma lfn_bytes_decode l p ord sum us :
  0 ≤ p → bytes_at l p 32 = lfn_bytes ord sum us → length us = 13%nat → Forall is_u16 us →
  byte l p = ord ∧ byte l (p + 11) = kAttrLfn ∧ byte l (p + 13) = sum ∧ piece_units l p = us.
Proof.
  intros Hp E Hl Hu. do 13 (destruct us as [|? us]; [done|]). destruct us; [|done].
  rewrite <- (Z.add_0_r p) at 1. rewrite !(bytes_at_byte l p 32), E by lia.
  split; [done|]. split; [done|]. split; [done|].
  unfold piece_units, kOffsets. cbn [fmap list_fmap].
  rewrite !(bytes_at_field l p 32), E by lia. repeat (apply Forall_cons in Hu as [? Hu]).
  repeat (apply (f_equal2 cons); [by apply le_value_pair|]). done.
Qed.

Lemma piece_props name s :
  Forall (λ c, 1 ≤ c < 128) name → (s < pieces name)%nat →
  length (piece name s) = 13%nat ∧ Forall is_u16 (piece name s).
Proof.
  intros Hn Hs. unfold pieces in Hs. unfold piece, padded.
  assert (13 * (s + 1) ≤ length name + 12)%nat.
  { pose proof (Nat.Div0.mul_div_le (length name + 12) 13). nia. }
  split.
  - rewrite length_take, length_drop, length_app. cbn [length]. rewrite length_replicate. lia.
  - apply Forall_take, Forall_drop, Forall_app. split.
    + eapply Forall_impl; [done|]. unfold is_u16. simpl. lia.
    + constructor; [by split|]. apply Forall_replicate. by split.
Qed.

(** ** Assembling the name *)

(** Pieces [j + 1 .. k] are in place. *)
Definition assembled (name : list Z) (sum : Z) (k j : nat) (st : lfn_state) : Prop :=
  lfn_ok st = true ∧ lfn_checksum st = sum ∧ lfn_len st = 13 * Z.of_nat k ∧
  ∃ X Y, lfn st = X ++ (lfn_char <$> take (13 * (k - j)) (drop (13 * j) (padded name))) ++ Y ∧
    length X = (13 * j)%nat.

Lemma ord_bits n : 1 ≤ n ≤ 20 →
  n mod 64 = n ∧ (n + 64) mod 64 = n ∧ Z.testbit n 6 = false ∧ Z.testbit (n + 64) 6 = true.
Proof.
  intros Hn. split; [dlia|]. split; [dlia|]. split.
  - apply Z.testbit_false; [lia|]. dlia.
  - apply Z.testbit_true; [lia|]. dlia.
Qed.

Lemma take_13_more {A} (P : list A) a n :
  take 13 (drop a P) ++ take n (drop (13 + a) P) = take (13 + n) (drop a P).
Proof.
  rewrite <- (take_drop 13 (take (13 + n) (drop a P))), take_take, skipn_firstn_comm, drop_drop.
  replace (13 `min` (13 + n))%nat with 13%nat by lia.
  replace (13 + n - 13)%nat with n by lia. by rewrite (Nat.add_comm 13 a).
Qed.

(** What storing piece [s + 1] does to the assembly. *)
Lemma add_piece_assembled name sum l p (k s : nat) st X Y old :
  (S s ≤ k)%nat → piece_units l p = piece name s →
  lfn_ok st = true → lfn_checksum st = sum → lfn_len st = 13 * Z.of_nat k →
  lfn st = X ++ old ++ (lfn_char <$> take (13 * (k - S s)) (drop (13 * S s) (padded name))) ++ Y →
  length X = (13 * s)%nat → length old = 13%nat →
  assembled name sum k s (add_piece l p (Z.of_nat (S s)) st).
Proof.
  intros Hk Eu Hok Hsum Hlen Hbuf HX Hold. unfold assembled, add_piece.
  cbn [lfn lfn_ok lfn_checksum lfn_len]. split; [done|]. split; [done|]. split; [done|].
  replace (Z.to_nat ((Z.of_nat (S s) - 1) * 13)) with (length X) by lia.
  exists X, Y. split; [|done]. rewrite Eu, Hbuf, take_app_length. f_equal.
  rewrite app_assoc, drop_app_ge by (rewrite length_app; lia).
  replace (length X + 13 - length (X ++ old))%nat with O by (rewrite length_app; lia).
  rewrite drop_0, app_assoc. f_equal. rewrite <- fmap_app. f_equal.
  unfold piece. replace (13 * S s)%nat with (13 + 13 * s)%nat by lia.
  rewrite take_13_more. f_equal. lia.
Qed.

Lemma parse_lfn_first name sum l p s st :
  Forall (λ c, 1 ≤ c < 128) name → pieces name = S s → (S s ≤ 20)%nat → 0 ≤ p →
  bytes_at l p 32 = lfn_bytes (Z.of_nat (S s) + 64) sum (piece name s) →
  assembled name sum (S s) s (parse_lfn l p st).
Proof.
  intros Hn Hk Hs Hp E. destruct (piece_props name s) as [H13 Hu]; [done|lia|].
  destruct (lfn_bytes_decode l p _ _ _ Hp E H13 Hu) as (E0 & _ & E13 & Eu).
  destruct (ord_bits (Z.of_nat (S s))) as (_ & Hm & _ & Hb); [lia|].
  unfold parse_lfn. rewrite E0, Hm, Hb, E13.
  rewrite (proj2 (Z.eqb_neq _ 0)), (proj2 (Z.ltb_ge _ _)) by lia. cbn [orb].
  apply add_piece_assembled with (X := replicate (13 * s) 0) (old := replicate 13 0)
    (Y := replicate (256 - 13 * s) 0); try done; [simpl; lia| |by rewrite length_replicate].
  rewrite Nat.sub_diag, Nat.mul_0_r. rewrite take_0, fmap_nil, app_nil_l.
  rewrite <- !replicate_add. cbn [lfn]. f_equal. lia.
Qed.

Lemma parse_lfn_next name sum l p k s st :
  Forall (λ c, 1 ≤ c < 128) name → pieces name = k → (k ≤ 20)%nat → (S s < k)%nat → 0 ≤ p →
  bytes_at l p 32 = lfn_bytes (Z.of_nat (S s)) sum (piece name s) →
  assembled name sum k (S s) st → assembled name sum k s (parse_lfn l p st).
Proof.
  intros Hn Hk Hk' Hs Hp E (Hok & Hsum & Hlen & X & Y & Hbuf & HX).
  destruct (piece_props name s) as [H13 Hu]; [done|lia|].
  destruct (lfn_bytes_decode l p _ _ _ Hp E H13 Hu) as (E0 & _ & E13 & Eu).
  destruct (ord_bits (Z.of_nat (S s))) as (Hm & _ & Hb & _); [lia|].
  unfold parse_lfn. rewrite E0, Hm, Hb, E13, Hok, Hsum.
  rewrite (proj2 (Z.eqb_neq _ 0)), (proj2 (Z.ltb_ge _ _)), Z.eqb_refl by lia. cbn [orb andb].
  apply add_piece_assembled with (X := take (13 * s) X) (old := drop (13 * s) X) (Y := Y);
    try done; [lia| |rewrite length_take; lia|rewrite length_drop; lia].
  by rewrite app_assoc, take_drop.
Qed.

(** The slots of a whole name leave it assembled, and match nothing. *)
Lemma scan_encoded name sum query slots k n st :
  Forall (λ c, 1 ≤ c < 128) name → pieces name = k → (k ≤ 20)%nat → (n < k)%nat →
  Forall (λ s : slot, 0 ≤ s.2) slots → Forall2 holds slots (encode_from name sum n false) →
  assembled name sum k n st →
  ∃ st', scan_slots query st slots = Continue st' ∧ assembled name sum k 0 st'.
Proof.
  intros Hn Hk Hk'. revert slots st; induction n as [|s IH]; intros slots st Hs Hp HF Ha.
  { inversion HF; subst. by exists st. }
  cbn [encode_from] in HF. rewrite Z.add_0_r in HF.
  apply Forall2_cons_inv_r in HF as ([l p] & rest & E & HF & ->).
  apply Forall_cons in Hp as [Hp0 Hp]. simpl in Hp0. unfold holds in E; simpl in E.
  destruct (piece_props name s) as [H13 Hu]; [done|lia|].
  destruct (lfn_bytes_decode l p _ _ _ Hp0 E H13 Hu) as (E0 & E11 & _).
  cbn [scan_slots]. unfold slot_step, parse_slot. rewrite E0, E11, Z.eqb_refl.
  rewrite !(proj2 (Z.eqb_neq _ _)) by lia. apply IH; [lia|done|done|].
  by apply parse_lfn_next.
Qed.

Lemma before_spelled name n :
  Forall (λ c, 1 ≤ c < 128) name → (length name ≤ n)%nat →
  before 0 (lfn_char <$> take n (padded name)) = name.
Proof.
  unfold padded. intros Hn. revert n; induction Hn as [|c name Hc _ IH]; intros n Hl.
  { by destruct n. }
  destruct n as [|n]; [simpl in Hl; lia|]. simpl in Hl |- *. unfold lfn_char at 1 2.
  rewrite (proj2 (Z.eqb_neq c _)), (proj2 (Z.ltb_lt c _)), (proj2 (Z.eqb_neq c _)) by lia.
  f_equal. apply IH. lia.
Qed.

(** A name's slots, then its entry: the entry is found. *)
Lemma scan_named name sum query lslots l p st post :
  spellable name → Forall (λ s : slot, 0 ≤ s.2) lslots → Forall2 holds lslots (encode name sum) →
  entry_slot (l, p) → checksum_of (bytes_at l p 11) = sum → caseless name query →
  scan_slots query st (lslots ++ (l, p) :: post) = Match (entry_of l p).
Proof.
  intros [Hlen Hn] Hp HF (H0 & HE5 & Hlfn & Hvol) Hsum Hq. unfold encode in HF.
  assert (1 ≤ pieces name ≤ 20)%nat as Hk.
  { unfold pieces. split; [apply Nat.div_le_lower_bound; lia|].
    apply Nat.lt_succ_r, Nat.Div0.div_lt_upper_bound. lia. }
  assert (length name ≤ 13 * pieces name ≤ length name + 12)%nat as Hcov.
  { unfold pieces. pose proof (Nat.div_mod_eq (length name + 12) 13).
    pose proof (Nat.mod_upper_bound (length name + 12) 13). lia. }
  destruct (pieces name) as [|s] eqn:Ek; [lia|]. cbn [encode_from] in HF.
  apply Forall2_cons_inv_r in HF as ([l0 p0] & rest & E & HF & ->).
  apply Forall_cons in Hp as [Hp0 Hp]. simpl in Hp0. unfold holds in E; simpl in E.
  destruct (piece_props name s) as [H13 Hu]; [done|lia|].
  destruct (lfn_bytes_decode l0 p0 _ _ _ Hp0 E H13 Hu) as (E0 & E11 & _).
  destruct (scan_encoded name sum query rest (S s) s (parse_lfn l0 p0 st))
    as (st' & Esc & Hok & Hcs & Hl & X & Y & Hbuf & HX); try done; [lia..| |].
  { apply parse_lfn_first; (done || lia). }
  rewrite <- app_comm_cons. cbn [scan_slots]. unfold slot_step at 1, parse_slot at 1.
  rewrite E0, E11, Z.eqb_refl, !(proj2 (Z.eqb_neq _ _)) by lia.
  rewrite scan_slots_app, Esc. cbn [scan_slots]. unfold slot_step, parse_slot. simpl in *.
  rewrite !(proj2 (Z.eqb_neq _ _)), Hvol by done. unfold names, parse_short. cbn [de_long de_entry].
  rewrite Hok, Hcs, Hsum, Z.eqb_refl. cbn [andb].
  destruct X; [|done]. rewrite Hbuf, Hl, drop_0. cbn [app].
  replace (Z.to_nat (13 * Z.of_nat (S s))) with (13 * (S s - 0))%nat by lia.
  rewrite take_app_le, take_ge by
    (rewrite length_fmap, length_take; unfold padded; rewrite length_app; simpl length; lia).
  rewrite before_spelled by (done || lia). unfold same_name, caseless in *.
  by rewrite bool_decide_eq_true_2.
Qed.

Section LongName.
Context {D : Type} `{BlockDevice D} {content : Z → list Z} {good : D → Prop}.
Context {LAWS : BlockDeviceLaws D content good}.
Context (m : Fat32Metadata) (disk_sectors : Z).

(** C23: long names round-trip.  Let the slots of a directory contain, after a
    part that neither ends the directory nor holds an entry of the queried
    name, the encoding of a long name of up to 255 ASCII characters followed by
    the short entry whose checksum it carries.  Then [lookup] of any case
    spelling of that name finds exactly this entry. *)
Theorem long_name_found d c name query pre lslots l p post st0 :
  geometry m disk_sectors → within_fat32 m →
  usable (good := good) disk_sectors d → reliable D good → fat_covers m →
  chain_slots content m c (Z.to_nat (cluster_count m + 1)) = pre ++ lslots ++ (l, p) :: post →
  scan_slots query lfn_init pre = Continue st0 →
  spellable name → caseless name query → entry_slot (l, p) →
  Forall2 holds lslots (encode name (checksum_of (bytes_at l p 11))) →
  ∃ d', fat_lookup m c query d = Some (Some (entry_of l p), d') ∧
    usable (good := good) disk_sectors d'.
Proof.
  intros GEO SMALL Hu Hrel Hcov Es Hpre Hn Hq He HF.
  destruct (fat_lookup_run (LAWS := LAWS) m disk_sectors GEO SMALL d c query Hu)
    as (r & d' & E & Hu' & _ & Hr).
  exists d'. split; [|done]. rewrite E, (Hr Hrel Hcov). unfold look_up, dir_entries.
  rewrite <- scan_slots_parse, Es, scan_slots_app, Hpre.
  erewrite scan_named; [done|done| |done..].
  pose proof (chain_slots_ok content m c (Z.to_nat (cluster_count m + 1))
    (content_ok (LAWS := LAWS))) as Hok.
  rewrite Es, !Forall_app in Hok. destruct Hok as (_ & Hok & _).
  eapply Forall_impl; [done|]. by intros s (_ & ? & _).
Qed.
End LongName.

(** "Mixed Case.text", looked up as "mixed case.TEXT". *)
Definition mixed_name : list Z :=
  [77; 105; 120; 101; 100; 32; 67; 97; 115; 101; 46; 116; 101; 120; 116].
Definition mixed_query : list Z :=
  [109; 105; 120; 101; 100; 32; 99; 97; 115; 101; 46; 84; 69; 88; 84].

Lemma long_name_found_witness :
  ∃ d', fat_lookup image_meta 2 mixed_query image = Some (Some (MkEntry 6 4 false), d') ∧
    usable (good := λ d, d = image) 16 d'.
Proof.
  set (root := ram_sector image 3).
  change (MkEntry 6 4 false) with (entry_of root 96).
  apply (long_name_found (LAWS := ram_laws image) image_meta 16 image 2 mixed_name mixed_query
    [(root, 0)] [(root, 32); (root, 64)] root 96 (slots_from root 128 12) (drop_lfn lfn_init)).
  - exact image_geometry.
  - unfold within_fat32; simpl; lia.
  - exact image_usable.
  - apply ram_reliable.
  - unfold fat_covers; simpl; lia.
  - vm_compute. reflexivity.
  - vm_compute. reflexivity.
  - split; [simpl; lia|]. repeat constructor; lia.
  - reflexivity.
  - unfold entry_slot. vm_compute. split_and!; congruence.
  - repeat constructor.
Defined.
