(* ===== verification/Fat32Stack.v ===== *)
(** * The file system on the driver

    From power-on of a virtio disk to the bytes of a file.  The file system is
    verified against [BlockDeviceLaws], which the driver satisfies as long as the
    disk answers every request in time ([driver_laws]).  For a disk of any speed
    the driver is compared with a device that refuses all service after its first
    unanswered request: [stopped].  That is a block device, and as long as no
    request is left unanswered the two do the same. *)

From S2P Require Import Prelude Arrays BlockDev Mmu DiskReader DiskReaderProps RamDisk DiskSim.
From S2P Require Import Fat32 Fat32Mount Fat32Read Fat32Dir Fat32Lookup Fat32Spec.

(** ** Any block device *)

Section Volume.
Context {D : Type} `{BlockDevice D} {content : Z → list Z} {good : D → Prop}.
Context {LAWS : BlockDeviceLaws D content good}.

(** What a handle and the outcome of a read are to be: [f] for [path] on the
    volume [fs], and [r] bytes at the start of [buf']. *)
Definition right_handle (fs : Fat32) (path : list Z) (f : File) : Prop :=
  f = no_file ∨ ∃ e, path_entry content (meta_ fs) path = Some e ∧ f = handle_for fs e.

Definition right_bytes (fs : Fat32) (f : File) (offset len r : Z) (buf' : list Z) : Prop :=
  r = -1 ∨ r = clamped f offset len ∧ ∀ k : nat, Z.of_nat k < r →
    buf' !! k = file_byte content (meta_ fs) (first_cluster_ f) (offset + Z.of_nat k).

(** The path leads to a regular file whose chain is as long as its size says. *)
Definition intact_file (fs : Fat32) (path : list Z) : Prop :=
  ∃ e, path_entry content (meta_ fs) path = Some e ∧ entry_dir e = false ∧
    chain_covers (content := content) (meta_ fs) (first_cluster e) 0 (entry_size e).

Section Volume_run.
Context (path : list Z) (offset len : Z) (buf : list Z).
Hypothesis PATH : 63 ∉ path.
Hypothesis OFFSET : is_u64 offset.
Hypothesis LEN : 0 ≤ len ≤ Z.of_nat (length buf).

Lemma read_handle fs n f d :
  geometry (meta_ fs) n → within_fat32 (meta_ fs) → usable (good := good) n d →
  f = no_file ∨ fs_ f = Some fs ∧ file_ok content (meta_ fs) f →
  ∃ r f' buf' d', read f offset buf len d = Some ((r, f', buf'), d') ∧ usable (good := good) n d' ∧
    right_bytes fs f offset len r buf' ∧
    (reliable D good → fat_covers (meta_ fs) → fs_ f = Some fs → dir_ f = false →
     chain_covers (content := content) (meta_ fs) (first_cluster_ f) 0 (size_ f) →
     r = clamped f offset len).
Proof.
  intros GEO LIM Hu [->|[Hfs Hok]]; [by eexists _, _, _, d; split_and!; [..|left|]|].
  destruct (dir_ f) eqn:Hdir.
  { exists (-1), f, buf, d. split; [unfold read; by rewrite Hfs, Hdir|]. split_and!; try done. by left. }
  destruct (read_run fs n d f offset buf len GEO LIM Hu) as
    (r & f' & buf' & d' & E & Hu' & _ & _ & _ & Hr & Hall); [by split|done|done|].
  exists r, f', buf', d'. split; [done|]. split; [done|]. split.
  - destruct Hr as [->|[-> (_ & Hc & _)]]; [by left|]. right. split; [done|]. intros k Hk. apply Hc. lia.
  - intros Hrel Hcov _ _ Hch. apply Hall; [done|done|]. intros pos Hp. apply Hch.
    unfold is_u64, clamped in *. lia.
Qed.

Lemma volume_run d :
  good d →
  ∃ fs d1, mount d = Some (fs, d1) ∧
    (within_fat32 (meta_ fs) →
     ∃ f d2 r f' buf' d3, find fs (Some path) d1 = Some (f, d2) ∧
       read f offset buf len d2 = Some ((r, f', buf'), d3) ∧ good d3 ∧
       right_handle fs path f ∧ right_bytes fs f offset len r buf' ∧
       (reliable D good → valid_ fs = true → fat_covers (meta_ fs) → intact_file fs path →
        f ≠ no_file ∧ r = clamped f offset len)).
Proof.
  intros Hg. destruct (mount_run d Hg) as (fs & d1 & E1 & Hg1 & Hv1 & Hc1 & _ & Hgeo & _).
  exists fs, d1. split; [done|]. intros LIM. destruct (valid_ fs) eqn:Hv.
  2:{ exists no_file, d1, (-1), no_file, buf, d1. split; [unfold find; by rewrite Hv|].
      split; [done|]. split; [done|]. split; [by left|]. split; [by left|done]. }
  destruct (Hgeo eq_refl) as [Hdv GEO].
  assert (usable (good := good) (disk_sector_count d) d1) as Hu by (unfold usable; split_and!; congruence).
  destruct (find_run fs _ d1 path GEO LIM Hv Hu) as (f & d2 & E2 & Hu2 & Hf & Hfok & Hfind).
  rewrite (resolve_path content (meta_ fs) path (content_ok (LAWS := LAWS)) PATH) in Hf, Hfind.
  assert (right_handle fs path f) as Hrh.
  { destruct Hf as [->|Hf]; [by left|]. destruct (path_entry _ _ _) as [e|] eqn:Ee; [|by left].
    right. by exists e. }
  destruct (read_handle fs _ f d2 GEO LIM Hu2) as (r & f' & buf' & d3 & E3 & (Hg3 & _) & Hrb & Hall).
  { destruct Hrh as [->|(e & _ & ->)]; [by left|right]. split; [done|by apply Hfok]. }
  exists f, d2, r, f', buf', d3. split_and!; try done.
  intros Hrel _ Hcov (e & Ee & Hdir & Hch). specialize (Hfind Hrel Hcov). rewrite Ee in Hfind. simpl in Hfind.
  assert (fs_ f = Some fs ∧ dir_ f = false ∧ first_cluster_ f = first_cluster e ∧ size_ f = entry_size e)
    as (Hfs & Hd & Hc & Hs) by (subst f; simpl; by rewrite Hdir).
  split; [by intros ->|]. apply Hall; [done..|]. by rewrite Hc, Hs.
Qed.
End Volume_run.
End Volume.

(** ** The driver until its first unanswered request *)

Section Stack.
Context {V : Type} `{VirtioMmio V} (mmu : mmu_state) (dma_vaddr : Z).
Context {base : Z} {content : Z → list Z} {cap : Z}.
Context {LAWS : VirtioBlkLaws V base (dma_phys mmu dma_vaddr) content cap}.
#[local] Instance stack_device : BlockDevice (driver V) := driver_device mmu dma_vaddr.
Notation unanswered := (unanswered (LAWS := LAWS) mmu dma_vaddr).

(** The flag says that a request was left unanswered. *)
Definition stopped_read (lba count : Z) : ST (driver V * bool) (bool * list Z) := λ x,
  if x.2 then Some ((false, []), x)
  else match read_sectors mmu dma_vaddr lba count x.1 with
       | None => None
       | Some ((ok, bytes), s') =>
           if unanswered s' =? unanswered x.1 then Some ((ok, bytes), (s', false))
           else Some ((false, []), (s', true))
       end.

#[local] Instance stopped_device : BlockDevice (driver V * bool) := {|
  disk_valid := λ x, g_valid x.1;
  disk_sector_count := λ x, sector_count x.1;
  disk_read_sectors := stopped_read;
|}.

Definition stopped_good (x : driver V * bool) : Prop :=
  x.2 = true ∨ driver_good (LAWS := LAWS) mmu dma_vaddr x.1.

#[local] Instance stopped_laws : BlockDeviceLaws (driver V * bool) content stopped_good.
Proof.
  assert (∀ x lba count, stopped_good x → 0 ≤ lba < 2 ^ 64 → 0 ≤ count < 2 ^ 32 →
    ∃ ok bytes x', stopped_read lba count x = Some ((ok, bytes), x') ∧ stopped_good x' ∧
      g_valid x'.1 = g_valid x.1 ∧ sector_count x'.1 = sector_count x.1 ∧
      (ok = true → bytes = sectors content lba (Z.to_nat count) ∧ lba + count ≤ sector_count x.1) ∧
      Z.of_nat (length bytes) ≤ count * kSectorSize ∧ Forall is_byte bytes) as Hrun.
  { intros [s late] lba count Hg Hl Hc. unfold stopped_read, stopped_good in *. simpl in *.
    destruct late.
    { eexists _, _, _. split; [done|]. split; [by left|]. split_and!; try done.
      unfold kSectorSize. simpl. lia. }
    destruct Hg as [|Hg]; [done|].
    destruct (read_sectors_run (LAWS := LAWS) mmu dma_vaddr s lba count Hg Hl Hc)
      as (ok & bytes & s' & -> & (_ & Hv & _ & Hcap) & Hs & Hok & Hlen & Hby & _).
    assert (sector_count s' = sector_count s) as Hsc by (unfold sector_count; by rewrite Hv, Hcap).
    destruct (Z.eqb_spec (unanswered s') (unanswered s)) as [E|E].
    - eexists _, _, _. split; [done|]. split; [|by split_and!]. right.
      destruct Hs as [[? _]|[_ ?]]; [done|lia].
    - eexists _, _, _. split; [done|]. split; [by left|]. split_and!; try done.
      unfold kSectorSize. simpl. lia. }
  split.
  - apply disk_content_length.
  - apply disk_content_bytes.
  - intros x lba count Hg Hl Hc. destruct (Hrun x lba count Hg Hl Hc) as (ok & b & x' & E & ? & ? & ? & _).
    by exists ok, b, x'.
  - intros x lba count b x' Hg Hl Hc E. destruct (Hrun x lba count Hg Hl Hc) as (ok & b1 & x1 & E1 & _ & _ & _ & Hok & _).
    simpl in E. rewrite E in E1. injection E1 as <- <- <-. by apply Hok.
  - intros x lba count b x' Hg Hl Hc E. destruct (Hrun x lba count Hg Hl Hc) as (ok & b1 & x1 & E1 & _ & _ & _ & _ & ?).
    simpl in E. by rewrite E in E1; injection E1 as <- <- <-.
Qed.

(** [c] on the driver leaves no fewer requests unanswered; if no more, [c'] on the
    stopped driver runs the same way, and conversely; if the stopped driver stops,
    one request was left unanswered. *)
Record keeps_up {A} (c : ST (driver V) A) (c' : ST (driver V * bool) A) : Prop := {
  up_mono s a s' : c s = Some (a, s') → unanswered s ≤ unanswered s';
  up_same s a s' :
    c s = Some (a, s') → unanswered s' = unanswered s → c' (s, false) = Some (a, (s', false));
  up_back s a s' :
    c' (s, false) = Some (a, (s', false)) → c s = Some (a, s') ∧ unanswered s' = unanswered s;
  up_stops s a s' : c' (s, false) = Some (a, (s', true)) → unanswered s' = unanswered s + 1;
  up_stopped s a x : c' (s, true) = Some (a, x) → x = (s, true);
}.

Ltac runs_alike := split; [by intros ??? [= <- <-]|by intros ??? [= <- <-]|by intros ??? [= <- <-]|
  done|by intros ??? [= <- <-] ].

Lemma keeps_up_ret {A} (a : A) : keeps_up (mret a) (mret a).
Proof. runs_alike. Qed.

Lemma keeps_up_fault {A} : keeps_up (A := A) fault fault.
Proof. done. Qed.

Lemma keeps_up_checked {A} (o : option A) : keeps_up (checked o) (checked o).
Proof. destruct o; [runs_alike|done]. Qed.

Lemma keeps_up_get {A} (g : driver V → A) :
  keeps_up (λ s, Some (g s, s)) (λ x, Some (g x.1, x)).
Proof. runs_alike. Qed.

Lemma keeps_up_bind {A B} (c : ST (driver V) A) c' (k : A → ST (driver V) B) k' :
  keeps_up c c' → (∀ a, keeps_up (k a) (k' a)) → keeps_up (c ≫= k) (c' ≫= k').
Proof.
  intros Hc Hk. split.
  - intros s b s' E. apply bind_run_inv in E as (a & s1 & E1 & E2).
    pose proof (up_mono _ _ Hc _ _ _ E1). pose proof (up_mono _ _ (Hk a) _ _ _ E2). lia.
  - intros s b s' E Heq. apply bind_run_inv in E as (a & s1 & E1 & E2).
    pose proof (up_mono _ _ Hc _ _ _ E1). pose proof (up_mono _ _ (Hk a) _ _ _ E2).
    rewrite (bind_run _ _ _ _ _ (up_same _ _ Hc _ _ _ E1 ltac:(lia))).
    apply (up_same _ _ (Hk a)); [done|lia].
  - intros s b s' E. apply bind_run_inv in E as (a & [s1 late] & E1 & E2).
    destruct late; [by apply (up_stopped _ _ (Hk a)) in E2|].
    apply (up_back _ _ Hc) in E1 as [E1 ?]. apply (up_back _ _ (Hk a)) in E2 as [E2 ?].
    rewrite (bind_run _ _ _ _ _ E1). split; [done|lia].
  - intros s b s' E. apply bind_run_inv in E as (a & [s1 late] & E1 & E2). destruct late.
    + apply (up_stopped _ _ (Hk a)) in E2 as [= ->]. by apply (up_stops _ _ Hc) in E1.
    + apply (up_back _ _ Hc) in E1 as [_ ?]. apply (up_stops _ _ (Hk a)) in E2. lia.
  - intros s b x E. apply bind_run_inv in E as (a & x1 & E1 & E2).
    apply (up_stopped _ _ Hc) in E1 as ->. by apply (up_stopped _ _ (Hk a)) in E2.
Qed.

(** A read adds at most one unanswered request. *)
Lemma read_sectors_unanswered lba count s r s' :
  read_sectors mmu dma_vaddr lba count s = Some (r, s') →
  unanswered s' = unanswered s ∨ unanswered s' = unanswered s + 1.
Proof.
  intros E. destruct (g_lock s) eqn:Hl.
  - revert E. unfold read_sectors. case_match; [intros [= <- <-]; by left|].
    unfold mbind at 1, ST_bind at 1, dr_lock. by rewrite Hl.
  - destruct (read_sectors_total (LAWS := LAWS) mmu dma_vaddr s lba count Hl)
      as (ok & bytes & s1 & E1 & _ & Hu). rewrite E in E1. injection E1 as _ <-. tauto.
Qed.

Lemma keeps_up_read lba count :
  keeps_up (disk_read_sectors (D := driver V) lba count)
    (disk_read_sectors (D := driver V * bool) lba count).
Proof.
  split; simpl; unfold stopped_read; simpl.
  - intros s r s' E. destruct (read_sectors_unanswered _ _ _ _ _ E); lia.
  - intros s [ok bytes] s' E Heq. by rewrite E, Heq, Z.eqb_refl.
  - intros s r s'. destruct (read_sectors _ _ _ _ s) as [[[ok bytes] s1]|]; [|done].
    destruct (Z.eqb_spec (unanswered s1) (unanswered s)); [|done]. by intros [= <- <-].
  - intros s r s'. destruct (read_sectors _ _ _ _ s) as [[[ok bytes] s1]|] eqn:E; [|done].
    destruct (Z.eqb_spec (unanswered s1) (unanswered s)); [done|]. intros [= <- <-].
    by destruct (read_sectors_unanswered _ _ _ _ _ E).
  - by intros s r x [= <- <-].
Qed.

(** The two runs of the same code take the same branches. *)
Ltac keep_up :=
  repeat first
    [ apply keeps_up_ret | apply keeps_up_checked | apply keeps_up_fault | apply keeps_up_read
    | apply (keeps_up_get g_valid) | apply (keeps_up_get sector_count)
    | solve [auto]
    | apply keeps_up_bind; [|intros ?]
    | match goal with |- keeps_up (match ?x with _ => _ end) _ => destruct x end ].

Lemma keeps_up_read_sector lba : keeps_up (read_sector lba) (read_sector lba).
Proof. unfold read_sector. keep_up. Qed.
Local Hint Resolve keeps_up_read_sector : core.

Lemma keeps_up_mount : keeps_up mount mount.
Proof. unfold mount, mount_boot_sector, read_free_hint. keep_up. Qed.

Lemma keeps_up_fat_next m c : keeps_up (fat_next m c) (fat_next m c).
Proof. unfold fat_next. keep_up. Qed.
Local Hint Resolve keeps_up_fat_next : core.

Lemma keeps_up_scan_cluster m c s k st name :
  keeps_up (scan_cluster m c s k st name) (scan_cluster m c s k st name).
Proof. revert s st; induction k as [|k IH]; intros s st; cbn [scan_cluster]; keep_up. Qed.
Local Hint Resolve keeps_up_scan_cluster : core.

Lemma keeps_up_scan_chain m c k st name :
  keeps_up (scan_chain m c k st name) (scan_chain m c k st name).
Proof. revert c st; induction k as [|k IH]; intros c st; cbn [scan_chain]; keep_up. Qed.
Local Hint Resolve keeps_up_scan_chain : core.

Lemma keeps_up_find_loop fuel m cur p : keeps_up (find_loop fuel m cur p) (find_loop fuel m cur p).
Proof.
  revert cur p; induction fuel as [|fuel IH]; intros cur p; cbn [find_loop]; unfold fat_lookup; keep_up.
Qed.
Local Hint Resolve keeps_up_find_loop : core.

Lemma keeps_up_find fs path : keeps_up (find fs path) (find fs path).
Proof. unfold find. keep_up. Qed.

Lemma keeps_up_walk m c k : keeps_up (walk m c k) (walk m c k).
Proof. revert c; induction k as [|k IH]; intros c; cbn [walk]; keep_up. Qed.
Local Hint Resolve keeps_up_walk : core.

Lemma keeps_up_copy_chunk m lba sc b rem done out :
  keeps_up (copy_chunk m lba sc b rem done out) (copy_chunk m lba sc b rem done out).
Proof. unfold copy_chunk. keep_up. Qed.
Local Hint Resolve keeps_up_copy_chunk : core.

Lemma keeps_up_read_loop fuel m f offset len done out :
  keeps_up (read_loop fuel m f offset len done out) (read_loop fuel m f offset len done out).
Proof.
  revert f done out; induction fuel as [|fuel IH]; intros f done out; cbn [read_loop];
    unfold locate; keep_up.
Qed.
Local Hint Resolve keeps_up_read_loop : core.

Lemma keeps_up_file_read f offset buf len : keeps_up (read f offset buf len) (read f offset buf len).
Proof. unfold read. keep_up. Qed.

(** The driver gives up on a request while it runs [c]: when it stops there, one
    more request has been left unanswered. *)
Definition gives_up {A} (c : ST (driver V * bool) A) (s : driver V) : Prop :=
  ∃ a s', c (s, false) = Some (a, (s', true)) ∧ unanswered s' = unanswered s + 1.

(** [find] and [read]. *)
Definition find_and_read {D} `{BlockDevice D} (fs : Fat32) (path : list Z) (offset len : Z) (buf : list Z)
    : ST D (File * (Z * File * list Z)) :=
  f ← find fs (Some path); r ← read f offset buf len; mret (f, r).

Lemma keeps_up_find_and_read fs path offset len buf :
  keeps_up (find_and_read fs path offset len buf) (find_and_read fs path offset len buf).
Proof.
  unfold find_and_read. apply keeps_up_bind; [apply keeps_up_find|intros f].
  apply keeps_up_bind; [apply keeps_up_file_read|intros r; apply keeps_up_ret].
Qed.

(** C4: the whole stack, from power-on to the bytes of a file, on a virtio disk of
    any speed.  Mounting returns, and on a volume within FAT32's limit [find] of a
    path without '?' and [read] return, unless the driver gives up on a request;
    then the handle is invalid or that of the entry the path leads to in the
    directories on the disk, and the read has returned -1 or the bytes of the
    clusters the file's FAT chain links.  On a disk that answers within the
    driver's patience it gives up on none; if the disk also reports no errors, an
    intact file is found and read completely. *)
Theorem disk_to_file_bytes v path offset buf len :
  vio_ok v → 63 ∉ path → is_u64 offset → 0 ≤ len ≤ Z.of_nat (length buf) →
  ∃ s1, DiskReader mmu dma_vaddr (driver_boot v) = Some (tt, s1) ∧
    (gives_up mount s1 ∨
     ∃ fs s2, mount s1 = Some (fs, s2) ∧
       (within_fat32 (meta_ fs) →
        gives_up (find_and_read fs path offset len buf) s2 ∨
        ∃ f r f' buf' s3, find_and_read fs path offset len buf s2 = Some ((f, (r, f', buf')), s3) ∧
          unanswered s3 = unanswered s1 ∧
          right_handle (content := content) fs path f ∧
          right_bytes (content := content) fs f offset len r buf' ∧
          (prompt V → flawless V → valid_ fs = true → fat_covers (meta_ fs) →
           intact_file (content := content) fs path → f ≠ no_file ∧ r = clamped f offset len))) ∧
    (prompt V → ¬ gives_up mount s1 ∧
       ∀ fs s2, mount s1 = Some (fs, s2) → within_fat32 (meta_ fs) →
         ¬ gives_up (find_and_read fs path offset len buf) s2).
Proof.
  intros Hok Hq Ho Hl.
  destruct (probe_run (LAWS := LAWS) mmu dma_vaddr v Hok) as (s1 & E1 & Hg1 & _).
  exists s1. split; [done|].
  (* the run on a prompt disk *)
  assert (prompt V → ∃ fs s2, mount s1 = Some (fs, s2) ∧ unanswered s2 = unanswered s1 ∧
    (within_fat32 (meta_ fs) → ∃ f r f' buf' s3,
       find_and_read fs path offset len buf s2 = Some ((f, (r, f', buf')), s3) ∧
       unanswered s3 = unanswered s1 ∧
       (flawless V → valid_ fs = true → fat_covers (meta_ fs) →
        intact_file (content := content) fs path → f ≠ no_file ∧ r = clamped f offset len))) as Hprompt.
  { intros HP. pose proof (driver_laws (LAWS := LAWS) mmu dma_vaddr HP (unanswered s1)) as DL.
    destruct (mount_run (LAWS := DL) s1) as (fs0 & s20 & E20 & [_ Hu2] & _); [done|].
    destruct (volume_run (LAWS := DL) path offset len buf Hq Ho Hl s1) as (fs & s2 & E2 & Hrest); [done|].
    rewrite E2 in E20. injection E20 as <- <-.
    exists fs, s2. split; [done|]. split; [done|]. intros LIM.
    destruct (Hrest LIM) as (f & s3 & r & f' & buf' & s4 & E3 & E4 & [_ Hu] & _ & _ & Hall).
    exists f, r, f', buf', s4. split; [unfold find_and_read; mstep E3; by mstep E4|]. split; [done|].
    intros HF. exact (Hall (driver_reliable (LAWS := LAWS) mmu dma_vaddr HP _ HF)). }
  split.
  - destruct (volume_run (LAWS := stopped_laws) path offset len buf Hq Ho Hl (s1, false))
      as (fs & [s2 late] & F1 & Hrest); [by right|].
    destruct late.
    { left. exists fs, s2. split; [done|]. by apply (up_stops _ _ keeps_up_mount) in F1. }
    right.
    destruct (up_back _ _ keeps_up_mount _ _ _ F1) as [E2 Hu2]. exists fs, s2. split; [done|]. intros LIM.
    destruct (Hrest LIM) as (f & x3 & r & f' & buf' & [s3 late] & F2 & F3 & _ & Hf & Hr & _).
    assert (find_and_read fs path offset len buf (s2, false) = Some ((f, (r, f', buf')), (s3, late))) as F
      by (unfold find_and_read; mstep F2; by mstep F3).
    destruct late.
    { left. exists (f, (r, f', buf')), s3. split; [done|].
      by apply (up_stops _ _ (keeps_up_find_and_read _ _ _ _ _)) in F. }
    right.
    destruct (up_back _ _ (keeps_up_find_and_read _ _ _ _ _) _ _ _ F) as [E3 Hu3].
    exists f, r, f', buf', s3. split; [done|]. split; [lia|]. split; [done|]. split; [done|].
    intros HP. destruct (Hprompt HP) as (fs1 & s21 & E21 & _ & Hrun). rewrite E2 in E21. injection E21 as <- <-.
    destruct (Hrun LIM) as (f1 & r1 & g1 & b1 & s31 & E31 & _ & Hall). rewrite E3 in E31. by simplify_eq.
  - intros HP. destruct (Hprompt HP) as (fs & s2 & E2 & Hu2 & Hrun). split.
    + intros (a & s' & F & _). pose proof (up_same _ _ keeps_up_mount _ _ _ E2 Hu2). congruence.
    + intros fs1 s21 E21 LIM (a & s' & F & _). rewrite E2 in E21. injection E21 as <- <-.
      destruct (Hrun LIM) as (f & r & f' & buf' & s3 & E3 & Hu3 & _).
      pose proof (up_same _ _ (keeps_up_find_and_read _ _ _ _ _) _ _ _ E3 ltac:(lia)). congruence.
Qed.
End Stack.

(** The simulated disk, from power-on to two bytes of DATA.BIN. *)
#[local] Instance sim_device : BlockDevice (driver sim) :=
  driver_device example_mmu example_dma_vaddr.

Definition sim_stack : ST (driver sim) (Z * list Z) :=
  DiskReader example_mmu example_dma_vaddr ;;
  fs ← mount;
  f ← find fs (Some path_data);
  '(r, _, buf) ← read f 511 [0; 0] 2;
  mret (r, buf).

Example sim_stack_reads : (fst <$> sim_stack (driver_boot (sim_boot false))) = Some (2, [0x41; 0x42]).
Proof. vm_compute. reflexivity. Qed.

Lemma image_intact : intact_file (content := ram_sector image) image_fs path_data.
Proof.
  exists (MkEntry 5 700 false). split; [vm_compute; reflexivity|]. split; [done|].
  exact image_chain_covers.
Qed.

Lemma disk_to_file_bytes_witness :
  ∃ s1 s2 f r f' buf' s3,
    DiskReader example_mmu example_dma_vaddr (driver_boot (sim_boot false)) = Some (tt, s1) ∧
    mount s1 = Some (image_fs, s2) ∧
    find_and_read image_fs path_data 511 2 [0; 0] s2 = Some ((f, (r, f', buf')), s3) ∧
    f ≠ no_file ∧ r = clamped f 511 2 ∧ right_bytes (content := ram_sector image) image_fs f 511 2 r buf'.
Proof.
  destruct (disk_to_file_bytes (LAWS := sim_laws false sim_phys) example_mmu example_dma_vaddr
    (sim_boot false) path_data 511 [0; 0] 2 (sim_ok _ _)) as (s1 & E1 & Hall & Hp);
    [apply (bool_decide_unpack _); reflexivity|unfold is_u64; lia|simpl; lia|].
  destruct (Hp (sim_prompt _)) as [Hn1 Hn2].
  destruct Hall as [Hg|(fs & s2 & E2 & Hall)]; [destruct (Hn1 Hg)|].
  assert (fs = image_fs) as ->.
  { assert ((fst <$> (DiskReader example_mmu example_dma_vaddr ;; mount)
               (driver_boot (sim_boot false))) = Some image_fs) as Hfs by (vm_compute; reflexivity).
    rewrite (bind_run _ _ _ _ _ E1) in Hfs. unfold stack_device in E2.
    change (@mount _ sim_device) with (@mount _ (driver_device example_mmu example_dma_vaddr)) in Hfs.
    rewrite E2 in Hfs. by injection Hfs. }
  assert (within_fat32 (meta_ image_fs)) as LIM by (unfold within_fat32; simpl; lia).
  destruct (Hall LIM) as [Hg|(f & r & f' & buf' & s3 & E3 & _ & _ & Hr & Hok)];
    [destruct (Hn2 _ _ E2 LIM Hg)|].
  destruct (Hok (sim_prompt _) (sim_flawless _)) as [Hf Hc];
    [reflexivity|unfold fat_covers; simpl; lia|exact image_intact|].
  exists s1, s2, f, r, f', buf', s3. split; [exact E1|]. split; [exact E2|]. split; [exact E3|].
  split; [exact Hf|]. split; [exact Hc|exact Hr].
Defined.
