(* ===== verification/Sched.v ===== *)
(** * percore.cpp, scheduler.cpp, semaphore.cpp, mutex.cpp and the switching half of threads.cpp

    The cores of the machine, the threads they run and the semaphores they
    share, as one state in which any core may take the next step.

    - A thread control block is a number [tcb]; [threads] says of each TCB that
      exists whether its context is in its saved frame ([Saved k]: it resumes at
      [k]) or in the registers of a core ([Active]).
    - A core is its [percore::PerCore] entry and the point of the code it is at.
    - One step is one access to shared state (a queue operation, a lock
      operation, a context switch, a change of a counter) together with the
      core-local assignments before it; steps of different cores interleave
      arbitrarily.  The queues' own operations are atomic: each runs under the
      queue's spinlock.
    - [None] is a fault: a failed [ASSERT], a switch to a TCB that is not there
      or whose context is not saved, a deletion of a TCB that is not there or
      whose stack is in use.  A core that spins on a lock stays where it is. *)

From stdpp Require Import functions.
From S2P Require Import Prelude.

Definition kMaxCores : nat := 8.

Definition tcb := nat.
Definition sem_id := nat.

(** Points of the code between two steps.  [Switch k]: about to execute
    [switch_to(pc.prev, pc.curr)], which will return to [k]. *)
Inductive point :=
  (* kmain and ap_entry, on the stack of the boot loader *)
  | Boot | BootSchedule (x : tcb)
  (* a thread: its first instruction, its own code, go(), the semaphore *)
  | Entry | Client | GoSchedule (x : tcb)
  | UpLocked (s : sem_id) | UpPop (s : sem_id) | UpSchedule (s : sem_id) (x : tcb)
  | UpUnlock (s : sem_id)
  | DownLocked (s : sem_id) | DownBlock (s : sem_id) | DownUnlock (s : sem_id)
  | Switch (k : point)
  | AfterDown (s : sem_id) | AfterYield | AfterStop
  (* idle_loop *)
  | IdleEntry | IdleNext | IdleGot (x : tcb)
  | IdleDelete | IdleQueue | IdleUnlock | IdleResched.

Record PerCore := MkPerCore {
  prev : option tcb;
  to_delete : option tcb;
  to_reschedule : option tcb;
  to_queue : option tcb;
  to_add_to : option sem_id;
  to_unlock : option sem_id;
  curr : option tcb;
  idle : option tcb;
}.

Record core := Core { pc : PerCore; at_ : point }.

Inductive tstate := Saved (k : point) | Active.

(** [counter] is an [int64_t] in the source.  Signed overflow is undefined there, so
    its value is not reduced here; as long as the initial count and the [up()]s
    stay below 2^63 the two agree (see [semaphore_counts_waiters]). *)
Record Semaphore := MkSemaphore { q : list tcb; lock_ : bool; counter : Z }.

(** What the threads have done with the semaphores, in order: decremented the
    counter, been let through, returned from [down()], incremented it. *)
Inductive event_kind := Downed | Granted | Returned | Upped.
Record event := Event { what : event_kind; who : option tcb; which : sem_id }.

Record state := State {
  ready : list tcb;
  threads : gmap tcb tstate;
  sems : sem_id → Semaphore;
  cores : nat → core;
  log : list event;
}.

(** ** Updates *)

Definition set_core (c : nat) (k : core) (st : state) : state :=
  State (ready st) (threads st) (sems st) (<[c := k]> (cores st)) (log st).
Definition go_to (c : nat) (p : point) (st : state) : state :=
  set_core c (Core (pc (cores st c)) p) st.
Definition set_pc (c : nat) (f : PerCore → PerCore) (st : state) : state :=
  set_core c (Core (f (pc (cores st c))) (at_ (cores st c))) st.
Definition set_ready (l : list tcb) (st : state) : state :=
  State l (threads st) (sems st) (cores st) (log st).
Definition set_threads (T : gmap tcb tstate) (st : state) : state :=
  State (ready st) T (sems st) (cores st) (log st).
Definition set_sem (s : sem_id) (x : Semaphore) (st : state) : state :=
  State (ready st) (threads st) (<[s := x]> (sems st)) (cores st) (log st).
Definition note (e : event_kind) (c : nat) (s : sem_id) (st : state) : state :=
  State (ready st) (threads st) (sems st) (cores st)
    (log st ++ [Event e (curr (pc (cores st c))) s]).
Definition note_for (e : event_kind) (t : tcb) (s : sem_id) (st : state) : state :=
  State (ready st) (threads st) (sems st) (cores st) (log st ++ [Event e (Some t) s]).

(** ** scheduler.cpp *)

Definition schedule (t : tcb) (st : state) : state := set_ready (ready st ++ [t]) st.

Definition next (st : state) : option tcb * state :=
  match ready st with
  | [] => (None, st)
  | t :: r => (Some t, set_ready r st)
  end.

(** ** tcb.cpp: switch_to

    The outgoing context goes to [prev]'s frame, if there is a [prev]; the core
    continues at the point saved in [next]'s. *)

Definition save_context (prev : option tcb) (k : point) (st : state) : option state :=
  match prev with
  | None => Some st
  | Some t =>
      match threads st !! t with
      | Some Active => Some (set_threads (<[t := Saved k]> (threads st)) st)
      | _ => None
      end
  end.

Definition switch_to (c : nat) (k : point) (st : state) : option state :=
  st1 ← save_context (prev (pc (cores st c))) k st;
  n ← curr (pc (cores st c));
  match threads st1 !! n with
  | Some (Saved k') => Some (go_to c k' (set_threads (<[n := Active]> (threads st1)) st1))
  | _ => None
  end.

(** [delete tcb]: the TCB and its stack. *)
Definition delete_tcb (t : tcb) (st : state) : option state :=
  match threads st !! t with
  | Some (Saved _) => Some (set_threads (delete t (threads st)) st)
  | _ => None
  end.

(** ** threads.cpp *)

(** The assignments of [stop()], of [yield()] and of the blocking branch of
    [down()] to the core's entry before they switch to the idle thread. *)
Definition to_idle (p : PerCore) : PerCore :=
  MkPerCore (curr p) (to_delete p) (to_reschedule p) (to_queue p) (to_add_to p) (to_unlock p)
    (idle p) (idle p).

Definition stop_requests (p : PerCore) : PerCore :=
  to_idle (MkPerCore (prev p) (curr p) (to_reschedule p) (to_queue p) (to_add_to p) (to_unlock p)
    (curr p) (idle p)).

Definition yield_requests (p : PerCore) : PerCore :=
  to_idle (MkPerCore (prev p) (to_delete p) (curr p) (to_queue p) (to_add_to p) (to_unlock p)
    (curr p) (idle p)).

Definition down_requests (s : sem_id) (p : PerCore) : PerCore :=
  to_idle (MkPerCore (prev p) (to_delete p) (to_reschedule p) (curr p) (Some s) (Some s)
    (curr p) (idle p)).

Definition stop (c : nat) (st : state) : option state :=
  Some (go_to c (Switch AfterStop) (set_pc c stop_requests st)).

Definition yield (c : nat) (st : state) : option state :=
  Some (go_to c (Switch AfterYield) (set_pc c yield_requests st)).

(** [go()]: [x] is the TCB the allocator hands out, one that does not exist;
    [p] is the point from which the caller then schedules it. *)
Definition go (c : nat) (x : tcb) (p : point) (st : state) : option state :=
  match threads st !! x with
  | Some _ => Some st
  | None => Some (go_to c p (set_threads (<[x := Saved Entry]> (threads st)) st))
  end.

(** ** semaphore.cpp *)

Definition sem_construct (cnt : Z) : Semaphore := MkSemaphore [] false cnt.

(** [~Semaphore()]: [ASSERT(q.empty())]. *)
Definition sem_destroy (x : Semaphore) : option unit :=
  match q x with [] => Some tt | _ => None end.

(** [lock_.lock()]: one [test_and_set]. *)
Definition sem_lock (c : nat) (s : sem_id) (p : point) (st : state) : option state :=
  let x := sems st s in
  if lock_ x then Some st
  else Some (go_to c p (set_sem s (MkSemaphore (q x) true (counter x)) st)).

Definition sem_unlock (s : sem_id) (st : state) : state :=
  let x := sems st s in set_sem s (MkSemaphore (q x) false (counter x)) st.

Definition up_step (c : nat) (s : sem_id) (p : point) (st : state) : option state :=
  let x := sems st s in
  match p with
  | UpLocked _ =>
      let st := note Upped c s (set_sem s (MkSemaphore (q x) (lock_ x) (counter x + 1)) st) in
      Some (go_to c (if counter x <? 0 then UpPop s else UpUnlock s) st)
  | UpPop _ =>
      match q x with
      | [] => None
      | t :: r =>
          let st := note_for Granted t s (set_sem s (MkSemaphore r (lock_ x) (counter x)) st) in
          Some (go_to c (UpSchedule s t) st)
      end
  | UpSchedule _ t => Some (go_to c (UpUnlock s) (schedule t st))
  | UpUnlock _ => Some (go_to c Client (sem_unlock s st))
  | _ => None
  end.

Definition down_step (c : nat) (s : sem_id) (p : point) (st : state) : option state :=
  let x := sems st s in
  match p with
  | DownLocked _ =>
      let st := note Downed c s (set_sem s (MkSemaphore (q x) (lock_ x) (counter x - 1)) st) in
      if counter x - 1 <? 0 then Some (go_to c (DownBlock s) st)
      else Some (go_to c (DownUnlock s) (note Granted c s st))
  | DownBlock _ => Some (go_to c (Switch (AfterDown s)) (set_pc c (down_requests s) st))
  | DownUnlock _ => Some (go_to c Client (note Returned c s (sem_unlock s st)))
  | AfterDown _ => Some (go_to c Client (note Returned c s st))
  | _ => None
  end.

(** ** mutex.cpp *)

Definition mutex_construct : Semaphore := sem_construct 1.

(** ** percore.cpp: idle_loop and init *)

Definition clear_delete (p : PerCore) : PerCore :=
  MkPerCore (prev p) None (to_reschedule p) (to_queue p) (to_add_to p) (to_unlock p) (curr p) (idle p).
Definition clear_reschedule (p : PerCore) : PerCore :=
  MkPerCore (prev p) (to_delete p) None (to_queue p) (to_add_to p) (to_unlock p) (curr p) (idle p).
Definition clear_queue (p : PerCore) : PerCore :=
  MkPerCore (prev p) (to_delete p) (to_reschedule p) None None None (curr p) (idle p).
Definition run_next (n : option tcb) (p : PerCore) : PerCore :=
  MkPerCore (curr p) (to_delete p) (to_reschedule p) (to_queue p) (to_add_to p) (to_unlock p)
    n (idle p).
Definition run_idle (p : PerCore) : PerCore :=
  MkPerCore (prev p) (to_delete p) (to_reschedule p) (to_queue p) (to_add_to p) (to_unlock p)
    (idle p) (idle p).

Definition idle_step (c : nat) (p : point) (st : state) : option state :=
  let k := pc (cores st c) in
  match p with
  | IdleEntry => Some (go_to c IdleNext (set_pc c run_idle st))
  | IdleNext =>
      let '(t, st) := next st in
      match t with
      | None => Some st
      | Some t => Some (go_to c (IdleGot t) st)
      end
  | IdleGot t => Some (go_to c (Switch IdleDelete) (set_pc c (run_next (Some t)) st))
  | IdleDelete =>
      match to_delete k with
      | None => Some (go_to c IdleQueue st)
      | Some t =>
          st ← delete_tcb t st;
          Some (go_to c IdleQueue (set_pc c clear_delete st))
      end
  | IdleQueue =>
      match to_queue k with
      | None => Some (go_to c IdleResched st)
      | Some t =>
          match to_add_to k, to_unlock k with
          | Some s, Some _ =>
              let x := sems st s in
              Some (go_to c IdleUnlock (set_sem s (MkSemaphore (q x ++ [t]) (lock_ x) (counter x)) st))
          | _, _ => None
          end
      end
  | IdleUnlock =>
      s ← to_unlock k;
      Some (go_to c IdleResched (set_pc c clear_queue (sem_unlock s st)))
  | IdleResched =>
      match to_reschedule k with
      | None => Some (go_to c IdleNext st)
      | Some t => Some (go_to c IdleNext (set_pc c clear_reschedule (schedule t st)))
      end
  | _ => None
  end.

(** ** One step of one core *)

(** What a thread's own code does next: any function of the kernel's interface.
    [Mutex::lock] and [unlock] are [down] and [up] of the mutex's semaphore. *)
Inductive call := Yield | Return | Up (s : sem_id) | Down (s : sem_id) | Go (x : tcb).

Definition Mutex_lock (m : sem_id) : call := Down m.
Definition Mutex_unlock (m : sem_id) : call := Up m.

(** A thread whose function returns calls [stop()], in [thread_entry]. *)
Definition client_step (c : nat) (f : call) (st : state) : option state :=
  match f with
  | Yield => yield c st
  | Return => stop c st
  | Up s => sem_lock c s (UpLocked s) st
  | Down s => sem_lock c s (DownLocked s) st
  | Go x => go c x (GoSchedule x) st
  end.

(** [kmain] (after [smp::init]) and [ap_entry] start threads, or none, and stop. *)
Definition boot_step (c : nat) (f : call) (st : state) : option state :=
  match f with
  | Go x => go c x (BootSchedule x) st
  | _ => stop c st
  end.

Definition core_step (c : nat) (f : call) (st : state) : option state :=
  let p := at_ (cores st c) in
  match p with
  | Boot => boot_step c f st
  | BootSchedule x => Some (go_to c Boot (schedule x st))
  | Entry | AfterYield => Some (go_to c Client st)
  | Client => client_step c f st
  | GoSchedule x => Some (go_to c Client (schedule x st))
  | UpLocked s | UpPop s | UpSchedule s _ | UpUnlock s => up_step c s p st
  | DownLocked s | DownBlock s | DownUnlock s | AfterDown s => down_step c s p st
  | Switch k => switch_to c k st
  | AfterStop => None
  | IdleEntry | IdleNext | IdleGot _ | IdleDelete | IdleQueue | IdleUnlock | IdleResched =>
      idle_step c p st
  end.

Definition step (st st' : state) : Prop :=
  ∃ c f, (c < kMaxCores)%nat ∧ core_step c f st = Some st'.

(** [percore::init()]: the idle thread of core [c] is the [c]-th TCB made. *)
Definition core_boot (c : nat) : core :=
  Core (MkPerCore None None None None None None None (Some c)) Boot.

Definition idle_threads : gmap tcb tstate :=
  list_to_map ((λ c, (c, Saved IdleEntry)) <$> seq 0 kMaxCores).

(** The machine when [smp::init] has released the cores; [init s] is the count
    semaphore [s] is constructed with. *)
Definition booted (init : sem_id → Z) : state :=
  State [] idle_threads (λ s, sem_construct (init s)) core_boot [].
