(* ===== verification/SchedInv.v ===== *)
(** * The scheduler's invariant

    Every thread that exists is in exactly one place: in the ready queue, in the
    queue of one semaphore, or in the hands of one core.  [owns] states such a
    partition and how steps change it; [core_shape] says which threads a core
    has in its hands at each point of its code; [balance] relates a semaphore's
    counter to its queue and to the history.  [inv_step]: every step of every
    core is possible and keeps all of it. *)

From stdpp Require Import functions.
From S2P Require Import Prelude Sched.

Inductive place := Ready | Waiting (s : sem_id) | OnCore (c : nat).

#[export] Instance place_eq_dec : EqDecision place.
Proof. solve_decision. Defined.
#[export] Instance event_kind_eq_dec : EqDecision event_kind.
Proof. solve_decision. Defined.

(** Reads of updated functions at places, cores and semaphores. *)
Ltac fn_simp :=
  repeat first
    [ rewrite fn_lookup_insert in *
    | rewrite fn_lookup_insert_ne in * by congruence ].

(** ** Partitions *)

Section Owns.
Context {V : Type}.
Implicit Types (T : gmap tcb V) (L : place → list (tcb * V)).

(** [L] distributes the entries of [T] over the places. *)
Record owns T L : Prop := {
  owns_nodup p : NoDup (L p).*1;
  owns_once p p' t : t ∈ (L p).*1 → t ∈ (L p').*1 → p = p';
  owns_iff t v : T !! t = Some v ↔ ∃ p, (t, v) ∈ L p;
}.

Lemma owns_lookup T L p t v : owns T L → (t, v) ∈ L p → T !! t = Some v.
Proof. intros HO Hin. apply (owns_iff _ _ HO). by exists p. Qed.

Lemma elem_of_keys (t : tcb) v (l : list (tcb * V)) : (t, v) ∈ l → t ∈ l.*1.
Proof. intros. apply list_elem_of_fmap. by exists (t, v). Qed.

Lemma elem_of_keys_iff (t : tcb) (l : list (tcb * V)) : t ∈ l.*1 ↔ ∃ v, (t, v) ∈ l.
Proof.
  rewrite list_elem_of_fmap. split; [|intros [v ?]; by exists (t, v)].
  intros ([t' v] & -> & ?). by exists v.
Qed.

Lemma owns_absent T L p t : owns T L → T !! t = None → t ∉ (L p).*1.
Proof.
  intros HO HT ([t' v] & -> & Hin)%list_elem_of_fmap. simpl in HT.
  by rewrite (owns_lookup T L p t' v) in HT.
Qed.

(** A place's list may be reordered. *)
Lemma owns_perm T L p l : owns T L → l ≡ₚ L p → owns T (<[p := l]> L).
Proof.
  intros HO Hl.
  assert (∀ p' e, e ∈ <[p := l]> L p' ↔ e ∈ L p') as Hin.
  { intros p' e. destruct (decide (p' = p)) as [->|]; fn_simp; [by rewrite Hl|done]. }
  assert (∀ p' t, t ∈ (<[p := l]> L p').*1 ↔ t ∈ (L p').*1) as Hkeys.
  { intros. rewrite !list_elem_of_fmap. by setoid_rewrite Hin. }
  split.
  - intros p'. destruct (decide (p' = p)) as [->|]; fn_simp; [rewrite Hl|]; apply HO.
  - intros p1 p2 t. rewrite !Hkeys. apply HO.
  - intros t v. rewrite (owns_iff _ _ HO). by setoid_rewrite Hin.
Qed.

(** A thread moves from one place to another. *)
Lemma owns_move T L p1 p2 t v l1 l2 :
  owns T L → p1 ≠ p2 → L p1 ≡ₚ (t, v) :: l1 → l2 ≡ₚ (t, v) :: L p2 →
  owns T (<[p2 := l2]> (<[p1 := l1]> L)).
Proof.
  intros HO Hne H1 H2.
  pose proof (owns_nodup _ _ HO p1) as Hn1. rewrite H1 in Hn1. apply NoDup_cons in Hn1 as [Hnt Hn1].
  assert (∀ p, t ∈ (L p).*1 → p = p1) as Ht.
  { intros p Hp. apply (owns_once _ _ HO p p1 t Hp). rewrite H1. by left. }
  assert (∀ p e, e ∈ <[p2 := l2]> (<[p1 := l1]> L) p ↔
    (e = (t, v) ∧ p = p2) ∨ (e.1 ≠ t ∧ e ∈ L p)) as Hin.
  { intros p [t' v']. simpl.
    destruct (decide (p = p2)) as [->|]; [|destruct (decide (p = p1)) as [->|]]; fn_simp.
    - rewrite H2, elem_of_cons. split; [|naive_solver]. intros [?|Hx]; [naive_solver|].
      right. split; [|done]. intros ->. by apply Hne, symmetry, Ht, (elem_of_keys _ v').
    - rewrite H1, elem_of_cons. split; [|naive_solver]. intros Hx. right. split; [|by right].
      intros ->. by apply Hnt, (elem_of_keys _ v').
    - split; [|naive_solver]. intros Hx. right. split; [|done]. intros ->.
      by apply elem_of_keys, Ht in Hx. }
  assert (∀ p t', t' ∈ (<[p2 := l2]> (<[p1 := l1]> L) p).*1 ↔
    (t' = t ∧ p = p2) ∨ (t' ≠ t ∧ t' ∈ (L p).*1)) as Hkeys.
  { intros p t'. rewrite !elem_of_keys_iff. setoid_rewrite Hin. simpl. clear. naive_solver. }
  split.
  - intros p. destruct (decide (p = p2)) as [->|]; [|destruct (decide (p = p1)) as [->|]]; fn_simp.
    + rewrite H2. apply NoDup_cons. split; [|apply HO]. simpl. intros ?%Ht. congruence.
    + done.
    + apply HO.
  - intros p p' t'. rewrite !Hkeys. pose proof (owns_once _ _ HO p p' t'). naive_solver.
  - intros t' v'. rewrite (owns_iff _ _ HO). setoid_rewrite Hin. split.
    + intros [p Hp]. destruct (decide (t' = t)) as [->|]; [|naive_solver].
      exists p2. left. split; [|done]. assert (p = p1) as -> by by apply Ht, (elem_of_keys _ v').
      rewrite H1 in Hp. apply elem_of_cons in Hp as [|Hp]; [done|].
      by apply elem_of_keys in Hp.
    + intros [p [[E ->]|[_ Hp]]]; [|by exists p]. simplify_eq. exists p1. rewrite H1. by left.
Qed.

(** A thread's state changes where it is. *)
Lemma owns_set T L p t v v' l l' :
  owns T L → L p ≡ₚ (t, v) :: l → l' ≡ₚ (t, v') :: l →
  owns (<[t := v']> T) (<[p := l']> L).
Proof.
  intros HO H1 H2.
  pose proof (owns_nodup _ _ HO p) as Hn. rewrite H1 in Hn. apply NoDup_cons in Hn as [Hnt Hn].
  assert (∀ p', t ∈ (L p').*1 → p' = p) as Ht.
  { intros p' Hp. apply (owns_once _ _ HO p' p t Hp). rewrite H1. by left. }
  assert (∀ p' t', t' ∈ (<[p := l']> L p').*1 ↔ t' ∈ (L p').*1) as Hkeys.
  { intros p' t'. destruct (decide (p' = p)) as [->|]; fn_simp; [by rewrite H1, H2|done]. }
  split.
  - intros p'. destruct (decide (p' = p)) as [->|]; fn_simp; [|apply HO]. rewrite H2.
    by apply NoDup_cons.
  - intros p1 p2 t'. rewrite !Hkeys. apply HO.
  - intros t' w. rewrite lookup_insert_Some, (owns_iff _ _ HO). split.
    + intros [[<- <-]|[Hne [p' Hp]]].
      * exists p. fn_simp. rewrite H2. by left.
      * exists p'. destruct (decide (p' = p)) as [->|]; fn_simp; [|done].
        rewrite H1 in Hp. rewrite H2. apply elem_of_cons in Hp as [|Hp]; [congruence|by right].
    + intros [p' Hp]. destruct (decide (p' = p)) as [->|Hne]; fn_simp.
      * rewrite H2 in Hp. apply elem_of_cons in Hp as [E|Hp]; [simplify_eq; by left|].
        right. split; [|exists p; rewrite H1; by right]. intros ->. by apply elem_of_keys in Hp.
      * right. split; [|by exists p']. intros <-. by apply Hne, Ht, (elem_of_keys _ w).
Qed.

Lemma owns_add T L p t v l :
  owns T L → T !! t = None → l ≡ₚ (t, v) :: L p → owns (<[t := v]> T) (<[p := l]> L).
Proof.
  intros HO HT Hl. pose proof (λ p', owns_absent T L p' t HO HT) as Hn.
  assert (∀ p' e, e ∈ <[p := l]> L p' ↔ (e = (t, v) ∧ p' = p) ∨ e ∈ L p') as Hin.
  { intros p' e. destruct (decide (p' = p)) as [->|]; fn_simp; [rewrite Hl, elem_of_cons|]; naive_solver. }
  assert (∀ p' t', t' ∈ (<[p := l]> L p').*1 ↔ (t' = t ∧ p' = p) ∨ t' ∈ (L p').*1) as Hkeys.
  { intros. rewrite !elem_of_keys_iff. setoid_rewrite Hin. clear. naive_solver. }
  split.
  - intros p'. destruct (decide (p' = p)) as [->|]; fn_simp; [|apply HO].
    rewrite Hl. apply NoDup_cons. split; [apply Hn|apply HO].
  - intros p1 p2 t'. rewrite !Hkeys. pose proof (owns_once _ _ HO p1 p2 t').
    intros [[-> ->]|?] [[? ->]|?]; try done; subst; try (by exfalso; eapply Hn); auto.
  - intros t' w. rewrite lookup_insert_Some, (owns_iff _ _ HO). setoid_rewrite Hin. split.
    + naive_solver.
    + intros [p' [[E ->]|Hp]]; [simplify_eq; by left|]. right. split; [|by exists p'].
      intros <-. by apply (Hn p'), (elem_of_keys _ w).
Qed.

Lemma owns_del T L p t v l :
  owns T L → L p ≡ₚ (t, v) :: l → owns (delete t T) (<[p := l]> L).
Proof.
  intros HO Hl.
  pose proof (owns_nodup _ _ HO p) as Hn. rewrite Hl in Hn. apply NoDup_cons in Hn as [Hnt Hn].
  assert (∀ p', t ∈ (L p').*1 → p' = p) as Ht.
  { intros p' Hp. apply (owns_once _ _ HO p' p t Hp). rewrite Hl. by left. }
  assert (∀ p' e, e ∈ <[p := l]> L p' ↔ e.1 ≠ t ∧ e ∈ L p') as Hin.
  { intros p' [t' v']. simpl. destruct (decide (p' = p)) as [->|Hne]; fn_simp.
    - rewrite Hl, elem_of_cons. split; [|naive_solver]. intros Hx. split; [|by right].
      intros ->. by apply Hnt, (elem_of_keys _ v').
    - split; [|naive_solver]. intros Hx. split; [|done]. intros ->. by apply Hne, Ht, (elem_of_keys _ v'). }
  split.
  - intros p'. destruct (decide (p' = p)) as [->|]; fn_simp; [done|apply HO].
  - intros p1 p2 t'. rewrite !elem_of_keys_iff. setoid_rewrite Hin.
    intros (v1 & _ & H1) (v2 & _ & H2). by apply (owns_once _ _ HO p1 p2 t'); eapply elem_of_keys.
  - intros t' w. rewrite lookup_delete_Some, (owns_iff _ _ HO). setoid_rewrite Hin. simpl. naive_solver.
Qed.
End Owns.

(** ** Which threads a core has in its hands

    A thread's entry is its state and, when it has been let through a semaphore
    but has not returned from [down()] yet, that semaphore. *)

Notation entry := (tstate * option sem_id)%type.

(** A thread that may be run: new, after [yield()], or let through. *)
Inductive runnable : point → option sem_id → Prop :=
  | runnable_entry : runnable Entry None
  | runnable_yield : runnable AfterYield None
  | runnable_down s : runnable (AfterDown s) (Some s).

(** The points of a running thread that has nothing else in its hands. *)
Inductive thread_point : point → option sem_id → Prop :=
  | at_entry : thread_point Entry None
  | at_client : thread_point Client None
  | at_up_locked s : thread_point (UpLocked s) None
  | at_up_pop s : thread_point (UpPop s) None
  | at_up_unlock s : thread_point (UpUnlock s) None
  | at_down_locked s : thread_point (DownLocked s) None
  | at_down_block s : thread_point (DownBlock s) None
  | at_down_unlock s : thread_point (DownUnlock s) (Some s)
  | after_down s : thread_point (AfterDown s) (Some s)
  | after_yield : thread_point AfterYield None.

(** What thread [t], on its way to resume at [k], asks the idle thread to do. *)
Inductive asks (t : tcb) :
  point → option tcb → option tcb → option tcb → option sem_id → option sem_id → Prop :=
  | asks_stop : asks t AfterStop (Some t) None None None None
  | asks_yield : asks t AfterYield None (Some t) None None None
  | asks_down s : asks t (AfterDown s) None None (Some t) (Some s) (Some s).

(** The idle thread waiting to be resumed, and running. *)
Notation parked := (Saved IdleDelete, @None sem_id).
Notation unborn := (Saved IdleEntry, @None sem_id).
Notation active := (Active, @None sem_id).

Inductive core_shape : core → list (tcb * entry) → Prop :=
  | shape_boot p i :
      core_shape (Core (MkPerCore p None None None None None None (Some i)) Boot) [(i, unborn)]
  | shape_boot_schedule p i x :
      core_shape (Core (MkPerCore p None None None None None None (Some i)) (BootSchedule x))
        [(i, unborn); (x, (Saved Entry, None))]
  | shape_boot_switch i :
      core_shape (Core (MkPerCore None None None None None None (Some i) (Some i)) (Switch AfterStop))
        [(i, unborn)]
  | shape_thread p i t k d :
      thread_point k d →
      core_shape (Core (MkPerCore p None None None None None (Some t) (Some i)) k)
        [(i, parked); (t, (Active, d))]
  | shape_go p i t x :
      core_shape (Core (MkPerCore p None None None None None (Some t) (Some i)) (GoSchedule x))
        [(i, parked); (t, active); (x, (Saved Entry, None))]
  | shape_up_schedule p i t s x :
      core_shape (Core (MkPerCore p None None None None None (Some t) (Some i)) (UpSchedule s x))
        [(i, parked); (t, active); (x, (Saved (AfterDown s), Some s))]
  | shape_switch i t k del res que add unl :
      asks t k del res que add unl →
      core_shape (Core (MkPerCore (Some t) del res que add unl (Some i) (Some i)) (Switch k))
        [(i, parked); (t, active)]
  | shape_idle_entry p i :
      core_shape (Core (MkPerCore p None None None None None (Some i) (Some i)) IdleEntry)
        [(i, active)]
  | shape_idle_next p i :
      core_shape (Core (MkPerCore p None None None None None (Some i) (Some i)) IdleNext)
        [(i, active)]
  | shape_idle_got p i x k d :
      runnable k d →
      core_shape (Core (MkPerCore p None None None None None (Some i) (Some i)) (IdleGot x))
        [(i, active); (x, (Saved k, d))]
  | shape_idle_switch i x k d :
      runnable k d →
      core_shape (Core (MkPerCore (Some i) None None None None None (Some x) (Some i)) (Switch IdleDelete))
        [(i, active); (x, (Saved k, d))]
  | shape_idle_delete p i t k del res que add unl :
      asks t k del res que add unl →
      core_shape (Core (MkPerCore p del res que add unl (Some i) (Some i)) IdleDelete)
        [(i, active); (t, (Saved k, None))]
  | shape_idle_queue p i t k res que add unl :
      asks t k None res que add unl →
      core_shape (Core (MkPerCore p None res que add unl (Some i) (Some i)) IdleQueue)
        [(i, active); (t, (Saved k, None))]
  | shape_idle_queue_none p i :
      core_shape (Core (MkPerCore p None None None None None (Some i) (Some i)) IdleQueue)
        [(i, active)]
  | shape_idle_unlock p i t s :
      core_shape (Core (MkPerCore p None None (Some t) (Some s) (Some s) (Some i) (Some i)) IdleUnlock)
        [(i, active)]
  | shape_idle_resched p i t :
      core_shape (Core (MkPerCore p None (Some t) None None None (Some i) (Some i)) IdleResched)
        [(i, active); (t, (Saved AfterYield, None))]
  | shape_idle_resched_none p i :
      core_shape (Core (MkPerCore p None None None None None (Some i) (Some i)) IdleResched)
        [(i, active)].

(** ** Semaphores *)

(** How far the holder of a semaphore's lock is: counter and queue agree, or a
    waiter is still to be taken out, or put in. *)
Inductive gap := Even | Popping | Pushing.

(** The semaphore whose lock a core holds. *)
Definition section (k : core) : option (sem_id * gap) :=
  match at_ k with
  | UpLocked s | UpSchedule s _ | UpUnlock s | DownLocked s | DownUnlock s => Some (s, Even)
  | UpPop s => Some (s, Popping)
  | DownBlock s => Some (s, Pushing)
  | Switch _ | IdleDelete | IdleQueue => (λ s, (s, Pushing)) <$> to_unlock (pc k)
  | IdleUnlock => (λ s, (s, Even)) <$> to_unlock (pc k)
  | _ => None
  end.

(** How often something happened to a semaphore, overall and by one thread. *)
Definition total (e : event_kind) (s : sem_id) (l : list event) : Z :=
  Z.of_nat (length (filter (λ x, what x = e ∧ which x = s) l)).
Definition by_thread (e : event_kind) (t : tcb) (s : sem_id) (l : list event) : Z :=
  Z.of_nat (length (filter (λ x, what x = e ∧ which x = s ∧ who x = Some t) l)).

Definition balance (start : Z) (x : Semaphore) (l : list event) (s : sem_id) (g : gap) : Prop :=
  counter x = start + total Upped s l - total Downed s l ∧
  let waiting := Z.of_nat (length (q x)) in
  let left := start + total Upped s l - total Granted s l in
  match g with
  | Even => waiting = Z.max 0 (- counter x) ∧ left = Z.max 0 (counter x)
  | Popping => waiting = 1 - counter x ∧ counter x ≤ 0 ∧ left = 1
  | Pushing => waiting = - counter x - 1 ∧ counter x < 0 ∧ left = 0
  end.

(** ** The invariant *)

Definition ready_view (r : list tcb) (l : list (tcb * entry)) : Prop :=
  l.*1 = r ∧ Forall (λ e, ∃ k d, e.2 = (Saved k, d) ∧ runnable k d) l.

Definition blocked (s : sem_id) (t : tcb) : tcb * entry := (t, (Saved (AfterDown s), None)).

Record placed (st : state) (G : gmap tcb entry) (L : place → list (tcb * entry)) : Prop := {
  placed_threads : threads st = fst <$> G;
  placed_owns : owns G L;
  placed_ready : ready_view (ready st) (L Ready);
  placed_waiting s : L (Waiting s) = blocked s <$> q (sems st s);
  placed_core c : (c < kMaxCores)%nat → core_shape (cores st c) (L (OnCore c));
  placed_nocore c : ¬ (c < kMaxCores)%nat → L (OnCore c) = [];
}.

Record locked (st : state) (H : sem_id → option (nat * gap)) : Prop := {
  locked_lock s : lock_ (sems st s) = bool_decide (is_Some (H s));
  locked_by s c g : H s = Some (c, g) ↔ (c < kMaxCores)%nat ∧ section (cores st c) = Some (s, g);
}.

Definition counted (start : sem_id → Z) (st : state) (H : sem_id → option (nat * gap)) : Prop :=
  ∀ s, balance (start s) (sems st s) (log st) s (from_option snd Even (H s)).

(** A thread has returned from [down()] as often as it was let through, but for
    the one time its entry says. *)
Definition logged (l : list event) (G : gmap tcb entry) : Prop :=
  Forall (λ e, is_Some (who e)) l ∧
  ∀ t s, by_thread Granted t s l =
    by_thread Returned t s l + b2z (bool_decide ((G !! t) ≫= snd = Some s)).

Definition inv (start : sem_id → Z) (st : state) : Prop :=
  ∃ G L H, placed st G L ∧ locked st H ∧ counted start st H ∧ logged (log st) G.

(** ** Frames *)

(** [st'] is [st] with core [c] replaced by [k], as far as cores go. *)
Definition recored (c : nat) (k : core) (st st' : state) : Prop :=
  cores st' c = k ∧ ∀ c', c' ≠ c → cores st' c' = cores st c'.

Lemma placed_update st st' G G' L L' c k :
  placed st G L → recored c k st st' → threads st' = fst <$> G' → owns G' L' →
  ready_view (ready st') (L' Ready) → (∀ s, L' (Waiting s) = blocked s <$> q (sems st' s)) →
  (c < kMaxCores)%nat → core_shape k (L' (OnCore c)) →
  (∀ c', c' ≠ c → L' (OnCore c') = L (OnCore c')) → placed st' G' L'.
Proof.
  intros HP [Hk Hcs] HT HO HR HW Hc Hs HL. split; try done.
  - intros c' Hc'. destruct (decide (c' = c)) as [->|Hne]; [by rewrite Hk|].
    rewrite Hcs, HL by done. by apply HP.
  - intros c' Hc'. rewrite HL by (intros ->; done). by apply HP.
Qed.

Section Locks.
Context (st st' : state) (H : sem_id → option (nat * gap)) (c : nat) (k : core).
Context (HK : locked st H) (Hc : (c < kMaxCores)%nat) (Hcores : recored c k st st').

Lemma locked_frame :
  (∀ s, lock_ (sems st' s) = lock_ (sems st s)) → section k = section (cores st c) → locked st' H.
Proof.
  destruct Hcores as [Hk Hcs]. intros Hl Hs. split.
  - intros s. rewrite Hl. apply HK.
  - intros s c' g. rewrite (locked_by _ _ HK). destruct (decide (c' = c)) as [->|];
      [by rewrite Hk, Hs|by rewrite Hcs].
Qed.

(** The core moves to another stage of its critical section, enters it or leaves it. *)
Lemma locked_change s h :
  (∀ s' g, section (cores st c) = Some (s', g) → s' = s) →
  section k = (λ g, (s, g)) <$> h →
  (∀ c' g, H s = Some (c', g) → c' = c) →
  (∀ s', lock_ (sems st' s') = if decide (s' = s) then bool_decide (is_Some h) else lock_ (sems st s')) →
  locked st' (<[s := (λ g, (c, g)) <$> h]> H).
Proof.
  destruct Hcores as [Hk Hcs]. intros Hold Hs Hown Hl. split.
  - intros s'. rewrite Hl. case_decide; subst; fn_simp; [|apply HK].
    apply bool_decide_ext. by rewrite fmap_is_Some.
  - intros s' c' g. destruct (decide (s' = s)) as [->|Hne]; fn_simp.
    + rewrite fmap_Some. destruct (decide (c' = c)) as [->|].
      * rewrite Hk, Hs, fmap_Some. naive_solver.
      * rewrite Hcs by done. split; [naive_solver|]. intros Hx. exfalso.
        apply (locked_by _ _ HK) in Hx. by apply Hown in Hx.
    + rewrite (locked_by _ _ HK). destruct (decide (c' = c)) as [->|]; [|by rewrite Hcs].
      rewrite Hk, Hs. split; [intros [_ ?%Hold]; done|]. destruct h; simpl; naive_solver.
Qed.
End Locks.

(** ** History *)

Lemma event_total_app e s l e' w s' :
  total e s (l ++ [Event e' w s']) = total e s l + b2z (bool_decide (e' = e ∧ s' = s)).
Proof.
  unfold total. rewrite filter_app, length_app. case_bool_decide.
  - rewrite filter_cons_True by done. simpl. lia.
  - rewrite filter_cons_False by done. simpl. lia.
Qed.

Lemma by_thread_app e t s l e' w s' :
  by_thread e t s (l ++ [Event e' w s']) =
  by_thread e t s l + b2z (bool_decide (e' = e ∧ s' = s ∧ w = Some t)).
Proof.
  unfold by_thread. rewrite filter_app, length_app. case_bool_decide.
  - rewrite filter_cons_True by done. simpl. lia.
  - rewrite filter_cons_False by done. simpl. lia.
Qed.

(** Events of other kinds or semaphores change no count. *)
Ltac count :=
  rewrite ?event_total_app, ?by_thread_app in *; simpl in *;
  repeat (case_bool_decide; simpl in *); simplify_eq; try (exfalso; naive_solver); try lia.

Lemma counted_other start st st' H s H' :
  counted start st H →
  (∀ s', s' ≠ s → sems st' s' = sems st s' ∧ H' s' = H s') →
  (∃ es, log st' = log st ++ es ∧ Forall (λ e, which e = s) es) →
  balance (start s) (sems st' s) (log st') s (from_option snd Even (H' s)) →
  counted start st' H'.
Proof.
  intros HC Hs (es & Hl & Hes) Hb s'. destruct (decide (s' = s)) as [->|Hne]; [done|].
  destruct (Hs s' Hne) as [-> ->]. rewrite Hl. specialize (HC s').
  clear Hb Hl. revert HC. generalize (log st).
  induction Hes as [|[e w s1] es Hw _ IH]; intros l HC; [by rewrite app_nil_r|].
  rewrite (cons_middle _ l es), app_assoc. apply IH. simpl in Hw. subst s1.
  unfold balance in *. rewrite !event_total_app, !bool_decide_eq_false_2 by naive_solver. simpl.
  by rewrite !Z.add_0_r.
Qed.

(** Steps that touch no semaphore. *)
Section Quiet.
Context (start : sem_id → Z) (st st' : state) (G : gmap tcb entry) (L : place → list (tcb * entry))
  (H : sem_id → option (nat * gap)) (c : nat) (k : core).
Context (HP : placed st G L) (HK : locked st H) (HC : counted start st H) (HG : logged (log st) G).
Context (Hc : (c < kMaxCores)%nat) (Hcores : recored c k st st').
Context (Hsems : sems st' = sems st) (Hlog : log st' = log st) (Hsec : section k = section (cores st c)).

Lemma inv_quiet G' L' :
  threads st' = fst <$> G' → owns G' L' → ready_view (ready st') (L' Ready) →
  (∀ s, L' (Waiting s) = L (Waiting s)) → core_shape k (L' (OnCore c)) →
  (∀ c', c' ≠ c → L' (OnCore c') = L (OnCore c')) →
  (∀ t, G' !! t ≫= snd = G !! t ≫= snd) → inv start st'.
Proof.
  intros HT HO HR HW Hs HL Hd. exists G', L', H. split; [|split; [|split]].
  - eapply placed_update; try done. intros s. rewrite HW, Hsems. apply HP.
  - eapply locked_frame; try done. intros s. by rewrite Hsems.
  - intros s. rewrite Hsems, Hlog. apply HC.
  - rewrite Hlog. split; [apply HG|]. intros t s. rewrite Hd. apply HG.
Qed.

Lemma inv_local :
  threads st' = threads st → ready st' = ready st → core_shape k (L (OnCore c)) → inv start st'.
Proof.
  intros HT HR Hs. apply (inv_quiet G L); try done; try apply HP.
  - rewrite HT. apply HP.
  - rewrite HR. apply HP.
Qed.

(** The last thread in the core's hands goes to the ready queue. *)
Lemma inv_schedule l x k0 d :
  threads st' = threads st → ready st' = ready st ++ [x] →
  L (OnCore c) = l ++ [(x, (Saved k0, d))] → runnable k0 d → core_shape k l → inv start st'.
Proof.
  intros HT HR HL Hrun Hs.
  apply (inv_quiet G (<[Ready := L Ready ++ [(x, (Saved k0, d))]]> (<[OnCore c := l]> L)));
    try (intros; by fn_simp).
  - rewrite HT. apply HP.
  - eapply owns_move; [apply HP|done| |].
    + rewrite HL. symmetry; apply Permutation_cons_append.
    + symmetry; apply Permutation_cons_append.
  - fn_simp. rewrite HR. destruct (placed_ready _ _ _ HP) as [E Hf]. split.
    + by rewrite fmap_app, E.
    + apply Forall_app. split; [done|]. apply Forall_singleton. by exists k0, d.
Qed.

(** The core takes the first thread of the ready queue. *)
Lemma inv_next x r :
  threads st' = threads st → ready st = x :: r → ready st' = r →
  (∀ k0 d, runnable k0 d → core_shape k (L (OnCore c) ++ [(x, (Saved k0, d))])) → inv start st'.
Proof.
  intros HT HR HR' Hs. destruct (placed_ready _ _ _ HP) as [E Hf].
  destruct (L Ready) as [|[x' e] l] eqn:HL; rewrite HR in E; simplify_eq/=.
  apply Forall_cons in Hf as [(k0 & d & Ee & Hrun) Hf]. simpl in Ee. subst e.
  apply (inv_quiet G (<[OnCore c := L (OnCore c) ++ [(x, (Saved k0, d))]]> (<[Ready := l]> L)));
    try (intros; by fn_simp).
  - rewrite HT. apply HP.
  - eapply owns_move; [apply HP|done|by rewrite HL|symmetry; apply Permutation_cons_append].
  - fn_simp. by apply Hs.
Qed.

(** A new thread in the core's hands. *)
Lemma inv_new x :
  threads st !! x = None → threads st' = <[x := Saved Entry]> (threads st) → ready st' = ready st →
  core_shape k (L (OnCore c) ++ [(x, (Saved Entry, None))]) → inv start st'.
Proof.
  intros Hn HT HR Hs. rewrite (placed_threads _ _ _ HP), lookup_fmap in Hn. apply fmap_None in Hn.
  apply (inv_quiet (<[x := (Saved Entry, None)]> G)
    (<[OnCore c := L (OnCore c) ++ [(x, (Saved Entry, None))]]> L)); try (intros; by fn_simp).
  - by rewrite HT, (placed_threads _ _ _ HP), fmap_insert.
  - eapply owns_add; [apply HP|done|symmetry; apply Permutation_cons_append].
  - fn_simp. rewrite HR. apply HP.
  - intros t. destruct (decide (t = x)) as [->|].
    + by rewrite lookup_insert_eq, Hn.
    + by rewrite lookup_insert_ne.
Qed.

(** The second thread in the core's hands goes away. *)
Lemma inv_delete i x e v :
  threads st' = delete x (threads st) → ready st' = ready st →
  L (OnCore c) = [(i, e); (x, (v, None))] → core_shape k [(i, e)] → inv start st'.
Proof.
  intros HT HR HL Hs.
  assert (L (OnCore c) ≡ₚ (x, (v, None)) :: [(i, e)]) as Hp by (rewrite HL; apply Permutation_swap).
  assert (G !! x = Some (v, None)) as Hx.
  { eapply (owns_lookup G L (OnCore c)); [apply HP|]. rewrite HL. right. by left. }
  apply (inv_quiet (delete x G) (<[OnCore c := [(i, e)]]> L)); try (intros; by fn_simp).
  - by rewrite HT, (placed_threads _ _ _ HP), fmap_delete.
  - eapply owns_del; [apply HP|done].
  - fn_simp. rewrite HR. apply HP.
  - intros t. destruct (decide (t = x)) as [->|].
    + by rewrite lookup_delete_eq, Hx.
    + by rewrite lookup_delete_ne.
Qed.

(** The states of the threads in the core's hands change. *)
Lemma inv_states i x a a' b b' d d' :
  threads st' = <[i := a']> (<[x := b']> (threads st)) → ready st' = ready st →
  L (OnCore c) = [(i, (a, d)); (x, (b, d'))] → core_shape k [(i, (a', d)); (x, (b', d'))] →
  inv start st'.
Proof.
  intros HT HR HL Hs. pose proof (placed_owns _ _ _ HP) as HO.
  assert (G !! i = Some (a, d)) as Hi by (apply (owns_lookup G L (OnCore c)); [done|rewrite HL; by left]).
  assert (G !! x = Some (b, d')) as Hx
    by (apply (owns_lookup G L (OnCore c)); [done|rewrite HL; right; by left]).
  pose proof (owns_set G L (OnCore c) x (b, d') (b', d') [(i, (a, d))] [(i, (a, d)); (x, (b', d'))] HO)
    as HO1. specialize (HO1 ltac:(rewrite HL; apply Permutation_swap) ltac:(apply Permutation_swap)).
  pose proof (owns_set _ _ (OnCore c) i (a, d) (a', d) [(x, (b', d'))] [(i, (a', d)); (x, (b', d'))] HO1)
    as HO2. fn_simp. specialize (HO2 ltac:(done) ltac:(done)).
  apply (inv_quiet _ _) with (2 := HO2); try (intros; by fn_simp).
  - by rewrite HT, (placed_threads _ _ _ HP), !fmap_insert.
  - fn_simp. rewrite HR. apply HP.
  - intros t. destruct (decide (t = i)) as [->|]; [by rewrite lookup_insert_eq, Hi|].
    rewrite lookup_insert_ne by done. destruct (decide (t = x)) as [->|].
    + by rewrite lookup_insert_eq, Hx.
    + by rewrite lookup_insert_ne.
Qed.
End Quiet.

Lemma logged_other l G e w s :
  e ≠ Granted → e ≠ Returned → logged l G → logged (l ++ [Event e (Some w) s]) G.
Proof.
  intros H1 H2 [Hw HG]. split; [apply Forall_app; split; [done|by apply Forall_singleton]|].
  intros t s'. rewrite !by_thread_app, !bool_decide_eq_false_2 by naive_solver.
  simpl. rewrite !Z.add_0_r. apply HG.
Qed.

(** Thread [t] is let through [s], or returns from it. *)
Lemma logged_entry l G t v d d' e s :
  e = Granted ∧ d = None ∧ d' = Some s ∨ e = Returned ∧ d = Some s ∧ d' = None →
  G !! t = Some (v, d) → logged l G → logged (l ++ [Event e (Some t) s]) (<[t := (v, d')]> G).
Proof.
  intros He Ht [Hw HG]. split; [apply Forall_app; split; [done|by apply Forall_singleton]|].
  intros t' s'. specialize (HG t' s'). rewrite !by_thread_app.
  destruct (decide (t' = t)) as [->|].
  - rewrite lookup_insert_eq. rewrite Ht in HG. simpl in *.
    destruct He as [(-> & -> & ->)|(-> & -> & ->)]; count.
  - rewrite lookup_insert_ne by done. destruct He as [(-> & _)|(-> & _)]; count.
Qed.

(** Steps on semaphore [s], whose lock the core holds, takes or gives back. *)
Section Sem.
Context (start : sem_id → Z) (st st' : state) (G : gmap tcb entry) (L : place → list (tcb * entry))
  (H : sem_id → option (nat * gap)) (c : nat) (k : core) (s : sem_id) (h : option gap).
Context (HP : placed st G L) (HK : locked st H) (HC : counted start st H).
Context (Hc : (c < kMaxCores)%nat) (Hcores : recored c k st st').
Context (Hothers : ∀ s', s' ≠ s → sems st' s' = sems st s').
Context (Hready : ready st' = ready st).
Context (Hsec : section k = (λ g, (s, g)) <$> h).
Context (Hlock : lock_ (sems st' s) = bool_decide (is_Some h)).
Context (Hown : (∃ g, section (cores st c) = Some (s, g)) ∨
  section (cores st c) = None ∧ lock_ (sems st s) = false).

Lemma inv_sem es G' L' :
  log st' = log st ++ es → Forall (λ e, which e = s) es →
  balance (start s) (sems st' s) (log st') s (default Even h) →
  threads st' = fst <$> G' → owns G' L' → L' Ready = L Ready →
  (∀ s', s' ≠ s → L' (Waiting s') = L (Waiting s')) →
  L' (Waiting s) = blocked s <$> q (sems st' s) → core_shape k (L' (OnCore c)) →
  (∀ c', c' ≠ c → L' (OnCore c') = L (OnCore c')) → logged (log st') G' → inv start st'.
Proof.
  intros Hl Hes Hb HT HO HR HWo HW Hs HL HG. exists G', L', (<[s := (λ g, (c, g)) <$> h]> H).
  split; [|split; [|split]]; [| | |done].
  - eapply placed_update; try done.
    + rewrite HR, Hready. apply HP.
    + intros s'. destruct (decide (s' = s)) as [->|]; [done|].
      rewrite HWo, Hothers by done. apply HP.
  - eapply locked_change; try done.
    + intros s' g. destruct Hown as [[g' ->]|[-> _]]; naive_solver.
    + intros c' g HH. destruct Hown as [[g' Hg]|[_ Hf]].
      * assert (H s = Some (c, g')) by by apply HK. naive_solver.
      * rewrite (locked_lock _ _ HK), HH in Hf. done.
    + intros s'. case_decide; subst; [done|]. by rewrite Hothers.
  - eapply (counted_other start st st' H s); try done.
    + intros s' Hne. fn_simp. by rewrite Hothers.
    + by exists es.
    + fn_simp. by destruct h.
Qed.

(** The same threads stay in the core's hands. *)
Lemma inv_sem_same es :
  log st' = log st ++ es → Forall (λ e, which e = s) es →
  balance (start s) (sems st' s) (log st') s (default Even h) →
  threads st' = threads st → q (sems st' s) = q (sems st s) →
  core_shape k (L (OnCore c)) → logged (log st') G → inv start st'.
Proof.
  intros Hl Hes Hb HT Hq Hs HG. apply (inv_sem es G L); try done; try apply HP.
  - rewrite HT. apply HP.
  - rewrite Hq. apply HP.
Qed.

(** The running thread is let through, or returns. *)
Lemma inv_sem_entry es i t a d d' :
  log st' = log st ++ es → Forall (λ e, which e = s) es →
  balance (start s) (sems st' s) (log st') s (default Even h) →
  threads st' = threads st → q (sems st' s) = q (sems st s) →
  L (OnCore c) = [(i, a); (t, (Active, d))] → core_shape k [(i, a); (t, (Active, d'))] →
  (G !! t = Some (Active, d) → logged (log st') (<[t := (Active, d')]> G)) → inv start st'.
Proof.
  intros Hl Hes Hb HT Hq HL Hs HG. pose proof (placed_owns _ _ _ HP) as HO.
  assert (G !! t = Some (Active, d)) as Ht
    by (apply (owns_lookup G L (OnCore c)); [done|rewrite HL; right; by left]).
  apply (inv_sem es (<[t := (Active, d')]> G) (<[OnCore c := [(i, a); (t, (Active, d'))]]> L));
    try (intros; by fn_simp); try by auto.
  - rewrite HT, (placed_threads _ _ _ HP), fmap_insert. symmetry. apply insert_id.
    by rewrite lookup_fmap, Ht.
  - eapply owns_set; [done|rewrite HL; apply Permutation_swap|apply Permutation_swap].
  - fn_simp. rewrite Hq. apply HP.
Qed.
End Sem.

(** ** The steps *)

#[local] Hint Constructors core_shape thread_point runnable asks : sched.

Section Steps.
Context (start : sem_id → Z) (st : state) (G : gmap tcb entry) (L : place → list (tcb * entry))
  (H : sem_id → option (nat * gap)) (c : nat).
Context (HP : placed st G L) (HK : locked st H) (HC : counted start st H) (HG : logged (log st) G).
Context (Hc : (c < kMaxCores)%nat).

(** The step of core [c] succeeds and the invariant holds after it. *)
Definition fine (f : call) : Prop := ∃ st', core_step c f st = Some st' ∧ inv start st'.

(** [E] says what core [c] is, [EL] what it has in its hands. *)
Ltac run E :=
  unfold fine, core_step; rewrite E; simpl;
  unfold boot_step, client_step, up_step, down_step, idle_step, stop, yield, go, sem_lock, set_pc, go_to;
  simpl; rewrite ?E; simpl; fn_simp; simpl.
Ltac recored E := split; [simpl; fn_simp; rewrite ?E; reflexivity|intros; simpl; by fn_simp].
Ltac quiet E lem := eapply lem; [exact HP | exact HK | exact HC | exact HG | exact Hc | recored E
  | reflexivity | reflexivity | rewrite E; reflexivity | .. ].
Ltac shape EL :=
  rewrite ?EL; unfold stop_requests, yield_requests, down_requests, to_idle, clear_delete, clear_queue,
    clear_reschedule, run_next, run_idle; simpl; eauto with sched.
Ltac done_step E EL lem := eexists; split; [reflexivity|]; quiet E lem; try reflexivity; shape EL.

Lemma same_state f : core_step c f st = Some st → fine f.
Proof. intros E. exists st. split; [done|]. by exists G, L, H. Qed.

Lemma in_hand t v d : (t, (v, d)) ∈ L (OnCore c) → threads st !! t = Some v.
Proof.
  intros Hin. rewrite (placed_threads _ _ _ HP), lookup_fmap.
  by rewrite (owns_lookup G L (OnCore c) t (v, d) (placed_owns _ _ _ HP) Hin).
Qed.

Lemma in_hand_ne i t v w : L (OnCore c) = [(i, v); (t, w)] → i ≠ t.
Proof.
  intros EL ->. pose proof (owns_nodup _ _ (placed_owns _ _ _ HP) (OnCore c)) as Hn.
  rewrite EL in Hn. apply NoDup_cons in Hn as [Hn _]. apply Hn. by left.
Qed.

Lemma boot_fine f p i :
  cores st c = Core (MkPerCore p None None None None None None (Some i)) Boot →
  L (OnCore c) = [(i, unborn)] → fine f.
Proof.
  intros E EL. destruct f as [| | | |x].
  1-4: run E; done_step E EL inv_local.
  destruct (threads st !! x) as [v|] eqn:Ex.
  - apply same_state. run E. by rewrite Ex.
  - run E. rewrite Ex. done_step E EL inv_new.
Qed.

Ltac schedule_step E EL hands resume due :=
  eexists; split; [reflexivity|];
  eapply (inv_schedule start st _ G L H c _ HP HK HC HG Hc)
    with (l := hands) (k0 := resume) (d := due);
  [recored E|reflexivity|reflexivity|rewrite E; reflexivity|reflexivity|reflexivity|exact EL|..];
  shape EL.

Lemma boot_schedule_fine f p i x :
  cores st c = Core (MkPerCore p None None None None None None (Some i)) (BootSchedule x) →
  L (OnCore c) = [(i, unborn); (x, (Saved Entry, None))] → fine f.
Proof. intros E EL. run E. schedule_step E EL [(i, unborn)] Entry (@None sem_id). Qed.

Lemma go_schedule_fine f p i t x :
  cores st c = Core (MkPerCore p None None None None None (Some t) (Some i)) (GoSchedule x) →
  L (OnCore c) = [(i, parked); (t, active); (x, (Saved Entry, None))] → fine f.
Proof. intros E EL. run E. schedule_step E EL [(i, parked); (t, active)] Entry (@None sem_id). Qed.

Lemma up_schedule_fine f p i t s x :
  cores st c = Core (MkPerCore p None None None None None (Some t) (Some i)) (UpSchedule s x) →
  L (OnCore c) = [(i, parked); (t, active); (x, (Saved (AfterDown s), Some s))] → fine f.
Proof. intros E EL. run E. schedule_step E EL [(i, parked); (t, active)] (AfterDown s) (Some s). Qed.

Lemma idle_resched_fine f p i t :
  cores st c = Core (MkPerCore p None (Some t) None None None (Some i) (Some i)) IdleResched →
  L (OnCore c) = [(i, active); (t, (Saved AfterYield, None))] → fine f.
Proof. intros E EL. run E. schedule_step E EL [(i, active)] AfterYield (@None sem_id). Qed.

(** Steps of the core alone. *)
Lemma local_fine f p i pt :
  cores st c = Core (MkPerCore p None None None None None (Some i) (Some i)) pt →
  pt = IdleEntry ∨ pt = IdleQueue ∨ pt = IdleResched →
  L (OnCore c) = [(i, active)] → fine f.
Proof. intros E Hpt EL. destruct Hpt as [->|[->| ->] ]; run E; done_step E EL inv_local. Qed.

Lemma idle_got_fine f p i x k d :
  cores st c = Core (MkPerCore p None None None None None (Some i) (Some i)) (IdleGot x) →
  runnable k d → L (OnCore c) = [(i, active); (x, (Saved k, d))] → fine f.
Proof. intros E Hr EL. run E. done_step E EL inv_local. Qed.

Lemma idle_next_fine f p i :
  cores st c = Core (MkPerCore p None None None None None (Some i) (Some i)) IdleNext →
  L (OnCore c) = [(i, active)] → fine f.
Proof.
  intros E EL. destruct (ready st) as [|x r] eqn:Er.
  - apply same_state. run E. unfold next. by rewrite Er.
  - run E. unfold next. rewrite Er. simpl. rewrite E. eexists; split; [reflexivity|].
    quiet E inv_next; [reflexivity|exact Er|reflexivity|]. intros. shape EL.
Qed.

(** What is left to do for the thread that has just left the core. *)
Lemma idle_delete_fine f p i t k del res que add unl :
  cores st c = Core (MkPerCore p del res que add unl (Some i) (Some i)) IdleDelete →
  asks t k del res que add unl → L (OnCore c) = [(i, active); (t, (Saved k, None))] → fine f.
Proof.
  intros E Ha EL. destruct Ha as [| |s]; run E; try done_step E EL inv_local.
  pose proof (in_hand t (Saved AfterStop) None ltac:(rewrite EL; right; by left)) as Ht.
  unfold delete_tcb. rewrite Ht. simpl. fn_simp. simpl. rewrite E. simpl.
  eexists; split; [reflexivity|]. quiet E inv_delete; [reflexivity|reflexivity|exact EL|shape EL].
Qed.

Lemma idle_queue_yield_fine f p i t :
  cores st c = Core (MkPerCore p None (Some t) None None None (Some i) (Some i)) IdleQueue →
  L (OnCore c) = [(i, active); (t, (Saved AfterYield, None))] → fine f.
Proof. intros E EL. run E. done_step E EL inv_local. Qed.

(** The context switches. *)
Lemma boot_switch_fine f i :
  cores st c =
    Core (MkPerCore None None None None None None (Some i) (Some i)) (Switch AfterStop) →
  L (OnCore c) = [(i, unborn)] → fine f.
Proof.
  intros E EL. run E. unfold switch_to. rewrite E. simpl.
  rewrite (in_hand i (Saved IdleEntry) None ltac:(rewrite EL; by left)).
  unfold go_to. simpl. rewrite E. eexists; split; [reflexivity|].
  assert (G !! i = Some unborn) as Hi by (apply (owns_lookup G L (OnCore c)); [apply HP|rewrite EL; by left]).
  eapply (inv_quiet start st _ G L H c _ HP HK HC HG Hc)
    with (G' := <[i := active]> G) (L' := <[OnCore c := [(i, active)]]> L);
    [recored E|reflexivity|reflexivity|rewrite E; reflexivity|..]; try (intros; by fn_simp).
  - simpl. by rewrite (placed_threads _ _ _ HP), fmap_insert.
  - eapply owns_set; [apply HP|by rewrite EL|done].
  - fn_simp. apply HP.
  - fn_simp. shape EL.
  - intros t. destruct (decide (t = i)) as [->|]; [by rewrite lookup_insert_eq, Hi|].
    by rewrite lookup_insert_ne.
Qed.

Lemma thread_switch_fine f i t k del res que add unl :
  cores st c = Core (MkPerCore (Some t) del res que add unl (Some i) (Some i)) (Switch k) →
  asks t k del res que add unl → L (OnCore c) = [(i, parked); (t, active)] → fine f.
Proof.
  intros E Ha EL. run E. unfold switch_to. rewrite E. simpl.
  rewrite (in_hand t Active None ltac:(rewrite EL; right; by left)). simpl.
  rewrite lookup_insert_ne by (by apply not_eq_sym, (in_hand_ne _ _ _ _ EL)).
  rewrite (in_hand i (Saved IdleDelete) None ltac:(rewrite EL; by left)).
  unfold go_to. simpl. rewrite E. eexists; split; [reflexivity|].
  quiet E inv_states; [reflexivity|reflexivity|exact EL|]. shape EL.
Qed.

Lemma idle_switch_fine f i x k d :
  cores st c = Core (MkPerCore (Some i) None None None None None (Some x) (Some i)) (Switch IdleDelete) →
  runnable k d → L (OnCore c) = [(i, active); (x, (Saved k, d))] → fine f.
Proof.
  intros E Hr EL. run E. unfold switch_to. rewrite E. simpl.
  pose proof (in_hand_ne _ _ _ _ EL) as Hne.
  rewrite (in_hand i Active None ltac:(rewrite EL; by left)). simpl.
  rewrite lookup_insert_ne by done.
  rewrite (in_hand x (Saved k) d ltac:(rewrite EL; right; by left)).
  unfold go_to. simpl. rewrite E, insert_insert_ne by done. eexists; split; [reflexivity|].
  destruct Hr; (quiet E inv_states; [reflexivity|reflexivity|exact EL|]; shape EL).
Qed.

(** ** The semaphore's steps *)

Lemma held s g : section (cores st c) = Some (s, g) → lock_ (sems st s) = true ∧
  balance (start s) (sems st s) (log st) s g.
Proof.
  intros Hs. assert (H s = Some (c, g)) as HH by by apply HK.
  split; [by rewrite (locked_lock _ _ HK), HH|]. specialize (HC s). by rewrite HH in HC.
Qed.

Lemma free s : lock_ (sems st s) = false → balance (start s) (sems st s) (log st) s Even.
Proof.
  rewrite (locked_lock _ _ HK). intros Hf. specialize (HC s).
  destruct (H s); [done|exact HC].
Qed.

(** [sem E lem s h events]: what the steps on semaphore [s] have in common; [h] is the
    stage of the critical section afterwards, [events] the events of the step. *)
Ltac sem E lem s h events :=
  eexists; split; [reflexivity|];
  eapply (lem start st _ G L H c _ s h HP HK HC Hc) with (es := events);
  [recored E|intros; simpl; by fn_simp|reflexivity|reflexivity|simpl; fn_simp; simpl
  |first [left; eexists; rewrite E; reflexivity|right; rewrite E; done]
  |simpl; rewrite ?E, <- ?app_assoc, ?app_nil_r; reflexivity|by repeat constructor
  |simpl; fn_simp; simpl; unfold balance in *; simpl in *; rewrite ?app_nil_r; count
  |try reflexivity|simpl; try (fn_simp; reflexivity)|..].

Lemma lock_fine p i t s f pt :
  cores st c = Core (MkPerCore p None None None None None (Some t) (Some i)) Client →
  L (OnCore c) = [(i, parked); (t, active)] →
  f = Up s ∧ pt = UpLocked s ∨ f = Down s ∧ pt = DownLocked s → fine f.
Proof.
  intros E EL Hf. destruct (lock_ (sems st s)) eqn:El.
  - apply same_state. destruct Hf as [[-> _]|[-> _]]; run E; by rewrite El.
  - pose proof (free s El) as Hb.
    destruct Hf as [[-> ->]|[-> ->]]; run E; rewrite El; (sem E inv_sem_same s (Some Even) (@nil event);
      [done|shape EL|done]).
Qed.

Lemma client_fine f p i t :
  cores st c = Core (MkPerCore p None None None None None (Some t) (Some i)) Client →
  L (OnCore c) = [(i, parked); (t, active)] → fine f.
Proof.
  intros E EL. destruct f as [| |s|s|x].
  - run E. done_step E EL inv_local.
  - run E. done_step E EL inv_local.
  - eapply lock_fine; eauto.
  - eapply lock_fine; eauto.
  - destruct (threads st !! x) as [v|] eqn:Ex.
    + apply same_state. run E. by rewrite Ex.
    + run E. rewrite Ex. done_step E EL inv_new.
Qed.

Section Thread.
Context (p : option tcb) (i t : tcb) (pt : point) (d : option sem_id) (s : sem_id).
Context (E : cores st c = Core (MkPerCore p None None None None None (Some t) (Some i)) pt).
Context (EL : L (OnCore c) = [(i, parked); (t, (Active, d))]).

Lemma up_locked_fine f : pt = UpLocked s → d = None → fine f.
Proof.
  intros -> ->. destruct (held s Even ltac:(by rewrite E)) as [El Hb]. run E.
  destruct (Z.ltb_spec (counter (sems st s)) 0).
  - sem E inv_sem_same s (Some Popping) [Event Upped (Some t) s]; [done|shape EL|].
    simpl. rewrite E. by apply logged_other.
  - sem E inv_sem_same s (Some Even) [Event Upped (Some t) s]; [done|shape EL|].
    simpl. rewrite E. by apply logged_other.
Qed.

Lemma unlock_fine f : pt = UpUnlock s → d = None → fine f.
Proof.
  intros -> ->. destruct (held s Even ltac:(by rewrite E)) as [El Hb]. run E.
  sem E inv_sem_same s (@None gap) (@nil event); [done|shape EL|done].
Qed.

Lemma down_locked_fine f : pt = DownLocked s → d = None → fine f.
Proof.
  intros -> ->. destruct (held s Even ltac:(by rewrite E)) as [El Hb]. run E.
  destruct (Z.ltb_spec (counter (sems st s) - 1) 0).
  - sem E inv_sem_same s (Some Pushing) [Event Downed (Some t) s]; [done|shape EL|].
    simpl. rewrite E. by apply logged_other.
  - sem E inv_sem_entry s (Some Even) [Event Downed (Some t) s; Event Granted (Some t) s];
      [done|exact EL|shape EL|].
    simpl. rewrite E. intros Ht. eapply logged_entry; [by left|done|]. by apply logged_other.
Qed.

Lemma down_block_fine f : pt = DownBlock s → d = None → fine f.
Proof. intros -> ->. run E. done_step E EL inv_local. Qed.

Lemma down_unlock_fine f : pt = DownUnlock s → d = Some s → fine f.
Proof.
  intros -> ->. destruct (held s Even ltac:(by rewrite E)) as [El Hb]. run E.
  sem E inv_sem_entry s (@None gap) [Event Returned (Some t) s]; [done|exact EL|shape EL|].
  simpl. rewrite E. intros Ht. eapply logged_entry; [by right|done|done].
Qed.

(** A thread that was woken returns from [down()]. *)
Lemma after_down_fine f : pt = AfterDown s → d = Some s → fine f.
Proof.
  intros -> ->. run E. eexists; split; [reflexivity|].
  assert (G !! t = Some (Active, Some s)) as Ht
    by (apply (owns_lookup G L (OnCore c)); [apply HP|rewrite EL; right; by left]).
  exists (<[t := active]> G), (<[OnCore c := [(i, parked); (t, active)]]> L), H.
  split; [|split; [|split]].
  - eapply (placed_update st); [exact HP|recored E|..]; try done; fn_simp; try apply HP; try by intros; fn_simp.
    + simpl. rewrite fmap_insert, (placed_threads _ _ _ HP). symmetry. apply insert_id.
      by rewrite lookup_fmap, Ht.
    + eapply owns_set; [apply HP|rewrite EL; apply Permutation_swap|apply Permutation_swap].
    + shape EL.
  - eapply locked_frame; [exact HK|recored E|done|by rewrite E].
  - eapply (counted_other start st _ H s); [exact HC|done| |].
    + simpl. rewrite E. eexists. split; [done|]. by repeat constructor.
    + simpl. pose proof (HC s) as Hb. unfold balance in *. rewrite !event_total_app. by rewrite !Z.add_0_r.
  - simpl. rewrite E. eapply logged_entry; [by right|done|done].
Qed.

Lemma resume_fine f : pt = Entry ∨ pt = AfterYield → d = None → fine f.
Proof. intros [-> | ->] ->; run E; done_step E EL inv_local. Qed.

(** [up()] takes the first waiter; there is one. *)
Lemma up_pop_fine f : pt = UpPop s → d = None → fine f.
Proof.
  intros -> ->. destruct (held s Popping ltac:(by rewrite E)) as [El Hb]. run E.
  pose proof (placed_waiting _ _ _ HP s) as Hw.
  destruct (q (sems st s)) as [|x r] eqn:Eq; [destruct Hb as (_ & Hb); rewrite Eq in Hb; simpl in Hb; lia|].
  pose proof (owns_move G L (Waiting s) (OnCore c) x (Saved (AfterDown s), None) (blocked s <$> r)
    (L (OnCore c) ++ [blocked s x]) (placed_owns _ _ _ HP) ltac:(done) ltac:(by rewrite Hw)
    ltac:(symmetry; apply Permutation_cons_append)) as HO1.
  pose proof (owns_set _ _ (OnCore c) x (Saved (AfterDown s), None) (Saved (AfterDown s), Some s)
    (L (OnCore c)) (L (OnCore c) ++ [(x, (Saved (AfterDown s), Some s))]) HO1) as HO2. fn_simp.
  specialize (HO2 ltac:(symmetry; apply Permutation_cons_append)
    ltac:(symmetry; apply Permutation_cons_append)).
  assert (G !! x = Some (Saved (AfterDown s), None)) as Hx.
  { apply (owns_lookup G L (Waiting s)); [apply HP|]. rewrite Hw. by left. }
  eexists; split; [reflexivity|].
  eapply (inv_sem start st _ G L H c _ s (Some Even) HP HK HC Hc)
    with (es := [Event Granted (Some x) s]) (11 := HO2); try (intros; simpl; by fn_simp).
  - recored E.
  - simpl. fn_simp. done.
  - left. exists Popping. by rewrite E.
  - by repeat constructor.
  - simpl. fn_simp. unfold balance in *. rewrite Eq in Hb. simpl in *. count.
  - simpl. rewrite fmap_insert, (placed_threads _ _ _ HP). symmetry. apply insert_id.
    by rewrite lookup_fmap, Hx.
  - fn_simp. shape EL.
  - eapply logged_entry; [by left|done|done].
Qed.
End Thread.

(** The idle thread queues the thread that blocked, then gives the lock back. *)
Lemma idle_queue_fine f p i t s :
  cores st c = Core (MkPerCore p None None (Some t) (Some s) (Some s) (Some i) (Some i)) IdleQueue →
  L (OnCore c) = [(i, active); (t, (Saved (AfterDown s), None))] → fine f.
Proof.
  intros E EL. destruct (held s Pushing ltac:(by rewrite E)) as [El Hb]. run E.
  pose proof (placed_waiting _ _ _ HP s) as Hw.
  pose proof (owns_move G L (OnCore c) (Waiting s) t (Saved (AfterDown s), None) [(i, active)]
    (L (Waiting s) ++ [blocked s t]) (placed_owns _ _ _ HP) ltac:(done)
    ltac:(rewrite EL; apply Permutation_swap) ltac:(symmetry; apply Permutation_cons_append)) as HO.
  eexists; split; [reflexivity|].
  eapply (inv_sem start st _ G L H c _ s (Some Even) HP HK HC Hc) with (es := []) (11 := HO);
    try (intros; simpl; by fn_simp).
  - recored E.
  - simpl. fn_simp. done.
  - left. exists Pushing. by rewrite E.
  - simpl. by rewrite app_nil_r.
  - simpl. fn_simp. unfold balance in *. simpl in *. rewrite length_app. simpl. lia.
  - apply HP.
  - simpl. fn_simp. simpl. by rewrite Hw, fmap_app.
  - fn_simp. shape EL.
Qed.

Lemma idle_unlock_fine f p i t s :
  cores st c = Core (MkPerCore p None None (Some t) (Some s) (Some s) (Some i) (Some i)) IdleUnlock →
  L (OnCore c) = [(i, active)] → fine f.
Proof.
  intros E EL. destruct (held s Even ltac:(by rewrite E)) as [El Hb]. run E. fn_simp. simpl.
  sem E inv_sem_same s (@None gap) (@nil event); [done|shape EL|done].
Qed.

(** ** Every step *)

Lemma thread_fine f p i t k d :
  cores st c = Core (MkPerCore p None None None None None (Some t) (Some i)) k → thread_point k d →
  L (OnCore c) = [(i, parked); (t, (Active, d))] → fine f.
Proof.
  intros E Hk EL. destruct Hk; eauto using client_fine, resume_fine, up_locked_fine, up_pop_fine,
    unlock_fine, down_locked_fine, down_block_fine, down_unlock_fine, after_down_fine.
Qed.

Lemma core_fine f : fine f.
Proof.
  pose proof (placed_core _ _ _ HP c Hc) as Hs.
  remember (cores st c) as k eqn:E. remember (L (OnCore c)) as l eqn:EL. symmetry in E, EL.
  destruct Hs; eauto 6 using boot_fine, boot_schedule_fine, boot_switch_fine, thread_fine,
    go_schedule_fine, up_schedule_fine, thread_switch_fine, local_fine, idle_next_fine, idle_got_fine,
    idle_switch_fine, idle_delete_fine, idle_unlock_fine, idle_resched_fine.
  match goal with Ha : asks _ _ _ _ _ _ _ |- _ => inversion Ha; subst end;
    eauto using idle_queue_fine, idle_queue_yield_fine.
Qed.
End Steps.

(** ** Reachable states *)

Lemma inv_booted start : (∀ s, 0 ≤ start s) → inv start (booted start).
Proof.
  intros Hst.
  set (L p := match p with OnCore c => if decide (c < kMaxCores)%nat then [(c, unborn)] else [] | _ => [] end).
  set (G := (λ v, (v, @None sem_id)) <$> idle_threads).
  assert (∀ t v, idle_threads !! t = Some v ↔ v = Saved IdleEntry ∧ (t < kMaxCores)%nat) as HT.
  { intros t v. unfold idle_threads. rewrite <- elem_of_list_to_map.
    - rewrite list_elem_of_fmap. setoid_rewrite elem_of_seq. naive_solver lia.
    - by apply (bool_decide_unpack _). }
  exists G, L, (λ _, None). split; [|split; [|split]].
  - split; simpl; try done.
    + split.
      * intros [| |c]; simpl; try apply NoDup_nil_2. case_decide; [apply NoDup_singleton|apply NoDup_nil_2].
      * intros p p' t. destruct p as [| |c], p' as [| |c']; simpl; repeat case_decide; set_solver.
      * intros t [v d]. unfold G. rewrite lookup_fmap, fmap_Some. setoid_rewrite HT. split.
        { intros (v' & [-> Ht] & [= -> ->]). exists (OnCore t). simpl. rewrite decide_True by done. by left. }
        { intros [[| |c] Hin]; simpl in Hin; [set_solver|set_solver|]. case_decide; [|set_solver].
          apply list_elem_of_singleton in Hin. naive_solver. }
    + intros c Hc. rewrite decide_True by done. constructor.
    + intros c Hc. by rewrite decide_False.
  - split; [done|]. intros s c g. simpl. naive_solver.
  - intros s. specialize (Hst s). unfold balance, total. simpl. lia.
  - split; [constructor|]. intros t s. unfold G. rewrite lookup_fmap. simpl.
    by destruct (idle_threads !! t).
Qed.

Lemma inv_progress start st c f :
  inv start st → (c < kMaxCores)%nat → ∃ st', core_step c f st = Some st' ∧ inv start st'.
Proof. intros (G & L & H & HP & HK & HC & HG) Hc. by eapply core_fine. Qed.

Lemma sched_inv_reachable start st :
  (∀ s, 0 ≤ start s) → rtc step (booted start) st → inv start st.
Proof.
  intros Hst Hr. apply inv_booted in Hst. induction Hr as [|st1 st2 st3 (c & f & Hc & E) _ IH]; [done|].
  apply IH. destruct (inv_progress start st1 c f Hst Hc) as (st' & E' & Hinv). congruence.
Qed.
