(* ===== verification/SchedProps.v ===== *)
(** * What the scheduler, the semaphores and the mutexes guarantee

    Consequences of the invariant for every interleaving of the cores, from the
    moment the cores are released; [start s] is the count semaphore [s] is
    constructed with. *)

From stdpp Require Import functions.
From S2P Require Import Prelude Sched SchedInv.

(** ** Places *)

(** The threads a core has in its hands: its idle thread, the thread whose code
    it runs or is about to switch away from, and the one it is about to queue,
    to delete or to run. *)
Definition hands (k : core) : list tcb :=
  option_list (idle (pc k)) ++
  match at_ k with
  | Switch IdleDelete => option_list (curr (pc k))
  | Switch _ => option_list (prev (pc k))
  | IdleGot x => [x]
  | IdleDelete | IdleQueue =>
      option_list (to_delete (pc k)) ++ option_list (to_queue (pc k)) ++
      option_list (to_reschedule (pc k))
  | IdleResched => option_list (to_reschedule (pc k))
  | IdleEntry | IdleNext | IdleUnlock => []
  | BootSchedule x => [x]
  | GoSchedule x | UpSchedule _ x => option_list (curr (pc k)) ++ [x]
  | _ => option_list (curr (pc k))
  end.

(** The thread on whose stack a core is; none while it is still booting. *)
Definition executing (k : core) : option tcb :=
  match at_ k with Switch _ => prev (pc k) | _ => curr (pc k) end.

Definition at_place (st : state) (p : place) : list tcb :=
  match p with
  | Ready => ready st
  | Waiting s => q (sems st s)
  | OnCore c => if decide (c < kMaxCores)%nat then hands (cores st c) else []
  end.

Lemma hands_shape k l : core_shape k l → hands k = l.*1.
Proof.
  intros Hs. destruct Hs; try done;
    match goal with Ha : _ |- _ => destruct Ha; done end.
Qed.

Lemma at_place_owned st G L p : placed st G L → at_place st p = (L p).*1.
Proof.
  intros HP. destruct p as [|s|c]; simpl.
  - symmetry. apply HP.
  - rewrite (placed_waiting _ _ _ HP), <- list_fmap_compose. symmetry. apply list_fmap_id.
  - case_decide as Hc; [by apply hands_shape, HP|by rewrite (placed_nocore _ _ _ HP)].
Qed.

Lemma executing_active k l t :
  core_shape k l → executing k = Some t → ∃ d, (t, (Active, d)) ∈ l.
Proof.
  intros Hs. destruct Hs as [| | |? ? ? ? ? Hk| | |? ? ? ? ? ? ? ? Hk| | | | | | | | | |];
    try destruct Hk; intros [= ->]; eexists; (by left) || (right; by left).
Qed.

(** ** Counting by thread *)

(** The threads that did something with a semaphore, in order. *)
Definition doers (e : event_kind) (s : sem_id) (l : list event) : list tcb :=
  omap who (filter (λ x, what x = e ∧ which x = s) l).

Definition times (t : tcb) (l : list tcb) : Z := Z.of_nat (length (filter (t =.) l)).

Lemma times_cons t x l : times t (x :: l) = b2z (bool_decide (t = x)) + times t l.
Proof.
  unfold times. case_bool_decide.
  - rewrite filter_cons_True by done. simpl. lia.
  - by rewrite filter_cons_False.
Qed.

#[local] Instance times_proper t : Proper (Permutation ==> eq) (times t).
Proof. intros l l' Hl. unfold times. by rewrite Hl. Qed.

Lemma times_submseteq xs ys : (∀ t, times t xs ≤ times t ys) → xs ⊆+ ys.
Proof.
  revert ys. induction xs as [|x xs IH]; intros ys Hle; [apply submseteq_nil_l|].
  assert (x ∈ ys) as Hx.
  { specialize (Hle x). rewrite times_cons, bool_decide_eq_true_2 in Hle by done.
    destruct (filter (x =.) ys) as [|y l] eqn:E;
      [unfold times in Hle; rewrite E in Hle; simpl in Hle; lia|].
    assert (y ∈ filter (x =.) ys) as Hy by (rewrite E; by left).
    by apply list_elem_of_filter in Hy as [-> Hy]. }
  apply elem_of_Permutation in Hx as [ys' Hys]. rewrite Hys. apply submseteq_skip, IH.
  intros t. specialize (Hle t). rewrite Hys, !times_cons in Hle. lia.
Qed.

Lemma doers_spec e s l :
  Forall (λ x, is_Some (who x)) l →
  Z.of_nat (length (doers e s l)) = total e s l ∧ ∀ t, times t (doers e s l) = by_thread e t s l.
Proof.
  unfold doers, total. induction 1 as [|x l [t Ht] _ [IH1 IH2]]; [done|].
  assert (∀ t', by_thread e t' s (x :: l) =
    b2z (bool_decide (what x = e ∧ which x = s ∧ who x = Some t')) + by_thread e t' s l) as Hby.
  { intros t'. unfold by_thread. case_bool_decide.
    - rewrite filter_cons_True by done. simpl. lia.
    - by rewrite filter_cons_False. }
  setoid_rewrite Hby. destruct (decide (what x = e ∧ which x = s)) as [Hx|Hx].
  - rewrite filter_cons_True by done. simpl. rewrite Ht. simpl. split; [rewrite !Nat2Z.inj_succ; f_equal; exact IH1|].
    intros t'. rewrite times_cons, IH2. repeat case_bool_decide; simpl; naive_solver.
  - rewrite filter_cons_False by done. split; [done|]. intros t'. rewrite IH2.
    by rewrite bool_decide_eq_false_2 by naive_solver.
Qed.

(** ** Progress of one core *)

(** Core [c] takes several steps while the others stand still. *)
Fixpoint run_core (c : nat) (fs : list call) (st : state) : option state :=
  match fs with
  | [] => Some st
  | f :: fs => st' ← core_step c f st; run_core c fs st'
  end.

(** A bound on the steps from a point of a critical section to its end. *)
Definition rank (p : point) : nat :=
  match p with
  | DownLocked _ => 7
  | DownBlock _ => 6
  | Switch _ => 5
  | IdleDelete | UpLocked _ => 4
  | IdleQueue | UpPop _ => 3
  | UpSchedule _ _ => 2
  | _ => 1
  end.

Ltac fn_goal :=
  repeat first [rewrite fn_lookup_insert | rewrite fn_lookup_insert_ne by congruence].

(** Unfolds one step of a core whose state [E] gives. *)
Ltac one_step E :=
  unfold core_step; rewrite ?E; simpl;
  unfold boot_step, client_step, up_step, down_step, idle_step, switch_to, save_context, stop, yield,
    go, sem_lock, next, delete_tcb, set_pc, go_to; simpl; rewrite ?E; simpl; fn_goal; simpl.

Lemma run_step c f fs st st1 :
  core_step c f st = Some st1 → run_core c (f :: fs) st = run_core c fs st1.
Proof. simpl. by intros ->. Qed.

Lemma section_step start st c f st' s g :
  inv start st → (c < kMaxCores)%nat → section (cores st c) = Some (s, g) →
  core_step c f st = Some st' →
  lock_ (sems st' s) = false ∨
  (∃ g', section (cores st' c) = Some (s, g')) ∧
    (rank (at_ (cores st' c)) < rank (at_ (cores st c)))%nat.
Proof.
  intros (G & L & H & HP & _) Hc Hs Est.
  pose proof (placed_core _ _ _ HP c Hc) as Hsh. pose proof (in_hand st G L c HP) as Hin.
  remember (cores st c) as k eqn:E. remember (L (OnCore c)) as l eqn:EL. symmetry in E, EL.
  unfold section in Hs.
  destruct Hsh as [| | |? ? ? ? ? Hk| | |? ? ? ? ? ? ? ? Hk| | | | |? ? ? ? ? ? ? ? ? Hk|? ? ? ? ? ? ? ? Hk| | | |];
    try (inversion Hk; subst); simpl in Hs; simplify_eq; revert Est; one_step E;
    try (rewrite (Hin t Active None) by (right; by left); simpl;
      rewrite lookup_insert_ne by (by apply not_eq_sym, (in_hand_ne st G L c HP _ _ _ _ EL));
      rewrite (Hin i (Saved IdleDelete) None) by (by left));
    repeat case_match; intros [= <-]; simpl; rewrite ?E; simpl; fn_simp; simpl;
    first [by left|right; split; [by eexists|simpl; lia]].
Qed.

(** A thread leaves its core for the idle thread, which then does what it asked for. *)
Section Leaving.
Context (c : nat) (st : state) (t i : tcb).

Lemma switch_run k del res que add unl f :
  cores st c = Core (MkPerCore (Some t) del res que add unl (Some i) (Some i)) (Switch k) →
  i ≠ t → threads st !! t = Some Active → threads st !! i = Some (Saved IdleDelete) →
  ∃ st1, core_step c f st = Some st1 ∧ ready st1 = ready st ∧ sems st1 = sems st ∧
    threads st1 !! t = Some (Saved k) ∧
    cores st1 c = Core (MkPerCore (Some t) del res que add unl (Some i) (Some i)) IdleDelete.
Proof.
  intros E Hne Ht Hi. eexists. split.
  { one_step E. rewrite Ht. simpl. rewrite lookup_insert_ne, Hi by done. reflexivity. }
  simpl. fn_goal. rewrite E. split_and!; try done. by rewrite lookup_insert_ne, lookup_insert_eq.
Qed.

Lemma idle_reschedules p f1 f2 f3 :
  cores st c = Core (MkPerCore p None (Some t) None None None (Some i) (Some i)) IdleDelete →
  ∃ st', run_core c [f1; f2; f3] st = Some st' ∧ at_ (cores st' c) = IdleNext ∧
    ready st' = ready st ++ [t] ∧ threads st' = threads st.
Proof. intros E. eexists. split; [do 4 one_step E; reflexivity|]. simpl. by fn_goal. Qed.

Lemma idle_deletes p k f1 f2 f3 :
  cores st c = Core (MkPerCore p (Some t) None None None None (Some i) (Some i)) IdleDelete →
  threads st !! t = Some (Saved k) →
  ∃ st', run_core c [f1; f2; f3] st = Some st' ∧ at_ (cores st' c) = IdleNext ∧
    ready st' = ready st ∧ threads st' = delete t (threads st).
Proof.
  intros E Ht. eexists. split; [do 2 one_step E; rewrite Ht; do 3 one_step E; reflexivity|].
  simpl. by fn_goal.
Qed.

Lemma idle_queues p s f1 f2 f3 f4 :
  cores st c = Core (MkPerCore p None None (Some t) (Some s) (Some s) (Some i) (Some i)) IdleDelete →
  ∃ st', run_core c [f1; f2; f3; f4] st = Some st' ∧ at_ (cores st' c) = IdleNext ∧
    sems st' s = MkSemaphore (q (sems st s) ++ [t]) false (counter (sems st s)) ∧
    threads st' = threads st.
Proof. intros E. eexists. split; [do 5 one_step E; reflexivity|]. simpl. by fn_goal. Qed.

Lemma down_blocks p s f1 f2 :
  cores st c = Core (MkPerCore p None None None None None (Some t) (Some i)) Client →
  lock_ (sems st s) = false → counter (sems st s) ≤ 0 →
  ∃ st1, run_core c [Down s; f1; f2] st = Some st1 ∧
    cores st1 c = Core (MkPerCore (Some t) None None (Some t) (Some s) (Some s) (Some i) (Some i))
      (Switch (AfterDown s)) ∧
    threads st1 = threads st ∧
    sems st1 s = MkSemaphore (q (sems st s)) true (counter (sems st s) - 1).
Proof.
  intros E Hl Hn. assert ((counter (sems st s) - 1 <? 0) = true) as Hn' by (apply Z.ltb_lt; lia).
  eexists. split; [do 2 one_step E; rewrite Hl; do 2 one_step E; rewrite Hn'; one_step E; reflexivity|].
  simpl. fn_goal. done.
Qed.
End Leaving.

Lemma run_core_app c fs gs st :
  run_core c (fs ++ gs) st = st' ← run_core c fs st; run_core c gs st'.
Proof.
  revert st. induction fs as [|f fs IH]; intros st; [done|]. simpl.
  destruct (core_step c f st) as [st1|]; simpl; [apply IH|done].
Qed.

(** A core changes only itself. *)
Lemma core_step_other c f st st' c' :
  core_step c f st = Some st' → c' ≠ c → cores st' c' = cores st c'.
Proof.
  intros E Hne. revert E.
  assert (∀ k st0, cores (set_core c k st0) c' = cores st0 c') as Hset.
  { intros k st0. simpl. by rewrite fn_lookup_insert_ne. }
  assert (∀ p st0, cores (go_to c p st0) c' = cores st0 c') as Hgo by (intros; apply Hset).
  assert (∀ g st0, cores (set_pc c g st0) c' = cores st0 c') as Hpc by (intros; apply Hset).
  unfold core_step, boot_step, client_step, up_step, down_step, idle_step, stop, yield, go, sem_lock,
    switch_to, save_context, delete_tcb, next.
  repeat case_match; intros E; try done;
    repeat (apply bind_Some in E as (? & ? & E)); repeat case_match; simplify_eq;
    rewrite ?Hgo, ?Hpc; done.
Qed.

(** A schedule: the core that takes each step, and what its thread calls if the
    core is in a thread's own code. *)
Fixpoint run_sched (l : list (nat * call)) (st : state) : option state :=
  match l with
  | [] => Some st
  | (c, f) :: l => st' ← core_step c f st; run_sched l st'
  end.

(** The steps of core [c] in a schedule. *)
Definition steps_of (c : nat) (l : list (nat * call)) : nat := length (filter (λ e, e.1 = c) l).

(** A critical section ends when its core has taken enough steps, whatever the
    other cores do in between. *)
Lemma section_ends start c s l : ∀ st g,
  inv start st → (c < kMaxCores)%nat → section (cores st c) = Some (s, g) →
  Forall (λ e, e.1 < kMaxCores)%nat l → (rank (at_ (cores st c)) ≤ steps_of c l)%nat →
  ∃ n st', run_sched (take n l) st = Some st' ∧ lock_ (sems st' s) = false.
Proof.
  unfold steps_of. induction l as [|[c' f] l IH]; intros st g Hinv Hc Hs Hl Hrank.
  { destruct (at_ (cores st c)); simpl in Hrank; lia. }
  apply Forall_cons in Hl as [Hc' Hl]. simpl in Hc'.
  destruct (inv_progress start st c' f Hinv Hc') as (st1 & E1 & Hinv1).
  assert (∀ g', section (cores st1 c) = Some (s, g') →
    (rank (at_ (cores st1 c)) ≤ length (filter (λ e, e.1 = c) l))%nat →
    ∃ n st', run_sched (take n ((c', f) :: l)) st = Some st' ∧ lock_ (sems st' s) = false) as Hgo.
  { intros g' Hs' Hr. destruct (IH st1 g' Hinv1 Hc Hs' Hl Hr) as (n & st' & E & Hf).
    exists (S n), st'. split; [|done]. simpl. by rewrite E1. }
  destruct (decide (c' = c)) as [->|Hne].
  - rewrite filter_cons_True in Hrank by done. simpl in Hrank.
    destruct (section_step start st c f st1 s g Hinv Hc Hs E1) as [Hf|[[g' Hs'] Hlt]].
    + exists 1%nat, st1. split; [|done]. simpl. by rewrite E1.
    + apply (Hgo g' Hs'). lia.
  - rewrite filter_cons_False in Hrank by done.
    pose proof (core_step_other c' f st st1 c E1 ltac:(congruence)) as Hcs.
    rewrite <- Hcs in Hs, Hrank. by apply (Hgo g).
Qed.

Section Guarantees.
Context (start : sem_id → Z) (Hstart : ∀ s, 0 ≤ start s).
Context (st : state) (Hr : rtc step (booted start) st).

(** C8: no reachable state faults.  In every interleaving of the cores, with
    threads that call [yield], [go], [up] and [down] and return as they please,
    whatever core runs next can: no [ASSERT] of [idle_loop] or [up] fails, no
    core switches to a TCB that is gone or whose context another core has in its
    registers, and no TCB is deleted twice or while its stack is in use. *)
Theorem scheduler_never_faults c f :
  (c < kMaxCores)%nat → is_Some (core_step c f st).
Proof.
  intros Hc. destruct (inv_progress start st c f) as (st' & -> & _); [|done|done].
  by apply sched_inv_reachable.
Qed.

(** C7: every thread is in exactly one place.  A TCB exists exactly when it is in
    the ready queue, in the queue of a semaphore or in the hands of a core; it
    is in only one of these places, and only once.  The thread on whose stack a
    core is has no context in memory, and every thread in a queue has one. *)
Theorem thread_in_one_place :
  (∀ t, is_Some (threads st !! t) ↔ ∃ p, t ∈ at_place st p) ∧
  (∀ p p' t, t ∈ at_place st p → t ∈ at_place st p' → p = p') ∧
  (∀ p, NoDup (at_place st p)) ∧
  (∀ c t, (c < kMaxCores)%nat → executing (cores st c) = Some t →
     t ∈ at_place st (OnCore c) ∧ threads st !! t = Some Active) ∧
  (∀ t p, t ∈ at_place st p → (∀ c, p ≠ OnCore c) → ∃ k, threads st !! t = Some (Saved k)).
Proof.
  destruct (sched_inv_reachable start st Hstart Hr) as (G & L & H & HP & _).
  pose proof (placed_owns _ _ _ HP) as HO. pose proof (at_place_owned st G L) as Hat.
  assert (∀ p t v d, (t, (v, d)) ∈ L p → threads st !! t = Some v) as Hst.
  { intros p t v d Hin. rewrite (placed_threads _ _ _ HP), lookup_fmap.
    by rewrite (owns_lookup G L p t _ HO Hin). }
  split; [|split; [|split; [|split]]].
  - intros t. rewrite (placed_threads _ _ _ HP), lookup_fmap, fmap_is_Some. split.
    + intros [v Hv]. apply (owns_iff _ _ HO) in Hv as [p Hp]. exists p.
      rewrite Hat by done. by eapply elem_of_keys.
    + intros [p Hp]. rewrite Hat in Hp by done. apply elem_of_keys_iff in Hp as [v Hv].
      exists v. by eapply owns_lookup.
  - intros p p' t. rewrite !Hat by done. apply HO.
  - intros p. rewrite Hat by done. apply HO.
  - intros c t Hc Ht. destruct (executing_active _ _ t (placed_core _ _ _ HP c Hc) Ht) as [d Hd].
    rewrite Hat by done. split; [by eapply elem_of_keys|by eapply Hst].
  - intros t p Hp Hne. rewrite Hat in Hp by done. apply elem_of_keys_iff in Hp as [[v d] Hv].
    destruct p as [|s|c]; [| |by destruct (Hne c)].
    + destruct (placed_ready _ _ _ HP) as [_ Hf]. rewrite Forall_forall in Hf.
      destruct (Hf _ Hv) as (k & d' & [= -> ->] & _). exists k. by eapply Hst.
    + rewrite (placed_waiting _ _ _ HP) in Hv. apply list_elem_of_fmap in Hv as (t' & [= -> -> ->] & Hin).
      exists (AfterDown s). eapply (Hst (Waiting s)). rewrite (placed_waiting _ _ _ HP).
      apply list_elem_of_fmap. by exists t'.
Qed.

(** C13: a semaphore's counter is what its comment says.  Whenever its lock is
    free, the counter is the initial count plus the [up()]s minus the [down()]s,
    its magnitude when it is negative is the number of waiting threads, and the
    destructor's assertion holds exactly when it is not negative.  And at every
    moment, also while the lock is taken, the counter has a value that an
    [int64_t] can have, as long as the initial count and the [up()]s together
    have, and fewer than 2^63 threads wait. *)
Theorem semaphore_counts_waiters s :
  let x := sems st s in
  (lock_ x = false →
   counter x = start s + total Upped s (log st) - total Downed s (log st) ∧
   Z.of_nat (length (q x)) = Z.max 0 (- counter x) ∧
   (sem_destroy x = Some tt ↔ 0 ≤ counter x)) ∧
  (start s + total Upped s (log st) < 2 ^ 63 → Z.of_nat (length (q x)) < 2 ^ 63 →
   - 2 ^ 63 ≤ counter x < 2 ^ 63).
Proof.
  intros x. destruct (sched_inv_reachable start st Hstart Hr) as (G & L & H & _ & HK & HC & _). split.
  - intros Hl. destruct (free start st H HK HC s Hl) as (Hc & Hw & _). split; [done|]. split; [done|].
    unfold sem_destroy. fold x in Hw. destruct (q x); simpl in Hw; [split; [lia|done]|].
    split; [done|lia].
  - intros Hu Hq. destruct (HC s) as [Hc Hb]. fold x in Hc, Hb.
    assert (0 ≤ total Downed s (log st)) by (unfold total; lia).
    destruct (from_option snd Even (H s)); simpl in Hb; lia.
Qed.

(** What the invariant says of the history of one semaphore. *)
Lemma history s :
  Forall (λ x, is_Some (who x)) (log st) ∧
  total Granted s (log st) ≤ start s + total Upped s (log st) ∧
  ∀ t, by_thread Returned t s (log st) ≤ by_thread Granted t s (log st).
Proof.
  destruct (sched_inv_reachable start st Hstart Hr) as (G & L & H & _ & _ & HC & [Hw HG]).
  split; [done|]. split.
  - specialize (HC s). destruct HC as [_ Hb]. destruct (H s) as [[c []]|]; simpl in Hb; lia.
  - intros t. rewrite HG. case_bool_decide; simpl; lia.
Qed.

(** A semaphore lets no more threads through than its count.  At any moment
    at most the initial count plus the number of [up()]s of [down()] calls have
    returned. *)
Theorem semaphore_bounds_returns s :
  total Returned s (log st) ≤ start s + total Upped s (log st).
Proof.
  destruct (history s) as (Hw & Hb & Hle).
  destruct (doers_spec Returned s (log st) Hw) as [E1 E2].
  destruct (doers_spec Granted s (log st) Hw) as [E3 E4].
  assert (doers Returned s (log st) ⊆+ doers Granted s (log st)) as Hs%submseteq_length.
  { apply times_submseteq. intros t. rewrite E2, E4. apply Hle. }
  lia.
Qed.

(** A thread is inside mutex [m]: it has returned from [lock()] more often than
    it has called [unlock()]. *)
Definition inside (t : tcb) (m : sem_id) : Prop :=
  by_thread Upped t m (log st) < by_thread Returned t m (log st).

(** C12: a mutex excludes.  As long as no thread has unlocked mutex [m] more often
    than it has locked it, two threads are never inside it together. *)
Theorem mutex_excludes m t1 t2 :
  start m = counter mutex_construct →
  (∀ t, by_thread Upped t m (log st) ≤ by_thread Returned t m (log st)) →
  inside t1 m → inside t2 m → t1 = t2.
Proof.
  unfold inside. intros Hm Hdis H1 H2. destruct (decide (t1 = t2)) as [|Hne]; [done|exfalso].
  destruct (history m) as (Hw & Hb & Hle).
  destruct (doers_spec Upped m (log st) Hw) as [E1 E2].
  destruct (doers_spec Granted m (log st) Hw) as [E3 E4].
  assert (t1 :: t2 :: doers Upped m (log st) ⊆+ doers Granted m (log st)) as Hs%submseteq_length.
  { apply times_submseteq. intros t. rewrite !times_cons, E2, E4.
    specialize (Hle t). specialize (Hdis t). repeat case_bool_decide; subst; simpl; try done; lia. }
  simpl in Hs, Hm. lia.
Qed.

(** C35: nobody spins on a semaphore for ever.  Whenever a semaphore's lock is
    taken there is a core that gives it back by the time it has taken seven steps
    of its own, however many steps the other cores take in between, in whatever
    order and whatever they do: also when the lock was taken by a [down()] that
    blocks, and is given back by the idle thread. *)
Theorem semaphore_lock_released s :
  lock_ (sems st s) = true →
  ∃ c, (c < kMaxCores)%nat ∧ ∀ l, Forall (λ e, e.1 < kMaxCores)%nat l → (7 ≤ steps_of c l)%nat →
    ∃ n st', run_sched (take n l) st = Some st' ∧ lock_ (sems st' s) = false.
Proof.
  intros Hl. pose proof (sched_inv_reachable start st Hstart Hr) as Hinv.
  pose proof Hinv as (G & L & H & _ & HK & _). rewrite (locked_lock _ _ HK) in Hl.
  apply bool_decide_eq_true in Hl as [[c g] Hg]. apply (locked_by _ _ HK) in Hg as [Hc Hs].
  exists c. split; [done|]. intros l Hcs H7. eapply section_ends; [done..|].
  destruct (at_ (cores st c)); simpl; lia.
Qed.

(** C36: an idle core runs the thread that has waited longest.  A core in its idle
    loop takes the first thread of the ready queue and, three steps later, is in
    that thread's code at the point where the thread left off. *)
Theorem idle_core_runs_next c t r fs :
  (c < kMaxCores)%nat → at_ (cores st c) = IdleNext → ready st = t :: r → length fs = 3%nat →
  ∃ st' k, run_core c fs st = Some st' ∧ threads st !! t = Some (Saved k) ∧
    at_ (cores st' c) = k ∧ executing (cores st' c) = Some t ∧ ready st' = r.
Proof.
  intros Hc Hat Hrd Hfs. destruct fs as [|f1 [|f2 [|f3 [|]]]]; try done.
  pose proof (sched_inv_reachable start st Hstart Hr) as (G & L & H & HP & _).
  destruct (placed_ready _ _ _ HP) as [El Hf].
  destruct (L Ready) as [|[t' e] l] eqn:EL; rewrite Hrd in El; simplify_eq/=.
  apply Forall_cons in Hf as [(k & d & Ee & Hrun) _]. simpl in Ee. subst e.
  assert (threads st !! t = Some (Saved k)) as Ht.
  { rewrite (placed_threads _ _ _ HP), lookup_fmap.
    rewrite (owns_lookup G L Ready t (Saved k, d)); [done|apply HP|rewrite EL; by left]. }
  pose proof (placed_core _ _ _ HP c Hc) as Hs. pose proof (in_hand st G L c HP) as Hin.
  remember (cores st c) as K eqn:E. remember (L (OnCore c)) as l0 eqn:EL0. symmetry in E, EL0.
  destruct Hs; simpl in Hat; simplify_eq; [by inversion H0|].
  assert (i ≠ t) as Hne.
  { intros ->. specialize (Hin t Active None ltac:(by left)). congruence. }
  eexists _, k. split.
  { one_step E. rewrite Hrd. simpl. rewrite E. one_step E. one_step E.
    rewrite (Hin i Active None) by (by left). simpl. by rewrite lookup_insert_ne, Ht by done. }
  unfold executing. simpl. fn_simp. simpl. split_and!; try done. by inversion Hrun.
Qed.

(** A core in the code of thread [t]. *)
Lemma client_core c t :
  (c < kMaxCores)%nat → at_ (cores st c) = Client → curr (pc (cores st c)) = Some t →
  ∃ p i, cores st c = Core (MkPerCore p None None None None None (Some t) (Some i)) Client ∧
    i ≠ t ∧ threads st !! t = Some Active ∧ threads st !! i = Some (Saved IdleDelete).
Proof.
  intros Hc Hat Hcu. pose proof (sched_inv_reachable start st Hstart Hr) as (G & L & H & HP & _).
  pose proof (placed_core _ _ _ HP c Hc) as Hs. pose proof (in_hand st G L c HP) as Hin.
  remember (cores st c) as K eqn:E. remember (L (OnCore c)) as l eqn:EL. symmetry in EL.
  destruct Hs; simpl in Hat, Hcu; simplify_eq. exists p, i. split; [done|].
  split; [by eapply (in_hand_ne st G L c)|]. split; eapply Hin; [right; by left|by left].
Qed.

(** What happens to a thread that leaves its core.  Run by itself, the core of
    a thread [t] that yields puts it at the back of the ready queue once its
    context is saved; if [t] returns, it frees the TCB and the stack; if [t] goes
    down on a semaphore whose count is used up, it puts [t] at the back of the
    semaphore's queue and gives its lock back.  Then the core is idle again. *)
Theorem thread_leaves_core c t :
  (c < kMaxCores)%nat → at_ (cores st c) = Client → curr (pc (cores st c)) = Some t →
  (∀ fs, length fs = 4%nat → ∃ st', run_core c (Yield :: fs) st = Some st' ∧
     at_ (cores st' c) = IdleNext ∧ ready st' = ready st ++ [t] ∧
     threads st' !! t = Some (Saved AfterYield)) ∧
  (∀ fs, length fs = 4%nat → ∃ st', run_core c (Return :: fs) st = Some st' ∧
     at_ (cores st' c) = IdleNext ∧ ready st' = ready st ∧ threads st' !! t = None) ∧
  (∀ s fs, lock_ (sems st s) = false → counter (sems st s) ≤ 0 → length fs = 7%nat →
     ∃ st', run_core c (Down s :: fs) st = Some st' ∧ at_ (cores st' c) = IdleNext ∧
       sems st' s = MkSemaphore (q (sems st s) ++ [t]) false (counter (sems st s) - 1) ∧
       threads st' !! t = Some (Saved (AfterDown s))).
Proof.
  intros Hc Hat Hcu. destruct (client_core c t Hc Hat Hcu) as (p & i & E & Hne & Ht & Hi).
  split; [|split].
  - intros [|f1 [|f2 [|f3 [|f4 [|]]]]] Hfs; try done.
    set (st1 := go_to c (Switch AfterYield) (set_pc c yield_requests st)).
    destruct (switch_run c st1 t i AfterYield None (Some t) None None None f1)
      as (st2 & E2 & Hrd & _ & Ht2 & Ec2); [simpl; fn_goal; by rewrite E|done..|].
    destruct (idle_reschedules c st2 t i _ f2 f3 f4 Ec2) as (st' & E' & Hat' & Hrd' & Hth').
    exists st'. rewrite Hrd', Hrd, Hth'. split; [|done].
    rewrite (run_step _ _ _ _ st1) by (unfold core_step; by rewrite E). by rewrite (run_step _ _ _ _ st2).
  - intros [|f1 [|f2 [|f3 [|f4 [|]]]]] Hfs; try done.
    set (st1 := go_to c (Switch AfterStop) (set_pc c stop_requests st)).
    destruct (switch_run c st1 t i AfterStop (Some t) None None None None f1)
      as (st2 & E2 & Hrd & _ & Ht2 & Ec2); [simpl; fn_goal; by rewrite E|done..|].
    destruct (idle_deletes c st2 t i _ _ f2 f3 f4 Ec2 Ht2) as (st' & E' & Hat' & Hrd' & Hth').
    exists st'. rewrite Hrd', Hrd, Hth', lookup_delete_eq. split; [|done].
    rewrite (run_step _ _ _ _ st1) by (unfold core_step; by rewrite E). by rewrite (run_step _ _ _ _ st2).
  - intros s [|f1 [|f2 [|f3 [|f4 [|f5 [|f6 [|f7 [|]]]]]]]] Hl Hn Hfs; try done.
    destruct (down_blocks c st t i p s f1 f2 E Hl Hn) as (st1 & E1 & Ec1 & Hth1 & Hs1).
    destruct (switch_run c st1 t i (AfterDown s) None None (Some t) (Some s) (Some s) f3)
      as (st2 & E2 & _ & Hs2 & Ht2 & Ec2); [done|done|by rewrite Hth1..|].
    destruct (idle_queues c st2 t i _ s f4 f5 f6 f7 Ec2) as (st' & E' & Hat' & Hs' & Hth').
    exists st'. rewrite Hs', Hs2, Hs1, Hth'. split; [|done].
    change (Down s :: _) with ([Down s; f1; f2] ++ [f3; f4; f5; f6; f7]).
    rewrite run_core_app, E1. simpl. by rewrite E2.
Qed.
End Guarantees.

(** ** A short run

    Core 0 boots, starts thread 8 and stops; its idle thread runs thread 8, which
    locks mutex 0. *)

#[local] Open Scope nat_scope.

Lemma run_sched_reachable l : ∀ st st',
  forallb (λ e, Nat.ltb e.1 kMaxCores) l = true → run_sched l st = Some st' → rtc step st st'.
Proof.
  induction l as [|[c f] l IH]; intros st st' Hl E; simpl in *.
  - injection E as ->. apply rtc_refl.
  - apply andb_true_iff in Hl as [Hc%Nat.ltb_lt Hl].
    destruct (core_step c f st) as [st1|] eqn:E1; [|done]. simpl in E.
    apply (rtc_l _ _ st1); [by exists c, f|by apply IH].
Qed.

Definition all_mutexes (_ : sem_id) : Z := 1%Z.

(** Up to the idle loop with thread 8 ready; to thread 8; into [lock()]; out of it. *)
Definition to_idle_loop : list (nat * call) := (λ f, (0, f)) <$> [Go 8; Yield; Return; Yield; Yield].
Definition to_thread : list (nat * call) := to_idle_loop ++ ((λ f, (0, f)) <$> [Yield; Yield; Yield; Yield]).
Definition to_section : list (nat * call) := to_thread ++ [(0, Mutex_lock 0)].
Definition to_inside : list (nat * call) := to_section ++ [(0, Yield); (0, Yield)].

Definition after (l : list (nat * call)) : state :=
  default (booted all_mutexes) (run_sched l (booted all_mutexes)).

Lemma after_reachable l :
  forallb (λ e, Nat.ltb e.1 kMaxCores) l = true → rtc step (booted all_mutexes) (after l).
Proof.
  intros Hl. unfold after. destruct (run_sched l (booted all_mutexes)) as [st|] eqn:E; [|apply rtc_refl].
  by apply (run_sched_reachable l).
Qed.

Lemma all_mutexes_ok s : (0 ≤ all_mutexes s)%Z.
Proof. done. Qed.

Lemma scheduler_never_faults_witness : is_Some (core_step 3 Return (after to_inside)).
Proof.
  apply (scheduler_never_faults all_mutexes).
  - exact all_mutexes_ok.
  - apply after_reachable. reflexivity.
  - unfold kMaxCores. lia.
Defined.

Lemma thread_in_one_place_witness :
  at_place (after to_inside) (OnCore 0) = [0; 8] ∧ NoDup (at_place (after to_inside) (OnCore 0)).
Proof.
  split; [vm_compute; reflexivity|].
  apply (thread_in_one_place all_mutexes).
  - exact all_mutexes_ok.
  - apply after_reachable. reflexivity.
Defined.

Lemma semaphore_counts_waiters_witness :
  sem_destroy (sems (after to_inside) 0) = Some tt ∧
  (- 2 ^ 63 ≤ counter (sems (after to_inside) 0%nat) < 2 ^ 63)%Z.
Proof.
  destruct (semaphore_counts_waiters all_mutexes all_mutexes_ok (after to_inside)
    (after_reachable to_inside eq_refl) 0) as [Hfree Hfits].
  split.
  - apply Hfree; vm_compute; congruence.
  - apply Hfits; vm_compute; reflexivity.
Defined.

Lemma semaphore_bounds_returns_witness :
  total Returned 0 (log (after to_inside)) = 1%Z ∧
  (total Returned 0%nat (log (after to_inside)) ≤ 1 + total Upped 0%nat (log (after to_inside)))%Z.
Proof.
  split; [vm_compute; reflexivity|].
  apply (semaphore_bounds_returns all_mutexes).
  - exact all_mutexes_ok.
  - apply after_reachable. reflexivity.
Defined.

Lemma inside_log : log (after to_inside) =
  [Event Downed (Some 8) 0; Event Granted (Some 8) 0; Event Returned (Some 8) 0].
Proof. vm_compute. reflexivity. Qed.

Lemma mutex_excludes_witness :
  inside (after to_inside) 8 0 ∧ ∀ t, inside (after to_inside) t 0 → t = 8.
Proof.
  assert (inside (after to_inside) 8 0) as H8 by (vm_compute; reflexivity).
  split; [exact H8|]. intros t Ht.
  apply (mutex_excludes all_mutexes all_mutexes_ok (after to_inside)
    (after_reachable to_inside eq_refl) 0 t 8).
  - reflexivity.
  - intros t'. rewrite inside_log.
    change (by_thread Upped t' 0 _) with 0%Z. apply Nat2Z.is_nonneg.
  - exact Ht.
  - exact H8.
Defined.

Lemma semaphore_lock_released_witness :
  ∃ c, (c < kMaxCores) ∧ ∀ l, Forall (λ e, e.1 < kMaxCores) l → 7 ≤ steps_of c l →
    ∃ n st', run_sched (take n l) (after to_section) = Some st' ∧ lock_ (sems st' 0) = false.
Proof.
  apply (semaphore_lock_released all_mutexes).
  - exact all_mutexes_ok.
  - apply after_reachable. reflexivity.
  - vm_compute. reflexivity.
Defined.

Lemma idle_core_runs_next_witness :
  ∃ st' k, run_core 0 [Yield; Yield; Yield] (after to_idle_loop) = Some st' ∧
    threads (after to_idle_loop) !! 8 = Some (Saved k) ∧ at_ (cores st' 0) = k ∧
    executing (cores st' 0) = Some 8 ∧ ready st' = [].
Proof.
  apply (idle_core_runs_next all_mutexes).
  - exact all_mutexes_ok.
  - apply after_reachable. reflexivity.
  - unfold kMaxCores. lia.
  - vm_compute. reflexivity.
  - vm_compute. reflexivity.
  - reflexivity.
Defined.

Lemma thread_leaves_core_witness :
  ∃ st', run_core 0 [Return; Yield; Yield; Yield; Yield] (after to_thread) = Some st' ∧
    at_ (cores st' 0) = IdleNext ∧ ready st' = ready (after to_thread) ∧
    threads st' !! 8 = None.
Proof.
  apply (thread_leaves_core all_mutexes).
  - exact all_mutexes_ok.
  - apply after_reachable. reflexivity.
  - unfold kMaxCores. lia.
  - vm_compute. reflexivity.
  - vm_compute. reflexivity.
  - reflexivity.
Defined.
