(* ===== verification/Program.v ===== *)
(** * Programs that run on the kernel

    In [Sched] a thread's own code may call anything at any time.  Here it is a
    program: [code] says what a thread does at each of its labels, and a core that
    is in the code of a thread does what the thread's label says.  Shared variables
    are accessed one at a time; a call of [console::print] is one step
    ([Console]: calls of different cores do not mix).

    A thread's continuation, the label at which its code goes on, changes when the
    thread calls: it is the return address on the thread's stack.  kmain runs on
    core [boot_core]; it starts a thread in [main] and stops.  The other cores, and
    kmain afterwards, only stop. *)

From stdpp Require Import functions.
From stdpp Require Export strings.
From S2P Require Import Prelude Sched.

#[local] Open Scope Z_scope.

(** What a thread does at a label, and where it goes on.  [Undefined] is what the
    language leaves undefined: a call through a null pointer. *)
Inductive instr (V L : Type) :=
  | Access (f : V → V * L)
  | Print (str : string) (l : L)
  | CallYield (l : L)
  | CallUp (s : sem_id) (l : L)
  | CallDown (s : sem_id) (l : L)
  | CallGo (func : L) (l : L)
  | CallStop
  | Undefined.
Arguments Access {V L} f.
Arguments Print {V L} str l.
Arguments CallYield {V L} l.
Arguments CallUp {V L} s l.
Arguments CallDown {V L} s l.
Arguments CallGo {V L} func l.
Arguments CallStop {V L}.
Arguments Undefined {V L}.

Class Program := {
  vars : Type;
  label : Type;
  code : label → instr vars label;
  main : label;
  vars0 : vars;
  count0 : sem_id → Z;
  count0_nonneg s : 0 ≤ count0 s;
}.

Section Run.
Context {P : Program} (boot_core : nat).

Record pstate := PState {
  kernel : state;
  conts : gmap tcb label;
  shared : vars;
  out : list string;
  started : bool;
}.

Definition set_kernel (st : state) (ps : pstate) : pstate :=
  PState st (conts ps) (shared ps) (out ps) (started ps).
Definition set_conts (m : gmap tcb label) (ps : pstate) : pstate :=
  PState (kernel ps) m (shared ps) (out ps) (started ps).
Definition goes_on (t : tcb) (l : label) (ps : pstate) : pstate :=
  set_conts (<[t := l]> (conts ps)) ps.

(** A call of [up] or [down]: [lock_.lock()] spins while the lock is taken. *)
Definition call_sem (c : nat) (f : call) (s : sem_id) (t : tcb) (l : label) (ps : pstate) :
    option pstate :=
  if lock_ (sems (kernel ps) s) then Some ps
  else
    st ← client_step c f (kernel ps);
    Some (goes_on t l (set_kernel st ps)).

(** A call of [go()]; [x] is the TCB that the allocator hands out. *)
Definition call_go (c : nat) (x t : tcb) (func l : label) (ps : pstate) : option pstate :=
  match threads (kernel ps) !! x with
  | Some _ => Some ps
  | None =>
      st ← client_step c (Go x) (kernel ps);
      Some (goes_on x func (goes_on t l (set_kernel st ps)))
  end.

(** Core [c] in the code of thread [t]. *)
Definition thread_code (c : nat) (x t : tcb) (l : label) (ps : pstate) : option pstate :=
  match code l with
  | Access f =>
      let '(v, l') := f (shared ps) in
      Some (goes_on t l' (PState (kernel ps) (conts ps) v (out ps) (started ps)))
  | Print str l' =>
      Some (goes_on t l' (PState (kernel ps) (conts ps) (shared ps) (out ps ++ [str]) (started ps)))
  | CallYield l' =>
      st ← client_step c Yield (kernel ps);
      Some (goes_on t l' (set_kernel st ps))
  | CallUp s l' => call_sem c (Up s) s t l' ps
  | CallDown s l' => call_sem c (Down s) s t l' ps
  | CallGo func l' => call_go c x t func l' ps
  | CallStop =>
      st ← client_step c Return (kernel ps);
      Some (set_conts (delete t (conts ps)) (set_kernel st ps))
  | Undefined => None
  end.

(** kmain after [smp::init], and [ap_entry]: [threads::go(main); threads::stop()]. *)
Definition boot_code (c : nat) (x : tcb) (ps : pstate) : option pstate :=
  if bool_decide (c = boot_core) && negb (started ps) then
    match threads (kernel ps) !! x with
    | Some _ => Some ps
    | None =>
        st ← boot_step c (Go x) (kernel ps);
        Some (PState st (<[x := main]> (conts ps)) (shared ps) (out ps) true)
    end
  else
    st ← boot_step c Return (kernel ps);
    Some (set_kernel st ps).

(** One step of core [c].  Inside the kernel it is a step of [Sched]. *)
Definition prog_core_step (c : nat) (x : tcb) (ps : pstate) : option pstate :=
  let k := cores (kernel ps) c in
  match at_ k with
  | Client =>
      t ← curr (pc k);
      l ← conts ps !! t;
      thread_code c x t l ps
  | Boot => boot_code c x ps
  | _ =>
      st ← core_step c Return (kernel ps);
      Some (set_kernel st ps)
  end.

Definition program_step (ps ps' : pstate) : Prop :=
  ∃ c x, (c < kMaxCores)%nat ∧ prog_core_step c x ps = Some ps'.

(** The step of core [c] would change nothing: it finds no thread to run, or it
    finds a lock taken; or [x] is not memory that the allocator could hand out. *)
Definition stalls (c : nat) (x : tcb) (ps : pstate) : bool :=
  let st := kernel ps in
  let k := cores st c in
  match at_ k with
  | IdleNext => bool_decide (ready st = [])
  | Boot => bool_decide (c = boot_core) && negb (started ps) && bool_decide (is_Some (threads st !! x))
  | Client =>
      match t ← curr (pc k); conts ps !! t with
      | Some l =>
          match code l with
          | CallUp s _ | CallDown s _ => lock_ (sems st s)
          | CallGo _ _ => bool_decide (is_Some (threads st !! x))
          | _ => false
          end
      | None => false
      end
  | _ => false
  end.

(** A step that is not wasted. *)
Definition busy_step (ps ps' : pstate) : Prop :=
  ∃ c x, (c < kMaxCores)%nat ∧ stalls c x ps = false ∧ prog_core_step c x ps = Some ps'.

Definition program_booted : pstate :=
  PState (booted count0) ∅ vars0 [] false.

(** Nothing is left to do: kmain has started [main], no thread is ready, and every
    core is in its idle loop, or is not there. *)
Definition quiescent (ps : pstate) : Prop :=
  started ps = true ∧ ready (kernel ps) = [] ∧
  ∀ c, (c < kMaxCores)%nat →
    at_ (cores (kernel ps) c) = IdleNext ∨ at_ (cores (kernel ps) c) = Boot.

Definition quiescent_b (ps : pstate) : bool :=
  started ps && bool_decide (ready (kernel ps) = []) &&
  forallb (λ c, match at_ (cores (kernel ps) c) with IdleNext | Boot => true | _ => false end)
    (seq 0 kMaxCores).

(** Runs a schedule: the core that steps, and the TCB the allocator hands out. *)
Fixpoint run_program (l : list (nat * tcb)) (ps : pstate) : option pstate :=
  match l with
  | [] => Some ps
  | (c, x) :: l => ps' ← prog_core_step c x ps; run_program l ps'
  end.
End Run.

Lemma run_program_reachable {P : Program} b l : ∀ ps ps',
  forallb (λ e, Nat.ltb e.1 kMaxCores) l = true → run_program b l ps = Some ps' →
  rtc (program_step b) ps ps'.
Proof.
  induction l as [|[c x] l IH]; intros ps ps' Hl E; simpl in *.
  - injection E as ->. apply rtc_refl.
  - apply andb_true_iff in Hl as [Hc%Nat.ltb_lt Hl].
    destruct (prog_core_step b c x ps) as [ps1|] eqn:E1; [|done]. simpl in E.
    apply (rtc_l _ _ ps1); [by exists c, x|by apply IH].
Qed.

Lemma quiescent_b_true {P : Program} ps : quiescent_b ps = true → quiescent ps.
Proof.
  intros [[Hs Hr%bool_decide_eq_true]%andb_true_iff Hc]%andb_true_iff. split; [done|]. split; [done|].
  intros c Hlt. rewrite forallb_forall in Hc. specialize (Hc c).
  rewrite <- list_elem_of_In, elem_of_seq in Hc. specialize (Hc ltac:(lia)).
  destruct (at_ (cores (kernel ps) c)); try done; [by right|by left].
Qed.

(** A schedule after which nothing is left to do. *)
Lemma schedule_ends {P : Program} b l :
  forallb (λ e, Nat.ltb e.1 kMaxCores) l = true →
  quiescent_b <$> run_program b l program_booted = Some true →
  ∃ ps, rtc (program_step b) program_booted ps ∧ quiescent ps.
Proof.
  intros Hl (ps & E & Hq)%fmap_Some. exists ps.
  split; [by apply (run_program_reachable b l)|by apply quiescent_b_true].
Qed.
