(* ===== verification/ThreadSpec.v ===== *)
(** * What the kernel is to a program: threads and semaphores

    The specification of the thread library: threads that take steps in any order,
    one shared memory, semaphores that are numbers.  [yield] does nothing, [up]
    adds one, [down] waits until there is one to take, [go] adds a thread.

    The rest of the file says what each step of a core is to the threads: for most
    of the kernel's steps nothing ([internal_quiet]); and for which of them a call
    takes effect ([internal_step]). *)

From stdpp Require Import functions.
From S2P Require Import Program Prelude Sched SchedInv SchedProps.

#[local] Open Scope Z_scope.

#[export] Instance point_eq_dec : EqDecision point.
Proof. solve_decision. Defined.

(** ** The specification *)

Section Spec.
Context {P : Program}.

Record spec := Spec {
  pool : gmap tcb label;
  value : sem_id → Z;
  svars : vars;
  sout : list string;
  sstarted : bool;
}.

Inductive thread_step (t : tcb) : spec → spec → Prop :=
  | step_access m v x o b l f :
      m !! t = Some l → code l = Access f →
      thread_step t (Spec m v x o b) (Spec (<[t := (f x).2]> m) v (f x).1 o b)
  | step_print m v x o b l str l' :
      m !! t = Some l → code l = Print str l' →
      thread_step t (Spec m v x o b) (Spec (<[t := l']> m) v x (o ++ [str]) b)
  | step_yield m v x o b l l' :
      m !! t = Some l → code l = CallYield l' →
      thread_step t (Spec m v x o b) (Spec (<[t := l']> m) v x o b)
  | step_up m v x o b l s l' :
      m !! t = Some l → code l = CallUp s l' →
      thread_step t (Spec m v x o b) (Spec (<[t := l']> m) (<[s := v s + 1]> v) x o b)
  | step_down m v x o b l s l' :
      m !! t = Some l → code l = CallDown s l' → 0 < v s →
      thread_step t (Spec m v x o b) (Spec (<[t := l']> m) (<[s := v s - 1]> v) x o b)
  | step_go m v x o b l func l' t' :
      m !! t = Some l → code l = CallGo func l' → m !! t' = None →
      thread_step t (Spec m v x o b) (Spec (<[t' := func]> (<[t := l']> m)) v x o b)
  | step_stop m v x o b l :
      m !! t = Some l → code l = CallStop →
      thread_step t (Spec m v x o b) (Spec (delete t m) v x o b).

Inductive spec_step : spec → spec → Prop :=
  | spec_main m v x o t :
      m !! t = None → spec_step (Spec m v x o false) (Spec (<[t := main]> m) v x o true)
  | spec_thread t a a' : thread_step t a a' → spec_step a a'.

Definition spec_init : spec := Spec ∅ count0 vars0 [] false.

(** Thread [t] waits for a semaphore that is zero. *)
Definition stuck (a : spec) (t : tcb) : Prop :=
  ∃ l s l', pool a !! t = Some l ∧ code l = CallDown s l' ∧ value a s = 0.
End Spec.

(** ** Threads inside a call that has had no effect yet *)

Definition core_pending (k : core) : option (tcb * call) :=
  match at_ k with
  | UpLocked s => (λ t, (t, Up s)) <$> curr (pc k)
  | DownLocked s | DownBlock s => (λ t, (t, Down s)) <$> curr (pc k)
  | Switch (AfterDown s) => (λ t, (t, Down s)) <$> prev (pc k)
  | IdleDelete | IdleQueue =>
      t ← to_queue (pc k);
      s ← to_add_to (pc k);
      Some (t, Down s)
  | _ => None
  end.

(** Where [t] is while it is pending. *)
Definition pending_at (st : state) (p : place) (t : tcb) (f : call) : Prop :=
  match p with
  | Ready => False
  | Waiting s => f = Down s ∧ t ∈ q (sems st s)
  | OnCore c => (c < kMaxCores)%nat ∧ core_pending (cores st c) = Some (t, f)
  end.

Definition pending (st : state) (t : tcb) (f : call) : Prop := ∃ p, pending_at st p t f.

(** A thread that has stopped and is about to be deleted. *)
Definition dying (k : core) : option tcb :=
  match at_ k with
  | Switch AfterStop => prev (pc k)
  | IdleDelete => to_delete (pc k)
  | _ => None
  end.

(** The threads of the program: those that exist, without the idle threads and
    the ones that have stopped. *)
Definition live (st : state) (t : tcb) : Prop :=
  is_Some (threads st !! t) ∧
  ∀ c, (c < kMaxCores)%nat → idle (pc (cores st c)) ≠ Some t ∧ dying (cores st c) ≠ Some t.

(** What is left of semaphore [s]. *)
Definition available (start : sem_id → Z) (st : state) (s : sem_id) : Z :=
  start s + total Upped s (log st) - total Granted s (log st).

(** How far a core is from being idle, in steps, if its thread blocks at the next
    opportunity; a ready thread, and one about to be made ready, costs twelve
    steps: from [IdleNext] to its code, into [down()] and back. *)
Definition distance (k : core) : nat :=
  let again := match to_reschedule (pc k) with Some _ => 12%nat | None => 0%nat end in
  match at_ k with
  | Boot => 6 | BootSchedule _ => 19
  | Entry | AfterYield | AfterDown _ => 9
  | Client => 8 | GoSchedule _ => 21
  | UpLocked _ | UpPop _ => 7 | UpSchedule _ _ => 22 | UpUnlock _ => 9
  | DownLocked _ => 7 | DownBlock _ => 6 | DownUnlock _ => 9
  | Switch IdleDelete => 10 | Switch _ => 5 + again
  | AfterStop | IdleNext => 0
  | IdleEntry => 1 | IdleGot _ => 11
  | IdleDelete => 4 + again | IdleQueue => 3 + again | IdleUnlock => 2 | IdleResched => 1 + again
  end.

(** What the cores and one core have left to do before all are idle. *)
Definition work (st : state) : nat :=
  sum_list_with (λ c, distance (cores st c)) (seq 0 kMaxCores) + 12 * length (ready st).
Definition core_work (k : core) (st : state) : nat := distance k + 12 * length (ready st).

(** ** Places *)

Lemma core_pending_hands k t f : core_pending k = Some (t, f) → t ∈ hands k.
Proof.
  unfold core_pending, hands. destruct (at_ k) as [| | | | | | | | | | | |k'| | | | | | | | | |]; try done.
  1-3: intros (t' & -> & [= <- _])%fmap_Some; apply elem_of_app; right; by left.
  - destruct k'; try done. intros (t' & -> & [= <- _])%fmap_Some; apply elem_of_app; right; by left.
  - intros (t' & -> & (s & _ & [= <- _])%bind_Some)%bind_Some.
    rewrite !elem_of_app. right. right. left. by left.
  - intros (t' & -> & (s & _ & [= <- _])%bind_Some)%bind_Some.
    rewrite !elem_of_app. right. right. left. by left.
Qed.

Lemma dying_hands k t : dying k = Some t → t ∈ hands k.
Proof.
  unfold dying, hands. destruct (at_ k) as [| | | | | | | | | | | |k'| | | | | | | | | |]; try done.
  - destruct k'; try done. intros ->. apply elem_of_app. right. by left.
  - intros ->. rewrite !elem_of_app. right. left. by left.
Qed.

Lemma idle_hands k t : idle (pc k) = Some t → t ∈ hands k.
Proof. unfold hands. intros ->. apply elem_of_app. left. by left. Qed.

Lemma on_core st c t : (c < kMaxCores)%nat → t ∈ hands (cores st c) → t ∈ at_place st (OnCore c).
Proof. intros Hc Ht. simpl. by rewrite decide_True. Qed.

Lemma pending_place st p t f : pending_at st p t f → t ∈ at_place st p.
Proof.
  destruct p as [|s|c]; simpl; [done|by intros [_ ?]|]. intros [Hc Hp].
  rewrite decide_True by done. by eapply core_pending_hands.
Qed.

Section Places.
Context (start : sem_id → Z) (st : state) (Hinv : inv start st).

Lemma place_unique p p' t : t ∈ at_place st p → t ∈ at_place st p' → p = p'.
Proof.
  destruct Hinv as (G & L & H & HP & _). rewrite !(at_place_owned st G L) by done. apply HP.
Qed.

Lemma place_exists t p : t ∈ at_place st p → is_Some (threads st !! t).
Proof.
  destruct Hinv as (G & L & H & HP & _). rewrite (at_place_owned st G L) by done.
  intros [e He]%elem_of_keys_iff. rewrite (placed_threads _ _ _ HP), lookup_fmap, fmap_is_Some.
  exists e. eapply owns_lookup; [apply HP|done].
Qed.

Lemma exists_place t : is_Some (threads st !! t) → ∃ p, t ∈ at_place st p.
Proof.
  destruct Hinv as (G & L & H & HP & _).
  rewrite (placed_threads _ _ _ HP), lookup_fmap, fmap_is_Some.
  intros [v Hv]. apply (owns_iff _ _ (placed_owns _ _ _ HP)) in Hv as [p Hp]. exists p.
  rewrite (at_place_owned st G L) by done. by eapply elem_of_keys.
Qed.

Lemma pending_unique t f f' : pending st t f → pending st t f' → f = f'.
Proof.
  intros [p Hp] [p' Hp'].
  rewrite (place_unique p' p t) in Hp' by (by eapply pending_place).
  destruct p as [|s|c]; simpl in *; naive_solver.
Qed.

(** The thread whose code a core is in is pending nowhere. *)
Lemma not_pending c t f :
  (c < kMaxCores)%nat → t ∈ hands (cores st c) → core_pending (cores st c) = None → ¬ pending st t f.
Proof.
  intros Hc Ht Hn [p Hp]. pose proof (pending_place _ _ _ _ Hp) as Hat.
  rewrite (place_unique p (OnCore c) t) in Hp; [|done|by apply on_core].
  destruct Hp as [_ Hp]. congruence.
Qed.
End Places.

(** ** What a step of the kernel is to the threads *)

Section Effects.
Context (start : sem_id → Z) (st st' : state).

Definition same_live : Prop := ∀ t, live st' t ↔ live st t.
Definition same_pending : Prop := ∀ t f, pending st' t f ↔ pending st t f.
Definition same_available : Prop := ∀ s, available start st' s = available start st s.

(** The call [f] of [t] takes effect. *)
Definition takes_effect (t : tcb) (f : call) : Prop :=
  pending st t f ∧ (∀ t' f', pending st' t' f' ↔ t' ≠ t ∧ pending st t' f') ∧
  match f with
  | Up s => ∀ s', available start st' s' = <[s := available start st s + 1]> (available start st) s'
  | Down s => 0 < available start st s ∧
      ∀ s', available start st' s' = <[s := available start st s - 1]> (available start st) s'
  | _ => False
  end.

(** A step of the kernel: a call takes effect, or there is less work left. *)
Definition internal : Prop :=
  same_live ∧
  (same_pending ∧ same_available ∧ (work st' < work st)%nat ∨ ∃ t f, takes_effect t f).

Section Frames.
Context (c : nat) (k : core) (Hk : recored c k st st').

Lemma live_frame :
  idle (pc k) = idle (pc (cores st c)) → dying k = dying (cores st c) →
  (∀ t, is_Some (threads st' !! t) ↔ is_Some (threads st !! t)) → same_live.
Proof.
  destruct Hk as [Ek Ec]. intros Hi Hd HT t. unfold live. rewrite HT.
  apply and_iff_compat_l, forall_proper. intros c'.
  destruct (decide (c' = c)) as [->|]; [by rewrite Ek, Hi, Hd|by rewrite Ec].
Qed.

Lemma pending_frame :
  core_pending k = core_pending (cores st c) → (∀ s, q (sems st' s) = q (sems st s)) → same_pending.
Proof.
  destruct Hk as [Ek Ec]. intros Hp Hq t f. apply exist_proper. intros [|s|c']; simpl.
  - done.
  - by rewrite Hq.
  - destruct (decide (c' = c)) as [->|]; [by rewrite Ek, Hp|by rewrite Ec].
Qed.

Lemma work_frame :
  (c < kMaxCores)%nat → (core_work k st' < core_work (cores st c) st)%nat → (work st' < work st)%nat.
Proof.
  destruct Hk as [Ek Ec]. unfold core_work, work. intros Hc Hlt.
  assert (∀ l, NoDup l → c ∈ l →
    sum_list_with (λ c, distance (cores st' c)) l + distance (cores st c) =
    sum_list_with (λ c, distance (cores st c)) l + distance k)%nat as Hsum.
  { induction l as [|c' l IH]; intros Hn Hin; [by apply not_elem_of_nil in Hin|].
    apply NoDup_cons in Hn as [Hnc Hn]. simpl. destruct (decide (c' = c)) as [->|Hne].
    - rewrite Ek. assert (sum_list_with (λ c, distance (cores st' c)) l =
        sum_list_with (λ c, distance (cores st c)) l) as ->; [|lia].
      clear IH Hin Hn. induction l as [|c' l IH]; [done|]. simpl.
      rewrite not_elem_of_cons in Hnc. rewrite Ec, IH by naive_solver. done.
    - rewrite Ec by done. apply elem_of_cons in Hin as [?|Hin]; [done|].
      specialize (IH Hn Hin). lia. }
  specialize (Hsum (seq 0 kMaxCores)). rewrite elem_of_seq in Hsum.
  specialize (Hsum (NoDup_seq _ _) ltac:(lia)). lia.
Qed.

(** The core has no pending thread any more, or has one now. *)
Lemma pending_done t f :
  inv start st → (c < kMaxCores)%nat →
  core_pending (cores st c) = Some (t, f) → core_pending k = None →
  (∀ s, q (sems st' s) = q (sems st s)) →
  pending st t f ∧ ∀ t' f', pending st' t' f' ↔ t' ≠ t ∧ pending st t' f'.
Proof.
  destruct Hk as [Ek Ec]. intros Hinv Hc Hp Hn Hq.
  assert (pending_at st (OnCore c) t f) as Ht by done. split; [by exists (OnCore c)|].
  intros t' f'. split.
  - intros [p Hp']. assert (p ≠ OnCore c ∧ pending_at st p t' f') as [Hne Hp1].
    { destruct p as [|s|c']; simpl in *; [done|by rewrite <- Hq|].
      destruct (decide (c' = c)) as [->|]; [rewrite Ek in Hp'; by destruct Hp' as [_ ?]; congruence|].
      rewrite Ec in Hp' by done. split; [congruence|done]. }
    split; [|by exists p]. intros ->. apply Hne.
    apply (place_unique start st Hinv p (OnCore c) t); by eapply pending_place.
  - intros [Hne [p Hp']]. exists p. destruct p as [|s|c']; simpl in *; [done|by rewrite Hq|].
    destruct (decide (c' = c)) as [->|]; [|by rewrite Ec]. rewrite Hp in Hp'. naive_solver.
Qed.

Lemma pending_new t f :
  (c < kMaxCores)%nat → core_pending (cores st c) = None → core_pending k = Some (t, f) →
  (∀ s, q (sems st' s) = q (sems st s)) →
  ∀ t' f', pending st' t' f' ↔ (t' = t ∧ f' = f) ∨ pending st t' f'.
Proof.
  destruct Hk as [Ek Ec]. intros Hc Hp Hn Hq t' f'. split.
  - intros [p Hp']. destruct p as [|s|c']; simpl in *; [done| |].
    + right. exists (Waiting s). simpl. by rewrite <- Hq.
    + destruct (decide (c' = c)) as [->|]; [left; rewrite Ek in Hp'; naive_solver|].
      right. exists (OnCore c'). simpl. by rewrite <- Ec.
  - intros [[-> ->]|[p Hp']]; [exists (OnCore c); simpl; by rewrite Ek|].
    exists p. destruct p as [|s|c']; simpl in *; [done|by rewrite Hq|].
    destruct (decide (c' = c)) as [->|]; [|by rewrite Ec]. rewrite Hp in Hp'. naive_solver.
Qed.
End Frames.

(** The history grows by one event. *)
Lemma available_snoc e w s :
  log st' = log st ++ [Event e w s] → ∀ s',
  available start st' s' =
    available start st s' + b2z (bool_decide (e = Upped ∧ s = s')) -
      b2z (bool_decide (e = Granted ∧ s = s')).
Proof. intros E s'. unfold available. rewrite E, !event_total_app. lia. Qed.
End Effects.

(** ** The steps inside the kernel *)

Lemma insert_exists (m : gmap tcb tstate) i v v' :
  m !! i = Some v → ∀ t, is_Some (<[i := v']> m !! t) ↔ is_Some (m !! t).
Proof.
  intros Hi t. rewrite lookup_insert_is_Some. split; [|destruct (decide (i = t)); naive_solver].
  intros [<-|[_ ?]]; [by rewrite Hi|done].
Qed.

Lemma insert2_exists (m : gmap tcb tstate) i t v v' w w' :
  m !! i = Some v → m !! t = Some w →
  ∀ x, is_Some (<[i := v']> (<[t := w']> m) !! x) ↔ is_Some (m !! x).
Proof.
  intros Hi Ht x. rewrite lookup_insert_is_Some, (insert_exists m t w w' Ht).
  split; [|destruct (decide (i = x)); naive_solver]. intros [<-|[_ ?]]; [by rewrite Hi|done].
Qed.

Section Internal.
Context (start : sem_id → Z) (st st' : state) (c : nat) (k : core).
Context (Hinv : inv start st) (Hc : (c < kMaxCores)%nat) (Hk : recored c k st st').

Lemma internal_quiet :
  idle (pc k) = idle (pc (cores st c)) → dying k = dying (cores st c) →
  core_pending k = core_pending (cores st c) →
  (∀ t, is_Some (threads st' !! t) ↔ is_Some (threads st !! t)) →
  (∀ s, q (sems st' s) = q (sems st s)) →
  log st' = log st ∨ (∃ e w s, log st' = log st ++ [Event e w s] ∧ e ≠ Upped ∧ e ≠ Granted) →
  (core_work k st' < core_work (cores st c) st)%nat →
  internal start st st'.
Proof.
  intros Hi Hd Hp HT Hq Hl Hwork. split; [by apply (live_frame st st' c k)|]. left.
  split; [by apply (pending_frame st st' c k)|].
  split; [|by apply (work_frame start st st' c k)]. destruct Hl as [Hl|(e & w & s & Hl & ? & ?)].
  - intros s. unfold available. by rewrite Hl.
  - intros s'. rewrite (available_snoc start st st' e w s Hl), !bool_decide_eq_false_2 by naive_solver.
    simpl. lia.
Qed.

(** An idle thread deletes the thread that stopped. *)
Lemma internal_delete t :
  idle (pc k) = idle (pc (cores st c)) → dying (cores st c) = Some t → dying k = None →
  core_pending k = core_pending (cores st c) → threads st' = delete t (threads st) →
  sems st' = sems st → log st' = log st → (core_work k st' < core_work (cores st c) st)%nat →
  internal start st st'.
Proof.
  intros Hi Hd Hd' Hp HT Hs Hl Hwork. pose proof (work_frame start st st' c k Hk Hc Hwork).
  destruct Hk as [Ek Ec]. split.
  - intros x. unfold live. rewrite HT. split.
    + intros [[v [Hne Hx]%lookup_delete_Some] Hc']. split; [by eexists|]. intros c' Hlt.
      destruct (decide (c' = c)) as [->|Hne']; [|rewrite <- Ec by done; by apply Hc'].
      specialize (Hc' c Hlt). rewrite Ek, Hi in Hc'. split; [apply Hc'|]. rewrite Hd. congruence.
    + intros [[v Hx] Hc']. split.
      * exists v. apply lookup_delete_Some. split; [|done]. intros <-. by apply (Hc' c Hc).
      * intros c' Hlt. destruct (decide (c' = c)) as [->|Hne']; [|rewrite Ec by done; by apply Hc'].
        rewrite Ek, Hi, Hd'. split; [by apply Hc'|done].
  - left. split; [apply (pending_frame st st' c k); [done..|]; intros; by rewrite Hs|].
    split; [|done]. intros s. unfold available. by rewrite Hl.
Qed.

(** An idle thread puts the thread that blocked into the queue of the semaphore. *)
Lemma internal_queue t s :
  idle (pc k) = idle (pc (cores st c)) → dying k = dying (cores st c) →
  core_pending (cores st c) = Some (t, Down s) → core_pending k = None →
  threads st' = threads st →
  (∀ s', q (sems st' s') = if decide (s' = s) then q (sems st s) ++ [t] else q (sems st s')) →
  log st' = log st → (core_work k st' < core_work (cores st c) st)%nat → internal start st st'.
Proof.
  intros Hi Hd Hp Hp' HT Hq Hl Hwork. pose proof (work_frame start st st' c k Hk Hc Hwork).
  destruct Hk as [Ek Ec].
  split; [apply (live_frame st st' c k); [done..|]; by rewrite HT|]. left.
  split; [|split; [|done]].
  - intros x f. split.
    + intros [[|s'|c'] Hx]; simpl in Hx; [done| |].
      * rewrite Hq in Hx. destruct Hx as [-> Hx]. case_decide; [subst s'|by exists (Waiting s')].
        apply elem_of_app in Hx as [?| ->%list_elem_of_singleton]; [by exists (Waiting s)|by exists (OnCore c)].
      * destruct (decide (c' = c)) as [->|]; [rewrite Ek, Hp' in Hx; naive_solver|].
        rewrite Ec in Hx by done. by exists (OnCore c').
    + intros [[|s'|c'] Hx]; simpl in Hx; [done| |].
      * exists (Waiting s'). simpl. rewrite Hq. case_decide; [subst s'|done].
        split; [apply Hx|]. apply elem_of_app. left. apply Hx.
      * destruct (decide (c' = c)) as [->|]; [|exists (OnCore c'); simpl; by rewrite Ec].
        rewrite Hp in Hx. destruct Hx as [_ [= <- <-]]. exists (Waiting s). simpl. split; [done|].
        rewrite Hq, decide_True by done. apply elem_of_app. right. by left.
  - intros s'. unfold available. by rewrite Hl.
Qed.

(** [up()] takes a waiting thread out of the queue: that thread's [down()] takes
    effect. *)
Lemma internal_pop x r s :
  idle (pc k) = idle (pc (cores st c)) → dying k = dying (cores st c) →
  core_pending (cores st c) = None → core_pending k = None → threads st' = threads st →
  q (sems st s) = x :: r → (∀ s', q (sems st' s') = if decide (s' = s) then r else q (sems st s')) →
  0 < available start st s → log st' = log st ++ [Event Granted (Some x) s] →
  internal start st st'.
Proof.
  destruct Hk as [Ek Ec]. intros Hi Hd Hp Hp' HT Eq Hq Hav Hl.
  split; [apply (live_frame st st' c k); [done..|]; by rewrite HT|]. right. exists x, (Down s).
  assert (pending_at st (Waiting s) x (Down s)) as Hx by (split; [done|rewrite Eq; by left]).
  assert (NoDup (x :: r)) as [Hxr _]%NoDup_cons.
  { rewrite <- Eq. destruct Hinv as (G & L & H & HP & _). change (q (sems st s)) with (at_place st (Waiting s)).
    rewrite (at_place_owned st G L) by done. apply HP. }
  split; [by exists (Waiting s)|]. split.
  - intros y f. split.
    + intros [p Hy]. assert (pending_at st p y f ∧ (y = x → p ≠ Waiting s)) as [Hy1 Hne].
      { destruct p as [|s'|c']; simpl in Hy; [done| |].
        - rewrite Hq in Hy. destruct Hy as [-> Hy]. case_decide; [subst s'|naive_solver].
          split; [split; [done|rewrite Eq; by right]|]. naive_solver.
        - destruct (decide (c' = c)) as [->|]; [rewrite Ek, Hp' in Hy; naive_solver|].
          rewrite Ec in Hy by done. done. }
      split; [|by exists p]. intros ->. apply Hne; [done|].
      apply (place_unique start st Hinv p (Waiting s) x); by eapply pending_place.
    + intros [Hne [p Hy]]. exists p. destruct p as [|s'|c']; simpl in *; [done| |].
      * rewrite Hq. case_decide; [subst s'|done]. rewrite Eq in Hy.
        destruct Hy as [-> [?|?]%elem_of_cons]; done.
      * destruct (decide (c' = c)) as [->|]; [rewrite Hp in Hy; naive_solver|by rewrite Ec].
  - split; [done|]. intros s'. rewrite (available_snoc start st st' _ _ _ Hl).
    rewrite (bool_decide_eq_false_2 (_ = Upped ∧ _)) by naive_solver.
    destruct (decide (s = s')) as [<-|]; fn_simp.
    + rewrite bool_decide_eq_true_2 by done. simpl. lia.
    + rewrite bool_decide_eq_false_2 by naive_solver. simpl. lia.
Qed.

(** [up()] or [down()] changes the counter, and takes effect at once. *)
Lemma internal_counts t g s es :
  idle (pc k) = idle (pc (cores st c)) → dying k = dying (cores st c) →
  core_pending (cores st c) = Some (t, g) → core_pending k = None →
  threads st' = threads st → (∀ s', q (sems st' s') = q (sems st s')) → log st' = log st ++ es →
  g = Up s ∧ es = [Event Upped (Some t) s] ∨
  g = Down s ∧ es = [Event Downed (Some t) s; Event Granted (Some t) s] ∧ 0 < available start st s →
  internal start st st'.
Proof.
  intros Hi Hd Hp Hp' HT Hq Hl Hg.
  split; [apply (live_frame st st' c k); [done..|]; by rewrite HT|]. right. exists t, g.
  destruct (pending_done start st st' c k Hk t g Hinv Hc Hp Hp' Hq) as [Ht Hpend].
  split; [done|]. split; [done|]. destruct Hg as [[-> ->]|(-> & -> & Hav)]; [|split; [done|]];
    intros s'; unfold available; rewrite Hl; [|rewrite (cons_middle _ (log st)), app_assoc];
    rewrite !event_total_app; destruct (decide (s = s')) as [<-|]; fn_simp;
    repeat case_bool_decide; destruct_and?; simplify_eq; simpl; first [unfold available; lia|tauto].
Qed.
End Internal.

(** Core [c], of which [E] says what it is, steps to a state in which it is [k]. *)
Ltac recored E := split; [simpl; fn_goal; rewrite ?E; reflexivity|intros; simpl; by fn_goal].
Ltac less_work E :=
  unfold core_work; rewrite ?E; unfold distance; simpl;
  try match goal with Er : ready _ = _ |- _ => rewrite Er end;
  rewrite ?length_app; simpl; lia.
Ltac quiet_step E :=
  eapply internal_quiet; [eassumption|recored E|rewrite ?E; simpl; try reflexivity..
  |try done
  |intros s'; simpl; try reflexivity; unfold set_sem; simpl;
    match goal with |- q (<[?s := _]> _ s') = _ =>
      destruct (decide (s' = s)) as [->|]; fn_goal; reflexivity end
  |first [by left|right; do 3 eexists; split; [reflexivity|done]]
  |less_work E].

Ltac counts_step E :=
  eapply internal_counts;
  [eassumption|eassumption|recored E|rewrite ?E; reflexivity..|reflexivity
  |intros s'; simpl; unfold set_sem; simpl;
    match goal with |- q (<[?s := _]> _ s') = _ =>
      destruct (decide (s' = s)) as [->|]; fn_goal; reflexivity end
  |simpl; rewrite ?E, <- ?app_assoc; reflexivity|].

Section Steps.
Context (start : sem_id → Z) (st : state) (c : nat) (f : call).
Context (Hinv : inv start st) (Hc : (c < kMaxCores)%nat).

(** A step of a thread inside [up] or [down]. *)
Lemma thread_internal st' H p i t k d :
  locked st H → counted start st H →
  cores st c = Core (MkPerCore p None None None None None (Some t) (Some i)) k →
  thread_point k d → k ≠ Client → core_step c f st = Some st' → internal start st st'.
Proof.
  intros HK HC E Hk Hne.
  assert (∀ s g, section (cores st c) = Some (s, g) → balance (start s) (sems st s) (log st) s g) as Hsec.
  { intros s g Hs. by apply (held start st H c HK HC Hc). }
  destruct Hk; try done; one_step E.
  - intros [= <-]. quiet_step E.
  - intros [= <-]. destruct (counter (sems st s) <? 0); counts_step E; left; split; done.
  - intros Es. destruct (Hsec s Popping ltac:(by rewrite E)) as (_ & _ & _ & Hleft).
    destruct (q (sems st s)) as [|x r] eqn:Eq; [done|]. injection Es as <-.
    eapply (internal_pop start st _ c _ Hinv Hc);
      [recored E|rewrite ?E; reflexivity..|reflexivity|exact Eq| | |reflexivity].
    + intros s'. simpl. case_decide; subst; by fn_goal.
    + unfold available. lia.
  - intros [= <-]. quiet_step E.
  - destruct (Hsec s Even ltac:(by rewrite E)) as (_ & _ & Hleft).
    destruct (Z.ltb_spec (counter (sems st s) - 1) 0); intros [= <-].
    + quiet_step E.
    + counts_step E. right. split_and!; [done..|]. unfold available. lia.
  - intros [= <-]. quiet_step E.
  - intros [= <-]. quiet_step E.
  - intros [= <-]. quiet_step E.
  - intros [= <-]. quiet_step E.
Qed.

(** A context switch. *)
Lemma switch_internal st' G L k l :
  placed st G L → cores st c = k → L (OnCore c) = l → core_shape k l →
  (∃ k', at_ k = Switch k') → core_step c f st = Some st' → internal start st st'.
Proof.
  intros HP E EL Hs [k' Ek] Est. pose proof (in_hand st G L c HP) as Hin. rewrite EL in Hin.
  destruct Hs as [| |i|? ? ? ? ? Hk| | |i t ? ? ? ? ? ? Hk| | | |i x k0 d Hk| | | | | |];
    try (by destruct Hk); simpl in Ek; simplify_eq; revert Est; one_step E.
  - rewrite (Hin i (Saved IdleEntry) None) by (by left). intros [= <-]. quiet_step E.
    by eapply insert_exists, Hin; left.
  - pose proof (in_hand_ne st G L c HP _ _ _ _ EL) as Hne.
    rewrite (Hin t Active None) by (right; by left). simpl. rewrite lookup_insert_ne by done.
    rewrite (Hin i (Saved IdleDelete) None) by (by left). intros [= <-].
    destruct Hk; quiet_step E;
      (eapply insert2_exists; [apply (Hin i (Saved IdleDelete) None)|apply (Hin t Active None)];
       [by left|right; by left]).
  - pose proof (in_hand_ne st G L c HP _ _ _ _ EL) as Hne.
    rewrite (Hin i Active None) by (by left). simpl. rewrite lookup_insert_ne by done.
    rewrite (Hin x (Saved k0) d) by (right; by left). intros [= <-].
    destruct Hk as [| |s]; quiet_step E;
      (eapply insert2_exists; [eapply Hin; right; by left|apply (Hin i Active None); by left]).
Qed.

Lemma internal_step st' :
  at_ (cores st c) ≠ Client → at_ (cores st c) ≠ Boot →
  (at_ (cores st c) = IdleNext → ready st ≠ []) → core_step c f st = Some st' →
  internal start st st'.
Proof.
  intros Hcl Hb Hidle Est. destruct Hinv as (G & L & H & HP & HK & HC & _).
  pose proof (placed_core _ _ _ HP c Hc) as Hs. pose proof (in_hand st G L c HP) as Hin.
  remember (cores st c) as k eqn:E. remember (L (OnCore c)) as l eqn:EL. symmetry in E, EL.
  pose proof (switch_internal st' G L k l HP E EL Hs) as Hsw.
  destruct Hs as [|p i x|i|p i t k d Hk|p i t x|p i t s x|i t k ? ? ? ? ? Hk|p i|p i|p i x k d Hk|i x k d Hk
    |p i t k ? ? ? ? ? Hk|p i t k ? ? ? ? Hk|p i|p i t s|p i t|p i]; try done;
    try (by apply Hsw; [eexists|]); clear Hsw;
    [|by eapply (thread_internal st' H p i t k d)|..];
    try destruct Hk; revert Est; one_step E.
  all: try (intros [= <-]; by quiet_step E).
  - destruct (ready st) as [|x r] eqn:Er; [by destruct (Hidle eq_refl)|]. intros [= <-].
    by quiet_step E.
  - rewrite (Hin t (Saved AfterStop) None) by (right; by left). intros [= <-].
    eapply (internal_delete start st _ c _ Hc) with (t := t);
      [recored E|rewrite ?E; reflexivity..|reflexivity|reflexivity|reflexivity|less_work E].
  - intros [= <-].
    eapply (internal_queue start st _ c _ Hc) with (t := t) (s := s);
      [recored E|rewrite ?E; reflexivity..|reflexivity| |reflexivity|less_work E].
    intros s'. simpl. case_decide; subst; by fn_goal.
Qed.
End Steps.

(** ** The steps of a thread's own code, and of booting *)

Section Calls.
Context (start : sem_id → Z) (st st' : state) (c : nat) (k : core).
Context (Hinv : inv start st) (Hc : (c < kMaxCores)%nat) (Hk : recored c k st st').
Context (Hidle : idle (pc k) = idle (pc (cores st c))).

Lemma live_stop t :
  dying (cores st c) = None → dying k = Some t → threads st' = threads st →
  ∀ x, live st' x ↔ live st x ∧ x ≠ t.
Proof.
  destruct Hk as [Ek Ec]. intros Hd Hd' HT x. unfold live. rewrite HT. split.
  - intros [Hx Hc']. split; [split; [done|]|].
    + intros c' Hlt. specialize (Hc' c' Hlt).
      destruct (decide (c' = c)) as [->|]; [|by rewrite Ec in Hc'].
      rewrite Ek, Hidle in Hc'. rewrite Hd. split; [apply Hc'|done].
    + specialize (Hc' c Hc). rewrite Ek, Hd' in Hc'. naive_solver.
  - intros [[Hx Hc'] Hne]. split; [done|]. intros c' Hlt. specialize (Hc' c' Hlt).
    destruct (decide (c' = c)) as [->|]; [|by rewrite Ec].
    rewrite Ek, Hidle, Hd'. split; [apply Hc'|congruence].
Qed.

Lemma live_new x v :
  dying k = dying (cores st c) → threads st !! x = None → threads st' = <[x := v]> (threads st) →
  ∀ y, live st' y ↔ y = x ∨ live st y.
Proof.
  destruct Hk as [Ek Ec]. intros Hd Hx HT y.
  assert (∀ c', (c' < kMaxCores)%nat →
    idle (pc (cores st' c')) = idle (pc (cores st c')) ∧ dying (cores st' c') = dying (cores st c')) as Hsame.
  { intros c' _. destruct (decide (c' = c)) as [->|]; [by rewrite Ek|by rewrite Ec]. }
  assert (∀ c', (c' < kMaxCores)%nat → x ∉ hands (cores st c')) as Hnew.
  { intros c' Hlt Hin. apply (on_core st c' x Hlt) in Hin.
    apply (place_exists start st Hinv) in Hin as [? ?]. congruence. }
  unfold live. rewrite HT, lookup_insert_is_Some. split.
  - intros [Hy Hc']. destruct (decide (y = x)) as [->|]; [by left|]. right.
    split; [naive_solver|]. intros c' Hlt. destruct (Hsame c' Hlt) as [<- <-]. by apply Hc'.
  - intros [->|[Hy Hc']].
    + split; [by left|]. intros c' Hlt. destruct (Hsame c' Hlt) as [-> ->].
      split; intros Hn; apply (Hnew c' Hlt); [by apply idle_hands|by apply dying_hands].
    + split; [destruct (decide (x = y)); [by left|by right]|]. intros c' Hlt.
      destruct (Hsame c' Hlt) as [-> ->]. by apply Hc'.
Qed.
End Calls.

Section Client.
Context (start : sem_id → Z) (st : state) (c : nat) (p : option tcb) (i t : tcb).
Context (Hinv : inv start st) (Hc : (c < kMaxCores)%nat).
Context (E : cores st c = Core (MkPerCore p None None None None None (Some t) (Some i)) Client).

Lemma client_hands : hands (cores st c) = [i; t].
Proof. by rewrite E. Qed.

Lemma client_not_pending f : ¬ pending st t f.
Proof.
  apply (not_pending start st Hinv c); [done| |by rewrite E]. rewrite client_hands. right. by left.
Qed.

Lemma client_live : live st t.
Proof.
  assert (t ∈ at_place st (OnCore c)) as Ht.
  { apply on_core; [done|]. rewrite client_hands. right. by left. }
  split; [by apply (place_exists start st Hinv t (OnCore c))|]. intros c' Hlt.
  assert (t ∈ hands (cores st c') → c' = c) as Hcc.
  { intros Hin. apply (on_core st c' t Hlt) in Hin.
    by injection (place_unique start st Hinv _ _ t Hin Ht). }
  assert (i ≠ t) as Hne.
  { destruct Hinv as (G & L & H & HP & _). pose proof (owns_nodup _ _ (placed_owns _ _ _ HP) (OnCore c)) as Hn.
    rewrite <- (at_place_owned st G L) in Hn by done. simpl in Hn. rewrite decide_True, client_hands in Hn by done.
    apply NoDup_cons in Hn as [Hn _]. intros ->. apply Hn. by left. }
  split; intros Hx; pose proof Hx as Hh; [apply idle_hands in Hh|apply dying_hands in Hh];
    apply Hcc in Hh; subst c'; rewrite E in Hx; simpl in Hx; [congruence|done].
Qed.

(** [yield()] changes nothing that the threads can see. *)
Lemma client_yields st' :
  client_step c Yield st = Some st' →
  same_live st st' ∧ same_pending st st' ∧ same_available start st st'.
Proof.
  intros [= <-].
  assert (recored c (Core (yield_requests (pc (cores st c))) (Switch AfterYield)) st
    (go_to c (Switch AfterYield) (set_pc c yield_requests st))) as Hk by recored E.
  split; [|split].
  - eapply (live_frame st _ c _ Hk); [by rewrite ?E..|done].
  - eapply (pending_frame st _ c _ Hk); [by rewrite ?E|done].
  - done.
Qed.

Lemma client_stops st' :
  client_step c Return st = Some st' →
  (∀ x, live st' x ↔ live st x ∧ x ≠ t) ∧ same_pending st st' ∧ same_available start st st'.
Proof.
  intros [= <-].
  assert (recored c (Core (stop_requests (pc (cores st c))) (Switch AfterStop)) st
    (go_to c (Switch AfterStop) (set_pc c stop_requests st))) as Hk by recored E.
  split; [|split].
  - eapply (live_stop st _ c _ Hc Hk); by rewrite ?E.
  - eapply (pending_frame st _ c _ Hk); [by rewrite ?E|done].
  - done.
Qed.

(** [up()] and [down()] take the lock. *)
Lemma client_calls s f st' :
  f = Up s ∨ f = Down s → lock_ (sems st s) = false → client_step c f st = Some st' →
  same_live st st' ∧ (∀ t' f', pending st' t' f' ↔ (t' = t ∧ f' = f) ∨ pending st t' f') ∧
  same_available start st st' ∧ (work st' < work st)%nat.
Proof.
  intros Hf Hl. assert (∃ k, core_pending k = Some (t, f) ∧ dying k = None ∧ idle (pc k) = Some i ∧
    ∀ st', client_step c f st = Some st' →
      recored c k st st' ∧ threads st' = threads st ∧ log st' = log st ∧
      (∀ s', q (sems st' s') = q (sems st s')) ∧
      (core_work k st' < core_work (cores st c) st)%nat) as (k & Hp & Hd & Hi & Hstep).
  { destruct Hf as [-> | ->];
      [exists (Core (pc (cores st c)) (UpLocked s))|exists (Core (pc (cores st c)) (DownLocked s))];
      (rewrite E; do 3 (split; [done|])); intros st1; one_step E; rewrite Hl; intros [= <-];
      (split; [recored E|]); do 2 (split; [done|]); (split; [|less_work E]); intros s'; simpl;
      (destruct (decide (s' = s)) as [->|]; by fn_goal). }
  intros Est. destruct (Hstep st' Est) as (Hk & HT & Hlog & Hq & Hwork).
  split_and!; [| | |by eapply (work_frame start st _ c k)].
  - eapply (live_frame st _ c _ Hk); [by rewrite E..|by rewrite HT].
  - eapply (pending_new start st _ c _ Hk); by rewrite ?E.
  - intros s'. unfold available. by rewrite Hlog.
Qed.
End Client.

(** [go()], called by a thread or by kmain: thread [x] is new. *)
Section Go.
Context (start : sem_id → Z) (st : state) (c : nat) (x : tcb) (pt : point).
Context (Hinv : inv start st) (Hc : (c < kMaxCores)%nat) (Hx : threads st !! x = None).

Lemma absent_not_pending f : ¬ pending st x f.
Proof.
  intros [p Hp]. apply pending_place in Hp.
  destruct (place_exists start st Hinv x p Hp). congruence.
Qed.

Lemma go_adds st' :
  (at_ (cores st c) = Client ∧ pt = GoSchedule x ∨ at_ (cores st c) = Boot ∧ pt = BootSchedule x) →
  go c x pt st = Some st' →
  (∀ y, live st' y ↔ y = x ∨ live st y) ∧ same_pending st st' ∧ same_available start st st'.
Proof.
  intros Hat. unfold go. rewrite Hx. intros [= <-].
  destruct (cores st c) as [k0 a0] eqn:E.
  assert (recored c (Core (pc (cores st c)) pt) st
    (go_to c pt (set_threads (<[x := Saved Entry]> (threads st)) st))) as Hk by recored E.
  simpl in Hat. split; [|split].
  - eapply (live_new start st _ c _ Hinv Hk); [done| |done|done].
    rewrite E. by destruct Hat as [[-> ->]|[-> ->]].
  - eapply (pending_frame st _ c _ Hk); [|done]. rewrite E. by destruct Hat as [[-> ->]|[-> ->]].
  - done.
Qed.
End Go.

(** A core that has booted stops. *)
Lemma boot_stops start st c p i st' :
  cores st c = Core (MkPerCore p None None None None None None (Some i)) Boot →
  (c < kMaxCores)%nat → stop c st = Some st' →
  same_live st st' ∧ same_pending st st' ∧ same_available start st st' ∧ (work st' < work st)%nat.
Proof.
  intros E Hc [= <-].
  assert (recored c (Core (stop_requests (pc (cores st c))) (Switch AfterStop)) st
    (go_to c (Switch AfterStop) (set_pc c stop_requests st))) as Hk by recored E.
  split_and!.
  - eapply (live_frame st _ c _ Hk); [by rewrite ?E..|done].
  - eapply (pending_frame st _ c _ Hk); [by rewrite ?E|done].
  - done.
  - apply (work_frame start st _ c _ Hk Hc). less_work E.
Qed.
