(* ===== verification/ThreadSim.v ===== *)
(** * The kernel implements its thread library

    The simulation between the cores that run a program ([Program]) and the threads
    of the specification ([ThreadSpec]), and its theorem.  A step of a core is a
    step of at most one thread of the specification: a thread's own instruction,
    or the moment at which its [up] or [down] takes effect. *)

From stdpp Require Import functions.
From S2P Require Import Program Prelude Sched SchedInv SchedProps ThreadSpec.

#[local] Open Scope Z_scope.

(** ** The simulation *)

Section Simulation.
Context {P : Program} (boot_core : nat).

(** The call [f] at label [l], which goes on at [l']. *)
Definition calls (f : call) (l l' : label) : Prop :=
  match f with
  | Up s => code l = CallUp s l'
  | Down s => code l = CallDown s l'
  | _ => False
  end.

(** A thread is where its continuation says, or at the call that is pending. *)
Definition agree (st : state) (t : tcb) (cont here : option label) : Prop :=
  match cont, here with
  | None, None => True
  | Some l', Some l =>
      (∀ f, ¬ pending st t f) ∧ l = l' ∨ ∃ f, pending st t f ∧ calls f l l'
  | _, _ => False
  end.

Record sim (ps : pstate) (a : spec) : Prop := {
  sim_inv : inv count0 (kernel ps);
  sim_live t : is_Some (conts ps !! t) ↔ live (kernel ps) t;
  sim_pending t f : pending (kernel ps) t f → is_Some (conts ps !! t);
  sim_pool t : agree (kernel ps) t (conts ps !! t) (pool a !! t);
  sim_value s : value a s = available count0 (kernel ps) s;
  sim_vars : svars a = shared ps;
  sim_out : sout a = out ps;
  sim_started : sstarted a = started ps;
}.

Lemma agree_frame st st' t cont here :
  (∀ f, pending st' t f ↔ pending st t f) → agree st t cont here → agree st' t cont here.
Proof. intros Hp. unfold agree. destruct cont, here; try done. by setoid_rewrite Hp. Qed.

Lemma agree_label st t l' here :
  (∀ f, ¬ pending st t f) → agree st t (Some l') here → here = Some l'.
Proof. intros Hn. destruct here as [l|]; [|done]. intros [[_ ->]|(f & Hf & _)]; [done|by destruct (Hn f)]. Qed.

(** Nothing changes for the threads. *)
Lemma sim_kernel ps a st' :
  sim ps a → inv count0 st' → same_live (kernel ps) st' → same_pending (kernel ps) st' →
  same_available count0 (kernel ps) st' → sim (set_kernel st' ps) a.
Proof.
  intros HS Hinv Hl Hp Hv. destruct HS as [_ Hlive Hpend Hpool Hval ? ? ?]. split; simpl; try done.
  - intros t. by rewrite Hlive, (Hl t).
  - intros t f. rewrite (Hp t f). apply Hpend.
  - intros t. by apply (agree_frame (kernel ps)).
  - intros s. by rewrite (Hv s).
Qed.

(** A call takes effect. *)
Lemma sim_effect ps a st' t f :
  sim ps a → inv count0 st' → same_live (kernel ps) st' → takes_effect count0 (kernel ps) st' t f →
  ∃ a', spec_step a a' ∧ sim (set_kernel st' ps) a'.
Proof.
  intros HS Hinv Hl (Ht & Hp & Hf). pose proof HS as [Hinv0 Hlive Hpend Hpool Hval Hvars Hout Hst].
  destruct (Hpend t f Ht) as [l' El']. pose proof (Hpool t) as Hag. rewrite El' in Hag.
  destruct a as [m v x o b]. simpl in *.
  destruct (m !! t) as [l|] eqn:El; [|done]. destruct Hag as [[Hn _]|(f' & Hf' & Hcall)]; [by destruct (Hn f)|].
  rewrite <- (pending_unique _ _ Hinv0 t f f' Ht Hf') in Hcall. clear f' Hf'.
  assert (∀ v', (∀ s, v' s = available count0 st' s) →
    sim (set_kernel st' ps) (Spec (<[t := l']> m) v' x o b)) as Hsim.
  { intros v' Hv'. split; simpl; try done.
    - intros y. by rewrite Hlive, (Hl y).
    - intros y g. rewrite Hp. intros [_ Hy]. by eapply Hpend.
    - intros y. destruct (decide (y = t)) as [->|Hne].
      + rewrite El', lookup_insert_eq. left. split; [|done]. intros g. rewrite Hp. by intros [? _].
      + rewrite lookup_insert_ne by done. apply (agree_frame (kernel ps)); [|done].
        intros g. rewrite Hp. naive_solver. }
  destruct f as [| |s|s|]; try done; simpl in Hcall.
  - eexists. split; [apply spec_thread with t; by eapply step_up|]. apply Hsim.
    intros s'. rewrite Hf. destruct (decide (s' = s)) as [->|]; fn_goal; by rewrite Hval.
  - destruct Hf as [Hav Hf].
    eexists. split; [apply spec_thread with t; eapply step_down; [done..|by rewrite Hval]|]. apply Hsim.
    intros s'. rewrite Hf. destruct (decide (s' = s)) as [->|]; fn_goal; by rewrite Hval.
Qed.

(** A step of thread [t]'s own code: its label changes, and the kernel as it may. *)
Lemma sim_thread ps a st' t l l' v' vs os :
  sim ps a → conts ps !! t = Some l → (∀ f, ¬ pending (kernel ps) t f) →
  inv count0 st' → same_live (kernel ps) st' → same_pending (kernel ps) st' →
  (∀ s, v' s = available count0 st' s) →
  sim (PState st' (<[t := l']> (conts ps)) vs os (started ps))
    (Spec (<[t := l']> (pool a)) v' vs os (sstarted a)).
Proof.
  intros HS El Hn Hinv Hl Hp Hv. destruct HS as [_ Hlive Hpend Hpool Hval ? ? ?]. split; simpl; try done.
  - intros y. rewrite lookup_insert_is_Some, (Hl y), <- Hlive.
    destruct (decide (t = y)) as [->|]; [rewrite El; naive_solver|naive_solver].
  - intros y f. rewrite (Hp y f), lookup_insert_is_Some. intros ?%Hpend.
    destruct (decide (t = y)); [by left|by right].
  - intros y. destruct (decide (y = t)) as [->|].
    + rewrite !lookup_insert_eq. left. split; [|done]. intros f. rewrite (Hp t f). apply Hn.
    + rewrite !lookup_insert_ne by done. by apply (agree_frame (kernel ps)).
Qed.

(** A thread calls [up] or [down] and gets the lock. *)
Lemma sim_calls ps a st' t l l' f :
  sim ps a → conts ps !! t = Some l → (∀ g, ¬ pending (kernel ps) t g) → calls f l l' →
  inv count0 st' → same_live (kernel ps) st' →
  (∀ t' f', pending st' t' f' ↔ (t' = t ∧ f' = f) ∨ pending (kernel ps) t' f') →
  same_available count0 (kernel ps) st' →
  sim (goes_on t l' (set_kernel st' ps)) a.
Proof.
  intros HS El Hn Hcall Hinv Hl Hp Hv. destruct HS as [_ Hlive Hpend Hpool Hval ? ? ?]. split; simpl; try done.
  - intros y. rewrite lookup_insert_is_Some, (Hl y), <- Hlive.
    destruct (decide (t = y)) as [->|]; [rewrite El; naive_solver|naive_solver].
  - intros y g. rewrite Hp, lookup_insert_is_Some. intros [[-> _]|?%Hpend]; [by left|].
    destruct (decide (t = y)); [by left|by right].
  - intros y. destruct (decide (y = t)) as [->|].
    + rewrite lookup_insert_eq. specialize (Hpool t). rewrite El in Hpool.
      apply agree_label in Hpool as ->; [|done]. right. exists f. split; [|done]. rewrite Hp. by left.
    + rewrite lookup_insert_ne by done. apply (agree_frame (kernel ps)); [|done].
      intros g. rewrite Hp. naive_solver.
  - intros s. by rewrite (Hv s).
Qed.

(** A new thread; the pool has it, too. *)
Lemma sim_new ps a st' x l b :
  sim ps a → threads (kernel ps) !! x = None → inv count0 st' →
  (∀ y, live st' y ↔ y = x ∨ live (kernel ps) y) → same_pending (kernel ps) st' →
  same_available count0 (kernel ps) st' →
  pool a !! x = None ∧
  sim (PState st' (<[x := l]> (conts ps)) (shared ps) (out ps) b)
    (Spec (<[x := l]> (pool a)) (value a) (svars a) (sout a) b).
Proof.
  intros HS Hx Hinv Hl Hp Hv. destruct HS as [Hinv0 Hlive Hpend Hpool Hval ? ? ?].
  assert (conts ps !! x = None) as Hcx.
  { apply eq_None_not_Some. rewrite Hlive. intros [[? ?] _]. congruence. }
  assert (∀ f, ¬ pending st' x f) as Hn.
  { intros f. rewrite (Hp x f). by apply (absent_not_pending count0). }
  split; [specialize (Hpool x); rewrite Hcx in Hpool; by destruct (pool a !! x)|]. split; simpl; try done.
  - intros y. rewrite lookup_insert_is_Some, Hl, <- Hlive.
    destruct (decide (x = y)) as [->|]; naive_solver.
  - intros y f. rewrite (Hp y f), lookup_insert_is_Some. intros ?%Hpend.
    destruct (decide (x = y)); [by left|by right].
  - intros y. destruct (decide (y = x)) as [->|].
    + rewrite !lookup_insert_eq. by left.
    + rewrite !lookup_insert_ne by done. by apply (agree_frame (kernel ps)).
  - intros s. by rewrite (Hv s).
Qed.

Lemma sim_stop ps a st' t l :
  sim ps a → conts ps !! t = Some l → (∀ f, ¬ pending (kernel ps) t f) → inv count0 st' →
  (∀ x, live st' x ↔ live (kernel ps) x ∧ x ≠ t) → same_pending (kernel ps) st' →
  same_available count0 (kernel ps) st' →
  sim (set_conts (delete t (conts ps)) (set_kernel st' ps))
    (Spec (delete t (pool a)) (value a) (svars a) (sout a) (sstarted a)).
Proof.
  intros HS El Hn Hinv Hl Hp Hv. destruct HS as [_ Hlive Hpend Hpool Hval ? ? ?]. split; simpl; try done.
  - intros y. rewrite lookup_delete_is_Some, Hl, <- Hlive. naive_solver.
  - intros y f. rewrite (Hp y f), lookup_delete_is_Some. intros Hy. split; [|by eapply Hpend].
    intros <-. by apply (Hn f).
  - intros y. destruct (decide (y = t)) as [->|]; [by rewrite !lookup_delete_eq|].
    rewrite !lookup_delete_ne by done. by apply (agree_frame (kernel ps)).
  - intros s. by rewrite (Hv s).
Qed.
End Simulation.

Lemma client_shape start st c :
  inv start st → (c < kMaxCores)%nat → at_ (cores st c) = Client →
  ∃ p i t, cores st c = Core (MkPerCore p None None None None None (Some t) (Some i)) Client.
Proof.
  intros (G & L & H & HP & _) Hc Hat. pose proof (placed_core _ _ _ HP c Hc) as Hs.
  destruct Hs; simpl in Hat; simplify_eq. by eauto.
Qed.

Lemma boot_shape start st c :
  inv start st → (c < kMaxCores)%nat → at_ (cores st c) = Boot →
  ∃ p i, cores st c = Core (MkPerCore p None None None None None None (Some i)) Boot.
Proof.
  intros (G & L & H & HP & _) Hc Hat. pose proof (placed_core _ _ _ HP c Hc) as Hs.
  destruct Hs as [| | |? ? ? ? ? Hk| | | | | | | | | | | | |]; simpl in Hat; simplify_eq;
    [by eauto|by inversion Hk].
Qed.

Lemma inv_stepped start st c f st' :
  inv start st → (c < kMaxCores)%nat → core_step c f st = Some st' → inv start st'.
Proof. intros Hinv Hc E. destruct (inv_progress start st c f Hinv Hc) as (st1 & E1 & ?). congruence. Qed.

(** ** Every step is simulated *)

Section Refinement.
Context {P : Program} (boot_core : nat).

(** After a step to [ps']: a thread of the specification has taken a step, or none
    has and there is less work left, unless the step was wasted. *)
Definition simulated (wasted : bool) (ps ps' : pstate) (a : spec) : Prop :=
  sim ps' a ∧ (wasted = true ∨ (work (kernel ps') < work (kernel ps))%nat) ∨
  ∃ a', spec_step a a' ∧ sim ps' a'.

Lemma sim_call_sem c f s t l l' ps a ps' p i :
  sim ps a → (c < kMaxCores)%nat →
  cores (kernel ps) c = Core (MkPerCore p None None None None None (Some t) (Some i)) Client →
  conts ps !! t = Some l → f = Up s ∨ f = Down s → calls f l l' →
  call_sem c f s t l' ps = Some ps' → simulated (lock_ (sems (kernel ps) s)) ps ps' a.
Proof.
  intros HS Hc E El Hf Hcall. pose proof (sim_inv _ _ HS) as Hinv. unfold call_sem.
  destruct (lock_ (sems (kernel ps) s)) eqn:Elock; [intros [= <-]; by left; split; [|left]|].
  intros (st' & Es & [= <-])%bind_Some. left.
  destruct (client_calls count0 _ c p i t Hc E s f st' Hf Elock Es) as (Hl & Hp & Hv & Hw).
  split; [|by right]. eapply sim_calls; try done.
  - by apply (client_not_pending count0 _ c p i).
  - apply (inv_stepped count0 (kernel ps) c f); [done|done|]. unfold core_step. by rewrite E.
Qed.

Lemma sim_thread_code c x t l ps a ps' p i :
  sim ps a → (c < kMaxCores)%nat →
  cores (kernel ps) c = Core (MkPerCore p None None None None None (Some t) (Some i)) Client →
  conts ps !! t = Some l → thread_code c x t l ps = Some ps' →
  simulated (stalls boot_core c x ps) ps ps' a.
Proof.
  intros HS Hc E El. pose proof (sim_inv _ _ HS) as Hinv.
  pose proof (client_not_pending _ _ c p i t Hinv Hc E) as Hn.
  assert (pool a !! t = Some l) as Ea.
  { apply (agree_label (kernel ps) t); [done|]. rewrite <- El. apply HS. }
  assert (∀ f st', client_step c f (kernel ps) = Some st' → inv count0 st') as Hstep.
  { intros f st' Es. apply (inv_stepped count0 (kernel ps) c f); [done|done|]. unfold core_step. by rewrite E. }
  assert (∀ b a' ps', thread_step t a a' → sim ps' a' → simulated b ps ps' a) as Hone.
  { intros b a' ps1 Ht Hs. right. exists a'. split; [|done]. by apply spec_thread with t. }
  unfold stalls. rewrite E. cbn [at_ pc curr mbind option_bind]. rewrite El.
  pose proof (sim_value _ _ HS) as Hval. pose proof (sim_vars _ _ HS) as Hvars.
  pose proof (sim_out _ _ HS) as Hout. pose proof (sim_started _ _ HS) as Hst.
  destruct a as [m v vs os b]. simpl in *. subst vs os b.
  unfold thread_code. destruct (code l) as [f|str l'|l'|s l'|s l'|func l'| |] eqn:Ecode; [..|done].
  - destruct (f (shared ps)) as [v' l'] eqn:Ef. intros [= <-].
    eapply Hone; [by eapply step_access|]. rewrite Ef. by apply (sim_thread ps _ _ t l) with (1 := HS).
  - intros [= <-]. eapply Hone; [by eapply step_print|]. by apply (sim_thread ps _ _ t l) with (1 := HS).
  - intros (st' & Es & [= <-])%bind_Some.
    destruct (client_yields count0 _ c p i t E st' Es) as (Hl & Hp & Hv).
    eapply Hone; [by eapply step_yield|]. apply (sim_thread ps _ _ t l) with (1 := HS); try done.
    + by eapply Hstep.
    + intros s. simpl. by rewrite (Hv s).
  - eapply (sim_call_sem c (Up s) s t l l'); [exact HS|done|exact E|exact El|by left|done].
  - eapply (sim_call_sem c (Down s) s t l l'); [exact HS|done|exact E|exact El|by right|done].
  - unfold call_go. destruct (threads (kernel ps) !! x) eqn:Ex; [intros [= <-]; left; by split; [|left]|].
    intros (st' & Es & [= <-])%bind_Some.
    destruct (go_adds count0 _ c x (GoSchedule x) Hinv Ex st') as (Hl & Hp & Hv);
      [left; by rewrite E|done|].
    pose proof (sim_thread ps _ (kernel ps) t l l' v (shared ps) (out ps) HS El Hn Hinv) as HS1.
    destruct (sim_new _ _ st' x func (started ps) (HS1 ltac:(done) ltac:(done) Hval)) as [Hx HS2];
      try done; [by eapply Hstep|].
    eapply Hone; [|exact HS2].
    eapply step_go; [done..|]. simpl in Hx. apply lookup_insert_None in Hx. apply Hx.
  - intros (st' & Es & [= <-])%bind_Some.
    destruct (client_stops count0 _ c p i t Hc E st' Es) as (Hl & Hp & Hv).
    eapply Hone; [by eapply step_stop|]. eapply (sim_stop ps _ st' t l HS); try done. by eapply Hstep.
Qed.

Lemma sim_boot_code c x ps a ps' :
  sim ps a → (c < kMaxCores)%nat → at_ (cores (kernel ps) c) = Boot →
  boot_code boot_core c x ps = Some ps' → simulated (stalls boot_core c x ps) ps ps' a.
Proof.
  intros HS Hc Hat. pose proof (sim_inv _ _ HS) as Hinv.
  assert (∀ f st', boot_step c f (kernel ps) = Some st' → inv count0 st') as Hstep.
  { intros f st' Es. apply (inv_stepped count0 (kernel ps) c f); [done|done|]. unfold core_step. by rewrite Hat. }
  unfold boot_code, stalls. rewrite Hat.
  destruct (bool_decide (c = boot_core) && negb (started ps)) eqn:Eb.
  - apply andb_true_iff in Eb as [_ Hst%negb_true_iff].
    destruct (threads (kernel ps) !! x) eqn:Ex; [intros [= <-]; left; by split; [|left]|].
    intros (st' & Es & [= <-])%bind_Some. right.
    destruct (go_adds count0 _ c x (BootSchedule x) Hinv Ex st') as (Hl & Hp & Hv); [by right|done|].
    destruct (sim_new ps a st' x main true HS) as [Hx HS2]; try done; [by eapply Hstep|].
    eexists. split; [|exact HS2]. rewrite <- (sim_started _ _ HS) in Hst.
    destruct a as [m v vs os b]. simpl in *. subst b. by apply spec_main.
  - intros (st' & Es & [= <-])%bind_Some. left.
    destruct (boot_shape count0 _ c Hinv Hc Hat) as (p & i & E).
    destruct (boot_stops count0 _ c p i st' E Hc Es) as (Hl & Hp & Hv & Hw).
    split; [|by right]. apply sim_kernel; try done. by eapply Hstep.
Qed.

Lemma sim_step c x ps a ps' :
  sim ps a → (c < kMaxCores)%nat → prog_core_step boot_core c x ps = Some ps' →
  simulated (stalls boot_core c x ps) ps ps' a.
Proof.
  intros HS Hc. pose proof (sim_inv _ _ HS) as Hinv. unfold prog_core_step.
  destruct (decide (at_ (cores (kernel ps) c) = Client)) as [Hat|Hcl].
  { rewrite Hat. intros (t & Et & (l & El & Es)%bind_Some)%bind_Some.
    destruct (client_shape count0 _ c Hinv Hc Hat) as (p & i & t' & E).
    rewrite E in Et. injection Et as ->. by eapply sim_thread_code. }
  destruct (decide (at_ (cores (kernel ps) c) = Boot)) as [Hat|Hb].
  { rewrite Hat. by apply sim_boot_code. }
  intros Es. assert (∃ st', core_step c Return (kernel ps) = Some st' ∧ set_kernel st' ps = ps')
    as (st' & Est & <-).
  { destruct (at_ (cores (kernel ps) c)); try done;
      apply bind_Some in Es as (st' & ? & [= <-]); by exists st'. }
  clear Es. pose proof (inv_stepped count0 _ c _ _ Hinv Hc Est) as Hinv'.
  destruct (decide (at_ (cores (kernel ps) c) = IdleNext ∧ ready (kernel ps) = [])) as [[Hat Hr]|Hbusy].
  { left. unfold stalls. rewrite Hat, bool_decide_eq_true_2 by done. split; [|by left].
    revert Est. unfold core_step, idle_step, next. rewrite Hat, Hr. intros [= <-]. by destruct ps. }
  destruct (internal_step count0 _ c Return Hinv Hc st' Hcl Hb) as [Hl [(Hp & Hv & Hw)|(t & f & Hf)]];
    [naive_solver|done|..].
  - left. split; [by apply sim_kernel|by right].
  - right. by apply (sim_effect ps a st' t f).
Qed.

(** ** Faults, the start and the end *)

(** A core faults only where the program is undefined. *)
Lemma sim_fault c x ps a :
  sim ps a → (c < kMaxCores)%nat → prog_core_step boot_core c x ps = None →
  ∃ t l, pool a !! t = Some l ∧ code l = Undefined.
Proof.
  intros HS Hc. pose proof (sim_inv _ _ HS) as Hinv.
  assert (∀ f, is_Some (core_step c f (kernel ps))) as Hstep.
  { intros f. destruct (inv_progress count0 _ c f Hinv Hc) as (st' & -> & _). done. }
  assert (∀ f (k : state → option pstate), (∀ st, is_Some (k st)) → core_step c f (kernel ps) ≫= k ≠ None)
    as Hsome.
  { intros f k Hk. destruct (Hstep f) as [st' ->]. simpl. destruct (Hk st') as [? ->]. done. }
  unfold prog_core_step. destruct (at_ (cores (kernel ps) c)) eqn:Hat;
    try (intros Hx; exfalso; revert Hx; apply Hsome; by eexists).
  - unfold core_step in Hsome. rewrite Hat in Hsome. unfold boot_code.
    intros Hx. exfalso. revert Hx. case_match; [case_match; [done|]|]; apply Hsome; by eexists.
  - destruct (client_shape count0 _ c Hinv Hc Hat) as (p & i & t & E).
    destruct (proj2 (sim_live _ _ HS t) (client_live _ _ c p i t Hinv Hc E)) as [l El].
    unfold core_step in Hsome. rewrite Hat in Hsome. rewrite E. simpl. rewrite El. simpl. intros Hx.
    exists t, l. split.
    + apply (agree_label (kernel ps) t); [by apply (client_not_pending count0 _ c p i)|].
      rewrite <- El. apply HS.
    + revert Hx. unfold thread_code, call_sem, call_go.
      repeat case_match; try done; intros Hx; exfalso; revert Hx; apply Hsome; by eexists.
Qed.

Lemma sim_booted : sim program_booted spec_init.
Proof.
  assert (∀ t f, ¬ pending (booted count0) t f) as Hn.
  { intros t f [[|s|c] Hp]; simpl in Hp; [done|by destruct Hp as [_ ?%not_elem_of_nil]|naive_solver]. }
  split; simpl; try done.
  - by apply inv_booted, count0_nonneg.
  - intros t. rewrite lookup_empty. split; [by intros [? ?]|]. intros [[v Hv] Hc]. exfalso.
    simpl in Hv. apply elem_of_list_to_map_2, list_elem_of_fmap in Hv as (c & [= -> ->] & Hin).
    apply elem_of_seq in Hin. by destruct (Hc c) as [? _]; [lia|].
  - intros t f Hp. by destruct (Hn t f).
  - intros s. unfold available, total. simpl. lia.
Qed.

(** When no core has anything left to do, every thread waits. *)
Lemma sim_quiescent ps a t l :
  sim ps a → quiescent ps → pool a !! t = Some l → stuck a t.
Proof.
  intros HS (_ & Hready & Hcores) Hl. pose proof (sim_inv _ _ HS) as Hinv.
  pose proof (sim_pool _ _ HS t) as Hag. rewrite Hl in Hag.
  destruct (conts ps !! t) as [l'|] eqn:El; [|done].
  destruct (proj1 (sim_live _ _ HS t) ltac:(by rewrite El)) as [Ht Hnot].
  destruct (exists_place _ _ Hinv t Ht) as [[|s|c] Hp]; simpl in Hp.
  - rewrite Hready in Hp. by apply not_elem_of_nil in Hp.
  - assert (pending (kernel ps) t (Down s)) as Hpend by (by exists (Waiting s)).
    destruct Hag as [[Hn _]|(f & Hf & Hcall)]; [by destruct (Hn (Down s))|].
    rewrite (pending_unique _ _ Hinv t f (Down s) Hf Hpend) in Hcall.
    exists l, s, l'. split_and!; [done..|]. rewrite (sim_value _ _ HS).
    destruct Hinv as (G & L & H & HP & HK & HC & _).
    assert (H s = None) as HH.
    { destruct (H s) as [[c g]|] eqn:HH; [|done]. apply (locked_by _ _ HK) in HH as [Hc Hsec].
      unfold section in Hsec. by destruct (Hcores c Hc) as [Hat|Hat]; rewrite Hat in Hsec. }
    destruct (HC s) as [_ Hb]. rewrite HH in Hb. simpl in Hb. unfold available.
    assert (0 < length (q (sems (kernel ps) s)))%nat by (destruct (q _); [by apply not_elem_of_nil in Hp|simpl; lia]).
    lia.
  - case_decide as Hc; [|by apply not_elem_of_nil in Hp]. exfalso.
    destruct (Hnot c Hc) as [Hi _]. unfold hands in Hp.
    assert (∀ o, o ≠ Some t → t ∉ option_list o) as Ho.
    { intros [y|] Hy; simpl; [rewrite list_elem_of_singleton; congruence|apply not_elem_of_nil]. }
    destruct (Hcores c Hc) as [Hat|Hat]; rewrite Hat in Hp; apply elem_of_app in Hp as [Hp|Hp];
      try (by apply (Ho _ Hi)); [by apply not_elem_of_nil in Hp|].
    destruct (boot_shape count0 _ c Hinv Hc Hat) as (p & i & E). rewrite E in Hp.
    by apply not_elem_of_nil in Hp.
Qed.

Lemma sim_reachable ps :
  rtc (program_step boot_core) program_booted ps → ∃ a, rtc spec_step spec_init a ∧ sim ps a.
Proof.
  intros Hr. assert (∀ a, sim program_booted a → ∃ a', rtc spec_step a a' ∧ sim ps a') as Hgo;
    [|apply Hgo, sim_booted].
  induction Hr as [ps|ps1 ps2 ps3 (c & x & Hc & Es) _ IH]; intros a HS; [by exists a|].
  destruct (sim_step c x ps1 a ps2 HS Hc Es) as [[HS2 _]|(a2 & Hr2 & HS2)]; [by apply IH|].
  destruct (IH a2 HS2) as (a3 & Hr3 & HS3). exists a3. split; [by eapply rtc_l|done].
Qed.

(** C9: the kernel implements its thread library.  Whatever a program does, and
    however its threads are spread over eight cores: there is an execution of its
    threads in the specification, with the same shared variables and the same
    output.  A core faults only if a thread has undefined behaviour there.  When
    the cores have nothing left to do, every thread that is left in it waits for a
    semaphore that is zero: no thread and no wake-up is lost. *)
Theorem kernel_refines_threads ps :
  rtc (program_step boot_core) program_booted ps →
  ∃ a, rtc spec_step spec_init a ∧ svars a = shared ps ∧ sout a = out ps ∧
    (∀ c x, (c < kMaxCores)%nat → prog_core_step boot_core c x ps = None →
       ∃ t l, pool a !! t = Some l ∧ code l = Undefined) ∧
    (quiescent ps → sstarted a = true ∧ ∀ t l, pool a !! t = Some l → stuck a t).
Proof.
  intros Hr. destruct (sim_reachable ps Hr) as (a & Ha & HS). exists a. split; [done|].
  split; [apply HS|]. split; [apply HS|]. split.
  - intros c x Hc. by apply sim_fault.
  - intros Hq. split; [rewrite (sim_started _ _ HS); apply Hq|]. intros t l. by apply (sim_quiescent ps).
Qed.
End Refinement.
