(* ===== verification/ThreadProgress.v ===== *)
(** * Progress of programs on the kernel

    A step of a core is wasted if it finds no thread to run or a lock taken
    ([stalls]).  As long as anything is left to do, some core can take a step that
    is not wasted ([no_deadlock]); and between two steps of the program's threads
    there is a bounded number of such steps, because the [work] left in the kernel
    becomes less.  So a program that ends on the specification ends on the
    kernel. *)

From stdpp Require Import functions relations.
From S2P Require Import Program Prelude Sched SchedInv SchedProps ThreadSpec ThreadSim.

#[local] Open Scope Z_scope.

(** ** kmain starts [main] before it leaves *)

Section Progress.
Context {P : Program} (boot_core : nat).

(** A step of the program is a step of the kernel, or of a thread's own code. *)
Lemma prog_core_step_kernel c x ps ps' :
  prog_core_step boot_core c x ps = Some ps' →
  (kernel ps' = kernel ps ∨ ∃ f, core_step c f (kernel ps) = Some (kernel ps')) ∧
  (started ps = true → started ps' = true) ∧
  (started ps = false → c = boot_core → at_ (cores (kernel ps) c) = Boot →
     kernel ps' = kernel ps ∧ started ps' = false ∨ started ps' = true).
Proof.
  unfold prog_core_step. destruct (at_ (cores (kernel ps) c)) eqn:Hat;
    try (intros (st' & Es & [= <-])%bind_Some; split; [right; by exists Return|done]).
  - unfold boot_code. intros E. assert (∀ f, core_step c f (kernel ps) = boot_step c f (kernel ps)) as Hb.
    { intros f. unfold core_step. by rewrite Hat. }
    destruct (bool_decide (c = boot_core) && negb (started ps)) eqn:Eb.
    + case_match; [injection E as <-; split; [by left|split; [done|by left]]|].
      apply bind_Some in E as (st' & Es & [= <-]). simpl. rewrite <- Hb in Es.
      split; [right; by eexists|]. split; [done|by right].
    + apply bind_Some in E as (st' & Es & [= <-]). simpl. rewrite <- Hb in Es.
      split; [right; by eexists|]. split; [done|]. intros Hs -> _.
      rewrite bool_decide_eq_true_2, Hs in Eb by done. done.
  - intros (t & _ & (l & _ & E)%bind_Some)%bind_Some. split; [|split; [|done]].
    + assert (∀ f, core_step c f (kernel ps) = client_step c f (kernel ps)) as Hcl.
      { intros f. unfold core_step. by rewrite Hat. }
      setoid_rewrite Hcl. unfold thread_code, call_sem, call_go in E.
      repeat case_match; try discriminate E; try (injection E as <-; by left);
        apply bind_Some in E as (st' & Es & [= <-]); right; by eexists.
    + unfold thread_code, call_sem, call_go in E.
      repeat case_match; try discriminate E; try (injection E as <-; done);
        apply bind_Some in E as (st' & Es & [= <-]); done.
Qed.

Lemma boot_core_starts ps :
  rtc (program_step boot_core) program_booted ps →
  started ps = true ∨ at_ (cores (kernel ps) boot_core) = Boot.
Proof.
  intros Hr. assert (∀ ps0, started ps0 = true ∨ at_ (cores (kernel ps0) boot_core) = Boot →
    rtc (program_step boot_core) ps0 ps → started ps = true ∨ at_ (cores (kernel ps) boot_core) = Boot)
    as Hgo; [|by apply (Hgo program_booted); [right|]].
  clear Hr. intros ps0 H0 Hr. induction Hr as [|ps1 ps2 ps3 (c & x & Hc & Es) _ IH]; [done|].
  apply IH. destruct (prog_core_step_kernel c x ps1 ps2 Es) as (Hk & Hs & Hb).
  destruct (started ps1) eqn:Hst; [left; by apply Hs|]. destruct H0 as [?|H0]; [done|].
  destruct (decide (c = boot_core)) as [->|Hne].
  - destruct (Hb eq_refl eq_refl H0) as [[-> _]|?]; [by right|by left].
  - right. destruct Hk as [-> |[f Hf]]; [done|]. by rewrite (core_step_other _ _ _ _ _ Hf).
Qed.

(** ** Some core is not waiting *)

Lemma no_deadlock ps a x :
  sim ps a → (boot_core < kMaxCores)%nat →
  (started ps = true ∨ at_ (cores (kernel ps) boot_core) = Boot) →
  threads (kernel ps) !! x = None →
  quiescent ps ∨ ∃ c, (c < kMaxCores)%nat ∧ stalls boot_core c x ps = false.
Proof.
  intros HS Hb Hst Hx. pose proof (sim_inv _ _ HS) as Hinv.
  destruct (existsb (λ c, negb (stalls boot_core c x ps)) (seq 0 kMaxCores)) eqn:Hex.
  { right. apply existsb_exists in Hex as (c & Hin & Hn). exists c.
    apply list_elem_of_In, elem_of_seq in Hin. split; [lia|]. by apply negb_true_iff. }
  left. assert (∀ c, (c < kMaxCores)%nat → stalls boot_core c x ps = true) as Hall.
  { intros c Hc. destruct (stalls boot_core c x ps) eqn:E; [done|].
    rewrite <- Hex. apply existsb_exists. exists c. rewrite E. split; [|done].
    apply list_elem_of_In, elem_of_seq. lia. }
  clear Hex. pose proof Hinv as (G & L & H & HP & HK & _).
  assert (∀ c, (c < kMaxCores)%nat → at_ (cores (kernel ps) c) = IdleNext ∧ ready (kernel ps) = []) as Hidle.
  { intros c Hc. pose proof (Hall c Hc) as Hs. unfold stalls in Hs.
    destruct (at_ (cores (kernel ps) c)) eqn:Hat; try done.
    - rewrite Hx, (bool_decide_eq_false_2 (is_Some (@None tstate))), andb_false_r in Hs by (by intros []). done.
    - exfalso. assert (∃ s, lock_ (sems (kernel ps) s) = true) as [s Hl].
      { repeat case_match; try done; try (by eexists).
        rewrite bool_decide_eq_false_2 in Hs by (rewrite Hx; by intros []). done. }
      rewrite (locked_lock _ _ HK) in Hl. apply bool_decide_eq_true in Hl as [[c' g] Hg].
      apply (locked_by _ _ HK) in Hg as [Hc' Hsec]. specialize (Hall c' Hc').
      unfold stalls in Hall. unfold section in Hsec.
      by destruct (at_ (cores (kernel ps) c')).
    - split; [done|]. by apply bool_decide_eq_true in Hs. }
  destruct (Hidle boot_core Hb) as [Hat Hr]. split; [|split; [done|]].
  - destruct Hst as [?|Hst]; [done|congruence].
  - intros c Hc. left. by apply Hidle.
Qed.

(** ** Programs that end *)

(** If the threads take finitely many steps from [a], the cores take finitely many
    that are not wasted. *)
Lemma busy_ends ps a : sim ps a → sn spec_step a → sn (busy_step boot_core) ps.
Proof.
  intros HS Ha. revert ps HS. induction Ha as [a _ IHa]. intros ps.
  remember (work (kernel ps)) as n eqn:En. revert ps En.
  induction (lt_wf n) as [n _ IHn]. intros ps -> HS. constructor.
  intros ps' (c & x & Hc & Hs & Es). pose proof (sim_step boot_core c x ps a ps' HS Hc Es) as Hsim.
  rewrite Hs in Hsim. destruct Hsim as [[HS' [?|Hw]]|(a' & Ha' & HS')]; [done| |].
  - by apply (IHn (work (kernel ps'))).
  - by apply (IHa a').
Qed.

Lemma fresh_tcb (st : state) : ∃ x, threads st !! x = None.
Proof. exists (fresh (dom (threads st))). apply not_elem_of_dom, is_fresh. Qed.

(** Where no step is left but wasted ones, there is nothing left to do. *)
Lemma busy_end ps :
  (boot_core < kMaxCores)%nat → rtc (program_step boot_core) program_booted ps →
  (∀ c x, (c < kMaxCores)%nat → is_Some (prog_core_step boot_core c x ps)) →
  (∀ ps', ¬ busy_step boot_core ps ps') → quiescent ps.
Proof.
  intros Hb Hr Hsome Hend. destruct (sim_reachable boot_core ps Hr) as (a & _ & HS).
  destruct (fresh_tcb (kernel ps)) as [x Hx].
  destruct (no_deadlock ps a x HS Hb (boot_core_starts ps Hr) Hx) as [?|(c & Hc & Hs)]; [done|].
  destruct (Hsome c x Hc) as [ps' E]. destruct (Hend ps'). by exists c, x.
Qed.

(** C10: programs end on the kernel if they end on the specification.  If the threads
    of a program cannot take steps for ever in the specification, then whatever the
    cores do, they cannot go on for ever but for looking for threads and waiting
    for locks; and as long as there is anything left to do, some core can do
    something else than that: there is no deadlock in the kernel. *)
Theorem kernel_preserves_termination ps :
  (boot_core < kMaxCores)%nat → sn spec_step spec_init →
  rtc (program_step boot_core) program_booted ps →
  sn (busy_step boot_core) ps ∧
  (quiescent ps ∨ ∃ c x, (c < kMaxCores)%nat ∧ stalls boot_core c x ps = false).
Proof.
  intros Hb Hsn Hr. destruct (sim_reachable boot_core ps Hr) as (a & Ha & HS). split.
  - apply (busy_ends ps a HS). clear HS. induction Ha as [|a1 a2 a3 H12 _ IH]; [done|].
    apply IH. by destruct Hsn as [Hsn]; apply Hsn.
  - destruct (fresh_tcb (kernel ps)) as [x Hx].
    destruct (no_deadlock ps a x HS Hb (boot_core_starts ps Hr) Hx) as [?|(c & Hc & Hs)]; [by left|].
    right. by exists c, x.
Qed.
End Progress.
