(* ===== verification/TestUtil.v ===== *)
(** * tests/test_util.hpp, and how a test is verified

    A test is a [Program].  [pass()] and [fail()] are labels that every test has
    ([verdict]).  [program_invariant]: what holds of the threads of the
    specification at the start, and is kept by each of their steps, holds whenever
    the cores run the test.  [weigh] adds up a number per thread. *)

From stdpp Require Import relations.
From S2P Require Import Program Prelude Sched ThreadSpec ThreadSim ThreadProgress.

#[local] Open Scope Z_scope.

(** ** test::pass and test::fail *)

Definition newline : string := String (Ascii.ascii_of_nat 10) EmptyString.
Definition test_pass : string := "TEST PASS" +:+ newline.

Inductive verdict :=
  | Pass
  | Failed (reason : string) | FailReason (reason : string) | FailNewline
  | Stop.

Definition verdict_code {V L} (ending : verdict → L) (d : verdict) : instr V L :=
  match d with
  | Pass => Print test_pass (ending Stop)
  | Failed reason => Print "TEST FAIL: " (ending (FailReason reason))
  | FailReason reason => Print reason (ending FailNewline)
  | FailNewline => Print newline (ending Stop)
  | Stop => CallStop
  end.

(** How many steps that takes. *)
Definition verdict_steps (d : verdict) : Z :=
  match d with Failed _ => 4 | FailReason _ => 3 | FailNewline | Pass => 2 | Stop => 1 end.

(** ** Invariants *)

Section Invariant.
Context {P : Program} (I : spec → Prop).
Context (I_init : I spec_init).
Context (I_main : ∀ m v x o t,
  m !! t = None → I (Spec m v x o false) → I (Spec (<[t := main]> m) v x o true)).
Context (I_thread : ∀ t a a', thread_step t a a' → I a → I a').

Lemma spec_invariant a : rtc spec_step spec_init a → I a.
Proof.
  intros Hr. assert (∀ a0, I a0 → rtc spec_step a0 a → I a) as Hgo; [|by apply (Hgo spec_init)].
  clear Hr. intros a0 H0 Hr. revert H0.
  induction Hr as [|a1 a2 a3 Hs _ IH]; [done|]. intros H1. apply IH.
  destruct Hs; [by apply I_main|by eapply I_thread].
Qed.

Lemma program_invariant b ps :
  rtc (program_step b) program_booted ps →
  ∃ a, I a ∧ svars a = shared ps ∧ sout a = out ps ∧
    (∀ c x, (c < kMaxCores)%nat → prog_core_step b c x ps = None →
       ∃ t l, pool a !! t = Some l ∧ code l = Undefined) ∧
    (quiescent ps → sstarted a = true ∧ ∀ t l, pool a !! t = Some l → stuck a t).
Proof.
  intros Hr. destruct (sim_reachable b ps Hr) as (a & Ha & HS). exists a.
  split; [by apply spec_invariant|]. split; [apply HS|]. split; [apply HS|]. split.
  - intros c x Hc. by apply (sim_fault b).
  - intros Hq. split; [rewrite (sim_started _ _ HS); apply Hq|]. intros t l. by apply (sim_quiescent ps).
Qed.

(** A test ends if its threads' steps make a number smaller. *)
Context (left_ : spec → Z) (left_nonneg : ∀ a, I a → 0 ≤ left_ a).
Context (left_main : ∀ m v x o t, m !! t = None → I (Spec m v x o false) →
  left_ (Spec (<[t := main]> m) v x o true) < left_ (Spec m v x o false)).
Context (left_thread : ∀ t a a', thread_step t a a' → I a → left_ a' < left_ a).

Lemma spec_ends a : I a → sn spec_step a.
Proof.
  remember (Z.to_nat (left_ a)) as n eqn:En. revert a En.
  induction (lt_wf n) as [n _ IH]. intros a -> HI. constructor. intros a' Hs.
  assert (I a' ∧ left_ a' < left_ a) as [HI' Hlt].
  { destruct Hs; [split; [by apply I_main|by apply left_main]|].
    split; [by eapply I_thread|by eapply left_thread]. }
  pose proof (left_nonneg a' HI'). apply (IH (Z.to_nat (left_ a'))); [lia|done|done].
Qed.

Lemma program_ends b ps :
  rtc (program_step b) program_booted ps → sn (busy_step b) ps.
Proof.
  intros Hr. destruct (sim_reachable b ps Hr) as (a & Ha & HS).
  apply (busy_ends b ps a HS), spec_ends, (spec_invariant a Ha).
Qed.
End Invariant.

(** ** Sums over threads *)

Section Weigh.
Context {L : Type} (w : L → Z).
Implicit Types m : gmap tcb L.

Definition weigh m : Z := map_fold (λ _ l z, w l + z) 0 m.

Lemma weigh_empty : weigh ∅ = 0.
Proof. apply map_fold_empty. Qed.

Lemma weigh_new m t l : m !! t = None → weigh (<[t := l]> m) = w l + weigh m.
Proof. intros Ht. unfold weigh. rewrite map_fold_insert_L; [done|intros; lia|done]. Qed.

Lemma weigh_delete m t l : m !! t = Some l → weigh (delete t m) = weigh m - w l.
Proof.
  intros Ht. unfold weigh. rewrite (map_fold_delete_L _ _ t l m); [simpl; lia|intros; lia|done].
Qed.

Lemma weigh_set m t l l' : m !! t = Some l → weigh (<[t := l']> m) = weigh m - w l + w l'.
Proof.
  intros Ht. rewrite <- insert_delete_eq, weigh_new by apply lookup_delete_eq.
  rewrite (weigh_delete m t l) by done. lia.
Qed.

Lemma weigh_go m t l l' t' func :
  m !! t = Some l → m !! t' = None →
  weigh (<[t' := func]> (<[t := l']> m)) = weigh m - w l + w l' + w func.
Proof.
  intros Ht Ht'. rewrite weigh_new, (weigh_set m t l) by (try done; apply lookup_insert_None; split; congruence).
  lia.
Qed.

Context (Hw : ∀ l, 0 ≤ w l).

Lemma weigh_nonneg m : 0 ≤ weigh m.
Proof.
  induction m as [|t l m Ht IH] using map_ind; [by rewrite weigh_empty|].
  rewrite weigh_new by done. pose proof (Hw l). lia.
Qed.

Lemma weigh_elem m t l : m !! t = Some l → w l ≤ weigh m.
Proof. intros Ht. pose proof (weigh_nonneg (delete t m)) as Hd. rewrite (weigh_delete m t l Ht) in Hd. lia. Qed.
End Weigh.

Lemma weigh_le {L} (w w' : L → Z) m : (∀ l, w l ≤ w' l) → weigh w m ≤ weigh w' m.
Proof.
  intros Hw. induction m as [|t l m Ht IH] using map_ind; [by rewrite !weigh_empty|].
  rewrite !weigh_new by done. pose proof (Hw l). lia.
Qed.

(** No thread is left. *)
Lemma empty_pool {L} (m : gmap tcb L) : (∀ t l, m !! t = Some l → False) → m = ∅.
Proof. intros Hm. apply map_empty. intros t. apply eq_None_not_Some. intros [l Hl]. by eapply Hm. Qed.

(** One until kmain has started [main]. *)
Definition unstarted (b : bool) : Z := if b then 0 else 1.

(** ** Tests in which one thread at a time may print

    [printed l] is what has been printed when the thread that gives the verdict is
    at label [l], [None] for the labels of the other threads; [final] is what may
    have been printed when that thread is gone. *)

Section Speaker.
Context {L : Type} (printed : L → option (list string)) (final : list string → Prop).
Implicit Types (m : gmap tcb L) (o : list string) (b : bool).

Definition speaks (l : L) : Z := b2z (bool_decide (is_Some (printed l))).

Definition spoken m o b : Prop :=
  weigh speaks m + unstarted b = 1 ∧ (b = false → o = []) ∧
    map_Forall (λ _ l, ∀ o', printed l = Some o' → o = o') m ∨
  weigh speaks m + unstarted b = 0 ∧ final o.

Lemma speaks_some l o : printed l = Some o → speaks l = 1.
Proof. intros E. unfold speaks. by rewrite E. Qed.
Lemma speaks_none l : printed l = None → speaks l = 0.
Proof. intros E. unfold speaks. by rewrite E. Qed.
Lemma speaks_nonneg l : 0 ≤ speaks l.
Proof. unfold speaks. case_bool_decide; simpl; lia. Qed.

Lemma weigh_pos (w : L → Z) m : 0 < weigh w m → ∃ t l, m !! t = Some l ∧ w l ≠ 0.
Proof.
  induction m as [|t l m Ht IH] using map_ind; [by rewrite weigh_empty|].
  rewrite weigh_new by done. intros Hp. destruct (decide (w l = 0)) as [E|Hne].
  - destruct IH as (t' & l' & Hl & Hw); [lia|]. exists t', l'. split; [|done].
    rewrite lookup_insert_ne; [done|congruence].
  - exists t, l. by rewrite lookup_insert_eq.
Qed.

(** Two threads do not speak. *)
Lemma speaks_alone m t l o t' l' :
  weigh speaks m ≤ 1 → m !! t = Some l → printed l = Some o →
  m !! t' = Some l' → t' ≠ t → printed l' = None.
Proof.
  intros Hm Hl Ho Hl' Hne. destruct (printed l') as [o'|] eqn:Ho'; [exfalso|done].
  pose proof (weigh_delete speaks m t l Hl) as Hd. rewrite (speaks_some l o Ho) in Hd.
  pose proof (weigh_elem speaks speaks_nonneg (delete t m) t' l') as Hx.
  rewrite (speaks_some l' o' Ho'), lookup_delete_ne in Hx by done. specialize (Hx Hl'). lia.
Qed.

(** What has been printed. *)
Lemma spoken_cases m o b :
  spoken m o b → o = [] ∨ (∃ t l, m !! t = Some l ∧ printed l = Some o) ∨ final o.
Proof.
  intros [(Hm & Ho & Hf)|[_ Hf]]; [|by right; right].
  destruct b; [|left; by apply Ho]. right. left. simpl in Hm.
  destruct (weigh_pos speaks m) as (t & l & Hl & Hs); [lia|]. exists t, l. split; [done|].
  destruct (printed l) as [o'|] eqn:E; [|by rewrite speaks_none in Hs].
  f_equal. symmetry. by apply (map_Forall_lookup_1 _ _ _ _ Hf Hl).
Qed.

Lemma spoken_init : spoken ∅ [] false.
Proof. left. by rewrite weigh_empty. Qed.

Lemma spoken_main m o t l :
  m !! t = None → printed l = Some [] → spoken m o false → spoken (<[t := l]> m) o true.
Proof.
  intros Ht Hl Hs. left. rewrite weigh_new, (speaks_some l []) by done. simpl.
  pose proof (weigh_nonneg speaks speaks_nonneg m). destruct Hs as [(Hm & Ho & Hf)|[Hm _]]; simpl in Hm; [|lia].
  split; [lia|]. split; [done|]. apply map_Forall_insert_2; [|done].
  intros o' Ho'. rewrite Ho by done. congruence.
Qed.

(** A thread's label changes, and perhaps the output. *)
Lemma spoken_set m o b t l l' o' :
  m !! t = Some l → spoken m o b →
  (printed l = None → printed l' = None ∧ o' = o) →
  (printed l = Some o → printed l' = Some o' ∨ printed l' = None ∧ final o') →
  spoken (<[t := l']> m) o' b.
Proof.
  intros Hl Hs Hn Hy. unfold spoken. rewrite (weigh_set speaks m t l l' Hl).
  destruct (printed l) as [o1|] eqn:El.
  - assert (weigh speaks m + unstarted b = 1 ∧ o = o1) as [Hm ->].
    { pose proof (weigh_elem speaks speaks_nonneg m t l Hl) as Hx. rewrite (speaks_some l o1 El) in Hx.
      destruct Hs as [(Hm & _ & Hf)|[Hm _]]; [|destruct b; simpl in Hm; lia].
      split; [done|]. by apply (map_Forall_lookup_1 _ _ _ _ Hf Hl). }
    rewrite (speaks_some l o1 El).
    assert (b = true) as ->.
    { destruct b; [done|]. pose proof (weigh_elem speaks speaks_nonneg m t l Hl) as Hx.
      rewrite (speaks_some l o1 El) in Hx. simpl in Hm. lia. }
    destruct (Hy eq_refl) as [El'|[El' Hf]]; [|rewrite (speaks_none l' El'); right; split; [lia|done]].
    rewrite (speaks_some l' o' El'). left. split; [lia|]. split; [done|].
    intros t1 l1 [[<- <-]|[Hne H1]]%lookup_insert_Some o2 E2; [congruence|].
    by rewrite (speaks_alone m t l o1 t1 l1) in E2 by (done || simpl in Hm; lia).
  - destruct (Hn eq_refl) as [El' ->]. rewrite (speaks_none l El), (speaks_none l' El').
    destruct Hs as [(Hm & Ho & Hf)|[Hm Hf]]; [left|right]; (split; [lia|]); [|done].
    split; [done|]. apply map_Forall_insert_2; [congruence|done].
Qed.

Lemma spoken_new m o b t l :
  m !! t = None → printed l = None → spoken m o b → spoken (<[t := l]> m) o b.
Proof.
  intros Ht El Hs. unfold spoken. rewrite weigh_new, (speaks_none l El) by done.
  destruct Hs as [(Hm & Ho & Hf)|[Hm Hf]]; [left|right]; (split; [lia|]); [|done].
  split; [done|]. apply map_Forall_insert_2; [congruence|done].
Qed.

Lemma spoken_stop m o b t l :
  m !! t = Some l → printed l = None → spoken m o b → spoken (delete t m) o b.
Proof.
  intros Ht El Hs. unfold spoken. rewrite (weigh_delete _ m t l), (speaks_none l El) by done.
  destruct Hs as [(Hm & Ho & Hf)|[Hm Hf]]; [left|right]; (split; [lia|]); [|done].
  split; [done|]. by apply map_Forall_delete.
Qed.
End Speaker.
