(* ===== verification/ThreadTests.v ===== *)
(** * The test programs about threads

    tests/hello.cpp, tests/multithreading.cpp and tests/yield.cpp, and the main() of
    a kernel without a test, as programs on the kernel: what they print, whatever
    the interleaving of the cores.  Each proof is an invariant of the threads of the
    specification. *)

From stdpp Require Import relations.
From S2P Require Import Program Prelude Sched ThreadSpec ThreadSim ThreadProgress TestUtil.

#[local] Open Scope Z_scope.

(** Schedules for the witnesses: [n] cores take turns for [k] steps, and the
    allocator always finds a new place. *)
Definition turns (n k : nat) : list (nat * tcb) :=
  (λ i, (Nat.modulo i n, 8 + i)%nat) <$> seq 0 k.

(** ** main() of src/main.cpp *)

Module DefaultMain.

(** It returns at once. *)
Definition main_code (l : unit) : instr unit unit := CallStop.

#[export] Instance kernel_alone : Program := {|
  Program.vars := unit; Program.label := unit; Program.code := main_code;
  Program.main := tt; Program.vars0 := tt;
  Program.count0 := λ _, 0; Program.count0_nonneg := λ _, Z.le_refl 0;
|}.

Definition threads_left (a : @spec kernel_alone) : Z :=
  weigh (λ _, 1) (pool a) + 2 * unstarted (sstarted a).

(** Without a test the kernel prints nothing, no core faults, and the cores end up
    looking for threads. *)
Theorem default_main_idles b ps :
  rtc (program_step b) program_booted ps →
  (∀ c x, (c < kMaxCores)%nat → is_Some (prog_core_step b c x ps)) ∧
  out ps = [] ∧ sn (busy_step b) ps.
Proof.
  intros Hr. set (I := λ a : @spec kernel_alone, sout a = []).
  assert (∀ t a a', thread_step t a a' → I a → I a') as HI by (by intros t a a' []).
  destruct (program_invariant I eq_refl ltac:(done) HI b ps Hr) as (a & Ho & _ & <- & Hf & _).
  split; [|split; [done|]].
  - intros c x Hc. apply not_eq_None_Some. by intros (t & l & _ & Hu)%Hf.
  - apply (program_ends I eq_refl ltac:(done) HI threads_left); [|..|done].
    + intros a' _. pose proof (weigh_nonneg (λ _ : unit, 1) ltac:(done) (pool a')).
      unfold threads_left. destruct (sstarted a'); simpl; lia.
    + intros m v x o t Ht _. unfold threads_left. simpl. rewrite weigh_new by done. lia.
    + intros t a1 a2 Hs _. unfold threads_left. destruct Hs; simpl in *; try done.
      rewrite (weigh_delete _ m t l) by done. lia.
Qed.
End DefaultMain.

(** ** tests/hello.cpp *)

Module Hello.

Inductive where_ := Greeting | Ending (d : verdict).

Definition hello : string := "Hello, test!" +:+ newline.

Definition hello_code (l : where_) : instr unit where_ :=
  match l with
  | Greeting => Print hello (Ending Pass)
  | Ending d => verdict_code Ending d
  end.

#[export] Instance test : Program := {|
  Program.vars := unit; Program.label := where_; Program.code := hello_code;
  Program.main := Greeting; Program.vars0 := tt;
  Program.count0 := λ _, 0; Program.count0_nonneg := λ _, Z.le_refl 0;
|}.

(** What has been printed when the thread is at a label; [Stop] and after it: all. *)
Definition printed (l : where_) : option (list string) :=
  match l with
  | Greeting => Some []
  | Ending Pass => Some [hello]
  | Ending Stop => Some [hello; test_pass]
  | _ => None
  end.

Inductive safe : @spec test → Prop :=
  | hello_start v x : safe (Spec ∅ v x [] false)
  | hello_runs t l v x o : printed l = Some o → safe (Spec {[t := l]} v x o true)
  | hello_done v x : safe (Spec ∅ v x [hello; test_pass] true).

Lemma hello_main m v x o t :
  m !! t = None → safe (Spec m v x o false) → safe (Spec (<[t := Greeting]> m) v x o true).
Proof. intros _ Hs. inversion Hs; subst. by apply hello_runs. Qed.

Lemma hello_thread t a a' : thread_step t a a' → safe a → safe a'.
Proof.
  intros Ht Hs. destruct Hs as [v x|t' l v x o Hp|v x]; try (by inversion Ht).
  assert (∀ l', ({[t' := l]} : gmap tcb where_) !! t = Some l' → t = t' ∧ l' = l) as Hl.
  { by intros l' [-> ->]%lookup_singleton_Some. }
  inversion Ht as [? ? ? ? ? l1 f E Ec|? ? ? ? ? l1 str l' E Ec|? ? ? ? ? l1 l' E Ec|? ? ? ? ? l1 s l' E Ec
    |? ? ? ? ? l1 s l' E Ec|? ? ? ? ? l1 func l' t1 E Ec|? ? ? ? ? l1 E Ec]; subst;
    apply Hl in E as [-> ->]; destruct l as [|[]]; simplify_eq/=.
  - rewrite insert_singleton_eq. by apply hello_runs.
  - rewrite insert_singleton_eq. by apply hello_runs.
  - rewrite delete_singleton_eq. apply hello_done.
Qed.

(** The hello test passes.  It prints its greeting and then [TEST PASS], and
    nothing else, and no core faults; when the cores have nothing left to do it has
    printed both. *)
Theorem hello_passes b ps :
  rtc (program_step b) program_booted ps →
  (∀ c x, (c < kMaxCores)%nat → is_Some (prog_core_step b c x ps)) ∧
  out ps `prefix_of` [hello; test_pass] ∧
  (quiescent ps → out ps = [hello; test_pass]).
Proof.
  intros Hr.
  destruct (program_invariant safe (hello_start _ _) hello_main hello_thread b ps Hr)
    as (a & HS & _ & <- & Hf & Hq).
  split; [|split].
  - intros c x Hc. apply not_eq_None_Some. intros (t & l & _ & Hu)%Hf; [|done].
    by destruct l as [|[]].
  - destruct HS as [v x|t l v x o Hp|v x]; simpl; [apply prefix_nil| |done].
    destruct l as [|[]]; simplify_eq/=; [apply prefix_nil|by eexists|done].
  - intros [Hst Hstuck]%Hq. destruct HS as [v x|t l v x o Hp|v x]; [done| |done]. exfalso.
    destruct (Hstuck t l (lookup_singleton_eq _ _)) as (l1 & s & l2 & _ & Hu & _).
    by destruct l1 as [|[]].
Qed.

Lemma hello_passes_witness :
  ∃ ps, rtc (program_step 1) program_booted ps ∧ quiescent ps ∧ out ps = [hello; test_pass].
Proof.
  destruct (schedule_ends 1 (turns 2 60)) as (ps & Hr & Hq); [vm_compute; reflexivity..|].
  exists ps. split; [exact Hr|]. split; [exact Hq|].
  exact (proj2 (proj2 (hello_passes 1 ps Hr)) Hq).
Defined.
End Hello.

(** ** tests/multithreading.cpp *)

Module Multithreading.

Definition kNumWorkers : Z := 8.

Inductive where_ := MainLoop (i : Z) | Worker | Ending (d : verdict).

(** [g_run_count] is the shared variable. *)
Definition worker_step (g_run_count : Z) : Z * where_ :=
  let count := i32 (g_run_count + 1) in
  (count, Ending (if count =? kNumWorkers then Pass else Stop)).

Definition multithreading_code (l : where_) : instr Z where_ :=
  match l with
  | MainLoop i => if i <? kNumWorkers then CallGo Worker (MainLoop (i + 1)) else CallStop
  | Worker => Access worker_step
  | Ending d => verdict_code Ending d
  end.

#[export] Instance test : Program := {|
  Program.vars := Z; Program.label := where_; Program.code := multithreading_code;
  Program.main := MainLoop 0; Program.vars0 := 0;
  Program.count0 := λ _, 0; Program.count0_nonneg := λ _, Z.le_refl 0;
|}.

(** How often a thread will still increment, and whether it will print. *)
Definition todo (l : where_) : Z :=
  match l with MainLoop i => Z.max 0 (kNumWorkers - i) | Worker => 1 | Ending _ => 0 end.
Definition wins (l : where_) : Z := match l with Ending Pass => 1 | _ => 0 end.

Definition label_ok (l : where_) : Prop :=
  match l with
  | MainLoop i => 0 ≤ i ≤ kNumWorkers
  | Worker => True
  | Ending d => d = Pass ∨ d = Stop
  end.

Record safe (a : @spec test) : Prop := {
  safe_labels : map_Forall (λ _, label_ok) (pool a);
  safe_count : 0 ≤ svars a;
  safe_todo : weigh todo (pool a) + kNumWorkers * unstarted (sstarted a) = kNumWorkers - svars a;
  safe_wins : weigh wins (pool a) + Z.of_nat (length (sout a)) = b2z (svars a =? kNumWorkers);
  safe_out : Forall (eq test_pass) (sout a);
}.

Ltac nlia := simpl in *; unfold kNumWorkers in *; lia.

Lemma multithreading_todo_nonneg l : 0 ≤ todo l.
Proof. destruct l; nlia. Qed.

Lemma multithreading_wins_nonneg l : 0 ≤ wins l.
Proof. destruct l as [| |[]]; nlia. Qed.

Lemma multithreading_init : safe spec_init.
Proof. by split. Qed.

Lemma multithreading_main m v x o t :
  m !! t = None → safe (Spec m v x o false) → safe (Spec (<[t := MainLoop 0]> m) v x o true).
Proof.
  intros Ht [Hl Hc Ht' Hw Ho]. simpl in *. split; simpl; try done.
  - by apply map_Forall_insert_2.
  - rewrite weigh_new by done. nlia.
  - rewrite weigh_new by done. nlia.
Qed.

Lemma multithreading_thread t a a' : thread_step t a a' → safe a → safe a'.
Proof.
  intros Hs [Hl Hc Ht Hw Ho].
  destruct Hs as [m v x o b l f E Ec|m v x o b l str l' E Ec|m v x o b l l' E Ec|m v x o b l s l' E Ec
    |m v x o b l s l' E Ec|m v x o b l func l' t' E Ec Hn|m v x o b l E Ec]; simpl in *;
    pose proof (map_Forall_lookup_1 _ _ _ _ Hl E) as Hok;
    destruct l as [i| |d]; simpl in Hok, Ec; try (by destruct Hok as [-> | ->]);
    try (by destruct (i <? kNumWorkers)); try done.
  - injection Ec as <-. pose proof (weigh_elem todo multithreading_todo_nonneg m t _ E) as Hx. simpl in Hx.
    pose proof (weigh_nonneg wins multithreading_wins_nonneg m) as Hw0.
    unfold worker_step. simpl. rewrite i32_small by (destruct b; nlia).
    split; simpl; [|nlia|rewrite (weigh_set _ m t Worker) by done; nlia| |done].
    + apply map_Forall_insert_2; [|done]. destruct (x + 1 =? kNumWorkers); [by left|by right].
    + rewrite (weigh_set _ m t Worker) by done.
      destruct (Z.eqb_spec x kNumWorkers); [destruct b; nlia|]. 
      destruct (x + 1 =? kNumWorkers); nlia.
  - destruct Hok as [-> | ->]; simplify_eq/=. split; simpl; [|done|..].
    + apply map_Forall_insert_2; [by right|done].
    + rewrite (weigh_set _ m t (Ending Pass)) by done. nlia.
    + rewrite (weigh_set _ m t (Ending Pass)), length_app by done. nlia.
    + apply Forall_app. split; [done|]. by apply Forall_singleton.
  - destruct (Z.ltb_spec i kNumWorkers); [|done]. injection Ec as <- <-. split; simpl; [|done|..|done].
    + do 2 (apply map_Forall_insert_2; [nlia || done|]). done.
    + rewrite (weigh_go _ m t (MainLoop i)) by done. nlia.
    + rewrite (weigh_go _ m t (MainLoop i)) by done. nlia.
  - destruct (Z.ltb_spec i kNumWorkers); [done|]. split; simpl; [|done|..|done].
    + by apply map_Forall_delete.
    + rewrite (weigh_delete _ m t (MainLoop i)) by done. nlia.
    + rewrite (weigh_delete _ m t (MainLoop i)) by done. nlia.
  - destruct Hok as [-> | ->]; [done|]. split; simpl; [|done|..|done].
    + by apply map_Forall_delete.
    + rewrite (weigh_delete _ m t (Ending Stop)) by done. nlia.
    + rewrite (weigh_delete _ m t (Ending Stop)) by done. nlia.
Qed.

(** The steps that a thread, and those it starts, may still take. *)
Definition steps_left (l : where_) : Z :=
  match l with
  | MainLoop i => 4 * Z.max 0 (kNumWorkers - i) + 1
  | Worker => 3
  | Ending d => verdict_steps d
  end.

Definition steps_left_all (a : @spec test) : Z :=
  weigh steps_left (pool a) + 34 * unstarted (sstarted a).

Lemma steps_left_nonneg l : 0 ≤ steps_left l.
Proof. destruct l as [| |[]]; nlia. Qed.

Lemma multithreading_less t a a' :
  thread_step t a a' → safe a → steps_left_all a' < steps_left_all a.
Proof.
  intros Hs [Hl _ _ _ _]. unfold steps_left_all.
  destruct Hs as [m v x o b l f E Ec|m v x o b l str l' E Ec|m v x o b l l' E Ec|m v x o b l s l' E Ec
    |m v x o b l s l' E Ec|m v x o b l func l' t' E Ec Hn|m v x o b l E Ec]; simpl in *;
    pose proof (map_Forall_lookup_1 _ _ _ _ Hl E) as Hok;
    rewrite ?(weigh_go _ m t l), ?(weigh_set _ m t l), ?(weigh_delete _ m t l) by done;
    destruct l as [i| |[]]; simpl in Ec; try (destruct (Z.ltb_spec i kNumWorkers)); simplify_eq/=; try nlia.
  case_match; nlia.
Qed.

Lemma multithreading_left_nonneg a : safe a → 0 ≤ steps_left_all a.
Proof.
  intros _. pose proof (weigh_nonneg _ steps_left_nonneg (pool a)).
  unfold steps_left_all. destruct (sstarted a); nlia.
Qed.

Lemma multithreading_left_main m v x o t :
  m !! t = None → safe (Spec m v x o false) →
  steps_left_all (Spec (<[t := MainLoop 0]> m) v x o true) < steps_left_all (Spec m v x o false).
Proof. intros Ht _. unfold steps_left_all. simpl. rewrite weigh_new by done. nlia. Qed.

Lemma multithreading_spec_ends : sn spec_step (@spec_init test).
Proof.
  apply (spec_ends safe multithreading_main multithreading_thread steps_left_all multithreading_left_nonneg
    multithreading_left_main multithreading_less), multithreading_init.
Qed.

(** C11: the multithreading test passes.  However the nine threads are spread over
    the cores and interleave: no core faults, nothing but one [TEST PASS] is ever
    printed; the test cannot go on for ever, but for cores that look for a thread to
    run; and when no core can do anything else, [TEST PASS] has been printed. *)
Theorem multithreading_passes b ps :
  (b < kMaxCores)%nat → rtc (program_step b) program_booted ps →
  (∀ c x, (c < kMaxCores)%nat → is_Some (prog_core_step b c x ps)) ∧
  (out ps = [] ∨ out ps = [test_pass]) ∧
  sn (busy_step b) ps ∧
  ((∀ ps', ¬ busy_step b ps ps') ∨ quiescent ps → out ps = [test_pass]).
Proof.
  intros Hb Hr.
  destruct (program_invariant safe multithreading_init multithreading_main multithreading_thread b ps Hr)
    as (a & HS & _ & Eo & Hf & Hq).
  assert (∀ c x, (c < kMaxCores)%nat → is_Some (prog_core_step b c x ps)) as Hsome.
  { intros c x Hc. apply not_eq_None_Some. intros (t & l & _ & Hu)%Hf; [|done].
    destruct l as [i| |[]]; simpl in Hu; repeat case_match; done. }
  pose proof (safe_out a HS) as Ho. pose proof (safe_wins a HS) as Hw.
  split_and!; [done| | |].
  - pose proof (weigh_nonneg wins multithreading_wins_nonneg (pool a)). rewrite <- Eo.
    destruct (sout a) as [|x [|y l]]; [by left| |].
    + right. apply Forall_cons in Ho as [<- _]. done.
    + exfalso. destruct (svars a =? kNumWorkers); nlia.
  - by apply (program_ends safe multithreading_init multithreading_main multithreading_thread steps_left_all);
      [apply multithreading_left_nonneg|apply multithreading_left_main|apply multithreading_less|].
  - intros Hend. assert (quiescent ps) as [Hst Hstuck]%Hq.
    { destruct Hend as [Hend|?]; [by apply (busy_end b)|done]. }
    assert (pool a = ∅) as Hp.
    { apply empty_pool. intros t l (l1 & s & l2 & _ & Hu & _)%Hstuck.
      destruct l1 as [i| |[]]; simpl in Hu; repeat case_match; done. }
    pose proof (safe_todo a HS) as Ht.
    rewrite Hp, Hst, weigh_empty in Ht. rewrite Hp, weigh_empty in Hw.
    assert (svars a = kNumWorkers) as Hv by nlia. rewrite Hv in Hw. rewrite <- Eo.
    destruct (sout a) as [|x [|y l]]; [done| |nlia]. apply Forall_cons in Ho as [<- _]. done.
Qed.

(** Three cores run it to the end. *)
Lemma multithreading_passes_witness :
  ∃ ps, rtc (program_step 0) program_booted ps ∧ quiescent ps ∧ out ps = [test_pass].
Proof.
  destruct (schedule_ends 0 (turns 3 400)) as (ps & Hr & Hq); [vm_compute; reflexivity..|].
  exists ps. split; [exact Hr|]. split; [exact Hq|].
  refine (proj2 (proj2 (proj2 (multithreading_passes 0 ps _ Hr))) (or_intror Hq)).
  unfold kMaxCores. lia.
Defined.

Lemma kernel_refines_threads_witness :
  ∃ ps a, rtc (program_step 0) program_booted ps ∧ quiescent ps ∧
    rtc spec_step spec_init a ∧ sout a = out ps ∧ ∀ t l, pool a !! t = Some l → stuck a t.
Proof.
  destruct (schedule_ends 0 (turns 3 400)) as (ps & Hr & Hq); [vm_compute; reflexivity..|].
  destruct (kernel_refines_threads 0 ps Hr) as (a & Ha & _ & Ho & _ & Hend).
  exists ps, a. split; [exact Hr|]. split; [exact Hq|]. split; [exact Ha|]. split; [exact Ho|].
  exact (proj2 (Hend Hq)).
Defined.

Lemma kernel_preserves_termination_witness :
  ∃ ps, rtc (program_step 0) program_booted ps ∧ quiescent ps ∧ sn (busy_step 0) ps.
Proof.
  destruct (schedule_ends 0 (turns 3 400)) as (ps & Hr & Hq); [vm_compute; reflexivity..|].
  exists ps. split; [exact Hr|]. split; [exact Hq|].
  refine (proj1 (kernel_preserves_termination 0 ps _ multithreading_spec_ends Hr)).
  unfold kMaxCores. lia.
Defined.
End Multithreading.

(** ** tests/yield.cpp *)

Module YieldTest.

Definition kRounds : Z := 5.

Record globals := Globals { g_steps : Z; g_b_has_run : bool }.

Inductive where_ :=
  | Main | MainB
  | B (i : Z) | BFlag (i : Z) | BYield (i : Z)
  | A (i : Z) | AYield (i : Z) | AWait | ACheck
  | Ending (d : verdict).

Definition add_step (v : globals) : globals := Globals (i32 (g_steps v + 1)) (g_b_has_run v).

(** [while (g_steps < 2 * kRounds) yield();] *)
Definition load_steps (v : globals) : globals * where_ :=
  (v, if g_steps v <? 2 * kRounds then AWait else ACheck).

Definition check_b (v : globals) : globals * where_ :=
  (v, Ending (if g_b_has_run v then Pass else Failed "thread_b never ran")).

Definition yield_code (l : where_) : instr globals where_ :=
  match l with
  | Main => CallGo (A 0) MainB
  | MainB => CallGo (B 0) (Ending Stop)
  | B i => if i <? kRounds then Access (λ v, (add_step v, BFlag i)) else CallStop
  | BFlag i => Access (λ v, (Globals (g_steps v) true, BYield i))
  | BYield i => CallYield (B (i + 1))
  | A i => if i <? kRounds then Access (λ v, (add_step v, AYield i)) else Access load_steps
  | AYield i => CallYield (A (i + 1))
  | AWait => CallYield (A kRounds)
  | ACheck => Access check_b
  | Ending d => verdict_code Ending d
  end.

#[export] Instance test : Program := {|
  Program.vars := globals; Program.label := where_; Program.code := yield_code;
  Program.main := Main; Program.vars0 := Globals 0 false;
  Program.count0 := λ _, 0; Program.count0_nonneg := λ _, Z.le_refl 0;
|}.

(** The increments still to come, those of [thread_b], and whether a thread will
    give the verdict. *)
Definition todo (l : where_) : Z :=
  match l with
  | Main => 2 * kRounds
  | MainB => kRounds
  | A i | B i => Z.max 0 (kRounds - i)
  | AYield i | BFlag i | BYield i => Z.max 0 (kRounds - 1 - i)
  | _ => 0
  end.
Definition todo_b (l : where_) : Z :=
  match l with
  | Main | MainB => kRounds
  | B i => Z.max 0 (kRounds - i)
  | BFlag i | BYield i => Z.max 0 (kRounds - 1 - i)
  | _ => 0
  end.
Definition judges (l : where_) : Z :=
  match l with Main | A _ | AYield _ | AWait | ACheck | Ending Pass => 1 | _ => 0 end.

Definition label_ok (b_has_run : bool) (l : where_) : Prop :=
  match l with
  | A i => 0 ≤ i ≤ kRounds
  | AYield i => 0 ≤ i < kRounds
  | B i => 0 ≤ i ≤ kRounds ∧ (b_has_run = true ∨ i = 0)
  | BFlag i => 0 ≤ i < kRounds ∧ (b_has_run = true ∨ i = 0)
  | BYield i => 0 ≤ i < kRounds ∧ b_has_run = true
  | ACheck => b_has_run = true
  | Ending d => d = Pass ∨ d = Stop
  | _ => True
  end.

Record safe (a : @spec test) : Prop := {
  safe_labels : map_Forall (λ _, label_ok (g_b_has_run (svars a))) (pool a);
  safe_count : 0 ≤ g_steps (svars a);
  safe_todo : weigh todo (pool a) + 2 * kRounds * unstarted (sstarted a) =
    2 * kRounds - g_steps (svars a);
  safe_b : g_b_has_run (svars a) = false →
    kRounds - 1 ≤ weigh todo_b (pool a) + kRounds * unstarted (sstarted a);
  safe_judge : weigh judges (pool a) + unstarted (sstarted a) + Z.of_nat (length (sout a)) = 1;
  safe_out : Forall (eq test_pass) (sout a);
}.

Ltac rlia := simpl in *; unfold kRounds in *; lia.

Lemma yield_todo_nonneg l : 0 ≤ todo l.
Proof. destruct l; rlia. Qed.
Lemma yield_todo_b_nonneg l : 0 ≤ todo_b l.
Proof. destruct l; rlia. Qed.
Lemma yield_judges_nonneg l : 0 ≤ judges l.
Proof. destruct l as [| | | | | | | | |[]]; rlia. Qed.
Lemma yield_todo_b_le l : todo_b l ≤ todo l.
Proof. destruct l; rlia. Qed.

(** Once set, [g_b_has_run] stays set. *)
Lemma label_ok_set f l : label_ok f l → label_ok true l.
Proof. destruct l; simpl; naive_solver. Qed.

Lemma add_step_small v :
  0 ≤ g_steps v < 2 * kRounds → add_step v = Globals (g_steps v + 1) (g_b_has_run v).
Proof. intros Hv. unfold add_step. rewrite i32_small; [done|rlia]. Qed.

Lemma yield_init : safe spec_init.
Proof. by split. Qed.

Lemma yield_main m v x o t :
  m !! t = None → safe (Spec m v x o false) → safe (Spec (<[t := Main]> m) v x o true).
Proof.
  intros Ht [Hl Hc Ht' Hb Hj Ho]. simpl in *. split; simpl; try done;
    rewrite ?weigh_new by done; try rlia; [by apply map_Forall_insert_2|].
  intros Hx. specialize (Hb Hx). rlia.
Qed.

(** The steps that change one thread's label. *)
Lemma yield_set m v x o b t l l' x' o' :
  safe (Spec m v x o b) → m !! t = Some l →
  label_ok (g_b_has_run x') l' → g_b_has_run x' = g_b_has_run x ∨ g_b_has_run x' = true →
  g_steps x' = g_steps x + todo l - todo l' → 0 ≤ g_steps x' →
  (g_b_has_run x' = false → todo_b l' = todo_b l ∨ kRounds - 1 ≤ todo_b l') →
  (judges l = judges l' ∧ o' = o ∨ judges l = 1 ∧ judges l' = 0 ∧ o' = o ++ [test_pass]) →
  safe (Spec (<[t := l']> m) v x' o' b).
Proof.
  intros [Hl Hc Ht Hb Hj Ho] E Hok Hx Hs H0 Htb Hout. simpl in *. split; simpl.
  - apply map_Forall_insert_2; [done|]. destruct Hx as [-> | ->]; [done|].
    eapply map_Forall_impl; [exact Hl|]. intros ? y. apply label_ok_set.
  - done.
  - rewrite (weigh_set _ m t l) by done. rlia.
  - intros Hf. rewrite (weigh_set _ m t l) by done.
    assert (g_b_has_run x = false) as Hf0 by (destruct Hx; congruence).
    pose proof (weigh_elem todo_b yield_todo_b_nonneg m t l E).
    specialize (Hb Hf0). destruct (Htb Hf) as [-> |]; [rlia|]. destruct b; rlia.
  - rewrite (weigh_set _ m t l) by done.
    destruct Hout as [[Hjj ->]|(-> & -> & ->)]; [rlia|]. rewrite length_app. rlia.
  - destruct Hout as [[_ ->]|(_ & _ & ->)]; [done|]. apply Forall_app. by rewrite Forall_singleton.
Qed.

Ltac finish :=
  simpl; try done; try rlia; try (by left); try (by right);
  try (split; [rlia|naive_solver]).

(** Steps that add or remove a thread: the sums, after [tac]. *)
Ltac sums tac Hb :=
  split; simpl; [|done|tac; rlia|intros Hf; specialize (Hb Hf); tac; rlia|tac; rlia|done].

Lemma yield_thread t a a' : thread_step t a a' → safe a → safe a'.
Proof.
  intros Hs HS. pose proof HS as [Hl Hc Ht Hb Hj Ho].
  destruct Hs as [m v x o b l f E Ec|m v x o b l str l' E Ec|m v x o b l l' E Ec|m v x o b l s l' E Ec
    |m v x o b l s l' E Ec|m v x o b l func l' t' E Ec Hn|m v x o b l E Ec]; simpl in *;
    pose proof (map_Forall_lookup_1 _ _ _ _ Hl E) as Hok;
    pose proof (weigh_elem todo yield_todo_nonneg m t l E) as Hx;
    destruct l as [| |i|i|i|i|i| | |d]; simpl in Hok, Ec, Hx; try (by destruct Hok as [-> | ->]);
    try (by destruct (i <? kRounds)); try done.
  - destruct (Z.ltb_spec i kRounds); simplify_eq/=. rewrite add_step_small by (destruct b; rlia).
    eapply (yield_set m v x o b t (B i)); finish.
    intros Hf. right. destruct Hok as [_ [?| ->]]; [congruence|rlia].
  - simplify_eq/=. eapply (yield_set m v x o b t (BFlag i)); finish.
  - destruct (Z.ltb_spec i kRounds); simplify_eq/=.
    + rewrite add_step_small by (destruct b; rlia).
      eapply (yield_set m v x o b t (A i)); finish.
    + destruct (Z.ltb_spec (g_steps x) (2 * kRounds)).
      * eapply (yield_set m v x o b t (A i)); finish.
      * assert (g_b_has_run x = true) as Hf.
        { destruct (g_b_has_run x) eqn:Hf; [done|]. specialize (Hb eq_refl).
          pose proof (weigh_le todo_b todo m yield_todo_b_le). destruct b; rlia. }
        eapply (yield_set m v x o b t (A i)); finish.
  - simplify_eq/=. rewrite Hok. eapply (yield_set m v x o b t ACheck); finish.
  - destruct Hok as [-> | ->]; simplify_eq/=.
    eapply (yield_set m v x o b t (Ending Pass)); finish.
  - simplify_eq/=. eapply (yield_set m v x o b t (BYield i)); finish.
  - simplify_eq/=. eapply (yield_set m v x o b t (AYield i)); finish.
  - simplify_eq/=. eapply (yield_set m v x o b t AWait); finish.
  - simplify_eq/=. sums ltac:(rewrite (weigh_go _ m t Main) by done) Hb.
    do 2 (apply map_Forall_insert_2; [simpl; try done; rlia|]). done.
  - simplify_eq/=. sums ltac:(rewrite (weigh_go _ m t MainB) by done) Hb.
    apply map_Forall_insert_2; [simpl; split; [rlia|by right]|].
    apply map_Forall_insert_2; [by right|done].
  - destruct (Z.ltb_spec i kRounds); [done|].
    sums ltac:(rewrite (weigh_delete _ m t (B i)) by done) Hb. by apply map_Forall_delete.
  - destruct Hok as [-> | ->]; [done|].
    sums ltac:(rewrite (weigh_delete _ m t (Ending Stop)) by done) Hb. by apply map_Forall_delete.
Qed.

(** C15: the yield test passes.  However [thread_a], [thread_b] and [main] are spread
    over the cores and interleave: no core faults, nothing but one [TEST PASS] is
    ever printed, and when the cores have nothing left to do it has been printed. *)
Theorem yield_passes b ps :
  rtc (program_step b) program_booted ps →
  (∀ c x, (c < kMaxCores)%nat → is_Some (prog_core_step b c x ps)) ∧
  (out ps = [] ∨ out ps = [test_pass]) ∧
  (quiescent ps → out ps = [test_pass] ∧ g_steps (shared ps) = 2 * kRounds).
Proof.
  intros Hr.
  destruct (program_invariant safe yield_init yield_main yield_thread b ps Hr)
    as (a & HS & <- & <- & Hf & Hq).
  pose proof (safe_out a HS) as Ho. pose proof (safe_judge a HS) as Hj.
  split; [|split].
  - intros c x Hc. apply not_eq_None_Some. intros (t & l & _ & Hu)%Hf; [|done].
    destruct l as [| | | | | | | | |[]]; simpl in Hu; repeat case_match; done.
  - pose proof (weigh_nonneg judges yield_judges_nonneg (pool a)).
    destruct (sout a) as [|x [|y l]]; [by left| |].
    + right. apply Forall_cons in Ho as [<- _]. done.
    + exfalso. destruct (sstarted a); rlia.
  - intros [Hst Hstuck]%Hq.
    assert (pool a = ∅) as Hp.
    { apply empty_pool. intros t l (l1 & s & l2 & _ & Hu & _)%Hstuck.
      destruct l1 as [| | | | | | | | |[]]; simpl in Hu; repeat case_match; done. }
    pose proof (safe_todo a HS) as Ht. rewrite Hp, Hst, weigh_empty in Ht, Hj. split; [|rlia].
    destruct (sout a) as [|x [|y l]]; [done| |rlia]. apply Forall_cons in Ho as [<- _]. done.
Qed.

(** Two cores run it to the end. *)
Lemma yield_passes_witness :
  ∃ ps, rtc (program_step 0) program_booted ps ∧ quiescent ps ∧
    out ps = [test_pass] ∧ g_steps (shared ps) = 10.
Proof.
  destruct (schedule_ends 0 (turns 2 400)) as (ps & Hr & Hq); [vm_compute; reflexivity..|].
  exists ps. split; [exact Hr|]. split; [exact Hq|].
  exact (proj2 (proj2 (yield_passes 0 ps Hr)) Hq).
Defined.
End YieldTest.
