(* ===== verification/SemaphoreTest.v ===== *)
(** * tests/semaphore.cpp

    [blocked_thread] goes down on a semaphore that is zero; [main] gives it every
    chance to go on too early, goes up, and gives it a chance to go on.  The test
    never finds that [down()] returned too early.  That [down()] returns within
    [kSpinRounds] yields of [main] is not certain: it depends on how fast the cores
    are, as the test knows. *)

From stdpp Require Import functions relations.
From S2P Require Import Program Prelude Sched ThreadSpec ThreadSim ThreadProgress TestUtil.

#[local] Open Scope Z_scope.

Definition kSpinRounds : Z := 2000.

Record globals := Globals { g_sem : option sem_id; g_unblocked : bool }.

Inductive where_ :=
  | MainNew | MainGo | MainSpin (i : Z) | MainLoad | MainUp (sem : option sem_id)
  | MainWait (i : Z) | MainYield (i : Z) | MainCheck
  | Blocked | BlockedDown (sem : option sem_id) | BlockedSet
  | Ending (d : verdict).

Definition too_early : string := "down() returned before up() was ever called".
Definition too_late : string := "down() never returned after up() was called".

(** The semaphore that [new Semaphore(0)] makes. *)
Definition the_sem : sem_id := 0%nat.

Definition check_early (v : globals) : globals * where_ :=
  (v, if g_unblocked v then Ending (Failed too_early) else MainLoad).

Definition check_late (v : globals) : globals * where_ :=
  (v, if g_unblocked v then Ending Pass else Ending (Failed too_late)).

(** [g_sem->up()] and [g_sem->down()]: through the pointer that was loaded. *)
Definition semaphore_code (l : where_) : instr globals where_ :=
  match l with
  | MainNew => Access (λ v, (Globals (Some the_sem) (g_unblocked v), MainGo))
  | MainGo => CallGo Blocked (MainSpin 0)
  | MainSpin i => if i <? kSpinRounds then CallYield (MainSpin (i + 1)) else Access check_early
  | MainLoad => Access (λ v, (v, MainUp (g_sem v)))
  | MainUp (Some s) => CallUp s (MainWait 0)
  | MainWait i =>
      if i <? kSpinRounds
      then Access (λ v, (v, if g_unblocked v then MainCheck else MainYield i))
      else Access check_late
  | MainYield i => CallYield (MainWait (i + 1))
  | MainCheck => Access check_late
  | Blocked => Access (λ v, (v, BlockedDown (g_sem v)))
  | BlockedDown (Some s) => CallDown s BlockedSet
  | BlockedSet => Access (λ v, (Globals (g_sem v) true, Ending Stop))
  | MainUp None | BlockedDown None => Undefined
  | Ending d => verdict_code Ending d
  end.

#[export] Instance test : Program := {|
  Program.vars := globals; Program.label := where_; Program.code := semaphore_code;
  Program.main := MainNew; Program.vars0 := Globals None false;
  Program.count0 := λ _, 0; Program.count0_nonneg := λ _, Z.le_refl 0;
|}.

(** ** The invariant *)

(** [main] has not called [up()] yet; [blocked_thread] has been let through. *)
Definition before_up (l : where_) : Z :=
  match l with MainNew | MainGo | MainSpin _ | MainLoad | MainUp _ => 1 | _ => 0 end.
Definition let_through (l : where_) : Z := match l with BlockedSet => 1 | _ => 0 end.

Definition fail_line : list string := ["TEST FAIL: "; too_late; newline].

Definition printed (l : where_) : option (list string) :=
  match l with
  | Blocked | BlockedDown _ | BlockedSet | Ending Stop => None
  | Ending (FailReason _) => Some (take 1 fail_line)
  | Ending FailNewline => Some (take 2 fail_line)
  | _ => Some []
  end.
Definition final (o : list string) : Prop := o = [test_pass] ∨ o = fail_line.

Definition label_ok (sem : option sem_id) (l : where_) : Prop :=
  match l with
  | MainGo | MainSpin _ | MainLoad | Blocked => sem = Some the_sem
  | MainUp s | BlockedDown s => s = Some the_sem
  | Ending (Failed r) | Ending (FailReason r) => r = too_late
  | _ => True
  end.

Record safe (a : @spec test) : Prop := {
  safe_labels : map_Forall (λ _, label_ok (g_sem (svars a))) (pool a);
  safe_value : 0 ≤ value a the_sem;
  safe_count : value a the_sem + weigh let_through (pool a) + b2z (g_unblocked (svars a)) =
    1 - weigh before_up (pool a) - unstarted (sstarted a);
  safe_spoken : spoken printed final (pool a) (sout a) (sstarted a);
}.

Lemma before_up_nonneg l : 0 ≤ before_up l.
Proof. destruct l; simpl; lia. Qed.
Lemma let_through_nonneg l : 0 ≤ let_through l.
Proof. destruct l; simpl; lia. Qed.

Lemma semaphore_init : safe spec_init.
Proof. split; try done. apply spoken_init. Qed.

Lemma semaphore_main m v x o t :
  m !! t = None → safe (Spec m v x o false) → safe (Spec (<[t := MainNew]> m) v x o true).
Proof.
  intros Ht [Hl Hv Hc Hs]. simpl in *. split; simpl; try done.
  - by apply map_Forall_insert_2.
  - rewrite !weigh_new by done. simpl. lia.
  - by apply spoken_main.
Qed.

(** The steps that change one thread's label. *)
Lemma semaphore_set m v x o b t l l' v' x' o' :
  safe (Spec m v x o b) → m !! t = Some l →
  label_ok (g_sem x') l' → g_sem x' = g_sem x ∨ g_sem x' = Some the_sem →
  0 ≤ v' the_sem →
  v' the_sem + let_through l' + b2z (g_unblocked x') + before_up l' =
    v the_sem + let_through l + b2z (g_unblocked x) + before_up l →
  (printed l = None → printed l' = None ∧ o' = o) →
  (printed l = Some o → printed l' = Some o' ∨ printed l' = None ∧ final o') →
  safe (Spec (<[t := l']> m) v' x' o' b).
Proof.
  intros [Hl Hv Hc Hs] E Hok Hx Hv' Hcount Hn Hy. simpl in *. split; simpl; try done.
  - apply map_Forall_insert_2; [done|]. destruct Hx as [-> | ->]; [done|].
    eapply map_Forall_impl; [exact Hl|]. intros t1 l1. by destruct l1 as [| | | | | | | | | | |[]].
  - rewrite !(weigh_set _ m t l) by done. lia.
  - by eapply spoken_set.
Qed.

(** A new thread that does not print, and a thread that goes. *)
Lemma semaphore_new m v x o b t :
  safe (Spec m v x o b) → m !! t = None → label_ok (g_sem x) Blocked →
  safe (Spec (<[t := Blocked]> m) v x o b).
Proof.
  intros [Hl Hv Hc Hs] Ht Hok. simpl in *. split; simpl; try done.
  - by apply map_Forall_insert_2.
  - rewrite !weigh_new by done. simpl. lia.
  - by apply spoken_new.
Qed.

Lemma semaphore_stop m v x o b t :
  safe (Spec m v x o b) → m !! t = Some (Ending Stop) → safe (Spec (delete t m) v x o b).
Proof.
  intros [Hl Hv Hc Hs] Ht. simpl in *. split; simpl; try done.
  - by apply map_Forall_delete.
  - rewrite !(weigh_delete _ m t (Ending Stop)) by done. simpl. lia.
  - by eapply spoken_stop.
Qed.

Ltac set_label HS E :=
  eapply semaphore_set; [exact HS|exact E|..]; simpl; rewrite ?fn_lookup_insert; try done; try lia;
  try (by left); try (by right);
  try (intros; simplify_eq/=; first [done|by left|right; split; [done|by left]|right; split; [done|by right]]).

Lemma semaphore_thread t a a' : thread_step t a a' → safe a → safe a'.
Proof.
  intros Hs HS. pose proof HS as [Hl Hv Hc Hsp].
  destruct Hs as [m v x o b l f E Ec|m v x o b l str l' E Ec|m v x o b l l' E Ec|m v x o b l s l' E Ec
    |m v x o b l s l' E Ec|m v x o b l func l' t' E Ec Hn|m v x o b l E Ec]; simpl in *;
    pose proof (map_Forall_lookup_1 _ _ _ _ Hl E) as Hok;
    pose proof (weigh_nonneg before_up before_up_nonneg m) as Hb0;
    pose proof (weigh_nonneg let_through let_through_nonneg m) as Hl0;
    pose proof (weigh_elem before_up before_up_nonneg m t l E) as Hb;
    pose proof (weigh_elem let_through let_through_nonneg m t l E) as Ht;
    assert (0 ≤ unstarted b ∧ 0 ≤ b2z (g_unblocked x)) as [Hu0 Hg0] by (destruct b, (g_unblocked x); done);
    destruct l as [| |i| |sem|i|i| | |sem| |d]; simpl in Hok, Ec, Hb, Ht;
    try (destruct sem; [|done]); try (destruct d); try (destruct (i <? kSpinRounds)); simplify_eq/=.
  (* accesses *)
  - set_label HS E.
  - destruct (g_unblocked x) eqn:Eg; [simpl in Hc; lia|]. set_label HS E.
  - set_label HS E.
  - destruct (g_unblocked x) eqn:Eg; set_label HS E.
  - destruct (g_unblocked x) eqn:Eg; set_label HS E.
  - destruct (g_unblocked x) eqn:Eg; set_label HS E.
  - set_label HS E.
  - destruct (g_unblocked x) eqn:Eg; [simpl in Hc; lia|]. set_label HS E. rewrite Eg. simpl. lia.
  (* prints *)
  - set_label HS E.
  - set_label HS E.
  - set_label HS E.
  - set_label HS E.
  (* calls *)
  - set_label HS E.
  - set_label HS E.
  - set_label HS E.
  - set_label HS E.
  - set_label HS E.
  - apply semaphore_new; [set_label HS E|rewrite lookup_insert_ne; [done|intros ->; by rewrite Hn in E]|done].
  - by eapply semaphore_stop.
Qed.

(** ** The test ends *)

(** The steps that a thread, and those it starts, may still take. *)
Definition steps_left (l : where_) : Z :=
  match l with
  | MainNew => 3 * kSpinRounds + 15
  | MainGo => 3 * kSpinRounds + 14
  | MainSpin i => Z.max 0 (kSpinRounds - i) + 2 * kSpinRounds + 9
  | MainLoad => 2 * kSpinRounds + 8
  | MainUp _ => 2 * kSpinRounds + 7
  | MainWait i => 2 * Z.max 0 (kSpinRounds - i) + 6
  | MainYield i => 2 * Z.max 0 (kSpinRounds - 1 - i) + 7
  | MainCheck => 5
  | Blocked => 4
  | BlockedDown _ => 3
  | BlockedSet => 2
  | Ending d => verdict_steps d
  end.

Definition steps_left_all (a : @spec test) : Z :=
  weigh steps_left (pool a) + (3 * kSpinRounds + 16) * unstarted (sstarted a).

Ltac slia := simpl in *; unfold kSpinRounds in *; lia.

Lemma semaphore_steps_nonneg l : 0 ≤ steps_left l.
Proof. destruct l as [| |i| |sem|i|i| | |sem| |[]]; slia. Qed.

Lemma semaphore_left_nonneg a : safe a → 0 ≤ steps_left_all a.
Proof.
  intros _. pose proof (weigh_nonneg _ semaphore_steps_nonneg (pool a)).
  unfold steps_left_all. destruct (sstarted a); slia.
Qed.

Lemma semaphore_left_main m v x o t :
  m !! t = None → safe (Spec m v x o false) →
  steps_left_all (Spec (<[t := MainNew]> m) v x o true) < steps_left_all (Spec m v x o false).
Proof. intros Ht _. unfold steps_left_all. simpl. rewrite weigh_new by done. slia. Qed.

Lemma semaphore_less t a a' : thread_step t a a' → safe a → steps_left_all a' < steps_left_all a.
Proof.
  intros Hs _. unfold steps_left_all.
  destruct Hs as [m v x o b l f E Ec|m v x o b l str l' E Ec|m v x o b l l' E Ec|m v x o b l s l' E Ec
    |m v x o b l s l' E Ec|m v x o b l func l' t' E Ec Hn|m v x o b l E Ec]; simpl in *;
    rewrite ?(weigh_go _ m t l), ?(weigh_set _ m t l), ?(weigh_delete _ m t l) by done;
    destruct l as [| |i| |sem|i|i| | |sem| |d]; simpl in Ec; try (destruct sem; [|done]); try (destruct d);
    try (destruct (Z.ltb_spec i kSpinRounds)); simplify_eq/=; try (destruct (g_unblocked x)); slia.
Qed.

(** ** What the test prints *)

(** C14: the semaphore test finds that [down()] waits for [up()].  However the
    threads interleave: no core faults, not even by a null [g_sem]; the test never
    reports that [down()] returned before [up()] was called; it cannot go on for
    ever, but for cores that look for a thread to run; and when no core can do
    anything else, it has given its verdict, that [down()] returned, or that it took
    too long. *)
Theorem semaphore_test_verdict b ps :
  (b < kMaxCores)%nat → rtc (program_step b) program_booted ps →
  (∀ c x, (c < kMaxCores)%nat → is_Some (prog_core_step b c x ps)) ∧
  (out ps `prefix_of` [test_pass] ∨ out ps `prefix_of` fail_line) ∧
  sn (busy_step b) ps ∧
  ((∀ ps', ¬ busy_step b ps ps') ∨ quiescent ps → out ps = [test_pass] ∨ out ps = fail_line).
Proof.
  intros Hb Hr.
  destruct (program_invariant safe semaphore_init semaphore_main semaphore_thread b ps Hr)
    as (a & HS & _ & Eo & Hf & Hq).
  assert (∀ c x, (c < kMaxCores)%nat → is_Some (prog_core_step b c x ps)) as Hsome.
  { intros c x Hc. apply not_eq_None_Some. intros (t & l & Hl & Hu)%Hf; [|done].
    pose proof (map_Forall_lookup_1 _ _ _ _ (safe_labels a HS) Hl) as Hok.
    destruct l as [| |i| |sem|i|i| | |sem| |[]]; simpl in Hu, Hok; subst; repeat case_match; done. }
  pose proof (safe_spoken a HS) as Hs. split_and!; [done|rewrite <- Eo| |].
  - destruct (spoken_cases _ _ _ _ _ Hs) as [-> |[(t & l & Hl & Hp)|[-> | ->]]];
      [left; apply prefix_nil| |by left|by right].
    right. destruct l as [| |i| |sem|i|i| | |sem| |[]]; simpl in Hp; try done; injection Hp as <-; by eexists.
  - by apply (program_ends safe semaphore_init semaphore_main semaphore_thread steps_left_all);
      [apply semaphore_left_nonneg|apply semaphore_left_main|apply semaphore_less|].
  - intros Hend. assert (quiescent ps) as [Hst Hstuck]%Hq.
    { destruct Hend as [Hend|?]; [by apply (busy_end b)|done]. }
    assert (weigh (speaks printed) (pool a) = 0) as H0.
    { destruct (decide (0 < weigh (speaks printed) (pool a))) as [Hp|];
        [|pose proof (weigh_nonneg _ (speaks_nonneg printed) (pool a)); lia].
      destruct (weigh_pos _ _ Hp) as (t & l & Hl & Hsp). exfalso. apply Hsp, speaks_none.
      destruct (Hstuck t l Hl) as (l1 & s & l2 & Hl1 & Hu & _). pose proof (eq_trans (eq_sym Hl) Hl1) as [= <-].
      destruct l as [| |i| |[]|i|i| | |[]| |[]]; simpl in Hu; repeat case_match; done. }
    destruct Hs as [(Hs & _)|[_ Hs]]; [rewrite Hst in Hs; simpl in Hs; lia|by rewrite <- Eo].
Qed.

(** Two cores run the test until [blocked_thread] waits. *)
Definition example : option pstate :=
  run_program 0 ((λ i, (Nat.modulo i 2, 8 + i)%nat) <$> seq 0 100) program_booted.

Lemma example_waits : (λ ps : pstate, length (q (sems (kernel ps) the_sem))) <$> example = Some 1%nat.
Proof. vm_compute. reflexivity. Qed.

Lemma semaphore_test_verdict_witness :
  ∃ ps, rtc (program_step 0) program_booted ps ∧ length (q (sems (kernel ps) the_sem)) = 1%nat ∧
    (out ps `prefix_of` [test_pass] ∨ out ps `prefix_of` fail_line).
Proof.
  destruct example as [ps|] eqn:E; pose proof example_waits as Hw; rewrite E in Hw; [|discriminate Hw].
  injection Hw as Hw.
  assert (rtc (program_step 0) program_booted ps) as Hr
    by (eapply run_program_reachable; [|exact E]; vm_compute; reflexivity).
  exists ps. split; [exact Hr|]. split; [exact Hw|].
  refine (proj1 (proj2 (semaphore_test_verdict 0 ps _ Hr))). unfold kMaxCores. lia.
Defined.
