(* ===== verification/HeapTest.v ===== *)
(** * tests/heap.cpp

    The test of the heap, run by a thread that has the heap to itself: on any heap
    with room for 64 bytes it passes and leaves the heap as it was; on one without,
    it reports that. *)

From S2P Require Import Program TestUtil Prelude Memory Spinlock Heap HeapInv HeapCorrect HeapProps.

#[local] Open Scope Z_scope.
#[local] Open Scope machine_scope.

Section HeapTest.
Context `{HeapLayout}.

Definition fails (reason : string) : list string := ["TEST FAIL: "; reason; newline].

Definition fill_block (bytes : Z) : M unit :=
  for_up 0 64 (λ i, store8 (bytes +₆₄ i) (u8 i)).

(** [for (; i < i + n; i++) if (bytes[i] != (unsigned char)i) test::fail(...)] *)
Fixpoint block_filled (bytes i : Z) (n : nat) : M bool :=
  match n with
  | O => mret true
  | S k =>
      b ← load8 (bytes +₆₄ i);
      if b =? u8 i then block_filled bytes (i + 1) k else mret false
  end.

(** [main], up to its last [stop()]: what it prints. *)
Definition heap_test : M (list string) :=
  a ← malloc 64;
  if a =? 0 then mret (fails "malloc(64) returned nullptr")
  else
    fill_block a ;;
    ok ← block_filled a 0 64;
    if negb ok then mret (fails "read-back mismatch after malloc(64)")
    else
      free a ;;
      b ← malloc 64;
      if negb (b =? a) then mret (fails "free() didn't make its block reusable")
      else
        free b ;;
        mret [test_pass].

(** ** Filling and checking a block *)

Lemma index_in_block a i : 0 ≤ a → a + 64 < 2 ^ 64 → 0 ≤ i < 64 → a +₆₄ i = a + i.
Proof. intros. unfold u64. rewrite Z.mod_small; lia. Qed.

Lemma fill_run a n : ∀ m i,
  0 ≤ a → a + 64 < 2 ^ 64 → mapped_range a 64 → 0 ≤ i → i + Z.of_nat n = 64 →
  ∃ m', for_up i n (λ i, store8 (a +₆₄ i) (u8 i)) m = Some (tt, m') ∧
    (∀ j, i ≤ j < 64 → rd m' (a + j) = j) ∧
    same_on (λ x, x < a + i ∨ a + 64 ≤ x) m m'.
Proof.
  induction n as [|n IH]; intros m i Ha Hf Hm Hi Hn.
  { exists m. split; [done|]. split; [intros; lia|done]. }
  cbn [for_up]. rewrite index_in_block by lia. mstep store8_run; [|apply Hm; lia].
  destruct (IH (<[a + i := u8 i]> m) (i + 1)) as (m' & E & Hb & Hs); try done; [lia..|].
  exists m'. split; [done|]. split.
  - intros j Hj. destruct (decide (j = i)) as [->|]; [|apply Hb; lia].
    rewrite <- (Hs (a + i)) by (left; lia). rewrite rd_insert, decide_True by done.
    by rewrite !(u8_byte i) by (unfold is_byte; lia).
  - intros x Hx. rewrite <- (Hs x) by lia. rewrite rd_insert, decide_False by lia. done.
Qed.

Lemma filled_run a m n : ∀ i,
  0 ≤ a → a + 64 < 2 ^ 64 → mapped_range a 64 → 0 ≤ i → i + Z.of_nat n = 64 →
  (∀ j, i ≤ j < 64 → rd m (a + j) = j) → block_filled a i n m = Some (true, m).
Proof.
  induction n as [|n IH]; intros i Ha Hf Hm Hi Hn Hb; [done|].
  cbn [block_filled]. rewrite index_in_block by lia. mstep load8_run; [|apply Hm; lia].
  rewrite Hb by lia. unfold u8. rewrite Z.mod_small, Z.eqb_refl by lia.
  apply IH; try done; [lia..|]. intros j Hj. apply Hb. lia.
Qed.

(** Freeing what was just allocated restores the blocks. *)
Lemma free_restores bs a bs1 m1 :
  Forall blk_ok bs → coalesced bs → acquire g_arena (block_bytes 64) bs = Some (a, bs1) →
  heap_rep m1 bs1 → ∃ m2, free a m1 = Some (tt, m2) ∧ heap_rep m2 bs.
Proof.
  intros Hok Hco Ea Hrep1. destruct (acquire_live _ _ _ _ _ Hok Ea) as (cap & _ & _ & Hl & _).
  destruct (free_run m1 bs1 a cap Hrep1) as (m2 & bs2 & Ef & Er & Hrep2 & _).
  { by rewrite Hl, lookup_insert_eq. }
  rewrite (release_acquire _ _ _ _ _ Hok Hco Ea) in Er. injection Er as <-. by exists m2.
Qed.

(** The heap test passes.  On any heap that its thread has to itself: if a
    block has room for 64 bytes, the test gets one, finds in it what it wrote, gets
    the same block again after freeing it, prints [TEST PASS] and leaves the heap
    with the blocks it had; otherwise it reports that [malloc] returned null. *)
Theorem heap_test_passes m bs :
  heap_rep m bs →
  ∃ m', heap_rep m' bs ∧
    heap_test m = Some
      (if acquire g_arena (block_bytes 64) bs then [test_pass] else fails "malloc(64) returned nullptr", m').
Proof.
  intros Hrep. pose proof (malloc_run m bs 64 Hrep ltac:(lia)) as Hrun.
  pose proof (heap_rep_ok _ _ Hrep) as Hok. pose proof Hrep as (_ & Hco & _). unfold heap_test.
  destruct (acquire g_arena (block_bytes 64) bs) as [[a bs1]|] eqn:Ea.
  2: { destruct Hrun as (m1 & E1 & Hrep1 & _). exists m1. split; [done|]. by mstep E1. }
  destruct Hrun as (m1 & E1 & Hrep1 & _). mstep E1.
  pose proof (acquire_ge _ _ _ _ _ Hok Ea) as Hge. pose proof g_arena_fits as [Hpos Hfits].
  unfold kTagSize in Hge. assert (a ≠ 0) as Hne by lia.
  destruct (malloc_returns_fresh_block m bs 64 a m1 Hrep ltac:(lia) E1 Hne)
    as (_ & _ & Hend & Hmap & _).
  rewrite (proj2 (Z.eqb_neq a 0)) by done.
  destruct (fill_run a 64 m1 0) as (m2 & E2 & Hbytes & Hsame); try done; [lia..|].
  unfold fill_block. mstep E2. mstep filled_run; try done; [|lia..]. cbn [negb].
  assert (heap_rep m2 bs1) as Hrep2.
  { apply (heap_rep_frame m1); [done|]. eapply same_on_weaken; [exact Hsame|].
    intros x [_ Hx]. destruct (decide (a ≤ x < a + 64)) as [Hin|]; [|lia]. exfalso. apply Hx.
    destruct (acquire_live _ _ _ _ _ Hok Ea) as (cap & Hcap & _ & Hl & _). exists a, cap.
    rewrite Hl, lookup_insert_eq. split; [done|]. change (block_bytes 64) with 96 in Hcap.
    unfold kTagSize in Hcap. lia. }
  destruct (free_restores bs a bs1 m2 Hok Hco Ea Hrep2) as (m3 & E3 & Hrep3). mstep E3.
  pose proof (malloc_run m3 bs 64 Hrep3 ltac:(lia)) as Hrun2. rewrite Ea in Hrun2.
  destruct Hrun2 as (m4 & E4 & Hrep4 & _). mstep E4. rewrite Z.eqb_refl. cbn [negb].
  destruct (free_restores bs a bs1 m4 Hok Hco Ea Hrep4) as (m5 & E5 & Hrep5).
  exists m5. split; [done|]. by mstep E5.
Qed.
End HeapTest.

#[local] Existing Instance example_space.
#[local] Existing Instance example_layout.

(** On the heap right after [init]. *)
Lemma heap_test_passes_witness :
  ∃ m', heap_rep m' [Blk kArenaSize false] ∧ heap_test example_heap = Some ([test_pass], m').
Proof. exact (heap_test_passes example_heap [Blk kArenaSize false] example_heap_rep). Defined.
