(* ===== verification/Smp.v ===== *)
(** * kernel/src/smp.cpp and the boot messages of main.cpp

    [smp::init] gives every core an id and releases the secondary cores; the
    theorems follow the stores it makes one at a time, since a released core may
    start after any of them.  [print_ap_greeting] and [print_boot_banner] build
    their line in an array on the stack. *)

From Stdlib Require Import Strings.String Strings.Ascii.
From S2P Require Import Prelude Arrays Console.

Local Open Scope machine_scope.

(** The characters of a string literal. *)
Definition lit (s : string) : list Z :=
  map (λ a, Z.of_nat (nat_of_ascii a)) (list_ascii_of_string s).

(** ** Core ids *)

(** One core of Limine's MP response. *)
Record limine_mp_info := MpInfo { mpidr : Z; goto_address : Z; extra_argument : Z }.

(** A core's TPIDR_EL1. *)
Definition write_core_id (id : Z) : Z := id.
Definition read_core_id (tpidr : Z) : Z := tpidr.
Definition me (tpidr : Z) : Z := u32 (read_core_id tpidr).

(** [for (i = 0; i < cpu_count; i++) if (cpus[i]->mpidr == bsp_mpidr) ...], with
    0 when there is no such core. *)
Fixpoint find_bsp (bsp_mpidr : Z) (cpus : list limine_mp_info) (i : Z) : Z :=
  match cpus with
  | [] => 0
  | cpu :: rest => if mpidr cpu =? bsp_mpidr then i else find_bsp bsp_mpidr rest (i + 1)
  end.

(** The stores of the second loop, in program order. *)
Inductive mp_store := ExtraArgument (i : nat) (v : Z) | GotoAddress (i : nat) (a : Z).

Fixpoint release_loop (ap_entry bsp_index : Z) (n i : nat) : list mp_store :=
  match n with
  | O => []
  | S n =>
      (if Z.of_nat i =? bsp_index then []
       else [ExtraArgument i (Z.of_nat i); GotoAddress i ap_entry]) ++
      release_loop ap_entry bsp_index n (S i)
  end.

Definition do_store (w : mp_store) (cpus : list limine_mp_info) : list limine_mp_info :=
  match w with
  | ExtraArgument i v => alter (λ c, MpInfo (mpidr c) (goto_address c) v) i cpus
  | GotoAddress i a => alter (λ c, MpInfo (mpidr c) a (extra_argument c)) i cpus
  end.

Definition do_stores (ws : list mp_store) (cpus : list limine_mp_info) : list limine_mp_info :=
  foldl (λ l w, do_store w l) cpus ws.

(** [smp::init]: what the bootstrap processor keeps in TPIDR_EL1, and its stores. *)
Definition smp_init (ap_entry bsp_mpidr : Z) (cpus : list limine_mp_info) : Z * list mp_store :=
  let bsp_index := find_bsp bsp_mpidr cpus 0 in
  (write_core_id bsp_index, release_loop ap_entry bsp_index (length cpus) 0).

(** The first instruction of [ap_entry] on a released core. *)
Definition ap_core_id (info : limine_mp_info) : Z := write_core_id (extra_argument info).

(** ** Boot messages *)

Section Messages.
Context {U : Type} `{Uart U} (patience : nat).

(** [line] is the uninitialised array [char line[48]]. *)
Definition print_ap_greeting (line : list Z) (core_id : Z) : ST (console U) unit :=
  '(line, p) ← checked (append line 0 (lit "Hello from core "));
  '(line, p) ← checked (append_uint line p core_id);
  '(line, p) ← checked (append line p (lit ", online!" ++ [10]));
  line ← checked (arr_write line p [0]);
  print patience line.

(** [line] is the uninitialised array [char line[64]]. *)
Definition print_boot_banner (line : list Z) (core_id cpu_count : Z) : ST (console U) unit :=
  print patience [10] ;;
  print patience (lit "Hello, World!" ++ [10]) ;;
  '(line, p) ← checked (append line 0 (lit "Booted on core "));
  '(line, p) ← checked (append_uint line p core_id);
  '(line, p) ← checked (append line p (lit " of "));
  '(line, p) ← checked (append_uint line p cpu_count);
  '(line, p) ← checked (append line p (lit " total." ++ [10]));
  line ← checked (arr_write line p [0]);
  print patience line.
End Messages.

(** ** Lines under construction *)

(** Storing after [msg]: the array is [msg] followed by [rest]. *)
Lemma stored_line msg rest s r :
  stored (msg ++ rest) (Z.of_nat (length msg)) s r → (length s ≤ length rest)%nat →
  r = Some ((msg ++ s) ++ drop (length s) rest, Z.of_nat (length (msg ++ s))).
Proof.
  intros (buf' & -> & Ew) Hl. rewrite arr_write_some in Ew by (rewrite ?length_app; lia).
  injection Ew as <-. rewrite Nat2Z.id, take_app_length, drop_app_add, length_app, <- app_assoc.
  do 2 f_equal. lia.
Qed.

Lemma append_line msg rest s :
  Forall (λ c, c ≠ 0) s → (length s ≤ length rest)%nat →
  append (msg ++ rest) (Z.of_nat (length msg)) s =
    Some ((msg ++ s) ++ drop (length s) rest, Z.of_nat (length (msg ++ s))).
Proof.
  intros Hs Hl. assert (before 0 s = s) as Eb.
  { induction Hs as [|c s Hc _ IH]; [done|]. cbn [before length] in *.
    rewrite (proj2 (Z.eqb_neq c 0)) by done. by rewrite IH by lia. }
  apply stored_line; [|done]. rewrite <- Eb at 1. apply append_run; [lia|].
  rewrite Eb, length_app. lia.
Qed.

Lemma append_uint_line msg rest v :
  is_u64 v → (length (decimal v) ≤ length rest)%nat →
  append_uint (msg ++ rest) (Z.of_nat (length msg)) v =
    Some ((msg ++ decimal v) ++ drop (length (decimal v)) rest,
          Z.of_nat (length (msg ++ decimal v))).
Proof.
  intros Hv Hl. apply stored_line; [|done]. apply append_uint_run; [done|lia|].
  rewrite length_app. lia.
Qed.

Lemma digits_of_short j : ∀ k v, v < 10 ^ Z.of_nat j → (length (digits_of k v) ≤ j)%nat.
Proof.
  induction j as [|j IH]; intros [|k] v Hv; simpl; try lia.
  - rewrite (proj2 (Z.ltb_ge 0 v)); [done|]. simpl in Hv. lia.
  - case_match; simpl; [|lia]. apply le_n_S, IH. rewrite Nat2Z.inj_succ, Z.pow_succ_r in Hv by lia.
    apply Z.div_lt_upper_bound; lia.
Qed.

Lemma decimal_u32 v : is_u32 v → is_u64 v ∧ (length (decimal v) ≤ 10)%nat ∧ Forall (λ c, 0 < c < 256) (decimal v).
Proof.
  unfold is_u32, is_u64. intros Hv. split; [lia|]. split.
  - unfold decimal. case_match; [simpl; lia|]. rewrite length_rev. apply digits_of_short. lia.
  - eapply Forall_impl; [apply decimal_spec; unfold is_u64; lia|]. simpl. lia.
Qed.

Section Sending.
Context {U : Type} `{Uart U} {patience : nat} {LAWS : UartLaws U patience}.

(** Terminating and printing the line. *)
Lemma finish_line msg rest u :
  Forall (λ c, 0 < c < 256) msg → Forall is_byte rest → (1 ≤ length rest)%nat →
  ∃ u', (line ← checked (arr_write (msg ++ rest) (Z.of_nat (length msg)) [0]); print patience line)
      (Console false u) = Some (tt, Console false u') ∧ sent u' = sent u ++ crlf msg.
Proof.
  intros Hm Hr Hl. destruct rest as [|x rest]; [simpl in Hl; lia|].
  assert (before 0 (msg ++ 0 :: rest) = msg) as Eb.
  { clear -Hm. induction Hm as [|c s Hc _ IH]; [done|]. cbn [before app].
    rewrite (proj2 (Z.eqb_neq c 0)) by lia. by rewrite IH. }
  destruct (print_run (msg ++ 0 :: rest) u) as (u' & E & Hs).
  { apply Forall_app. split; [|constructor; [by split|by inversion Hr]].
    eapply Forall_impl; [exact Hm|]. unfold is_byte. simpl. lia. }
  exists u'. rewrite Eb in Hs. split; [|done]. erewrite bind_checked; [exact E|].
  rewrite arr_write_some by (rewrite ?length_app; simpl; lia).
  rewrite Nat2Z.id, take_app_length, drop_app_add. done.
Qed.

Lemma crlf_app a b : crlf (a ++ b) = crlf a ++ crlf b.
Proof. unfold crlf. by rewrite bind_app. Qed.

Lemma append_step {B} msg rest s (k : list Z * Z → ST (console U) B) st :
  Forall (λ c, c ≠ 0) s → (length s ≤ length rest)%nat →
  (checked (append (msg ++ rest) (Z.of_nat (length msg)) s) ≫= k) st =
  k ((msg ++ s) ++ drop (length s) rest, Z.of_nat (length (msg ++ s))) st.
Proof. intros. apply bind_checked. by apply append_line. Qed.

Lemma append_uint_step {B} msg rest v (k : list Z * Z → ST (console U) B) st :
  is_u64 v → (length (decimal v) ≤ length rest)%nat →
  (checked (append_uint (msg ++ rest) (Z.of_nat (length msg)) v) ≫= k) st =
  k ((msg ++ decimal v) ++ drop (length (decimal v)) rest, Z.of_nat (length (msg ++ decimal v))) st.
Proof. intros. apply bind_checked. by apply append_uint_line. Qed.

Lemma greeting_run line id u :
  length line = 48%nat → Forall is_byte line → is_u32 id →
  ∃ u', print_ap_greeting patience line id (Console false u) = Some (tt, Console false u') ∧
    sent u' = sent u ++ lit "Hello from core " ++ decimal id ++ lit ", online!" ++ [13; 10].
Proof.
  intros Hl Hb Hid. destruct (decimal_u32 id Hid) as (Hi & Hil & Hif). unfold print_ap_greeting.
  rewrite (append_step [] line) by (repeat constructor; done || (simpl; lia)).
  rewrite append_uint_step by (done || (rewrite length_drop; simpl length; lia)).
  rewrite append_step by (repeat constructor; done || (rewrite !length_drop; simpl length; lia)).
  edestruct finish_line as (u' & E & Hs); [| | |exists u'; split; [exact E|]].
  - repeat (apply Forall_app; split); try done; by repeat constructor.
  - by repeat apply Forall_drop.
  - rewrite !length_drop. simpl length. lia.
  - rewrite Hs, !crlf_app, crlf_numeral, <- !app_assoc by done. done.
Qed.

(** What the banner shows. *)
Definition banner (id count : Z) : list Z :=
  [13; 10] ++ lit "Hello, World!" ++ [13; 10] ++ lit "Booted on core " ++ decimal id ++
  lit " of " ++ decimal count ++ lit " total." ++ [13; 10].

Lemma banner_run line id count u :
  length line = 64%nat → Forall is_byte line → is_u32 id → is_u32 count →
  ∃ u', print_boot_banner patience line id count (Console false u) = Some (tt, Console false u') ∧
    sent u' = sent u ++ banner id count.
Proof.
  intros Hl Hb Hid Hc. destruct (decimal_u32 id Hid) as (Hi & Hil & Hif).
  destruct (decimal_u32 count Hc) as (Hc64 & Hcl & Hcf). unfold print_boot_banner.
  destruct (print_run [10] u) as (u1 & E1 & S1); [by repeat constructor|]. mstep E1.
  destruct (print_run (lit "Hello, World!" ++ [10]) u1) as (u2 & E2 & S2);
    [by repeat constructor|]. mstep E2.
  rewrite (append_step [] line) by (repeat constructor; done || (simpl; lia)).
  rewrite append_uint_step by (done || (rewrite length_drop; simpl length; lia)).
  rewrite append_step by (repeat constructor; done || (rewrite !length_drop; simpl length; lia)).
  rewrite append_uint_step by (done || (rewrite !length_drop; simpl length; lia)).
  rewrite append_step by (repeat constructor; done || (rewrite !length_drop; simpl length; lia)).
  edestruct finish_line as (u' & E & Hs); [| | |exists u'; split; [exact E|]].
  - repeat (apply Forall_app; split); try done; by repeat constructor.
  - by repeat apply Forall_drop.
  - rewrite !length_drop. simpl length. lia.
  - rewrite Hs, S2, S1, !crlf_app, !crlf_numeral, <- !app_assoc by done. done.
Qed.

(** The boot messages.  Whatever the 32-bit ids, each message fits in its
    array, whose initial contents do not matter, and reaches the console as one
    line that shows the ids in decimal. *)
Theorem boot_messages_sent line line' id count u :
  length line = 48%nat → length line' = 64%nat → Forall is_byte line → Forall is_byte line' →
  is_u32 id → is_u32 count →
  (∃ u', print_ap_greeting patience line id (Console false u) = Some (tt, Console false u') ∧
     sent u' = sent u ++ lit "Hello from core " ++ decimal id ++ lit ", online!" ++ [13; 10]) ∧
  (∃ u', print_boot_banner patience line' id count (Console false u) = Some (tt, Console false u') ∧
     sent u' = sent u ++ banner id count).
Proof. intros. split; [by apply greeting_run|by apply banner_run]. Qed.
End Sending.

(** ** Releasing the cores *)

Section Release.
Context (ap_entry : Z) (b : nat).

(** The cores below [i], but for the bootstrap processor [b], have been released. *)
Definition released_below (i : nat) (cpus : list limine_mp_info) : Prop :=
  ∀ j info, cpus !! j = Some info →
    if decide (j < i ∧ j ≠ b)%nat then goto_address info = ap_entry ∧ extra_argument info = Z.of_nat j
    else goto_address info = 0.

(** A core that may start has its id. *)
Definition starts_with_id (cpus : list limine_mp_info) : Prop :=
  ∀ j info, cpus !! j = Some info → goto_address info ≠ 0 →
    goto_address info = ap_entry ∧ extra_argument info = Z.of_nat j ∧ j ≠ b.

Lemma released_starts i cpus : released_below i cpus → starts_with_id cpus.
Proof. intros Hd j info Hj Hg. specialize (Hd j info Hj). case_decide; naive_solver. Qed.

Lemma extra_starts i v cpus :
  released_below i cpus → starts_with_id (do_store (ExtraArgument i v) cpus).
Proof.
  intros Hd j info Hj Hg. simpl in Hj. destruct (decide (j = i)) as [->|Hne].
  - rewrite list_lookup_alter_eq, fmap_Some in Hj. destruct Hj as (info' & Hj & ->).
    specialize (Hd i info' Hj). rewrite decide_False in Hd by lia. done.
  - rewrite list_lookup_alter_ne in Hj by done. by eapply released_starts.
Qed.

Lemma release_one i cpus :
  i ≠ b → released_below i cpus →
  released_below (S i) (do_stores [ExtraArgument i (Z.of_nat i); GotoAddress i ap_entry] cpus).
Proof.
  intros Hi Hd j info Hj. simpl in Hj. destruct (decide (j = i)) as [->|Hne].
  - rewrite list_lookup_alter_eq, fmap_Some in Hj. destruct Hj as (info1 & Hj & ->).
    rewrite list_lookup_alter_eq, fmap_Some in Hj. destruct Hj as (info2 & Hj & ->).
    rewrite decide_True by lia. done.
  - rewrite !list_lookup_alter_ne in Hj by done. specialize (Hd j info Hj).
    repeat case_decide; try done; lia.
Qed.

Lemma release_skip cpus : released_below b cpus → released_below (S b) cpus.
Proof. intros Hd j info Hj. specialize (Hd j info Hj). repeat case_decide; try done; lia. Qed.

Lemma do_stores_app ws ws' cpus : do_stores (ws ++ ws') cpus = do_stores ws' (do_stores ws cpus).
Proof. apply foldl_app. Qed.

Lemma release_loop_run n : ∀ i cpus,
  released_below i cpus → released_below (i + n) (do_stores (release_loop ap_entry (Z.of_nat b) n i) cpus).
Proof.
  induction n as [|n IH]; intros i cpus Hd; cbn [release_loop]; [by rewrite Nat.add_0_r|].
  rewrite do_stores_app, Nat.add_succ_r, <- Nat.add_succ_l. apply IH.
  destruct (Z.eqb_spec (Z.of_nat i) (Z.of_nat b)) as [Hi|Hi].
  - assert (i = b) as -> by lia. by apply release_skip.
  - apply release_one; [lia|done].
Qed.

Lemma release_loop_prefix n ws : ∀ i cpus,
  released_below i cpus → ws `prefix_of` release_loop ap_entry (Z.of_nat b) n i →
  starts_with_id (do_stores ws cpus).
Proof.
  intros i cpus Hd Hp. revert i cpus ws Hd Hp. induction n as [|n IH]; intros i cpus ws Hd Hp;
    cbn [release_loop] in Hp; [apply prefix_nil_inv in Hp as ->; by eapply released_starts|].
  destruct (Z.eqb_spec (Z.of_nat i) (Z.of_nat b)) as [Hi|Hi].
  - assert (i = b) as -> by lia. eapply (IH (S b)); [by apply release_skip|done].
  - destruct ws as [|w1 ws]; [by eapply released_starts|]. apply prefix_cons_inv_1 in Hp as Hw1. subst w1.
    apply prefix_cons_inv_2 in Hp. destruct ws as [|w2 ws]; [by apply extra_starts|].
    apply prefix_cons_inv_1 in Hp as Hw2. subst w2. apply prefix_cons_inv_2 in Hp.
    eapply (IH (S i) _ ws); [apply release_one; [lia|exact Hd]|done].
Qed.
End Release.

Lemma find_bsp_spec bsp cpus : ∀ i,
  bsp ∈ mpidr <$> cpus →
  ∃ b info, find_bsp bsp cpus i = i + Z.of_nat b ∧ cpus !! b = Some info ∧ mpidr info = bsp.
Proof.
  induction cpus as [|c cpus IH]; intros i Hin; [by apply elem_of_nil in Hin|]. cbn [find_bsp].
  destruct (Z.eqb_spec (mpidr c) bsp) as [He|He].
  - exists 0%nat, c. split; [lia|done].
  - apply elem_of_cons in Hin as [|Hin]; [done|].
    destruct (IH (i + 1) Hin) as (b & info & -> & Hb & Hm). exists (S b), info. split; [lia|done].
Qed.

Lemma do_stores_length ws : ∀ cpus, length (do_stores ws cpus) = length cpus.
Proof.
  induction ws as [|w ws IH]; intros cpus; [done|]. simpl. rewrite IH.
  destruct w; apply length_alter.
Qed.

(** [smp::init] in terms of the index [b] of the bootstrap processor. *)
Lemma smp_init_run ap_entry bsp cpus :
  Z.of_nat (length cpus) < 2 ^ 32 → Forall (λ c, goto_address c = 0) cpus → bsp ∈ mpidr <$> cpus →
  ∃ b info, smp_init ap_entry bsp cpus =
      (Z.of_nat b, release_loop ap_entry (Z.of_nat b) (length cpus) 0) ∧
    cpus !! b = Some info ∧ mpidr info = bsp ∧ me (Z.of_nat b) = Z.of_nat b ∧
    released_below ap_entry b 0 cpus.
Proof.
  intros Hlen Hz Hin. destruct (find_bsp_spec bsp cpus 0 Hin) as (b & info & Hb & Hl & Hm).
  exists b, info. unfold smp_init. rewrite Hb, Z.add_0_l. split_and!; try done.
  - apply lookup_lt_Some in Hl. unfold me, read_core_id, u32. apply Z.mod_small. lia.
  - intros j c Hj. rewrite decide_False by lia. rewrite Forall_forall in Hz.
    apply Hz. by eapply list_elem_of_lookup_2.
Qed.

Lemma released_all ap_entry b cpus i c :
  released_below ap_entry b 0 cpus →
  do_stores (release_loop ap_entry (Z.of_nat b) (length cpus) 0) cpus !! i = Some c →
  i ≠ b → goto_address c = ap_entry.
Proof.
  intros H0 Hi Hne. pose proof (release_loop_run ap_entry b (length cpus) 0 cpus H0 i c Hi) as Hd.
  apply lookup_lt_Some in Hi. rewrite do_stores_length in Hi.
  rewrite decide_True in Hd by (simpl; lia). apply Hd.
Qed.

(** C37: every core gets its own id.  [smp::init] runs on the core whose MPIDR the
    boot loader names, and keeps that core's index as its id.  A parked core may
    start after any of the stores of [smp::init]: from the moment its entry point
    can be seen, its id is its own index, so that no two cores have the same id,
    all ids are below the number of cores, and the bootstrap processor is not
    started again; at the end every other core has been released. *)
Theorem cores_get_own_ids ap_entry bsp cpus ws id stores :
  smp_init ap_entry bsp cpus = (id, stores) → Z.of_nat (length cpus) < 2 ^ 32 →
  Forall (λ c, goto_address c = 0) cpus → bsp ∈ mpidr <$> cpus → ws `prefix_of` stores →
  ∃ b info, me id = Z.of_nat b ∧ cpus !! b = Some info ∧ mpidr info = bsp ∧
    (∀ i c, do_stores ws cpus !! i = Some c → goto_address c ≠ 0 →
       goto_address c = ap_entry ∧ me (ap_core_id c) = Z.of_nat i ∧ i ≠ b) ∧
    (∀ i c, do_stores stores cpus !! i = Some c → i ≠ b → goto_address c = ap_entry).
Proof.
  intros Hinit Hlen Hz Hin Hp.
  destruct (smp_init_run ap_entry bsp cpus Hlen Hz Hin) as (b & info & E & Hl & Hm & Hme & H0).
  rewrite E in Hinit. injection Hinit as <- <-. exists b, info. split_and!; try done.
  - intros i c Hi Hg.
    destruct (release_loop_prefix ap_entry b (length cpus) ws 0 cpus H0 Hp i c Hi Hg) as (-> & He & Hne).
    split; [done|]. split; [|done]. apply lookup_lt_Some in Hi. rewrite do_stores_length in Hi.
    unfold me, read_core_id, ap_core_id, write_core_id, u32. rewrite He. apply Z.mod_small. lia.
  - intros i c Hi Hne. by eapply released_all.
Qed.

(** ** Three cores, the second of which boots *)

Definition three_cores : list limine_mp_info := [MpInfo 10 0 0; MpInfo 11 0 0; MpInfo 12 0 0].

Lemma cores_get_own_ids_witness :
  let '(id, stores) := smp_init 4096 11 three_cores in
  me id = 1 ∧ ∀ i c, do_stores stores three_cores !! i = Some c → i ≠ 1%nat → goto_address c = 4096.
Proof.
  destruct (cores_get_own_ids 4096 11 three_cores (snd (smp_init 4096 11 three_cores))
    (fst (smp_init 4096 11 three_cores)) (snd (smp_init 4096 11 three_cores)))
    as (b & info & Hid & _ & _ & _ & Hall).
  - reflexivity.
  - simpl. lia.
  - repeat constructor.
  - right. left.
  - exists []. reflexivity.
  - assert (b = 1%nat) as -> by (apply Nat2Z.inj; symmetry; exact Hid).
    split; [reflexivity|exact Hall].
Defined.

Lemma boot_messages_sent_witness :
  ∃ u', print_ap_greeting 1 (replicate 48 255) 4294967295 (Console false ([], false)) =
      Some (tt, Console false u') ∧
    sent u' = lit "Hello from core " ++ lit "4294967295" ++ lit ", online!" ++ [13; 10].
Proof.
  destruct (boot_messages_sent (patience := 1) (replicate 48 255) (replicate 64 0) 4294967295 4 ([], false))
    as [(u' & E & S) _].
  - reflexivity.
  - reflexivity.
  - apply Forall_replicate. unfold is_byte. lia.
  - apply Forall_replicate. unfold is_byte. lia.
  - unfold is_u32. lia.
  - unfold is_u32. lia.
  - exists u'. split; [exact E|]. rewrite S. reflexivity.
Defined.
