(* ===== verification/Boot.v ===== *)
(** * kernel/src/main.cpp, percore::init and the start of the first thread

    [kmain] composes the other components: it maps the console, prints, prepares
    the heap, builds one idle thread per core and releases the other cores.  From
    the first release on it is one of several cores, so the sequential model ends
    with [smp::init]; what a released core finds in memory is recorded with its
    release, and is the state from which [Sched] and [Program] start, which
    interleave the rest of [kmain] ([threads::go(main)], [threads::stop()]) with
    the other cores.  The banner is in Smp.v. *)

From Stdlib Require Import Strings.String.
From S2P Require Import Sched.
From S2P Require Import Prelude Arrays Memory Spinlock Mmu Console Heap HeapInv HeapCorrect HeapProps Alloc.
From S2P Require Import SpinQueue ContextSwitch Threads Smp.

Local Open Scope machine_scope.

Section Boot.
Context {AS : AddressSpace} {LAY : HeapLayout} {U : Type} {UA : Uart U} (patience : nat).
(** The addresses of the kernel's globals and functions. *)
Context (g_next_tid g_table g_ready_queue g_l1_table_address table_phys : Z).
Context (idle_loop thread_trampoline ap_entry : Z).

(** [offsetof(PerCore, idle)] in [g_table[i]]: the last of eight pointers. *)
Definition idle_slot (i : Z) : Z := g_table +₆₄ (64 * i + 56).

Fixpoint percore_loop (n : nat) (i : Z) : M unit :=
  match n with
  | O => mret tt
  | S n =>
      tcb ← make_tcb g_next_tid idle_loop;
      store64 (idle_slot i) tcb ;;
      percore_loop n (i + 1)
  end.

Definition percore_init : M unit := percore_loop kMaxCores 0.

(** [threads::go(func)] *)
Definition go_thread (func : Z) : M unit :=
  tcb ← make_thread_tcb g_next_tid thread_trampoline func;
  push g_ready_queue tcb.

(** What a core that is released finds. *)
Record view := View { v_ram : mem; v_con : console U; v_mmu : mmu_state }.

(** What the bootstrap processor can reach; [started] are the cores it has
    released, each with the state of the machine at that moment. *)
Record machine := Machine {
  ram : mem;
  con : console U;
  mmu : mmu_state;
  regs : cpu_regs;
  tpidr : Z;
  mp_cpus : list limine_mp_info;
  started : list (nat * view);
}.

(** The page table in physical memory; [table_phys] is where the loader put it. *)
Definition table_read (t : mmu_state) (a : Z) : Z :=
  if (table_phys <=? a) && (a <? table_phys + 4096)
  then default 0 (g_l1_table t !! Z.to_nat ((a - table_phys) / 8)) else 0.

Definition kUartPhysBase : Z := 0x09000000.
Definition kDataReg : Z := 0x00.
Definition kFlagReg : Z := 0x18.

(** This core's translation takes the UART's registers to themselves, as device
    memory. *)
Definition uart_mapped (s : machine) : bool :=
  forallb (λ r, bool_decide ((λ t, (pa t, mem_attr t)) <$>
      translate (table_read (mmu s)) (regs s) (kUartPhysBase + r) = Some (kUartPhysBase + r, 0)))
    [kDataReg; kFlagReg].

Definition on_ram {A} (f : M A) : ST machine A := λ s,
  '(a, m) ← f (ram s); Some (a, Machine m (con s) (mmu s) (regs s) (tpidr s) (mp_cpus s) (started s)).
(** An access to the console faults when the UART is not mapped. *)
Definition on_con {A} (f : ST (console U) A) : ST machine A := λ s,
  if uart_mapped s then
    '(a, c) ← f (con s); Some (a, Machine (ram s) c (mmu s) (regs s) (tpidr s) (mp_cpus s) (started s))
  else None.
Definition init_mmu (pbase vbase : Z) : ST machine unit := λ s,
  let t := mmu_init g_l1_table_address pbase vbase (mmu s) in
  Some (tt, Machine (ram s) (con s) t (regs s) (tpidr s) (mp_cpus s) (started s)).
Definition activate_core : ST machine unit := λ s,
  Some (tt, Machine (ram s) (con s) (mmu s) (activate_this_core (mmu s) (regs s)) (tpidr s)
              (mp_cpus s) (started s)).
Definition set_core_id (id : Z) : ST machine unit := λ s,
  Some (tt, Machine (ram s) (con s) (mmu s) (regs s) (write_core_id id) (mp_cpus s) (started s)).

(** One store of [smp::init]; the store of an entry point releases its core. *)
Definition mp_write (s : machine) (w : mp_store) : machine :=
  Machine (ram s) (con s) (mmu s) (regs s) (tpidr s) (do_store w (mp_cpus s))
    match w with
    | GotoAddress i _ => started s ++ [(i, View (ram s) (con s) (mmu s))]
    | ExtraArgument _ _ => started s
    end.

Definition init_smp (bsp_mpidr : Z) : ST machine unit := λ s,
  let '(id, stores) := smp_init ap_entry bsp_mpidr (mp_cpus s) in
  Some (tt, foldl mp_write
    (Machine (ram s) (con s) (mmu s) (regs s) id (mp_cpus s) (started s)) stores).
Definition get_machine : ST machine machine := λ s, Some (s, s).

(** [Released]: the other cores are running. *)
Inductive outcome := Hung | Released.

(** What the kernel and the boot loader tell each other in
    [limine_base_revision]: the kernel the revision it wants, the boot loader, by
    clearing it, that it has it. *)
Definition LIMINE_BASE_REVISION (n : Z) : list Z := [0xf9562b2d5c95a6c8; 0x6a7b384944536bdc; n].
Definition limine_base_revision : list Z := LIMINE_BASE_REVISION 6.
Definition LIMINE_BASE_REVISION_SUPPORTED (var : list Z) : bool :=
  match var !! 2%nat with Some v => v =? 0 | None => false end.

(** [base_revision] is the array as the boot loader leaves it.  The responses are
    the boot loader's: [mp] the MPIDR of the bootstrap processor, [addr] the
    physical and virtual base of the image. *)
Definition kmain (base_revision : list Z) (mp : option Z) (addr : option (Z * Z)) : ST machine outcome :=
  if negb (LIMINE_BASE_REVISION_SUPPORTED base_revision) then mret Hung
  else
    match mp, addr with
    | Some bsp_mpidr, Some (physical_base, virtual_base) =>
        init_mmu physical_base virtual_base ;;
        activate_core ;;
        on_con (print patience (lit "--- kernel output begins ---" ++ [10])) ;;
        on_ram init ;;
        on_ram percore_init ;;
        init_smp bsp_mpidr ;;
        mret Released
    | _, _ => mret Hung
    end.

(** [ap_entry(info)] on a secondary core, up to its [stop()]; the registers are
    that core's own, memory and console are shared. *)
Definition ap_entry_code (info : limine_mp_info) (line : list Z) : ST machine unit :=
  set_core_id (extra_argument info) ;;
  activate_core ;;
  s ← get_machine;
  on_con (print_ap_greeting patience line (me (tpidr s))).

(** ** Properties *)

Definition table_byte (x : Z) : Prop := g_table ≤ x < g_table + 512.

(** The [idle] pointers of the table. *)
Definition idle_byte (x : Z) : Prop := table_byte x ∧ 56 ≤ (x - g_table) mod 64.

(** The globals are mapped, apart from each other and from the heap. *)
Record globals_ok : Prop := {
  globals_tid : tid_ok g_next_tid;
  globals_table : 0 ≤ g_table ∧ g_table + 512 < 2 ^ 64 ∧ mapped_range g_table 512;
  globals_queue : 0 ≤ g_ready_queue ∧ g_ready_queue + 24 ≤ 2 ^ 64 ∧ mapped_range g_ready_queue 24;
  globals_private x : table_byte x ∨ queue_byte g_ready_queue x → ¬ alloc_private x;
  globals_table_tid x : table_byte x → ¬ tid_cell g_next_tid x;
  globals_queue_apart x : queue_byte g_ready_queue x → ¬ tid_cell g_next_tid x ∧ ¬ table_byte x;
}.

Context (HG : globals_ok).

(** A thread that has not run keeps its stack and TCB while others are made. *)
Lemma fresh_thread_keep m m' L L' t stack g :
  fresh_thread m L t stack g →
  (∀ p n, p = t ∨ p = stack → L !! p = Some n → L' !! p = Some n) →
  same_on (λ x, ∃ p n, (p = t ∨ p = stack) ∧ L !! p = Some n ∧ p ≤ x < p + n) m m' →
  fresh_thread m' L' t stack g ∧ rd64 m' (t + 8) = rd64 m (t + 8).
Proof.
  intros (tcap & scap & Ht & Hs & Hne & Htc & Hsc & R1 & R2 & Hf) HL Hsame.
  unfold kTcbSize, kStackSize, kFrameSize in *.
  assert (∀ k, 0 ≤ k ≤ 16 → rd64 m' (t + k) = rd64 m (t + k)) as Hrd.
  { intros k Hk. symmetry. apply rd64_ext. intros x Hx. apply Hsame. exists t, tcap.
    split; [by left|]. split; [done|lia]. }
  split; [|apply Hrd; lia]. exists tcap, scap. split_and!; auto.
  - specialize (Hrd 0 ltac:(lia)). rewrite Z.add_0_r in Hrd. by rewrite Hrd.
  - by rewrite Hrd by lia.
  - eapply frame_at_ext; [exact Hf|]. intros x Hx. apply Hsame. exists stack, scap.
    split; [by right|]. split; [done|]. unfold kStackSize, kFrameSize in *. lia.
Qed.

Lemma fresh_thread_keep_live m m' L L' t stack g :
  fresh_thread m L t stack g →
  (∀ p n, L !! p = Some n → L' !! p = Some n) → same_on (in_live L) m m' →
  fresh_thread m' L' t stack g ∧ rd64 m' (t + 8) = rd64 m (t + 8).
Proof.
  intros Hf HL Hs. eapply fresh_thread_keep; [done|by auto|]. intros x (p & n & _ & Hp & Hx).
  apply Hs. by exists p, n.
Qed.

(** The idle threads [ts] of the first cores are in place. *)
Definition idle_ready (m : mem) (L : gmap Z Z) (ts : list Z) : Prop :=
  NoDup ts ∧ ∀ (i : nat) t, ts !! i = Some t →
    rd64 m (g_table + 64 * Z.of_nat i + 56) = t ∧ rd64 m (t + 8) = Z.of_nat i ∧
    ∃ stack, fresh_thread m L t stack (entry_frame idle_loop 0).

Lemma idle_ready_keep m m' L L' ts :
  alloc_inv m L → idle_ready m L ts → (length ts ≤ 8)%nat →
  (∀ p n, L !! p = Some n → L' !! p = Some n) → same_on (λ x, in_live L x) m m' →
  (∀ i, (i < length ts)%nat → rd64 m' (g_table + 64 * Z.of_nat i + 56) = rd64 m (g_table + 64 * Z.of_nat i + 56)) →
  idle_ready m' L' ts.
Proof.
  intros Hinv [Hnd Hts] Hlen HL Hs Htab. split; [done|]. intros i t Hi.
  destruct (Hts i t Hi) as (R & Htid & stack & Hft). rewrite Htab by (by eapply lookup_lt_Some).
  destruct (fresh_thread_keep_live m m' L L' t stack _ Hft HL Hs) as [Hft' E].
  split; [done|]. split; [by rewrite E|by exists stack].
Qed.

Lemma idle_ready_outside m m' L L' ts :
  alloc_inv m L → idle_ready m L ts → (length ts ≤ 8)%nat →
  (∀ p n, L !! p = Some n → L' !! p = Some n) → same_on (in_live L) m m' →
  same_on table_byte m m' → idle_ready m' L' ts.
Proof.
  intros Hinv Hts Hlen HL Hs Ht. eapply (idle_ready_keep m m' L L'); try done.
  intros i Hi. symmetry. apply rd64_ext. intros x Hx. apply Ht. unfold table_byte. lia.
Qed.

Lemma idle_slot_ok i :
  0 ≤ i < 8 → idle_slot i = g_table + 64 * i + 56 ∧ mapped_range (idle_slot i) 8 ∧
  ∀ x, idle_slot i ≤ x < idle_slot i + 8 → idle_byte x.
Proof.
  intros Hi. destruct (globals_table HG) as (H1 & H2 & H3). unfold idle_slot, idle_byte, table_byte.
  rewrite u64_small by lia. split; [lia|]. split; [|intros x Hx; split; [lia|dlia] ].
  eapply mapped_range_sub; [exact H3|lia|lia].
Qed.

Lemma live_not_table m L x : alloc_inv m L → in_live L x → ¬ table_byte x.
Proof.
  intros Hinv (p & n & Hp & Hx) Ht. apply (globals_private HG x); [by left|].
  destruct (alloc_block m L p n Hinv Hp) as (_ & _ & _ & _ & Hpr). by apply Hpr.
Qed.

(** One round: core [i] gets its idle thread. *)
Lemma percore_round m L r ts :
  alloc_roomy m L r → kThreadRoom ≤ r → (length ts < 8)%nat → is_u64 idle_loop →
  idle_ready m L ts → rd64 m g_next_tid = Z.of_nat (length ts) →
  ∃ t m' L', (tcb ← make_tcb g_next_tid idle_loop; store64 (idle_slot (Z.of_nat (length ts))) tcb) m = Some (tt, m') ∧
    alloc_roomy m' L' (r - kThreadRoom) ∧ idle_ready m' L' (ts ++ [t]) ∧
    rd64 m' g_next_tid = Z.of_nat (S (length ts)) ∧
    same_on (λ x, ¬ alloc_private x ∧ ¬ tid_cell g_next_tid x ∧ ¬ idle_byte x) m m'.
Proof.
  intros Hroom Hr Hlen Hidle Hts Htid. pose proof (roomy_inv _ _ _ Hroom) as Hinv.
  destruct (make_tcb_total g_next_tid idle_loop m L r Hroom (globals_tid HG) Hidle Hr)
    as (t & m1 & L1 & E1 & Hroom1).
  destruct (make_tcb_run g_next_tid idle_loop m L t m1 Hinv (globals_tid HG) Hidle E1)
    as (stack & L1' & Hinv1 & Hft & Hnt & Hns & HL & Rt & Rn & Hs).
  rewrite (alloc_agree _ _ _ (roomy_inv _ _ _ Hroom1) Hinv1) in Hroom1. clear L1.
  set (i := Z.of_nat (length ts)) in *. destruct (idle_slot_ok i ltac:(lia)) as (Eslot & Hmap & Hslot).
  set (m2 := wr64 m1 (idle_slot i) t).
  assert (∀ p n, L !! p = Some n → L1' !! p = Some n) as HLL.
  { intros p n Hp. rewrite <- HL in Hp. by do 2 apply lookup_delete_Some in Hp as [_ Hp]. }
  assert (same_on (λ x, ¬ idle_byte x) m1 m2) as Hs2.
  { intros x Hx. symmetry. apply rd_wr64_out.
    destruct (decide (idle_slot i ≤ x < idle_slot i + 8)) as [Hin|]; [by apply Hslot in Hin|lia]. }
  assert (∀ x, in_live L1' x → ¬ idle_byte x) as Hlt
    by (intros x Hx [Ht _]; by eapply live_not_table).
  destruct (fresh_thread_block _ _ _ _ _ Hinv1 Hft) as (_ & Hp1 & Hb1 & _).
  exists t, m2, L1'. split; [mstep E1; by rewrite store64_run|]. split.
  { eapply (roomy_others m1 m2 _ _ idle_byte); [done| |done].
    intros x [Hx _]. right. apply (globals_private HG). by left. }
  assert (idle_ready m2 L1' ts) as Hts2.
  { eapply (idle_ready_keep m m2 L L1'); try done; [lia| |].
    - intros x Hx. rewrite (Hs x).
      + apply Hs2, Hlt. destruct Hx as (p & n & Hp & Hx). exists p, n. auto.
      + split; [by left|]. eapply (live_not_tid g_next_tid m L); [done|apply HG|done].
    - intros j Hj. transitivity (rd64 m1 (g_table + 64 * Z.of_nat j + 56)).
      + apply rd64_wr64_ne. lia.
      + symmetry. apply rd64_ext. intros x Hx. assert (table_byte x) by (unfold table_byte; lia).
        apply Hs. split; [right; apply (globals_private HG); by left|by apply (globals_table_tid HG)]. }
  destruct (fresh_thread_keep_live m1 m2 L1' L1' t stack _ Hft) as [Hft2 Et]; [done| |].
  { intros x Hx. by apply Hs2, Hlt. }
  split; [|split].
  - destruct Hts as [_ Hts], Hts2 as [Hnd2 Hts2]. split.
    + apply NoDup_app. split; [done|]. split; [|apply NoDup_singleton].
      intros x Hx ->%list_elem_of_singleton. apply list_elem_of_lookup in Hx as [j Hj].
      destruct (Hts j t Hj) as (_ & _ & st' & tcap & scap & Hl & _). congruence.
    + intros j x Hj. apply lookup_app_Some in Hj as [Hj|[Hj Hx]]; [by apply Hts2|].
      apply list_lookup_singleton_Some in Hx as [Hj0 <-].
      assert (Z.of_nat j = i) as -> by lia. split; [|split; [by rewrite Et, Rt|by exists stack]].
      rewrite <- Eslot. apply rd64_wr64_eq. lia.
  - transitivity (rd64 m1 g_next_tid).
    + symmetry. apply rd64_ext. intros x Hx. apply Hs2. intros [Hx' _]. by apply (globals_table_tid HG x).
    + rewrite Rn, Htid, u64_small by lia. lia.
  - intros x (Hx1 & Hx2 & Hx3). rewrite (Hs x) by (split; [by right|done]). by apply Hs2.
Qed.

Lemma percore_loop_run n : ∀ m L r ts,
  alloc_roomy m L r → Z.of_nat n * kThreadRoom ≤ r → (length ts + n ≤ 8)%nat → is_u64 idle_loop →
  idle_ready m L ts → rd64 m g_next_tid = Z.of_nat (length ts) →
  ∃ ts' m' L', percore_loop n (Z.of_nat (length ts)) m = Some (tt, m') ∧
    alloc_roomy m' L' (r - Z.of_nat n * kThreadRoom) ∧ idle_ready m' L' ts' ∧
    length ts' = (length ts + n)%nat ∧ rd64 m' g_next_tid = Z.of_nat (length ts') ∧
    same_on (λ x, ¬ alloc_private x ∧ ¬ tid_cell g_next_tid x ∧ ¬ idle_byte x) m m'.
Proof.
  induction n as [|n IH]; intros m L r ts Hroom Hr Hlen Hidle Hts Htid.
  - exists ts, m, L. rewrite Z.sub_0_r, Nat.add_0_r. by split_and!.
  - assert (0 ≤ kThreadRoom) by done. rewrite Nat2Z.inj_succ, Z.mul_succ_l in *.
    assert (0 ≤ Z.of_nat n * kThreadRoom) by lia.
    destruct (percore_round m L r ts) as (t & m1 & L1 & E1 & Hroom1 & Hts1 & Htid1 & Hs1); try done; try lia.
    destruct (IH m1 L1 (r - kThreadRoom) (ts ++ [t])) as (ts' & m' & L' & E' & Hroom' & Hts' & Hl' & Htid' & Hs');
      rewrite ?length_app; simpl length; try done; try lia.
    exists ts', m', L'. split.
    { cbn [percore_loop]. rewrite <- bind_assoc_run. rewrite (bind_run _ _ _ _ _ E1).
      rewrite length_app in E'. simpl length in E'. rewrite <- E'. f_equal. lia. }
    rewrite length_app in Hl'. simpl length in Hl'. split; [|split; [done|split; [lia|split; [done|]]]].
    + replace (r - (Z.of_nat n * kThreadRoom + kThreadRoom)) with (r - kThreadRoom - Z.of_nat n * kThreadRoom) by lia. done.
    + intros x Hx. rewrite (Hs1 x Hx). by apply Hs'.
Qed.

(** [g_ready_queue] as the loader leaves it: zero. *)
Definition queue_zero (m : mem) : Prop :=
  rd m g_ready_queue = 0 ∧ rd64 m (g_ready_queue + 8) = 0 ∧ rd64 m (g_ready_queue + 16) = 0.

Lemma queue_zero_rep m L : queue_zero m → queue_rep m L g_ready_queue [] [].
Proof.
  intros (H1 & H2 & H3). destruct (globals_queue HG) as (Q1 & Q2 & Q3).
  split; [done|]. split; [done|]. split; [done|]. split; [split; [apply NoDup_nil_2|by intros n Hn%elem_of_nil]|].
  split_and!; try done. intros x Hx. split; [left; apply (globals_private HG); by right|].
  by intros (n & Hn%elem_of_nil & _).
Qed.

Lemma queue_zero_keep m m' :
  queue_zero m → same_on (queue_byte g_ready_queue) m m' → queue_zero m'.
Proof.
  intros (H1 & H2 & H3) Hs. unfold queue_byte in Hs. split_and!.
  - rewrite <- (Hs g_ready_queue) by lia. done.
  - rewrite <- H2. symmetry. apply rd64_ext. intros x Hx. apply Hs. lia.
  - rewrite <- H3. symmetry. apply rd64_ext. intros x Hx. apply Hs. lia.
Qed.

Lemma ready_object m L ns :
  alloc_inv m L → nodes_ok L ns → object_ok L g_ready_queue ns.
Proof.
  intros Hinv Hns. destruct (globals_queue HG) as (Q1 & Q2 & Q3). split_and!; try done.
  intros x Hx. assert (¬ alloc_private x) as Hp by (apply (globals_private HG); by right).
  split; [by left|]. intros Hn. eapply (others_not_node m L ns x); [done..|by left|done].
Qed.

Lemma ready_kept m m' L L' ns vs :
  alloc_inv m L → alloc_inv m' L' → queue_rep m L g_ready_queue ns vs →
  (∀ p n, L !! p = Some n → L' !! p = Some n) →
  same_on (λ x, stable L x ∧ ¬ tid_cell g_next_tid x) m m' →
  queue_rep m' L' g_ready_queue ns vs.
Proof.
  intros Hinv Hinv' Hq HL Hs. pose proof Hq as (_ & _ & _ & Hns & _).
  assert (nodes_ok L' ns) as Hns'.
  { destruct Hns as [Hnd Hns]. split; [done|]. intros n Hn. destruct (Hns n Hn) as (cap & ? & ?). eauto. }
  eapply queue_rep_frame; [exact Hq| |done|by eapply ready_object]. intros x [Hx|Hx]; apply Hs.
  - split; [right; apply (globals_private HG); by right|by apply (globals_queue_apart HG)].
  - assert (in_live L x) by by eapply node_byte_live. split; [by left|].
    eapply (live_not_tid g_next_tid m L); [done|apply HG|done].
Qed.

(** C21: [threads::go(func)] starts a thread.  With room for it in the heap and
    any threads in the ready queue, it returns; there is one new TCB with a stack,
    numbered with the next thread id, whose first switch enters the trampoline with
    [func]; it is the last of the ready queue, behind the threads that were
    there; the allocator is in order and no other object has changed. *)
Theorem go_appends_thread func m L r ns vs :
  alloc_roomy m L r → kThreadRoom + 96 ≤ r → is_u64 thread_trampoline → is_u64 func →
  queue_rep m L g_ready_queue ns vs →
  ∃ t stack node m' L', go_thread func m = Some (tt, m') ∧ alloc_inv m' L' ∧
    L !! t = None ∧ L !! stack = None ∧ (∀ p n, L !! p = Some n → L' !! p = Some n) ∧
    fresh_thread m' L' t stack (entry_frame thread_trampoline func) ∧
    rd64 m' (t + 8) = rd64 m g_next_tid ∧
    queue_rep m' L' g_ready_queue (ns ++ [node]) (vs ++ [t]) ∧
    same_on (λ x, others L ns x ∧ ¬ queue_byte g_ready_queue x ∧ ¬ tid_cell g_next_tid x) m m'.
Proof.
  intros Hroom Hr Htr Hfu Hq. pose proof (roomy_inv _ _ _ Hroom) as Hinv.
  destruct (make_thread_tcb_total g_next_tid thread_trampoline func m L r Hroom (globals_tid HG) Htr
    ltac:(lia)) as (t & m1 & L1 & E1 & Hroom1).
  destruct (make_thread_tcb_run g_next_tid thread_trampoline func m L t m1 Hinv (globals_tid HG) Htr Hfu E1)
    as (stack & L1' & Hinv1 & Hft & Hnt & Hns & HL & Rt & _ & Hs).
  rewrite (alloc_agree _ _ _ (roomy_inv _ _ _ Hroom1) Hinv1) in Hroom1. clear L1.
  assert (∀ p n, L !! p = Some n → L1' !! p = Some n) as HLL.
  { intros p n Hp. rewrite <- HL in Hp. by do 2 apply lookup_delete_Some in Hp as [_ Hp]. }
  destruct (alloc_total m1 L1' kNodeSize _ Hroom1) as (node & m2 & L2 & E2 & _);
    [done|unfold kNodeSize; lia|].
  destruct (fresh_thread_block _ _ _ _ _ Hinv1 Hft) as (_ & Hp1 & Hb1 & _).
  pose proof (ready_kept m m1 L L1' ns vs Hinv Hinv1 Hq HLL Hs) as Hq1.
  destruct (push_run m1 L1' g_ready_queue ns vs t node m2 Hinv1 Hq1 ltac:(split; lia) E2)
    as (m3 & cap & E3 & Hinv3 & Hq3 & Hs3).
  assert (L1' !! node = None) as Hnn.
  { destruct (alloc_spec m1 L1' kNodeSize node m2 Hinv1) as (c & _ & ? & _); done. }
  assert (∀ p n, L1' !! p = Some n → <[node := cap]> L1' !! p = Some n) as HL3.
  { intros p n Hp. rewrite lookup_insert_ne; [done|congruence]. }
  assert (∀ p, L !! p = None → p ∉ ns) as Hnew.
  { intros p Hp Hin. destruct Hq as (_ & _ & _ & (_ & Hok) & _). destruct (Hok p Hin) as (c & _ & ?). congruence. }
  destruct (fresh_thread_keep m1 m3 L1' (<[node := cap]> L1') t stack _ Hft) as [Hft3 Et]; [by eauto| |].
  { intros x (p & n & Hp & HLp & Hx). apply Hs3. split.
    - right. exists p, n. split; [|done]. apply Hnew. by destruct Hp as [->| ->].
    - intros Hqx. apply (globals_private HG x); [by right|].
      destruct (alloc_block m1 L1' p n Hinv1 HLp) as (_ & _ & _ & _ & Hpr). by apply Hpr. }
  exists t, stack, node, m3, (<[node := cap]> L1'). split; [unfold go_thread; by mstep E1|].
  split_and!; try done; [by eauto|by rewrite Et, Rt|]. intros x (Hx & Hxq & Hxt).
  rewrite (Hs x) by (split; [by eapply others_stable|done]). apply Hs3. split; [|done].
  destruct Hx as [Hx|(p & n & Hp & HLp & Hx)]; [by left|right]. exists p, n. auto.
Qed.

(** After [heap::init()] the whole arena is free and nothing else has changed. *)
Lemma init_roomy m :
  rd m g_lock = 0 →
  ∃ m', init m = Some (tt, m') ∧ alloc_roomy m' ∅ kArenaSize ∧
    same_on (λ x, ¬ alloc_private x) m m'.
Proof.
  intros Hl. rewrite init_run. eexists. split; [done|]. split.
  - exists [Blk kArenaSize false]. split; [by apply (init_rep m); [|apply init_run]|]. split; [done|].
    right. eexists. split; [by left|]. simpl. done.
  - intros x Hx. symmetry. apply rd_put_tags_block; [done|].
    destruct (decide (g_arena ≤ x < g_arena + kArenaSize)) as [|]; [|simpl; lia].
    exfalso. apply Hx. by left.
Qed.

(** The memory from which [kmain] starts: the lock of the heap, the thread-id
    counter, [percore::g_table] and the ready queue are zero. *)
Definition ram_zero (m : mem) : Prop :=
  rd m g_lock = 0 ∧ rd64 m g_next_tid = 0 ∧ (∀ x, table_byte x → rd m x = 0) ∧ queue_zero m.

(** [g_table[c]] holds the scheduler's record [p]; [a] gives the addresses of the
    TCBs, [q] and [l] those of the semaphores' queues and locks. *)
Definition percore_rep (m : mem) (a : Sched.tcb → Z) (q l : Sched.sem_id → Z) (c : nat)
    (p : Sched.PerCore) : Prop :=
  let field k := rd64 m (g_table + 64 * Z.of_nat c + k) in
  field 0 = from_option a 0 (Sched.prev p) ∧ field 8 = from_option a 0 (Sched.to_delete p) ∧
  field 16 = from_option a 0 (Sched.to_reschedule p) ∧ field 24 = from_option a 0 (Sched.to_queue p) ∧
  field 32 = from_option q 0 (Sched.to_add_to p) ∧ field 40 = from_option l 0 (Sched.to_unlock p) ∧
  field 48 = from_option a 0 (Sched.curr p) ∧ field 56 = from_option a 0 (Sched.idle p).

(** The memory holds the state [st] of the scheduler: TCB number [t] is at [a t]
    and carries its number; a TCB that is to enter [idle_loop] has a stack
    prepared for that. *)
Definition represents (m : mem) (st : Sched.state) : Prop :=
  ∃ L a ns, alloc_inv m L ∧
    (∀ q l c, (c < kMaxCores)%nat → percore_rep m a q l c (Sched.pc (Sched.cores st c))) ∧
    queue_rep m L g_ready_queue ns (a <$> Sched.ready st) ∧
    (∀ t t', is_Some (Sched.threads st !! t) → is_Some (Sched.threads st !! t') → a t = a t' → t = t') ∧
    (∀ t, Sched.threads st !! t = Some (Sched.Saved Sched.IdleEntry) →
       rd64 m (a t + 8) = Z.of_nat t ∧ ∃ stack, fresh_thread m L (a t) stack (entry_frame idle_loop 0)).

Lemma idle_threads_lookup t k :
  Sched.idle_threads !! t = Some k → (t < kMaxCores)%nat ∧ k = Sched.Saved Sched.IdleEntry.
Proof.
  unfold Sched.idle_threads. intros Hk. apply elem_of_list_to_map_2 in Hk.
  apply list_elem_of_fmap in Hk as (c & [= -> ->] & Hc%elem_of_seq). split; [lia|done].
Qed.

(** [heap::init] and [percore::init] make the scheduler's initial state. *)
Lemma init_percore m start :
  ram_zero m → is_u64 idle_loop →
  ∃ m1 m2, init m = Some (tt, m1) ∧ percore_init m1 = Some (tt, m2) ∧
    represents m2 (Sched.booted start).
Proof.
  intros (Hl & Ht & Hz & Hq) Hi. destruct (init_roomy m Hl) as (m1 & E1 & Hroom1 & Hs1).
  destruct (globals_tid HG) as (_ & _ & Hpriv).
  destruct (percore_loop_run 8 m1 ∅ kArenaSize []) as (ts & m2 & L2 & E2 & Hroom2 & [Hnd Hts] & Hl2 & Ht2 & Hs2);
    try done; try (simpl; lia).
  { split; [apply NoDup_nil_2|]. intros i t Hx. done. }
  { transitivity (rd64 m g_next_tid); [|done]. symmetry. apply rd64_ext. intros x Hx. apply Hs1, Hpriv. done. }
  assert (∀ x, table_byte x → ¬ idle_byte x → rd m2 x = 0) as Hz2.
  { intros x Hx Hni. rewrite <- (Hz x Hx), (Hs1 x) by (apply (globals_private HG); by left).
    symmetry. apply Hs2. split; [apply (globals_private HG); by left|].
    split; [by apply (globals_table_tid HG)|done]. }
  assert (queue_zero m2) as Hq2.
  { eapply queue_zero_keep; [exact Hq|]. intros x Hx. rewrite (Hs1 x) by (apply (globals_private HG); by right).
    apply Hs2. split; [apply (globals_private HG); by right|].
    destruct (globals_queue_apart HG x Hx) as [? Hnt]. split; [done|]. by intros [? _]. }
  exists m1, m2. split; [done|]. split; [done|].
  assert (∀ c, (c < kMaxCores)%nat → ts !! c = Some (default 0 (ts !! c))) as Hat.
  { intros c Hc. destruct (lookup_lt_is_Some_2 ts c) as [x ->]; [rewrite Hl2; exact Hc|done]. }
  exists L2, (λ t : nat, default 0 (ts !! t)), []. split; [by eapply roomy_inv|].
  split; [|split; [by apply queue_zero_rep|split] ].
  - intros q l c Hc. assert (∀ k, 0 ≤ k ≤ 48 → rd64 m2 (g_table + 64 * Z.of_nat c + k) = 0) as H0.
    { intros k Hk. unfold kMaxCores in Hc. unfold rd64. cbn [rd_bytes].
      rewrite !Hz2; [done|..]; unfold idle_byte, table_byte; (lia || (intros [_ Hb]; dlia)). }
    unfold percore_rep. simpl. rewrite !H0 by lia. split_and!; try done.
    by destruct (Hts c _ (Hat c Hc)) as [-> _].
  - intros t t' [k Hk] [k' Hk']. apply idle_threads_lookup in Hk as [Hc _], Hk' as [Hc' _].
    cbv beta.
    intros Heq. pose proof (Hat t Hc) as H1. pose proof (Hat t' Hc') as H2. rewrite <- Heq in H2.
    by eapply NoDup_lookup.
  - intros t Hk. apply idle_threads_lookup in Hk as [Hc _]. by destruct (Hts t _ (Hat t Hc)) as (_ & ? & ?).
Qed.

(** ** The map of the UART *)

Section Mapped.
Context (pbase vbase : Z).
Hypothesis TABLE : table_phys = g_l1_table_address -₆₄ vbase +₆₄ pbase.
Let t := mmu_init g_l1_table_address pbase vbase mmu_boot.

Lemma table_in_place i : (i < 512)%nat →
  Some (table_read t (g_l1_table_phys t + 8 * Z.of_nat i)) = g_l1_table t !! i.
Proof.
  intros Hi. change (g_l1_table_phys t) with (g_l1_table_address -₆₄ vbase +₆₄ pbase).
  rewrite <- TABLE. unfold table_read.
  rewrite (proj2 (Z.leb_le _ _)), (proj2 (Z.ltb_lt _ _)) by lia. cbn [andb].
  replace (table_phys + 8 * Z.of_nat i - table_phys) with (Z.of_nat i * 8) by lia.
  rewrite Z.div_mul, Nat2Z.id by lia.
  destruct (lookup_lt_is_Some_2 (g_l1_table t) i) as [x ->]; [|done].
  unfold t, mmu_init, mmu_boot. cbn [g_l1_table]. by rewrite length_insert, length_replicate.
Qed.

Lemma uart_mapped_after m c r0 id cpus l : uart_mapped (Machine m c t (activate_this_core t r0) id cpus l) = true.
Proof.
  unfold uart_mapped. apply forallb_forall. intros r Hr. apply bool_decide_eq_true. simpl mmu. simpl regs.
  unfold t. rewrite low_gib_mapped by (apply table_in_place). destruct Hr as [<-|[<-|[] ] ]; done.
Qed.
End Mapped.

Lemma on_con_run {A} (f : ST (console U) A) a c s :
  uart_mapped s = true → f (con s) = Some (a, c) →
  on_con f s = Some (a, Machine (ram s) c (mmu s) (regs s) (tpidr s) (mp_cpus s) (started s)).
Proof. unfold on_con. by intros -> ->. Qed.

Lemma on_ram_run {A} (f : M A) a m s :
  f (ram s) = Some (a, m) →
  on_ram f s = Some (a, Machine m (con s) (mmu s) (regs s) (tpidr s) (mp_cpus s) (started s)).
Proof. unfold on_ram. by intros ->. Qed.

(** The stores of [smp::init] release cores and touch nothing else. *)
Lemma mp_writes ws : ∀ s,
  foldl mp_write s ws =
    Machine (ram s) (con s) (mmu s) (regs s) (tpidr s) (do_stores ws (mp_cpus s))
      (started s ++ (omap (λ w, match w with GotoAddress i _ => Some (i, View (ram s) (con s) (mmu s))
                                             | ExtraArgument _ _ => None end) ws)).
Proof.
  induction ws as [|w ws IH]; intros s; cbn [foldl].
  - destruct s. simpl. by rewrite app_nil_r.
  - rewrite IH. destruct w as [i v|i a]; simpl; [done|]. by rewrite <- app_assoc.
Qed.

Lemma release_loop_started {A} (v : A) b n : ∀ i,
  omap (λ w, match w with GotoAddress i _ => Some (i, v) | ExtraArgument _ _ => None end)
    (release_loop ap_entry (Z.of_nat b) n i) =
  (λ j, (j, v)) <$> filter (λ j, j ≠ b) (seq i n).
Proof.
  induction n as [|n IH]; intros i; [done|]. cbn [release_loop seq]. rewrite filter_cons.
  destruct (Z.eqb_spec (Z.of_nat i) (Z.of_nat b)) as [E|E].
  - rewrite decide_False by lia. apply IH.
  - rewrite decide_True by lia. rewrite omap_app. simpl. by rewrite IH.
Qed.

(** The way through [kmain]. *)
Lemma kmain_run m u t r id0 cpus bsp pbase vbase u1 m1 m2 id stores :
  let t' := mmu_init g_l1_table_address pbase vbase t in
  uart_mapped (Machine m (Console false u) t' (activate_this_core t' r) id0 cpus []) = true →
  print patience (lit "--- kernel output begins ---" ++ [10]) (Console false u) = Some (tt, Console false u1) →
  init m = Some (tt, m1) → percore_init m1 = Some (tt, m2) →
  smp_init ap_entry bsp cpus = (id, stores) →
  kmain (<[2%nat := 0]> limine_base_revision) (Some bsp) (Some (pbase, vbase))
    (Machine m (Console false u) t r id0 cpus []) =
  Some (Released, Machine m2 (Console false u1) t' (activate_this_core t' r) id (do_stores stores cpus)
    (omap (λ w, match w with GotoAddress i _ => Some (i, View m2 (Console false u1) t')
                           | ExtraArgument _ _ => None end) stores)).
Proof.
  intros t' Hu Ep E1 E2 Es. unfold kmain. change (LIMINE_BASE_REVISION_SUPPORTED _) with true. cbn [negb].
  erewrite bind_run by done. erewrite bind_run by done. cbn [mmu con ram regs tpidr mp_cpus started].
  fold t'. erewrite bind_run by (apply on_con_run; [exact Hu|exact Ep]).
  erewrite bind_run by (by apply on_ram_run). erewrite bind_run by (by apply on_ram_run).
  erewrite bind_run by (unfold init_smp; cbn [mp_cpus]; rewrite Es, mp_writes; reflexivity). reflexivity.
Qed.

(** C18: the kernel boots.  With responses to its requests, and at most
    [kMaxCores] cores, [kmain] starts from the memory the loader leaves and
    releases the other cores, each of them once.  Every core that it releases
    finds the page table built, the console free, the marker as the only output,
    and in memory the initial state of the scheduler: the heap in order, the
    ready queue empty, and in its entry of [g_table] the idle thread made for it.
    The console is never used before the UART is mapped.  When the boot loader has
    not accepted the base revision, or has not answered a request, [kmain] hangs
    and has touched nothing. *)
Theorem kernel_boots {LAWS : UartLaws U patience} m u r id0 cpus bsp pbase vbase start :
  ram_zero m → is_u64 idle_loop → table_phys = g_l1_table_address -₆₄ vbase +₆₄ pbase →
  (length cpus ≤ kMaxCores)%nat → Forall (λ c, goto_address c = 0) cpus → bsp ∈ mpidr <$> cpus →
  let s := Machine m (Console false u) mmu_boot r id0 cpus [] in
  (∃ s' b, kmain (<[2%nat := 0]> limine_base_revision) (Some bsp) (Some (pbase, vbase)) s = Some (Released, s') ∧
     mpidr <$> cpus !! b = Some bsp ∧ me (tpidr s') = Z.of_nat b ∧
     (∀ i c, mp_cpus s' !! i = Some c → i ≠ b → goto_address c = ap_entry) ∧
     fst <$> started s' = filter (λ i, i ≠ b) (seq 0 (length cpus)) ∧
     ∀ v, v = View (ram s') (con s') (mmu s') ∨ v ∈ snd <$> started s' →
       represents (v_ram v) (Sched.booted start) ∧
       v_mmu v = mmu_init g_l1_table_address pbase vbase mmu_boot ∧
       c_lock (v_con v) = false ∧
       sent (uart (v_con v)) = sent u ++ lit "--- kernel output begins ---" ++ [13; 10]) ∧
  (∀ rev mp addr, rev = limine_base_revision ∨ mp = None ∨ addr = None →
     kmain rev mp addr s = Some (Hung, s)).
Proof.
  intros Hm Hi HT Hlen Hz Hin s. split.
  - destruct (init_percore m start Hm Hi) as (m1 & m2 & E1 & E2 & Hrep).
    destruct (smp_init_run ap_entry bsp cpus) as (b & info & Es & Hl & Hmp & Hme & H0);
      [unfold kMaxCores in Hlen; lia|done..|].
    destruct (print_run (lit "--- kernel output begins ---" ++ [10]) u) as (u1 & Ep & Sp);
      [by repeat constructor|].
    pose proof (uart_mapped_after pbase vbase HT m (Console false u) r id0 cpus []) as Hu.
    eexists _, b. split; [by apply (kmain_run m u mmu_boot r id0 cpus bsp pbase vbase u1 m1 m2)|].
    cbn [ram con mmu tpidr mp_cpus started]. split; [by rewrite Hl, <- Hmp|]. split; [done|].
    split; [intros i c Hi' Hne; by eapply released_all|]. rewrite release_loop_started. split.
    { rewrite <- list_fmap_compose. apply list_fmap_id. }
    assert (∀ v, v = View m2 (Console false u1) (mmu_init g_l1_table_address pbase vbase mmu_boot) →
      represents (v_ram v) (Sched.booted start) ∧
      v_mmu v = mmu_init g_l1_table_address pbase vbase mmu_boot ∧ c_lock (v_con v) = false ∧
      sent (uart (v_con v)) = sent u ++ lit "--- kernel output begins ---" ++ [13; 10]) as Hv
      by (intros v ->; by split_and!).
    intros v [->|Hst]; [by apply Hv|]. apply Hv. rewrite <- list_fmap_compose in Hst.
    by apply list_elem_of_fmap in Hst as (? & -> & _).
  - intros rev mp addr [->|[->| ->] ]; [done| |]; unfold kmain.
    + by destruct (LIMINE_BASE_REVISION_SUPPORTED rev).
    + by destruct (LIMINE_BASE_REVISION_SUPPORTED rev), mp.
Qed.
End Boot.

(** ** Secondary cores *)

Section Secondary.
Context {U : Type} {UA : Uart U} {patience : nat} {LAWS : UartLaws U patience}.

(** A secondary core comes up.  At whatever store of [smp::init] core [i] sees
    its entry point, [ap_entry] gives it the id [i], maps the console for it with
    the table the bootstrap processor built, greets with that id (with the console
    to itself: see Console.v for several cores) and goes on to [stop()]; the
    memory is as it was. *)
Theorem secondary_core_starts ap_entry bsp cpus stores id ws (i : nat) info line s
    table_phys table_vaddr pbase vbase :
  smp_init ap_entry bsp cpus = (id, stores) → Z.of_nat (length cpus) < 2 ^ 32 →
  Forall (λ c, goto_address c = 0) cpus → bsp ∈ mpidr <$> cpus → ws `prefix_of` stores →
  do_stores ws cpus !! i = Some info → goto_address info ≠ 0 →
  length line = 48%nat → Forall is_byte line → c_lock (con s) = false →
  table_phys = table_vaddr -₆₄ vbase +₆₄ pbase → mmu s = mmu_init table_vaddr pbase vbase mmu_boot →
  ∃ s', ap_entry_code patience table_phys info line s = Some (tt, s') ∧
    me (tpidr s') = Z.of_nat i ∧ regs s' = activate_this_core (mmu s) (regs s) ∧
    ram s' = ram s ∧ c_lock (con s') = false ∧
    sent (uart (con s')) = sent (uart (con s)) ++
      lit "Hello from core " ++ decimal (Z.of_nat i) ++ lit ", online!" ++ [13; 10].
Proof.
  intros Hinit Hlen Hz Hin Hp Hi Hg Hll Hlb Hl HT Hmmu.
  destruct (smp_init_run ap_entry bsp cpus Hlen Hz Hin) as (b & binfo & E & _ & _ & _ & H0).
  rewrite E in Hinit. injection Hinit as <- <-.
  destruct (release_loop_prefix ap_entry b (length cpus) ws 0 cpus H0 Hp i info Hi Hg) as (_ & He & _).
  apply lookup_lt_Some in Hi. rewrite do_stores_length in Hi.
  assert (me (extra_argument info) = Z.of_nat i) as Hme.
  { rewrite He. unfold me, read_core_id, u32. apply Z.mod_small. lia. }
  destruct s as [m [l u] t r id0 cp st]. simpl in Hl, Hmmu. subst l t.
  destruct (greeting_run (patience := patience) line (Z.of_nat i) u) as (u' & Eg & Sg);
    [done|done|unfold is_u32; lia|].
  eexists. split.
  { unfold ap_entry_code. erewrite bind_run by done. erewrite bind_run by done.
    erewrite bind_run by done. simpl tpidr. unfold write_core_id. rewrite Hme.
    apply on_con_run; [by apply uart_mapped_after|exact Eg]. }
  simpl. unfold write_core_id. split_and!; done.
Qed.
End Secondary.

(** ** A concrete image

    The globals just below the heap's arena, two cores, a UART that is always
    ready after one poll. *)

#[local] Instance image_space : AddressSpace :=
  λ a, (0xffffffff80100000 <=? a) && (a <? 0xffffffff80400000).

#[local] Instance image_layout : HeapLayout.
Proof.
  unshelve refine {| heap_arena :=
    {| g_arena := 0xffffffff80200000; g_lock := 0xffffffff801ff000 |} |}.
  - reflexivity.
  - unfold kArenaSize. lia.
  - reflexivity.
  - unfold kArenaSize. lia.
  - intros x Hx. simpl in Hx. unfold mapped, image_space, kArenaSize in *. apply andb_true_intro.
    rewrite Z.leb_le, Z.ltb_lt. lia.
Defined.

Definition image_tid : Z := 0xffffffff80100000.
Definition image_table : Z := 0xffffffff80100040.
Definition image_queue : Z := 0xffffffff80100400.

Lemma image_private x : 0xffffffff80100000 ≤ x < 0xffffffff80101000 → ¬ alloc_private x.
Proof. intros Hx [Ha|Ha]; unfold g_arena, g_lock, image_layout in Ha; simpl in Ha; lia. Qed.

Lemma image_mapped a n : 0xffffffff80100000 ≤ a → a + n ≤ 0xffffffff80101000 → mapped_range a n.
Proof.
  intros ?? x Hx. unfold mapped, image_space. apply andb_true_intro. rewrite Z.leb_le, Z.ltb_lt. lia.
Qed.

Lemma image_globals : globals_ok image_tid image_table image_queue.
Proof.
  unfold image_tid, image_table, image_queue.
  split; unfold tid_ok, tid_cell, table_byte, queue_byte, is_u64.
  - split; [lia|]. split; [apply image_mapped; lia|]. intros x Hx. apply image_private. lia.
  - split; [lia|]. split; [lia|apply image_mapped; lia].
  - split; [lia|]. split; [lia|apply image_mapped; lia].
  - intros x Hx. apply image_private. lia.
  - lia.
  - lia.
Qed.

Definition two_cores : list limine_mp_info := [MpInfo 0 0 0; MpInfo 1 0 0].

Lemma image_zero : ram_zero image_tid image_table image_queue ∅.
Proof. split; [reflexivity|]. split; [reflexivity|]. split; [done|]. split_and!; reflexivity. Qed.

(** The page table at 0x40380000 in physical memory. *)
Lemma kernel_boots_witness :
  ∃ s', kmain 1 image_tid image_table 0xffffffff80300000 0x40380000 1000 3000
      (<[2%nat := 0]> limine_base_revision) (Some 0) (Some (0x40080000, 0xffffffff80000000))
      (Machine ∅ (Console false ([], false)) mmu_boot (CpuRegs 0 0 0) 0 two_cores []) = Some (Released, s') ∧
    fst <$> started s' = [1%nat] ∧ me (tpidr s') = 0.
Proof.
  destruct (kernel_boots 1 image_tid image_table image_queue 0xffffffff80300000 0x40380000 1000 3000
    image_globals ∅ ([], false) (CpuRegs 0 0 0) 0 two_cores 0 0x40080000 0xffffffff80000000 (λ _, 0))
    as [(s' & b & E & Hb & Hme & _ & Hst & _) _].
  - exact image_zero.
  - vm_compute. split; congruence.
  - reflexivity.
  - vm_compute. lia.
  - repeat constructor.
  - left.
  - assert (b = 0%nat) as ->.
    { destruct b as [|[|b]]; [reflexivity|simpl in Hb; discriminate Hb|discriminate Hb]. }
    exists s'. split; [exact E|]. split; [rewrite Hst; reflexivity|exact Hme].
Defined.

Lemma secondary_core_starts_witness :
  ∃ s', ap_entry_code 1 0x40380000 (MpInfo 1 4096 1) (replicate 48 7)
      (Machine ∅ (Console false ([], false)) (mmu_init 0xffffffff80300000 0x40080000 0xffffffff80000000 mmu_boot)
         (CpuRegs 0 0 0) 0 two_cores []) = Some (tt, s') ∧
    me (tpidr s') = 1 ∧ sent (uart (con s')) = lit "Hello from core 1, online!" ++ [13; 10].
Proof.
  destruct (secondary_core_starts (patience := 1) 4096 0 two_cores (snd (smp_init 4096 0 two_cores))
    (fst (smp_init 4096 0 two_cores)) (snd (smp_init 4096 0 two_cores)) 1 (MpInfo 1 4096 1)
    (replicate 48 7) (Machine ∅ (Console false ([], false))
      (mmu_init 0xffffffff80300000 0x40080000 0xffffffff80000000 mmu_boot) (CpuRegs 0 0 0) 0 two_cores [])
    0x40380000 0xffffffff80300000 0x40080000 0xffffffff80000000)
    as (s' & E & Hm & _ & _ & _ & Hs).
  - reflexivity.
  - simpl. lia.
  - repeat constructor.
  - left.
  - exists []. reflexivity.
  - reflexivity.
  - discriminate.
  - reflexivity.
  - apply Forall_replicate. unfold is_byte. lia.
  - reflexivity.
  - reflexivity.
  - reflexivity.
  - exists s'. split; [exact E|]. split; [exact Hm|]. rewrite Hs. reflexivity.
Defined.

(** A thread started on the empty heap, with nothing in the ready queue. *)
Lemma go_appends_thread_witness :
  ∃ m0 m' t node, init ∅ = Some (tt, m0) ∧
    go_thread image_tid image_queue 2000 4000 m0 = Some (tt, m') ∧
    rd64 m' (image_queue + 8) = node ∧ rd64 m' node = t ∧ rd64 m' (t + 8) = 0.
Proof.
  destruct (init_roomy ∅) as (m0 & E0 & Hroom & Hs); [reflexivity|].
  assert (queue_zero image_queue m0) as Hq.
  { apply (queue_zero_keep image_queue ∅); [split_and!; reflexivity|]. intros x Hx. apply Hs.
    apply (globals_private _ _ _ image_globals). by right. }
  destruct (go_appends_thread image_tid image_table image_queue 2000 image_globals 4000 m0 ∅ kArenaSize [] [])
    as (t & stack & node & m' & L' & E & _ & _ & _ & _ & _ & Rt & (Hl & _) & _).
  - exact Hroom.
  - vm_compute. congruence.
  - vm_compute. split; congruence.
  - vm_compute. split; congruence.
  - exact (queue_zero_rep _ _ _ image_globals m0 ∅ Hq).
  - exists m0, m', t, node. split; [exact E0|]. split; [exact E|]. simpl in Hl.
    destruct Hl as (H1 & _ & H2 & _). split; [exact H1|]. split; [exact H2|]. rewrite Rt.
    transitivity (rd64 ∅ image_tid); [|reflexivity]. symmetry. apply rd64_ext. intros x Hx. apply Hs.
    apply image_private. unfold image_tid in Hx. lia.
Defined.
